(* ===== verification/_CoqProject ===== *)
-Q . S2P
Prelude.v
Float32.v
HashMap.v
PrefixTree.v
Protocol.v
World.v
Text.v
Ipc.v
Topic.v
Server.v
Session.v
Locking.v
Discipline.v
Threads.v
Progress.v
Signals.v
Ending.v
Console.v
ServerMain.v
Command.v
Client.v
Producer.v
Subscriber.v
ShutdownSignal.v
System.v
