(* ===== verification/Prelude.v ===== *)
(** * treenity: a verification development

    treenity is a message broker: a server and command line clients that talk over FIFOs.
    A client creates topics, lists them, publishes messages to one, or subscribes to the
    messages of a topic whose key starts with a prefix, from an offset on; the server keeps
    the messages and the offset that each subscriber has acknowledged. This development
    models all of it that is under src/src and proves what makes it correct. It reads like
    the code: a file per component, a definition per function, with the names of the source.

    ** The parts, and where they are modelled

    - src/data_structures/HashMap.hpp: HashMap.v ([HashMap.t], one definition per member
      function and [run_call] over all of them); the arithmetic of the load factors, which is
      binary32, is in Float32.v.
    - src/data_structures/PrefixTree.{hpp,cpp}: PrefixTree.v ([insert], [remove] with its two
      loops, [match_], [clear]); the children of a node are a [HashMap.t].
    - src/protocol/Protocol.{hpp,cpp}: Protocol.v, the wire format: [serialize_*], [parse_*]
      and the header parsers, over buffers with a claimed length.
    - src/ipc/ipc.{hpp,cpp}: Ipc.v, [FifoReader] and [FifoWriter].
    - src/server/src/Topic.cpp and inc/Topic.hpp, Message.hpp: Topic.v, the messages, the
      subscribers and the worker of a topic ([run_step] is what the worker does between two
      waits, [pass] one round over the subscribers, [deliver] the loop over the messages).
    - src/server/src/Server.cpp and inc/Server.hpp: Server.v, the handlers, [frames] and
      [run_loop], [stop], and [step], the relation of everything the threads may do next.
    - Session.v puts the operations of the server and of its workers in a row, in any order
      ([run]), and looks at them from one topic ([topic_run]).
    - The mutexes, the condition variable and the threads of the server (the [lock_guard]s of
      Server.cpp and Topic.cpp, [cv.wait], [notify_all], [join]): Locking.v has the handlers
      again, as programs of accesses between [Lock] and [Unlock]; Threads.v runs them, with the
      worker of each topic ([worker_move]) and with signals between any two accesses ([step],
      [run]); Discipline.v is what programs promise about locks ([safe]) and its proof for
      all of them; Progress.v, Signals.v and Ending.v have what follows from it: that threads get
      on, and what a signal does that comes at the wrong time and at the right one.
    - src/main.cpp: ServerMain.v, the process of the server. [move] is the next step of the
      main thread in [Server::run], [signal_handler] what a signal runs in between,
      [run_ticks] any interleaving of these with turns of the workers, and [main] all of it
      from the construction to the destruction.
    - src/client/src/command.cpp: Command.v, the command line.
    - src/client/src/{exit_status,message_output,ipc_exchange,management_command}.cpp:
      Client.v.
    - src/client/src/producer_command.cpp: Producer.v.
    - src/client/src/subscriber_command.cpp and main.cpp: Subscriber.v ([client_main]).
    - src/client/src/shutdown_signal.cpp and the first lines of main.cpp: ShutdownSignal.v,
      the flag, the dispositions of the signals and the installation of the handlers.
    - What the programs stand on: World.v, the system calls and the trace of what was done
      with descriptors; Text.v, functions of the C library on characters and numbers;
      Console.v, the standard streams.
    - System.v composes the processes along the FIFOs between them.

    A handler occurs twice, as a function in Server.v, on which the theorems on what it computes
    are, and as a program in Locking.v; [Locking.alone_is_the_handler] and [alone_stop] say
    that they agree. Server.v calls Topic.v, which calls the tree through the class [SubscriptionIndex] (the
    instance is in PrefixTree.v, and the theorems on topics are proved against the class);
    both keep their tables in HashMap.v, for any hash function (class [Hash]). Server and
    client meet only in Protocol.v and in the FIFOs. [World.Kernel] is the interface to the
    operating system: any functions on any state, so that a theorem holds whatever the system,
    the other processes and the scheduler do. The laws that theorems need of it are classes of
    their own in World.v: [KernelLaws] (which descriptors are open), [TransferLaws] (a call
    transfers no more than it was asked to), [FiniteStalls] (calls are not interrupted for
    ever), [ClockLaws] (time passes), [ClosedReads] (nothing is read from a descriptor that
    is not open) and [SignalArrives] (the user ends the subscriber some time). [World.Simple] is a
    system with all of them, on which the witnesses run.

    ** Conventions

    A function of the source that can fail, loop or be undefined is a function to [outcome]:
    [Done], [Undefined] (undefined behaviour: a null or unset value, a read outside a buffer)
    or [NoFuel]. Machine integers are [Z] with the wrap written out ([wrap32], [wrap64]);
    bytes are [Byte.byte] and strings lists of them. State is passed explicitly: the object,
    then the [world]; the client also passes its streams. Loops that are not structural are
    [iterate] of their body with a bound; a theorem that something ends says [yields], that
    is, with every bound from some number on the result is the one given, or gives the bound:
    a transfer needs as many turns as there are bytes and stalls, opening a FIFO one for every
    20 milliseconds of its timeout, the loop of the worker one for every message, the loop over
    frames one for every byte received. A step of the main thread of the server reads no more
    than 1024 bytes and these hold no more than 1024 requests, which is how much room topics
    need below 2^32 messages for every step of a schedule; in a schedule of Threads.v it is one
    message for every request taken up. Schedules have any length; a worker comes round in four
    moves ([Progress.turn]), and what comes about in the end does so after finitely many. The
    loops over four bytes and over a string of known size in Producer.v have bounds in the
    definitions, and their specifications show that these are enough.

    ** What the theorems show

    - Composition (System.v): what a producer reads is what the topic gets, up to the first
      malformed line or failed write; from an accepted subscription on, whatever else happens
      in the server, what is published to the topic is what the subscriber prints, in order,
      each once, as far as it reads nothing behind a failed or short write; a subscriber that comes back goes on
      after the last message that it printed.
    - The running server (Session.v): it refines its topics, so that what holds for any
      operations on a topic holds in it, and the log of a topic is exactly what was published.
    - The threads (Threads.v, Progress.v, Signals.v, Ending.v), for every schedule of their accesses: they
      refine the operations of the topics, one whole operation after the other; a message is
      appended exactly once and reaches every subscriber it is for; accesses to the tables and
      to topics exclude one another; no wake-up is lost; there is no deadlock as long as signals
      only come when the main thread owns no mutex, and one for good when one comes while it
      does and the server runs; the handler of a signal can return, with every topic stopped
      and its worker gone, exactly if the main thread owned no mutex when it came.
    - The process (ServerMain.v): it goes through the requests whose frames it has read and no
      others, however its steps, workers and signals between them interleave; a signal that
      comes between two whole steps of the main thread ends it (one inside a handler need
      not: see above); on its own the main thread is [Server.run_loop]; what is left after
      a failed start.
    - Topics: the delivery to a subscriber under any interleaving with producers, other
      subscribers and the worker; the invariant of a topic; the shutdown notice; nothing else
      is written to or closed; the delivery loop as a recursion, and that it does not end with
      2^32 messages.
    - The server: the invariant of every reachable state, from which any bytes, any turn of a
      worker and [stop] lead on, nothing being undefined but a wrapped length; framing for any cut of the stream;
      no payload is undefined; the effect of every kind of request; how [stop] and [run] end;
      the overflow of the frame length.
    - The wire format: round trips, exactness (nothing else parses) and bounds.
    - The containers: refinement of finite maps and of lists of registrations, iteration, the
      growth of the table, pruning of the tree.
    - FIFOs: transfers are exact and end; descriptors are closed whatever goes wrong.
    - The client: the command line is parsed to well-formed commands and every such command
      has a command line; every command ends with a meaningful exit code, [subscribe] if a
      signal arrives; what is sent on every exit of a request and of a producer; what
      subscribers print and acknowledge, that they stop on a signal; the wrap of the
      check on the sizes of a delivery.

    Each property has a witness in the module [Witness] of its file, where its hypotheses hold
    for concrete data.

    ** Not modelled

    - In ServerMain.v signals come between two steps of the main thread; in Threads.v, which has
      requests but not the bytes they come in, between any two accesses. Not a signal inside
      an access, where the mutex itself, a table or the allocator is halfway through a change,
      nor on the thread of a worker, nor before the handlers of the server are installed.
    - How long a system call takes: the main thread may wait in [open] or [read], and the
      theorems on progress say what happens when it does not wait there for ever.
    - When signals set the flag of the client: the loop of the subscriber asks for it through
      [World.shutdown_requested_], which may answer anything; ShutdownSignal.v says what one
      signal does to it.
    - That the arguments of a process hold no NUL bytes, and that a FIFO takes up to PIPE_BUF
      bytes as a whole or not at all: theorems hold for any arguments and any short writes.
    - Failure to allocate, the buffers of the output streams (a write to them fails at once or
      not at all), and the copies of tables, which nothing makes.
    - The tests and googletest under src/tests. *)

From Stdlib Require Export ZArith NArith Lia.
From Stdlib Require Import Strings.Byte Strings.String.
From stdpp Require Export base tactics option list gmap.
From stdpp Require Export strings.

Set Warnings "-clear-no-such-hyp".

Declare Scope treenity_scope.
Delimit Scope treenity_scope with treenity.
Open Scope treenity_scope.

(** ** Bytes and byte strings

    [char], [unsigned char] and [uint8_t] are the 256 values of [Byte.byte];
    [std::string], [std::string_view] and [std::vector<uint8_t>] are lists of
    them. *)

Abbreviation byte := Byte.byte.
Abbreviation str := (list Byte.byte).

Notation "$ s" := (list_byte_of_string s%string)
  (at level 1, s at level 0, format "$ s") : treenity_scope.

#[export] Instance byte_eq_decision : EqDecision byte := Byte.byte_eq_dec.

#[export] Instance byte_countable : Countable byte :=
  inj_countable Byte.to_N Byte.of_N Byte.of_to_N.

#[export] Instance byte_inhabited : Inhabited byte := populate Byte.x00.

(** The number a byte stands for, and [static_cast<uint8_t>]. *)
Definition Z_of_byte (b : byte) : Z := Z.of_N (Byte.to_N b).

Definition byte_of_Z (z : Z) : byte :=
  default Byte.x00 (Byte.of_N (Z.to_N (z mod 2 ^ 8))).

(** ** Machine integers

    A [uint32_t] is a [Z] in [0, 2^32); [wrap32] is the conversion to it, and
    what unsigned 32-bit arithmetic does to a result. *)

Definition wrap32 (z : Z) : Z := (z mod 2 ^ 32)%Z.

Definition u32 (z : Z) : Prop := (0 ≤ z < 2 ^ 32)%Z.

#[export] Instance u32_dec z : Decision (u32 z).
Proof. unfold u32. apply _. Defined.

(** The length of a buffer or string as an unsigned number. *)
Definition zlen {A} (l : list A) : Z := Z.of_nat (length l).

(** ** Outcomes

    A run of code returns a value, does something the C++ standard leaves
    undefined (a read outside a buffer, a null dereference), or exhausts the
    iteration bound the model gives to a loop. *)

Inductive outcome (A : Type) : Type :=
| Done (a : A)
| Undefined
| NoFuel.

Arguments Done {A} a.
Arguments Undefined {A}.
Arguments NoFuel {A}.

#[export] Instance outcome_ret : MRet outcome := λ A a, Done a.

#[export] Instance outcome_bind : MBind outcome := λ A B f m,
  match m with
  | Done a => f a
  | Undefined => Undefined
  | NoFuel => NoFuel
  end.

(** [deref p] is [*p] for a pointer that may be null. *)
Definition deref {A} (p : option A) : outcome A :=
  match p with
  | Some a => Done a
  | None => Undefined
  end.

(** [while (true)], for at most [fuel] turns: the body goes on with [inl] or leaves with
    [inr]. *)
Fixpoint iterate {S R} (body : S → outcome (S + R)) (fuel : nat) (s : S) : outcome R :=
  match fuel with
  | O => NoFuel
  | Datatypes.S fuel =>
      r ← body s;
      match r with
      | inl s => iterate body fuel s
      | inr r => mret r
      end
  end.

(** ** Automation *)

Create HintDb treenity.
Create Rewrite HintDb treenity_len.

(** Case analysis on the scrutinee of the first [match] or [if] of the goal
    or of a hypothesis, remembering the equation. *)
Ltac case_on_match :=
  match goal with
  | |- context [match ?x with _ => _ end] => destruct x eqn:?
  | H : context [match ?x with _ => _ end] |- _ => destruct x eqn:?
  end.

Ltac crush_match := repeat (case_on_match; simplify_eq/=).

(** Arithmetic on [Z] with division and modulo by constants. *)
Ltac zify_div := Z.div_mod_to_equations; lia.

(** ** Lemmas on bytes and machine integers *)

Lemma Z_of_byte_range b : (0 ≤ Z_of_byte b < 256)%Z.
Proof. unfold Z_of_byte. pose proof (Byte.to_N_bounded b). lia. Qed.

Lemma byte_of_Z_of_byte b : byte_of_Z (Z_of_byte b) = b.
Proof.
  unfold byte_of_Z. change (2 ^ 8)%Z with 256%Z.
  rewrite Z.mod_small by apply Z_of_byte_range.
  unfold Z_of_byte. by rewrite N2Z.id, Byte.of_to_N.
Qed.

Lemma Z_of_byte_of_Z z : Z_of_byte (byte_of_Z z) = (z mod 256)%Z.
Proof.
  unfold byte_of_Z, Z_of_byte. change (2 ^ 8)%Z with 256%Z.
  pose proof (Z.mod_pos_bound z 256 eq_refl) as Hr.
  destruct (Byte.of_N (Z.to_N (z mod 256))) as [b|] eqn:Hb; simpl.
  - apply Byte.to_of_N in Hb. lia.
  - apply Byte.of_N_None_iff in Hb. lia.
Qed.

Lemma Z_of_byte_inj b1 b2 : Z_of_byte b1 = Z_of_byte b2 → b1 = b2.
Proof. intros H. by rewrite <- (byte_of_Z_of_byte b1), H, byte_of_Z_of_byte. Qed.

Lemma wrap32_small z : u32 z → wrap32 z = z.
Proof. apply Z.mod_small. Qed.

Lemma wrap32_range z : u32 (wrap32 z).
Proof. by apply Z.mod_pos_bound. Qed.

Lemma zlen_nonneg {A} (l : list A) : (0 ≤ zlen l)%Z.
Proof. unfold zlen. lia. Qed.

Lemma zlen_app {A} (l k : list A) : zlen (l ++ k) = (zlen l + zlen k)%Z.
Proof. unfold zlen. rewrite length_app. lia. Qed.

Lemma zlen_cons {A} (x : A) l : zlen (x :: l) = (1 + zlen l)%Z.
Proof. unfold zlen. simpl. lia. Qed.

Lemma zlen_nil {A} : zlen (@nil A) = 0%Z.
Proof. done. Qed.

#[export] Hint Resolve wrap32_range zlen_nonneg : treenity.
#[export] Hint Rewrite @zlen_app @zlen_cons @zlen_nil : treenity_len.

(** Record that the lengths that occur are not negative. *)
Ltac zlen_facts :=
  repeat match goal with
  | |- context [zlen ?l] =>
      lazymatch goal with
      | _ : (0 ≤ zlen l)%Z |- _ => fail
      | _ => pose proof (zlen_nonneg l)
      end
  | _ : context [zlen ?l] |- _ =>
      lazymatch goal with
      | _ : (0 ≤ zlen l)%Z |- _ => fail
      | _ => pose proof (zlen_nonneg l)
      end
  end.

(** [a | (b << n)] is [a + b * 2^n] when [a] fits below bit [n]. *)
Lemma lor_shiftl_add a b n :
  (0 ≤ n)%Z → (0 ≤ a < 2 ^ n)%Z →
  Z.lor a (Z.shiftl b n) = (a + b * 2 ^ n)%Z.
Proof.
  intros Hn Ha. rewrite Z.shiftl_mul_pow2 by done.
  rewrite <- Z.lxor_lor; [symmetry; apply Z.add_nocarry_lxor|];
    apply Z.bits_inj'; intros i Hi; rewrite Z.land_spec, Z.bits_0;
    destruct (Z.lt_ge_cases i n);
    try (rewrite (Z.mul_pow2_bits_low b n i) by lia; apply andb_false_r);
    replace a with (a mod 2 ^ n)%Z by (by apply Z.mod_small);
    by rewrite Z.mod_pow2_bits_high by lia.
Qed.

(** ** Lemmas on outcomes *)

Lemma bind_Done {A B} (m : outcome A) (f : A → outcome B) b :
  (m ≫= f) = Done b ↔ ∃ a, m = Done a ∧ f a = Done b.
Proof. destruct m; simpl; naive_solver. Qed.

Lemma triple_eq {A B C} (a a' : A) (b b' : B) (c c' : C) :
  (a, b, c) = (a', b', c') → a = a' ∧ b = b' ∧ c = c'.
Proof. by intros [= -> -> ->]. Qed.

(** With iterations enough, [f] returns [a]. *)
Definition yields {A} (f : nat → outcome A) (a : A) : Prop :=
  ∃ n, ∀ fuel, (n ≤ fuel)%nat → f fuel = Done a.

Definition converges {A} (f : nat → outcome A) : Prop := ∃ a, yields f a.

Lemma yields_const {A} (a : A) : yields (λ _, mret a) a.
Proof. by exists 0%nat. Qed.

Lemma yields_unique {A} (f : nat → outcome A) a b : yields f a → yields f b → a = b.
Proof.
  intros [n Hn] [k Hk]. specialize (Hn (n + k)%nat ltac:(lia)). specialize (Hk (n + k)%nat ltac:(lia)).
  rewrite Hn in Hk. by injection Hk.
Qed.

(** The result can be computed with a fuel of which only the beginning is known. *)
Lemma yields_at {A} (f : nat → outcome A) a b n :
  yields f a → (∀ m, f (n + m)%nat = Done b) → a = b.
Proof.
  intros [k Hk] Hn. specialize (Hk (n + k)%nat ltac:(lia)). rewrite Hn in Hk. by injection Hk.
Qed.

Lemma yields_at_1 {A B} (g : A → B) (f : nat → outcome A) a b n :
  yields f a → (∀ m, match f (n + m)%nat with Done r => Some (g r) | _ => None end = Some b) → g a = b.
Proof.
  intros [k Hk] Hn. specialize (Hk (n + k)%nat ltac:(lia)). specialize (Hn k). rewrite Hk in Hn.
  by injection Hn.
Qed.

Lemma yields_bind {A B} (f : nat → outcome A) (g : A → nat → outcome B) a b :
  yields f a → yields (g a) b → yields (λ fuel, f fuel ≫= λ a, g a fuel) b.
Proof.
  intros [n Hn] [m Hm]. exists (n `max` m)%nat. intros fuel Hf.
  rewrite Hn by lia. apply Hm. lia.
Qed.

Lemma converges_bind {A B} (f : nat → outcome A) (g : A → nat → outcome B) :
  converges f → (∀ a n, f n = Done a → converges (g a)) →
  converges (λ fuel, f fuel ≫= λ a, g a fuel).
Proof.
  intros (a & n & Ha) Hg. destruct (Hg a n) as [b Hb]; [by apply Ha|].
  exists b. eapply yields_bind; [by exists n|done].
Qed.

Lemma converges_at {A} (f : nat → outcome A) : converges f → ∃ a n, f n = Done a ∧ yields f a.
Proof. intros (a & n & Ha). exists a, n. split; [by apply Ha|by exists n]. Qed.

Lemma converges_const {A} (a : A) : converges (λ _, mret a).
Proof. exists a. apply yields_const. Qed.

Lemma iterate_continue {S R} (body : S → outcome (S + R)) fuel s s' :
  body s = Done (inl s') → iterate body (Datatypes.S fuel) s = iterate body fuel s'.
Proof. intros Hb. cbn [iterate]. by rewrite Hb. Qed.

Lemma iterate_leave {S R} (body : S → outcome (S + R)) fuel s r :
  body s = Done (inr r) → iterate body (Datatypes.S fuel) s = Done r.
Proof. intros Hb. cbn [iterate]. by rewrite Hb. Qed.

Lemma iterate_rule {S R} (body : S → outcome (S + R)) (I : S → Prop) (Q : R → Prop) :
  (∀ s, I s → match body s with Done (inl s) => I s | Done (inr r) => Q r | _ => True end) →
  ∀ fuel s r, I s → iterate body fuel s = Done r → Q r.
Proof.
  intros Hbody fuel. induction fuel as [|fuel IH]; intros s r HI; [done|]. cbn [iterate].
  specialize (Hbody s HI). intros ([s'|r'] & Hb & Hr)%bind_Done; rewrite Hb in Hbody; [eauto|].
  by injection Hr as <-.
Qed.

Lemma iterate_total {S R} (body : S → outcome (S + R)) (I : S → Prop) (Q : R → Prop)
    (measure : S → nat) :
  (∀ s, I s → ∃ r, body s = Done r ∧
     match r with inl s' => I s' ∧ (measure s' < measure s)%nat | inr r => Q r end) →
  ∀ s, I s → ∃ r, Q r ∧ ∀ fuel, (measure s < fuel)%nat → iterate body fuel s = Done r.
Proof.
  intros Hbody s. remember (measure s) as m eqn:Hm. revert s Hm.
  induction m as [m IH] using lt_wf_ind; intros s -> HI.
  destruct (Hbody s HI) as ([s'|r] & Hb & Hr).
  - destruct Hr as [HI' Hlt]. destruct (IH _ Hlt s' eq_refl HI') as (r & HQ & Hr).
    exists r. split; [done|]. intros [|fuel] Hf; [lia|]. cbn [iterate]. rewrite Hb. apply Hr. lia.
  - exists r. split; [done|]. intros [|fuel] Hf; [lia|]. cbn [iterate]. by rewrite Hb.
Qed.

(** A loop whose body has loops of its own, given iterations enough for all of them. *)
Definition loops {S R} (body : nat → S → outcome (S + R)) (s : S) (r : R) : Prop :=
  ∃ n, ∀ inner outer, (n ≤ inner)%nat → (n ≤ outer)%nat → iterate (body inner) outer s = Done r.

Lemma loops_leave {S R} (body : nat → S → outcome (S + R)) s r :
  yields (λ fuel, body fuel s) (inr r) → loops body s r.
Proof.
  intros [n Hn]. exists (Datatypes.S n). intros inner [|outer] Hi Ho; [lia|].
  cbn [iterate]. by rewrite Hn by lia.
Qed.

Lemma loops_continue {S R} (body : nat → S → outcome (S + R)) s s' r :
  yields (λ fuel, body fuel s) (inl s') → loops body s' r → loops body s r.
Proof.
  intros [n Hn] [m Hm]. exists (Datatypes.S (n `max` m)). intros inner [|outer] Hi Ho; [lia|].
  cbn [iterate]. rewrite Hn by lia. apply Hm; lia.
Qed.

Lemma loops_yields {S R} (body : nat → S → outcome (S + R)) s r :
  loops body s r → yields (λ fuel, iterate (body fuel) fuel s) r.
Proof. intros [n Hn]. exists n. intros fuel Hf. by apply Hn. Qed.

(** ** Lemmas on lists *)

Lemma concat_insert {A} (ls : list (list A)) i b b' :
  ls !! i = Some b →
  concat (<[i := b']> ls) = concat (take i ls) ++ b' ++ concat (drop (S i) ls).
Proof.
  intros Hi. rewrite insert_take_drop by (by eapply lookup_lt_Some).
  by rewrite concat_app.
Qed.

Lemma concat_lookup {A} (ls : list (list A)) i b :
  ls !! i = Some b →
  concat ls = concat (take i ls) ++ b ++ concat (drop (S i) ls).
Proof.
  intros Hi. rewrite <- (take_drop_middle ls i b Hi) at 1.
  by rewrite concat_app.
Qed.

Lemma elem_of_concat {A} (ls : list (list A)) x :
  x ∈ concat ls ↔ ∃ i b, ls !! i = Some b ∧ x ∈ b.
Proof.
  rewrite list_elem_of_In, in_concat. split.
  - intros (b & Hb & Hx). apply list_elem_of_In, list_elem_of_lookup in Hb as [i Hi].
    exists i, b. by rewrite list_elem_of_In.
  - intros (i & b & Hi & Hx). exists b.
    split; apply list_elem_of_In; [by eapply list_elem_of_lookup_2|done].
Qed.

Lemma snoc_app_perm {A} (b l : list A) e : (b ++ [e]) ++ l ≡ₚ e :: b ++ l.
Proof. rewrite <- (assoc_L (++)). symmetry. apply Permutation_middle. Qed.
