(* ===== verification/Float32.v ===== *)
(** * Float32: the binary32 arithmetic of the hash table's load factors

    [float] is IEEE binary32: the [SpecFloat] operations at precision 24 and
    maximal exponent 128, rounding to nearest even. The lemmas compute the two
    conversions and the division that decide when a table grows. *)

From Stdlib Require Import Floats.SpecFloat.
From S2P Require Import Prelude.

(** [static_cast<float>(n)] of a [size_t]. *)
Definition float_of_size (n : nat) : spec_float :=
  binary_normalize 24 128 (Z.of_nat n) 0 false.

Definition fdiv (x y : spec_float) : spec_float := SFdiv 24 128 x y.

(** [x > y] *)
Definition fgt (x y : spec_float) : bool := SFltb y x.

(** The literals [0.0f] and [0.75f]. *)
Definition f0 : spec_float := S754_zero false.

Definition f075 : spec_float := S754_finite false 12582912 (-24).

(** [static_cast<size_t>(std::ceil(x))]; the conversion of an infinity, a NaN
    or a value out of range is undefined. Load factors are positive, so that the
    argument is never negative. *)
Definition size_of_ceil (x : spec_float) : outcome nat :=
  match x with
  | S754_zero _ => Done 0
  | S754_finite false m e =>
      let z := (if (0 <=? e)%Z then Z.pos m * 2 ^ e
                else (Z.pos m + 2 ^ (- e) - 1) / 2 ^ (- e))%Z in
      if (z <? 2 ^ 64)%Z then Done (Z.to_nat z) else Undefined
  | _ => Undefined
  end.

(** ** Mantissas *)

Section Mantissas.
Local Open Scope Z_scope.

Definition digits (p : positive) : Z := Z.pos (digits2_pos p).

Lemma digits_bounds p : 2 ^ (digits p - 1) ≤ Z.pos p < 2 ^ digits p.
Proof.
  unfold digits. induction p as [p IH|p IH|]; simpl digits2_pos; [| |done];
    rewrite Pos2Z.inj_succ;
    replace (Z.succ (Z.pos (digits2_pos p)) - 1) with (Z.succ (Z.pos (digits2_pos p) - 1)) by lia;
    rewrite !Z.pow_succ_r by lia; lia.
Qed.

Lemma digits_unique p d : 0 < d → 2 ^ (d - 1) ≤ Z.pos p < 2 ^ d → digits p = d.
Proof.
  intros Hd [Hlo Hhi]. destruct (digits_bounds p) as [Hl Hh].
  assert (0 < digits p) by done.
  destruct (Z.lt_trichotomy (digits p) d) as [Hc|[?|Hc]]; [|done|].
  - pose proof (Z.pow_le_mono_r 2 (digits p) (d - 1)). lia.
  - pose proof (Z.pow_le_mono_r 2 d (digits p - 1)). lia.
Qed.

Lemma iter_xO p k : Z.pos (Pos.iter xO p k) = Z.pos p * 2 ^ Z.pos k.
Proof.
  induction k as [|k IH] using Pos.peano_ind; [change (2 ^ 1) with 2; simpl; lia|].
  rewrite Pos.iter_succ, Pos2Z.inj_xO, IH, Pos2Z.inj_succ, Z.pow_succ_r by lia. lia.
Qed.

(** A 24-digit mantissa needs no rounding. *)
Lemma round_exact m e :
  digits m = 24 → -149 ≤ e ≤ 104 →
  binary_round_aux 24 128 false (Z.pos m) e loc_Exact = S754_finite false m e.
Proof.
  intros Hm He. unfold digits in Hm.
  unfold binary_round_aux, shr_fexp, fexp, emin, Zdigits2. rewrite Hm.
  replace (Z.max (24 + e - 24) (3 - 128 - 24) - e) with 0 by lia. simpl. rewrite Hm.
  replace (Z.max (24 + e - 24) (3 - 128 - 24) - e) with 0 by lia. simpl.
  by rewrite (proj2 (Z.leb_le e (128 - 24))) by lia.
Qed.

(** A 25-digit mantissa whose last digit is zero loses that digit. *)
Lemma round_double m e :
  digits m = 24 → -149 ≤ e ≤ 103 →
  binary_round_aux 24 128 false (Z.pos m~0) e loc_Exact = S754_finite false m (e + 1).
Proof.
  intros Hm He. unfold digits in Hm.
  unfold binary_round_aux, shr_fexp, fexp, emin, Zdigits2.
  change (digits2_pos m~0) with (Pos.succ (digits2_pos m)). rewrite Pos2Z.inj_succ, Hm.
  replace (Z.max (Z.succ 24 + e - 24) (3 - 128 - 24) - e) with 1 by lia. simpl. rewrite Hm.
  replace (Z.max (24 + (e + 1) - 24) (3 - 128 - 24) - (e + 1)) with 0 by lia. simpl.
  by rewrite (proj2 (Z.leb_le (e + 1) (128 - 24))) by lia.
Qed.

(** Integers below 2^24 convert exactly: the mantissa is the number shifted to
    24 digits. *)
Lemma float_of_size_exact n :
  0 < Z.of_nat n < 2 ^ 24 →
  ∃ m d, float_of_size n = S754_finite false m (d - 24) ∧ digits m = 24 ∧
    0 < d ≤ 24 ∧ 2 ^ (d - 1) ≤ Z.of_nat n < 2 ^ d ∧ Z.pos m = Z.of_nat n * 2 ^ (24 - d).
Proof.
  intros Hn. unfold float_of_size. destruct (Z.of_nat n) as [|p|p] eqn:Hp; [lia| |lia].
  clear Hp n. destruct (digits_bounds p) as [Hl Hh].
  assert (0 < digits p ≤ 24) as Hd.
  { split; [done|]. destruct (Z.le_gt_cases (digits p) 24) as [|Hc]; [done|].
    pose proof (Z.pow_le_mono_r 2 24 (digits p - 1)). lia. }
  assert (∃ m, shl_align p 0 (digits p - 24) = (m, digits p - 24) ∧
               Z.pos m = Z.pos p * 2 ^ (24 - digits p)) as (m & Hm & Hmv).
  { unfold shl_align. rewrite Z.sub_0_r. destruct (digits p - 24) as [|k|k] eqn:Hk; [|lia|].
    - exists p. replace (24 - digits p) with 0 by lia. split; [done|lia].
    - exists (Pos.iter xO p k). split; [done|]. rewrite iter_xO.
      by replace (24 - digits p) with (Z.pos k) by lia. }
  assert (digits m = 24) as Hdm.
  { apply digits_unique; [done|]. rewrite Hmv.
    replace (2 ^ (24 - 1)) with (2 ^ (digits p - 1) * 2 ^ (24 - digits p))
      by (rewrite <- Z.pow_add_r by lia; f_equal; lia).
    replace (2 ^ 24) with (2 ^ digits p * 2 ^ (24 - digits p))
      by (rewrite <- Z.pow_add_r by lia; f_equal; lia).
    pose proof (Z.pow_pos_nonneg 2 (24 - digits p)). nia. }
  exists m, (digits p). split_and!; try done; try lia.
  unfold binary_normalize, binary_round, fexp, emin.
  fold (digits p). replace (Z.max (digits p + 0 - 24) (3 - 128 - 24)) with (digits p - 24) by lia.
  rewrite Hm. apply round_exact; [done|lia].
Qed.

(** Division by a power of two only changes the exponent. *)
Lemma fdiv_pow2 m e k :
  digits m = 24 → -100 ≤ e ≤ 0 → -23 ≤ k ≤ 0 →
  fdiv (S754_finite false m e) (S754_finite false 8388608 k) =
  S754_finite false m (e - k - 23).
Proof.
  intros Hm He Hk. unfold fdiv, SFdiv, SFdiv_core_binary, fexp, emin, Zdigits2.
  fold (digits m). rewrite Hm. change (Z.pos (digits2_pos 8388608)) with 24.
  replace (Z.min (Z.max (24 + e - (24 + k) - 24) (3 - 128 - 24)) (e - k)) with (e - k - 24) by lia.
  replace (e - k - (e - k - 24)) with 24 by lia. cbv beta iota zeta.
  rewrite Z.shiftl_mul_pow2 by lia.
  assert (Z.div_eucl (Z.pos m * 2 ^ 24) 8388608 = (Z.pos m~0, 0)) as ->.
  { rewrite (surjective_pairing (Z.div_eucl _ _)).
    change (Z.div_eucl (Z.pos m * 2 ^ 24) 8388608).1 with (Z.pos m * 2 ^ 24 / 8388608).
    change (Z.div_eucl (Z.pos m * 2 ^ 24) 8388608).2 with ((Z.pos m * 2 ^ 24) mod 8388608).
    replace (Z.pos m * 2 ^ 24) with (Z.pos m~0 * 8388608) by lia.
    by rewrite Z.div_mul, Z.mod_mul by done. }
  change (new_location 8388608 0) with loc_Exact. simpl xorb.
  replace (e - k - 23) with (e - k - 24 + 1) by lia. apply round_double; [done|lia].
Qed.

(** Rounding a quotient of at most 25 digits gives a finite number about as
    large. *)
Lemma round_finite q e l :
  0 < q < 2 ^ 25 → -125 ≤ e ≤ 100 → 24 ≤ Zdigits2 q →
  ∃ m e', binary_round_aux 24 128 false q e l = S754_finite false m e' ∧
    Z.pos m < 2 ^ 25 ∧ e' ≤ e + 2.
Proof.
  intros Hq He Hd. unfold binary_round_aux.
  assert (∃ mrs e1, shr_fexp 24 128 q e l = (mrs, e1) ∧ 0 < shr_m mrs < 2 ^ 24 ∧
            e ≤ e1 ≤ e + 1) as (mrs & e1 & -> & Hm & He1).
  { destruct q as [|q|q]; [lia| |lia]. simpl in Hd. fold (digits q) in Hd.
    pose proof (digits_bounds q) as Hb.
    assert (digits q = 24 ∨ digits q = 25) as Hdq.
    { destruct (Z.le_gt_cases (digits q) 25); [lia|].
      pose proof (Z.pow_le_mono_r 2 25 (digits q - 1)). lia. }
    unfold shr_fexp, fexp, emin, Zdigits2. fold (digits q). destruct Hdq as [Hdq|Hdq]; rewrite Hdq in *.
    - replace (Z.max (24 + e - 24) (3 - 128 - 24) - e) with 0 by lia. simpl.
      exists (shr_record_of_loc (Z.pos q) l), e. split; [done|].
      destruct l as [|[]]; simpl; lia.
    - replace (Z.max (25 + e - 24) (3 - 128 - 24) - e) with 1 by lia. simpl.
      eexists _, _. split; [done|]. split; [|lia].
      destruct l as [|[]]; destruct q; simpl; lia. }
  set (r := round_nearest_even (shr_m mrs) (loc_of_shr_record mrs)).
  assert (0 < r ≤ 2 ^ 24) as Hr.
  { unfold r, round_nearest_even. destruct (loc_of_shr_record mrs) as [|[]]; try lia.
    destruct (Z.even (shr_m mrs)); lia. }
  clearbody r. destruct r as [|r|r]; [lia| |lia]. pose proof (digits_bounds r) as Hb.
  assert (digits r ≤ 25) as Hdr.
  { destruct (Z.le_gt_cases (digits r) 25); [done|].
    pose proof (Z.pow_le_mono_r 2 25 (digits r - 1)). lia. }
  unfold shr_fexp, fexp, emin, Zdigits2. fold (digits r).
  destruct (Z.le_gt_cases (digits r) 24) as [Hle|Hgt].
  - replace (shr _ e1 _) with (shr_record_of_loc (Z.pos r) loc_Exact, e1)
      by (destruct (Z.max _ _ - e1) eqn:?; [done|lia|done]).
    simpl. rewrite (proj2 (Z.leb_le e1 (128 - 24))) by lia.
    exists r, e1. split; [done|lia].
  - replace (digits r) with 25 by lia.
    replace (Z.max (25 + e1 - 24) (3 - 128 - 24) - e1) with 1 by lia. simpl.
    rewrite (proj2 (Z.leb_le (e1 + 1) (128 - 24))) by lia.
    assert (digits r = 25) as Hr25 by lia. rewrite Hr25 in Hb. simpl in Hb.
    destruct r as [r|r|]; simpl; [eexists r, _; split; [done|lia]..|lia].
Qed.

(** The quotient of a count below 2^24 by 0.75 converts back to an integer. *)
Lemma capacity_defined n :
  Z.of_nat n < 2 ^ 24 → ∃ k, size_of_ceil (fdiv (float_of_size n) f075) = Done k.
Proof.
  intros Hn. destruct (decide (n = 0%nat)) as [->|Hn0]; [by exists 0%nat|].
  destruct (float_of_size_exact n) as (m & d & -> & Hm & Hd & _ & _); [lia|].
  unfold fdiv, SFdiv, f075, SFdiv_core_binary, fexp, emin, Zdigits2.
  fold (digits m). rewrite Hm. change (Z.pos (digits2_pos 12582912)) with 24.
  replace (Z.min (Z.max (24 + (d - 24) - (24 + -24) - 24) (3 - 128 - 24)) (d - 24 - -24))
    with (d - 24) by lia.
  replace (d - 24 - -24 - (d - 24)) with 24 by lia. cbv beta iota zeta.
  rewrite Z.shiftl_mul_pow2 by lia.
  rewrite (surjective_pairing (Z.div_eucl _ _)).
  change (Z.div_eucl (Z.pos m * 2 ^ 24) 12582912).1 with (Z.pos m * 2 ^ 24 / 12582912).
  destruct (digits_bounds m) as [Hlo Hhi]. rewrite Hm in *.
  set (q := Z.pos m * 2 ^ 24 / 12582912).
  assert (2 ^ 23 ≤ q < 2 ^ 25) as Hq by (unfold q; Z.div_mod_to_equations; lia).
  destruct (round_finite q (d - 24) (new_location 12582912 (Z.div_eucl (Z.pos m * 2 ^ 24) 12582912).2))
    as (m' & e' & Hr & Hm' & He'); [lia..| |].
  { destruct q as [|q0|q0]; [lia| |lia]. simpl. fold (digits q0).
    destruct (digits_bounds q0) as [_ Hh]. destruct (Z.le_gt_cases 24 (digits q0)); [done|].
    pose proof (Z.pow_le_mono_r 2 (digits q0) 23). lia. }
  simpl xorb. rewrite Hr. unfold size_of_ceil.
  match goal with |- context [(?z <? 2 ^ 64)] => assert (z < 2 ^ 64) as Hz end.
  { destruct (Z.leb_spec 0 e') as [He0|He0].
    - assert (2 ^ e' ≤ 2 ^ 2) by (apply Z.pow_le_mono_r; lia). nia.
    - pose proof (Z.pow_pos_nonneg 2 (- e')).
      apply (Z.le_lt_trans _ (Z.pos m')); [|lia].
      apply Z.div_le_upper_bound; [lia|]. nia. }
  rewrite (proj2 (Z.ltb_lt _ _) Hz). by eexists.
Qed.
End Mantissas.

(** [float(n) / float(2^j) > 0.75f] is [4 * n > 3 * 2^j], as long as both
    numbers convert exactly. *)
Lemma load_exceeds_075 n b j :
  (0 < Z.of_nat n < 2 ^ 24)%Z → (0 ≤ j ≤ 23)%Z → Z.of_nat b = (2 ^ j)%Z →
  fgt (fdiv (float_of_size n) (float_of_size b)) f075 =
  (3 * Z.of_nat b <? 4 * Z.of_nat n)%Z.
Proof.
  intros Hn Hj Hb.
  destruct (float_of_size_exact n Hn) as (m & d & -> & Hm & Hd & Hnd & Hmv).
  assert (float_of_size b = S754_finite false 8388608 (j - 23)) as ->.
  { unfold float_of_size. rewrite Hb. clear - Hj.
    destruct (Z.eq_dec j 23%Z) as [->|]; [done|].
    assert (∃ i, j = Z.of_nat i ∧ (i < 23)%nat) as (i & -> & Hi) by (exists (Z.to_nat j); lia).
    do 23 (destruct i as [|i]; [done|]). lia. }
  rewrite fdiv_pow2 by (done || lia).
  replace (d - 24 - (j - 23) - 23)%Z with (d - j - 24)%Z by lia.
  unfold fgt, SFltb, SFcompare, f075. rewrite Hb.
  destruct (Z.compare_spec (-24) (d - j - 24)) as [Heq|Hlt|Hgt].
  - assert (j = d) as -> by lia. fold (Pos.compare 12582912 m).
    change (Pos.compare 12582912 m) with (Z.compare 12582912 (Z.pos m)). rewrite Hmv.
    assert (2 ^ 24 = 2 ^ d * 2 ^ (24 - d))%Z as Hs
      by (rewrite <- Z.pow_add_r by lia; f_equal; lia).
    pose proof (Z.pow_pos_nonneg 2 (24 - d)).
    change (2 ^ 24)%Z with 16777216%Z in Hs.
    destruct (Z.compare_spec 12582912 (Z.of_nat n * 2 ^ (24 - d))); symmetry;
      (apply Z.ltb_lt || apply Z.ltb_ge); nia.
  - symmetry. apply Z.ltb_lt. pose proof (Z.pow_le_mono_r 2 j (d - 1)). lia.
  - symmetry. apply Z.ltb_ge. pose proof (Z.pow_le_mono_r 2 d (j - 1)).
    replace (2 ^ j)%Z with (2 * 2 ^ (j - 1))%Z
      by (rewrite <- Z.pow_succ_r by lia; f_equal; lia).
    lia.
Qed.
