(* ===== verification/HashMap.v ===== *)
(** * HashMap: the chained hash table of src/data_structures/HashMap.hpp

    [HashMap<Key, Value, Hash>] as a record of buckets, element count and load
    factor, with one definition per member function. Load factors are binary32
    numbers, so that the growth decisions are the ones the compiled code takes. The theorems relate
    every operation to stdpp's finite maps. *)

From Stdlib Require Import Floats.SpecFloat.
From stdpp Require Import sorting.
From S2P Require Import Prelude Float32.

Set Warnings "-clear-no-such-hyp".

(** The template parameter [Hash] ([std::hash<Key>] by default): any function
    to [size_t]. *)
Class Hash (K : Type) := std_hash : K → N.

Module HashMap.

(** ** State *)

Record t (K V : Type) : Type := Make {
  buckets_ : list (list (K * V));
  num_elements_ : nat;
  max_load_factor_ : spec_float
}.

Arguments Make {K V}.
Arguments buckets_ {K V}.
Arguments num_elements_ {K V}.
Arguments max_load_factor_ {K V}.

Section Operations.
Context {K V : Type} `{EqDecision K} `{Hash K}.

(** *** Constructors, copies and moves *)

Definition make (initial_capacity : nat) (max_load_factor : spec_float) : t K V :=
  Make (replicate (if 0 <? initial_capacity then initial_capacity else 16) [])
       0
       (if fgt max_load_factor f0 then max_load_factor else f075).

Definition make_default : t K V := make 16 f075.

Definition calculate_initial_capacity (elements : nat) (load_factor : spec_float)
    : outcome nat :=
  let factor := if fgt load_factor f0 then load_factor else f075 in
  capacity ← size_of_ceil (fdiv (float_of_size elements) factor);
  mret (Nat.max 16 capacity).

(** Move construction: the new table and what is left in [other]. *)
Definition move_construct (other : t K V) : t K V * t K V :=
  (Make (buckets_ other) (num_elements_ other) (max_load_factor_ other),
   Make (resize 1 [] []) 0 (max_load_factor_ other)).

(** Move assignment between two distinct tables: [this] keeps its own load
    factor. *)
Definition move_assign (this other : t K V) : t K V * t K V :=
  (Make (buckets_ other) (num_elements_ other) (max_load_factor_ this),
   Make (resize 1 [] []) 0 (max_load_factor_ other)).

(** *** Observers *)

Definition size (m : t K V) : nat := num_elements_ m.

Definition empty (m : t K V) : bool := num_elements_ m =? 0.

Definition bucket_count (m : t K V) : nat := length (buckets_ m).

Definition load_factor (m : t K V) : spec_float :=
  fdiv (float_of_size (num_elements_ m)) (float_of_size (length (buckets_ m))).

(** *** Lookup *)

(** [hasher_(key) % n] *)
Definition index_in (n : nat) (key : K) : nat :=
  N.to_nat (std_hash key mod N.of_nat n).

Definition get_index (m : t K V) (key : K) : nat :=
  index_in (length (buckets_ m)) key.

(** The scan of one chain for [entry.first == key]. *)
Fixpoint find_in_bucket (key : K) (bucket : list (K * V)) : option (K * V) :=
  match bucket with
  | [] => None
  | entry :: rest =>
      if decide (entry.1 = key) then Some entry else find_in_bucket key rest
  end.

Definition bucket_at (m : t K V) (idx : nat) : list (K * V) :=
  default [] (buckets_ m !! idx).

Definition find_entry (key : K) (m : t K V) : option (K * V) :=
  find_in_bucket key (bucket_at m (get_index m key)).

Definition find (key : K) (m : t K V) : option V := snd <$> find_entry key m.

Definition contains (key : K) (m : t K V) : bool :=
  match find key m with Some _ => true | None => false end.

(** [at] throws [std::out_of_range] ([None]) when the key is absent. *)
Definition at_ (key : K) (m : t K V) : option V :=
  snd <$> find_in_bucket key (bucket_at m (get_index m key)).

(** *** Modifiers *)

(** A write through the pointer that the scan of a chain returned. *)
Fixpoint write_in_bucket (key : K) (f : V → V) (bucket : list (K * V))
    : list (K * V) :=
  match bucket with
  | [] => []
  | entry :: rest =>
      if decide (entry.1 = key) then (entry.1, f entry.2) :: rest
      else entry :: write_in_bucket key f rest
  end.

(** [*find(key) = f( *find(key))]: the caller writes through the pointer it got
    from [find], [at] or [operator[]]. Nothing happens when there is none. *)
Definition write (key : K) (f : V → V) (m : t K V) : t K V :=
  Make (alter (write_in_bucket key f) (get_index m key) (buckets_ m))
       (num_elements_ m) (max_load_factor_ m).

Definition replace (key : K) (value : V) (m : t K V) : bool * t K V :=
  match find_entry key m with
  | None => (false, m)
  | Some _ => (true, write key (λ _, value) m)
  end.

(** One [push_back] of the redistribution loop. *)
Definition rehash_entry (new_capacity : nat) (new_buckets : list (list (K * V)))
    (entry : K * V) : list (list (K * V)) :=
  alter (λ b, b ++ [entry]) (index_in new_capacity entry.1) new_buckets.

Definition rehash (new_capacity : nat) (m : t K V) : t K V :=
  Make (foldl (λ new_buckets old_bucket,
                 foldl (rehash_entry new_capacity) new_buckets old_bucket)
              (replicate new_capacity []) (buckets_ m))
       (num_elements_ m) (max_load_factor_ m).

(** [float(num_elements_ + 1) / float(buckets_.size()) > max_load_factor_] *)
Definition needs_growth (m : t K V) : bool :=
  fgt (fdiv (float_of_size (num_elements_ m + 1)) (float_of_size (length (buckets_ m))))
      (max_load_factor_ m).

Definition grow (m : t K V) : t K V :=
  if needs_growth m then rehash (length (buckets_ m) * 2) m else m.

(** [buckets_[get_index(key)].emplace_back(key, value); ++num_elements_;] *)
Definition push (key : K) (value : V) (m : t K V) : t K V :=
  Make (alter (λ b, b ++ [(key, value)]) (get_index m key) (buckets_ m))
       (num_elements_ m + 1) (max_load_factor_ m).

Definition safe_insert (key : K) (value : V) (m : t K V) : t K V :=
  push key value (grow m).

Definition insert (key : K) (value : V) (m : t K V) : bool * t K V :=
  match find_entry key m with
  | Some _ => (false, m)
  | None => (true, safe_insert key value m)
  end.

Definition insert_or_assign (key : K) (value : V) (m : t K V) : bool * t K V :=
  match replace key value m with
  | (true, m') => (false, m')
  | (false, m') => (true, safe_insert key value m')
  end.

(** [operator[]]: the table once the returned reference designates the entry of
    [key], which is default constructed ([dflt]) when it was absent. *)
Definition subscript (dflt : V) (key : K) (m : t K V) : t K V :=
  match find_in_bucket key (bucket_at m (get_index m key)) with
  | Some _ => m
  | None => push key dflt (grow m)
  end.

Definition reserve (count : nat) (m : t K V) : outcome (t K V) :=
  required_buckets ← size_of_ceil (fdiv (float_of_size count) (max_load_factor_ m));
  mret (if length (buckets_ m) <? required_buckets then rehash required_buckets m else m).

(** The bulk [insert] over a forward range, which is also the one over an
    initializer list. *)
Definition insert_range (entries : list (K * V)) (m : t K V) : outcome (t K V) :=
  m ← reserve (num_elements_ m + length entries) m;
  mret (foldl (λ m entry, (insert entry.1 entry.2 m).2) m entries).

Definition make_list (init_list : list (K * V)) (max_load_factor : spec_float)
    : outcome (t K V) :=
  capacity ← calculate_initial_capacity (length init_list) max_load_factor;
  insert_range init_list (make capacity max_load_factor).

Fixpoint erase_in_bucket (key : K) (bucket : list (K * V)) : list (K * V) :=
  match bucket with
  | [] => []
  | entry :: rest =>
      if decide (entry.1 = key) then rest else entry :: erase_in_bucket key rest
  end.

Definition erase (key : K) (m : t K V) : bool * t K V :=
  let idx := get_index m key in
  match find_in_bucket key (bucket_at m idx) with
  | Some _ =>
      (true, Make (alter (erase_in_bucket key) idx (buckets_ m))
                  (num_elements_ m - 1) (max_load_factor_ m))
  | None => (false, m)
  end.

Definition clear (m : t K V) : t K V :=
  Make ((λ _, []) <$> buckets_ m) 0 (max_load_factor_ m).

(** *** Iteration *)

(** [IteratorImpl]: the bucket it is in and the position in its chain. *)
Record iterator : Type := Iter { bucket_idx_ : nat; list_it_ : nat }.

(** The loop of [advance_to_next_valid_bucket]; [fuel] is the number of buckets
    from [idx] on. *)
Fixpoint skip_empty (fuel : nat) (buckets : list (list (K * V))) (idx : nat) : nat :=
  match fuel with
  | 0 => idx
  | S fuel =>
      match buckets !! idx with
      | Some [] => skip_empty fuel buckets (S idx)
      | _ => idx
      end
  end.

Definition advance_to_next_valid_bucket (buckets : list (list (K * V)))
    (it : iterator) : iterator :=
  let idx := skip_empty (length buckets - bucket_idx_ it) buckets (bucket_idx_ it) in
  Iter idx (if idx <? length buckets then 0 else list_it_ it).

Definition iterator_at (m : t K V) (idx : nat) : iterator :=
  advance_to_next_valid_bucket (buckets_ m) (Iter idx 0).

Definition begin_ (m : t K V) : iterator := iterator_at m 0.

Definition end_ (m : t K V) : iterator := iterator_at m (length (buckets_ m)).

(** [*it]: undefined past the end. *)
Definition iterator_deref (m : t K V) (it : iterator) : outcome (K * V) :=
  deref (buckets_ m !! bucket_idx_ it ≫= λ b, b !! list_it_ it).

(** [++it] *)
Definition iterator_next (m : t K V) (it : iterator) : iterator :=
  let it' := Iter (bucket_idx_ it) (S (list_it_ it)) in
  if list_it_ it' =? length (bucket_at m (bucket_idx_ it))
  then advance_to_next_valid_bucket (buckets_ m) (Iter (S (bucket_idx_ it)) (list_it_ it'))
  else it'.

(** [it == other], iterators of the same table. *)
Definition iterator_eqb (m : t K V) (it other : iterator) : bool :=
  let n := length (buckets_ m) in
  if (n <=? bucket_idx_ it) && (n <=? bucket_idx_ other) then true
  else (bucket_idx_ it =? bucket_idx_ other) && (list_it_ it =? list_it_ other).

(** [for (auto it = from; it != m.end(); ++it)], collecting what [*it] gives. *)
Fixpoint traverse (fuel : nat) (m : t K V) (it : iterator) : outcome (list (K * V)) :=
  if iterator_eqb m it (end_ m) then Done []
  else match fuel with
       | 0 => NoFuel
       | S fuel =>
           entry ← iterator_deref m it;
           rest ← traverse fuel m (iterator_next m it);
           mret (entry :: rest)
       end.

(** The entries in iteration order. *)
Definition entries (m : t K V) : list (K * V) := concat (buckets_ m).

(** [for (auto& pair : m) body], where [body] may assign [pair.second] and
    changes the state [s]. *)
Fixpoint for_each_bucket {S} (body : K → V → S → outcome (V * S))
    (bucket : list (K * V)) (s : S) : outcome (list (K * V) * S) :=
  match bucket with
  | [] => mret ([], s)
  | entry :: rest =>
      '(v, s) ← body entry.1 entry.2 s;
      '(rest, s) ← for_each_bucket body rest s;
      mret ((entry.1, v) :: rest, s)
  end.

Fixpoint for_each_buckets {S} (body : K → V → S → outcome (V * S))
    (buckets : list (list (K * V))) (s : S) : outcome (list (list (K * V)) * S) :=
  match buckets with
  | [] => mret ([], s)
  | bucket :: rest =>
      '(bucket, s) ← for_each_bucket body bucket s;
      '(rest, s) ← for_each_buckets body rest s;
      mret (bucket :: rest, s)
  end.

Definition for_each {S} (body : K → V → S → outcome (V * S)) (m : t K V) (s : S)
    : outcome (t K V * S) :=
  '(buckets, s) ← for_each_buckets body (buckets_ m) s;
  mret (Make buckets (num_elements_ m) (max_load_factor_ m), s).

(** ** Well-formed tables *)

(** There is a bucket, every entry is in the bucket of its key, no key occurs
    twice, and the count is the number of entries. *)
Record wf (m : t K V) : Prop := {
  wf_buckets : 0 < length (buckets_ m);
  wf_index i b e :
    buckets_ m !! i = Some b → e ∈ b → get_index m e.1 = i;
  wf_nodup : NoDup (entries m).*1;
  wf_count : num_elements_ m = length (entries m)
}.

(** ** A finite map as the specification

    The calls a client makes, the table's answer to each, and the answer of a
    finite map. *)

Inductive call : Type :=
| Call_find (key : K)
| Call_contains (key : K)
| Call_at (key : K)
| Call_size
| Call_insert (key : K) (value : V)
| Call_replace (key : K) (value : V)
| Call_insert_or_assign (key : K) (value : V)
| Call_subscript (dflt : V) (key : K)
| Call_write (key : K) (f : V → V)
| Call_erase (key : K)
| Call_rehash (extra_buckets : nat)
| Call_clear.

Inductive answer : Type :=
| Answer_bool (b : bool)
| Answer_value (v : option V)
| Answer_size (n : nat)
| Answer_void.

Definition run_call (c : call) (m : t K V) : answer * t K V :=
  match c with
  | Call_find k => (Answer_value (find k m), m)
  | Call_contains k => (Answer_bool (contains k m), m)
  | Call_at k => (Answer_value (at_ k m), m)
  | Call_size => (Answer_size (size m), m)
  | Call_insert k v => let '(b, m) := insert k v m in (Answer_bool b, m)
  | Call_replace k v => let '(b, m) := replace k v m in (Answer_bool b, m)
  | Call_insert_or_assign k v => let '(b, m) := insert_or_assign k v m in (Answer_bool b, m)
  | Call_subscript d k => let m := subscript d k m in (Answer_value (find k m), m)
  | Call_write k f => (Answer_void, write k f m)
  | Call_erase k => let '(b, m) := erase k m in (Answer_bool b, m)
  | Call_rehash extra => (Answer_void, rehash (S extra) m)
  | Call_clear => (Answer_void, clear m)
  end.

Definition spec_call `{Countable K} (c : call) (M : gmap K V) : answer * gmap K V :=
  match c with
  | Call_find k | Call_at k => (Answer_value (M !! k), M)
  | Call_contains k => (Answer_bool (bool_decide (is_Some (M !! k))), M)
  | Call_size => (Answer_size (base.size M), M)
  | Call_insert k v =>
      if M !! k is Some _ then (Answer_bool false, M) else (Answer_bool true, <[k := v]> M)
  | Call_replace k v =>
      if M !! k is Some _ then (Answer_bool true, <[k := v]> M) else (Answer_bool false, M)
  | Call_insert_or_assign k v => (Answer_bool (bool_decide (M !! k = None)), <[k := v]> M)
  | Call_subscript d k =>
      if M !! k is Some v then (Answer_value (Some v), M)
      else (Answer_value (Some d), <[k := d]> M)
  | Call_write k f => (Answer_void, alter f k M)
  | Call_erase k => (Answer_bool (bool_decide (is_Some (M !! k))), delete k M)
  | Call_rehash _ => (Answer_void, M)
  | Call_clear => (Answer_void, ∅)
  end.

Fixpoint run_calls (cs : list call) (m : t K V) : list answer * t K V :=
  match cs with
  | [] => ([], m)
  | c :: cs =>
      let '(a, m) := run_call c m in
      let '(answers, m) := run_calls cs m in (a :: answers, m)
  end.

Fixpoint spec_calls `{Countable K} (cs : list call) (M : gmap K V)
    : list answer * gmap K V :=
  match cs with
  | [] => ([], M)
  | c :: cs =>
      let '(a, M) := spec_call c M in
      let '(answers, M) := spec_calls cs M in (a :: answers, M)
  end.

(** The calls that leave the choice of the bucket count to the table. *)
Definition no_rehash (c : call) : bool :=
  match c with Call_rehash _ => false | _ => true end.

(** A table at the default load factor whose bucket count is a power of two and
    whose load does not exceed 3/4; [c] bounds the number of insertions so far,
    and with it the bucket count. *)
Record balanced (c : nat) (m : t K V) : Prop := {
  balanced_factor : max_load_factor_ m = f075;
  balanced_pow2 : ∃ j, length (buckets_ m) = 2 ^ (4 + j);
  balanced_load : 4 * num_elements_ m ≤ 3 * length (buckets_ m);
  balanced_count : num_elements_ m ≤ c;
  balanced_size : length (buckets_ m) = 16 ∨ 3 * length (buckets_ m) ≤ 8 * c
}.

(** What an iterator has still to visit. *)
Definition rest_of (m : t K V) (it : iterator) : list (K * V) :=
  drop (list_it_ it) (bucket_at m (bucket_idx_ it)) ++
  concat (drop (S (bucket_idx_ it)) (buckets_ m)).

(** The property the redistribution loop of [rehash] maintains of the new
    buckets. *)
Definition placed (n : nat) (bs : list (list (K * V))) : Prop :=
  length bs = n ∧ ∀ i b e, bs !! i = Some b → e ∈ b → index_in n e.1 = i.

(** The finite map a table represents. *)
Definition to_map `{Countable K} (m : t K V) : gmap K V := list_to_map (entries m).

End Operations.

Arguments call : clear implicits.
Arguments answer : clear implicits.


(** ** Chains *)

Section Theory.
Context {K V : Type} `{Countable K} `{Hash K}.
Implicit Types (m : t K V) (b l : list (K * V)) (bs : list (list (K * V))) (k : K) (v : V) (e : K * V).

Lemma index_in_lt n k : 0 < n → index_in n k < n.
Proof. intros Hn. unfold index_in. pose proof (N.mod_lt (std_hash k) (N.of_nat n)). lia. Qed.

Lemma find_in_bucket_Some k b e : find_in_bucket k b = Some e → e.1 = k ∧ e ∈ b.
Proof.
  induction b as [|e' b IH]; simpl; [done|]. case_decide; [set_solver|].
  intros Hf. specialize (IH Hf). set_solver.
Qed.

Lemma find_in_bucket_None k b : find_in_bucket k b = None ↔ k ∉ b.*1.
Proof.
  induction b as [|e b IH]; csimpl; [set_solver|].
  rewrite not_elem_of_cons. case_decide; naive_solver.
Qed.

Lemma erase_in_bucket_perm k b e :
  find_in_bucket k b = Some e → b ≡ₚ e :: erase_in_bucket k b.
Proof.
  induction b as [|e' b IH]; simpl; [done|].
  case_decide; intros ?; simplify_eq; [done|]. rewrite IH at 1 by done. apply Permutation_swap.
Qed.

Lemma write_in_bucket_perm k f b e :
  find_in_bucket k b = Some e →
  write_in_bucket k f b ≡ₚ (k, f e.2) :: erase_in_bucket k b.
Proof.
  induction b as [|e' b IH]; simpl; [done|].
  case_decide; intros ?; simplify_eq; [done|]. rewrite IH by done. apply Permutation_swap.
Qed.

Lemma write_in_bucket_None k f b :
  find_in_bucket k b = None → write_in_bucket k f b = b.
Proof.
  induction b as [|e' b IH]; simpl; [done|].
  case_decide; [done|]. intros. by rewrite IH.
Qed.

(** ** Tables: buckets, entries and the map they represent *)

Lemma alter_insert (bs : list (list (K * V))) i b f :
  bs !! i = Some b → alter f i bs = <[i := f b]> bs.
Proof.
  intros Hi. apply list_eq. intros j. destruct (decide (i = j)) as [<-|Hne].
  - rewrite list_lookup_alter_eq, Hi, list_lookup_insert_eq; [done|by eapply lookup_lt_Some].
  - by rewrite list_lookup_alter_ne, list_lookup_insert_ne.
Qed.

Lemma concat_alter bs i b :
  bs !! i = Some b →
  ∃ l, concat bs ≡ₚ b ++ l ∧ ∀ f, concat (alter f i bs) ≡ₚ f b ++ l.
Proof.
  intros Hi. exists (concat (take i bs) ++ concat (drop (S i) bs)).
  rewrite (concat_lookup _ _ _ Hi). split; [apply Permutation_app_swap_app|]. intros f.
  rewrite (alter_insert _ _ _ _ Hi), (concat_insert _ _ _ _ Hi).
  apply Permutation_app_swap_app.
Qed.

Lemma wf_bucket_at m k :
  wf m → buckets_ m !! get_index m k = Some (bucket_at m (get_index m k)).
Proof.
  intros Hm. unfold bucket_at, get_index.
  destruct (lookup_lt_is_Some_2 (buckets_ m) (index_in (length (buckets_ m)) k)) as [b ->];
    [apply index_in_lt, Hm|done].
Qed.

Lemma find_entry_Some m k e :
  wf m → find_entry k m = Some e ↔ e.1 = k ∧ e ∈ entries m.
Proof.
  intros Hm. pose proof (wf_bucket_at m k Hm) as Hb. unfold find_entry. split.
  - intros [? ?]%find_in_bucket_Some. split; [done|]. apply elem_of_concat. eauto.
  - intros [<- He]. apply elem_of_concat in He as (i & b & Hi & He).
    pose proof (wf_index m Hm _ _ _ Hi He) as <-. simplify_eq.
    destruct (find_in_bucket _ _) as [e'|] eqn:Hf.
    + apply find_in_bucket_Some in Hf as [Hk He']. f_equal.
      destruct e as [k v], e' as [k' v']; simpl in *; subst. f_equal.
      assert (∀ w, (k, w) ∈ bucket_at m (get_index m k) → to_map m !! k = Some w) as Hw.
      { intros w Hw. apply elem_of_list_to_map; [apply Hm|]. apply elem_of_concat. eauto. }
      apply Hw in He, He'. congruence.
    + apply find_in_bucket_None in Hf. destruct Hf. by apply (list_elem_of_fmap_2 fst).
Qed.

(** Lookup in a table is lookup in the map it represents. *)
Lemma find_to_map m k : wf m → find k m = to_map m !! k.
Proof.
  intros Hm. unfold find, to_map. apply option_eq. intros v.
  rewrite <- elem_of_list_to_map by apply Hm. rewrite fmap_Some. split.
  - intros ([k' v'] & [? ?]%find_entry_Some & ?); simpl in *; naive_solver.
  - intros Hin. exists (k, v). by rewrite find_entry_Some.
Qed.

Lemma find_entry_find m k : find_entry k m = None ↔ find k m = None.
Proof. unfold find. by rewrite fmap_None. Qed.

Lemma find_entry_key m k e : find_entry k m = Some e → e = (k, e.2) ∧ find k m = Some e.2.
Proof.
  unfold find. intros Hf. rewrite Hf. apply find_in_bucket_Some in Hf as [<- _].
  by destruct e.
Qed.

Lemma entries_elem_of m k v : wf m → (k, v) ∈ entries m ↔ find k m = Some v.
Proof. intros Hm. rewrite find_to_map by done. apply elem_of_list_to_map, Hm. Qed.

Lemma to_map_perm m l : wf m → entries m ≡ₚ l → to_map m = list_to_map l.
Proof. intros Hm Hl. apply list_to_map_proper; [apply Hm|done]. Qed.

(** Changing the chain of [k] keeps a table well-formed when the keys stay
    distinct and every new entry of that chain has key [k]. *)
Lemma wf_alter m k f n mlf :
  let b := bucket_at m (get_index m k) in
  let m' := Make (alter f (get_index m k) (buckets_ m)) n mlf in
  wf m →
  (∀ e, e ∈ f b → e ∈ b ∨ e.1 = k) →
  NoDup (entries m').*1 → n = length (entries m') → wf m'.
Proof.
  intros b m' Hm Hf Hnd Hn. pose proof (wf_bucket_at m k Hm) as Hb. split; try done.
  - simpl. rewrite length_alter. apply Hm.
  - intros i b' e. subst m'. intros Hi He. unfold get_index. simpl in *.
    rewrite length_alter. fold (get_index m e.1). destruct (decide (get_index m k = i)) as [<-|Hne].
    + rewrite list_lookup_alter_eq, Hb in Hi. simplify_eq/=.
      destruct (Hf _ He) as [He' | ->]; [|done]. by apply (wf_index m Hm _ b).
    + rewrite list_lookup_alter_ne in Hi by done. by apply (wf_index m Hm _ b').
Qed.

(** *** Rehashing *)

Lemma placed_replicate n : placed n (replicate n ([] : list (K * V))).
Proof.
  split; [apply length_replicate|].
  intros i b e [-> _]%lookup_replicate. by intros ?%not_elem_of_nil.
Qed.

Lemma rehash_entry_placed n bs e :
  0 < n → placed n bs →
  placed n (rehash_entry n bs e) ∧ concat (rehash_entry n bs e) ≡ₚ e :: concat bs.
Proof.
  intros Hn [Hl Hi]. unfold rehash_entry.
  destruct (lookup_lt_is_Some_2 bs (index_in n e.1)) as [b Hb];
    [rewrite Hl; by apply index_in_lt|].
  split.
  - split; [by rewrite length_alter|]. intros i b' e'.
    destruct (decide (index_in n e.1 = i)) as [<-|Hne].
    + rewrite list_lookup_alter_eq, Hb. intros [= <-]%(inj Some).
      rewrite elem_of_app, list_elem_of_singleton. intros [?| ->]; [by eapply Hi|done].
    + rewrite list_lookup_alter_ne by done. by apply Hi.
  - destruct (concat_alter bs _ b Hb) as (l & Hbs & Hbs').
    by rewrite Hbs, Hbs', snoc_app_perm.
Qed.

Lemma rehash_loop n l bs :
  0 < n → placed n bs →
  placed n (foldl (rehash_entry n) bs l) ∧
  concat (foldl (rehash_entry n) bs l) ≡ₚ l ++ concat bs.
Proof.
  intros Hn. revert bs. induction l as [|e l IH]; intros bs Hbs; simpl; [done|].
  destruct (rehash_entry_placed n bs e Hn Hbs) as [Hp Hc].
  destruct (IH _ Hp) as [? ->]. split; [done|]. by rewrite Hc, <- Permutation_middle.
Qed.

Lemma rehash_flat n m :
  rehash n m = Make (foldl (rehash_entry n) (replicate n []) (entries m))
                    (num_elements_ m) (max_load_factor_ m).
Proof.
  unfold rehash, entries. f_equal. generalize (replicate n ([] : list (K * V))).
  induction (buckets_ m) as [|b bs IH]; intros nb; simpl; [done|].
  by rewrite IH, foldl_app.
Qed.

Lemma entries_rehash n m : 0 < n → entries (rehash n m) ≡ₚ entries m.
Proof.
  intros Hn. rewrite rehash_flat.
  destruct (rehash_loop n (entries m) _ Hn (placed_replicate n)) as [_ Hc].
  unfold entries at 1. simpl. rewrite Hc.
  replace (concat (replicate n ([] : list (K * V)))) with ([] : list (K * V));
    [by rewrite app_nil_r|]. clear. by induction n.
Qed.

Lemma bucket_count_rehash n m : 0 < n → length (buckets_ (rehash n m)) = n.
Proof.
  intros Hn. rewrite rehash_flat.
  apply (rehash_loop n (entries m) _ Hn (placed_replicate n)).
Qed.

Lemma wf_rehash n m : 0 < n → wf m → wf (rehash n m).
Proof.
  intros Hn Hm. split.
  - by rewrite bucket_count_rehash.
  - unfold get_index. rewrite bucket_count_rehash, rehash_flat by done.
    apply (rehash_loop n (entries m) _ Hn (placed_replicate n)).
  - rewrite entries_rehash by done. apply Hm.
  - rewrite entries_rehash by done. apply Hm.
Qed.

Lemma to_map_rehash n m : 0 < n → wf m → to_map (rehash n m) = to_map m.
Proof. intros Hn Hm. symmetry. apply to_map_perm; [done|by rewrite entries_rehash]. Qed.

Lemma grow_facts m :
  wf m →
  wf (grow m) ∧ to_map (grow m) = to_map m ∧
  num_elements_ (grow m) = num_elements_ m ∧ entries (grow m) ≡ₚ entries m ∧
  max_load_factor_ (grow m) = max_load_factor_ m.
Proof.
  intros Hm. pose proof (wf_buckets m Hm). unfold grow. destruct (needs_growth m); [|done].
  split_and!; [apply wf_rehash| apply to_map_rehash| |apply entries_rehash|]; (done || lia).
Qed.

(** *** Adding an entry *)

Lemma entries_push m k v : wf m → entries (push k v m) ≡ₚ (k, v) :: entries m.
Proof.
  intros Hm. pose proof (wf_bucket_at m k Hm) as Hb.
  destruct (concat_alter (buckets_ m) _ _ Hb) as (l & Hl & Hl').
  unfold entries, push; simpl. by rewrite Hl, Hl', snoc_app_perm.
Qed.

Lemma wf_push m k v : wf m → find k m = None → wf (push k v m).
Proof.
  intros Hm Hk. apply wf_alter; [done| | |]; fold (push k v m).
  - intros e. rewrite elem_of_app, list_elem_of_singleton. intros [?| ->]; auto.
  - rewrite entries_push by done. apply NoDup_cons. split; [|apply Hm].
    intros ([k' v'] & ? & Hin)%list_elem_of_fmap; simplify_eq/=.
    apply entries_elem_of in Hin; [congruence|done].
  - rewrite entries_push by done. simpl. rewrite (wf_count m Hm). lia.
Qed.

Lemma to_map_push m k v :
  wf m → find k m = None → to_map (push k v m) = <[k := v]> (to_map m).
Proof.
  intros Hm Hk. rewrite (to_map_perm _ ((k, v) :: entries m)); [done|by apply wf_push|].
  by apply entries_push.
Qed.

Lemma find_grow m k : wf m → find k (grow m) = find k m.
Proof.
  intros Hm. destruct (grow_facts m Hm) as (? & Heq & _).
  by rewrite !find_to_map, Heq by done.
Qed.

Lemma wf_safe_insert m k v : wf m → find k m = None → wf (safe_insert k v m).
Proof.
  intros Hm Hk. unfold safe_insert.
  apply wf_push; [by apply grow_facts|by rewrite find_grow].
Qed.

Lemma to_map_safe_insert m k v :
  wf m → find k m = None → to_map (safe_insert k v m) = <[k := v]> (to_map m).
Proof.
  intros Hm Hk. destruct (grow_facts m Hm) as (Hg & Heq & _).
  unfold safe_insert. rewrite to_map_push, Heq by (done || by rewrite find_grow). done.
Qed.

(** *** Writing, erasing and clearing *)

Lemma write_None m k f : wf m → find k m = None → write k f m = m.
Proof.
  intros Hm Hk. pose proof (wf_bucket_at m k Hm) as Hb.
  apply find_entry_find in Hk. unfold write. destruct m as [bs n mlf]; simpl in *. f_equal.
  rewrite (alter_insert _ _ _ _ Hb), write_in_bucket_None by done.
  by apply list_insert_id.
Qed.

(** Both a write and an erasure split the entries around the entry of [k]. *)
Lemma entries_split m k v :
  wf m → find k m = Some v →
  ∃ l, entries m ≡ₚ (k, v) :: l ∧
    entries (erase k m).2 ≡ₚ l ∧ (∀ f, entries (write k f m) ≡ₚ (k, f v) :: l).
Proof.
  intros Hm (e & Hf & ->)%fmap_Some. pose proof (wf_bucket_at m k Hm) as Hb.
  assert (e = (k, e.2)) as He by (by apply find_entry_key in Hf as [? _]).
  destruct (concat_alter (buckets_ m) _ _ Hb) as (l & Hl & Hl').
  unfold find_entry in Hf. pose proof (erase_in_bucket_perm _ _ _ Hf) as Hp.
  exists (erase_in_bucket k (bucket_at m (get_index m k)) ++ l). split_and!.
  - rewrite <- He. unfold entries. rewrite Hl. exact (Permutation_app_tail l Hp).
  - unfold erase. rewrite Hf. apply Hl'.
  - intros f. unfold entries. simpl. rewrite Hl'.
    exact (Permutation_app_tail l (write_in_bucket_perm _ f _ _ Hf)).
Qed.

Lemma elem_of_write_in_bucket k f b e : e ∈ write_in_bucket k f b → e ∈ b ∨ e.1 = k.
Proof.
  induction b as [|e' b IH]; simpl; [by left|].
  case_decide; rewrite !elem_of_cons; naive_solver.
Qed.

Lemma elem_of_erase_in_bucket k b e : e ∈ erase_in_bucket k b → e ∈ b.
Proof.
  induction b as [|e' b IH]; simpl; [done|].
  case_decide; rewrite !elem_of_cons; naive_solver.
Qed.

Lemma nodup_split m k v l :
  wf m → entries m ≡ₚ (k, v) :: l → (k ∉ l.*1) ∧ NoDup l.*1 ∧ num_elements_ m = S (length l).
Proof.
  intros Hm Hl. pose proof (wf_nodup m Hm) as Hnd. pose proof (wf_count m Hm) as Hn.
  rewrite Hl in Hnd, Hn. apply NoDup_cons in Hnd as [? ?]. done.
Qed.

Lemma wf_write m k f : wf m → wf (write k f m).
Proof.
  intros Hm. destruct (find k m) as [v|] eqn:Hk; [|by rewrite write_None].
  destruct (entries_split m k v Hm Hk) as (l & Hl & _ & Hl').
  destruct (nodup_split _ _ _ _ Hm Hl) as (Hkl & Hnd & Hn).
  apply wf_alter; [done|apply elem_of_write_in_bucket| |]; fold (write k f m); rewrite Hl'.
  - by apply NoDup_cons.
  - done.
Qed.

Lemma to_map_write m k f : wf m → to_map (write k f m) = alter f k (to_map m).
Proof.
  intros Hm. destruct (find k m) as [v|] eqn:Hk.
  - destruct (entries_split m k v Hm Hk) as (l & Hl & _ & Hl').
    rewrite (to_map_perm _ _ (wf_write m k f Hm) (Hl' f)), (to_map_perm _ _ Hm Hl).
    simpl. by rewrite alter_insert_eq.
  - rewrite write_None by done. rewrite find_to_map in Hk by done.
    apply map_eq. intros j. destruct (decide (k = j)) as [<-|].
    + by rewrite lookup_alter_eq, Hk.
    + by rewrite lookup_alter_ne.
Qed.

Lemma erase_Some m k v :
  wf m → find k m = Some v →
  (erase k m).1 = true ∧ wf (erase k m).2 ∧ to_map (erase k m).2 = delete k (to_map m).
Proof.
  intros Hm Hk. destruct (entries_split m k v Hm Hk) as (l & Hl & Hl' & _).
  destruct (nodup_split _ _ _ _ Hm Hl) as (Hkl & Hnd & Hn).
  assert (find_in_bucket k (bucket_at m (get_index m k)) ≠ None) as Hf.
  { intros Hf%find_entry_find. congruence. }
  assert (wf (erase k m).2) as Hwf.
  { unfold erase in *. destruct (find_in_bucket _ _) eqn:?; [simpl in *|done].
    apply wf_alter; [done| | |]; rewrite ?Hl'; [|done|lia].
    intros e ?%elem_of_erase_in_bucket. by left. }
  split_and!; [unfold erase; by destruct (find_in_bucket _ _)|done|].
  rewrite (to_map_perm _ _ Hwf Hl'), (to_map_perm _ _ Hm Hl). simpl.
  rewrite delete_insert_id; [done|]. by apply not_elem_of_list_to_map_1.
Qed.

Lemma erase_None m k : find k m = None → erase k m = (false, m).
Proof. intros Hk%find_entry_find. unfold erase, find_entry in *. by rewrite Hk. Qed.

Lemma wf_erase m k : wf m → wf (erase k m).2.
Proof.
  intros Hm. destruct (find k m) eqn:Hk; [by eapply erase_Some|by rewrite erase_None].
Qed.

Lemma to_map_erase m k : wf m → to_map (erase k m).2 = delete k (to_map m).
Proof.
  intros Hm. destruct (find k m) eqn:Hk; [by eapply erase_Some|].
  rewrite erase_None by done. rewrite find_to_map in Hk by done. by rewrite delete_id.
Qed.

Lemma entries_clear m : entries (clear m) = [].
Proof. unfold entries, clear; simpl. by induction (buckets_ m). Qed.

Lemma wf_clear m : wf m → wf (clear m).
Proof.
  intros Hm. split.
  - simpl. rewrite length_fmap. apply Hm.
  - intros i b e. simpl. rewrite list_lookup_fmap, fmap_Some.
    intros (? & ? & ->). by intros ?%not_elem_of_nil.
  - rewrite entries_clear. constructor.
  - by rewrite entries_clear.
Qed.

Lemma to_map_clear m : to_map (clear m) = ∅.
Proof. unfold to_map. by rewrite entries_clear. Qed.

(** *** Construction *)

Lemma entries_replicate n mlf : entries (Make (replicate n ([] : list (K * V))) 0 mlf) = [].
Proof. unfold entries; simpl. by induction n. Qed.

Lemma wf_replicate n mlf : 0 < n → wf (Make (replicate n ([] : list (K * V))) 0 mlf).
Proof.
  intros Hn. split; rewrite ?entries_replicate; simpl.
  - by rewrite length_replicate.
  - unfold get_index. simpl. rewrite length_replicate. apply (placed_replicate n).
  - constructor.
  - done.
Qed.

Lemma wf_make n mlf : wf (make n mlf : t K V).
Proof. apply wf_replicate. destruct n; simpl; lia. Qed.

Lemma to_map_make n mlf : to_map (make n mlf : t K V) = ∅.
Proof. unfold to_map, make. by rewrite entries_replicate. Qed.

Lemma wf_make_default : wf (make_default : t K V).
Proof. apply wf_make. Qed.

Lemma to_map_make_default : to_map (make_default : t K V) = ∅.
Proof. apply to_map_make. Qed.

Lemma size_to_map m : wf m → num_elements_ m = base.size (to_map m).
Proof.
  intros Hm. unfold to_map. rewrite map_size_list_to_map by apply Hm.
  apply Hm.
Qed.

(** *** Observers, bulk operations *)

Lemma subscript_facts m k dflt :
  wf m →
  wf (subscript dflt k m) ∧
  to_map (subscript dflt k m) = <[k := default dflt (find k m)]> (to_map m).
Proof.
  intros Hm. unfold subscript. fold (find_entry k m).
  destruct (find_entry k m) as [e|] eqn:Hf.
  - split; [done|]. apply find_entry_key in Hf as [_ Hf]. rewrite Hf. simpl.
    rewrite find_to_map in Hf by done. by rewrite insert_id.
  - apply find_entry_find in Hf. rewrite Hf.
    split; [by apply wf_safe_insert|by apply to_map_safe_insert].
Qed.

Lemma insert_facts m k v :
  wf m →
  wf (insert k v m).2 ∧
  (insert k v m).1 = bool_decide (to_map m !! k = None) ∧
  to_map (insert k v m).2 = <[k := default v (to_map m !! k)]> (to_map m).
Proof.
  intros Hm. unfold insert. rewrite <- find_to_map by done.
  destruct (find_entry k m) as [e|] eqn:Hf; simpl.
  - apply find_entry_key in Hf as [_ Hf]. rewrite Hf, bool_decide_eq_false_2 by done.
    split_and!; [done..|]. simpl. rewrite find_to_map in Hf by done. by rewrite insert_id.
  - apply find_entry_find in Hf. rewrite Hf, bool_decide_eq_true_2 by done.
    split_and!; [by apply wf_safe_insert|done|by apply to_map_safe_insert].
Qed.

Lemma replace_facts m k v :
  wf m →
  wf (replace k v m).2 ∧
  (replace k v m).1 = bool_decide (is_Some (to_map m !! k)) ∧
  to_map (replace k v m).2 = alter (λ _, v) k (to_map m).
Proof.
  intros Hm. rewrite <- to_map_write by done. unfold replace.
  rewrite <- find_to_map by done.
  destruct (find_entry k m) as [e|] eqn:Hf; simpl.
  - apply find_entry_key in Hf as [_ Hf]. rewrite Hf, bool_decide_eq_true_2 by eauto.
    auto using wf_write.
  - apply find_entry_find in Hf. rewrite Hf, bool_decide_eq_false_2 by (by intros [? [=]]).
    by rewrite write_None.
Qed.

Lemma insert_or_assign_facts m k v :
  wf m →
  wf (insert_or_assign k v m).2 ∧
  (insert_or_assign k v m).1 = bool_decide (to_map m !! k = None) ∧
  to_map (insert_or_assign k v m).2 = <[k := v]> (to_map m).
Proof.
  intros Hm. destruct (replace_facts m k v Hm) as (Hwf & Hb & Hmap).
  unfold insert_or_assign. rewrite <- find_to_map in * by done.
  destruct (replace k v m) as [[] m'] eqn:Hr; simpl in *; subst.
  - symmetry in Hb. apply bool_decide_eq_true in Hb as [w Hw].
    rewrite Hw, bool_decide_eq_false_2, Hmap by done. split_and!; [done..|].
    rewrite find_to_map in Hw by done. apply map_eq. intros j.
    rewrite lookup_alter, lookup_insert. case_decide; [by subst; rewrite Hw|done].
  - symmetry in Hb. apply bool_decide_eq_false in Hb.
    apply eq_None_not_Some in Hb. rewrite Hb, bool_decide_eq_true_2 by done.
    unfold replace in Hr. apply find_entry_find in Hb as Hf. rewrite Hf in Hr. simplify_eq.
    split_and!; [by apply wf_safe_insert|done|by apply to_map_safe_insert].
Qed.

Lemma reserve_facts m m' count :
  wf m → reserve count m = Done m' →
  wf m' ∧ to_map m' = to_map m ∧ length (buckets_ m) ≤ length (buckets_ m').
Proof.
  intros Hm. unfold reserve. rewrite bind_Done. intros (n & _ & [= <-]).
  destruct (Nat.ltb_spec (length (buckets_ m)) n); [|done].
  split_and!; [apply wf_rehash|apply to_map_rehash|rewrite bucket_count_rehash]; (done || lia).
Qed.

Lemma insert_range_facts m m' l :
  wf m → insert_range l m = Done m' →
  wf m' ∧ to_map m' = to_map m ∪ list_to_map l.
Proof.
  intros Hm. unfold insert_range. rewrite bind_Done.
  intros (m1 & (Hm1 & <- & _)%reserve_facts & [= <-]); [|done].
  clear Hm m. revert m1 Hm1. induction l as [|e l IH]; intros m Hm; simpl.
  - by rewrite (right_id_L ∅ (∪)).
  - destruct (insert_facts m e.1 e.2 Hm) as (Hm' & _ & Hmap).
    destruct (IH _ Hm') as [? ->]. split; [done|]. rewrite Hmap.
    apply map_eq. intros j. rewrite !lookup_union, !lookup_insert.
    case_decide; [subst|done]. by destruct (to_map m !! e.1), (list_to_map l !! e.1).
Qed.

(** *** Iterators *)

Lemma skip_empty_spec m i :
  i ≤ length (buckets_ m) →
  let j := skip_empty (length (buckets_ m) - i) (buckets_ m) i in
  i ≤ j ≤ length (buckets_ m) ∧
  concat (drop i (buckets_ m)) = concat (drop j (buckets_ m)) ∧
  (j < length (buckets_ m) → bucket_at m j ≠ []).
Proof.
  remember (length (buckets_ m) - i) as fuel eqn:Hfuel. revert i Hfuel.
  induction fuel as [|fuel IH]; intros i Hfuel Hi; simpl; [split_and!; (done || lia)|].
  destruct (lookup_lt_is_Some_2 (buckets_ m) i) as [b Hb]; [lia|]. rewrite Hb.
  destruct b as [|e b].
  - destruct (IH (S i)) as (? & Hc & Hj); [lia..|]. split_and!; [lia..| |done].
    rewrite <- Hc, (drop_S _ _ _ Hb). done.
  - split_and!; [lia..|done|]. unfold bucket_at. by rewrite Hb.
Qed.

Lemma end_eq m : end_ m = Iter (length (buckets_ m)) 0.
Proof.
  unfold end_, iterator_at, advance_to_next_valid_bucket. simpl.
  rewrite Nat.sub_diag. simpl. by rewrite Nat.ltb_irrefl.
Qed.

Lemma iterator_eqb_end m it :
  iterator_eqb m it (end_ m) = (length (buckets_ m) <=? bucket_idx_ it).
Proof.
  rewrite end_eq. unfold iterator_eqb. simpl. rewrite Nat.leb_refl, andb_true_r.
  destruct (Nat.leb_spec (length (buckets_ m)) (bucket_idx_ it)); [done|].
  by rewrite (proj2 (Nat.eqb_neq _ _)) by lia.
Qed.

(** An iterator is past the end, or on an entry. *)
Lemma advance_rest m i p :
  i ≤ length (buckets_ m) →
  let it := advance_to_next_valid_bucket (buckets_ m) (Iter i p) in
  (bucket_idx_ it = length (buckets_ m) ∧ concat (drop i (buckets_ m)) = []) ∨
  (bucket_idx_ it < length (buckets_ m) ∧
   list_it_ it < length (bucket_at m (bucket_idx_ it)) ∧
   rest_of m it = concat (drop i (buckets_ m))).
Proof.
  intros Hi. destruct (skip_empty_spec m i Hi) as (Hj & Hc & Hne).
  unfold advance_to_next_valid_bucket. simpl in *.
  set (j := skip_empty _ _ _) in *. rewrite Hc.
  destruct (Nat.ltb_spec j (length (buckets_ m))) as [Hlt|Hge].
  - right. split_and!; [done| |].
    + specialize (Hne Hlt). destruct (bucket_at m j); simpl; [done|lia].
    + unfold rest_of, bucket_at. simpl.
      destruct (lookup_lt_is_Some_2 (buckets_ m) j) as [b Hb]; [lia|].
      by rewrite Hb, (drop_S _ _ _ Hb).
  - left. split; [lia|]. by rewrite drop_ge.
Qed.

Lemma traverse_end fuel m it :
  bucket_idx_ it = length (buckets_ m) → traverse fuel m it = Done [].
Proof. intros Hi. destruct fuel; simpl; by rewrite iterator_eqb_end, Hi, Nat.leb_refl. Qed.

Lemma iterator_next_eq m i p :
  iterator_next m (Iter i p) =
  if S p =? length (bucket_at m i)
  then advance_to_next_valid_bucket (buckets_ m) (Iter (S i) (S p)) else Iter i (S p).
Proof. done. Qed.

Lemma traverse_rest fuel m it :
  bucket_idx_ it < length (buckets_ m) →
  list_it_ it < length (bucket_at m (bucket_idx_ it)) →
  length (rest_of m it) ≤ fuel →
  traverse fuel m it = Done (rest_of m it).
Proof.
  revert it. induction fuel as [|fuel IH]; intros [i p] Hi Hp Hlen; simpl in Hi, Hp;
    destruct (lookup_lt_is_Some_2 _ _ Hp) as [e He];
    assert (rest_of m (Iter i p) = e :: drop (S p) (bucket_at m i) ++ concat (drop (S i) (buckets_ m)))
      as Hrest by (unfold rest_of; simpl; by rewrite (drop_S _ _ _ He));
    rewrite Hrest in Hlen |- *; simpl in Hlen; [lia|]; simpl.
  rewrite iterator_eqb_end, (proj2 (Nat.leb_gt _ _)) by done.
  assert (iterator_deref m (Iter i p) = Done e) as ->.
  { unfold iterator_deref, bucket_at in *. simpl in *.
    destruct (buckets_ m !! i); simpl in *; [by rewrite He|done]. }
  rewrite iterator_next_eq. cbn [mbind outcome_bind].
  destruct (Nat.eqb_spec (S p) (length (bucket_at m i))) as [Hend|Hin].
  - rewrite Hend, drop_all in Hlen |- *.
    destruct (advance_rest m (S i) (length (bucket_at m i)) Hi) as [(Heq & Hnil)|(? & ? & Hr)].
    + by rewrite traverse_end, Hnil.
    + simpl in Hlen. rewrite IH, Hr by (done || rewrite Hr; lia). done.
  - assert (S p < length (bucket_at m i)) by lia.
    rewrite IH; [done..|unfold rest_of; simpl; lia].
Qed.

Lemma traverse_entries m fuel :
  length (entries m) ≤ fuel → traverse fuel m (begin_ m) = Done (entries m).
Proof.
  intros Hf. unfold begin_, iterator_at.
  destruct (advance_rest m 0 0 (Nat.le_0_l _)) as [(Heq & Hnil)|(? & ? & Hr)].
  - rewrite drop_0 in Hnil. unfold entries.
    by rewrite traverse_end, Hnil.
  - rewrite drop_0 in Hr. fold (entries m) in Hr. rewrite <- Hr in Hf |- *.
    by apply traverse_rest.
Qed.

(** *** Lookup after each operation *)

Lemma find_make n mlf k : find k (make n mlf : t K V) = None.
Proof. by rewrite find_to_map, to_map_make by apply wf_make. Qed.

Lemma find_make_default k : find k (make_default : t K V) = None.
Proof. apply find_make. Qed.

Lemma find_clear m k : wf m → find k (clear m) = None.
Proof. intros Hm. by rewrite find_to_map, to_map_clear by by apply wf_clear. Qed.

Lemma find_write m k f k' :
  wf m → find k' (write k f m) = if decide (k = k') then f <$> find k m else find k' m.
Proof.
  intros Hm. rewrite !find_to_map, to_map_write by auto using wf_write.
  rewrite lookup_alter. by case_decide; subst.
Qed.

Lemma find_erase m k k' :
  wf m → find k' (erase k m).2 = if decide (k = k') then None else find k' m.
Proof.
  intros Hm. rewrite !find_to_map, to_map_erase by auto using wf_erase.
  by rewrite lookup_delete.
Qed.

Lemma find_subscript m d k k' :
  wf m →
  find k' (subscript d k m) = if decide (k = k') then Some (default d (find k m)) else find k' m.
Proof.
  intros Hm. destruct (subscript_facts m k d Hm) as [Hwf Heq].
  by rewrite find_to_map, Heq, lookup_insert, (find_to_map m k') by done.
Qed.

Lemma find_insert m k v k' :
  wf m →
  find k' (insert k v m).2 = if decide (k = k') then Some (default v (find k m)) else find k' m.
Proof.
  intros Hm. destruct (insert_facts m k v Hm) as (Hwf & _ & Heq).
  by rewrite find_to_map, Heq, lookup_insert, <- !find_to_map by done.
Qed.

Lemma find_insert_or_assign m k v k' :
  wf m →
  find k' (insert_or_assign k v m).2 = if decide (k = k') then Some v else find k' m.
Proof.
  intros Hm. destruct (insert_or_assign_facts m k v Hm) as (Hwf & _ & Heq).
  by rewrite find_to_map, Heq, lookup_insert, <- find_to_map by done.
Qed.

Lemma wf_subscript m d k : wf m → wf (subscript d k m).
Proof. intros Hm. by apply subscript_facts. Qed.

Lemma wf_insert m k v : wf m → wf (insert k v m).2.
Proof. intros Hm. by apply insert_facts. Qed.

Lemma wf_insert_or_assign m k v : wf m → wf (insert_or_assign k v m).2.
Proof. intros Hm. by apply insert_or_assign_facts. Qed.

Lemma contains_find m k : contains k m = bool_decide (is_Some (find k m)).
Proof. unfold contains. by destruct (find k m). Qed.

Lemma empty_true m : wf m → empty m = true ↔ ∀ k, find k m = None.
Proof.
  intros Hm. unfold empty. rewrite Nat.eqb_eq, size_to_map, map_size_empty_iff by done.
  split.
  - intros He k. by rewrite find_to_map, He.
  - intros Hf. apply map_empty. intros k. by rewrite <- find_to_map.
Qed.

Lemma empty_false m k v : wf m → find k m = Some v → empty m = false.
Proof.
  intros Hm Hk. apply not_true_is_false. rewrite empty_true by done.
  intros Hn. by rewrite Hn in Hk.
Qed.

(** *** In-place iteration *)

Section ForEach.
Context {S : Type} (body : K → V → S → outcome (V * S)).

Lemma for_each_bucket_app l1 l2 s :
  for_each_bucket body (l1 ++ l2) s =
  '(r1, s) ← for_each_bucket body l1 s;
  '(r2, s) ← for_each_bucket body l2 s; mret (r1 ++ r2, s).
Proof.
  revert s. induction l1 as [|e l1 IH]; intros s; simpl.
  - by destruct (for_each_bucket body l2 s) as [[]| |].
  - destruct (body e.1 e.2 s) as [[v s1]| |]; simpl; [|done..]. rewrite IH.
    destruct (for_each_bucket body l1 s1) as [[r1 s2]| |]; simpl; [|done..].
    by destruct (for_each_bucket body l2 s2) as [[]| |].
Qed.

Lemma for_each_bucket_keys l l' s s' :
  for_each_bucket body l s = Done (l', s') → l'.*1 = l.*1.
Proof.
  revert l' s. induction l as [|e l IH]; intros l' s; simpl; [by intros [= <- <-]|].
  rewrite bind_Done. intros ([v s1] & _ & Hr).
  apply bind_Done in Hr as ([r s2] & Hr & [= <- <-]). csimpl. f_equal. by eapply IH.
Qed.

Lemma for_each_buckets_flat bs s :
  (for_each_buckets body bs s ≫= λ '(bs', s'), mret (concat bs', s')) =
  for_each_bucket body (concat bs) s.
Proof.
  revert s. induction bs as [|b bs IH]; intros s; simpl; [done|].
  rewrite for_each_bucket_app.
  destruct (for_each_bucket body b s) as [[b' s1]| |]; simpl; [|done..].
  rewrite <- IH. by destruct (for_each_buckets body bs s1) as [[]| |].
Qed.

(** A loop is related to its start as its turns are. *)
Lemma for_each_preorder (R : relation S) `{!PreOrder R} (m : t K V) s m' s' :
  (∀ k v s v' s', body k v s = Done (v', s') → R s s') →
  for_each body m s = Done (m', s') → R s s'.
Proof.
  intros Hbody. assert (∀ l s l' s', for_each_bucket body l s = Done (l', s') → R s s') as Hbucket.
  { induction l as [|[k v] l IH]; intros s1 l' s2; simpl; [by intros [= _ <-]|].
    intros ([v1 s3] & H1 & ([l1 s4] & H2 & [= _ <-])%bind_Done)%bind_Done.
    transitivity s3; [by eapply Hbody|by eapply IH]. }
  unfold for_each. intros ([bs s1] & Hbs & [= _ <-])%bind_Done.
  pose proof (for_each_buckets_flat (buckets_ m) s) as Hflat. rewrite Hbs in Hflat.
  symmetry in Hflat. by eapply Hbucket.
Qed.

Lemma for_each_buckets_keys bs bs' s s' :
  for_each_buckets body bs s = Done (bs', s') → (λ b, b.*1) <$> bs' = (λ b, b.*1) <$> bs.
Proof.
  revert bs' s. induction bs as [|b bs IH]; intros bs' s; simpl; [by intros [= <- <-]|].
  rewrite bind_Done. intros ([b' s1] & Hb & Hr).
  apply bind_Done in Hr as ([r s2] & Hr & [= <- <-]). csimpl.
  f_equal; [by eapply for_each_bucket_keys|by eapply IH].
Qed.

Lemma for_each_facts m m' s s' :
  wf m → for_each body m s = Done (m', s') →
  wf m' ∧ (entries m').*1 = (entries m).*1 ∧
  for_each_bucket body (entries m) s = Done (entries m', s').
Proof.
  intros Hm. unfold for_each. rewrite bind_Done. intros ([bs s1] & Hbs & [= <- <-]).
  pose proof (for_each_buckets_keys _ _ _ _ Hbs) as Hkeys.
  assert (for_each_bucket body (entries m) s = Done (concat bs, s1)) as Hflat.
  { unfold entries. by rewrite <- for_each_buckets_flat, Hbs. }
  pose proof (for_each_bucket_keys _ _ _ _ Hflat) as Hk.
  assert (length bs = length (buckets_ m)) as Hlen.
  { by rewrite <- (length_fmap (λ b, b.*1) bs), Hkeys, length_fmap. }
  split_and!; [|done..]. split.
  - simpl. rewrite Hlen. apply Hm.
  - intros i b e. unfold get_index. simpl. rewrite Hlen. intros Hi He.
    apply (f_equal (.!! i)) in Hkeys. rewrite !list_lookup_fmap, Hi in Hkeys.
    destruct (buckets_ m !! i) as [b0|] eqn:Hb0; simplify_eq/=.
    apply (list_elem_of_fmap_2 fst) in He. rewrite Hkeys in He.
    apply list_elem_of_fmap in He as (e0 & -> & He0). by eapply (wf_index m Hm).
  - unfold entries at 1; simpl. rewrite Hk. apply Hm.
  - unfold entries; simpl. rewrite <- (length_fmap fst), Hk, length_fmap. apply Hm.
Qed.

Lemma for_each_Done m s l' s' :
  for_each_bucket body (entries m) s = Done (l', s') →
  ∃ m', for_each body m s = Done (m', s') ∧ entries m' = l'.
Proof.
  unfold entries at 1. rewrite <- for_each_buckets_flat, bind_Done.
  intros ([bs s1] & Hbs & [= <- <-]). unfold for_each. rewrite Hbs. simpl. eauto.
Qed.

Lemma list_to_map_replace l1 l2 k v v' :
  NoDup (l1 ++ (k, v) :: l2).*1 →
  (list_to_map (l1 ++ (k, v') :: l2) : gmap K V) =
  <[k:=v']> (list_to_map (l1 ++ (k, v) :: l2)).
Proof.
  intros Hnd.
  assert (∀ x : K * V, x :: l1 ++ l2 ≡ₚ l1 ++ x :: l2) as Hp by (intros; apply Permutation_middle).
  assert (∀ x, NoDup (((k, x) :: l1 ++ l2).*1)) as Hnd'.
  { intros x. rewrite fmap_app in Hnd. simpl in *. rewrite fmap_app. by rewrite Permutation_middle. }
  rewrite <- (list_to_map_proper _ _ (Hnd' v') (Hp _)), <- (list_to_map_proper _ _ (Hnd' v) (Hp _)).
  simpl. by rewrite insert_insert_eq.
Qed.

(** The rule for loops over a table: [P X M s] holds when the keys of [X] have been
    visited, [M] is the map the table stands for and [s] the state. *)
Lemma for_each_rule (P : gset K → gmap K V → S → Prop) m s :
  wf m → P ∅ (to_map m) s →
  (∀ X M s k v, P X M s → M !! k = Some v → k ∉ X →
     ∃ v' s', body k v s = Done (v', s') ∧ P ({[k]} ∪ X) (<[k:=v']> M) s') →
  ∃ m' s', for_each body m s = Done (m', s') ∧ wf m' ∧
           dom (to_map m') = dom (to_map m) ∧ P (dom (to_map m')) (to_map m') s'.
Proof.
  intros Hm Hinit Hstep.
  assert (∀ todo done s, NoDup (done ++ todo).*1 →
    P (list_to_set done.*1) (list_to_map (done ++ todo)) s →
    ∃ todo' s', for_each_bucket body todo s = Done (todo', s') ∧
      P (list_to_set (done ++ todo').*1) (list_to_map (done ++ todo')) s') as Hloop.
  { clear s Hinit. induction todo as [|[k v] todo IH]; intros done s Hnd HP; simpl.
    { exists [], s. by rewrite app_nil_r in *. }
    destruct (Hstep (list_to_set done.*1) (list_to_map (done ++ (k, v) :: todo)) s k v HP)
      as (v' & s1 & -> & HP1); [| |simpl].
    - apply elem_of_list_to_map_1; [done|]. apply elem_of_app. right. apply list_elem_of_here.
    - rewrite elem_of_list_to_set. rewrite fmap_app in Hnd.
      apply NoDup_app in Hnd as (_ & Hnd & _). intros Hin. apply (Hnd k Hin), list_elem_of_here.
    - destruct (IH (done ++ [(k, v')]) s1) as (todo' & s2 & -> & HP2).
      + rewrite <- (assoc_L (++)). by rewrite fmap_app in *.
      + rewrite <- (assoc_L (++)). simpl. rewrite (list_to_map_replace _ _ _ v) by done.
        rewrite fmap_app, list_to_set_app_L. simpl. rewrite (right_id_L ∅ (∪)).
        by rewrite (comm_L (∪)).
      + simpl. exists ((k, v') :: todo'), s2. split; [done|].
        by rewrite <- (assoc_L (++)) in HP2. }
  destruct (Hloop (entries m) [] s) as (l' & s' & Hrun & HP); [apply Hm|done|].
  destruct (for_each_Done m s l' s' Hrun) as (m' & Hfor & He).
  destruct (for_each_facts m m' s s' Hm Hfor) as (Hm' & Hk & _).
  exists m', s'. split_and!; [done|done| |].
  - unfold to_map. rewrite !dom_list_to_map_L. by rewrite Hk.
  - unfold to_map. rewrite He. rewrite dom_list_to_map_L. done.
Qed.
End ForEach.

(** *** Simulation by a finite map *)

Lemma run_call_simulates c m :
  wf m →
  (run_call c m).1 = (spec_call c (to_map m)).1 ∧
  wf (run_call c m).2 ∧ to_map (run_call c m).2 = (spec_call c (to_map m)).2.
Proof.
  intros Hm. destruct c as [k|k|k| |k v|k v|k v|d k|k f|k|extra|]; simpl.
  - by rewrite find_to_map.
  - unfold contains. rewrite find_to_map by done. by destruct (to_map m !! k).
  - unfold at_. fold (find_entry k m). fold (find k m). by rewrite find_to_map.
  - by rewrite <- size_to_map.
  - destruct (insert_facts m k v Hm) as (? & Hb & Hmap). destruct (insert k v m); simpl in *.
    subst. destruct (to_map m !! k) eqn:Hk; simpl in *; [|done].
    by rewrite Hmap, insert_id.
  - destruct (replace_facts m k v Hm) as (? & Hb & Hmap). destruct (replace k v m); simpl in *.
    subst. rewrite Hmap. destruct (to_map m !! k) eqn:Hk; simpl in *.
    + split_and!; [done..|]. apply map_eq. intros j. rewrite lookup_alter, lookup_insert.
      case_decide; [by subst; rewrite Hk|done].
    + split_and!; [done..|]. apply map_eq. intros j. rewrite lookup_alter.
      case_decide; [by subst; rewrite Hk|done].
  - destruct (insert_or_assign_facts m k v Hm) as (? & Hb & Hmap).
    destruct (insert_or_assign k v m); simpl in *. by subst.
  - destruct (subscript_facts m k d Hm) as (Hwf & Hmap).
    rewrite !find_to_map in * by done. rewrite Hmap, lookup_insert_eq.
    destruct (to_map m !! k) eqn:Hk; simpl; [|done]. by rewrite insert_id.
  - split_and!; [done|by apply wf_write|by apply to_map_write].
  - destruct (find k m) as [v|] eqn:Hk.
    + destruct (erase_Some m k v Hm Hk) as (Hb & ? & ?). rewrite find_to_map in Hk by done.
      destruct (erase k m); simpl in *. subst. by rewrite Hk.
    + rewrite erase_None by done. rewrite find_to_map in Hk by done. simpl.
      by rewrite Hk, delete_id.
  - split_and!; [done|apply wf_rehash; (done || lia)|apply to_map_rehash; (done || lia)].
  - split_and!; [done|by apply wf_clear|apply to_map_clear].
Qed.

Lemma run_calls_simulates cs m :
  wf m →
  (run_calls cs m).1 = (spec_calls cs (to_map m)).1 ∧
  wf (run_calls cs m).2 ∧ to_map (run_calls cs m).2 = (spec_calls cs (to_map m)).2.
Proof.
  revert m. induction cs as [|c cs IH]; intros m Hm; simpl; [done|].
  destruct (run_call_simulates c m Hm) as (Ha & Hwf & Hmap).
  destruct (run_call c m) as [a m1], (spec_call c (to_map m)) as [a' M1]; simpl in *; subst.
  destruct (IH m1 Hwf) as (Has & ? & ?).
  destruct (run_calls cs m1), (spec_calls cs (to_map m1)); simpl in *. by subst.
Qed.

(** *** Load factor *)

Lemma needs_growth_balanced c m :
  balanced c m → (Z.of_nat c < 2 ^ 22)%Z →
  needs_growth m = (3 * length (buckets_ m) <? 4 * (num_elements_ m + 1)).
Proof.
  intros [Hf [j Hj] Hl Hn Hs] Hc. unfold needs_growth. rewrite Hf.
  assert (Z.of_nat (length (buckets_ m)) = 2 ^ Z.of_nat (4 + j))%Z as Hb
    by (rewrite Hj, Nat2Z.inj_pow; done).
  assert (Z.of_nat (4 + j) ≤ 23)%Z.
  { destruct (Z.le_gt_cases (Z.of_nat (4 + j)) 23) as [|Hgt]; [done|].
    pose proof (Z.pow_le_mono_r 2 24 (Z.of_nat (4 + j))). lia. }
  rewrite (load_exceeds_075 _ _ (Z.of_nat (4 + j))) by lia.
  destruct (Nat.ltb_spec (3 * length (buckets_ m)) (4 * (num_elements_ m + 1)));
    [apply Z.ltb_lt|apply Z.ltb_ge]; lia.
Qed.

Lemma bucket_count_push m k v : length (buckets_ (push k v m)) = length (buckets_ m).
Proof. apply length_alter. Qed.

Lemma balanced_safe_insert c m k v :
  wf m → balanced c m → (Z.of_nat c < 2 ^ 22)%Z → balanced (S c) (safe_insert k v m).
Proof.
  intros Hm Hb Hc. pose proof (needs_growth_balanced c m Hb Hc) as Hg.
  destruct Hb as [Hf [j Hj] Hl Hn Hs]. pose proof (wf_buckets m Hm).
  unfold safe_insert, grow. rewrite Hg.
  destruct (Nat.ltb_spec (3 * length (buckets_ m)) (4 * (num_elements_ m + 1))) as [Hlt|Hge];
    split; rewrite ?bucket_count_push, ?bucket_count_rehash by lia; simpl; try (done || lia).
  - exists (S j). rewrite Hj. replace (4 + S j) with (S (4 + j)) by lia.
    by rewrite Nat.pow_succ_r', Nat.mul_comm.
  - by exists j.
Qed.

Lemma balanced_mono c m : balanced c m → balanced (S c) m.
Proof. intros [? ? ? ? ?]. split; (done || lia). Qed.

Lemma balanced_fewer c m n bs :
  balanced c m → length bs = length (buckets_ m) → n ≤ num_elements_ m →
  balanced (S c) (Make bs n (max_load_factor_ m)).
Proof. intros [? Hj ? ? ?] Hb Hn.
  split; cbn [buckets_ num_elements_ max_load_factor_]; rewrite ?Hb; (done || lia). Qed.

Lemma balanced_write c m k f : balanced c m → balanced (S c) (write k f m).
Proof. intros Hb. apply balanced_fewer; [done|apply length_alter|done]. Qed.

Lemma balanced_replace c m k v : balanced c m → balanced (S c) (replace k v m).2.
Proof.
  intros Hb. unfold replace.
  destruct (find_entry k m); [by apply balanced_write|by apply balanced_mono].
Qed.

Lemma balanced_run_call c m cl :
  no_rehash cl = true → wf m → balanced c m → (Z.of_nat c < 2 ^ 22)%Z →
  balanced (S c) (run_call cl m).2.
Proof.
  intros Hcl Hm Hb Hc. pose proof (balanced_safe_insert c m) as Hins.
  pose proof (balanced_mono c m Hb).
  destruct cl as [k|k|k| |k v|k v|k v|d k|k f|k|extra|]; simpl in *; try done.
  - unfold insert. destruct (find_entry k m); simpl; auto.
  - pose proof (balanced_replace c m k v Hb). by destruct (replace k v m).
  - unfold insert_or_assign. pose proof (balanced_replace c m k v Hb) as Hr.
    unfold replace in *. destruct (find_entry k m); simpl in *; auto.
  - unfold subscript. destruct (find_in_bucket _ _); [done|by apply Hins].
  - by apply balanced_write.
  - unfold erase. destruct (find_in_bucket _ _); simpl; [|done].
    apply balanced_fewer; [done|apply length_alter|lia].
  - apply balanced_fewer; [done|apply length_fmap|lia].
Qed.

Lemma balanced_run_calls cs c m :
  forallb no_rehash cs = true → wf m → balanced c m →
  (Z.of_nat (length cs + c) < 2 ^ 22)%Z → balanced (length cs + c) (run_calls cs m).2.
Proof.
  revert c m. induction cs as [|cl cs IH]; intros c m Hcs Hm Hb Hlen; simpl in *; [done|].
  apply andb_prop in Hcs as [Hcl Hcs].
  destruct (run_call_simulates cl m Hm) as (_ & Hwf & _).
  pose proof (balanced_run_call c m cl Hcl Hm Hb) as Hb'.
  destruct (run_call cl m) as [a m1]; simpl in *.
  specialize (IH (S c) m1 Hcs Hwf). destruct (run_calls cs m1); simpl in *.
  replace (S (length cs + c)) with (length cs + S c) by lia. apply IH; [apply Hb'|]; lia.
Qed.

Lemma balanced_make_default : balanced 0 (make_default : t K V).
Proof. split; simpl; [done|by exists 0|lia..|by left]. Qed.

(** *** Bulk insertion is defined for tables of the default load factor *)

Lemma reserve_Done m n :
  max_load_factor_ m = f075 → (Z.of_nat n < 2 ^ 24)%Z → ∃ m', reserve n m = Done m'.
Proof.
  intros Hf Hn. unfold reserve. rewrite Hf.
  destruct (capacity_defined n Hn) as [k ->]. simpl. eauto.
Qed.

Lemma insert_range_Done m l :
  max_load_factor_ m = f075 → (Z.of_nat (num_elements_ m + length l) < 2 ^ 24)%Z →
  ∃ m', insert_range l m = Done m'.
Proof.
  intros Hf Hn. unfold insert_range.
  destruct (reserve_Done m _ Hf Hn) as [m' ->]. simpl. eauto.
Qed.

Lemma make_list_Done l :
  (Z.of_nat (length l) < 2 ^ 24)%Z →
  ∃ m : t K V, make_list l f075 = Done m ∧ wf m ∧ to_map m = list_to_map l.
Proof.
  intros Hn. unfold make_list, calculate_initial_capacity. change (fgt f075 f0) with true.
  destruct (capacity_defined _ Hn) as [k ->]. simpl.
  destruct (insert_range_Done (make (16 `max` k) f075) l) as [m Hm]; [done|done|].
  exists m. split; [done|]. apply insert_range_facts in Hm as [? ->]; [|apply wf_make].
  by rewrite to_map_make, (left_id_L ∅ (∪)).
Qed.

(** ** What clients rely on *)

(** C19: a table, whatever its hash function, its initial capacity and its load
    factor, answers every sequence of calls (lookups, insertions, replacements,
    subscripts, writes through returned pointers, erasures, forced rehashes,
    clearing) as a finite map that starts empty does. *)
Theorem table_simulates_finite_map (cap : nat) (mlf : Floats.SpecFloat.spec_float)
    (cs : list (call K V)) :
  (run_calls cs (make cap mlf)).1 = (spec_calls cs (∅ : gmap K V)).1 ∧
  to_map (run_calls cs (make cap mlf)).2 = (spec_calls cs ∅).2.
Proof.
  destruct (run_calls_simulates cs (make cap mlf) (wf_make cap mlf)) as (Ha & _ & Hm).
  rewrite to_map_make in Ha, Hm. done.
Qed.

(** In every table that calls reach, there is at least one bucket, each entry
    is in the bucket its hash selects, no key occurs twice, and [size()] is the
    number of entries. *)
Theorem reachable_table_wf (cap : nat) (mlf : Floats.SpecFloat.spec_float)
    (cs : list (call K V)) :
  wf (run_calls cs (make cap mlf)).2.
Proof. apply run_calls_simulates, wf_make. Qed.

(** C37: the loop from [begin()] to [end()] terminates after one step per entry,
    never dereferences an invalid position, and yields every entry of the table
    exactly once: no key twice, and a pair exactly when [find] gives its value. *)
Theorem iteration_yields_each_entry_once (m : t K V) (Hm : wf m) :
  ∃ l, traverse (num_elements_ m) m (begin_ m) = Done l ∧
    NoDup l.*1 ∧ ∀ k v, (k, v) ∈ l ↔ find k m = Some v.
Proof.
  exists (entries m). split_and!.
  - apply traverse_entries. rewrite (wf_count m Hm). lia.
  - apply Hm.
  - intros k v. by apply entries_elem_of.
Qed.

(** C38: a table of default load factor that answers fewer than 2^22 calls keeps a
    power of two of buckets, at least 16, and never holds more entries than three
    quarters of them: growth happens before every insertion that would exceed the
    factor, and one doubling is enough. *)
Theorem default_load_bounded (cs : list (call K V))
    (Hcs : forallb no_rehash cs = true) (Hlen : (Z.of_nat (length cs) < 2 ^ 22)%Z) :
  let m := (run_calls cs make_default).2 in
  4 * size m ≤ 3 * bucket_count m ∧ ∃ j, bucket_count m = 2 ^ (4 + j).
Proof.
  destruct (balanced_run_calls cs 0 make_default Hcs wf_make_default balanced_make_default)
    as [_ ? ? _ _]; [by rewrite Nat.add_0_r|done].
Qed.

(** The initializer-list constructor, for fewer than 2^24 pairs, returns a
    well-formed table that holds exactly the pairs of the list, the first of each
    key when a key occurs several times. *)
Theorem initializer_list_first_wins (l : list (K * V))
    (Hlen : (Z.of_nat (length l) < 2 ^ 24)%Z) :
  ∃ m : t K V, make_list l f075 = Done m ∧ wf m ∧
    ∀ k, find k m = snd <$> find_in_bucket k l.
Proof.
  destruct (make_list_Done l Hlen) as (m & Hm & Hwf & Hmap). exists m. split_and!; [done..|].
  intros k. rewrite find_to_map, Hmap by done. clear.
  induction l as [|e l IH]; simpl; [done|]. rewrite lookup_insert.
  case_decide; simpl; [done|]. apply IH.
Qed.

(** Moving a table out leaves an empty table with one bucket that is still
    usable, and the target represents what the source did, for the move
    constructor and the move assignment. *)
Theorem moved_from_table_usable (this other : t K V) (Hother : wf other) :
  wf (move_construct other).1 ∧ to_map (move_construct other).1 = to_map other ∧
  wf (move_construct other).2 ∧ to_map (move_construct other).2 = ∅ ∧
  wf (move_assign this other).1 ∧ to_map (move_assign this other).1 = to_map other ∧
  wf (move_assign this other).2 ∧ to_map (move_assign this other).2 = ∅.
Proof.
  assert (wf (Make (resize 1 [] []) 0 (max_load_factor_ other) : t K V)) as He
    by (apply (wf_replicate 1); lia).
  destruct other as [bs n mlf]. split_and!; try done; by destruct Hother; split.
Qed.
End Theory.

(** ** Witnesses: tables keyed by numbers under the identity hash *)

Module Witness.

#[export] Instance nat_hash : Hash nat := N.of_nat.

Definition table : t nat bool :=
  (run_calls [Call_insert 1 true; Call_insert 17 false; Call_insert 5 true] make_default).2.

Lemma table_wf : wf table.
Proof. apply run_calls_simulates, wf_make_default. Qed.

Lemma iteration_witness :
  ∃ l, traverse 3 table (begin_ table) = Done l ∧
    NoDup l.*1 ∧ ∀ k v, (k, v) ∈ l ↔ find k table = Some v.
Proof. exact (iteration_yields_each_entry_once table table_wf). Defined.

Lemma default_load_witness :
  let cs := (λ k, Call_insert k true) <$> seq 0 13 in
  let m := (run_calls cs make_default).2 in
  bucket_count m = 32 ∧ 4 * size m ≤ 3 * bucket_count m ∧ ∃ j, bucket_count m = 2 ^ (4 + j).
Proof.
  split; [reflexivity|]. apply default_load_bounded; [reflexivity|reflexivity].
Defined.

Lemma initializer_list_witness :
  ∃ m : t nat bool, make_list [(3, true); (4, false); (3, false)] f075 = Done m ∧ wf m ∧
    ∀ k, find k m = snd <$> find_in_bucket k [(3, true); (4, false); (3, false)].
Proof. apply initializer_list_first_wins. reflexivity. Defined.

Lemma moved_from_witness :
  wf (move_construct table).1 ∧ to_map (move_construct table).1 = to_map table ∧
  wf (move_construct table).2 ∧ to_map (move_construct table).2 = ∅ ∧
  wf (move_assign make_default table).1 ∧
  to_map (move_assign make_default table).1 = to_map table ∧
  wf (move_assign make_default table).2 ∧ to_map (move_assign make_default table).2 = ∅.
Proof. exact (moved_from_table_usable make_default table table_wf). Defined.

(** Reserving 100 elements in a table of four buckets at 0.75 gives 134. *)
Example reserve_100 :
  bucket_count <$> (λ o, if o is Done m then Some m else None)
    (reserve 100 (make 4 f075 : t nat bool)) = Some 134.
Proof. reflexivity. Qed.

(** Twenty insertions at load factor 0.5 take a table of four buckets to 64. *)
Example growth_to_64 :
  bucket_count (run_calls ((λ k, Call_insert_or_assign k true) <$> seq 0 20)
    (make 4 (Floats.SpecFloat.S754_finite false 8388608 (-24)))).2 = 64.
Proof. reflexivity. Qed.
End Witness.

End HashMap.

(** The [Countable] argument of these lemmas occurs in their proofs only, so that
    they are hints through [apply], which infers it. *)
#[export] Hint Extern 1 (HashMap.wf (HashMap.make _ _)) => apply HashMap.wf_make : treenity.
#[export] Hint Extern 1 (HashMap.wf HashMap.make_default) =>
  apply HashMap.wf_make_default : treenity.
#[export] Hint Extern 1 (HashMap.wf (HashMap.write _ _ _)) => apply HashMap.wf_write : treenity.
#[export] Hint Extern 1 (HashMap.wf (HashMap.clear _)) => apply HashMap.wf_clear : treenity.
#[export] Hint Extern 1 (HashMap.wf (HashMap.subscript _ _ _)) =>
  apply HashMap.wf_subscript : treenity.
#[export] Hint Extern 1 (HashMap.wf (snd (HashMap.erase _ _))) =>
  apply HashMap.wf_erase : treenity.
#[export] Hint Extern 1 (HashMap.wf (snd (HashMap.insert _ _ _))) =>
  apply HashMap.wf_insert : treenity.
#[export] Hint Extern 1 (HashMap.wf (snd (HashMap.insert_or_assign _ _ _))) =>
  apply HashMap.wf_insert_or_assign : treenity.
