(* ===== verification/PrefixTree.v ===== *)
(** * PrefixTree: the trie of src/data_structures/PrefixTree.{hpp,cpp}

    Nodes hold the identifiers registered for the prefix that leads to them and a
    [HashMap] from characters to owning pointers. An owning pointer
    ([std::unique_ptr<Node>]) is an [option Node]: the loops dereference it as the
    code does, and the theorems show that none of them is ever null. The
    specification of the tree is the list of its registrations. *)

From S2P Require Import Prelude HashMap.

Set Warnings "-clear-no-such-hyp,-register-all".

Module PrefixTree.

(** ** State *)

(** [PrefixTree::Node] *)
Inductive Node : Type := mkNode {
  subscribers : list str;
  children : HashMap.t byte (option Node)
}.

(** A registration: a prefix and the client registered for it. *)
Abbreviation registration := (str * str)%type.

Section Operations.
Context `{Hash byte}.

(** [std::make_unique<Node>()] *)
Definition new_node : Node := mkNode [] HashMap.make_default.

(** [PrefixTree] *)
Record t : Type := Make { root_ : Node; subscriber_count_ : nat }.

Definition make : t := Make new_node 0.

(** ** Operations *)

(** [child_node = std::make_unique<Node>()] when the pointer is null. *)
Definition ensure_child (ch : byte) (children : HashMap.t byte (option Node)) : Node :=
  match HashMap.find ch children with
  | Some (Some child) => child
  | _ => new_node
  end.

(** The loop of [insert] from [current_node] on, and the [push_back] after it;
    the nodes it goes through are changed in place. *)
Fixpoint insert_from (prefix : str) (client_id : str) (current_node : Node) : Node :=
  match prefix with
  | [] => mkNode (subscribers current_node ++ [client_id]) (children current_node)
  | ch :: prefix =>
      let cs := HashMap.subscript None ch (children current_node) in
      let child := ensure_child ch cs in
      mkNode (subscribers current_node)
             (HashMap.write ch (λ _, Some (insert_from prefix client_id child)) cs)
  end.

Definition insert (prefix client_id : str) (tree : t) : t :=
  Make (insert_from prefix client_id (root_ tree)) (subscriber_count_ tree + 1).

(** The first loop of [remove]: the node of the prefix and the branch that leads
    to it, nearest parent first; [None] when a child is missing. *)
Fixpoint descend (prefix : str) (current_node : Node) (branch : list (Node * byte))
    : outcome (option (Node * list (Node * byte))) :=
  match prefix with
  | [] => mret (Some (current_node, branch))
  | ch :: prefix =>
      match HashMap.find ch (children current_node) with
      | None => mret None
      | Some child_ptr =>
          child ← deref child_ptr;
          descend prefix child ((current_node, ch) :: branch)
      end
  end.

(** [subscribers.erase(std::find(...))]; [None] when the search fails. *)
Fixpoint erase_subscriber (client_id : str) (subs : list str) : option (list str) :=
  match subs with
  | [] => None
  | s :: subs =>
      if decide (s = client_id) then Some subs else cons s <$> erase_subscriber client_id subs
  end.

(** [subscribers.empty() && children.empty()] *)
Definition is_dead (n : Node) : bool :=
  match subscribers n with
  | [] => HashMap.empty (children n)
  | _ => false
  end.

(** The tree above a node that was changed in place: every parent of the branch
    owns the next node. *)
Fixpoint rebuild (current_node : Node) (branch : list (Node * byte)) : Node :=
  match branch with
  | [] => current_node
  | (parent, ch) :: branch =>
      rebuild (mkNode (subscribers parent)
                 (HashMap.write ch (λ _, Some current_node) (children parent))) branch
  end.

(** The pruning loop of [remove]. *)
Fixpoint prune (current_node : Node) (branch : list (Node * byte)) : Node :=
  match branch with
  | [] => current_node
  | (parent, ch) :: rest =>
      if negb (is_dead current_node) then rebuild current_node branch
      else prune (mkNode (subscribers parent) (HashMap.erase ch (children parent)).2) rest
  end.

Definition remove (prefix client_id : str) (tree : t) : outcome (bool * t) :=
  found ← descend prefix (root_ tree) [];
  match found with
  | None => mret (false, tree)
  | Some (node, branch) =>
      match erase_subscriber client_id (subscribers node) with
      | None => mret (false, tree)
      | Some subs =>
          mret (true, Make (prune (mkNode subs (children node)) branch)
                           (subscriber_count_ tree - 1))
      end
  end.

(** The loop of [match] over the message key. *)
Fixpoint match_from (message_key : str) (current_node : Node) (result : list str)
    : outcome (list str) :=
  match message_key with
  | [] => mret result
  | ch :: message_key =>
      match HashMap.find ch (children current_node) with
      | None => mret result
      | Some child_ptr =>
          child ← deref child_ptr;
          match_from message_key child (result ++ subscribers child)
      end
  end.

Definition match_ (message_key : str) (tree : t) : outcome (list str) :=
  match_from message_key (root_ tree) ([] ++ subscribers (root_ tree)).

Definition clear (tree : t) : t :=
  Make (mkNode [] (HashMap.clear (children (root_ tree)))) 0.

Definition subscriber_count (tree : t) : nat := subscriber_count_ tree.

Definition empty (tree : t) : bool := subscriber_count_ tree =? 0.

(** Move construction and move assignment: the target and what remains of the
    source. [Node] is moved member by member. *)
Definition move_construct (other : t) : t * t :=
  let cs := HashMap.move_construct (children (root_ other)) in
  (Make (mkNode (subscribers (root_ other)) cs.1) (subscriber_count_ other),
   Make (mkNode [] cs.2) 0).

Definition move_assign (this other : t) : t * t :=
  let cs := HashMap.move_assign (children (root_ this)) (children (root_ other)) in
  (Make (mkNode (subscribers (root_ other)) cs.1) (subscriber_count_ other),
   Make (mkNode [] cs.2) 0).

(** [remove] as one recursive descent that prunes on the way back: the reference
    the two loops are compared with. *)
Fixpoint remove_from (prefix client_id : str) (n : Node) : option Node :=
  match prefix with
  | [] => (λ subs, mkNode subs (children n)) <$> erase_subscriber client_id (subscribers n)
  | ch :: prefix =>
      match HashMap.find ch (children n) with
      | Some (Some child) =>
          (λ child', mkNode (subscribers n)
             (if is_dead child' then (HashMap.erase ch (children n)).2
              else HashMap.write ch (λ _, Some child') (children n)))
            <$> remove_from prefix client_id child
      | _ => None
      end
  end.

(** ** Specification: registrations

    A registration is a prefix and a client; a tree stands for the list of its
    registrations, in the order they were made. *)

(** The clients registered for exactly [prefix]. *)
Definition registered_at (prefix : str) (regs : list registration) : list str :=
  (filter (λ r, r.1 = prefix) regs).*2.

Definition spec_insert (prefix client_id : str) (regs : list registration)
    : list registration :=
  regs ++ [(prefix, client_id)].

(** Drop the first registration of [client_id] for [prefix]. *)
Fixpoint spec_remove (prefix client_id : str) (regs : list registration)
    : list registration :=
  match regs with
  | [] => []
  | r :: regs =>
      if decide (r = (prefix, client_id)) then regs
      else r :: spec_remove prefix client_id regs
  end.

(** The clients of all prefixes of the key, shortest prefix first. *)
Definition spec_match (message_key : str) (regs : list registration) : list str :=
  concat ((λ i, registered_at (take i message_key) regs)
            <$> seq 0 (S (length message_key))).

(** ** Well-formed trees *)

(** The subscribers of the node that [prefix] leads to from [n]. *)
Fixpoint node_subscribers (prefix : str) (n : Node) : list str :=
  match prefix with
  | [] => subscribers n
  | ch :: prefix =>
      match HashMap.find ch (children n) with
      | Some (Some child) => node_subscribers prefix child
      | _ => []
      end
  end.

(** The subscribers along the path of a key. *)
Definition path_subscribers (key : str) (n : Node) : list str :=
  concat ((λ i, node_subscribers (take i key) n) <$> seq 0 (S (length key))).

(** The node that [prefix] leads to from [n]. *)
Fixpoint node_at (prefix : str) (n : Node) : option Node :=
  match prefix with
  | [] => Some n
  | ch :: prefix =>
      match HashMap.find ch (children n) with
      | Some (Some child) => node_at prefix child
      | _ => None
      end
  end.

(** Tables are well-formed, no pointer is null, and no child is dead. *)
Inductive wf_node : Node → Prop :=
| wf_node_intro n :
    HashMap.wf (children n) →
    (∀ ch, HashMap.find ch (children n) ≠ Some None) →
    (∀ ch child, HashMap.find ch (children n) = Some (Some child) → is_dead child = false) →
    (∀ ch child, HashMap.find ch (children n) = Some (Some child) → wf_node child) →
    wf_node n.

(** The tree [tree] stands for the registrations [regs]. *)
Record represents (tree : t) (regs : list registration) : Prop := {
  represents_wf : wf_node (root_ tree);
  represents_subscribers prefix :
    node_subscribers prefix (root_ tree) = registered_at prefix regs;
  represents_count : subscriber_count_ tree = length regs
}.

(** The calls a client makes, with the answers of the tree and of a list of
    registrations. *)
Inductive call : Type :=
| Call_insert (prefix client_id : str)
| Call_remove (prefix client_id : str)
| Call_match (message_key : str)
| Call_clear
| Call_subscriber_count
| Call_empty.

Inductive answer : Type :=
| Answer_bool (b : bool)
| Answer_clients (l : list str)
| Answer_count (n : nat)
| Answer_void.

Definition run_call (c : call) (tree : t) : outcome (answer * t) :=
  match c with
  | Call_insert p id => mret (Answer_void, insert p id tree)
  | Call_remove p id => '(b, tree) ← remove p id tree; mret (Answer_bool b, tree)
  | Call_match key => l ← match_ key tree; mret (Answer_clients l, tree)
  | Call_clear => mret (Answer_void, clear tree)
  | Call_subscriber_count => mret (Answer_count (subscriber_count tree), tree)
  | Call_empty => mret (Answer_bool (empty tree), tree)
  end.

Definition spec_call (c : call) (regs : list registration)
    : answer * list registration :=
  match c with
  | Call_insert p id => (Answer_void, spec_insert p id regs)
  | Call_remove p id =>
      (Answer_bool (bool_decide ((p, id) ∈ regs)), spec_remove p id regs)
  | Call_match key => (Answer_clients (spec_match key regs), regs)
  | Call_clear => (Answer_void, [])
  | Call_subscriber_count => (Answer_count (length regs), regs)
  | Call_empty => (Answer_bool (bool_decide (regs = [])), regs)
  end.

Fixpoint run_calls (cs : list call) (tree : t) : outcome (list answer * t) :=
  match cs with
  | [] => mret ([], tree)
  | c :: cs =>
      '(a, tree) ← run_call c tree;
      '(answers, tree) ← run_calls cs tree;
      mret (a :: answers, tree)
  end.

Fixpoint spec_calls (cs : list call) (regs : list registration)
    : list answer * list registration :=
  match cs with
  | [] => ([], regs)
  | c :: cs =>
      let '(a, regs) := spec_call c regs in
      let '(answers, regs) := spec_calls cs regs in (a :: answers, regs)
  end.

End Operations.

(** ** Lists of registrations *)

Lemma registered_at_app p regs regs' :
  registered_at p (regs ++ regs') = registered_at p regs ++ registered_at p regs'.
Proof. unfold registered_at. by rewrite filter_app, fmap_app. Qed.

Lemma registered_at_cons p r regs :
  registered_at p (r :: regs) =
  if decide (r.1 = p) then r.2 :: registered_at p regs else registered_at p regs.
Proof. unfold registered_at. rewrite filter_cons. by case_decide. Qed.

Lemma registered_at_single p q id :
  registered_at q [(p, id)] = if decide (p = q) then [id] else [].
Proof. apply registered_at_cons. Qed.

Lemma elem_of_registered_at p id regs : id ∈ registered_at p regs ↔ (p, id) ∈ regs.
Proof.
  unfold registered_at. rewrite list_elem_of_fmap. split.
  - intros ([p' id'] & -> & [? ?]%list_elem_of_filter). by simplify_eq/=.
  - intros Hin. exists (p, id). rewrite list_elem_of_filter. done.
Qed.

Lemma erase_subscriber_None id subs : erase_subscriber id subs = None ↔ id ∉ subs.
Proof.
  induction subs as [|s subs IH]; simpl; [set_solver|].
  rewrite not_elem_of_cons. case_decide; [naive_solver|].
  rewrite fmap_None. naive_solver.
Qed.

Lemma registered_at_spec_remove p q id regs :
  registered_at q (spec_remove p id regs) =
  if decide (p = q) then default (registered_at q regs) (erase_subscriber id (registered_at q regs))
  else registered_at q regs.
Proof.
  induction regs as [|[p' id'] regs IH]; simpl; [by case_decide|].
  destruct (decide ((p', id') = (p, id))) as [[= -> ->]|Hr]; rewrite !registered_at_cons; simpl.
  - destruct (decide (p = q)); simpl; [by rewrite decide_True|done].
  - rewrite IH. destruct (decide (p = q)) as [->|]; [|done].
    destruct (decide (p' = q)) as [->|]; simpl; [|done].
    rewrite decide_False by congruence.
    by destruct (erase_subscriber id (registered_at q regs)).
Qed.

Lemma length_spec_remove p id regs :
  (p, id) ∈ regs → length regs = S (length (spec_remove p id regs)).
Proof.
  induction regs as [|r regs IH]; simpl; [set_solver|].
  case_decide; [done|]. rewrite elem_of_cons. intros [?|?]; [congruence|].
  simpl. by rewrite IH.
Qed.

Lemma spec_remove_not_in p id regs : (p, id) ∉ regs → spec_remove p id regs = regs.
Proof.
  induction regs as [|r regs IH]; simpl; [done|]. rewrite not_elem_of_cons.
  intros [Hne ?]. rewrite decide_False by congruence. by rewrite IH.
Qed.

(** ** Nodes *)

Section Theory.
Context `{Hash byte}.
Implicit Types (n : Node) (p q : str) (id : str) (ch : byte).

Lemma wf_node_table n : wf_node n → HashMap.wf (children n).
Proof. by destruct 1. Qed.

Lemma wf_node_child n ch ptr :
  wf_node n → HashMap.find ch (children n) = Some ptr →
  ∃ child, ptr = Some child ∧ is_dead child = false ∧ wf_node child.
Proof.
  destruct 1 as [n Hwf Hnull Hdead Hch]. intros Hf.
  destruct ptr as [child|]; [exists child; eauto|]. by destruct (Hnull ch).
Qed.

Lemma wf_new_node : wf_node new_node.
Proof.
  constructor; [apply HashMap.wf_make_default|..]; intros ch; simpl;
    by rewrite HashMap.find_make_default.
Qed.

Lemma new_node_subscribers p : node_subscribers p new_node = [].
Proof. destruct p as [|ch p]; simpl; [done|]. by rewrite HashMap.find_make_default. Qed.

(** A node with a child is not dead. *)
Lemma is_dead_child subs cs ch ptr :
  HashMap.wf cs → HashMap.find ch cs = Some ptr → is_dead (mkNode subs cs) = false.
Proof.
  intros Hwf Hf. unfold is_dead; simpl. destruct subs; [|done].
  by eapply HashMap.empty_false.
Qed.

(** Replacing the children of a node by a table in which one entry changed. *)
Lemma wf_set_child n subs cs ch child :
  wf_node n → HashMap.wf cs → wf_node child → is_dead child = false →
  (∀ c, HashMap.find c cs = if decide (ch = c) then Some (Some child)
                            else HashMap.find c (children n)) →
  wf_node (mkNode subs cs).
Proof.
  intros [? ? Hnull Hd Hw] Hcs Hchild Hdead Hf.
  constructor; simpl; [done|intros c|intros c c'|intros c c']; rewrite Hf;
    destruct (decide (ch = c)); try (by intros [= <-]); [apply Hnull|apply Hd|apply Hw].
Qed.

Lemma wf_set_subscribers n subs : wf_node n → wf_node (mkNode subs (children n)).
Proof. destruct 1; constructor; assumption. Qed.

Lemma wf_erase_child n ch :
  wf_node n → wf_node (mkNode (subscribers n) (HashMap.erase ch (children n)).2).
Proof.
  intros [? ? Hnull Hd Hw].
  constructor; simpl; [auto with treenity|intros c|intros c c'|intros c c'];
    rewrite HashMap.find_erase by assumption;
    (destruct (decide (ch = c)); [by intros [=]|]); [apply Hnull|apply Hd|apply Hw].
Qed.

(** *** Insertion *)

Lemma find_ensured n ch child c :
  wf_node n →
  HashMap.find c (HashMap.write ch (λ _, Some child)
    (HashMap.subscript None ch (children n))) =
  if decide (ch = c) then Some (Some child) else HashMap.find c (children n).
Proof.
  intros Hn%wf_node_table. rewrite HashMap.find_write by auto with treenity.
  rewrite !HashMap.find_subscript by done. case_decide; [|done]. by rewrite decide_True.
Qed.

Lemma ensure_child_facts n ch :
  wf_node n →
  let child := ensure_child ch (HashMap.subscript None ch (children n)) in
  wf_node child ∧ ∀ p, node_subscribers p child = node_subscribers (ch :: p) n.
Proof.
  intros Hn. unfold ensure_child. rewrite HashMap.find_subscript by by apply wf_node_table.
  rewrite decide_True by done. simpl.
  destruct (HashMap.find ch (children n)) as [ptr|] eqn:Hf; simpl.
  - destruct (wf_node_child _ _ _ Hn Hf) as (child & -> & ? & ?). done.
  - split; [apply wf_new_node|]. apply new_node_subscribers.
Qed.

Lemma insert_from_facts p id n :
  wf_node n →
  wf_node (insert_from p id n) ∧ is_dead (insert_from p id n) = false ∧
  ∀ q, node_subscribers q (insert_from p id n) =
       if decide (p = q) then node_subscribers q n ++ [id] else node_subscribers q n.
Proof.
  revert n. induction p as [|ch p IH]; intros n Hn.
  - split_and!.
    + by apply wf_set_subscribers.
    + unfold is_dead. simpl. by destruct (subscribers n).
    + by intros [|c q].
  - destruct (ensure_child_facts n ch Hn) as [Hc Hsubs]. simpl.
    set (child := ensure_child _ _) in *.
    destruct (IH child Hc) as (Hwf & Hdead & Hq).
    assert (HashMap.wf (HashMap.write ch (λ _, Some (insert_from p id child))
              (HashMap.subscript None ch (children n)))) as Hcs.
    { apply wf_node_table in Hn. auto with treenity. }
    pose proof (λ c, find_ensured n ch (insert_from p id child) c Hn) as Hf.
    split_and!.
    + by apply (wf_set_child n _ _ ch (insert_from p id child)).
    + eapply (is_dead_child _ _ ch); [done|]. rewrite Hf. by rewrite decide_True.
    + intros [|c q]; simpl; [done|]. rewrite Hf.
      destruct (decide (ch = c)) as [<-|Hne].
      * rewrite Hq, Hsubs. simpl.
        destruct (decide (p = q)) as [->|]; [by rewrite decide_True|].
        by rewrite decide_False by congruence.
      * rewrite decide_False by congruence. done.
Qed.

(** *** Removal *)

Lemma prune_not_dead n branch : is_dead n = false → prune n branch = rebuild n branch.
Proof. intros Hn. destruct branch as [|[parent ch] branch]; simpl; [done|]. by rewrite Hn. Qed.

Lemma remove_loops p id n branch :
  wf_node n →
  (found ← descend p n branch;
   mret (found ≫= λ nb, (λ subs, prune (mkNode subs (children nb.1)) nb.2)
                          <$> erase_subscriber id (subscribers nb.1)))
  = Done ((λ n', prune n' branch) <$> remove_from p id n).
Proof.
  revert n branch. induction p as [|ch p IH]; intros n branch Hn; simpl.
  { by destruct (erase_subscriber id (subscribers n)). }
  destruct (HashMap.find ch (children n)) as [ptr|] eqn:Hf; [|done].
  destruct (wf_node_child _ _ _ Hn Hf) as (child & -> & _ & Hc). simpl.
  rewrite IH by done. f_equal. destruct (remove_from p id child) as [child'|]; simpl; [|done].
  f_equal. destruct (is_dead child') eqn:Hdead; simpl; [done|].
  symmetry. apply prune_not_dead. apply (is_dead_child _ _ ch (Some child')).
  - apply wf_node_table in Hn. auto with treenity.
  - rewrite HashMap.find_write by by apply wf_node_table.
    by rewrite decide_True, Hf by done.
Qed.

Lemma remove_eq p id tree :
  wf_node (root_ tree) →
  remove p id tree =
  Done (match remove_from p id (root_ tree) with
        | None => (false, tree)
        | Some n => (true, Make n (subscriber_count_ tree - 1))
        end).
Proof.
  intros Hn. pose proof (remove_loops p id (root_ tree) [] Hn) as Hl. unfold remove.
  destruct (descend p (root_ tree) []) as [[[node branch]|]| |]; simpl in *; try done.
  - destruct (erase_subscriber id (subscribers node)), (remove_from p id (root_ tree));
      by inversion Hl.
  - by destruct (remove_from p id (root_ tree)).
Qed.

Lemma dead_subscribers n q : wf_node n → is_dead n = true → node_subscribers q n = [].
Proof.
  intros Hn. unfold is_dead. destruct (subscribers n) eqn:Hs; [|done]. intros He.
  destruct q as [|ch q]; simpl; [done|].
  rewrite HashMap.empty_true in He by by apply wf_node_table. by rewrite He.
Qed.

Lemma remove_from_facts p id n :
  wf_node n →
  match remove_from p id n with
  | None => id ∉ node_subscribers p n
  | Some n' =>
      wf_node n' ∧ id ∈ node_subscribers p n ∧
      ∀ q, node_subscribers q n' =
           if decide (p = q)
           then default (node_subscribers q n) (erase_subscriber id (node_subscribers q n))
           else node_subscribers q n
  end.
Proof.
  revert n. induction p as [|ch p IH]; intros n Hn; simpl.
  - destruct (erase_subscriber id (subscribers n)) as [subs|] eqn:He; simpl.
    + split_and!; [by apply wf_set_subscribers| |].
      * apply dec_stable. rewrite <- erase_subscriber_None. congruence.
      * intros [|c q]; simpl; [by rewrite He|done].
    + by apply erase_subscriber_None.
  - destruct (HashMap.find ch (children n)) as [ptr|] eqn:Hf; simpl; [|by apply not_elem_of_nil].
    destruct (wf_node_child _ _ _ Hn Hf) as (child & -> & _ & Hc).
    specialize (IH child Hc). destruct (remove_from p id child) as [child'|]; simpl; [|done].
    destruct IH as (Hc' & Hin & Hq). pose proof (wf_node_table n Hn) as Ht.
    destruct (is_dead child') eqn:Hdead; (split_and!; [|exact Hin|]).
    + apply wf_erase_child; assumption.
    + intros [|c q]; simpl; [done|]. rewrite HashMap.find_erase by done.
      destruct (decide (ch = c)) as [<-|]; [|by rewrite decide_False by congruence].
      rewrite Hf. specialize (Hq q). rewrite (dead_subscribers child' q Hc' Hdead) in Hq.
      rewrite Hq. destruct (decide (p = q)) as [->|]; [by rewrite decide_True|].
      by rewrite decide_False by congruence.
    + apply (wf_set_child n _ _ ch child'); [done|auto with treenity|done..|].
      intros c. rewrite HashMap.find_write by done.
      destruct (decide (ch = c)); [by rewrite Hf|done].
    + intros [|c q]; simpl; [done|]. rewrite HashMap.find_write by done.
      destruct (decide (ch = c)) as [<-|]; [|by rewrite decide_False by congruence].
      rewrite Hf. simpl. rewrite Hq. destruct (decide (p = q)) as [->|]; [by rewrite decide_True|].
      by rewrite decide_False by congruence.
Qed.
(** *** Matching *)

Lemma path_subscribers_cons ch key n :
  path_subscribers (ch :: key) n =
  subscribers n ++ match HashMap.find ch (children n) with
                   | Some (Some child) => path_subscribers key child
                   | _ => []
                   end.
Proof.
  unfold path_subscribers.
  change (seq 0 (S (length (ch :: key)))) with (0 :: seq 1 (S (length key))).
  rewrite fmap_cons, <- fmap_S_seq, <- list_fmap_compose. cbn [concat]. f_equal.
  destruct (HashMap.find ch (children n)) as [[child|]|] eqn:Hf.
  - f_equal. apply list_fmap_ext. intros _ i _. simpl. by rewrite Hf.
  - apply concat_nil_Forall, Forall_fmap, Forall_true. intros i. simpl. by rewrite Hf.
  - apply concat_nil_Forall, Forall_fmap, Forall_true. intros i. simpl. by rewrite Hf.
Qed.

Lemma match_from_path key n result :
  wf_node n →
  match_from key n (result ++ subscribers n) = Done (result ++ path_subscribers key n).
Proof.
  revert n result. induction key as [|ch key IH]; intros n result Hn.
  { unfold path_subscribers. simpl. by rewrite app_nil_r. }
  rewrite path_subscribers_cons. simpl.
  destruct (HashMap.find ch (children n)) as [ptr|] eqn:Hf; [|by rewrite app_nil_r].
  destruct (wf_node_child _ _ _ Hn Hf) as (child & -> & _ & Hc). simpl.
  rewrite IH by assumption. by rewrite <- (assoc_L (++)).
Qed.

(** *** Live branches *)

Lemma empty_false_find (cs : HashMap.t byte (option Node)) :
  HashMap.wf cs → HashMap.empty cs = false → ∃ ch ptr, HashMap.find ch cs = Some ptr.
Proof.
  intros Hwf He.
  destruct (map_choose (HashMap.to_map cs)) as (ch & ptr & Hc).
  { intros Hm. apply not_true_iff_false in He. apply He, HashMap.empty_true; [done|].
    intros ch. by rewrite HashMap.find_to_map, Hm. }
  exists ch, ptr. by rewrite HashMap.find_to_map.
Qed.

Lemma live_below n :
  wf_node n → is_dead n = false → ∃ p id, id ∈ node_subscribers p n.
Proof.
  induction 1 as [n Hwf Hnull Hdead Hch IH]. unfold is_dead.
  destruct (subscribers n) as [|id subs] eqn:Hs.
  - intros (ch & ptr & Hf)%empty_false_find; [|assumption].
    destruct ptr as [child|]; [|by destruct (Hnull ch)].
    destruct (IH ch child Hf (Hdead ch child Hf)) as (p & id & Hin).
    exists (ch :: p), id. simpl. by rewrite Hf.
  - intros _. exists [], id. simpl. rewrite Hs. apply list_elem_of_here.
Qed.

Lemma node_at_live p n n' :
  wf_node n → node_at p n = Some n' → p ≠ [] → ∃ q id, id ∈ node_subscribers (p ++ q) n.
Proof.
  revert n. induction p as [|ch p IH]; intros n Hn Hp Hne; [done|]. simpl in Hp |- *.
  destruct (HashMap.find ch (children n)) as [ptr|] eqn:Hf; [|done].
  destruct (wf_node_child _ _ _ Hn Hf) as (child & -> & Hd & Hc).
  destruct p as [|c p].
  - by apply live_below.
  - by apply IH.
Qed.

(** *** Calls against registrations *)

Lemma represents_make : represents make [].
Proof.
  split; simpl; [apply wf_new_node| |done]. intros p. by rewrite new_node_subscribers.
Qed.

Lemma represents_insert p id tree regs :
  represents tree regs → represents (insert p id tree) (spec_insert p id regs).
Proof.
  intros [Hn Hs Hc]. destruct (insert_from_facts p id (root_ tree) Hn) as (Hwf & _ & Hq).
  split; simpl; [done| |].
  - intros q. rewrite Hq, Hs. unfold spec_insert.
    rewrite registered_at_app, registered_at_cons. simpl.
    case_decide; [done|]. by rewrite app_nil_r.
  - unfold spec_insert. rewrite length_app. simpl. lia.
Qed.

Lemma represents_remove p id tree regs :
  represents tree regs →
  ∃ tree', remove p id tree = Done (bool_decide ((p, id) ∈ regs), tree') ∧
           represents tree' (spec_remove p id regs).
Proof.
  intros [Hn Hs Hc]. rewrite remove_eq by assumption.
  pose proof (remove_from_facts p id (root_ tree) Hn) as Hr.
  destruct (remove_from p id (root_ tree)) as [n|].
  - destruct Hr as (Hwf & Hin & Hq). rewrite Hs, elem_of_registered_at in Hin.
    rewrite bool_decide_true by done. eexists; split; [done|].
    split; simpl; [assumption| |].
    + intros q. by rewrite Hq, Hs, registered_at_spec_remove.
    + pose proof (length_spec_remove p id regs Hin). lia.
  - rewrite Hs, elem_of_registered_at in Hr. rewrite bool_decide_false by done.
    rewrite spec_remove_not_in by done. eexists; split; [done|]. by split.
Qed.

Lemma represents_match key tree regs :
  represents tree regs → match_ key tree = Done (spec_match key regs).
Proof.
  intros [Hn Hs _]. unfold match_. rewrite (match_from_path key (root_ tree) []) by assumption.
  f_equal. simpl. unfold path_subscribers, spec_match. f_equal.
  apply list_fmap_ext. intros _ i _. apply Hs.
Qed.

Lemma represents_clear tree regs : represents tree regs → represents (clear tree) [].
Proof.
  intros [Hn _ _]. apply wf_node_table in Hn.
  assert (∀ ch, HashMap.find ch (HashMap.clear (children (root_ tree))) = None) as Hf
    by (intros; by apply HashMap.find_clear).
  split; simpl; [|intros [|ch p]; simpl; by rewrite ?Hf|done].
  constructor; simpl; [auto with treenity|intros ch..]; by rewrite Hf.
Qed.

Lemma run_call_represents c tree regs :
  represents tree regs →
  ∃ tree', run_call c tree = Done ((spec_call c regs).1, tree') ∧
           represents tree' (spec_call c regs).2.
Proof.
  intros Hr. destruct c as [p id|p id|key| | |]; simpl.
  - eexists; split; [done|]. by apply represents_insert.
  - destruct (represents_remove p id tree regs Hr) as (tree' & -> & ?). by exists tree'.
  - rewrite (represents_match key tree regs Hr). by exists tree.
  - eexists; split; [done|]. by eapply represents_clear.
  - exists tree. unfold subscriber_count. by rewrite (represents_count _ _ Hr).
  - exists tree. unfold empty. rewrite (represents_count _ _ Hr). by destruct regs.
Qed.

Lemma run_calls_represents cs tree regs :
  represents tree regs →
  ∃ tree', run_calls cs tree = Done ((spec_calls cs regs).1, tree') ∧
           represents tree' (spec_calls cs regs).2.
Proof.
  revert tree regs. induction cs as [|c cs IH]; intros tree regs Hr; simpl.
  { by exists tree. }
  destruct (run_call_represents c tree regs Hr) as (tree1 & -> & Hr1). simpl.
  destruct (spec_call c regs) as [a regs1]; simpl in *.
  destruct (IH tree1 regs1 Hr1) as (tree2 & -> & Hr2). simpl.
  destruct (spec_calls cs regs1) as [answers regs2]. by exists tree2.
Qed.

Lemma represents_move this other regs :
  represents other regs →
  represents (move_construct other).1 regs ∧ represents (move_construct other).2 [] ∧
  represents (move_assign this other).1 regs ∧ represents (move_assign this other).2 [].
Proof.
  intros [Hn Hs Hc]. set (cs := children (root_ other)) in *.
  assert (∀ mlf mlf', let moved := HashMap.Make (HashMap.buckets_ cs) (HashMap.num_elements_ cs) mlf in
    represents (Make (mkNode (subscribers (root_ other)) moved) (subscriber_count_ other)) regs ∧
    represents (Make (mkNode [] (HashMap.Make (resize 1 [] []) 0 mlf')) 0) []) as Hm.
  { intros mlf mlf'.
    assert (HashMap.wf (HashMap.Make (resize 1 [] []) 0 mlf' : HashMap.t byte (option Node)))
      as He by (apply (HashMap.wf_replicate 1); lia).
    pose proof (proj1 (HashMap.empty_true _ He) eq_refl) as Hf.
    split; split; simpl.
    - destruct Hn as [n [? ? ? ?] ? ? ?]. constructor; [by split|assumption..].
    - intros p. rewrite <- Hs. by destruct p.
    - done.
    - constructor; simpl; [exact He|intros ch; rewrite Hf; discriminate..].
    - intros [|ch p]; simpl; [done|]. by rewrite Hf.
    - done. }
  destruct (Hm (HashMap.max_load_factor_ cs) (HashMap.max_load_factor_ cs)).
  destruct (Hm (HashMap.max_load_factor_ (children (root_ this))) (HashMap.max_load_factor_ cs)).
  split_and!; assumption.
Qed.

(** *** What a match returns *)

Lemma spec_match_nil key : spec_match key [] = [].
Proof. apply concat_nil_Forall, Forall_fmap, Forall_true. done. Qed.

Lemma concat_fmap_app {A B} (f g : A → list B) l :
  concat ((λ x, f x ++ g x) <$> l) ≡ₚ concat (f <$> l) ++ concat (g <$> l).
Proof.
  induction l as [|x l IH]; simpl; [done|]. rewrite IH. solve_Permutation.
Qed.

Lemma spec_match_single key p id :
  spec_match key [(p, id)] = if decide (p `prefix_of` key) then [id] else [].
Proof.
  unfold spec_match. revert p. induction key as [|ch key IH]; intros p.
  - destruct p as [|c p]; [done|]. rewrite decide_False; [done|]. apply prefix_nil_not.
  - change (seq 0 (S (length (ch :: key)))) with (0 :: seq 1 (S (length key))).
    rewrite fmap_cons, <- fmap_S_seq, <- list_fmap_compose. cbn [concat]. destruct p as [|c p].
    + rewrite decide_True by apply prefix_nil. rewrite <- (app_nil_r [id]). f_equal.
      apply concat_nil_Forall, Forall_fmap, Forall_true. done.
    + change (registered_at (take 0 (ch :: key)) [(c :: p, id)]) with ([] : list str).
      rewrite app_nil_l. destruct (decide (c = ch)) as [->|Hne].
      * specialize (IH p). etrans; [|etrans; [apply IH|]].
        -- f_equal. apply list_fmap_ext. intros _ i _. simpl.
           rewrite !registered_at_single. apply decide_ext. naive_solver.
        -- apply decide_ext. split; [apply prefix_cons|apply prefix_cons_inv_2].
      * rewrite decide_False by (by intros ?%prefix_cons_inv_1).
        apply concat_nil_Forall, Forall_fmap, Forall_true. intros i. simpl.
        rewrite registered_at_single. by rewrite decide_False by congruence.
Qed.

Lemma spec_match_perm key regs :
  spec_match key regs ≡ₚ (filter (λ r : registration, r.1 `prefix_of` key) regs).*2.
Proof.
  induction regs as [|[p id] regs IH].
  { by rewrite spec_match_nil. }
  transitivity (spec_match key [(p, id)] ++ spec_match key regs).
  - unfold spec_match at 2 3. rewrite <- concat_fmap_app. unfold spec_match.
    erewrite list_fmap_ext; [done|]. intros _ i _.
    apply (registered_at_app _ [(p, id)] regs).
  - rewrite spec_match_single, filter_cons, IH. simpl. by case_decide.
Qed.

Lemma elem_of_spec_match key regs id :
  id ∈ spec_match key regs ↔ ∃ p, p `prefix_of` key ∧ (p, id) ∈ regs.
Proof.
  rewrite spec_match_perm, list_elem_of_fmap. split.
  - intros ([p id'] & -> & [? ?]%list_elem_of_filter). by exists p.
  - intros (p & ? & ?). exists (p, id). by rewrite list_elem_of_filter.
Qed.

(** ** Properties *)

(** C23: Whatever sequence of calls is made on a new tree, under any hash function, no
    null pointer is dereferenced, every answer is the one a list of registrations
    gives (matches come out shortest prefix first, in registration order within a
    prefix), and the tree ends up standing for that list. *)
Theorem tree_simulates_registrations (cs : list call) :
  ∃ tree, run_calls cs make = Done ((spec_calls cs []).1, tree) ∧
          represents tree (spec_calls cs []).2.
Proof. apply run_calls_represents, represents_make. Qed.

(** C21: After any sequence of calls, a match returns exactly the registrations whose
    prefix is a prefix of the key, with their multiplicity: no subscriber is
    missed and none is returned for a prefix the key does not have. *)
Theorem match_exact (cs : list call) (key : str) :
  ∃ l, ('(_, tree) ← run_calls cs make; match_ key tree) = Done l ∧
       l ≡ₚ (filter (λ r : registration, r.1 `prefix_of` key) (spec_calls cs []).2).*2 ∧
       ∀ id, id ∈ l ↔ ∃ p, p `prefix_of` key ∧ (p, id) ∈ (spec_calls cs []).2.
Proof.
  destruct (run_calls_represents cs make [] represents_make) as (tree & Hrun & Hr).
  exists (spec_match key (spec_calls cs []).2). rewrite Hrun. simpl.
  split_and!; [by apply represents_match|apply spec_match_perm|].
  intros id. apply elem_of_spec_match.
Qed.

(** Removal prunes: in every tree that calls reach, a node other than the root
    lies on the way to a live registration. *)
Theorem nodes_lead_to_registrations (cs : list call) (answers : list answer) (tree : t)
    (p : str) (n : Node)
    (Hrun : run_calls cs make = Done (answers, tree))
    (Hn : node_at p (root_ tree) = Some n) (Hp : p ≠ []) :
  ∃ q id, (p ++ q, id) ∈ (spec_calls cs []).2.
Proof.
  destruct (run_calls_represents cs make [] represents_make) as (tree' & Hrun' & [Hwf Hs _]).
  rewrite Hrun in Hrun'. injection Hrun' as -> ->.
  destruct (node_at_live p (root_ tree') n Hwf Hn Hp) as (q & id & Hin).
  exists q, id. by rewrite Hs, elem_of_registered_at in Hin.
Qed.

(** The two loops of [remove], down with a stack of parents and back up while nodes
    are dead, do what one recursive descent that prunes on return does. *)
Theorem remove_is_recursive_removal (p id : str) (tree : t) (Hwf : wf_node (root_ tree)) :
  remove p id tree =
  Done (match remove_from p id (root_ tree) with
        | None => (false, tree)
        | Some n => (true, Make n (subscriber_count_ tree - 1))
        end).
Proof. by apply remove_eq. Qed.

(** A moved tree carries its registrations over, and the tree it was moved from is an
    empty tree that can be used again. *)
Theorem moved_from_tree_usable (this other : t) (regs : list registration)
    (Hr : represents other regs) :
  represents (move_construct other).1 regs ∧ represents (move_construct other).2 [] ∧
  represents (move_assign this other).1 regs ∧ represents (move_assign this other).2 [].
Proof.
  destruct (represents_move this other regs Hr) as (? & ? & ? & ?). split_and!; assumption.
Qed.
End Theory.

(** ** Witnesses: characters hash to their code *)

Module Witness.

#[export] Instance byte_hash : Hash byte := Byte.to_N.

Definition calls : list call :=
  [Call_insert $"ab" $"one"; Call_insert $"" $"two"; Call_insert $"abc" $"three";
   Call_remove $"ab" $"one"].

Definition tree : t :=
  match run_calls calls make with Done (_, tree) => tree | _ => make end.

Lemma tree_represents : represents tree [($"", $"two"); ($"abc", $"three")].
Proof.
  destruct (run_calls_represents calls make [] represents_make) as (tree' & Hrun & Hr).
  unfold tree. by rewrite Hrun.
Qed.

(** The node of ["ab"] outlives its registration: it leads to ["abc"]. *)
Lemma nodes_lead_witness :
  ∃ q id, ($"ab" ++ q, id) ∈ (spec_calls calls []).2.
Proof.
  apply (nodes_lead_to_registrations calls (spec_calls calls []).1 tree $"ab"
           (default new_node (node_at $"ab" (root_ tree))));
    [vm_compute; reflexivity|vm_compute; reflexivity|discriminate].
Defined.

Lemma recursive_removal_witness :
  remove $"abc" $"three" tree =
  Done (match remove_from $"abc" $"three" (root_ tree) with
        | None => (false, tree)
        | Some n => (true, Make n (subscriber_count_ tree - 1))
        end).
Proof.
  apply (remove_is_recursive_removal $"abc" $"three" tree), (represents_wf _ _ tree_represents).
Defined.

Lemma moved_from_tree_witness :
  represents (move_construct tree).1 [($"", $"two"); ($"abc", $"three")] ∧
  represents (move_construct tree).2 [] ∧
  represents (move_assign make tree).1 [($"", $"two"); ($"abc", $"three")] ∧
  represents (move_assign make tree).2 [].
Proof. exact (moved_from_tree_usable make tree _ tree_represents). Defined.

(** Removing the last registration under ["abc"] prunes the branch to the root. *)
Example branch_pruned :
  (λ r, HashMap.entries (children (root_ r.2)))
    <$> (if remove $"abc" $"three" tree is Done r then Some r else None) = Some [].
Proof. vm_compute. reflexivity. Qed.
End Witness.

End PrefixTree.

(** ** The interface: an index of subscriptions

    What a topic relies on: an index stands for a list of registrations, and its
    operations are those of the list. *)
Class SubscriptionIndex := {
  index : Type;
  index_new : index;
  index_insert : str → str → index → index;
  index_remove : str → str → index → outcome (bool * index);
  index_match : str → index → outcome (list str);
  index_clear : index → index;
  index_represents : index → list PrefixTree.registration → Prop;
  index_new_represents : index_represents index_new [];
  index_insert_represents p id i regs :
    index_represents i regs →
    index_represents (index_insert p id i) (PrefixTree.spec_insert p id regs);
  index_remove_represents p id i regs :
    index_represents i regs →
    ∃ i', index_remove p id i = Done (bool_decide ((p, id) ∈ regs), i') ∧
          index_represents i' (PrefixTree.spec_remove p id regs);
  index_match_represents key i regs :
    index_represents i regs → index_match key i = Done (PrefixTree.spec_match key regs);
  index_clear_represents i regs :
    index_represents i regs → index_represents (index_clear i) []
}.

(** The prefix tree is such an index. *)
#[refine, export] Instance prefix_tree_index `{Hash byte} : SubscriptionIndex := {
  index := PrefixTree.t;
  index_new := PrefixTree.make;
  index_insert := PrefixTree.insert;
  index_remove := PrefixTree.remove;
  index_match := PrefixTree.match_;
  index_clear := PrefixTree.clear;
  index_represents := PrefixTree.represents
}.
Proof.
  - exact PrefixTree.represents_make.
  - exact PrefixTree.represents_insert.
  - exact PrefixTree.represents_remove.
  - intros. by apply PrefixTree.represents_match.
  - intros i regs Hr. by eapply PrefixTree.represents_clear.
Defined.
