(* ===== verification/Protocol.v ===== *)
(** * Protocol: the wire format of src/protocol/Protocol.{hpp,cpp}

    A buffer is a list of bytes; the pointer and length the parsers receive are the
    buffer and a number that need not be its length. Reading outside the buffer is
    [Undefined]. A parser that returns [false] gives [None]: what it assigned to its
    output arguments before that is not kept, since no caller reads them then. The
    parsers that move a cursor are written in a monad that carries it. *)

From S2P Require Import Prelude.

Set Warnings "-clear-no-such-hyp".

Module Protocol.

Open Scope Z_scope.

(** ** Constants and enumerations *)

Definition MAX_PAYLOAD_SIZE : Z := 1024.
Definition OFFSET_UNSET : Z := 2 ^ 32 - 1.
Definition SHUTDOWN_OFFSET : Z := 2 ^ 32 - 1.

Inductive CommandType : Type :=
| CREATE | LIST | INFO | CONNECT | PRODUCE | SUBSCRIBE | ACK | DISCONNECT.

(** [static_cast<uint8_t>(action)] *)
Definition CommandType_code (c : CommandType) : byte :=
  match c with
  | CREATE => Byte.x01 | LIST => Byte.x02 | INFO => Byte.x03 | CONNECT => Byte.x04
  | PRODUCE => Byte.x05 | SUBSCRIBE => Byte.x06 | ACK => Byte.x07 | DISCONNECT => Byte.x08
  end.

(** [static_cast<CommandType>(b)] for the values of the enumerators. *)
Definition CommandType_of (b : byte) : option CommandType :=
  match b with
  | Byte.x01 => Some CREATE | Byte.x02 => Some LIST | Byte.x03 => Some INFO
  | Byte.x04 => Some CONNECT | Byte.x05 => Some PRODUCE | Byte.x06 => Some SUBSCRIBE
  | Byte.x07 => Some ACK | Byte.x08 => Some DISCONNECT
  | _ => None
  end.

(** The enumerators, and the other values a [static_cast<StatusCode>] can give. *)
Inductive StatusCode : Type :=
| SUCCESS | GENERAL_ERROR | TOPIC_CLIENT_ERR | IPC_ERROR
| StatusCode_value (b : byte).

Definition StatusCode_code (s : StatusCode) : byte :=
  match s with
  | SUCCESS => Byte.x00 | GENERAL_ERROR => Byte.x01
  | TOPIC_CLIENT_ERR => Byte.x02 | IPC_ERROR => Byte.x03
  | StatusCode_value b => b
  end.

Definition StatusCode_of (b : byte) : StatusCode :=
  match b with
  | Byte.x00 => SUCCESS | Byte.x01 => GENERAL_ERROR
  | Byte.x02 => TOPIC_CLIENT_ERR | Byte.x03 => IPC_ERROR
  | b => StatusCode_value b
  end.

Record ManagementRequestHeader : Type := mkRequestHeader {
  action : CommandType;
  request_payload_len : Z
}.

Record ManagementResponseHeader : Type := mkResponseHeader {
  status_code : StatusCode;
  response_payload_len : Z
}.

(** ** Memory *)

(** [buf[i]] *)
Definition load (buf : str) (i : Z) : outcome byte :=
  if i <? 0 then Undefined else deref (buf !! Z.to_nat i).

(** [string.assign(buf + i, n)] *)
Definition load_string (buf : str) (i n : Z) : outcome str :=
  if (0 <=? i) && (0 <=? n) && (i + n <=? zlen buf)
  then Done (take (Z.to_nat n) (drop (Z.to_nat i) buf))
  else Undefined.

(** ** 32-bit integers, little endian *)

Definition write_uint32_le (buf : str) (val : Z) : str :=
  let buf := buf ++ [byte_of_Z (Z.land val 255)] in
  let buf := buf ++ [byte_of_Z (Z.land (Z.shiftr val 8) 255)] in
  let buf := buf ++ [byte_of_Z (Z.land (Z.shiftr val 16) 255)] in
  buf ++ [byte_of_Z (Z.land (Z.shiftr val 24) 255)].

(** [read_uint32_le(buf + i)] *)
Definition read_uint32_le (buf : str) (i : Z) : outcome Z :=
  b0 ← load buf i;
  b1 ← load buf (i + 1);
  b2 ← load buf (i + 2);
  b3 ← load buf (i + 3);
  mret (Z.lor (Z.lor (Z.lor (Z_of_byte b0)
                            (Z.shiftl (Z_of_byte b1) 8))
                     (Z.shiftl (Z_of_byte b2) 16))
              (Z.shiftl (Z_of_byte b3) 24)).

(** ** Headers *)

Definition parse_request_header (buf : str) : outcome (option ManagementRequestHeader) :=
  b ← load buf 0;
  if (8 <? Z_of_byte b) || (Z_of_byte b =? 0) then mret None
  else
    c ← deref (CommandType_of b);
    payload_len ← read_uint32_le buf 1;
    mret (Some (mkRequestHeader c payload_len)).

Definition parse_response_header (buf : str) : outcome (option ManagementResponseHeader) :=
  b ← load buf 0;
  if 3 <? Z_of_byte b then mret None
  else
    payload_len ← read_uint32_le buf 1;
    mret (Some (mkResponseHeader (StatusCode_of b) payload_len)).

(** ** Request serializers *)

Definition serialize_create (pid : Z) (topic : str) : str :=
  let payload_len := wrap32 (4 + zlen topic) in
  let buf := [CommandType_code CREATE] in
  let buf := write_uint32_le buf payload_len in
  let buf := write_uint32_le buf pid in
  buf ++ topic.

Definition serialize_list (pid : Z) : str :=
  let payload_len := 4 in
  let buf := [CommandType_code LIST] in
  let buf := write_uint32_le buf payload_len in
  write_uint32_le buf pid.

Definition serialize_info (pid : Z) (client_id : str) : str :=
  let payload_len := wrap32 (4 + zlen client_id) in
  let buf := [CommandType_code INFO] in
  let buf := write_uint32_le buf payload_len in
  let buf := write_uint32_le buf pid in
  buf ++ client_id.

Definition serialize_connect (pid : Z) (topic : str) : str :=
  let payload_len := wrap32 (4 + zlen topic) in
  let buf := [CommandType_code CONNECT] in
  let buf := write_uint32_le buf payload_len in
  let buf := write_uint32_le buf pid in
  buf ++ topic.

Definition serialize_produce (topic key val : str) : str :=
  let payload_len := wrap32 (12 + zlen topic + zlen key + zlen val) in
  let buf := [CommandType_code PRODUCE] in
  let buf := write_uint32_le buf payload_len in
  let buf := write_uint32_le buf (wrap32 (zlen topic)) in
  let buf := buf ++ topic in
  let buf := write_uint32_le buf (wrap32 (zlen key)) in
  let buf := buf ++ key in
  let buf := write_uint32_le buf (wrap32 (zlen val)) in
  buf ++ val.

Definition serialize_subscribe (pid : Z) (client_id topic prefix : str) (offset : Z) : str :=
  let payload_len := wrap32 (20 + zlen client_id + zlen topic + zlen prefix) in
  let buf := [CommandType_code SUBSCRIBE] in
  let buf := write_uint32_le buf payload_len in
  let buf := write_uint32_le buf pid in
  let buf := write_uint32_le buf (wrap32 (zlen client_id)) in
  let buf := buf ++ client_id in
  let buf := write_uint32_le buf (wrap32 (zlen topic)) in
  let buf := buf ++ topic in
  let buf := write_uint32_le buf (wrap32 (zlen prefix)) in
  let buf := buf ++ prefix in
  write_uint32_le buf offset.

Definition serialize_ack (client_id : str) (next_offset : Z) : str :=
  let payload_len := wrap32 (8 + zlen client_id) in
  let buf := [CommandType_code ACK] in
  let buf := write_uint32_le buf payload_len in
  let buf := write_uint32_le buf (wrap32 (zlen client_id)) in
  let buf := buf ++ client_id in
  write_uint32_le buf next_offset.

Definition serialize_disconnect (client_id : str) : str :=
  let payload_len := wrap32 (4 + zlen client_id) in
  let buf := [CommandType_code DISCONNECT] in
  let buf := write_uint32_le buf payload_len in
  let buf := write_uint32_le buf (wrap32 (zlen client_id)) in
  buf ++ client_id.

(** ** Parsers with a cursor

    A parser reads the buffer of claimed length [len] from [offset] on and returns
    a value and the new cursor, or rejects. Sums of [size_t] wrap at 64 bits. *)

Definition wrap64 (z : Z) : Z := z mod 2 ^ 64.

Definition parser (A : Type) : Type := str → Z → Z → outcome (option (A * Z)).

#[export] Instance parser_ret : MRet parser := λ A a buf len offset,
  Done (Some (a, offset)).

#[export] Instance parser_bind : MBind parser := λ A B f p buf len offset,
  r ← p buf len offset;
  match r with
  | None => mret None
  | Some (a, offset) => f a buf len offset
  end.

(** [if (offset + 4 > len) return false;
     x = read_uint32_le(buf + offset); offset += 4;] *)
Definition next_u32 : parser Z := λ buf len offset,
  if wrap64 (offset + 4) >? len then mret None
  else x ← read_uint32_le buf offset; mret (Some (x, wrap64 (offset + 4))).

(** [if (offset + n > len) return false;
     s.assign(buf + offset, n); offset += n;] *)
Definition next_string (n : Z) : parser str := λ buf len offset,
  if wrap64 (offset + n) >? len then mret None
  else s ← load_string buf offset n; mret (Some (s, wrap64 (offset + n))).

(** [if (!b) return false;] *)
Definition check (b : bool) : parser unit := λ buf len offset,
  mret (if b then Some ((), offset) else None).

(** [return offset == len;], or [if (offset != len) return false;] *)
Definition at_end : parser unit := λ buf len offset,
  mret (if offset =? len then Some ((), offset) else None).

(** A parser called on a pointer and a length, its cursor at 0. *)
Definition run_parser {A} (p : parser A) (buf : str) (len : Z) : outcome (option A) :=
  r ← p buf len 0;
  mret (match r with Some (a, _) => Some a | None => None end).

(** ** Request parsers *)

Definition parse_create (buf : str) (len : Z) : outcome (option (Z * str)) :=
  if len <? 4 then mret None
  else
    pid ← read_uint32_le buf 0;
    let topic_len := len - 4 in
    topic ← load_string buf 4 topic_len;
    mret (Some (pid, topic)).

Definition parse_list (buf : str) (len : Z) : outcome (option Z) :=
  if negb (len =? 4) then mret None
  else pid ← read_uint32_le buf 0; mret (Some pid).

Definition parse_info (buf : str) (len : Z) : outcome (option (Z * str)) :=
  if len <? 4 then mret None
  else
    pid ← read_uint32_le buf 0;
    let id_len := len - 4 in
    client_id ← load_string buf 4 id_len;
    mret (Some (pid, client_id)).

Definition parse_connect (buf : str) (len : Z) : outcome (option (Z * str)) :=
  if len <? 4 then mret None
  else
    pid ← read_uint32_le buf 0;
    let topic_len := len - 4 in
    topic ← load_string buf 4 topic_len;
    mret (Some (pid, topic)).

Definition parse_produce : str → Z → outcome (option (str * str * str)) := run_parser (
  topic_len ← next_u32;
  topic ← next_string topic_len;
  key_len ← next_u32;
  key ← next_string key_len;
  val_len ← next_u32;
  val ← next_string val_len;
  at_end;;
  check (negb (wrap32 (key_len + val_len) >? MAX_PAYLOAD_SIZE));;
  mret (topic, key, val)).

Definition parse_subscribe : str → Z → outcome (option (Z * str * str * str * Z)) := run_parser (
  pid ← next_u32;
  id_len ← next_u32;
  client_id ← next_string id_len;
  topic_len ← next_u32;
  topic ← next_string topic_len;
  pref_len ← next_u32;
  prefix ← next_string pref_len;
  offset ← next_u32;
  at_end;;
  mret (pid, client_id, topic, prefix, offset)).

Definition parse_ack : str → Z → outcome (option (str * Z)) := run_parser (
  id_len ← next_u32;
  client_id ← next_string id_len;
  next_offset ← next_u32;
  at_end;;
  mret (client_id, next_offset)).

Definition parse_disconnect : str → Z → outcome (option str) := run_parser (
  id_len ← next_u32;
  client_id ← next_string id_len;
  at_end;;
  mret client_id).

(** ** Responses *)

Definition serialize_response (status : StatusCode) (payload : str) : str :=
  let payload_len := wrap32 (zlen payload) in
  let buf := [StatusCode_code status] in
  let buf := write_uint32_le buf payload_len in
  buf ++ payload.

Definition serialize_delivery (offset : Z) (key val : str) : str :=
  let key_len := wrap32 (zlen key) in
  let val_len := wrap32 (zlen val) in
  let buf := write_uint32_le [] offset in
  let buf := write_uint32_le buf key_len in
  let buf := write_uint32_le buf val_len in
  let buf := buf ++ key in
  buf ++ val.

Definition serialize_shutdown : str := serialize_delivery (2 ^ 32 - 1) [] [].

Definition parse_response (buf : str) (len : Z) : outcome (option (StatusCode * str)) :=
  if len <? 5 then mret None
  else
    b ← load buf 0;
    payload_len ← read_uint32_le buf 1;
    if negb (len - 5 =? payload_len) then mret None
    else
      payload ← load_string buf 5 payload_len;
      mret (Some (StatusCode_of b, payload)).

Definition parse_delivery : str → Z → outcome (option (Z * str * str)) := run_parser (
  offset ← next_u32;
  key_len ← next_u32;
  val_len ← next_u32;
  check (negb (negb (offset =? SHUTDOWN_OFFSET) &&
               (wrap32 (key_len + val_len) >? MAX_PAYLOAD_SIZE)));;
  key ← next_string key_len;
  val ← next_string val_len;
  at_end;;
  mret (offset, key, val)).

Definition is_shutdown (offset : Z) : bool := offset =? SHUTDOWN_OFFSET.

(** ** Specification

    The requests a client can make and their payload on the wire. *)

Inductive request : Type :=
| Req_create (pid : Z) (topic : str)
| Req_list (pid : Z)
| Req_info (pid : Z) (client_id : str)
| Req_connect (pid : Z) (topic : str)
| Req_produce (topic key val : str)
| Req_subscribe (pid : Z) (client_id topic prefix : str) (offset : Z)
| Req_ack (client_id : str) (next_offset : Z)
| Req_disconnect (client_id : str).

Definition request_action (r : request) : CommandType :=
  match r with
  | Req_create _ _ => CREATE | Req_list _ => LIST | Req_info _ _ => INFO
  | Req_connect _ _ => CONNECT | Req_produce _ _ _ => PRODUCE
  | Req_subscribe _ _ _ _ _ => SUBSCRIBE | Req_ack _ _ => ACK
  | Req_disconnect _ => DISCONNECT
  end.

(** The serializer of each request. *)
Definition serialize_request (r : request) : str :=
  match r with
  | Req_create pid topic => serialize_create pid topic
  | Req_list pid => serialize_list pid
  | Req_info pid id => serialize_info pid id
  | Req_connect pid topic => serialize_connect pid topic
  | Req_produce topic key val => serialize_produce topic key val
  | Req_subscribe pid id topic prefix offset => serialize_subscribe pid id topic prefix offset
  | Req_ack id next => serialize_ack id next
  | Req_disconnect id => serialize_disconnect id
  end.

(** The parser of the payload of each action. *)
Definition parse_request (c : CommandType) (buf : str) (len : Z) : outcome (option request) :=
  match c with
  | CREATE => r ← parse_create buf len; mret (option_map (λ '(pid, t), Req_create pid t) r)
  | LIST => r ← parse_list buf len; mret (option_map Req_list r)
  | INFO => r ← parse_info buf len; mret (option_map (λ '(pid, id), Req_info pid id) r)
  | CONNECT => r ← parse_connect buf len; mret (option_map (λ '(pid, t), Req_connect pid t) r)
  | PRODUCE => r ← parse_produce buf len; mret (option_map (λ '(t, k, v), Req_produce t k v) r)
  | SUBSCRIBE =>
      r ← parse_subscribe buf len;
      mret (option_map (λ '(pid, id, t, p, o), Req_subscribe pid id t p o) r)
  | ACK => r ← parse_ack buf len; mret (option_map (λ '(id, o), Req_ack id o) r)
  | DISCONNECT => r ← parse_disconnect buf len; mret (option_map Req_disconnect r)
  end.

(** The four bytes of an integer, and a string preceded by its length. *)
Definition u32_bytes (z : Z) : str := write_uint32_le [] z.

Definition sized (s : str) : str := u32_bytes (zlen s) ++ s.

Definition payload (r : request) : str :=
  match r with
  | Req_create pid s | Req_info pid s | Req_connect pid s => u32_bytes pid ++ s
  | Req_list pid => u32_bytes pid
  | Req_produce topic key val => sized topic ++ sized key ++ sized val
  | Req_subscribe pid id topic prefix offset =>
      u32_bytes pid ++ sized id ++ sized topic ++ sized prefix ++ u32_bytes offset
  | Req_ack id next => sized id ++ u32_bytes next
  | Req_disconnect id => sized id
  end.

(** The numbers of a request are 32 bits wide and a produced message is within the
    limit. *)
Definition valid_request (r : request) : Prop :=
  match r with
  | Req_create pid _ | Req_list pid | Req_info pid _ | Req_connect pid _ => u32 pid
  | Req_produce _ key val => zlen key + zlen val ≤ MAX_PAYLOAD_SIZE
  | Req_subscribe pid _ _ _ offset => u32 pid ∧ u32 offset
  | Req_ack _ next => u32 next
  | Req_disconnect _ => True
  end.

(** Parsers of lists of bytes, for the parsers with a cursor to be compared with. *)
Definition list_parser (A : Type) : Type := str → option (A * str).

#[export] Instance list_parser_ret : MRet list_parser := λ A a l, Some (a, l).

#[export] Instance list_parser_bind : MBind list_parser := λ A B f q l,
  match q l with
  | None => None
  | Some (a, rest) => f a rest
  end.

Definition take_u32 : list_parser Z := λ l,
  match l with
  | b0 :: b1 :: b2 :: b3 :: l =>
      Some (Z_of_byte b0 + Z_of_byte b1 * 2 ^ 8 + Z_of_byte b2 * 2 ^ 16 + Z_of_byte b3 * 2 ^ 24, l)
  | _ => None
  end.

Definition take_string (n : Z) : list_parser str := λ l,
  if zlen l <? n then None else Some (take (Z.to_nat n) l, drop (Z.to_nat n) l).

Definition take_check (b : bool) : list_parser unit := λ l,
  if b then Some ((), l) else None.

Definition take_end : list_parser unit := λ l,
  match l with [] => Some ((), []) | _ => None end.

(** What the parsers accept, read off the list of bytes. *)
Definition list_produce : list_parser (str * str * str) :=
  topic_len ← take_u32; topic ← take_string topic_len;
  key_len ← take_u32; key ← take_string key_len;
  val_len ← take_u32; val ← take_string val_len;
  take_end;; take_check (negb (wrap32 (key_len + val_len) >? MAX_PAYLOAD_SIZE));;
  mret (topic, key, val).

Definition list_subscribe : list_parser (Z * str * str * str * Z) :=
  pid ← take_u32;
  id_len ← take_u32; client_id ← take_string id_len;
  topic_len ← take_u32; topic ← take_string topic_len;
  pref_len ← take_u32; prefix ← take_string pref_len;
  offset ← take_u32;
  take_end;; mret (pid, client_id, topic, prefix, offset).

Definition list_ack : list_parser (str * Z) :=
  id_len ← take_u32; client_id ← take_string id_len; next ← take_u32;
  take_end;; mret (client_id, next).

Definition list_disconnect : list_parser str :=
  id_len ← take_u32; client_id ← take_string id_len;
  take_end;; mret client_id.

(** The rest of a buffer. *)
Definition take_rest : list_parser str := λ l, Some (l, []).

Definition list_request (c : CommandType) : list_parser request :=
  match c with
  | CREATE => pid ← take_u32; topic ← take_rest; mret (Req_create pid topic)
  | LIST => pid ← take_u32; take_end;; mret (Req_list pid)
  | INFO => pid ← take_u32; id ← take_rest; mret (Req_info pid id)
  | CONNECT => pid ← take_u32; topic ← take_rest; mret (Req_connect pid topic)
  | PRODUCE => '(topic, key, val) ← list_produce; mret (Req_produce topic key val)
  | SUBSCRIBE =>
      '(pid, id, topic, prefix, offset) ← list_subscribe;
      mret (Req_subscribe pid id topic prefix offset)
  | ACK => '(id, next) ← list_ack; mret (Req_ack id next)
  | DISCONNECT => id ← list_disconnect; mret (Req_disconnect id)
  end.

Definition list_delivery : list_parser (Z * str * str) :=
  offset ← take_u32; key_len ← take_u32; val_len ← take_u32;
  take_check (negb (negb (offset =? SHUTDOWN_OFFSET) &&
                    (wrap32 (key_len + val_len) >? MAX_PAYLOAD_SIZE)));;
  key ← take_string key_len; val ← take_string val_len;
  take_end;; mret (offset, key, val).

(** A buffer of which [len] bytes are claimed, not larger than an object can be. *)
Record readable (buf : str) (len : Z) : Prop := {
  readable_len : 0 ≤ len ≤ zlen buf;
  readable_max : zlen buf < 2 ^ 63
}.

(** The bytes from [offset] to [len]. *)
Definition window (buf : str) (len offset : Z) : str :=
  drop (Z.to_nat offset) (take (Z.to_nat len) buf).

(** [p] does on a window what [q] does on its bytes, and stays inside it. *)
Definition refines {A} (p : parser A) (q : list_parser A) : Prop :=
  ∀ buf len offset, readable buf len → 0 ≤ offset ≤ len →
    match q (window buf len offset) with
    | None => p buf len offset = Done None
    | Some (a, rest) =>
        ∃ offset', p buf len offset = Done (Some (a, offset')) ∧
                   offset ≤ offset' ≤ len ∧ rest = window buf len offset'
    end.

(** ** Bytes and 32-bit integers *)

Lemma write_uint32_le_app buf z : write_uint32_le buf z = buf ++ u32_bytes z.
Proof. unfold u32_bytes, write_uint32_le. by rewrite <- !(assoc_L (++)). Qed.

Lemma u32_bytes_eq z :
  u32_bytes z =
  [byte_of_Z z; byte_of_Z (z / 2 ^ 8); byte_of_Z (z / 2 ^ 16); byte_of_Z (z / 2 ^ 24)].
Proof.
  unfold u32_bytes, write_uint32_le. simpl. change 255 with (Z.ones 8).
  rewrite !Z.land_ones, !Z.shiftr_div_pow2 by lia.
  assert (∀ x, byte_of_Z (x mod 2 ^ 8) = byte_of_Z x) as Hm.
  { intros x. unfold byte_of_Z. by rewrite Z.mod_mod. }
  by rewrite !Hm.
Qed.

(** Division by powers of 256, as repeated division by 256. *)
Lemma div_256 z : z / 2 ^ 16 = z / 256 / 256 ∧ z / 2 ^ 24 = z / 256 / 256 / 256.
Proof. by rewrite !Z.div_div. Qed.

Lemma zlen_u32_bytes z : zlen (u32_bytes z) = 4.
Proof. by rewrite u32_bytes_eq. Qed.

#[local] Opaque u32_bytes.
#[local] Hint Rewrite zlen_u32_bytes : treenity_len.

Lemma lor_bytes b0 b1 b2 b3 :
  Z.lor (Z.lor (Z.lor (Z_of_byte b0) (Z.shiftl (Z_of_byte b1) 8)) (Z.shiftl (Z_of_byte b2) 16))
        (Z.shiftl (Z_of_byte b3) 24) =
  Z_of_byte b0 + Z_of_byte b1 * 2 ^ 8 + Z_of_byte b2 * 2 ^ 16 + Z_of_byte b3 * 2 ^ 24.
Proof.
  pose proof (Z_of_byte_range b0). pose proof (Z_of_byte_range b1).
  pose proof (Z_of_byte_range b2). pose proof (Z_of_byte_range b3).
  rewrite (lor_shiftl_add _ _ 8) by lia. rewrite (lor_shiftl_add _ _ 16) by lia.
  by rewrite (lor_shiftl_add _ _ 24) by lia.
Qed.

Lemma take_u32_bytes z l : u32 z → take_u32 (u32_bytes z ++ l) = Some (z, l).
Proof.
  intros Hz. rewrite u32_bytes_eq. simpl. do 2 f_equal.
  rewrite !Z_of_byte_of_Z. destruct (div_256 z) as [-> ->]. unfold u32 in Hz.
  change (2 ^ 8) with 256. change (2 ^ 16) with 65536. change (2 ^ 24) with 16777216. zify_div.
Qed.

Lemma take_u32_Some l z rest :
  take_u32 l = Some (z, rest) ↔ u32 z ∧ l = u32_bytes z ++ rest.
Proof.
  split; [|intros [? ->]; by apply take_u32_bytes].
  destruct l as [|b0 [|b1 [|b2 [|b3 l]]]]; cbn [take_u32]; intros [= <- <-] || by intros.
  pose proof (Z_of_byte_range b0). pose proof (Z_of_byte_range b1).
  pose proof (Z_of_byte_range b2). pose proof (Z_of_byte_range b3).
  split; [unfold u32; lia|]. rewrite u32_bytes_eq. simpl.
  assert (∀ b x, x mod 256 = Z_of_byte b → byte_of_Z x = b) as Hb.
  { intros b x Hx. apply Z_of_byte_inj. by rewrite Z_of_byte_of_Z. }
  destruct (div_256 (Z_of_byte b0 + Z_of_byte b1 * 2 ^ 8 + Z_of_byte b2 * 2 ^ 16 +
                     Z_of_byte b3 * 2 ^ 24)) as [-> ->].
  change (2 ^ 8) with 256. change (2 ^ 16) with 65536. change (2 ^ 24) with 16777216.
  rewrite (Hb b0), (Hb b1), (Hb b2), (Hb b3); [done|zify_div..].
Qed.

Lemma take_string_app s l : take_string (zlen s) (s ++ l) = Some (s, l).
Proof.
  unfold take_string. rewrite zlen_app, (proj2 (Z.ltb_ge _ _)) by (pose proof (zlen_nonneg l); lia).
  unfold zlen. by rewrite Nat2Z.id, take_app_length, drop_app_length.
Qed.

Lemma take_string_Some n l s rest :
  0 ≤ n → take_string n l = Some (s, rest) ↔ zlen s = n ∧ l = s ++ rest.
Proof.
  intros Hn. split; [|intros [<- ->]; apply take_string_app].
  unfold take_string. destruct (Z.ltb_spec (zlen l) n); [done|]. intros [= <- <-].
  split; [|by rewrite take_drop]. unfold zlen in *. rewrite length_take. lia.
Qed.

(** ** Windows *)

Lemma window_length buf len offset :
  readable buf len → 0 ≤ offset ≤ len → zlen (window buf len offset) = len - offset.
Proof.
  intros [Hl _] Ho. unfold window, zlen in *. rewrite length_drop, length_take. lia.
Qed.

Lemma window_step buf len offset n :
  0 ≤ offset → 0 ≤ n →
  drop (Z.to_nat n) (window buf len offset) = window buf len (offset + n).
Proof. intros ? ?. unfold window. rewrite drop_drop. f_equal. lia. Qed.

Lemma take_window buf len : take (Z.to_nat len) buf = window buf len 0.
Proof. unfold window. by rewrite drop_0. Qed.

Lemma window_all buf : window buf (zlen buf) 0 = buf.
Proof. unfold window, zlen. by rewrite Nat2Z.id, drop_0, firstn_all. Qed.

Lemma load_window buf len offset i b :
  readable buf len → 0 ≤ offset → 0 ≤ i →
  window buf len offset !! Z.to_nat i = Some b → load buf (offset + i) = Done b.
Proof.
  intros [Hl _] Ho Hi. unfold window. rewrite lookup_drop. intros Hb.
  unfold load. rewrite (proj2 (Z.ltb_ge _ _)) by lia.
  apply lookup_take_Some in Hb as [Hb _].
  replace (Z.to_nat (offset + i)) with (Z.to_nat offset + Z.to_nat i)%nat by lia.
  by rewrite Hb.
Qed.

Lemma read_uint32_le_window buf len offset z rest :
  readable buf len → 0 ≤ offset →
  take_u32 (window buf len offset) = Some (z, rest) → read_uint32_le buf offset = Done z.
Proof.
  intros Hr Ho. destruct (window buf len offset) as [|b0 [|b1 [|b2 [|b3 l]]]] eqn:Hw;
    simpl; try done. intros [= <- <-].
  assert (∀ i b, 0 ≤ i → window buf len offset !! Z.to_nat i = Some b →
                 load buf (offset + i) = Done b) as Hload
    by (intros; by eapply load_window).
  rewrite Hw in Hload. unfold read_uint32_le.
  rewrite <- (Z.add_0_r offset) at 1.
  rewrite (Hload 0 b0), (Hload 1 b1), (Hload 2 b2), (Hload 3 b3) by done. simpl.
  by rewrite lor_bytes.
Qed.

Lemma load_string_window buf len offset n :
  readable buf len → 0 ≤ offset → 0 ≤ n → offset + n ≤ len →
  load_string buf offset n = Done (take (Z.to_nat n) (window buf len offset)).
Proof.
  intros [Hl _] Ho Hn Hlen. unfold load_string.
  rewrite !(proj2 (Z.leb_le _ _)) by lia. simpl. f_equal. unfold window.
  rewrite !take_drop_commute, take_take. do 2 f_equal. lia.
Qed.

(** ** The cursor parsers refine the list parsers *)

Lemma refines_u32 : refines next_u32 take_u32.
Proof.
  intros buf len offset Hr Ho. pose proof (window_length buf len offset Hr Ho) as Hw.
  unfold next_u32. assert (wrap64 (offset + 4) = offset + 4) as ->
    by (apply Z.mod_small; destruct Hr; lia).
  destruct (take_u32 (window buf len offset)) as [[z rest]|] eqn:Ht.
  - rewrite (read_uint32_le_window buf len offset z rest) by (done || lia).
    apply take_u32_Some in Ht as [_ Ht]. rewrite Ht, zlen_app, zlen_u32_bytes in Hw.
    pose proof (zlen_nonneg rest). destruct (Z.gtb_spec (offset + 4) len); [lia|].
    exists (offset + 4). split_and!; [done|lia..|].
    rewrite <- (window_step buf len offset 4) by lia. by rewrite Ht, u32_bytes_eq.
  - destruct (Z.gtb_spec (offset + 4) len); [done|].
    destruct (window buf len offset) as [|b0 [|b1 [|b2 [|b3 l]]]];
      [unfold zlen in Hw; simpl in Hw; lia..|discriminate].
Qed.

Lemma refines_string n : u32 n → refines (next_string n) (take_string n).
Proof.
  intros Hn buf len offset Hr Ho. pose proof (window_length buf len offset Hr Ho) as Hw.
  unfold next_string, take_string, u32 in *. assert (wrap64 (offset + n) = offset + n) as ->
    by (apply Z.mod_small; destruct Hr; lia).
  rewrite Hw. destruct (Z.ltb_spec (len - offset) n), (Z.gtb_spec (offset + n) len); try lia; [done|].
  rewrite (load_string_window buf len) by (done || lia).
  exists (offset + n). rewrite window_step by lia. split_and!; [done|lia..|done].
Qed.

Lemma refines_ret {A} (a : A) : refines (mret a) (mret a).
Proof. intros buf len offset Hr Ho. exists offset. split_and!; [done|lia..|done]. Qed.

Lemma refines_bind {A B} (p : parser A) (q : list_parser A) (f : A → parser B) g :
  refines p q →
  (∀ a l rest, q l = Some (a, rest) → refines (f a) (g a)) →
  refines (p ≫= f) (q ≫= g).
Proof.
  intros Hp Hf buf len offset Hr Ho. specialize (Hp buf len offset Hr Ho).
  unfold mbind, parser_bind, list_parser_bind in *.
  destruct (q (window buf len offset)) as [[a rest]|] eqn:Hq; [|by rewrite Hp].
  destruct Hp as (offset1 & -> & Ho1 & ->). simpl.
  specialize (Hf a _ _ Hq buf len offset1 Hr ltac:(lia)).
  destruct (g a (window buf len offset1)) as [[b rest]|]; [|done].
  destruct Hf as (offset2 & -> & ? & ->). exists offset2. split_and!; [done|lia..|done].
Qed.

Lemma refines_check b : refines (check b) (take_check b).
Proof.
  intros buf len offset Hr Ho. destruct b; [|done]. exists offset. split_and!; [done|lia..|done].
Qed.

Lemma refines_end : refines at_end take_end.
Proof.
  intros buf len offset Hr Ho. pose proof (window_length buf len offset Hr Ho) as Hw.
  unfold at_end, take_end. destruct (window buf len offset) as [|b l] eqn:Hwin.
  - rewrite zlen_nil in Hw. rewrite (proj2 (Z.eqb_eq _ _)) by lia.
    exists offset. split_and!; [done|lia..|]. by rewrite Hwin.
  - rewrite zlen_cons in Hw. pose proof (zlen_nonneg l).
    by rewrite (proj2 (Z.eqb_neq _ _)) by lia.
Qed.

Lemma run_refines {A} (p : parser A) (q : list_parser A) buf len :
  refines p q → readable buf len →
  run_parser p buf len = Done (option_map fst (q (take (Z.to_nat len) buf))).
Proof.
  intros Hp Hr. assert (0 ≤ 0 ≤ len) as Hlen by (destruct Hr; lia).
  specialize (Hp buf len 0 Hr Hlen). unfold run_parser.
  rewrite take_window. destruct (q (window buf len 0)) as [[a rest]|].
  - by destruct Hp as (offset & -> & _).
  - by rewrite Hp.
Qed.

Lemma take_u32_range l z rest : take_u32 l = Some (z, rest) → u32 z.
Proof. by intros [? _]%take_u32_Some. Qed.

(** The steps of the parsers, one after the other. *)
Ltac refine_parser :=
  repeat first
    [ apply refines_ret
    | apply refines_u32
    | apply refines_end
    | apply refines_check
    | apply refines_string; eapply take_u32_range; eassumption
    | apply refines_bind; [|intros ? ? ? ?] ].

Lemma produce_refines buf len :
  readable buf len →
  parse_produce buf len = Done (option_map fst (list_produce (take (Z.to_nat len) buf))).
Proof. intros Hr. apply run_refines; [|done]. unfold list_produce. refine_parser. Qed.

Lemma subscribe_refines buf len :
  readable buf len →
  parse_subscribe buf len = Done (option_map fst (list_subscribe (take (Z.to_nat len) buf))).
Proof. intros Hr. apply run_refines; [|done]. unfold list_subscribe. refine_parser. Qed.

Lemma ack_refines buf len :
  readable buf len →
  parse_ack buf len = Done (option_map fst (list_ack (take (Z.to_nat len) buf))).
Proof. intros Hr. apply run_refines; [|done]. unfold list_ack. refine_parser. Qed.

Lemma disconnect_refines buf len :
  readable buf len →
  parse_disconnect buf len = Done (option_map fst (list_disconnect (take (Z.to_nat len) buf))).
Proof. intros Hr. apply run_refines; [|done]. unfold list_disconnect. refine_parser. Qed.

Lemma delivery_refines buf len :
  readable buf len →
  parse_delivery buf len = Done (option_map fst (list_delivery (take (Z.to_nat len) buf))).
Proof. intros Hr. apply run_refines; [|done]. unfold list_delivery. refine_parser. Qed.

(** The parsers without a cursor. *)
Lemma create_refines buf len :
  readable buf len → parse_create buf len = Done (take_u32 (take (Z.to_nat len) buf)).
Proof.
  intros Hr. assert (0 ≤ 0 ≤ len) as Hlen by (destruct Hr; lia).
  pose proof (window_length buf len 0 Hr Hlen) as Hw.
  unfold parse_create. rewrite take_window.
  destruct (take_u32 (window buf len 0)) as [[z rest]|] eqn:Ht.
  - rewrite (read_uint32_le_window buf len 0 z rest) by done.
    apply take_u32_Some in Ht as [_ Ht]. rewrite Ht, zlen_app, zlen_u32_bytes in Hw.
    pose proof (zlen_nonneg rest). rewrite (proj2 (Z.ltb_ge _ _)) by lia. simpl.
    rewrite (load_string_window buf len) by (done || lia). simpl. do 3 f_equal.
    pose proof (window_step buf len 0 4 ltac:(lia) ltac:(lia)) as Hs.
    rewrite Ht, u32_bytes_eq in Hs. change (drop (Z.to_nat 4) _) with rest in Hs.
    change (0 + 4) with 4 in Hs. rewrite <- Hs. apply take_ge. unfold zlen in *. lia.
  - rewrite (proj2 (Z.ltb_lt _ _)); [done|].
    destruct (window buf len 0) as [|b0 [|b1 [|b2 [|b3 l]]]];
      [unfold zlen in Hw; simpl in Hw; lia..|discriminate].
Qed.

Lemma list_refines buf len :
  readable buf len →
  parse_list buf len =
  Done (option_map fst ((pid ← take_u32; take_end;; mret pid) (take (Z.to_nat len) buf))).
Proof.
  intros Hr. assert (0 ≤ 0 ≤ len) as Hlen by (destruct Hr; lia).
  pose proof (window_length buf len 0 Hr Hlen) as Hw.
  unfold parse_list. rewrite take_window. unfold mbind, list_parser_bind.
  destruct (take_u32 (window buf len 0)) as [[z rest]|] eqn:Ht.
  - rewrite (read_uint32_le_window buf len 0 z rest) by done.
    apply take_u32_Some in Ht as [_ Ht]. rewrite Ht, zlen_app, zlen_u32_bytes in Hw.
    destruct rest as [|b rest]; autorewrite with treenity_len in Hw.
    + by rewrite (proj2 (Z.eqb_eq _ _)) by lia.
    + pose proof (zlen_nonneg rest). by rewrite (proj2 (Z.eqb_neq _ _)) by lia.
  - rewrite (proj2 (Z.eqb_neq _ _)); [done|].
    destruct (window buf len 0) as [|b0 [|b1 [|b2 [|b3 l]]]];
      [unfold zlen in Hw; simpl in Hw; lia..|discriminate].
Qed.

Lemma parse_request_refines c buf len :
  readable buf len →
  parse_request c buf len = Done (option_map fst (list_request c (take (Z.to_nat len) buf))).
Proof.
  intros Hr. unfold parse_request, list_request. destruct c;
    rewrite ?create_refines, ?list_refines, ?produce_refines, ?subscribe_refines,
      ?ack_refines, ?disconnect_refines by done;
    try change (parse_info buf len) with (parse_create buf len);
    try change (parse_connect buf len) with (parse_create buf len);
    rewrite ?create_refines by done; simpl; f_equal;
    unfold mbind, list_parser_bind, take_rest; by crush_match.
Qed.

(** ** What the list parsers accept *)

Lemma list_bind_Some {A B} (q : list_parser A) (g : A → list_parser B) l b rest :
  (q ≫= g) l = Some (b, rest) ↔ ∃ a l', q l = Some (a, l') ∧ g a l' = Some (b, rest).
Proof. unfold mbind, list_parser_bind. destruct (q l) as [[a l']|]; naive_solver. Qed.

Lemma take_end_Some l u rest : take_end l = Some (u, rest) ↔ l = [] ∧ rest = [].
Proof. destruct l, u; simpl; naive_solver. Qed.

Lemma take_check_Some b l u rest : take_check b l = Some (u, rest) ↔ b = true ∧ rest = l.
Proof. destruct b, u; simpl; naive_solver. Qed.

Lemma take_string_sized n l s rest :
  u32 n → take_string n l = Some (s, rest) → n = zlen s ∧ l = s ++ rest.
Proof. intros Hn Hs. apply take_string_Some in Hs as [? ?]; [done|apply Hn]. Qed.

(** Read a successful parse backwards. *)
Ltac invert_parse :=
  repeat match goal with
  | H : (_ ≫= _) _ = Some _ |- _ => apply list_bind_Some in H as (? & ? & ? & H)
  | H : take_u32 _ = Some _ |- _ => apply take_u32_Some in H as [? ->]
  | H : take_string _ _ = Some _ |- _ => apply take_string_sized in H as [-> ->]; [|assumption]
  | H : take_end _ = Some _ |- _ => apply take_end_Some in H as [-> ->]
  | H : take_check _ _ = Some _ |- _ => apply take_check_Some in H as [? ?]; subst
  | H : take_rest _ = Some _ |- _ => injection H as <- <-
  | H : mret _ _ = Some _ |- _ => injection H; clear H; intros; subst
  end.

(** Run a parse forwards over the fields of a message. *)
Lemma bind_u32 {B} z (g : Z → list_parser B) l :
  u32 z → (take_u32 ≫= g) (u32_bytes z ++ l) = g z l.
Proof. intros Hz. unfold mbind, list_parser_bind. by rewrite take_u32_bytes. Qed.

Lemma bind_string {B} s (g : str → list_parser B) l :
  (take_string (zlen s) ≫= g) (s ++ l) = g s l.
Proof. unfold mbind, list_parser_bind. by rewrite take_string_app. Qed.

Lemma bind_check {B} b (g : () → list_parser B) l :
  b = true → (take_check b ≫= g) l = g () l.
Proof. by intros ->. Qed.

Lemma bind_end {B} (g : () → list_parser B) : (take_end ≫= g) [] = g () [].
Proof. done. Qed.

Lemma bind_rest {B} (g : str → list_parser B) l : (take_rest ≫= g) l = g l [].
Proof. done. Qed.

Ltac run_parse :=
  repeat first
    [ rewrite bind_u32 by first [assumption | unfold u32; lia]
    | rewrite bind_string | rewrite bind_end | rewrite bind_rest ].

Lemma produce_exact l t k v :
  zlen l < 2 ^ 32 →
  (∃ rest, list_produce l = Some ((t, k, v), rest)) ↔
  zlen k + zlen v ≤ MAX_PAYLOAD_SIZE ∧ l = sized t ++ sized k ++ sized v.
Proof.
  intros Hl. unfold sized. split.
  - intros [rest Hp]. unfold list_produce in Hp. invert_parse.
    autorewrite with treenity_len in Hl. zlen_facts.
    rewrite wrap32_small in * by (unfold u32; lia). split; [lia|].
    by rewrite <- !(assoc_L (++)), app_nil_r.
  - intros [Hkv ->]. autorewrite with treenity_len in Hl. zlen_facts. eexists.
    rewrite <- (app_nil_r v) at 2. rewrite <- !(assoc_L (++)). unfold list_produce.
    run_parse. rewrite wrap32_small by (unfold u32; lia).
    destruct (Z.gtb_spec (zlen k + zlen v) MAX_PAYLOAD_SIZE); [lia|]. done.
Qed.

Lemma subscribe_exact l pid id t p o :
  zlen l < 2 ^ 32 →
  (∃ rest, list_subscribe l = Some ((pid, id, t, p, o), rest)) ↔
  (u32 pid ∧ u32 o) ∧ l = u32_bytes pid ++ sized id ++ sized t ++ sized p ++ u32_bytes o.
Proof.
  intros Hl. unfold sized. split.
  - intros [rest Hp]. unfold list_subscribe in Hp. invert_parse. split; [done|].
    by rewrite <- !(assoc_L (++)), app_nil_r.
  - intros [[Hpid Ho] ->]. autorewrite with treenity_len in Hl. zlen_facts. eexists.
    rewrite <- (app_nil_r (u32_bytes o)), <- !(assoc_L (++)). unfold list_subscribe.
    by run_parse.
Qed.

Lemma ack_exact l id o :
  zlen l < 2 ^ 32 →
  (∃ rest, list_ack l = Some ((id, o), rest)) ↔ u32 o ∧ l = sized id ++ u32_bytes o.
Proof.
  intros Hl. unfold sized. split.
  - intros [rest Hp]. unfold list_ack in Hp. invert_parse. split; [done|].
    by rewrite <- !(assoc_L (++)), app_nil_r.
  - intros [Ho ->]. autorewrite with treenity_len in Hl. zlen_facts. eexists.
    rewrite <- (app_nil_r (u32_bytes o)), <- !(assoc_L (++)). unfold list_ack.
    by run_parse.
Qed.

Lemma disconnect_exact l id :
  zlen l < 2 ^ 32 →
  (∃ rest, list_disconnect l = Some (id, rest)) ↔ l = sized id.
Proof.
  intros Hl. unfold sized. split.
  - intros [rest Hp]. unfold list_disconnect in Hp. invert_parse. by rewrite app_nil_r.
  - intros ->. autorewrite with treenity_len in Hl. zlen_facts. eexists.
    rewrite <- (app_nil_r id) at 2. unfold list_disconnect. by run_parse.
Qed.

Lemma delivery_exact l o k v :
  zlen l < 2 ^ 32 →
  (∃ rest, list_delivery l = Some ((o, k, v), rest)) ↔
  u32 o ∧ (o = SHUTDOWN_OFFSET ∨ zlen k + zlen v ≤ MAX_PAYLOAD_SIZE) ∧
  l = u32_bytes o ++ u32_bytes (zlen k) ++ u32_bytes (zlen v) ++ k ++ v.
Proof.
  intros Hl. split.
  - intros [rest Hp]. unfold list_delivery in Hp. invert_parse.
    autorewrite with treenity_len in Hl. zlen_facts.
    rewrite wrap32_small in * by (unfold u32; lia).
    split_and!; [done|lia|by rewrite app_nil_r].
  - intros (Ho & Hkv & ->). autorewrite with treenity_len in Hl. zlen_facts. eexists.
    rewrite <- (app_nil_r v) at 2. unfold list_delivery. run_parse.
    rewrite wrap32_small by (unfold u32; lia). rewrite bind_check by lia. by run_parse.
Qed.

(** The numbers that are parsed are 32 bits wide. *)
Lemma subscribe_range buf len pid id t p o :
  readable buf len → parse_subscribe buf len = Done (Some (pid, id, t, p, o)) →
  u32 pid ∧ u32 o.
Proof.
  intros Hr. rewrite subscribe_refines by done. generalize (take (Z.to_nat len) buf) as l.
  intros l [= Hp]. destruct (list_subscribe _) as [[x rest]|] eqn:Hl; [|done]. injection Hp as ->.
  unfold list_subscribe in Hl. by invert_parse.
Qed.

Lemma ack_range buf len id o :
  readable buf len → parse_ack buf len = Done (Some (id, o)) → u32 o.
Proof.
  intros Hr. rewrite ack_refines by done. generalize (take (Z.to_nat len) buf) as l.
  intros l [= Hp]. destruct (list_ack _) as [[x rest]|] eqn:Hl; [|done]. injection Hp as ->.
  unfold list_ack in Hl. by invert_parse.
Qed.

(** The grammar of requests: a buffer parses as [r] just when it is the payload of
    [r]. *)
Lemma request_exact c l r :
  zlen l < 2 ^ 32 →
  option_map fst (list_request c l) = Some r ↔
  request_action r = c ∧ valid_request r ∧ l = payload r.
Proof.
  intros Hl.
  assert (option_map fst (list_request c l) = Some r ↔
          ∃ rest, list_request c l = Some (r, rest)) as ->.
  { destruct (list_request c l) as [[? ?]|]; naive_solver. }
  split.
  - intros [rest Hr]. destruct c; simpl in Hr; apply list_bind_Some in Hr as (x & l' & Hp & Hr).
    1-4: invert_parse; simpl; rewrite ?app_nil_r; done.
    + destruct x as [[t k] v]. injection Hr as <- <-. split; [done|].
      apply produce_exact; [done|]. by eexists.
    + destruct x as [[[[pid id] t] p] o]. injection Hr as <- <-. split; [done|].
      apply subscribe_exact; [done|]. by eexists.
    + destruct x as [id o]. injection Hr as <- <-. split; [done|].
      apply ack_exact; [done|]. by eexists.
    + injection Hr as <- <-. split_and!; [done..|].
      apply disconnect_exact; [done|]. by eexists.
  - intros (<- & Hv & Hp). destruct r; simpl in Hv, Hp |- *; setoid_rewrite list_bind_Some.
    1,3,4: subst l; eexists _, _, _; split; [by apply take_u32_bytes|by rewrite bind_rest].
    + subst l. rewrite <- (app_nil_r (u32_bytes pid)).
      eexists _, _, _; split; [by apply take_u32_bytes|by rewrite bind_end].
    + destruct (proj2 (produce_exact _ _ _ _ Hl) (conj Hv Hp)) as [rest Hr].
      eexists rest, _, rest. by split.
    + destruct (proj2 (subscribe_exact _ _ _ _ _ _ Hl) (conj Hv Hp)) as [rest Hr].
      eexists rest, _, rest. by split.
    + destruct (proj2 (ack_exact _ _ _ Hl) (conj Hv Hp)) as [rest Hr].
      eexists rest, _, rest. by split.
    + destruct (proj2 (disconnect_exact _ _ Hl) Hp) as [rest Hr].
      eexists rest, _, rest. by split.
Qed.

(** ** Serializers and headers *)

Lemma serialize_request_eq r :
  zlen (payload r) < 2 ^ 32 →
  serialize_request r =
  CommandType_code (request_action r) :: u32_bytes (zlen (payload r)) ++ payload r.
Proof.
  intros Hl. destruct r; simpl in Hl |- *; unfold serialize_create, serialize_list,
    serialize_info, serialize_connect, serialize_produce, serialize_subscribe, serialize_ack,
    serialize_disconnect, sized in *; rewrite !write_uint32_le_app;
    autorewrite with treenity_len in *; zlen_facts;
    rewrite ?wrap32_small by (unfold u32; lia); simpl; rewrite <- ?app_assoc; simpl;
    repeat first [done | lia | f_equal].
Qed.

Lemma take_u32_drop l :
  4 ≤ zlen l → ∃ z, u32 z ∧ take_u32 l = Some (z, drop 4 l).
Proof.
  intros Hl. destruct (take_u32 l) as [[z rest]|] eqn:Ht.
  - exists z. apply take_u32_Some in Ht as [Hz ->]. split; [done|]. by rewrite u32_bytes_eq.
  - destruct l as [|b0 [|b1 [|b2 [|b3 l]]]]; [unfold zlen in Hl; simpl in Hl; lia..|discriminate].
Qed.

Lemma read_after_byte b l n z rest :
  readable (b :: l) n → n = zlen (b :: l) → take_u32 l = Some (z, rest) →
  load (b :: l) 0 = Done b ∧ read_uint32_le (b :: l) 1 = Done z.
Proof.
  intros Hr -> Hz. split; [done|].
  apply (read_uint32_le_window _ (zlen (b :: l)) 1 z rest); [done|lia|].
  pose proof (window_step (b :: l) (zlen (b :: l)) 0 1 ltac:(lia) ltac:(lia)) as Hw.
  rewrite window_all in Hw. change (0 + 1) with 1 in Hw. by rewrite <- Hw.
Qed.

Lemma readable_all buf : zlen buf < 2 ^ 63 → readable buf (zlen buf).
Proof. split; zlen_facts; lia. Qed.

Lemma parse_request_header_eq b l :
  4 ≤ zlen l < 2 ^ 62 →
  ∃ z, u32 z ∧ take_u32 l = Some (z, drop 4 l) ∧
       parse_request_header (b :: l) =
       Done ((λ c, mkRequestHeader c z) <$> CommandType_of b).
Proof.
  intros Hl. destruct (take_u32_drop l) as (z & Hz & Ht); [lia|].
  exists z. split_and!; [done..|]. unfold parse_request_header.
  destruct (read_after_byte b l (zlen (b :: l)) z (drop 4 l)) as [-> ->]; [|done|done|].
  - apply readable_all. rewrite zlen_cons. lia.
  - by destruct b.
Qed.

Lemma parse_response_header_eq b l :
  4 ≤ zlen l < 2 ^ 62 →
  ∃ z, u32 z ∧ take_u32 l = Some (z, drop 4 l) ∧
       parse_response_header (b :: l) =
       Done (if Z_of_byte b <=? 3 then Some (mkResponseHeader (StatusCode_of b) z) else None).
Proof.
  intros Hl. destruct (take_u32_drop l) as (z & Hz & Ht); [lia|].
  exists z. split_and!; [done..|]. unfold parse_response_header.
  destruct (read_after_byte b l (zlen (b :: l)) z (drop 4 l)) as [-> ->]; [|done|done|].
  - apply readable_all. rewrite zlen_cons. lia.
  - by destruct b.
Qed.

Lemma response_refines buf len :
  readable buf len →
  parse_response buf len =
  Done (match take (Z.to_nat len) buf with
        | [] => None
        | b :: l =>
            match take_u32 l with
            | Some (n, rest) => if zlen rest =? n then Some (StatusCode_of b, rest) else None
            | None => None
            end
        end).
Proof.
  intros Hr. assert (0 ≤ 0 ≤ len) as Hlen by (destruct Hr; lia).
  pose proof (window_length buf len 0 Hr Hlen) as Hw. rewrite take_window.
  unfold parse_response. destruct (window buf len 0) as [|b l] eqn:Hwin.
  { rewrite zlen_nil in Hw. rewrite (proj2 (Z.ltb_lt _ _)); [done|lia]. }
  rewrite zlen_cons in Hw. destruct (Z.ltb_spec len 5) as [|Hge].
  { destruct l as [|b0 [|b1 [|b2 [|b3 l]]]]; [done..|].
    autorewrite with treenity_len in Hw. zlen_facts. lia. }
  assert (load buf 0 = Done b) as ->
    by (by apply (load_window buf len 0 0); [..|rewrite Hwin]).
  pose proof (window_step buf len 0 1 ltac:(lia) ltac:(lia)) as Hw1.
  rewrite Hwin in Hw1. change (drop (Z.to_nat 1) (b :: l)) with l in Hw1.
  change (0 + 1) with 1 in Hw1.
  destruct (take_u32_drop l) as (z & Hz & Ht); [lia|].
  rewrite (read_uint32_le_window buf len 1 z (drop 4 l)) by (done || lia || by rewrite <- Hw1).
  rewrite Ht. simpl. assert (zlen (drop 4 l) = len - 5) as Hd.
  { unfold zlen in *. rewrite length_drop. lia. }
  rewrite Hd. destruct (Z.eqb_spec (len - 5) z) as [<-|]; [|done]. simpl.
  rewrite (load_string_window buf len) by (done || lia). simpl. do 3 f_equal.
  pose proof (window_step buf len 1 4 ltac:(lia) ltac:(lia)) as Hw5.
  change (1 + 4) with 5 in Hw5. rewrite <- Hw5, <- Hw1.
  apply take_ge. unfold zlen in *. change (Z.to_nat 4) with 4%nat. lia.
Qed.

Lemma serialize_delivery_eq o k v :
  zlen k < 2 ^ 32 → zlen v < 2 ^ 32 →
  serialize_delivery o k v = u32_bytes o ++ u32_bytes (zlen k) ++ u32_bytes (zlen v) ++ k ++ v.
Proof.
  intros Hk Hv. unfold serialize_delivery. zlen_facts.
  rewrite !wrap32_small by (unfold u32; lia). rewrite !write_uint32_le_app.
  by rewrite <- !app_assoc.
Qed.

Lemma serialize_response_eq s p :
  zlen p < 2 ^ 32 →
  serialize_response s p = StatusCode_code s :: u32_bytes (zlen p) ++ p.
Proof.
  intros Hp. unfold serialize_response. zlen_facts.
  rewrite wrap32_small by (unfold u32; lia). by rewrite write_uint32_le_app.
Qed.

Lemma zlen_delivery o k v :
  zlen (serialize_delivery o k v) = 12 + zlen k + zlen v.
Proof.
  unfold serialize_delivery. rewrite !write_uint32_le_app.
  autorewrite with treenity_len. lia.
Qed.

Lemma parse_own_delivery o k v :
  u32 o → o = SHUTDOWN_OFFSET ∨ zlen k + zlen v ≤ MAX_PAYLOAD_SIZE →
  zlen k + zlen v < 2 ^ 31 →
  let buf := serialize_delivery o k v in
  parse_delivery buf (zlen buf) = Done (Some (o, k, v)).
Proof.
  intros Ho Hkv Hl buf. pose proof (zlen_delivery o k v) as Hb. fold buf in Hb. zlen_facts.
  rewrite delivery_refines by (apply readable_all; lia).
  rewrite take_window, window_all.
  destruct (proj2 (delivery_exact buf o k v ltac:(lia))) as [rest ->]; [|done].
  split_and!; [done|done|]. apply serialize_delivery_eq; lia.
Qed.

Lemma parse_own_response s p :
  StatusCode_of (StatusCode_code s) = s → zlen p < 2 ^ 32 →
  let buf := serialize_response s p in
  parse_response buf (zlen buf) = Done (Some (s, p)).
Proof.
  intros Hs Hp buf. assert (zlen buf = 5 + zlen p) as Hb.
  { unfold buf. rewrite serialize_response_eq by done. autorewrite with treenity_len. lia. }
  zlen_facts. rewrite response_refines by (apply readable_all; lia).
  rewrite take_window, window_all. unfold buf. rewrite serialize_response_eq by done.
  rewrite take_u32_bytes by (unfold u32; lia). rewrite Z.eqb_refl. by rewrite Hs.
Qed.

(** ** Properties *)

(** C27: Every request a client serializes is recovered: the header parser gives its
    action and the size of its payload, the bytes after the header are the payload,
    and the parser of that action gives the request back. *)
Theorem request_wire_roundtrip (r : request)
    (Hv : valid_request r) (Hl : zlen (payload r) < 2 ^ 32) :
  let buf := serialize_request r in
  zlen buf = 5 + zlen (payload r) ∧
  parse_request_header buf =
    Done (Some (mkRequestHeader (request_action r) (zlen (payload r)))) ∧
  parse_request (request_action r) (drop 5 buf) (zlen (payload r)) = Done (Some r).
Proof.
  intros buf. unfold buf. rewrite serialize_request_eq by done. zlen_facts.
  split_and!; [autorewrite with treenity_len; lia| |].
  - destruct (parse_request_header_eq (CommandType_code (request_action r))
      (u32_bytes (zlen (payload r)) ++ payload r)) as (z & _ & Hz & ->).
    { autorewrite with treenity_len. lia. }
    rewrite take_u32_bytes in Hz by (unfold u32; lia). injection Hz as <-.
    by destruct (request_action r).
  - change (drop 5 _) with (drop 4 (u32_bytes (zlen (payload r)) ++ payload r)).
    rewrite u32_bytes_eq. simpl. rewrite parse_request_refines by (apply readable_all; lia).
    rewrite take_window, window_all. f_equal. by apply request_exact.
Qed.

(** C28: A payload parses as a request exactly when it is the payload the format gives
    that request: the parsers accept nothing else (no trailing bytes, no inconsistent
    lengths, no produced message above the limit), and no two requests share one. *)
Theorem payload_parse_exact (c : CommandType) (buf : str) (r : request)
    (Hl : zlen buf < 2 ^ 32) :
  parse_request c buf (zlen buf) = Done (Some r) ↔
  request_action r = c ∧ valid_request r ∧ buf = payload r.
Proof.
  rewrite parse_request_refines by (apply readable_all; lia).
  rewrite take_window, window_all. rewrite <- (request_exact c buf r Hl). split; [by intros [= ->]|by intros ->].
Qed.

(** C29: No parser reads outside the bytes it is told it has: on any contents it returns
    an answer, and that answer depends on those bytes alone. *)
Theorem parsers_stay_in_bounds (buf : str) (len : Z) (Hr : readable buf len) :
  let bytes := take (Z.to_nat len) buf in
  (∀ c, ∃ r, parse_request c buf len = Done r ∧ parse_request c bytes len = Done r) ∧
  (∃ r, parse_delivery buf len = Done r ∧ parse_delivery bytes len = Done r) ∧
  (∃ r, parse_response buf len = Done r ∧ parse_response bytes len = Done r).
Proof.
  intros bytes. assert (readable bytes len) as Hb.
  { destruct Hr. assert (zlen bytes = len) as Hz
      by (unfold bytes, zlen in *; rewrite length_take; lia).
    split; lia. }
  assert (take (Z.to_nat len) bytes = bytes) as Ht by (unfold bytes; by rewrite take_take, Nat.min_id).
  split_and!; [intros c|..]; eexists; split.
  - by apply parse_request_refines.
  - rewrite parse_request_refines by done. by rewrite Ht.
  - by apply delivery_refines.
  - rewrite delivery_refines by done. by rewrite Ht.
  - by apply response_refines.
  - rewrite response_refines by done. by rewrite Ht.
Qed.

(** A delivery parses as an offset, a key and a value exactly when it is the
    serialization of these, with sizes within the limit unless the offset is the
    shutdown mark; in particular a delivery is recovered from its bytes. *)
Theorem delivery_parse_exact (buf : str) (o : Z) (k v : str) (Hl : zlen buf < 2 ^ 32) :
  parse_delivery buf (zlen buf) = Done (Some (o, k, v)) ↔
  u32 o ∧ (o = SHUTDOWN_OFFSET ∨ zlen k + zlen v ≤ MAX_PAYLOAD_SIZE) ∧
  buf = serialize_delivery o k v.
Proof.
  rewrite delivery_refines by (apply readable_all; lia). rewrite take_window, window_all.
  pose proof (delivery_exact buf o k v Hl) as He. transitivity (∃ rest, list_delivery buf = Some ((o, k, v), rest)).
  { destruct (list_delivery buf) as [[? ?]|]; naive_solver. }
  rewrite He. split; intros (Ho & Hkv & ->); split_and!; try done.
  - symmetry. autorewrite with treenity_len in Hl. zlen_facts. apply serialize_delivery_eq; lia.
  - rewrite zlen_delivery in Hl. zlen_facts. apply serialize_delivery_eq; lia.
Qed.

(** A response is recovered from its bytes, whatever the status byte, and only
    serialized responses are accepted. *)
Theorem response_parse_exact (buf : str) (s : StatusCode) (p : str) (Hl : zlen buf < 2 ^ 32) :
  parse_response buf (zlen buf) = Done (Some (s, p)) ↔
  StatusCode_of (StatusCode_code s) = s ∧ buf = serialize_response s p.
Proof.
  split; [|intros [Hs ->]; apply parse_own_response; [done|]].
  - rewrite response_refines by (apply readable_all; lia). rewrite take_window, window_all.
    destruct buf as [|b l]; [done|]. destruct (take_u32 l) as [[z rest]|] eqn:Ht; [|done].
    apply take_u32_Some in Ht as [Hz ->]. destruct (Z.eqb_spec (zlen rest) z) as [<-|]; [|done].
    intros [= <- <-]. rewrite serialize_response_eq by (apply Hz).
    split; by destruct b.
  - unfold serialize_response in Hl. rewrite write_uint32_le_app in Hl.
    autorewrite with treenity_len in Hl. lia.
Qed.

(** The header parsers accept exactly the first bytes that name an action (1 to 8)
    or a status (0 to 3), and give a 32-bit payload size. *)
Theorem header_parse_range (b : byte) (l : str) (Hl : 4 ≤ zlen l < 2 ^ 62) :
  (∃ z, u32 z ∧ take_u32 l = Some (z, drop 4 l) ∧
        parse_request_header (b :: l) =
          Done (if (1 <=? Z_of_byte b) && (Z_of_byte b <=? 8)
                then (λ c, mkRequestHeader c z) <$> CommandType_of b else None) ∧
        ((1 <=? Z_of_byte b) && (Z_of_byte b <=? 8) = true → is_Some (CommandType_of b)) ∧
        parse_response_header (b :: l) =
          Done (if Z_of_byte b <=? 3 then Some (mkResponseHeader (StatusCode_of b) z) else None)).
Proof.
  destruct (parse_request_header_eq b l Hl) as (z & Hz & Ht & ->).
  destruct (parse_response_header_eq b l Hl) as (z' & _ & Ht' & ->).
  rewrite Ht in Ht'. injection Ht' as <-. exists z.
  split_and!; [done|done|by destruct b|destruct b; (by intros [=]) || by eexists|done].
Qed.

(** The shutdown notice is a delivery that the delivery parser recovers, at the
    offset [is_shutdown] recognises and no other. *)
Theorem shutdown_notice_recognised (o : Z) :
  parse_delivery serialize_shutdown (zlen serialize_shutdown) =
    Done (Some (SHUTDOWN_OFFSET, [], [])) ∧
  (is_shutdown o = true ↔ o = SHUTDOWN_OFFSET).
Proof.
  split; [|apply Z.eqb_eq]. apply parse_own_delivery; [by vm_compute|by left|by vm_compute].
Qed.

(** ** Witnesses *)

Module Witness.

Definition req : request := Req_produce $"orders" $"eu.de" $"42".

Lemma request_wire_witness :
  let buf := serialize_request req in
  zlen buf = 30 ∧
  parse_request_header buf = Done (Some (mkRequestHeader PRODUCE 25)) ∧
  parse_request PRODUCE (drop 5 buf) 25 = Done (Some req).
Proof. apply (request_wire_roundtrip req); [by vm_compute|reflexivity]. Defined.

(** A payload with one trailing byte is rejected. *)
Lemma payload_exact_witness :
  parse_request ACK (payload (Req_ack $"c" 7) ++ [Byte.x00]) 10 ≠ Done (Some (Req_ack $"c" 7)).
Proof.
  intros Hp.
  destruct (proj1 (payload_parse_exact ACK (payload (Req_ack $"c" 7) ++ [Byte.x00])
                     (Req_ack $"c" 7) eq_refl) Hp) as (_ & _ & Hb).
  apply (f_equal length) in Hb. vm_compute in Hb. discriminate.
Defined.

(** A length field of 2^32-1 is rejected without a read. *)
Lemma in_bounds_witness :
  readable [Byte.xff; Byte.xff; Byte.xff; Byte.xff; Byte.x00] 4 ∧
  ∃ r, parse_request DISCONNECT [Byte.xff; Byte.xff; Byte.xff; Byte.xff; Byte.x00] 4 = Done r.
Proof.
  assert (readable [Byte.xff; Byte.xff; Byte.xff; Byte.xff; Byte.x00] 4) as Hr by (split; by vm_compute).
  split; [exact Hr|].
  destruct (proj1 (parsers_stay_in_bounds _ 4 Hr) DISCONNECT) as (r & Hd & _). by exists r.
Defined.

Lemma delivery_exact_witness :
  parse_delivery (serialize_delivery 3 $"k" $"v") 14 = Done (Some (3, $"k", $"v")).
Proof.
  apply (delivery_parse_exact (serialize_delivery 3 $"k" $"v") 3 $"k" $"v" eq_refl).
  split_and!; [by vm_compute|right; by vm_compute|reflexivity].
Defined.

Lemma response_exact_witness :
  parse_response (serialize_response IPC_ERROR $"e") 6 = Done (Some (IPC_ERROR, $"e")).
Proof.
  apply (response_parse_exact (serialize_response IPC_ERROR $"e") IPC_ERROR $"e" eq_refl).
  split; reflexivity.
Defined.

Lemma header_range_witness :
  ∃ z, u32 z ∧ parse_request_header [Byte.x09; Byte.x00; Byte.x01; Byte.x00; Byte.x00] = Done None.
Proof.
  destruct (header_parse_range Byte.x09 [Byte.x00; Byte.x01; Byte.x00; Byte.x00])
    as (z & Hz & _ & Hp & _); [by vm_compute|]. by exists z.
Defined.

(** A claimed length beyond the buffer does read outside it. *)
Example claimed_length_too_long : parse_list [Byte.x01] 4 = Undefined.
Proof. reflexivity. Qed.
End Witness.

End Protocol.
