(* ===== verification/World.v ===== *)
(** * World: the operating system as the program sees it

    The system calls are parameters: a [Kernel] is any state with any functions for
    them, so that a theorem about the program holds for every behaviour of the
    system, of other processes and of time. What some theorems rely on is stated in
    classes: [KernelLaws], how descriptors are handed out; [TransferLaws], how much a read
    or a write may transfer; [ClosedReads], that nothing is read from what is not open;
    [FiniteStalls], [ClockLaws] and [SignalArrives], that
    interruptions come to an end, time passes and a signal comes. The model adds to the state of the
    system the trace of the calls that concern descriptors; no code reads it. *)

From S2P Require Import Prelude.

Set Warnings "-clear-no-such-hyp".

Module World.

Open Scope Z_scope.

(** ** System calls *)

Inductive open_mode : Type :=
| O_RDWR                (* O_RDWR *)
| O_RDONLY_NONBLOCK     (* O_RDONLY | O_NONBLOCK *)
| O_WRONLY              (* O_WRONLY *)
| O_WRONLY_NONBLOCK.    (* O_WRONLY | O_NONBLOCK *)

Inductive errno : Type := EINTR | ENXIO | ENOENT | EAGAIN | EPIPE | E_OTHER.

#[export] Instance errno_eq_decision : EqDecision errno.
Proof. solve_decision. Defined.

(** The calls return what C returns: a number, negative for an error that [errno]
    then names. [sys_read fd count] also returns what it stored in the buffer, and
    [sys_poll fd timeout] the [revents]; [sys_signalled] tells whether one of the signals
    the client handles has arrived. *)
Class Kernel := {
  kstate : Type;
  sys_open : str → open_mode → kstate → Z * kstate;
  sys_close : Z → kstate → kstate;
  sys_read : Z → Z → kstate → Z * str * kstate;
  sys_write : Z → str → kstate → Z * kstate;
  sys_mkfifo : str → kstate → Z * kstate;
  sys_unlink : str → kstate → kstate;
  sys_poll : Z → Z → kstate → Z * Z * kstate;
  sys_errno : kstate → errno;
  sys_set_blocking : Z → kstate → kstate;
  sys_clock : kstate → Z * kstate;
  sys_sleep : Z → kstate → kstate;
  sys_getpid : kstate → Z;
  sys_signalled : kstate → bool * kstate
}.

Inductive event : Type :=
| EvOpen (path : str) (mode : open_mode) (fd : Z)
| EvClose (fd : Z)
| EvWrite (fd : Z) (bytes : str) (ret : Z)
| EvRead (fd : Z) (bytes : str).

Section Calls.
Context `{Kernel}.

Record world : Type := mkWorld {
  kernel : kstate;
  trace : list event
}.

Definition open_ (path : str) (mode : open_mode) (w : world) : Z * world :=
  let '(fd, k) := sys_open path mode (kernel w) in
  (fd, mkWorld k (trace w ++ [EvOpen path mode fd])).

Definition close_ (fd : Z) (w : world) : world :=
  mkWorld (sys_close fd (kernel w)) (trace w ++ [EvClose fd]).

Definition write_ (fd : Z) (bytes : str) (w : world) : Z * world :=
  let '(ret, k) := sys_write fd bytes (kernel w) in
  (ret, mkWorld k (trace w ++ [EvWrite fd bytes ret])).

Definition read_ (fd count : Z) (w : world) : Z * str * world :=
  let '(ret, bytes, k) := sys_read fd count (kernel w) in
  (ret, bytes, mkWorld k (trace w ++ [EvRead fd bytes])).

Definition mkfifo_ (path : str) (w : world) : Z * world :=
  let '(ret, k) := sys_mkfifo path (kernel w) in (ret, mkWorld k (trace w)).

Definition unlink_ (path : str) (w : world) : world :=
  mkWorld (sys_unlink path (kernel w)) (trace w).

Definition poll_ (fd timeout : Z) (w : world) : Z * Z * world :=
  let '(ret, revents, k) := sys_poll fd timeout (kernel w) in
  (ret, revents, mkWorld k (trace w)).

Definition errno_ (w : world) : errno := sys_errno (kernel w).

Definition set_blocking_ (fd : Z) (w : world) : world :=
  mkWorld (sys_set_blocking fd (kernel w)) (trace w).

Definition clock_ (w : world) : Z * world :=
  let '(now, k) := sys_clock (kernel w) in (now, mkWorld k (trace w)).

Definition sleep_ (ms : Z) (w : world) : world :=
  mkWorld (sys_sleep ms (kernel w)) (trace w).

Definition getpid_ (w : world) : Z := wrap32 (sys_getpid (kernel w)).

Definition shutdown_requested_ (w : world) : bool * world :=
  let '(b, k) := sys_signalled (kernel w) in (b, mkWorld k (trace w)).

(** The writes to [fd] in a trace, with their results, until [fd] is closed. *)
Fixpoint session_writes (fd : Z) (tr : list event) : list (str * Z) :=
  match tr with
  | [] => []
  | EvClose x :: tr => if decide (x = fd) then [] else session_writes fd tr
  | EvWrite x bytes ret :: tr =>
      if decide (x = fd) then (bytes, ret) :: session_writes fd tr else session_writes fd tr
  | _ :: tr => session_writes fd tr
  end.

Definition closes (fd : Z) (e : event) : bool :=
  match e with EvClose x => bool_decide (x = fd) | _ => false end.

(** The event writes to [fd] or closes it. *)
Definition about (fd : Z) (e : event) : Prop :=
  match e with EvClose x | EvWrite x _ _ => x = fd | _ => False end.

(** The bytes the system took from the writes to [fd], and the bytes read from it. *)
Fixpoint accepted (fd : Z) (tr : list event) : str :=
  match tr with
  | [] => []
  | EvWrite x bytes ret :: tr =>
      if decide (x = fd) then take (Z.to_nat ret) bytes ++ accepted fd tr else accepted fd tr
  | _ :: tr => accepted fd tr
  end.

Fixpoint consumed (fd : Z) (tr : list event) : str :=
  match tr with
  | [] => []
  | EvRead x bytes :: tr =>
      if decide (x = fd) then bytes ++ consumed fd tr else consumed fd tr
  | _ :: tr => consumed fd tr
  end.

End Calls.

(** ** Descriptors

    [open] returns -1 or a descriptor that was not open before and is then; [close]
    closes its argument; the other calls do neither. *)
Class KernelLaws `{Kernel} := {
  fd_open : kstate → Z → Prop;
  sys_open_law path mode k :
    let '(fd, k') := sys_open path mode k in
    (fd = -1 ∧ ∀ x, fd_open k' x ↔ fd_open k x) ∨
    (0 ≤ fd ∧ ¬ fd_open k fd ∧ ∀ x, fd_open k' x ↔ x = fd ∨ fd_open k x);
  sys_close_law fd k x : fd_open (sys_close fd k) x ↔ x ≠ fd ∧ fd_open k x;
  sys_write_law fd bytes k x : fd_open (sys_write fd bytes k).2 x ↔ fd_open k x;
  sys_read_law fd count k x : fd_open (sys_read fd count k).2 x ↔ fd_open k x;
  sys_mkfifo_law path k x : fd_open (sys_mkfifo path k).2 x ↔ fd_open k x;
  sys_unlink_law path k x : fd_open (sys_unlink path k) x ↔ fd_open k x;
  sys_poll_law fd timeout k x : fd_open (sys_poll fd timeout k).2 x ↔ fd_open k x;
  sys_set_blocking_law fd k x : fd_open (sys_set_blocking fd k) x ↔ fd_open k x;
  sys_clock_law k x : fd_open (sys_clock k).2 x ↔ fd_open k x;
  sys_sleep_law ms k x : fd_open (sys_sleep ms k) x ↔ fd_open k x;
  sys_signalled_law k x : fd_open (sys_signalled k).2 x ↔ fd_open k x
}.

(** A write takes no more than it is given, and a read stores what it says it did, no more
    than it was asked for. *)
Class TransferLaws `{Kernel} := {
  sys_write_bound fd bytes k : (sys_write fd bytes k).1 ≤ zlen bytes;
  sys_read_bound fd count k :
    let '(ret, bytes, _) := sys_read fd count k in
    0 ≤ count → zlen bytes = Z.max 0 ret ∧ ret ≤ count
}.

(** A read fails on a descriptor that is not open. *)
Class ClosedReads `{KernelLaws} := {
  sys_read_closed fd count k : ¬ fd_open k fd → (sys_read fd count k).1.1 ≤ 0
}.

(** Only so many calls are still to be interrupted by a signal, or to write nothing. *)
Class FiniteStalls `{Kernel} := {
  stalls : kstate → nat;
  sys_write_stalls fd bytes k :
    let '(ret, k') := sys_write fd bytes k in
    (stalls k' ≤ stalls k)%nat ∧
    (bytes ≠ [] → ret = 0 ∨ ret < 0 ∧ sys_errno k' = EINTR → (stalls k' < stalls k)%nat);
  sys_read_stalls fd count k :
    let '(ret, _, k') := sys_read fd count k in
    (stalls k' ≤ stalls k)%nat ∧ (ret < 0 ∧ sys_errno k' = EINTR → (stalls k' < stalls k)%nat);
  sys_poll_stalls fd timeout k :
    let '(ret, _, k') := sys_poll fd timeout k in
    (stalls k' ≤ stalls k)%nat ∧ (ret < 0 ∧ sys_errno k' = EINTR → (stalls k' < stalls k)%nat)
}.

(** The clock shows the time, which does not go back, and goes on while the program
    sleeps. *)
Class ClockLaws `{Kernel} := {
  time : kstate → Z;
  sys_clock_time k : (sys_clock k).1 = time k ∧ time k ≤ time (sys_clock k).2;
  sys_open_time path mode k : time k ≤ time (sys_open path mode k).2;
  sys_sleep_time ms k : time k + ms ≤ time (sys_sleep ms k)
}.

(** A signal that ends the client arrives before the flag has been looked at forever. *)
Class SignalArrives `{Kernel} := {
  patience : kstate → nat;
  sys_signalled_patience k :
    let '(b, k') := sys_signalled k in b = true ∨ (patience k' < patience k)%nat;
  sys_write_patience fd bytes k : (patience (sys_write fd bytes k).2 ≤ patience k)%nat;
  sys_read_patience fd count k : (patience (sys_read fd count k).2 ≤ patience k)%nat;
  sys_poll_patience fd timeout k : (patience (sys_poll fd timeout k).2 ≤ patience k)%nat
}.

Definition is_open `{KernelLaws} (w : world) (fd : Z) : Prop := fd_open (kernel w) fd.

(** From [w] to [w'], only descriptors of [T], or opened on the way, are written to or
    closed. *)
Definition touches `{KernelLaws} (T : Z → Prop) (w w' : world) : Prop :=
  ∃ tr, trace w' = trace w ++ tr ∧
        ∀ x, ¬ T x → is_open w x → is_open w' x ∧ Forall (λ e, ¬ about x e) tr.

(** ** Lemmas on traces *)

Section Theory.
Context `{Kernel}.
Implicit Types (w : world) (tr : list event).

Lemma session_writes_app fd tr tr' :
  forallb (negb ∘ closes fd) tr = true →
  session_writes fd (tr ++ tr') = session_writes fd tr ++ session_writes fd tr'.
Proof.
  induction tr as [|[p m x|x|x b r|x b] tr IH]; simpl; intros Hc; auto.
  - apply andb_true_iff in Hc as [Hx Hc]. case_bool_decide; [done|].
    rewrite !decide_False by done. auto.
  - case_decide; simpl; [f_equal|]; auto.
Qed.

Lemma session_writes_closed fd tr tr' :
  forallb (negb ∘ closes fd) tr = false →
  session_writes fd (tr ++ tr') = session_writes fd tr.
Proof.
  induction tr as [|[p m x|x|x b r|x b] tr IH]; simpl; intros Hc; [done|auto|..|auto].
  - case_bool_decide; [by rewrite !decide_True by done|]. rewrite !decide_False by done. auto.
  - case_decide; simpl; [f_equal|]; auto.
Qed.

Lemma session_writes_quiet fd tr :
  Forall (λ e, ¬ about fd e) tr →
  session_writes fd tr = [] ∧ forallb (negb ∘ closes fd) tr = true.
Proof.
  induction 1 as [|e tr He Htr [IH1 IH2]]; simpl; [done|].
  rewrite IH1, IH2. destruct e; simpl in *;
    [done|by rewrite bool_decide_false, decide_False|by rewrite decide_False|done].
Qed.

Lemma closes_elem fd tr : forallb (negb ∘ closes fd) tr = false → EvClose fd ∈ tr.
Proof.
  induction tr as [|e tr IH]; simpl; [done|]. rewrite elem_of_cons.
  intros [He|?]%andb_false_iff; [left|auto]. destruct e; simpl in He; try done.
  by case_bool_decide; subst.
Qed.

(** ** Lemmas on what was transferred *)

Lemma accepted_app fd tr tr' : accepted fd (tr ++ tr') = accepted fd tr ++ accepted fd tr'.
Proof.
  induction tr as [|[]]; simpl; auto. case_decide; [rewrite <- (assoc_L (++)); f_equal|]; auto.
Qed.

Lemma consumed_app fd tr tr' : consumed fd (tr ++ tr') = consumed fd tr ++ consumed fd tr'.
Proof.
  induction tr as [|[]]; simpl; auto. case_decide; [rewrite <- (assoc_L (++)); f_equal|]; auto.
Qed.

Context `{!KernelLaws}.
Implicit Types T : Z → Prop.

Lemma touches_refl T w : touches T w w.
Proof. exists []. rewrite app_nil_r. auto. Qed.

Lemma touches_trans T w1 w2 w3 : touches T w1 w2 → touches T w2 w3 → touches T w1 w3.
Proof.
  intros (tr1 & H1 & Ht1) (tr2 & H2 & Ht2). exists (tr1 ++ tr2).
  rewrite H2, H1, (assoc_L (++)). split; [done|]. intros x Hx Ho.
  destruct (Ht1 x Hx Ho) as [Ho1 Hq1]. destruct (Ht2 x Hx Ho1) as [Ho2 Hq2].
  split; [done|]. by apply Forall_app.
Qed.

Lemma touches_weaken T T' w w' : (∀ x, T x → T' x) → touches T w w' → touches T' w w'.
Proof. intros HT (tr & Htr & Ht). exists tr. split; [done|]. intros x Hx. apply Ht. auto. Qed.

Lemma touches_open path mode w : touches (λ _, False) w (open_ path mode w).2.
Proof.
  unfold open_, touches, is_open. pose proof (sys_open_law path mode (kernel w)) as Hl.
  destruct (sys_open path mode (kernel w)) as [fd k]; simpl. eexists; split; [done|].
  intros x _ Hx. split; [|apply Forall_singleton; simpl; tauto].
  destruct Hl as [[_ Hl]|(_ & _ & Hl)]; rewrite Hl; auto.
Qed.

Lemma touches_close fd w : touches (λ x, x = fd) w (close_ fd w).
Proof.
  eexists; split; [done|]. intros x Hx Ho. unfold is_open in *. simpl.
  rewrite sys_close_law. split; [done|]. apply Forall_singleton. simpl. congruence.
Qed.

Lemma touches_write fd bytes w : touches (λ x, x = fd) w (write_ fd bytes w).2.
Proof.
  unfold write_, touches, is_open. pose proof (sys_write_law fd bytes (kernel w)) as Hl.
  destruct (sys_write fd bytes (kernel w)) as [ret k]; simpl in *.
  eexists; split; [done|]. intros x Hx Ho. rewrite Hl. split; [done|].
  repeat constructor. simpl. congruence.
Qed.

Lemma write_result fd bytes w :
  trace (write_ fd bytes w).2 = trace w ++ [EvWrite fd bytes (write_ fd bytes w).1] ∧
  ∀ x, is_open (write_ fd bytes w).2 x ↔ is_open w x.
Proof.
  unfold write_, is_open. pose proof (sys_write_law fd bytes (kernel w)) as Hl.
  by destruct (sys_write fd bytes (kernel w)).
Qed.

Lemma open_result path mode w :
  ((open_ path mode w).1 = -1 ∧ ∀ x, is_open (open_ path mode w).2 x ↔ is_open w x) ∨
  (0 ≤ (open_ path mode w).1 ∧ ¬ is_open w (open_ path mode w).1 ∧
   ∀ x, is_open (open_ path mode w).2 x ↔ x = (open_ path mode w).1 ∨ is_open w x).
Proof.
  unfold open_, is_open. pose proof (sys_open_law path mode (kernel w)) as Hl.
  by destruct (sys_open path mode (kernel w)) as [fd k].
Qed.

(** A descriptor opened, used and closed concerns no one else. *)
Lemma open_bracket path mode w fd w1 w2 :
  open_ path mode w = (fd, w1) →
  (fd ≠ -1 → touches (λ x, x = fd) w1 w2) → (fd = -1 → w2 = w1) →
  touches (λ _, False) w w2.
Proof.
  intros Ho Hbody Hfail. pose proof (touches_open path mode w) as (tr1 & E1 & H1).
  pose proof (open_result path mode w) as Hres. rewrite Ho in *. simpl in *.
  destruct (decide (fd = -1)) as [->|Hne].
  { rewrite Hfail by done. by exists tr1. }
  destruct Hres as [[? _]|(_ & Hnew & _)]; [done|]. destruct (Hbody Hne) as (tr2 & E2 & H2).
  exists (tr1 ++ tr2). rewrite E2, E1, (assoc_L (++)). split; [done|]. intros x _ Hx.
  destruct (H1 x ltac:(tauto) Hx) as [Hx1 Hq1].
  destruct (H2 x) as [Hx2 Hq2]; [by intros ->|done|]. split; [done|]. by apply Forall_app.
Qed.

Lemma touches_unlink T path w : touches T w (unlink_ path w).
Proof.
  exists []. rewrite app_nil_r. split; [done|]. intros x _ Hx. split; [|by constructor].
  unfold is_open in *. simpl. by apply sys_unlink_law.
Qed.

Lemma touches_read T fd count w : touches T w (read_ fd count w).2.
Proof.
  unfold read_, touches, is_open. pose proof (sys_read_law fd count (kernel w)) as Hl.
  destruct (sys_read fd count (kernel w)) as [[ret bytes] k]; simpl in *.
  eexists; split; [done|]. intros x _ Hx. rewrite Hl. split; [done|].
  apply Forall_singleton. simpl. tauto.
Qed.

Lemma touches_mkfifo T path w : touches T w (mkfifo_ path w).2.
Proof.
  exists []. rewrite app_nil_r. unfold mkfifo_, is_open.
  pose proof (sys_mkfifo_law path (kernel w)) as Hl.
  destruct (sys_mkfifo path (kernel w)) as [ret k]; simpl in *.
  split; [done|]. intros x _ Hx. by rewrite Hl.
Qed.

(** *** Relations that the calls respect *)

(** What holds of every [close] and [write] holds of the code that makes no other calls. *)
Class Respects (R : relation world) : Prop := {
  respects_preorder :: PreOrder R;
  respects_close fd w : R w (close_ fd w);
  respects_write fd bytes w : R w (write_ fd bytes w).2
}.

(** The same for code that also opens and unlinks. *)
Class RespectsOpen (R : relation world) : Prop := {
  respects_open_respects :: Respects R;
  respects_open path mode w : R w (open_ path mode w).2;
  respects_unlink path w : R w (unlink_ path w)
}.

(** No descriptor is opened on the way. *)
Definition opens_nothing w w' : Prop := ∀ x, is_open w' x → is_open w x.

#[export] Instance opens_nothing_respects : Respects opens_nothing.
Proof.
  split; [split|..]; unfold opens_nothing; repeat intro; auto.
  - unfold is_open in *. simpl in *. by apply (sys_close_law fd (kernel w) x).
  - by apply (write_result fd bytes w).
Qed.

(** Nothing is read on the way. *)
Definition is_read (e : event) : bool := match e with EvRead _ _ => true | _ => false end.

Definition reads_nothing w w' : Prop :=
  ∃ tr, trace w' = trace w ++ tr ∧ forallb (negb ∘ is_read) tr = true.

#[export] Instance reads_nothing_respects : RespectsOpen reads_nothing.
Proof.
  split; [split; [split|..]|..].
  - intros w. exists []. by rewrite app_nil_r.
  - intros w1 w2 w3 (tr1 & H1 & F1) (tr2 & H2 & F2). exists (tr1 ++ tr2).
    by rewrite H2, H1, (assoc_L (++)), forallb_app, F1, F2.
  - intros fd w. by exists [EvClose fd].
  - intros fd bytes w. exists [EvWrite fd bytes (write_ fd bytes w).1].
    by rewrite (proj1 (write_result fd bytes w)).
  - intros path mode w. unfold open_. destruct (sys_open path mode (kernel w)) as [fd k].
    by exists [EvOpen path mode fd].
  - intros path w. exists []. by rewrite app_nil_r.
Qed.

Lemma reads_nothing_consumed fd tr : forallb (negb ∘ is_read) tr = true → consumed fd tr = [].
Proof. induction tr as [|[] tr IH]; simpl; auto. discriminate. Qed.

(** ** Descriptors held

    [holds X w0 w]: since [w0] the program has opened, and not closed, exactly [X]. *)

Definition same_fds w w' : Prop := ∀ x, is_open w' x ↔ is_open w x.

Definition holds (X : gset Z) w0 w : Prop :=
  (∀ x, x ∈ X → ¬ is_open w0 x) ∧ ∀ x, is_open w x ↔ x ∈ X ∨ is_open w0 x.

#[export] Instance same_fds_equivalence : Equivalence same_fds.
Proof. split; unfold same_fds; repeat intro; naive_solver. Qed.

#[export] Instance holds_proper X w0 : Proper (same_fds ==> iff) (holds X w0).
Proof. intros w w' Hs. unfold holds, same_fds in *. naive_solver. Qed.

Lemma holds_refl w : holds ∅ w w.
Proof. split; set_solver. Qed.

Lemma holds_nothing w0 w : holds ∅ w0 w ↔ same_fds w0 w.
Proof. unfold holds, same_fds. set_solver. Qed.

Lemma holds_open X w0 w path mode :
  holds X w0 w →
  (let '(fd, w1) := open_ path mode w in
   (fd = -1 ∧ holds X w0 w1) ∨ (0 ≤ fd ∧ fd ∉ X ∧ holds ({[fd]} ∪ X) w0 w1)).
Proof.
  intros [HX Hh]. pose proof (open_result path mode w) as Ho.
  destruct (open_ path mode w) as [fd w1]; simpl in Ho. unfold holds.
  destruct Ho as [[-> Ho]|(Hpos & Hnew & Ho)]; [left|right]; (split; [done|]).
  - split; [done|]. intros x. by rewrite Ho.
  - rewrite Hh in Hnew. split; [tauto|]. split; [set_solver|]. intros x. rewrite Ho, Hh. set_solver.
Qed.

Lemma holds_close X w0 w fd : holds X w0 w → fd ∈ X → holds (X ∖ {[fd]}) w0 (close_ fd w).
Proof.
  intros [HX Hh] Hfd. split; [set_solver|]. intros x. unfold is_open in *. simpl.
  rewrite sys_close_law. rewrite Hh. specialize (HX fd Hfd).
  destruct (decide (x = fd)); [subst|]; set_solver.
Qed.

Lemma same_fds_write fd bytes w : same_fds w (write_ fd bytes w).2.
Proof. intros x. apply write_result. Qed.

Lemma same_fds_read fd count w : same_fds w (read_ fd count w).2.
Proof.
  intros x. unfold read_, is_open. pose proof (sys_read_law fd count (kernel w) x).
  by destruct (sys_read fd count (kernel w)) as [[]].
Qed.

Lemma same_fds_poll fd timeout w : same_fds w (poll_ fd timeout w).2.
Proof.
  intros x. unfold poll_, is_open. pose proof (sys_poll_law fd timeout (kernel w) x).
  by destruct (sys_poll fd timeout (kernel w)) as [[]].
Qed.

Lemma same_fds_mkfifo path w : same_fds w (mkfifo_ path w).2.
Proof.
  intros x. unfold mkfifo_, is_open. pose proof (sys_mkfifo_law path (kernel w) x).
  by destruct (sys_mkfifo path (kernel w)).
Qed.

Lemma same_fds_clock w : same_fds w (clock_ w).2.
Proof.
  intros x. unfold clock_, is_open. pose proof (sys_clock_law (kernel w) x).
  by destruct (sys_clock (kernel w)).
Qed.

Lemma same_fds_signalled w : same_fds w (shutdown_requested_ w).2.
Proof.
  intros x. unfold shutdown_requested_, is_open. pose proof (sys_signalled_law (kernel w) x).
  by destruct (sys_signalled (kernel w)).
Qed.

Lemma same_fds_unlink path w : same_fds w (unlink_ path w).
Proof. intros x. apply sys_unlink_law. Qed.

Lemma same_fds_set_blocking fd w : same_fds w (set_blocking_ fd w).
Proof. intros x. apply sys_set_blocking_law. Qed.

Lemma same_fds_sleep ms w : same_fds w (sleep_ ms w).
Proof. intros x. apply sys_sleep_law. Qed.

End Theory.

#[export] Hint Resolve same_fds_write same_fds_read same_fds_poll same_fds_mkfifo
  same_fds_clock same_fds_signalled same_fds_unlink same_fds_set_blocking same_fds_sleep
  : treenity.

(** ** A concrete system

    Descriptors are the least number above all open ones; writes return their size
    unless a list of results says otherwise; every FIFO has a reader, unless its path
    is listed as missing. *)
Module Simple.

Record state : Type := mkState {
  fds : list Z;
  results : list Z;
  missing : list str;
  input : list str;
  now : Z
}.

Definition fresh_fd (l : list Z) : Z := foldr Z.max 2 l + 1.

Lemma fresh_fd_spec l : 0 ≤ fresh_fd l ∧ fresh_fd l ∉ l.
Proof.
  assert (∀ x, x ∈ l → x < fresh_fd l) as Hl.
  { unfold fresh_fd. induction l as [|y l IH]; intros x; [by rewrite elem_of_nil|].
    rewrite elem_of_cons. simpl. intros [->|Hx]; [lia|]. specialize (IH x Hx). lia. }
  split; [unfold fresh_fd; clear Hl; induction l; simpl in *; lia|].
  intros Hin. apply Hl in Hin. lia.
Qed.

Definition with_fds (l : list Z) (k : state) : state :=
  mkState l (results k) (missing k) (input k) (now k).

(** A signal arrives when there is nothing left to read, and at this time at the latest. *)
Definition deadline : Z := 100000.

#[export] Instance simple_kernel : Kernel := {
  kstate := state;
  sys_open path mode k :=
    if bool_decide (path ∈ missing k) then (-1, k)
    else (fresh_fd (fds k), with_fds (fresh_fd (fds k) :: fds k) k);
  sys_close fd k := with_fds (filter (λ x, x ≠ fd) (fds k)) k;
  sys_read fd count k :=
    match (if bool_decide (fd ∈ fds k) then input k else []) with
    | [] => (0, [], k)
    | bytes :: rest =>
        let n := Z.to_nat count in
        (zlen (take n bytes), take n bytes,
         mkState (fds k) (results k) (missing k)
           (match drop n bytes with [] => rest | more => more :: rest end) (now k))
    end;
  sys_write fd bytes k :=
    match results k with
    | [] => (zlen bytes, k)
    | r :: rest => (Z.min r (zlen bytes), mkState (fds k) rest (missing k) (input k) (now k))
    end;
  sys_mkfifo path k := (if bool_decide (path ∈ missing k) then -1 else 0, k);
  sys_unlink path k := k;
  sys_poll fd timeout k := (1, 1, k);
  sys_errno k := ENXIO;
  sys_set_blocking fd k := k;
  sys_clock k := (now k, k);
  sys_sleep ms k := mkState (fds k) (results k) (missing k) (input k) (now k + ms);
  sys_getpid k := 42;
  sys_signalled k :=
    (bool_decide (input k = []) || (deadline <=? now k),
     mkState (fds k) (results k) (missing k) (input k) (now k + 1))
}.

#[export] Instance simple_kernel_laws : KernelLaws.
Proof.
  refine {| fd_open := λ k x, x ∈ fds k |}.
  - intros path mode k. simpl. destruct (bool_decide _).
    + by left.
    + right. simpl. destruct (fresh_fd_spec (fds k)). split_and!; [done|done|].
      intros x. apply elem_of_cons.
  - intros fd k x. simpl. by rewrite list_elem_of_filter.
  - intros fd bytes k x. simpl. by destruct (results k).
  - intros fd count k x. simpl. by destruct (if bool_decide _ then input k else []).
  - done.
  - done.
  - done.
  - done.
  - done.
  - done.
  - done.
Defined.

#[export] Instance simple_transfer_laws : TransferLaws.
Proof.
  split.
  - intros fd bytes k. simpl. destruct (results k); simpl; lia.
  - intros fd count k. simpl.
    destruct (if bool_decide _ then input k else []) as [|bytes rest]; simpl; [done|].
    intros Hc. zlen_facts. unfold zlen. rewrite length_take. lia.
Defined.

#[export] Instance simple_closed_reads : ClosedReads.
Proof. split. intros fd count k Hfd. simpl. by rewrite bool_decide_false. Defined.

(** A stall is a result of nought among those still to come. *)
#[export] Instance simple_finite_stalls : FiniteStalls.
Proof.
  refine {| stalls := λ k, length (results k) |}.
  - intros fd bytes k. simpl. destruct (results k) as [|r rest] eqn:Hk; simpl; rewrite ?Hk; simpl.
    + split; [lia|]. intros Hb [Hz|[Hz _]]; [|pose proof (zlen_nonneg bytes); lia].
      by destruct bytes.
    + split; [lia|]. intros; lia.
  - intros fd count k. simpl.
    destruct (if bool_decide _ then input k else []); simpl; split; try lia; intros [? [=]].
  - intros fd timeout k. simpl. split; [lia|]. intros [? [=]].
Defined.

#[export] Instance simple_clock_laws : ClockLaws.
Proof.
  refine {| time := now |}; [done|..].
  - intros path mode k. simpl. by destruct (bool_decide _).
  - done.
Defined.

#[export] Instance simple_signal_arrives : SignalArrives.
Proof.
  refine {| patience := λ k, Z.to_nat (deadline - now k) |}.
  - intros k. simpl. destruct (Z.leb_spec deadline (now k)); [left; apply orb_true_r|right; lia].
  - intros fd bytes k. simpl. by destruct (results k).
  - intros fd count k. simpl. by destruct (if bool_decide _ then input k else []).
  - done.
Defined.

Definition start : world := mkWorld (mkState [] [] [] [] 0) [].

End Simple.

End World.
