(* ===== verification/Text.v ===== *)
(** * Text: the standard text functions of the server and the client

    [isdigit] and [isalnum] in the C locale, [std::to_string] (and [operator<<]) of a
    32-bit number, and the name test that src/server/src/Server.cpp
    ([is_valid_identifier]) and src/client/src/command.cpp ([is_valid_name]) share. *)

From S2P Require Import Prelude.

Module Text.

Open Scope Z_scope.

Definition isdigit (c : byte) : bool := (48 <=? Z_of_byte c) && (Z_of_byte c <=? 57).

Definition isalpha (c : byte) : bool :=
  (65 <=? Z_of_byte c) && (Z_of_byte c <=? 90) || (97 <=? Z_of_byte c) && (Z_of_byte c <=? 122).

Definition isalnum (c : byte) : bool := isdigit c || isalpha c.

(** The decimal digits of a number; ten are enough for 32 bits. *)
Fixpoint decimal (fuel : nat) (n : Z) : str :=
  match fuel with
  | O => []
  | S fuel =>
      (if n <? 10 then [] else decimal fuel (n / 10)) ++ [byte_of_Z (48 + n mod 10)]
  end.

Definition to_string (n : Z) : str := decimal 10 n.

(** The number a string of digits stands for. *)
Definition decimal_value (s : str) : Z :=
  foldl (λ acc c, acc * 10 + (Z_of_byte c - 48)) 0 s.

(** [c != '_' && c != '.' && c != '-'] fails. *)
Definition is_name_punctuation (c : byte) : bool :=
  bool_decide (c = Byte.x5f) || bool_decide (c = Byte.x2e) || bool_decide (c = Byte.x2d).

Definition is_valid_identifier (s : str) : bool :=
  if bool_decide (s = []) || (32 <? zlen s) then false
  else forallb (λ c, isalnum c || is_name_punctuation c) s.

(** ** Lemmas *)

Lemma digit_byte n : 0 ≤ n → Z_of_byte (byte_of_Z (48 + n mod 10)) = 48 + n mod 10.
Proof.
  intros Hn. rewrite Z_of_byte_of_Z. apply Z.mod_small.
  pose proof (Z.mod_pos_bound n 10 eq_refl). lia.
Qed.

Lemma decimal_facts fuel n :
  (0 < fuel)%nat → 0 ≤ n < 10 ^ Z.of_nat fuel →
  decimal_value (decimal fuel n) = n ∧ forallb isdigit (decimal fuel n) = true ∧
  decimal fuel n ≠ [].
Proof.
  revert n. induction fuel as [|fuel IH]; intros n Hf Hn; [lia|]. cbn [decimal].
  pose proof (Z.mod_pos_bound n 10 eq_refl) as Hm.
  assert (isdigit (byte_of_Z (48 + n mod 10)) = true) as Hd.
  { unfold isdigit. rewrite digit_byte by lia. lia. }
  destruct (Z.ltb_spec n 10) as [Hlt|Hge]; simpl.
  - unfold decimal_value. simpl. rewrite digit_byte, Hd by lia.
    rewrite (Z.mod_small n 10) by lia. split_and!; [lia|done|done].
  - rewrite Nat2Z.inj_succ, Z.pow_succ_r in Hn by lia.
    destruct fuel as [|fuel]; [simpl in Hn; lia|].
    destruct (IH (n / 10)) as (Hv & Hall & _); [lia| |].
    { split; [zify_div|]. apply Z.div_lt_upper_bound; lia. }
    split_and!.
    + unfold decimal_value in *. rewrite foldl_app, Hv. simpl. rewrite digit_byte by lia. zify_div.
    + by rewrite forallb_app, Hall; simpl; rewrite Hd.
    + by destruct (decimal _ _).
Qed.

Lemma to_string_facts n :
  u32 n →
  decimal_value (to_string n) = n ∧ forallb isdigit (to_string n) = true ∧ to_string n ≠ [].
Proof. unfold u32, to_string. intros Hn. apply decimal_facts; [lia|]. simpl. lia. Qed.

Lemma to_string_inj n n' : u32 n → u32 n' → to_string n = to_string n' → n = n'.
Proof.
  intros Hn Hn' He. rewrite <- (proj1 (to_string_facts n Hn)), He.
  apply to_string_facts, Hn'.
Qed.

Lemma valid_identifier_length s : is_valid_identifier s = true → zlen s ≤ 32.
Proof.
  unfold is_valid_identifier. destruct (bool_decide _ || _) eqn:Hb; [done|].
  apply orb_false_iff in Hb as [_ Hb]. lia.
Qed.

End Text.
