(* ===== verification/Ipc.v ===== *)
(** * Ipc: the FIFO wrappers of src/ipc/ipc.{hpp,cpp}

    [FifoReader] and [FifoWriter] own a descriptor and a path; their methods loop over
    system calls that may return less than was asked for or be interrupted, so the
    loops take a bound on their iterations. The bytes a reader stores are returned. *)

From S2P Require Import Prelude World.

Set Warnings "-clear-no-such-hyp".

Module Ipc.

Import World.
Open Scope Z_scope.

(** ** State *)

Record FifoReader : Type := mkReader { reader_fd : Z; reader_path : str }.

Record FifoWriter : Type := mkWriter { writer_fd : Z; writer_path : str }.

Section Operations.
Context `{Kernel}.

Definition is_reader_active (path : str) (w : world) : bool * world :=
  let '(fd, w) := open_ path O_WRONLY_NONBLOCK w in
  if 0 <=? fd then (true, close_ fd w) else (false, w).

(** ** FifoReader *)

Definition reader_is_open (r : FifoReader) : bool := 0 <=? reader_fd r.

Definition reader_close (r : FifoReader) (w : world) : FifoReader * world :=
  let '(fd, w) := if 0 <=? reader_fd r then (-1, close_ (reader_fd r) w) else (reader_fd r, w) in
  match reader_path r with
  | [] => (mkReader fd [], w)
  | path => (mkReader fd [], unlink_ path w)
  end.

(** Move construction, and move assignment between distinct readers: the target and
    what is left of the source. *)
Definition reader_move (other : FifoReader) : FifoReader * FifoReader :=
  (mkReader (reader_fd other) (reader_path other), mkReader (-1) []).

Definition reader_move_assign (this other : FifoReader) (w : world)
    : FifoReader * FifoReader * world :=
  let '(_, w) := reader_close this w in (reader_move other, w).

Definition reader_create (path : str) (read_write : bool) (w : world) : FifoReader * world :=
  let w := unlink_ path w in
  let '(ret, w) := mkfifo_ path w in
  if ret =? -1 then (mkReader (-1) [], w)
  else
    let '(fd, w) := open_ path (if read_write then O_RDWR else O_RDONLY_NONBLOCK) w in
    if fd <? 0 then (mkReader (-1) [], unlink_ path w)
    else (mkReader fd path, if read_write then w else set_blocking_ fd w).

(** The body of the loop of [read_exact], [got] being what was stored so far. *)
Definition read_once (fd count timeout_ms : Z) (s : str * world)
    : outcome (str * world + bool * str * world) :=
  let '(got, w) := s in
  if negb (zlen got <? count) then mret (inr (true, got, w))
  else
    let '(ret, _, w) := if 0 <=? timeout_ms then poll_ fd timeout_ms w else (1, 0, w) in
    if ret =? 0 then mret (inr (false, got, w))
    else if ret <? 0 then
      if decide (errno_ w = EINTR) then mret (inl (got, w)) else mret (inr (false, got, w))
    else
      let '(n, bytes, w) := read_ fd (count - zlen got) w in
      if n <? 0 then
        if decide (errno_ w = EINTR) then mret (inl (got, w)) else mret (inr (false, got, w))
      else if n =? 0 then mret (inr (false, got, w))
      else mret (inl (got ++ bytes, w)).

Definition read_exact (fuel : nat) (count timeout_ms : Z) (r : FifoReader) (w : world)
    : outcome (bool * str * world) :=
  if reader_fd r <? 0 then mret (false, [], w)
  else iterate (read_once (reader_fd r) count timeout_ms) fuel ([], w).

(** ** FifoWriter *)

Definition writer_is_open (r : FifoWriter) : bool := 0 <=? writer_fd r.

Definition writer_close (r : FifoWriter) (w : world) : FifoWriter * world :=
  if 0 <=? writer_fd r then (mkWriter (-1) [], close_ (writer_fd r) w)
  else (mkWriter (writer_fd r) [], w).

Definition writer_move (other : FifoWriter) : FifoWriter * FifoWriter :=
  (mkWriter (writer_fd other) (writer_path other), mkWriter (-1) []).

Definition writer_move_assign (this other : FifoWriter) (w : world)
    : FifoWriter * FifoWriter * world :=
  let '(_, w) := writer_close this w in (writer_move other, w).

(** The body of the loop of [FifoWriter::open], begun at time [start]. *)
Definition open_once (path : str) (timeout start : Z) (w : world)
    : outcome (world + FifoWriter * world) :=
  let '(fd, w) := open_ path O_WRONLY_NONBLOCK w in
  if 0 <=? fd then mret (inr (mkWriter fd path, set_blocking_ fd w))
  else if decide (errno_ w ≠ ENXIO ∧ errno_ w ≠ ENOENT) then mret (inr (mkWriter (-1) [], w))
  else
    let '(now, w) := clock_ w in
    if timeout <=? now - start then mret (inr (mkWriter (-1) [], w))
    else mret (inl (sleep_ 20 w)).

Definition writer_open (fuel : nat) (path : str) (timeout : Z) (w : world)
    : outcome (FifoWriter * world) :=
  let '(start, w) := clock_ w in iterate (open_once path timeout start) fuel w.

(** The body of the loop of [write_exact], with [total] bytes written. *)
Definition write_once (fd : Z) (src : str) (s : Z * world) : outcome (Z * world + bool * world) :=
  let '(total, w) := s in
  if negb (total <? zlen src) then mret (inr (true, w))
  else
    let '(n, w) := write_ fd (drop (Z.to_nat total) src) w in
    if n <? 0 then
      if decide (errno_ w = EINTR) then mret (inl (total, w)) else mret (inr (false, w))
    else mret (inl (total + n, w)).

Definition write_exact (fuel : nat) (src : str) (r : FifoWriter) (w : world)
    : outcome (bool * world) :=
  if writer_fd r <? 0 then mret (false, w) else iterate (write_once (writer_fd r) src) fuel (0, w).

End Operations.

(** ** Loops: one turn *)

Section Theory.
Context `{Kernel} `{!TransferLaws}.
Implicit Types (w : world).

Definition writes_to (fd : Z) (e : event) : Prop := ∃ bytes ret, e = EvWrite fd bytes ret.
Definition reads_from (fd : Z) (e : event) : Prop := ∃ bytes, e = EvRead fd bytes.

(** Since [w0] the program has only written to [fd], and the system took [bytes]. *)
Definition sent (fd : Z) (bytes : str) w0 w : Prop :=
  ∃ tr, trace w = trace w0 ++ tr ∧ Forall (writes_to fd) tr ∧ accepted fd tr = bytes.

(** Since [w0] the program has only read from [fd], and got [bytes]. *)
Definition received (fd : Z) (bytes : str) w0 w : Prop :=
  ∃ tr, trace w = trace w0 ++ tr ∧ Forall (reads_from fd) tr ∧ consumed fd tr = bytes.

Lemma sent_nothing fd w : sent fd [] w w.
Proof. exists []. by rewrite app_nil_r. Qed.

Lemma received_nothing fd w w' : trace w' = trace w → received fd [] w w'.
Proof. intros Ht. exists []. by rewrite Ht, app_nil_r. Qed.

Lemma sent_trans fd b1 b2 w0 w1 w2 : sent fd b1 w0 w1 → sent fd b2 w1 w2 → sent fd (b1 ++ b2) w0 w2.
Proof.
  intros (tr1 & H1 & F1 & <-) (tr2 & H2 & F2 & <-). exists (tr1 ++ tr2).
  rewrite H2, H1, (assoc_L (++)), accepted_app. split_and!; [done|by apply Forall_app|done].
Qed.

Lemma received_trans fd b1 b2 w0 w1 w2 :
  received fd b1 w0 w1 → received fd b2 w1 w2 → received fd (b1 ++ b2) w0 w2.
Proof.
  intros (tr1 & H1 & F1 & <-) (tr2 & H2 & F2 & <-). exists (tr1 ++ tr2).
  rewrite H2, H1, (assoc_L (++)), consumed_app. split_and!; [done|by apply Forall_app|done].
Qed.

(** A write of [bytes] takes some of them, none when it fails. *)
Lemma write_sends fd bytes w :
  let '(n, w1) := write_ fd bytes w in
  n ≤ zlen bytes ∧ sent fd (take (Z.to_nat n) bytes) w w1.
Proof.
  unfold write_. pose proof (sys_write_bound fd bytes (kernel w)) as Hb.
  destruct (sys_write fd bytes (kernel w)) as [n k]. split; [done|].
  eexists. split; [done|]. simpl. rewrite decide_True, app_nil_r by done.
  split; [|done]. repeat constructor. by do 2 eexists.
Qed.

Lemma read_receives fd count w :
  0 ≤ count →
  (let '(n, bytes, w1) := read_ fd count w in
   zlen bytes = Z.max 0 n ∧ n ≤ count ∧ received fd bytes w w1).
Proof.
  intros Hc. unfold read_. pose proof (sys_read_bound fd count (kernel w)) as Hb.
  destruct (sys_read fd count (kernel w)) as [[n bytes] k]. destruct (Hb Hc) as [? ?].
  split_and!; [done|done|]. eexists. split; [done|]. simpl.
  rewrite decide_True, app_nil_r by done. split; [|done]. repeat constructor. by eexists.
Qed.

Lemma poll_quiet (b : bool) fd timeout w :
  let '(ret, _, w1) := if b then poll_ fd timeout w else (1, 0, w) in trace w1 = trace w.
Proof.
  destruct b; [|done]. unfold poll_. by destruct (sys_poll fd timeout (kernel w)) as [[]].
Qed.

(** ** Writing *)

Definition writing (fd : Z) (src : str) w0 (s : Z * world) : Prop :=
  0 ≤ s.1 ≤ zlen src ∧ sent fd (take (Z.to_nat s.1) src) w0 s.2.

Definition written (fd : Z) (src : str) w0 (r : bool * world) : Prop :=
  if r.1 then sent fd src w0 r.2
  else ∃ n, 0 ≤ n < zlen src ∧ sent fd (take (Z.to_nat n) src) w0 r.2.

Lemma write_once_ok fd src w0 s :
  writing fd src w0 s →
  match write_once fd src s with
  | Done (inl s') => writing fd src w0 s'
  | Done (inr r) => written fd src w0 r
  | _ => True
  end.
Proof.
  destruct s as [total w]. intros [Htot Hsent]. simpl in *.
  destruct (Z.ltb_spec total (zlen src)) as [Hlt|Hge]; simpl.
  2:{ unfold written. simpl. by rewrite take_ge in Hsent by (unfold zlen in *; lia). }
  pose proof (write_sends fd (drop (Z.to_nat total) src) w) as Hw.
  destruct (write_ fd (drop (Z.to_nat total) src) w) as [n w1]. destruct Hw as [Hn Hs].
  apply (sent_trans _ _ _ _ _ _ Hsent) in Hs. unfold zlen in Hn. rewrite length_drop in Hn.
  rewrite take_take_drop in Hs.
  destruct (Z.ltb_spec n 0) as [Hneg|Hpos].
  - replace (Z.to_nat n) with 0%nat in Hs by lia. rewrite Nat.add_0_r in Hs.
    case_decide; [done|]. unfold written. simpl. exists total. split; [lia|done].
  - rewrite <- Z2Nat.inj_add in Hs by lia. split; simpl; [unfold zlen in *; lia|done].
Qed.

Lemma write_exact_sends fuel src r w b w' :
  write_exact fuel src r w = Done (b, w') →
  if b then sent (writer_fd r) src w w'
  else ∃ n, 0 ≤ n ≤ zlen src ∧ (src ≠ [] → n < zlen src) ∧
            sent (writer_fd r) (take (Z.to_nat n) src) w w'.
Proof.
  unfold write_exact. destruct (_ <? 0).
  { intros [= <- <-]. exists 0. pose proof (zlen_nonneg src). split_and!; [lia|lia| |apply sent_nothing].
    destruct src; [done|]. rewrite zlen_cons. intros _. zlen_facts. lia. }
  intros Hrun. eapply (iterate_rule _ (writing (writer_fd r) src w) (written (writer_fd r) src w))
    in Hrun; [|apply write_once_ok|].
  - unfold written in Hrun. destruct b; [done|]. destruct Hrun as (n & ? & ?).
    exists n. split_and!; [lia..|done].
  - split; simpl; [pose proof (zlen_nonneg src); lia|apply sent_nothing].
Qed.

(** ** Reading *)

Definition reading (fd count : Z) w0 (s : str * world) : Prop :=
  zlen s.1 ≤ count ∧ received fd s.1 w0 s.2.

Definition have_read (fd count : Z) w0 (r : bool * str * world) : Prop :=
  received fd r.1.2 w0 r.2 ∧ if r.1.1 then zlen r.1.2 = count else zlen r.1.2 < count.

Lemma read_once_ok fd count timeout_ms w0 s :
  reading fd count w0 s →
  match read_once fd count timeout_ms s with
  | Done (inl s') => reading fd count w0 s'
  | Done (inr r) => have_read fd count w0 r
  | _ => True
  end.
Proof.
  destruct s as [got w]. intros [Hgot Hrec]. unfold read_once. simpl in *.
  destruct (Z.ltb_spec (zlen got) count) as [Hlt|Hge]; [simpl|split; simpl; [done|lia]].
  pose proof (poll_quiet (0 <=? timeout_ms) fd timeout_ms w) as Hp.
  destruct (if 0 <=? timeout_ms then _ else _) as [[ret rev] w1].
  assert (received fd got w0 w1) as Hrec1.
  { rewrite <- (app_nil_r got). eapply received_trans; [done|by apply received_nothing]. }
  destruct (ret =? 0); [by split|]. destruct (ret <? 0); [case_decide; by split|].
  pose proof (read_receives fd (count - zlen got) w1 ltac:(lia)) as Hr.
  destruct (read_ fd (count - zlen got) w1) as [[n bytes] w2]. destruct Hr as (Hz & Hle & Hr).
  apply (received_trans _ _ _ _ _ _ Hrec1) in Hr.
  assert (n ≤ 0 → bytes = []) as Hnil.
  { intros Hn. apply nil_length_inv. unfold zlen in Hz. lia. }
  destruct (Z.ltb_spec n 0).
  { rewrite Hnil, app_nil_r in Hr by lia. case_decide; by split. }
  destruct (Z.eqb_spec n 0).
  { rewrite Hnil, app_nil_r in Hr by lia. by split. }
  split; simpl; [autorewrite with treenity_len; lia|done].
Qed.

Lemma read_exact_receives fuel count timeout_ms r w b got w' :
  0 ≤ count → read_exact fuel count timeout_ms r w = Done (b, got, w') →
  received (reader_fd r) got w w' ∧ if b then zlen got = count else zlen got ≤ count.
Proof.
  intros Hc. unfold read_exact. destruct (_ <? 0).
  { intros [= <- <- <-]. split; [by apply received_nothing|done]. }
  intros Hrun. eapply (iterate_rule _ (reading (reader_fd r) count w)
    (have_read (reader_fd r) count w)) in Hrun; [|apply read_once_ok|].
  - destruct Hrun as [? Hb]. destruct b; simpl in *; split; try done. lia.
  - split; [done|by apply received_nothing].
Qed.

(** ** The loops end *)

Context `{!FiniteStalls}.

Lemma write_exact_ends src r w :
  ∃ res, ∀ fuel, (length src + stalls (kernel w) < fuel)%nat → write_exact fuel src r w = Done res.
Proof.
  unfold write_exact. destruct (_ <? 0); [by eexists|].
  destruct (iterate_total (write_once (writer_fd r) src) (λ s, 0 ≤ s.1) (λ _, True)
    (λ s, Z.to_nat (zlen src - s.1) + stalls (kernel s.2))%nat) with (0, w) as (res & _ & Hres).
  - intros [total w1] Htot. simpl in *.
    destruct (Z.ltb_spec total (zlen src)) as [Hlt|Hge]; simpl; [|by eexists].
    pose proof (sys_write_stalls (writer_fd r) (drop (Z.to_nat total) src) (kernel w1)) as Hs.
    assert (drop (Z.to_nat total) src ≠ []) as Hne.
    { intros Hn%(f_equal length). rewrite length_drop in Hn. unfold zlen in Hlt. simpl in Hn. lia. }
    unfold write_. destruct (sys_write _ _ _) as [n k]. destruct Hs as [Hle Hstall].
    specialize (Hstall Hne). destruct (Z.ltb_spec n 0).
    + case_decide as He; eexists; (split; [done|]); simpl; [|done].
      split; [done|]. apply Nat.add_lt_mono_l, Hstall. right. split; [done|exact He].
    + eexists; (split; [done|]); simpl. split; [lia|].
      destruct (decide (n = 0)); [specialize (Hstall (or_introl e))|]; lia.
  - done.
  - exists res. intros fuel Hf. apply Hres. simpl. unfold zlen. lia.
Qed.

(** A turn of [read_once] that goes on has met a stall or read something. *)
Lemma read_once_progress fd count timeout_ms got w :
  ∃ r, read_once fd count timeout_ms (got, w) = Done r ∧
  match r with
  | inl (got', w') =>
      (Z.to_nat (count - zlen got') + stalls (kernel w') <
       Z.to_nat (count - zlen got) + stalls (kernel w))%nat
  | inr _ => True
  end.
Proof.
  unfold read_once. destruct (Z.ltb_spec (zlen got) count) as [Hlt|Hge]; simpl; [|by eexists].
  destruct (if 0 <=? timeout_ms then _ else _) as [[ret rev] w1] eqn:Hp.
  assert ((stalls (kernel w1) ≤ stalls (kernel w))%nat ∧
    (ret < 0 → errno_ w1 = EINTR → (stalls (kernel w1) < stalls (kernel w))%nat)) as [Hle1 Hint1].
  { destruct (0 <=? timeout_ms); [|simplify_eq; split; lia].
    unfold poll_ in Hp. pose proof (sys_poll_stalls fd timeout_ms (kernel w)) as Hs.
    destruct (sys_poll fd timeout_ms (kernel w)) as [[ret' rev'] k]. simplify_eq. simpl.
    unfold errno_. simpl. naive_solver. }
  destruct (ret =? 0); [by eexists|]. destruct (Z.ltb_spec ret 0).
  { case_decide as He; eexists; (split; [done|]); simpl; [|done]. specialize (Hint1 ltac:(lia) He).
    lia. }
  pose proof (read_receives fd (count - zlen got) w1 ltac:(lia)) as Hz. unfold read_ in *.
  pose proof (sys_read_stalls fd (count - zlen got) (kernel w1)) as Hs.
  destruct (sys_read fd (count - zlen got) (kernel w1)) as [[n bytes] k].
  destruct Hz as (Hz & _). destruct Hs as [Hle2 Hint2]. destruct (Z.ltb_spec n 0).
  { case_decide as He; eexists; (split; [done|]); simpl; [|done].
    assert (stalls k < stalls (kernel w1))%nat by (apply Hint2; split; [done|exact He]). lia. }
  destruct (Z.eqb_spec n 0); eexists; (split; [done|]); [done|]. simpl.
  autorewrite with treenity_len. lia.
Qed.

Lemma read_exact_ends count timeout_ms r w :
  ∃ res, ∀ fuel, (Z.to_nat count + stalls (kernel w) < fuel)%nat →
                 read_exact fuel count timeout_ms r w = Done res.
Proof.
  unfold read_exact. destruct (_ <? 0); [by eexists|].
  destruct (iterate_total (read_once (reader_fd r) count timeout_ms) (λ _, True) (λ _, True)
    (λ s, Z.to_nat (count - zlen s.1) + stalls (kernel s.2))%nat) with ([] : str, w)
    as (res & _ & Hres); [|done|].
  - intros [got w1] _. destruct (read_once_progress (reader_fd r) count timeout_ms got w1)
      as ([[got' w']|] & Hr & Hm); by eexists.
  - exists res. intros fuel Hf. apply Hres. simpl. change (zlen []) with 0. lia.
Qed.

End Theory.

(** ** What a transfer does to the world

    A preorder that reads, writes and polls respect holds between the worlds before and
    after a transfer. *)

Section Steps.
Context `{Kernel} (R : relation world) `{!PreOrder R}.
Variable (Hwrite : ∀ fd bytes w, R w (write_ fd bytes w).2)
  (Hread : ∀ fd count w, R w (read_ fd count w).2)
  (Hpoll : ∀ fd timeout w, R w (poll_ fd timeout w).2).
Implicit Types (w : world).

Lemma read_exact_step fuel count timeout_ms r w b got w' :
  read_exact fuel count timeout_ms r w = Done (b, got, w') → R w w'.
Proof.
  unfold read_exact. destruct (_ <? 0); [by intros [= <- <- <-]|].
  apply (iterate_rule _ (λ s, R w s.2) (λ r, R w r.2)); [|done].
  intros [g w1] Hs. simpl in Hs. unfold read_once. destruct (negb _); [done|].
  assert (R w (if 0 <=? timeout_ms then poll_ (reader_fd r) timeout_ms w1 else (1, 0, w1)).2)
    as Hp by (destruct (0 <=? timeout_ms); [by rewrite Hs|done]).
  destruct (if 0 <=? timeout_ms then _ else _) as [[ret rev] w2]. simpl in Hp. clear Hs.
  destruct (ret =? 0); [done|]. destruct (ret <? 0); [by case_decide|].
  pose proof (Hread (reader_fd r) (count - zlen g) w2) as Hr.
  destruct (read_ _ _ w2) as [[n bytes] w3]. simpl in Hr. rewrite <- Hp in Hr.
  destruct (n <? 0); [by case_decide|]. by destruct (n =? 0).
Qed.

Lemma write_exact_step fuel src r w b w' :
  write_exact fuel src r w = Done (b, w') → R w w'.
Proof.
  unfold write_exact. destruct (_ <? 0); [by intros [= <- <-]|].
  apply (iterate_rule _ (λ s, R w s.2) (λ r, R w r.2)); [|done].
  intros [total w1] Hs. simpl in Hs. unfold write_once. destruct (negb _); [done|].
  pose proof (Hwrite (writer_fd r) (drop (Z.to_nat total) src) w1) as Hw.
  destruct (write_ _ _ w1) as [n w2]. simpl in Hw. rewrite <- Hs in Hw.
  destruct (n <? 0); [by case_decide|done].
Qed.

End Steps.

(** ** Descriptors of readers and writers *)

Section Descriptors.
Context `{KernelLaws}.
Implicit Types (w : world).

(** Closed, or the owner of a descriptor that was not held before. *)
Definition opens (fd : Z) (X : gset Z) w0 w : Prop :=
  (fd = -1 ∧ holds X w0 w) ∨ (0 ≤ fd ∧ fd ∉ X ∧ holds ({[fd]} ∪ X) w0 w).

Lemma opens_same fd X w0 w w' : same_fds w w' → opens fd X w0 w → opens fd X w0 w'.
Proof. unfold opens. by intros ->. Qed.

Lemma reader_create_opens path read_write X w0 w :
  holds X w0 w →
  let '(r, w1) := reader_create path read_write w in
  opens (reader_fd r) X w0 w1 ∧ reader_path r = if reader_is_open r then path else [].
Proof.
  intros Hh. unfold reader_create. rewrite (same_fds_unlink path w) in Hh.
  set (w1 := unlink_ path w) in *. rewrite (same_fds_mkfifo path w1) in Hh.
  destruct (mkfifo_ path w1) as [ret w2]. simpl in Hh.
  destruct (ret =? -1); [split; [by left|done]|].
  pose proof (holds_open X w0 w2 path (if read_write then O_RDWR else O_RDONLY_NONBLOCK) Hh) as Ho.
  destruct (open_ path _ w2) as [fd w3]. destruct Ho as [[-> Ho]|(Hpos & Hnew & Ho)].
  - simpl. split; [left; split; [done|]|done]. by rewrite (same_fds_unlink path w3) in Ho.
  - rewrite (proj2 (Z.ltb_ge _ _) Hpos). unfold reader_is_open. simpl.
    rewrite (proj2 (Z.leb_le _ _) Hpos). split; [right; split_and!; [done..|]|done].
    destruct read_write; [done|]. by rewrite (same_fds_set_blocking fd w3) in Ho.
Qed.

Lemma writer_open_opens fuel path timeout X w0 w wr w' :
  holds X w0 w → writer_open fuel path timeout w = Done (wr, w') →
  opens (writer_fd wr) X w0 w' ∧ writer_path wr = if writer_is_open wr then path else [].
Proof.
  intros Hh. unfold writer_open. rewrite (same_fds_clock w) in Hh.
  destruct (clock_ w) as [start w1]. simpl in Hh.
  apply (iterate_rule _ (holds X w0) (λ r, opens (writer_fd r.1) X w0 r.2 ∧
    writer_path r.1 = if writer_is_open r.1 then path else [])); [|done].
  intros w2 Hh2. unfold open_once.
  pose proof (holds_open X w0 w2 path O_WRONLY_NONBLOCK Hh2) as Ho.
  destruct (open_ path O_WRONLY_NONBLOCK w2) as [fd w3].
  destruct Ho as [[-> Ho]|(Hpos & Hnew & Ho)].
  - simpl. case_decide; [split; [by left|done]|].
    rewrite (same_fds_clock w3) in Ho. destruct (clock_ w3) as [now w4]. simpl in Ho.
    destruct (timeout <=? now - start); [split; [by left|done]|].
    by rewrite (same_fds_sleep 20 w4) in Ho.
  - unfold writer_is_open. rewrite (proj2 (Z.leb_le _ _) Hpos). simpl.
    rewrite (proj2 (Z.leb_le _ _) Hpos). split; [right; split_and!; [done..|]|done].
    by rewrite (same_fds_set_blocking fd w3) in Ho.
Qed.

Lemma reader_close_holds r X w0 w :
  opens (reader_fd r) X w0 w → holds X w0 (reader_close r w).2.
Proof.
  intros Ho. unfold reader_close.
  assert (holds X w0 (if 0 <=? reader_fd r then (-1, close_ (reader_fd r) w)
                      else (reader_fd r, w)).2) as Hh.
  { destruct Ho as [[-> Ho]|(Hpos & Hnew & Ho)]; [done|].
    rewrite (proj2 (Z.leb_le _ _) Hpos). simpl. apply (holds_close _ _ _ (reader_fd r)) in Ho;
      [|set_solver]. by replace (_ ∖ _) with X in Ho by set_solver. }
  destruct (if 0 <=? reader_fd r then _ else _) as [fd w1]. simpl in Hh.
  destruct (reader_path r); simpl; [done|].
  match goal with |- holds _ _ (unlink_ ?p _) => by rewrite (same_fds_unlink p w1) in Hh end.
Qed.

Lemma writer_close_holds r X w0 w :
  opens (writer_fd r) X w0 w → holds X w0 (writer_close r w).2.
Proof.
  intros Ho. unfold writer_close. destruct Ho as [[-> Ho]|(Hpos & Hnew & Ho)]; [done|].
  rewrite (proj2 (Z.leb_le _ _) Hpos). simpl. apply (holds_close _ _ _ (writer_fd r)) in Ho;
    [|set_solver]. by replace (_ ∖ _) with X in Ho by set_solver.
Qed.

Lemma read_exact_same_fds fuel count timeout_ms r w b got w' :
  read_exact fuel count timeout_ms r w = Done (b, got, w') → same_fds w w'.
Proof. apply (read_exact_step same_fds); auto with treenity. Qed.

Lemma write_exact_same_fds fuel src r w b w' :
  write_exact fuel src r w = Done (b, w') → same_fds w w'.
Proof. apply (write_exact_step same_fds); auto with treenity. Qed.

End Descriptors.

(** ** Conversations

    [talked rd wr got put w w']: from [w] to [w'] the program read [got] from [rd] and the
    system took [put] from what it wrote to [wr]. *)

Section Conversations.
Context `{Kernel}.
Implicit Types (w : world).

Definition talked (rd wr : Z) (got put : str) w w' : Prop :=
  ∃ tr, trace w' = trace w ++ tr ∧ consumed rd tr = got ∧ accepted wr tr = put.

(** Nothing was read or written. *)
Definition silent w w' : Prop := ∀ rd wr, talked rd wr [] [] w w'.

Lemma talked_trans rd wr g1 p1 g2 p2 w0 w1 w2 :
  talked rd wr g1 p1 w0 w1 → talked rd wr g2 p2 w1 w2 → talked rd wr (g1 ++ g2) (p1 ++ p2) w0 w2.
Proof.
  intros (tr1 & H1 & <- & <-) (tr2 & H2 & <- & <-). exists (tr1 ++ tr2).
  by rewrite H2, H1, (assoc_L (++)), consumed_app, accepted_app.
Qed.

Lemma talked_silent rd wr g p w0 w1 w2 :
  talked rd wr g p w0 w1 → silent w1 w2 → talked rd wr g p w0 w2.
Proof.
  intros Ht Hs. rewrite <- (app_nil_r g), <- (app_nil_r p). by eapply talked_trans.
Qed.

Lemma silent_trace w w' : trace w' = trace w → silent w w'.
Proof. intros Ht rd wr. exists []. by rewrite Ht, app_nil_r. Qed.

#[global] Instance silent_preorder : PreOrder silent.
Proof.
  split; [intros w; by apply silent_trace|].
  intros w0 w1 w2 H1 H2 rd wr. by eapply talked_silent.
Qed.

Lemma silent_open path mode w : silent w (open_ path mode w).2.
Proof. intros rd wr. unfold open_. destruct (sys_open _ _ _) as [fd k]. by eexists. Qed.

Lemma silent_close fd w : silent w (close_ fd w).
Proof. intros rd wr. by eexists. Qed.

Lemma silent_clock w : silent w (clock_ w).2.
Proof. apply silent_trace. unfold clock_. by destruct (sys_clock _). Qed.

Lemma silent_mkfifo path w : silent w (mkfifo_ path w).2.
Proof. apply silent_trace. unfold mkfifo_. by destruct (sys_mkfifo _ _). Qed.

Lemma silent_signalled w : silent w (shutdown_requested_ w).2.
Proof. apply silent_trace. unfold shutdown_requested_. by destruct (sys_signalled _). Qed.

Lemma silent_poll fd timeout w : silent w (poll_ fd timeout w).2.
Proof. apply silent_trace. unfold poll_. by destruct (sys_poll _ _ _) as [[]]. Qed.

Lemma sent_talked rd wr bytes w w' : sent wr bytes w w' → talked rd wr [] bytes w w'.
Proof.
  intros (tr & Ht & Hf & <-). exists tr. split_and!; [done| |done].
  clear Ht. induction Hf as [|e tr (b & n & ->) _ IH]; [done|]. simpl. apply IH.
Qed.

Lemma received_talked rd wr bytes w w' : received rd bytes w w' → talked rd wr bytes [] w w'.
Proof.
  intros (tr & Ht & Hf & <-). exists tr. split_and!; [done|done|].
  clear Ht. induction Hf as [|e tr (b & ->) _ IH]; [done|]. simpl. apply IH.
Qed.

(** From [w] to [w'] the program read [got] from [rd], the system took [put] from what it
    wrote to [wr], and no other descriptor was read from or took anything. *)
Definition only_talked (rd wr : Z) (got put : str) w w' : Prop :=
  ∀ rd' wr', talked rd' wr' (if decide (rd' = rd) then got else [])
                            (if decide (wr' = wr) then put else []) w w'.

Lemma only_talked_talked rd wr got put w w' :
  only_talked rd wr got put w w' → talked rd wr got put w w'.
Proof. intros Ht. specialize (Ht rd wr). by rewrite !decide_True in Ht. Qed.

Lemma only_talked_trans rd wr g1 p1 g2 p2 w0 w1 w2 :
  only_talked rd wr g1 p1 w0 w1 → only_talked rd wr g2 p2 w1 w2 →
  only_talked rd wr (g1 ++ g2) (p1 ++ p2) w0 w2.
Proof.
  intros H1 H2 rd' wr'. pose proof (talked_trans _ _ _ _ _ _ _ _ _ (H1 rd' wr') (H2 rd' wr')) as Ht.
  by destruct (decide (rd' = rd)), (decide (wr' = wr)).
Qed.

Lemma silent_only_talked rd wr w w' : silent w w' → only_talked rd wr [] [] w w'.
Proof. intros Hs rd' wr'. specialize (Hs rd' wr'). by repeat case_decide. Qed.

Lemma only_talked_silent rd wr g p w0 w1 w2 :
  only_talked rd wr g p w0 w1 → silent w1 w2 → only_talked rd wr g p w0 w2.
Proof. intros Ht Hs rd' wr'. by eapply talked_silent. Qed.

Lemma silent_only rd wr g p w0 w1 w2 :
  silent w0 w1 → only_talked rd wr g p w1 w2 → only_talked rd wr g p w0 w2.
Proof. intros Hs Ht. by apply (only_talked_trans _ _ [] []) with w1; [apply silent_only_talked|]. Qed.

Lemma sent_only rd wr bytes w w' : sent wr bytes w w' → only_talked rd wr [] bytes w w'.
Proof.
  intros Hs rd' wr'. replace (if decide (rd' = rd) then [] else []) with (@nil byte) by by case_decide.
  case_decide as Hwr; [subst wr'; by apply sent_talked|].
  destruct Hs as (tr & Ht & Hf & _). exists tr. split; [done|]. clear Ht.
  induction Hf as [|e tr (b & n & ->) _ [IHc IHa]]; [done|]. simpl. by rewrite decide_False.
Qed.

Lemma received_only rd wr bytes w w' : received rd bytes w w' → only_talked rd wr bytes [] w w'.
Proof.
  intros Hr rd' wr'. replace (if decide (wr' = wr) then [] else []) with (@nil byte) by by case_decide.
  case_decide as Hrd; [subst rd'; by apply received_talked|].
  destruct Hr as (tr & Ht & Hf & _). exists tr. split; [done|]. clear Ht.
  induction Hf as [|e tr (b & ->) _ [IHc IHa]]; [done|]. simpl. by rewrite decide_False.
Qed.

Lemma reader_create_silent path read_write w : silent w (reader_create path read_write w).2.
Proof.
  unfold reader_create. transitivity (unlink_ path w); [by apply silent_trace|].
  pose proof (silent_mkfifo path (unlink_ path w)) as Hm.
  destruct (mkfifo_ path (unlink_ path w)) as [ret w1]. simpl in Hm.
  destruct (ret =? -1); [done|]. etransitivity; [exact Hm|].
  pose proof (silent_open path (if read_write then O_RDWR else O_RDONLY_NONBLOCK) w1) as Ho.
  destruct (open_ _ _ w1) as [fd w2]. simpl in Ho. etransitivity; [exact Ho|].
  destruct (fd <? 0), read_write; by apply silent_trace.
Qed.

Lemma writer_open_silent fuel path timeout w wr w' :
  writer_open fuel path timeout w = Done (wr, w') → silent w w'.
Proof.
  unfold writer_open. pose proof (silent_clock w) as Hc. destruct (clock_ w) as [start w1].
  apply (iterate_rule _ (silent w) (λ r, silent w r.2)); [|done]. clear Hc w1.
  intros w1 Hs. unfold open_once. pose proof (silent_open path O_WRONLY_NONBLOCK w1) as Ho.
  destruct (open_ _ _ w1) as [fd w2]. simpl in Ho. apply (transitivity Hs) in Ho. clear Hs. rename Ho into Hs.
  destruct (0 <=? fd); [simpl; etransitivity; [exact Hs|by apply silent_trace]|].
  case_decide; [done|]. pose proof (silent_clock w2) as Hc. destruct (clock_ w2) as [now w3].
  simpl in Hc. apply (transitivity Hs) in Hc. destruct (timeout <=? now - start); [done|].
  simpl. etransitivity; [exact Hc|]. by apply silent_trace.
Qed.

Lemma reader_close_silent r w : silent w (reader_close r w).2.
Proof.
  unfold reader_close. transitivity (if 0 <=? reader_fd r then (-1, close_ (reader_fd r) w)
                                     else (reader_fd r, w)).2.
  - destruct (0 <=? reader_fd r); [apply silent_close|done].
  - destruct (if 0 <=? reader_fd r then _ else _) as [fd w1], (reader_path r);
      [done|by apply silent_trace].
Qed.

Lemma writer_close_silent r w : silent w (writer_close r w).2.
Proof. unfold writer_close. destruct (0 <=? writer_fd r); [apply silent_close|done]. Qed.

End Conversations.

(** ** A reader, and a writer opened after it: their descriptors differ, and closing each
    takes the world back to the descriptors before it was opened. *)

Section Sessions.
Context `{KernelLaws}.
Implicit Types (w : world).

Lemma reader_session path read_write w r w1 :
  reader_create path read_write w = (r, w1) →
  silent w w1 ∧ ∀ w2, same_fds w1 w2 → same_fds w (reader_close r w2).2.
Proof.
  intros Hc. pose proof (reader_create_silent path read_write w) as Hq.
  pose proof (reader_create_opens path read_write ∅ w w (holds_refl w)) as Ho.
  rewrite Hc in Hq, Ho. destruct Ho as [Ho _]. split; [done|].
  intros w2 Hs. apply holds_nothing, reader_close_holds. by eapply opens_same.
Qed.

Lemma writer_session path read_write w r w1 fuel target timeout writer w2 :
  reader_create path read_write w = (r, w1) → reader_is_open r = true →
  writer_open fuel target timeout w1 = Done (writer, w2) →
  silent w1 w2 ∧ (∀ w3, same_fds w2 w3 → same_fds w1 (writer_close writer w3).2) ∧
  (writer_is_open writer = true → reader_fd r ≠ writer_fd writer).
Proof.
  intros Hc Hopen Hw. split; [by eapply writer_open_silent|]. split.
  - apply (writer_open_opens _ _ _ ∅ w1) in Hw as [Ho _]; [|apply holds_refl].
    intros w3 Hs. apply holds_nothing, writer_close_holds. by eapply opens_same.
  - pose proof (reader_create_opens path read_write ∅ w w (holds_refl w)) as Hor.
    rewrite Hc in Hor. destruct Hor as [Hor _].
    apply (writer_open_opens _ _ _ {[reader_fd r]} w) in Hw as [Ho _].
    + unfold writer_is_open. destruct Ho as [[Hf _]|(_ & Hn & _)]; [by rewrite Hf|set_solver].
    + unfold reader_is_open in Hopen. destruct Hor as [[Hf _]|(_ & _ & Hor)];
        [by rewrite Hf in Hopen|by rewrite (right_id_L ∅ (∪)) in Hor].
Qed.

End Sessions.

(** ** Properties *)

Section Properties.
Context `{KernelLaws} `{!TransferLaws} `{!FiniteStalls} `{!ClockLaws}.
Implicit Types (w : world).

Lemma open_once_ends path timeout start w :
  ∃ r, open_once path timeout start w = Done r ∧
  match r with
  | inl w' => time (kernel w) + 20 ≤ time (kernel w') ∧ time (kernel w) - start < timeout
  | inr _ => True
  end.
Proof.
  unfold open_once, open_, clock_, sleep_. pose proof (sys_open_time path O_WRONLY_NONBLOCK (kernel w)) as Ho.
  destruct (sys_open path O_WRONLY_NONBLOCK (kernel w)) as [fd k]. simpl in *.
  destruct (0 <=? fd); [by eexists|]. case_decide; [by eexists|].
  pose proof (sys_clock_time k) as [Hc Hk]. destruct (sys_clock k) as [now k1]. simpl in *.
  destruct (Z.leb_spec timeout (now - start)); [by eexists|].
  eexists. split; [done|]. simpl. pose proof (sys_sleep_time 20 k1). lia.
Qed.

Lemma writer_open_ends path timeout w :
  ∃ res, ∀ fuel, (Z.to_nat ((timeout + 19) / 20) < fuel)%nat → writer_open fuel path timeout w = Done res.
Proof.
  unfold writer_open, clock_. pose proof (sys_clock_time (kernel w)) as [Hc Hk].
  destruct (sys_clock (kernel w)) as [start k]. simpl in *. subst start.
  destruct (iterate_total (open_once path timeout (time (kernel w)))
    (λ w', time (kernel w) ≤ time (kernel w')) (λ _, True)
    (λ w', Z.to_nat ((timeout - (time (kernel w') - time (kernel w)) + 19) / 20))) with (mkWorld k (trace w))
    as (res & _ & Hres).
  - intros w1 Hw1. destruct (open_once_ends path timeout (time (kernel w)) w1) as (r & Hr & Hm).
    exists r. split; [done|]. destruct r as [w2|]; [|done]. split; [lia|]. zify_div.
  - done.
  - exists res. intros fuel Hf. apply Hres. simpl.
    replace (timeout - _ + 19) with (timeout + 19 - (time k - time (kernel w))) by lia.
    zify_div.
Qed.

(** C33: [write_exact] ends, whatever partial writes, failures and finitely many
    interruptions it meets; when it returns true the system took exactly the bytes of
    the buffer, in order and each once, and otherwise a prefix of them. *)
Theorem write_exact_reliable (src : str) (r : FifoWriter) (w : world) :
  ∃ b w', (∀ fuel, (length src + stalls (kernel w) < fuel)%nat →
             write_exact fuel src r w = Done (b, w')) ∧
          ∃ n, 0 ≤ n ≤ zlen src ∧ sent (writer_fd r) (take (Z.to_nat n) src) w w' ∧
               (b = true → n = zlen src).
Proof.
  destruct (write_exact_ends src r w) as [[b w'] Hrun]. exists b, w'. split; [done|].
  specialize (Hrun _ (Nat.lt_succ_diag_r _)). apply write_exact_sends in Hrun. destruct b.
  - exists (zlen src). split_and!; [apply zlen_nonneg|lia| |done].
    by rewrite take_ge by (unfold zlen; lia).
  - destruct Hrun as (n & ? & _ & ?). exists n. split; [done|]. by split.
Qed.

(** [read_exact] ends; the bytes it stores are exactly those read from the
    descriptor, and they are [count] when it returns true and fewer or as many otherwise. *)
Theorem read_exact_reliable (count timeout_ms : Z) (r : FifoReader) (w : world)
    (Hcount : 0 ≤ count) :
  ∃ b got w', (∀ fuel, (Z.to_nat count + stalls (kernel w) < fuel)%nat →
                 read_exact fuel count timeout_ms r w = Done (b, got, w')) ∧
              received (reader_fd r) got w w' ∧ zlen got ≤ count ∧
              (b = true → zlen got = count).
Proof.
  destruct (read_exact_ends count timeout_ms r w) as [[[b got] w'] Hrun]. exists b, got, w'.
  split; [done|]. specialize (Hrun _ (Nat.lt_succ_diag_r _)).
  apply read_exact_receives in Hrun as [Hr Hb]; [|done].
  split; [done|]. destruct b; (split; [lia|done]).
Qed.

(** [FifoWriter::open] gives up after [timeout] milliseconds, that is after at most one
    attempt every 20 milliseconds and one more; it returns a writer that owns the one
    descriptor that was opened, or a closed one, and then none was. *)
Theorem writer_open_gives_up (path : str) (timeout : Z) (w : world) :
  ∃ wr w', (∀ fuel, (Z.to_nat ((timeout + 19) / 20) < fuel)%nat →
              writer_open fuel path timeout w = Done (wr, w')) ∧
    ((wr = mkWriter (-1) [] ∧ same_fds w w') ∨
     (0 ≤ writer_fd wr ∧ writer_path wr = path ∧ ¬ is_open w (writer_fd wr) ∧
      ∀ x, is_open w' x ↔ x = writer_fd wr ∨ is_open w x)).
Proof.
  destruct (writer_open_ends path timeout w) as [[wr w'] Hrun]. exists wr, w'.
  split; [done|]. specialize (Hrun _ (Nat.lt_succ_diag_r _)).
  apply (writer_open_opens _ _ _ ∅ w) in Hrun as [Ho Hp]; [|apply holds_refl].
  unfold writer_is_open in Hp. destruct wr as [fd wpath]. simpl in *.
  destruct Ho as [[-> Ho]|(Hpos & _ & [Hn Ho])].
  - left. rewrite Hp. split; [done|]. by apply holds_nothing.
  - right. rewrite (proj2 (Z.leb_le _ _) Hpos) in Hp.
    split_and!; [done|done|apply Hn; set_solver|]. intros x. rewrite Ho. set_solver.
Qed.

(** A reader that is created, used and closed leaves the descriptors as they were,
    whether or not it could be created; closing it again does nothing, and what was moved
    from closes nothing. *)
Theorem reader_lifecycle (path : str) (read_write : bool) (fuel : nat) (count timeout_ms : Z)
    (w : world) (b : bool) (got : str) (w1 : world)
    (Hread : read_exact fuel count timeout_ms (reader_create path read_write w).1
               (reader_create path read_write w).2 = Done (b, got, w1)) :
  let r := (reader_create path read_write w).1 in
  let r' := (reader_close r w1).1 in
  let w2 := (reader_close r w1).2 in
  same_fds w w2 ∧ reader_is_open r' = false ∧ reader_close r' w2 = (r', w2) ∧
  reader_close (reader_move r).2 w1 = ((reader_move r).2, w1).
Proof.
  apply read_exact_same_fds in Hread.
  pose proof (reader_create_opens path read_write ∅ w w (holds_refl w)) as Hc.
  destruct (reader_create path read_write w) as [r w0]. destruct Hc as [Ho Hp]. simpl in *.
  apply (opens_same _ _ _ _ _ Hread) in Ho. pose proof (reader_close_holds _ _ _ _ Ho) as Hh.
  destruct (reader_close r w1) as [r' w2] eqn:Hcl. apply holds_nothing in Hh. split; [done|].
  assert (reader_is_open r' = false ∧ reader_path r' = []) as [Hr Hr'].
  { unfold reader_close, reader_is_open in *. destruct (Z.leb_spec 0 (reader_fd r));
      destruct (reader_path r); injection Hcl as <- <-; simpl; (split; [|done]); lia. }
  split_and!; [done| |done]. unfold reader_close, reader_is_open in *; simpl. rewrite Hr, Hr'.
  destruct r'; simpl in *. by subst.
Qed.

End Properties.

(** ** Witnesses *)

Module Witness.

Import World.Simple.

(** Writes that take two bytes, none, three, and then all; reads from two chunks. *)
Definition busy : world :=
  mkWorld (mkState [] [2; 0; 3] [] [$"ab"; $"cdef"] 0) [].

Example write_in_parts :
  accepted 5 (trace (match write_exact 20 $"message" (mkWriter 5 $"/f") busy with
                     | Done (_, w) => w | _ => busy end)) = $"message".
Proof. reflexivity. Qed.

Lemma write_exact_witness :
  ∃ b w', write_exact 20 $"message" (mkWriter 5 $"/f") busy = Done (b, w') ∧
    ∃ n, 0 ≤ n ≤ 7 ∧ sent 5 (take (Z.to_nat n) $"message") busy w'.
Proof.
  destruct (write_exact_reliable $"message" (mkWriter 5 $"/f") busy)
    as (b & w' & Hrun & n & Hn & Hs & _).
  exists b, w'. split; [exact (Hrun 20%nat ltac:(vm_compute; lia))|]. exists n. exact (conj Hn Hs).
Defined.

(** Nobody listens: the client tries for two seconds. *)
Definition deaf : world := mkWorld (mkState [] [] [$"/f"] [] 0) [].

Lemma writer_open_witness :
  ∃ wr w', writer_open 200 $"/f" 2000 deaf = Done (wr, w') ∧ writer_is_open wr = false.
Proof.
  destruct (writer_open_gives_up $"/f" 2000 deaf) as (wr & w' & Hrun & _).
  specialize (Hrun 200%nat ltac:(vm_compute; lia)). exists wr, w'. split; [exact Hrun|].
  assert ((match writer_open 200 $"/f" 2000 deaf with
           | Done (wr, _) => writer_is_open wr | _ => true end) = false) as Hc by (vm_compute; reflexivity).
  rewrite Hrun in Hc. exact Hc.
Defined.

Lemma read_exact_witness :
  ∃ b got w', read_exact 20 5 100 (mkReader 5 $"/f") busy = Done (b, got, w') ∧ zlen got ≤ 5.
Proof.
  destruct (read_exact_reliable 5 100 (mkReader 5 $"/f") busy ltac:(lia))
    as (b & got & w' & Hrun & _ & Hlen & _).
  exists b, got, w'. exact (conj (Hrun 20%nat ltac:(vm_compute; lia)) Hlen).
Defined.

Lemma lifecycle_witness :
  ∃ b got w1, read_exact 20 5 100 (reader_create $"/f" true start).1
                (reader_create $"/f" true start).2 = Done (b, got, w1) ∧
    same_fds start (reader_close (reader_create $"/f" true start).1 w1).2.
Proof.
  destruct (read_exact_reliable 5 100 (reader_create $"/f" true start).1
    (reader_create $"/f" true start).2 ltac:(lia)) as (b & got & w1 & Hrun & _).
  specialize (Hrun 20%nat ltac:(vm_compute; lia)).
  exists b, got, w1. exact (conj Hrun (proj1 (reader_lifecycle $"/f" true 20 5 100 start b got w1 Hrun))).
Defined.

End Witness.

End Ipc.
