(* ===== verification/Topic.v ===== *)
(** * Topic: the queue of src/server/{inc/Topic.hpp,src/Topic.cpp,inc/Message.hpp}

    A topic keeps its messages, the table of its active subscribers and the index of
    their prefixes. Every operation, and every pass of the worker thread from the
    moment its wait is over, runs under the topic's mutex: they are functions from the
    topic and the world to new ones, and threads interleave them in any order. The
    index is the interface [SubscriptionIndex], which the prefix tree implements. *)

From S2P Require Import Prelude HashMap PrefixTree Protocol World.

Set Warnings "-clear-no-such-hyp".

Module Topic.

Import World.
Open Scope Z_scope.

(** ** State *)

Record Message : Type := mkMessage {
  offset : Z;
  key : str;
  value : str
}.

Record ActiveSubscriber : Type := mkSubscriber {
  client_id : str;
  sub_prefix : str;
  fifo_path : str;
  fifo_fd : Z;
  next_offset : Z
}.

Definition with_fd (fd : Z) (s : ActiveSubscriber) : ActiveSubscriber :=
  mkSubscriber (client_id s) (sub_prefix s) (fifo_path s) fd (next_offset s).

Definition with_next (next : Z) (s : ActiveSubscriber) : ActiveSubscriber :=
  mkSubscriber (client_id s) (sub_prefix s) (fifo_path s) (fifo_fd s) next.

Section Operations.
Context `{Kernel} `{SubscriptionIndex} `{Hash str}.

(** The members of a topic, and whether its worker thread is still in its loop. *)
Record t : Type := mkTopic {
  name : str;
  messages : list Message;
  prefix_tree : index;
  subscribers : HashMap.t str ActiveSubscriber;
  stop_flag : bool;
  worker_running : bool
}.

Definition with_subscribers (tree : index) (subs : HashMap.t str ActiveSubscriber) (this : t) : t :=
  mkTopic (name this) (messages this) tree subs (stop_flag this) (worker_running this).

(** The constructor starts the worker thread. *)
Definition make (topic_name : str) : t :=
  mkTopic topic_name [] index_new HashMap.make_default false true.

(** ** Messages *)

Definition append_message (key value : str) (this : t) : t :=
  let current_offset := wrap32 (zlen (messages this)) in
  mkTopic (name this) (messages this ++ [mkMessage current_offset key value])
    (prefix_tree this) (subscribers this) (stop_flag this) (worker_running this).

Definition get_messages_from (start_offset : Z) (this : t) : list Message :=
  if start_offset <? zlen (messages this) then drop (Z.to_nat start_offset) (messages this)
  else [].

(** ** Subscribers *)

(** [prefix_tree.remove(sub->prefix, id)], closing the FIFO and erasing the entry, as
    [add_subscriber] and [remove_subscriber] both do. *)
Definition drop_subscriber (id : str) (sub : ActiveSubscriber) (this : t) (w : world)
    : outcome (t * world) :=
  '(_, tree) ← index_remove (sub_prefix sub) id (prefix_tree this);
  let w := if negb (fifo_fd sub =? -1) then close_ (fifo_fd sub) w else w in
  mret (with_subscribers tree (HashMap.erase id (subscribers this)).2 this, w).

Definition add_subscriber (id prefix path : str) (start_offset : Z) (this : t) (w : world)
    : outcome (bool * t * world) :=
  '(this, w) ← match HashMap.find id (subscribers this) with
               | Some old_sub => drop_subscriber id old_sub this w
               | None => mret (this, w)
               end;
  let '(fd, w) := open_ path O_WRONLY_NONBLOCK w in
  if fd =? -1 then mret (false, this, w)
  else
    let tree := index_insert prefix id (prefix_tree this) in
    let sub := mkSubscriber id prefix path fd start_offset in
    mret (true, with_subscribers tree (HashMap.insert id sub (subscribers this)).2 this, w).

Definition remove_subscriber (id : str) (this : t) (w : world) : outcome (bool * t * world) :=
  match HashMap.find id (subscribers this) with
  | None => mret (false, this, w)
  | Some sub => '(this, w) ← drop_subscriber id sub this w; mret (true, this, w)
  end.

(** ** The worker thread *)

(** The lambda [has_work]. *)
Definition has_work (this : t) : bool :=
  stop_flag this ||
  existsb (λ entry, next_offset entry.2 <? zlen (messages this))
    (HashMap.entries (subscribers this)).

(** The delivery of one message to one subscriber. *)
Definition deliver_one (msg : Message) (tree : index) (sub : ActiveSubscriber) (w : world)
    : outcome (ActiveSubscriber * world) :=
  matching_clients ← index_match (key msg) tree;
  let is_matched := bool_decide (client_id sub ∈ matching_clients) in
  if is_matched && negb (fifo_fd sub =? -1) then
    let delivery_buf := Protocol.serialize_delivery (offset msg) (key msg) (value msg) in
    let '(ret, w) := write_ (fifo_fd sub) delivery_buf w in
    if ret <=? 0 then mret (with_fd (-1) sub, close_ (fifo_fd sub) w)
    else mret (sub, w)
  else mret (sub, w).

(** [while (sub.next_offset < messages.size())], with a bound on its iterations. *)
Fixpoint deliver (fuel : nat) (msgs : list Message) (tree : index) (sub : ActiveSubscriber)
    (w : world) : outcome (ActiveSubscriber * world) :=
  match fuel with
  | O => NoFuel
  | S fuel =>
      if negb (next_offset sub <? zlen msgs) then mret (sub, w)
      else
        msg ← deref (msgs !! Z.to_nat (next_offset sub));
        '(sub, w) ← deliver_one msg tree sub w;
        deliver fuel msgs tree (with_next (wrap32 (next_offset sub + 1)) sub) w
  end.

(** A pass of [run] after [cv.wait] returns: the worker leaves its loop, or goes over
    the subscribers. *)
Definition pass (this : t) (w : world) : outcome (t * world) :=
  if stop_flag this then
    mret (mkTopic (name this) (messages this) (prefix_tree this) (subscribers this)
            (stop_flag this) false, w)
  else
    '(subs, w) ← HashMap.for_each
                   (λ _ sub w, deliver (S (length (messages this))) (messages this)
                                 (prefix_tree this) sub w)
                   (subscribers this) w;
    mret (with_subscribers (prefix_tree this) subs this, w).

(** One turn of the worker thread: it waits, unless there is work. *)
Definition run_step (this : t) (w : world) : outcome (t * world) :=
  if worker_running this && has_work this then pass this w else mret (this, w).

(** ** Shutdown *)

(** The body of the loop that sends the sentinel. *)
Definition send_sentinel (sub : ActiveSubscriber) (w : world) : ActiveSubscriber * world :=
  if negb (fifo_fd sub =? -1) then
    let '(_, w) := write_ (fifo_fd sub) Protocol.serialize_shutdown w in
    (with_fd (-1) sub, close_ (fifo_fd sub) w)
  else (sub, w).

(** What [shutdown] does under the lock. *)
Definition sign_off (this : t) (w : world) : outcome (t * world) :=
  '(subs, w) ← HashMap.for_each (λ _ sub w, mret (send_sentinel sub w)) (subscribers this) w;
  mret (mkTopic (name this) (messages this) (index_clear (prefix_tree this))
          (HashMap.clear subs) true (worker_running this), w).

(** [worker_thread.join()] returns once the worker has taken the turn in which it sees
    the stop flag. *)
Definition shutdown (this : t) (w : world) : outcome (t * world) :=
  if stop_flag this then mret (this, w)
  else '(this, w) ← sign_off this w; run_step this w.

(** ** Operations in sequence

    What the threads of the server do to a topic, one critical section at a time. *)
Inductive op : Type :=
| Op_append (key value : str)
| Op_add (id prefix path : str) (start_offset : Z)
| Op_remove (id : str)
| Op_run
| Op_shutdown.

Definition run_op (o : op) (this : t) (w : world) : outcome (t * world) :=
  match o with
  | Op_append k v => mret (append_message k v this, w)
  | Op_add id p path start =>
      '(_, this, w) ← add_subscriber id p path start this w; mret (this, w)
  | Op_remove id => '(_, this, w) ← remove_subscriber id this w; mret (this, w)
  | Op_run => run_step this w
  | Op_shutdown => shutdown this w
  end.

Fixpoint run_ops (ops : list op) (this : t) (w : world) : outcome (t * world) :=
  match ops with
  | [] => mret (this, w)
  | o :: ops => '(this, w) ← run_op o this w; run_ops ops this w
  end.

End Operations.

(** ** Specification *)

Section Specification.
Context `{KernelLaws} `{SubscriptionIndex} `{Hash str}.

(** A subscriber wants the messages whose key starts with its prefix. *)
Definition wanted (prefix : str) (m : Message) : Prop := prefix `prefix_of` key m.

#[export] Instance wanted_dec prefix m : Decision (wanted prefix m).
Proof. unfold wanted. apply _. Defined.

(** What is written for a message. *)
Definition frame (m : Message) : str :=
  Protocol.serialize_delivery (offset m) (key m) (value m).

(** The frames of the wanted messages with offsets from [start] to [next]. *)
Definition expected (prefix : str) (start next : Z) (msgs : list Message) : list str :=
  frame <$> filter (wanted prefix)
              (take (Z.to_nat (next - start)) (drop (Z.to_nat start) msgs)).

(** Delivery as a recursion on the pending messages. *)
Definition deliver_ref (m : Message) (sub : ActiveSubscriber) (w : world)
    : ActiveSubscriber * world :=
  if decide (wanted (sub_prefix sub) m ∧ fifo_fd sub ≠ -1) then
    let '(ret, w) := write_ (fifo_fd sub) (frame m) w in
    if ret <=? 0 then (with_fd (-1) sub, close_ (fifo_fd sub) w) else (sub, w)
  else (sub, w).

Fixpoint deliver_list (pending : list Message) (sub : ActiveSubscriber) (w : world)
    : ActiveSubscriber * world :=
  match pending with
  | [] => (sub, w)
  | m :: pending =>
      let '(sub, w) := deliver_ref m sub w in
      deliver_list pending (with_next (next_offset sub + 1) sub) w
  end.

(** The subscribers of a topic: entries are under their own identifier, offsets are
    32 bits wide, descriptors are open or -1 and no two subscribers share one. *)
Record subs_wf (M : gmap str ActiveSubscriber) (w : world) : Prop := {
  subs_id id s : M !! id = Some s → client_id s = id;
  subs_next id s : M !! id = Some s → u32 (next_offset s);
  subs_fd id s : M !! id = Some s → fifo_fd s = -1 ∨ 0 ≤ fifo_fd s ∧ is_open w (fifo_fd s);
  subs_fd_inj id1 s1 id2 s2 :
    M !! id1 = Some s1 → M !! id2 = Some s2 → fifo_fd s1 = fifo_fd s2 → fifo_fd s1 ≠ -1 →
    id1 = id2
}.

(** The registrations are those of the subscribers, each once. *)
Definition registers (M : gmap str ActiveSubscriber) (regs : list PrefixTree.registration)
    : Prop :=
  NoDup regs ∧ ∀ p id, (p, id) ∈ regs ↔ ∃ s, M !! id = Some s ∧ sub_prefix s = p.

Definition subs (this : t) : gmap str ActiveSubscriber := HashMap.to_map (subscribers this).

(** The invariant of a topic. *)
Record wf (this : t) (w : world) : Prop := {
  wf_table : HashMap.wf (subscribers this);
  wf_subs : subs_wf (subs this) w;
  wf_index : ∃ regs, index_represents (prefix_tree this) regs ∧ registers (subs this) regs;
  wf_messages i m : messages this !! i = Some m → offset m = wrap32 (Z.of_nat i)
}.

(** The descriptors of the subscribers in a table. *)
Definition owns (M : gmap str ActiveSubscriber) (x : Z) : Prop :=
  ∃ id s, M !! id = Some s ∧ fifo_fd s = x ∧ x ≠ -1.

(** An operation on a topic leaves alone the descriptors that others have open. *)
Definition isolated (M : gmap str ActiveSubscriber) (w : world)
    (M' : gmap str ActiveSubscriber) (w' : world) : Prop :=
  touches (owns M) w w' ∧ ∀ x, is_open w x → ¬ owns M x → ¬ owns M' x.

(** From [w] to [w'], the descriptors of the subscribers in [M] are left alone. *)
Definition spared (M : gmap str ActiveSubscriber) (w w' : world) : Prop :=
  touches (λ x, ¬ owns M x) w w'.

(** The worker is in its loop and has not been told to stop. *)
Definition serving (this : t) : Prop := stop_flag this = false ∧ worker_running this = true.

(** Operations with arguments of their type. *)
Definition op_valid (o : op) : Prop :=
  match o with Op_add _ _ _ start => u32 start | _ => True end.

(** Operations that leave the subscription of [id] alone. *)
Definition spares (id : str) (o : op) : Prop :=
  match o with
  | Op_add id' _ _ _ | Op_remove id' => id' ≠ id
  | Op_shutdown => False
  | _ => True
  end.

(** How many messages the operations append. *)
Fixpoint appended (ops : list op) : Z :=
  match ops with
  | [] => 0
  | Op_append _ _ :: ops => 1 + appended ops
  | _ :: ops => appended ops
  end.

(** Since [n0] events ago, with [fd], subscriber [id] of prefix [prefix] has been sent
    what it wants from [start] on, in order and without gaps; or a write has failed, up
    to which that holds, and it is sent nothing any more. *)
Definition in_session (id prefix : str) (fd start : Z) (n0 : nat)
    (M : gmap str ActiveSubscriber) (msgs : list Message) (w : world) : Prop :=
  ∃ s, M !! id = Some s ∧ sub_prefix s = prefix ∧ 0 ≤ start ≤ next_offset s ∧
       (next_offset s = start ∨ next_offset s ≤ zlen msgs) ∧
       (n0 ≤ length (trace w))%nat ∧
       let since := drop n0 (trace w) in
       let sent := session_writes fd since in
       let due := expected prefix start (next_offset s) msgs in
       (fifo_fd s = fd ∧ forallb (negb ∘ closes fd) since = true ∧
        sent.*1 = due ∧ Forall (λ r, 0 < r) sent.*2 ∨
        fifo_fd s = -1 ∧ forallb (negb ∘ closes fd) since = false ∧
        sent.*1 `prefix_of` due).

(** [sub] and [w] become [sub'] and [w'] by delivering [pending]: only the descriptor
    of [sub] is written to; it stays open after successful writes of everything that
    is wanted, or is closed after the first write that fails. *)
Definition delivered (pending : list Message) (sub : ActiveSubscriber) (w : world)
    (sub' : ActiveSubscriber) (w' : world) : Prop :=
  client_id sub' = client_id sub ∧ sub_prefix sub' = sub_prefix sub ∧
  touches (λ x, x = fifo_fd sub ∧ x ≠ -1) w w' ∧
  (fifo_fd sub' = fifo_fd sub ∧ (fifo_fd sub = -1 ∨ is_open w' (fifo_fd sub)) ∨
   fifo_fd sub' = -1 ∧ fifo_fd sub ≠ -1) ∧
  ∃ tr, trace w' = trace w ++ tr ∧
    let sent := session_writes (fifo_fd sub) tr in
    let due := frame <$> filter (wanted (sub_prefix sub)) pending in
    (fifo_fd sub = -1 → tr = []) ∧
    (fifo_fd sub ≠ -1 →
     forallb (negb ∘ closes (fifo_fd sub)) tr = bool_decide (fifo_fd sub' = fifo_fd sub) ∧
     sent.*1 `prefix_of` due ∧
     (fifo_fd sub' = fifo_fd sub → sent.*1 = due ∧ Forall (λ r, 0 < r) sent.*2)).

End Specification.

(** ** Delivery to one subscriber *)

Section Theory.
Context `{KernelLaws} `{SubscriptionIndex} `{Hash str}.
Implicit Types (this : t) (w : world) (m : Message) (M : gmap str ActiveSubscriber).

(** The index answers for [sub] as its prefix says. *)
Definition answers_for (tree : index) (sub : ActiveSubscriber) : Prop :=
  ∀ k, ∃ l, index_match k tree = Done l ∧
            (client_id sub ∈ l ↔ sub_prefix sub `prefix_of` k).

Lemma deliver_one_ref m tree sub w :
  answers_for tree sub → deliver_one m tree sub w = Done (deliver_ref m sub w).
Proof.
  intros Ht. destruct (Ht (key m)) as (l & Hl & Hin).
  unfold deliver_one, deliver_ref, wanted, frame. rewrite Hl. simpl.
  destruct (decide (sub_prefix sub `prefix_of` key m ∧ fifo_fd sub ≠ -1)) as [[Hp Hfd]|Hn].
  - rewrite bool_decide_true by (by apply Hin). rewrite (proj2 (Z.eqb_neq _ _)) by done. simpl.
    destruct (write_ _ _ w) as [ret w']. by destruct (ret <=? 0).
  - destruct (bool_decide_reflect (client_id sub ∈ l)) as [Hc|]; [|done].
    destruct (Z.eqb_spec (fifo_fd sub) (-1)); [done|]. destruct Hn. by rewrite <- Hin.
Qed.

Lemma deliver_ref_same m sub w :
  let sub' := (deliver_ref m sub w).1 in
  client_id sub' = client_id sub ∧ sub_prefix sub' = sub_prefix sub ∧
  next_offset sub' = next_offset sub.
Proof.
  unfold deliver_ref. case_decide; [|done]. destruct (write_ _ _ w) as [ret w'].
  by destruct (ret <=? 0).
Qed.

Lemma deliver_is_deliver_list fuel msgs tree sub w :
  answers_for tree sub → u32 (next_offset sub) → zlen msgs < 2 ^ 32 →
  (length msgs - Z.to_nat (next_offset sub) < fuel)%nat →
  deliver fuel msgs tree sub w =
  Done (deliver_list (drop (Z.to_nat (next_offset sub)) msgs) sub w).
Proof.
  unfold u32. revert sub w.
  induction fuel as [|fuel IH]; intros sub w Ht Hu Hlen Hfuel; simpl; [lia|].
  destruct (Z.ltb_spec (next_offset sub) (zlen msgs)) as [Hlt|Hge]; simpl.
  - destruct (lookup_lt_is_Some_2 msgs (Z.to_nat (next_offset sub))) as [m Hm].
    { unfold zlen in Hlt. lia. }
    rewrite Hm. simpl. rewrite deliver_one_ref by done. rewrite (drop_S _ _ _ Hm). simpl.
    destruct (deliver_ref_same m sub w) as (Hid & Hp & Hn).
    destruct (deliver_ref m sub w) as [sub1 w1]; simpl in *.
    unfold zlen in *. rewrite wrap32_small by (unfold u32; lia). rewrite IH; simpl.
    + rewrite Hn. replace (Z.to_nat (next_offset sub + 1)) with (S (Z.to_nat (next_offset sub))) by lia.
      done.
    + intros k. simpl. rewrite Hid, Hp. apply Ht.
    + lia.
    + lia.
    + lia.
  - by rewrite drop_ge by (unfold zlen in *; lia).
Qed.

(** What delivering one message does. *)
Lemma deliver_ref_facts m sub w :
  fifo_fd sub = -1 ∨ is_open w (fifo_fd sub) →
  delivered [m] sub w (deliver_ref m sub w).1 (deliver_ref m sub w).2.
Proof.
  intros Hfd. destruct (deliver_ref_same m sub w) as (Hid & Hp & _).
  split; [done|]. split; [done|]. clear Hid Hp. unfold deliver_ref.
  destruct (decide (wanted (sub_prefix sub) m ∧ fifo_fd sub ≠ -1)) as [[Hw Hn]|Hn].
  - destruct Hfd as [|Hfd]; [done|].
    pose proof (touches_write (fifo_fd sub) (frame m) w) as Ht.
    pose proof (write_result (fifo_fd sub) (frame m) w) as [Htr Ho].
    rewrite (filter_cons_True _ _ _ Hw).
    destruct (write_ (fifo_fd sub) (frame m) w) as [ret w1]; simpl in *.
    destruct (Z.leb_spec ret 0); simpl.
    + split_and!.
      * apply (touches_trans _ _ w1); [|eapply touches_weaken; [|apply touches_close]];
          [eapply touches_weaken; [|exact Ht]|]; simpl; intros x ->; done.
      * by right.
      * eexists. rewrite Htr, <- (assoc_L (++)). split; [done|]. split; [done|]. intros _. simpl.
        rewrite bool_decide_true, decide_True by done. simpl. rewrite decide_True by done.
        rewrite bool_decide_false by done. split_and!; [done|done|].
        intros Heq. by rewrite <- Heq in Hn.
    + split_and!.
      * eapply touches_weaken; [|exact Ht]; simpl; intros x ->; done.
      * left. split; [done|]. right. by apply Ho.
      * eexists. split; [exact Htr|]. split; [done|]. intros _. simpl. rewrite decide_True by done.
        rewrite bool_decide_true by done. split_and!; [done|done|].
        intros _. split; [done|]. simpl. by apply Forall_singleton.
  - split_and!; [apply touches_refl|by left|]. exists []. rewrite app_nil_r. split; [done|].
    split; [done|]. intros Hne. simpl. rewrite bool_decide_true by done.
    rewrite filter_cons_False by tauto. by split_and!.
Qed.

Lemma delivered_nil sub w :
  fifo_fd sub = -1 ∨ is_open w (fifo_fd sub) → delivered [] sub w sub w.
Proof.
  intros Hfd. split_and!; [done|done|apply touches_refl|by left|]. exists [].
  rewrite app_nil_r. split; [done|]. split; [done|]. intros Hne. simpl.
  rewrite bool_decide_true by done. by split_and!.
Qed.

Lemma delivered_trans l1 l2 sub w sub1 w1 n sub2 w2 :
  delivered l1 sub w sub1 w1 → delivered l2 (with_next n sub1) w1 sub2 w2 →
  delivered (l1 ++ l2) sub w sub2 w2.
Proof.
  intros (Hid1 & Hp1 & Ht1 & Hfd1 & tr1 & Htr1 & Hcl1 & Hs1)
         (Hid2 & Hp2 & Ht2 & Hfd2 & tr2 & Htr2 & Hcl2 & Hs2). simpl in *.
  assert (fifo_fd sub1 ≠ -1 → fifo_fd sub1 = fifo_fd sub) as Hsame
    by (destruct Hfd1 as [[? _]|[? _]]; congruence).
  split_and!; [congruence|congruence| | |].
  - apply (touches_trans _ _ w1); [done|]. eapply touches_weaken; [|exact Ht2].
    intros x [-> Hx]. split; [|done]. by apply Hsame.
  - destruct Hfd1 as [[He Ho]|[He Hne]].
    + rewrite He in Hfd2. destruct Hfd2 as [[? ?]|[? ?]]; [left|right]; split; done || tauto.
    + rewrite He in Hfd2. destruct Hfd2 as [[? _]|[_ []]]; [|done]. by right.
  - exists (tr1 ++ tr2). rewrite Htr2, Htr1, (assoc_L (++)). split; [done|].
    rewrite Hp1 in Hs2. split.
    { intros He. rewrite (Hcl1 He). destruct Hfd1 as [[He1 _]|[_ []]]; [|done].
      rewrite Hcl2; [done|congruence]. }
    intros Hne. destruct (Hs1 Hne) as (Hc1 & Hpre1 & Hok1). rewrite filter_app, fmap_app.
    destruct (decide (fifo_fd sub1 = fifo_fd sub)) as [He|He].
    + rewrite bool_decide_true in Hc1 by done. destruct (Hok1 He) as [HW1 Hpos1].
      rewrite session_writes_app by done. rewrite He in Hs2.
      destruct (Hs2 Hne) as (Hc2 & Hpre2 & Hok2).
      rewrite forallb_app, Hc1, Hc2, !fmap_app, HW1. split_and!; [done|by apply prefix_app|].
      intros He2. destruct (Hok2 He2) as [-> ?]. split; [done|]. by apply Forall_app.
    + rewrite bool_decide_false in Hc1 by done. rewrite session_writes_closed by done.
      assert (fifo_fd sub1 = -1) as Hm1 by (destruct Hfd1 as [[? _]|[? _]]; done).
      assert (fifo_fd sub2 ≠ fifo_fd sub) as Hne2.
      { rewrite Hm1 in Hfd2. destruct Hfd2 as [[-> _]|[-> _]]; congruence. }
      rewrite forallb_app, Hc1, bool_decide_false by done.
      split_and!; [done|by apply prefix_app_r|done].
Qed.

Lemma deliver_list_facts pending sub w :
  fifo_fd sub = -1 ∨ is_open w (fifo_fd sub) →
  delivered pending sub w (deliver_list pending sub w).1 (deliver_list pending sub w).2 ∧
  next_offset (deliver_list pending sub w).1 = next_offset sub + zlen pending.
Proof.
  revert sub w. induction pending as [|m pending IH]; intros sub w Hfd; simpl.
  { split; [by apply delivered_nil|]. rewrite zlen_nil. lia. }
  pose proof (deliver_ref_facts m sub w Hfd) as Hd. destruct (deliver_ref_same m sub w) as (_ & _ & Hn).
  destruct (deliver_ref m sub w) as [sub1 w1]; simpl in *.
  destruct (IH (with_next (next_offset sub1 + 1) sub1) w1) as [Hd2 Hn2]; simpl in *.
  { destruct Hd as (_ & _ & _ & [[-> ?]|[? _]] & _); [done|by left]. }
  split.
  - by apply (delivered_trans [m] _ _ _ sub1 w1 (next_offset sub1 + 1)).
  - rewrite Hn2, Hn, zlen_cons. lia.
Qed.

(** ** What is due *)

Lemma expected_append p start next msgs m :
  0 ≤ start → next = start ∨ next ≤ zlen msgs →
  expected p start next (msgs ++ [m]) = expected p start next msgs.
Proof.
  intros Hs Hn. unfold expected. do 2 f_equal. destruct Hn as [->|Hn].
  { by rewrite Z.sub_diag. }
  destruct (decide (next ≤ start)) as [Hle|Hgt].
  { by replace (Z.to_nat (next - start)) with 0%nat by lia. }
  unfold zlen in Hn. rewrite drop_app_le by lia. apply take_app_le. rewrite length_drop. lia.
Qed.

Lemma expected_advance p start next msgs :
  0 ≤ start ≤ next →
  expected p start (next + zlen (drop (Z.to_nat next) msgs)) msgs =
  expected p start next msgs ++ (frame <$> filter (wanted p) (drop (Z.to_nat next) msgs)).
Proof.
  intros Hs. unfold expected. rewrite <- fmap_app, <- filter_app. do 2 f_equal.
  set (l := drop (Z.to_nat start) msgs).
  assert (drop (Z.to_nat next) msgs = drop (Z.to_nat (next - start)) l) as ->.
  { unfold l. rewrite drop_drop. f_equal. lia. }
  rewrite take_drop. unfold zlen. rewrite length_drop. apply take_ge. lia.
Qed.

(** ** Tables of subscribers and registrations *)

Lemma subs_wf_touches T M w w' :
  subs_wf M w → touches T w w' → (∀ x, T x → ¬ owns M x) → subs_wf M w'.
Proof.
  intros [Hid Hn Hfd Hinj] (tr & _ & Ht) HT. split; [done|done| |done].
  intros id s Hs. destruct (Hfd id s Hs) as [|[Hpos Ho]]; [by left|].
  right. split; [done|]. apply Ht; [|done]. intros HTx. apply (HT _ HTx).
  exists id, s. split_and!; [done|done|lia].
Qed.

Lemma subs_wf_delete M w id : subs_wf M w → subs_wf (delete id M) w.
Proof.
  intros [Hid Hn Hfd Hinj]. split; intros *; rewrite ?lookup_delete_Some; naive_solver.
Qed.

Lemma subs_wf_insert M w id s :
  subs_wf M w → client_id s = id → u32 (next_offset s) →
  fifo_fd s = -1 ∨ (0 ≤ fifo_fd s ∧ is_open w (fifo_fd s) ∧ ¬ owns (delete id M) (fifo_fd s)) →
  subs_wf (<[id:=s]> M) w.
Proof.
  intros [Hid Hn Hfd Hinj] Hs Hnext Hopen.
  assert (∀ id' s', M !! id' = Some s' → id' ≠ id → fifo_fd s' = fifo_fd s → fifo_fd s = -1) as Hne.
  { intros id' s' Hs' Hne Heq. destruct Hopen as [|(Hpos & _ & Hno)]; [done|]. destruct Hno.
    exists id', s'. rewrite lookup_delete_ne by done. split_and!; [done|done|lia]. }
  split.
  - intros id' s'. rewrite lookup_insert_Some. naive_solver.
  - intros id' s'. rewrite lookup_insert_Some. naive_solver.
  - intros id' s'. rewrite lookup_insert_Some. intros [[<- <-]|[_ ?]]; [tauto|eauto].
  - intros id1 s1 id2 s2. rewrite !lookup_insert_Some.
    intros [[<- <-]|[Hn1 Hs1]] [[<- <-]|[Hn2 Hs2]] Heq Hm1; [done| | |by eapply Hinj].
    + destruct Hm1. eapply Hne; eauto.
    + destruct Hm1. rewrite Heq. eapply Hne; eauto.
Qed.

(** No other subscriber has the descriptor of [s]. *)
Lemma subs_wf_not_shared M w id s :
  subs_wf M w → M !! id = Some s → ∀ x, x = fifo_fd s ∧ x ≠ -1 → ¬ owns (delete id M) x.
Proof.
  intros Hw Hs x [-> Hx] (id' & s' & [Hne Hs']%lookup_delete_Some & Heq & _). destruct Hne.
  by eapply (subs_fd_inj _ _ Hw id s id' s').
Qed.

Lemma subs_wf_delivered M w id s l s' w' :
  subs_wf M w → M !! id = Some s → delivered l s w s' w' → u32 (next_offset s') →
  subs_wf (<[id:=s']> M) w'.
Proof.
  intros Hw Hs (Hid & _ & Ht & Hfd & _) Hn. rewrite <- insert_delete_eq.
  apply subs_wf_insert; [| |done|].
  - eapply subs_wf_touches; [by apply subs_wf_delete|exact Ht|]. by eapply subs_wf_not_shared.
  - rewrite Hid. by eapply subs_id.
  - rewrite delete_delete_eq. destruct (subs_fd _ _ Hw id s Hs) as [He|[Hpos _]].
    { destruct Hfd as [[-> _]|[-> _]]; auto. }
    destruct Hfd as [[-> [He|Ho]]|[-> _]]; auto. right. split_and!; [done|done|].
    apply (subs_wf_not_shared _ _ _ _ Hw Hs). split; [done|lia].
Qed.

Lemma spec_remove_elem p id (regs : list PrefixTree.registration) r :
  NoDup regs → r ∈ PrefixTree.spec_remove p id regs ↔ r ∈ regs ∧ r ≠ (p, id).
Proof.
  induction 1 as [|x regs Hx Hnd IH]; simpl; [set_solver|].
  destruct (decide (x = (p, id))) as [->|]; [|set_solver].
  rewrite elem_of_cons. split; [|tauto]. intros Hr. split; [by right|]. by intros ->.
Qed.

Lemma spec_remove_nodup p id (regs : list PrefixTree.registration) :
  NoDup regs → NoDup (PrefixTree.spec_remove p id regs).
Proof.
  induction 1 as [|x regs Hx Hnd IH]; simpl; [constructor|].
  case_decide; [done|]. constructor; [|done]. rewrite spec_remove_elem by done. tauto.
Qed.

Lemma registers_insert M regs id s :
  M !! id = None → registers M regs →
  registers (<[id:=s]> M) (PrefixTree.spec_insert (sub_prefix s) id regs).
Proof.
  intros HM [Hnd Hr]. unfold PrefixTree.spec_insert. split.
  - apply NoDup_app. split_and!; [done| |apply NoDup_singleton].
    intros [p id'] Hin Hx. apply list_elem_of_singleton in Hx as [= -> ->].
    apply Hr in Hin as (s' & Hs' & _). congruence.
  - intros p id'. rewrite elem_of_app, list_elem_of_singleton, Hr.
    setoid_rewrite lookup_insert_Some. split.
    + intros [(s' & Hs' & Hp)|[= -> ->]]; [|by eauto].
      exists s'. split; [right; split; congruence|done].
    + intros (s' & [[-> ->]|[? ?]] & <-); [by right|left; eauto].
Qed.

Lemma registers_delete M regs id s :
  M !! id = Some s → registers M regs →
  registers (delete id M) (PrefixTree.spec_remove (sub_prefix s) id regs).
Proof.
  intros HM [Hnd Hr]. split; [by apply spec_remove_nodup|].
  intros p id'. rewrite spec_remove_elem, Hr by done. setoid_rewrite lookup_delete_Some.
  split.
  - intros [(s' & Hs' & <-) Hne]. exists s'. split_and!; [|done|done]. intros <-. congruence.
  - intros (s' & [Hne Hs'] & <-). split; [eauto|]. congruence.
Qed.

Lemma registers_update M regs id s s' :
  M !! id = Some s → sub_prefix s' = sub_prefix s → registers M regs →
  registers (<[id:=s']> M) regs.
Proof.
  intros HM Hp [Hnd Hr]. split; [done|]. intros p id'. rewrite Hr.
  setoid_rewrite lookup_insert_Some. split.
  - intros (x & Hx & <-). destruct (decide (id = id')) as [<-|]; [|eauto].
    exists s'. split; [auto|congruence].
  - intros (x & [[<- <-]|[? ?]] & <-); eauto.
Qed.

Lemma registered_answers tree regs M w id s :
  index_represents tree regs → registers M regs → subs_wf M w → M !! id = Some s →
  answers_for tree s.
Proof.
  intros Hi [_ Hr] Hw Hs k. exists (PrefixTree.spec_match k regs).
  split; [by apply index_match_represents|]. rewrite (subs_id _ _ Hw id s Hs).
  rewrite PrefixTree.elem_of_spec_match. setoid_rewrite Hr. split.
  - intros (p & Hp & s' & Hs' & <-). congruence.
  - intros Hp. eauto.
Qed.

(** ** Operations *)

Lemma find_subs this id :
  HashMap.wf (subscribers this) → HashMap.find id (subscribers this) = subs this !! id.
Proof. apply HashMap.find_to_map. Qed.

Lemma drop_subscriber_facts this w id s :
  wf this w → subs this !! id = Some s →
  ∃ this' w', drop_subscriber id s this w = Done (this', w') ∧ wf this' w' ∧
    subs this' = delete id (subs this) ∧ messages this' = messages this ∧
    stop_flag this' = stop_flag this ∧ worker_running this' = worker_running this ∧
    touches (λ x, x = fifo_fd s ∧ x ≠ -1) w w'.
Proof.
  intros [Ht Hs (regs & Hi & Hr) Hm] Hid. unfold drop_subscriber.
  destruct (index_remove_represents (sub_prefix s) id _ regs Hi) as (tree & -> & Hi'). simpl.
  eexists _, _; split; [done|].
  assert (touches (λ x, x = fifo_fd s ∧ x ≠ -1) w
            (if negb (fifo_fd s =? -1) then close_ (fifo_fd s) w else w)) as Htouch.
  { destruct (Z.eqb_spec (fifo_fd s) (-1)); simpl; [apply touches_refl|].
    eapply touches_weaken; [|apply touches_close]. simpl. intros x ->. done. }
  assert (subs (with_subscribers tree (HashMap.erase id (subscribers this)).2 this) =
          delete id (subs this)) as Hsubs by (by apply HashMap.to_map_erase).
  split_and!; [|done..]. split.
  - by apply HashMap.wf_erase.
  - rewrite Hsubs. apply (subs_wf_touches (λ x, x = fifo_fd s ∧ x ≠ -1) _ w);
      [by apply subs_wf_delete|done|by eapply subs_wf_not_shared].
  - exists (PrefixTree.spec_remove (sub_prefix s) id regs). split; [done|].
    rewrite Hsubs. by apply registers_delete.
  - done.
Qed.

Lemma remove_subscriber_facts this w id :
  wf this w →
  ∃ this' w', remove_subscriber id this w =
    Done (bool_decide (is_Some (subs this !! id)), this', w') ∧ wf this' w' ∧
    subs this' = delete id (subs this) ∧ messages this' = messages this ∧
    stop_flag this' = stop_flag this ∧ worker_running this' = worker_running this ∧
    touches (λ x, ∃ s, subs this !! id = Some s ∧ x = fifo_fd s ∧ x ≠ -1) w w'.
Proof.
  intros Hwf. unfold remove_subscriber. rewrite find_subs by apply Hwf.
  destruct (subs this !! id) as [s|] eqn:Hs.
  - destruct (drop_subscriber_facts this w id s Hwf Hs) as (this' & w' & -> & ? & ? & ? & ? & ? & Ht).
    exists this', w'. split_and!; [done..|]. eapply touches_weaken; [|exact Ht]. eauto.
  - exists this, w. split_and!; try done; [by rewrite delete_id|apply touches_refl].
Qed.

(** What [add_subscriber] leaves after the old subscription is dropped. *)
Lemma add_subscriber_facts this w id p path start :
  wf this w → u32 start →
  ∃ b this' w', add_subscriber id p path start this w = Done (b, this', w') ∧ wf this' w' ∧
    messages this' = messages this ∧
    stop_flag this' = stop_flag this ∧ worker_running this' = worker_running this ∧
    touches (λ x, ∃ s, subs this !! id = Some s ∧ x = fifo_fd s ∧ x ≠ -1) w w' ∧
    if b then
      ∃ fd, 0 ≤ fd ∧ is_open w' fd ∧ ¬ owns (delete id (subs this)) fd ∧
            (is_open w fd → ∃ s, subs this !! id = Some s ∧ fifo_fd s = fd) ∧
            subs this' = <[id := mkSubscriber id p path fd start]> (subs this)
    else subs this' = delete id (subs this).
Proof.
  intros Hwf Hstart. unfold add_subscriber. rewrite find_subs by apply Hwf.
  set (T := λ x, ∃ s, subs this !! id = Some s ∧ x = fifo_fd s ∧ x ≠ -1).
  assert (∃ this1 w1, match subs this !! id with
                      | Some old_sub => drop_subscriber id old_sub this w
                      | None => mret (this, w)
                      end = Done (this1, w1) ∧ wf this1 w1 ∧
            subs this1 = delete id (subs this) ∧ messages this1 = messages this ∧
            stop_flag this1 = stop_flag this ∧ worker_running this1 = worker_running this ∧
            touches T w w1) as (this1 & w1 & -> & Hwf1 & Hs1 & Hm1 & Hf1 & Hr1 & Ht1).
  { destruct (subs this !! id) as [s|] eqn:Hs.
    - destruct (drop_subscriber_facts this w id s Hwf Hs) as (this1 & w1 & -> & ? & ? & ? & ? & ? & Ht).
      exists this1, w1. split_and!; [done..|]. eapply touches_weaken; [|exact Ht]. unfold T. eauto.
    - exists this, w. split_and!; try done; [by rewrite delete_id|apply touches_refl]. }
  simpl. pose proof (touches_open path O_WRONLY_NONBLOCK w1) as Ht2.
  pose proof (open_result path O_WRONLY_NONBLOCK w1) as Hopen.
  destruct (open_ path O_WRONLY_NONBLOCK w1) as [fd w2]; simpl in *.
  assert (touches T w w2) as Ht.
  { apply (touches_trans _ _ w1); [done|]. by eapply touches_weaken; [|exact Ht2]. }
  pose proof (subs_wf_touches _ _ _ _ (wf_subs _ _ Hwf1) Ht2 ltac:(tauto)) as Hsubs2.
  destruct Hwf1 as [Htab1 Hsubs1 (regs & Hi & Hr) Hmsg]. destruct (Z.eqb_spec fd (-1)) as [->|Hfd].
  - exists false, this1, w2. split_and!; try done. split; eauto.
  - destruct Hopen as [[? _]|(Hpos & Hnew & Ho)]; [done|].
    assert (is_open w2 fd) as Hfdo by (apply Ho; auto).
    assert (¬ owns (delete id (subs this)) fd) as Hno.
    { intros (id' & s' & Hs' & Heq & _). rewrite <- Hs1 in Hs'. destruct Hnew.
      destruct (subs_fd _ _ Hsubs1 id' s' Hs') as [|[_ ?]]; [lia|]. by rewrite <- Heq. }
    assert (is_open w fd → ∃ s, subs this !! id = Some s ∧ fifo_fd s = fd) as Hold.
    { intros Hw. destruct Ht1 as (tr & _ & Ht1). destruct (subs this !! id) as [s|] eqn:Hs.
      - exists s. split; [done|]. destruct (decide (fifo_fd s = fd)); [done|]. destruct Hnew.
        apply Ht1; [|done]. intros (s' & Hs' & -> & _). congruence.
      - destruct Hnew. apply Ht1; [|done]. intros (s' & Hs' & _). congruence. }
    set (sub := mkSubscriber id p path fd start).
    destruct (HashMap.insert_facts (subscribers this1) id sub Htab1) as (Htab & _ & Hmap).
    change (HashMap.to_map (subscribers this1)) with (subs this1) in Hmap.
    rewrite Hs1, lookup_delete_eq in Hmap. simpl in Hmap. rewrite insert_delete_eq in Hmap.
    eexists true, _, _. split; [done|]. split_and!; try done; [|by exists fd].
    split; [done| | |done]; unfold subs; simpl; rewrite Hmap.
    + rewrite <- insert_delete_eq, <- Hs1. apply subs_wf_insert; simpl; try done.
      right. split_and!; [done|done|]. by rewrite Hs1, delete_delete_eq.
    + eexists. split; [by apply index_insert_represents|].
      rewrite <- insert_delete_eq, <- Hs1. apply (registers_insert _ _ id sub); [|done].
      rewrite Hs1. apply lookup_delete_eq.
Qed.

(** ** Sessions *)

Lemma next_of_drop next (msgs : list Message) :
  0 ≤ next → next + zlen (drop (Z.to_nat next) msgs) = Z.max next (zlen msgs).
Proof. intros Hn. unfold zlen. rewrite length_drop. lia. Qed.

Lemma in_session_append id p fd start n0 M msgs m w :
  in_session id p fd start n0 M msgs w → in_session id p fd start n0 M (msgs ++ [m]) w.
Proof.
  intros (s & Hs & Hp & Hst & Hn & Hlen & Hc). exists s. rewrite expected_append by tauto.
  split_and!; [done|done|lia|lia| |done|done].
  autorewrite with treenity_len. lia.
Qed.

Lemma in_session_quiet T id p fd start n0 M M' msgs w w' :
  in_session id p fd start n0 M msgs w → subs_wf M w → 0 ≤ fd → M' !! id = M !! id →
  touches T w w' → (∀ s, M !! id = Some s → fifo_fd s = fd → ¬ T fd) →
  in_session id p fd start n0 M' msgs w'.
Proof.
  intros (s & Hs & Hp & Hst & Hn & Hlen & Hc) Hw Hfd HM (tr & Htr & Ht) HT.
  exists s. rewrite HM, Htr, length_app, drop_app_le by lia. split_and!; [done|done|lia|lia|done|lia|]. simpl.
  destruct Hc as [(He & Hcl & Hsent & Hpos)|(He & Hcl & Hsent)].
  - left. destruct (Ht fd (HT s Hs He)) as [_ Hq].
    { destruct (subs_fd _ _ Hw id s Hs) as [|[_ Ho]]; [lia|]. by rewrite <- He. }
    destruct (session_writes_quiet fd tr Hq) as [Hq1 Hq2].
    rewrite session_writes_app, Hq1, app_nil_r, forallb_app, Hcl, Hq2 by done. done.
  - right. rewrite session_writes_closed, forallb_app, Hcl by done. done.
Qed.

Lemma in_session_delivered id p fd start n0 M msgs w s s' w' :
  in_session id p fd start n0 M msgs w → 0 ≤ fd → M !! id = Some s →
  delivered (drop (Z.to_nat (next_offset s)) msgs) s w s' w' →
  next_offset s' = next_offset s + zlen (drop (Z.to_nat (next_offset s)) msgs) →
  in_session id p fd start n0 (<[id:=s']> M) msgs w'.
Proof.
  intros (s0 & Hs & Hp & Hst & Hn & Hlen & Hc) Hfd HM Hd Hnext. rewrite Hs in HM.
  injection HM as ->. destruct Hd as (_ & Hp' & _ & Hfd' & tr & Htr & Hcl' & Hd).
  exists s'. rewrite lookup_insert_eq, Htr, length_app, drop_app_le by lia.
  rewrite Hnext, expected_advance, <- Hp by lia. zlen_facts.
  split_and!; [done|congruence|lia|lia| |lia|]; simpl.
  { rewrite next_of_drop by lia. lia. }
  destruct Hc as [(He & Hcl & Hsent & Hpos)|(He & Hcl & Hsent)].
  - rewrite He in Hd, Hfd'. destruct (Hd ltac:(lia)) as (Hcl2 & Hpre & Hok).
    rewrite session_writes_app, !fmap_app, forallb_app, Hcl, Hcl2, Hsent, Hp by done.
    destruct (decide (fifo_fd s' = fd)) as [He'|He'].
    + left. rewrite bool_decide_true by done. destruct (Hok He') as [-> Hpos2]. rewrite Hp.
      split_and!; [done|done|done|]. by apply Forall_app.
    + right. rewrite bool_decide_false by done. rewrite <- Hp in *.
      split_and!; [|done|by apply prefix_app]. destruct Hfd' as [[? _]|[? _]]; done.
  - rewrite Hcl' by done. rewrite app_nil_r, Hp. right. split_and!; [|done|].
    + destruct Hfd' as [[-> _]|[? _]]; done.
    + by apply prefix_app_r.
Qed.

(** A subscription starts its session when it is added. *)
Lemma in_session_start id p path fd start M msgs w :
  u32 start →
  in_session id p fd start (length (trace w))
    (<[id := mkSubscriber id p path fd start]> M) msgs w.
Proof.
  intros [Hs _]. eexists. rewrite lookup_insert_eq. split; [done|]. simpl.
  rewrite drop_all. split_and!; [done|lia|lia|by left|done|]. left.
  unfold expected. rewrite Z.sub_diag. split_and!; done || constructor.
Qed.

(** ** The worker *)

Record pass_result (M : gmap str ActiveSubscriber) (msgs : list Message) (w : world)
    (M' : gmap str ActiveSubscriber) (w' : world) : Prop := {
  pass_touches : touches (owns M) w w';
  pass_dom : dom M' = dom M;
  pass_caught_up id s s' :
    M !! id = Some s → M' !! id = Some s' →
    sub_prefix s' = sub_prefix s ∧ next_offset s' = Z.max (next_offset s) (zlen msgs) ∧
    (fifo_fd s' = fifo_fd s ∨ fifo_fd s' = -1);
  pass_session id p fd start n0 :
    0 ≤ fd → in_session id p fd start n0 M msgs w → in_session id p fd start n0 M' msgs w'
}.

(** Inside a pass that started with [M0]: the subscribers of [X] have been served. *)
Record passing (M0 : gmap str ActiveSubscriber) (regs : list PrefixTree.registration) (msgs : list Message)
    (w : world) (X : gset str) (M : gmap str ActiveSubscriber) (w' : world) : Prop := {
  passing_wf : subs_wf M w';
  passing_registers : registers M regs;
  passing_touches : touches (owns M0) w w';
  passing_dom : dom M = dom M0;
  passing_out id : id ∉ X → M !! id = M0 !! id;
  passing_in id s s' :
    id ∈ X → M0 !! id = Some s → M !! id = Some s' →
    sub_prefix s' = sub_prefix s ∧ next_offset s' = Z.max (next_offset s) (zlen msgs) ∧
    (fifo_fd s' = fifo_fd s ∨ fifo_fd s' = -1);
  passing_session id p fd start n0 :
    0 ≤ fd → in_session id p fd start n0 M0 msgs w → in_session id p fd start n0 M msgs w'
}.

Lemma passing_step tree M0 regs msgs w X M w1 id s :
  passing M0 regs msgs w X M w1 → index_represents tree regs → zlen msgs < 2 ^ 32 →
  M !! id = Some s → id ∉ X →
  ∃ s' w2, deliver (S (length msgs)) msgs tree s w1 = Done (s', w2) ∧
    passing M0 regs msgs w ({[id]} ∪ X) (<[id := s']> M) w2.
Proof.
  intros [Hw1 Hr1 Ht1 Hdom1 Hout Hin Hses] Hi Hlen Hs Hid.
  pose proof (subs_next _ _ Hw1 id s Hs) as Hnext.
  assert (answers_for tree s) as Hans by (by eapply registered_answers).
  rewrite deliver_is_deliver_list by (done || lia).
  destruct (deliver_list_facts (drop (Z.to_nat (next_offset s)) msgs) s w1) as [Hd Hn].
  { destruct (subs_fd _ _ Hw1 id s Hs) as [|[_ ?]]; auto. }
  set (r := deliver_list _ s w1) in *. exists r.1, r.2. split; [by destruct r|].
  pose proof Hd as (Hcid & Hp & Ht & Hfd & _).
  assert (next_offset r.1 = Z.max (next_offset s) (zlen msgs)) as Hmax
    by (rewrite Hn, next_of_drop; [done|apply Hnext]).
  assert (M0 !! id = Some s) as Hs0 by (by rewrite <- Hout).
  split.
  - apply (subs_wf_delivered _ w1 id s (drop (Z.to_nat (next_offset s)) msgs)); [done..|].
    unfold u32 in *. lia.
  - by eapply registers_update.
  - apply (touches_trans _ _ w1); [done|]. eapply touches_weaken; [|exact Ht].
    intros x [-> Hx]. by exists id, s.
  - rewrite dom_insert_L, Hdom1. apply elem_of_dom_2 in Hs0. set_solver.
  - intros id' Hid'. rewrite lookup_insert_ne by set_solver. apply Hout. set_solver.
  - intros id' s1 s2 Hin' Hs1 Hs2. destruct (decide (id' = id)) as [->|Hne].
    + rewrite lookup_insert_eq in Hs2. simplify_eq. split_and!; [done|done|].
      destruct Hfd as [[? _]|[? _]]; auto.
    + rewrite lookup_insert_ne in Hs2 by done. apply (Hin id'); [set_solver|done|done].
  - intros id' p fd start n0 Hfd0 Hses0. specialize (Hses id' p fd start n0 Hfd0 Hses0).
    destruct (decide (id' = id)) as [->|Hne].
    + by apply (in_session_delivered _ _ _ _ _ M _ w1 s).
    + eapply in_session_quiet; [exact Hses|exact Hw1|done|by rewrite lookup_insert_ne|exact Ht|].
      intros s' Hs' <- [Heq Hx]. destruct Hne. by eapply (subs_fd_inj _ _ Hw1 id' s' id s).
Qed.

Lemma pass_facts this w :
  wf this w → zlen (messages this) < 2 ^ 32 → stop_flag this = false →
  ∃ subs' w', pass this w = Done (with_subscribers (prefix_tree this) subs' this, w') ∧
    wf (with_subscribers (prefix_tree this) subs' this) w' ∧
    pass_result (subs this) (messages this) w (HashMap.to_map subs') w'.
Proof.
  intros [Htab Hsubs (regs & Hi & Hr) Hmsg] Hlen Hstop. unfold pass. rewrite Hstop.
  set (msgs := messages this) in *.
  destruct (HashMap.for_each_rule
    (λ _ sub w, deliver (S (length msgs)) msgs (prefix_tree this) sub w)
    (passing (subs this) regs msgs w)
    (subscribers this) w Htab) as (subs' & w' & Hrun & Htab' & Hdom & HP).
  - split; try done. apply touches_refl.
  - intros X M w1 id s HP Hs Hid. by apply passing_step.
  - rewrite Hrun. simpl. destruct HP as [Hw' Hr' Ht' Hdom' _ Hin Hses].
    eexists subs', w'. split; [done|]. split.
    + split; [done|done|by exists regs|done].
    + split; [done|done| |done]. intros id s s' Hs Hs'. apply (Hin id s s'); [|done|done].
      apply elem_of_dom. eauto.
Qed.

(** ** Steps *)

Lemma isolated_shrink M w M' w' :
  touches (owns M) w w' → (∀ x, owns M' x → owns M x) → isolated M w M' w'.
Proof. intros Ht Ho. split; [done|]. intros x _ Hn Hx. auto. Qed.

Lemma isolated_trans M1 w1 M2 w2 M3 w3 :
  isolated M1 w1 M2 w2 → isolated M2 w2 M3 w3 → isolated M1 w1 M3 w3.
Proof.
  intros [(tr1 & E1 & T1) O1] [(tr2 & E2 & T2) O2]. split.
  - exists (tr1 ++ tr2). rewrite E2, E1, (assoc_L (++)). split; [done|]. intros x Hn Hx.
    destruct (T1 x Hn Hx) as [Hx1 Hq1]. destruct (T2 x (O1 x Hx Hn) Hx1) as [Hx2 Hq2].
    split; [done|]. by apply Forall_app.
  - intros x Hx Hn. destruct (T1 x Hn Hx) as [Hx1 _]. apply O2; auto.
Qed.

Lemma owns_delete id M x : owns (delete id M) x → owns M x.
Proof. intros (id' & s & [_ Hs]%lookup_delete_Some & ?). by exists id', s. Qed.

Lemma pass_result_owns M msgs w M' w' x :
  pass_result M msgs w M' w' → owns M' x → owns M x.
Proof.
  intros Hr (id & s' & Hs' & Hfd & Hx).
  assert (is_Some (M !! id)) as [s Hs].
  { apply elem_of_dom. rewrite <- (pass_dom _ _ _ _ _ Hr). apply elem_of_dom. eauto. }
  destruct (pass_caught_up _ _ _ _ _ Hr id s s' Hs Hs') as (_ & _ & [?|?]); [|congruence].
  exists id, s. split_and!; [done|congruence|done].
Qed.

Lemma has_work_iff this :
  HashMap.wf (subscribers this) →
  has_work this = true ↔
  stop_flag this = true ∨ ∃ id s, subs this !! id = Some s ∧ next_offset s < zlen (messages this).
Proof.
  intros Ht. unfold has_work. rewrite orb_true_iff, existsb_exists. f_equiv. split.
  - intros ([id s] & Hin%list_elem_of_In & Hlt%Z.ltb_lt). apply HashMap.entries_elem_of in Hin; [|done].
    rewrite find_subs in Hin by done. by exists id, s.
  - intros (id & s & Hs & Hlt). exists (id, s). split; [|by apply Z.ltb_lt].
    apply list_elem_of_In, HashMap.entries_elem_of; [done|]. by rewrite find_subs.
Qed.

Lemma has_work_false this id s :
  HashMap.wf (subscribers this) → has_work this = false → subs this !! id = Some s →
  zlen (messages this) ≤ next_offset s.
Proof.
  intros Ht Hw Hs. apply Z.nlt_ge. intros Hlt. apply not_true_iff_false in Hw.
  apply Hw, has_work_iff; eauto.
Qed.

(** There is no more work for fewer subscribers. *)
Lemma has_work_fewer this this' :
  HashMap.wf (subscribers this) → HashMap.wf (subscribers this') →
  stop_flag this' = stop_flag this → messages this' = messages this → subs this' ⊆ subs this →
  has_work this' = true → has_work this = true.
Proof.
  intros Ht Ht' Hst Hm Hsub. rewrite !has_work_iff by done. rewrite Hst, Hm.
  intros [?|(id & s & Hs & ?)]; [by left|right]. exists id, s. split; [|done].
  by eapply lookup_weaken.
Qed.

Lemma run_step_facts this w :
  wf this w → zlen (messages this) < 2 ^ 32 →
  ∃ this' w', run_step this w = Done (this', w') ∧ wf this' w' ∧
    messages this' = messages this ∧ stop_flag this' = stop_flag this ∧
    worker_running this' = worker_running this && negb (stop_flag this) ∧
    isolated (subs this) w (subs this') w' ∧
    (worker_running this = true → stop_flag this = false →
     ∀ id s', subs this' !! id = Some s' → zlen (messages this) ≤ next_offset s') ∧
    (∀ id p fd start n0, 0 ≤ fd → in_session id p fd start n0 (subs this) (messages this) w →
       in_session id p fd start n0 (subs this') (messages this') w').
Proof.
  intros Hwf Hlen. unfold run_step.
  destruct (worker_running this) eqn:Hrun; simpl.
  2: { exists this, w. rewrite Hrun. split_and!; try done.
       apply isolated_shrink; [apply touches_refl|done]. }
  destruct (stop_flag this) eqn:Hstop; simpl.
  - unfold has_work, pass. rewrite Hstop. simpl. eexists _, _. split; [done|].
    split; [by destruct Hwf|]. split_and!; try done.
    apply isolated_shrink; [apply touches_refl|done].
  - destruct (has_work this) eqn:Hwork.
    + destruct (pass_facts this w Hwf Hlen Hstop) as (subs' & w' & -> & Hwf' & Hr).
      eexists _, _. split; [done|]. split_and!; try done.
      * apply isolated_shrink; [apply Hr|]. intros x. by eapply pass_result_owns.
      * intros _ _ id s' Hs'.
        assert (is_Some (subs this !! id)) as [s Hs].
        { apply elem_of_dom. rewrite <- (pass_dom _ _ _ _ _ Hr). apply elem_of_dom. eauto. }
        destruct (pass_caught_up _ _ _ _ _ Hr id s s' Hs Hs') as (_ & -> & _). lia.
      * intros *. apply (pass_session _ _ _ _ _ Hr).
    + exists this, w. split_and!; try done.
      * apply isolated_shrink; [apply touches_refl|done].
      * intros _ _ id s Hs. by eapply has_work_false; [apply Hwf|..].
Qed.

Lemma run_step_ids this w this' w' id :
  wf this w → zlen (messages this) < 2 ^ 32 → run_step this w = Done (this', w') →
  is_Some (subs this' !! id) → is_Some (subs this !! id).
Proof.
  intros Hwf Hlen. unfold run_step.
  destruct (worker_running this && has_work this); [|by intros [= <- <-]].
  destruct (stop_flag this) eqn:Hstop.
  - unfold pass. rewrite Hstop. by intros [= <- <-].
  - destruct (pass_facts this w Hwf Hlen Hstop) as (subs' & w2 & -> & _ & Hr).
    intros [= <- <-]. rewrite <- !elem_of_dom. by rewrite <- (pass_dom _ _ _ _ _ Hr).
Qed.

(** The worker only writes and closes. *)
Lemma deliver_respects R `{!Respects R} fuel msgs tree sub w sub' w' :
  deliver fuel msgs tree sub w = Done (sub', w') → R w w'.
Proof.
  revert sub w. induction fuel as [|fuel IH]; intros sub w; simpl; [done|].
  destruct (negb _); [by intros [= _ <-]|].
  intros (m & _ & ([sub1 w1] & Hone & Hrest)%bind_Done)%bind_Done.
  transitivity w1; [|by eapply IH]. revert Hone. unfold deliver_one.
  intros (clients & _ & Hone)%bind_Done. destruct (_ && _); [|by injection Hone as _ <-].
  pose proof (respects_write (R := R) (fifo_fd sub)
    (Protocol.serialize_delivery (offset m) (key m) (value m)) w) as Hwr.
  destruct (write_ _ _ w) as [ret w2]; simpl in Hwr.
  destruct (ret <=? 0); injection Hone as _ <-; [|done].
  transitivity w2; [done|apply respects_close].
Qed.

Lemma run_step_respects R `{!Respects R} this w this' w' :
  run_step this w = Done (this', w') → R w w'.
Proof.
  unfold run_step, pass. destruct (_ && _); [|by intros [= _ <-]].
  destruct (stop_flag this); [by intros [= _ <-]|].
  intros ([subs' w1] & Hloop & [= _ <-])%bind_Done. revert Hloop.
  apply HashMap.for_each_preorder; [apply _|]. intros id s w2 s' w3. by apply deliver_respects.
Qed.

Lemma shutdown_respects R `{!Respects R} this w this' w' :
  shutdown this w = Done (this', w') → R w w'.
Proof.
  unfold shutdown. destruct (stop_flag this); [by intros [= _ <-]|].
  intros ([this1 w1] & Hoff & Hstep)%bind_Done. transitivity w1; [|by eapply (run_step_respects R)].
  apply bind_Done in Hoff as ([subs' wa] & Hloop & [= _ <-]). revert Hloop.
  apply HashMap.for_each_preorder; [apply _|]. intros id s w2 s' w3. unfold send_sentinel. destruct (negb _); [|by intros [= _ <-]].
  pose proof (respects_write (R := R) (fifo_fd s) Protocol.serialize_shutdown w2) as Hwr.
  destruct (write_ _ _ w2) as [ret w4]; simpl in Hwr. intros [= _ <-].
  transitivity w4; [done|apply respects_close].
Qed.

Lemma drop_subscriber_respects R `{!Respects R} id s this w this' w' :
  drop_subscriber id s this w = Done (this', w') → R w w'.
Proof.
  unfold drop_subscriber. intros ([b tree] & _ & [= _ <-])%bind_Done.
  destruct (negb _); [apply respects_close|done].
Qed.

Lemma remove_subscriber_respects R `{!Respects R} id this w b this' w' :
  remove_subscriber id this w = Done (b, this', w') → R w w'.
Proof.
  unfold remove_subscriber. destruct (HashMap.find id (subscribers this)); [|by intros [= _ _ <-]].
  intros ([this1 w1] & Hdrop & [= _ _ <-])%bind_Done. by eapply (drop_subscriber_respects R).
Qed.

Lemma add_subscriber_respects R `{!RespectsOpen R} id p path start this w b this' w' :
  add_subscriber id p path start this w = Done (b, this', w') → R w w'.
Proof.
  unfold add_subscriber. intros ([this1 w1] & Hdrop & Hadd)%bind_Done. transitivity w1.
  - destruct (HashMap.find id (subscribers this)); [|by injection Hdrop as _ <-].
    by eapply (drop_subscriber_respects R).
  - pose proof (respects_open (R := R) path O_WRONLY_NONBLOCK w1) as Ho.
    destruct (open_ path O_WRONLY_NONBLOCK w1) as [fd w2]; simpl in Ho.
    destruct (fd =? -1); by injection Hadd as _ _ <-.
Qed.

Lemma append_wf k v this w : wf this w → wf (append_message k v this) w.
Proof.
  intros [Ht Hs Hi Hm]. split; [done..|]. intros i m. simpl.
  rewrite lookup_app_Some, list_lookup_singleton_Some.
  intros [?|(Hi1 & Hi2 & <-)]; [eauto|]. simpl. f_equal. unfold zlen. lia.
Qed.

(** *** Shutdown *)

(** The sentinel has been sent on [fd], and [fd] closed. *)
Definition signed_off (fd : Z) (tr : list event) : Prop :=
  ∃ ret, session_writes fd tr = [(Protocol.serialize_shutdown, ret)] ∧
         forallb (negb ∘ closes fd) tr = false.

Lemma signed_off_app fd tr tr' : signed_off fd tr → signed_off fd (tr ++ tr').
Proof.
  intros (ret & Hs & Hc). exists ret. by rewrite session_writes_closed, forallb_app, Hc.
Qed.

Lemma send_sentinel_facts s w :
  let s' := (send_sentinel s w).1 in
  let w' := (send_sentinel s w).2 in
  client_id s' = client_id s ∧ next_offset s' = next_offset s ∧ fifo_fd s' = -1 ∧
  touches (λ x, x = fifo_fd s ∧ x ≠ -1) w w' ∧
  ∃ tr, trace w' = trace w ++ tr ∧ (fifo_fd s ≠ -1 → signed_off (fifo_fd s) tr).
Proof.
  unfold send_sentinel. destruct (Z.eqb_spec (fifo_fd s) (-1)) as [He|Hne]; simpl.
  { split_and!; [done|done|done|apply touches_refl|]. exists []. by rewrite app_nil_r. }
  pose proof (touches_write (fifo_fd s) Protocol.serialize_shutdown w) as Ht.
  pose proof (write_result (fifo_fd s) Protocol.serialize_shutdown w) as [Htr _].
  destruct (write_ (fifo_fd s) Protocol.serialize_shutdown w) as [ret w1]; simpl in *.
  split_and!; [done|done|done| |].
  - apply (touches_trans _ _ w1); [|eapply touches_weaken; [|apply touches_close]];
      [eapply touches_weaken; [|exact Ht]|]; simpl; intros x ->; done.
  - eexists. rewrite Htr, <- (assoc_L (++)). split; [done|]. intros _. exists ret. simpl.
    rewrite decide_True, bool_decide_true by done. simpl. by rewrite decide_True.
Qed.

Lemma signed_off_quiet fd tr tr' :
  Forall (λ e, ¬ about fd e) tr → signed_off fd tr' → signed_off fd (tr ++ tr').
Proof.
  intros Hq (ret & Hs & Hc). destruct (session_writes_quiet fd tr Hq) as [Hq1 Hq2].
  exists ret. by rewrite session_writes_app, forallb_app, Hq1, Hq2, Hc.
Qed.

(** The subscribers of [M0] have been seen off, those of [X] already. *)
Definition seen_off (M0 : gmap str ActiveSubscriber) (w : world) (X : gset str)
    (M : gmap str ActiveSubscriber) (w' : world) : Prop :=
  subs_wf M w' ∧ (∀ id, id ∉ X → M !! id = M0 !! id) ∧
  touches (owns M0) w w' ∧
  ∃ tr, trace w' = trace w ++ tr ∧
    ∀ id s, M0 !! id = Some s → fifo_fd s ≠ -1 →
      if decide (id ∈ X) then signed_off (fifo_fd s) tr
      else Forall (λ e, ¬ about (fifo_fd s) e) tr.

Lemma seen_off_step M0 w X M w1 id s :
  subs_wf M0 w → seen_off M0 w X M w1 → M !! id = Some s → id ∉ X →
  seen_off M0 w ({[id]} ∪ X) (<[id := (send_sentinel s w1).1]> M) (send_sentinel s w1).2.
Proof.
  intros Hw0 (Hw & Hout & Ht & tr & Htr & Hoff) Hs Hid.
  assert (M0 !! id = Some s) as Hs0 by (by rewrite <- Hout).
  destruct (send_sentinel_facts s w1) as (Hcid & Hn & Hfd & Ht2 & tr2 & Htr2 & Hso).
  set (s' := (send_sentinel s w1).1) in *. set (w2 := (send_sentinel s w1).2) in *.
  split_and!.
  - rewrite <- insert_delete_eq. apply subs_wf_insert; [| | |by left].
    + eapply subs_wf_touches; [by apply subs_wf_delete|exact Ht2|]. by eapply subs_wf_not_shared.
    + rewrite Hcid. by eapply subs_id.
    + rewrite Hn. by eapply subs_next.
  - intros id' Hid'. rewrite lookup_insert_ne by set_solver. apply Hout. set_solver.
  - apply (touches_trans _ _ w1); [done|]. eapply touches_weaken; [|exact Ht2].
    intros x [-> Hx]. by exists id, s.
  - exists (tr ++ tr2). rewrite Htr2, Htr, (assoc_L (++)). split; [done|].
    intros id' s1 Hs1 Hfd1. specialize (Hoff id' s1 Hs1 Hfd1).
    destruct (decide (id' = id)) as [->|Hne].
    + rewrite decide_False in Hoff by done. rewrite decide_True by set_solver. simplify_eq.
      apply signed_off_quiet; auto.
    + destruct (decide (id' ∈ X)).
      * rewrite decide_True by set_solver. by apply signed_off_app.
      * rewrite decide_False by set_solver. apply Forall_app. split; [done|].
        destruct Ht2 as (tr2' & Htr2' & Hq). rewrite Htr2 in Htr2'. apply app_inv_head in Htr2' as <-.
        rewrite <- Hout in Hs1 by done. apply Hq.
        -- intros [Heq Hx]. destruct Hne. by eapply (subs_fd_inj _ _ Hw id' s1 id s).
        -- destruct (subs_fd _ _ Hw id' s1 Hs1) as [|[_ ?]]; done.
Qed.

Lemma sign_off_facts this w :
  wf this w →
  ∃ subs' w' tr,
    sign_off this w =
      Done (mkTopic (name this) (messages this) (index_clear (prefix_tree this))
              (HashMap.clear subs') true (worker_running this), w') ∧
    (∀ b, wf (mkTopic (name this) (messages this) (index_clear (prefix_tree this))
                (HashMap.clear subs') true b) w') ∧
    HashMap.to_map (HashMap.clear subs') = ∅ ∧ isolated (subs this) w ∅ w' ∧
    trace w' = trace w ++ tr ∧ ∀ x, owns (subs this) x → signed_off x tr.
Proof.
  intros [Htab Hsubs (regs & Hi & Hr) Hmsg]. unfold sign_off.
  destruct (HashMap.for_each_rule (λ (_ : str) sub w, Done (send_sentinel sub w))
    (seen_off (subs this) w) (subscribers this) w Htab) as (subs' & w' & Hrun & Htab' & Hdom & HP).
  - split_and!; [done|done|apply touches_refl|]. exists []. rewrite app_nil_r. split; [done|].
    intros id s Hs Hfd. rewrite decide_False by set_solver. constructor.
  - intros X M w1 id s HP Hs Hid.
    exists (send_sentinel s w1).1, (send_sentinel s w1).2. split; [by destruct (send_sentinel s w1)|].
    by apply seen_off_step.
  - unfold mret, outcome_ret. rewrite Hrun. simpl. destruct HP as (Hw' & _ & Ht & tr & Htr & Hoff).
    assert (HashMap.to_map (HashMap.clear subs') = ∅) as He by apply HashMap.to_map_clear.
    exists subs', w', tr. split; [done|]. split_and!; [|done| |done|].
    + intros b. split; unfold subs; simpl; [by apply HashMap.wf_clear| | |done].
      * rewrite He. by split.
      * exists []. split; [by eapply index_clear_represents|]. rewrite He.
        split; [constructor|]. intros p id. split; [by intros ?%not_elem_of_nil|].
        intros (s & Hs & _). by rewrite lookup_empty in Hs.
    + apply isolated_shrink; [done|]. intros x (id & s & Hs & _). by rewrite lookup_empty in Hs.
    + intros x (id & s & Hs & <- & Hx). specialize (Hoff id s Hs Hx).
      rewrite decide_True in Hoff; [done|]. rewrite Hdom. apply elem_of_dom. eauto.
Qed.

Lemma shutdown_facts this w :
  wf this w → stop_flag this = false →
  ∃ this' w' tr, shutdown this w = Done (this', w') ∧ wf this' w' ∧
    messages this' = messages this ∧ stop_flag this' = true ∧ worker_running this' = false ∧
    subs this' = ∅ ∧ isolated (subs this) w (subs this') w' ∧
    trace w' = trace w ++ tr ∧ ∀ x, owns (subs this) x → signed_off x tr.
Proof.
  intros Hwf Hstop. unfold shutdown. rewrite Hstop.
  destruct (sign_off_facts this w Hwf) as (subs' & w' & tr & -> & Hwf' & He & Hiso & Htr & Hoff).
  exists (mkTopic (name this) (messages this) (index_clear (prefix_tree this))
            (HashMap.clear subs') true false), w', tr. unfold subs in *. cbn [subscribers]. rewrite He.
  split_and!; try done. cbn [mbind outcome_bind]. unfold run_step, pass, has_work; simpl.
  by destruct (worker_running this).
Qed.

(** *** Any operation *)

Lemma wf_touches T this w w' :
  wf this w → touches T w w' → (∀ x, T x → ¬ owns (subs this) x) → wf this w'.
Proof. intros [? ? ? ?] Ht HT. split; [done|by eapply subs_wf_touches|done|done]. Qed.

Lemma add_subscriber_isolated this w id p path start :
  wf this w → u32 start →
  ∃ b this' w', add_subscriber id p path start this w = Done (b, this', w') ∧ wf this' w' ∧
    messages this' = messages this ∧ isolated (subs this) w (subs this') w' ∧
    ∀ id', is_Some (subs this' !! id') → id' = id ∨ is_Some (subs this !! id').
Proof.
  intros Hwf Hv. destruct (add_subscriber_facts this w id p path start Hwf Hv)
    as (b & this' & w' & Hrun & Hwf' & Hm & _ & _ & Ht & Hb).
  exists b, this', w'. split_and!; [done|done|done| |].
  - split.
    { eapply touches_weaken; [|exact Ht]. intros x (s & Hs & -> & Hx). by exists id, s. }
    intros x Hx Hn (id' & s' & Hs' & Hfd & Hm1). apply Hn. destruct b.
    + destruct Hb as (fd & Hpos & Ho & Hno & Hold & Heq). rewrite Heq in Hs'.
      apply lookup_insert_Some in Hs' as [[<- <-]|[Hne Hs']]; [|by exists id', s'].
      simpl in Hfd. subst x. destruct (Hold Hx) as (s & Hs & Hfd). by exists id, s.
    + rewrite Hb in Hs'. apply lookup_delete_Some in Hs' as [_ Hs']. by exists id', s'.
  - intros id' [s' Hs']. destruct b.
    + destruct Hb as (fd & _ & _ & _ & _ & Heq). rewrite Heq in Hs'.
      apply lookup_insert_Some in Hs' as [[<- _]|[_ ?]]; eauto.
    + rewrite Hb in Hs'. apply lookup_delete_Some in Hs' as [_ ?]. eauto.
Qed.

Lemma remove_subscriber_isolated this w id :
  wf this w →
  ∃ b this' w', remove_subscriber id this w = Done (b, this', w') ∧ wf this' w' ∧
    messages this' = messages this ∧ isolated (subs this) w (subs this') w' ∧
    ∀ id', is_Some (subs this' !! id') → is_Some (subs this !! id').
Proof.
  intros Hwf. destruct (remove_subscriber_facts this w id Hwf)
    as (this' & w' & Hrun & Hwf' & Heq & Hm & _ & _ & Ht).
  eexists _, this', w'. rewrite Heq. split_and!; [done|done|done| |].
  - apply isolated_shrink; [|by intros x ?%owns_delete].
    eapply touches_weaken; [|exact Ht]. intros x (s & Hs & -> & Hx). by exists id, s.
  - intros id' [s Hs]. apply lookup_delete_Some in Hs as [_ ?]. eauto.
Qed.

Lemma run_op_facts o this w :
  wf this w → op_valid o → zlen (messages this) < 2 ^ 32 →
  ∃ this' w', run_op o this w = Done (this', w') ∧ wf this' w' ∧
    zlen (messages this') = zlen (messages this) + appended [o] ∧
    isolated (subs this) w (subs this') w' ∧
    (o ≠ Op_shutdown → serving this → serving this') ∧
    (∀ id p fd start n0, spares id o → 0 ≤ fd →
       in_session id p fd start n0 (subs this) (messages this) w →
       in_session id p fd start n0 (subs this') (messages this') w').
Proof.
  intros Hwf Hv Hlen. pose proof (wf_subs _ _ Hwf) as Hsubs.
  assert (∀ id id' s x, subs this !! id = Some s → fifo_fd s = x → id' ≠ id →
    ¬ (∃ s', subs this !! id' = Some s' ∧ x = fifo_fd s' ∧ x ≠ -1)) as Hother.
  { intros id id' s x Hs Hx Hne (s' & Hs' & Hx' & Hm). destruct Hne.
    eapply (subs_fd_inj _ _ Hsubs id' s' id s); congruence. }
  destruct o as [k v|id p path start|id| |]; simpl.
  - exists (append_message k v this), w. split_and!; [done|by apply append_wf| | |done|].
    + simpl. autorewrite with treenity_len. lia.
    + apply isolated_shrink; [apply touches_refl|done].
    + intros * _ _ Hses. by apply in_session_append.
  - destruct (add_subscriber_facts this w id p path start Hwf Hv)
      as (b & this' & w' & Hadd & Hwf' & Hm & Hst & Hwr & Ht & Hb). rewrite Hadd. simpl.
    exists this', w'. unfold serving. rewrite Hm, Hst, Hwr. split_and!; [done|done|lia| |done|].
    + destruct (add_subscriber_isolated this w id p path start Hwf Hv)
        as (b' & this2 & w2 & Hadd2 & _ & _ & Hiso & _).
      rewrite Hadd in Hadd2. by injection Hadd2 as <- <- <-.
    + intros id' p' fd' start' n0 Hne Hfd Hses.
      eapply in_session_quiet; [exact Hses|done|done| |exact Ht|].
      * destruct b; [destruct Hb as (fd & _ & _ & _ & _ & ->); by rewrite lookup_insert_ne|].
        rewrite Hb. by rewrite lookup_delete_ne.
      * intros s Hs Hx. by eapply Hother.
  - destruct (remove_subscriber_facts this w id Hwf)
      as (this' & w' & -> & Hwf' & Heq & Hm & Hst & Hwr & Ht). simpl.
    exists this', w'. unfold serving. rewrite Hm, Heq, Hst, Hwr. split_and!; [done|done|lia| |done|].
    + apply isolated_shrink; [|by intros x ?%owns_delete].
      eapply touches_weaken; [|exact Ht]. intros x (s & Hs & -> & Hx). by exists id, s.
    + intros id' p' fd' start' n0 Hne Hfd Hses.
      eapply in_session_quiet; [exact Hses|done|done|by rewrite lookup_delete_ne|exact Ht|].
      intros s Hs Hx. by eapply Hother.
  - destruct (run_step_facts this w Hwf Hlen)
      as (this' & w' & -> & Hwf' & Hm & Hst & Hwr & Hiso & _ & Hses).
    exists this', w'. unfold serving. rewrite Hm, Hst, Hwr in *. split_and!; [done|done|lia|done| |].
    + intros _ [-> ->]. done.
    + intros * _. apply Hses.
  - destruct (stop_flag this) eqn:Hstop.
    + unfold shutdown. rewrite Hstop. exists this, w. split_and!; [done|done|lia| |done|tauto].
      apply isolated_shrink; [apply touches_refl|done].
    + destruct (shutdown_facts this w Hwf Hstop)
        as (this' & w' & tr & -> & Hwf' & Hm & _ & _ & _ & Hiso & _).
      exists this', w'. rewrite Hm. split_and!; [done|done|lia|done|done|tauto].
Qed.

(** What an operation adds to the messages. *)
Definition adds (this : t) (o : op) : list Message :=
  match o with
  | Op_append k v => [mkMessage (wrap32 (zlen (messages this))) k v]
  | _ => []
  end.

Lemma run_op_messages o this w this' w' :
  wf this w → op_valid o → zlen (messages this) < 2 ^ 32 → run_op o this w = Done (this', w') →
  messages this' = messages this ++ adds this o.
Proof.
  intros Hwf Hv Hlen. destruct o as [k v|id p path start|id| |]; simpl; rewrite ?app_nil_r.
  - by intros [= <- _].
  - destruct (add_subscriber_facts this w id p path start Hwf Hv) as (b & this2 & w2 & -> & _ & Hm & _).
    by intros [= <- _].
  - destruct (remove_subscriber_facts this w id Hwf) as (this2 & w2 & -> & _ & _ & Hm & _).
    by intros [= <- _].
  - destruct (run_step_facts this w Hwf Hlen) as (this2 & w2 & -> & _ & Hm & _). by intros [= <- _].
  - destruct (stop_flag this) eqn:Hstop.
    + unfold shutdown. rewrite Hstop. by intros [= <- _].
    + destruct (shutdown_facts this w Hwf Hstop) as (this2 & w2 & tr & -> & _ & Hm & _).
      by intros [= <- _].
Qed.

Lemma run_ops_facts ops this w :
  wf this w → Forall op_valid ops → zlen (messages this) + appended ops < 2 ^ 32 →
  ∃ this' w', run_ops ops this w = Done (this', w') ∧ wf this' w' ∧
    zlen (messages this') = zlen (messages this) + appended ops ∧
    isolated (subs this) w (subs this') w' ∧
    (Forall (λ o, o ≠ Op_shutdown) ops → serving this → serving this') ∧
    (∀ id p fd start n0, Forall (spares id) ops → 0 ≤ fd →
       in_session id p fd start n0 (subs this) (messages this) w →
       in_session id p fd start n0 (subs this') (messages this') w').
Proof.
  assert (∀ ops, 0 ≤ appended ops) as Hpos.
  { clear. induction ops as [|[] ops IH]; simpl; lia. }
  assert (∀ o ops, appended (o :: ops) = appended [o] + appended ops) as Happ.
  { intros [] ?; simpl; lia. }
  revert this w. induction ops as [|o ops IH]; intros this w Hwf Hv Hlen.
  { exists this, w. split_and!; [done|done|simpl; lia| |done|done].
    apply isolated_shrink; [apply touches_refl|done]. }
  rewrite Happ in *. apply Forall_cons in Hv as [Hv1 Hv].
  pose proof (Hpos ops). pose proof (Hpos [o]).
  destruct (run_op_facts o this w Hwf Hv1 ltac:(lia)) as 
    (this1 & w1 & Hop & Hwf1 & Hl1 & Hi1 & Ha1 & Hs1).
  destruct (IH this1 w1 Hwf1 Hv ltac:(lia)) as (this2 & w2 & Hrun & Hwf2 & Hl2 & Hi2 & Ha2 & Hs2).
  exists this2, w2. split_and!; [simpl; by rewrite Hop|done|lia| | |].
  - by eapply isolated_trans.
  - intros [? ?]%Forall_cons ?. auto.
  - intros * [? ?]%Forall_cons ? ?. auto.
Qed.

Lemma make_wf n w : wf (make n) w.
Proof.
  assert (subs (make n) = ∅) as He by apply HashMap.to_map_make_default.
  split; [apply HashMap.wf_make_default| | |done]; rewrite ?He.
  - by split.
  - exists []. split; [apply index_new_represents|]. split; [constructor|].
    intros p id. split; [by intros ?%not_elem_of_nil|]. by intros (s & Hs & _).
Qed.

Lemma expected_all p start msgs :
  0 ≤ start →
  expected p start (Z.max start (zlen msgs)) msgs =
  frame <$> filter (wanted p) (drop (Z.to_nat start) msgs).
Proof.
  intros Hs. unfold expected. do 2 f_equal. apply take_ge. unfold zlen. rewrite length_drop. lia.
Qed.

Lemma run_ops_app ops ops' this w :
  run_ops (ops ++ ops') this w = '(this, w) ← run_ops ops this w; run_ops ops' this w.
Proof.
  revert this w. induction ops as [|o ops IH]; intros this w; simpl; [done|].
  destruct (run_op o this w) as [[this1 w1]| |]; simpl; [apply IH|done..].
Qed.

(** ** Properties *)

(** C8: However the threads interleave their operations on a new topic, no operation does
    anything undefined or fails to terminate while fewer than 2^32 messages are
    appended, and the topic is well-formed after each: entries under their own names,
    descriptors open and not shared, the prefix index in step with the subscriber
    table, message offsets equal to positions. *)
Theorem topic_invariant (n : str) (w : world) (ops : list op)
    (Hops : Forall op_valid ops) (Hlen : appended ops < 2 ^ 32) :
  ∃ this' w', run_ops ops (make n) w = Done (this', w') ∧ wf this' w' ∧
              zlen (messages this') = appended ops.
Proof.
  destruct (run_ops_facts ops (make n) w (make_wf n w) Hops Hlen)
    as (this' & w' & ? & ? & Hl & _).
  by exists this', w'.
Qed.

(** What a subscription amounts to at the worker's next turn. *)
Lemma subscription_delivers (this this1 : t) (w w1 : world) (id p path : str)
    (start : Z) (ops : list op)
    (Hwf : wf this w) (Hserving : serving this) (Hstart : u32 start)
    (Hadd : add_subscriber id p path start this w = Done (true, this1, w1))
    (Hops : Forall op_valid ops) (Hspare : Forall (spares id) ops)
    (Hlen : zlen (messages this) + appended ops < 2 ^ 32) :
  ∃ fd this2 w2 s,
    fifo_fd <$> subs this1 !! id = Some fd ∧
    run_ops (ops ++ [Op_run]) this1 w1 = Done (this2, w2) ∧ subs this2 !! id = Some s ∧
    let sent := session_writes fd (drop (length (trace w1)) (trace w2)) in
    let due := frame <$> filter (wanted p) (drop (Z.to_nat start) (messages this2)) in
    (fifo_fd s = fd ∧ sent.*1 = due ∧ Forall (λ ret, 0 < ret) sent.*2) ∨
    (fifo_fd s = -1 ∧ sent.*1 `prefix_of` due).
Proof.
  destruct (add_subscriber_facts this w id p path start Hwf Hstart)
    as (b & this1' & w1' & Hadd' & Hwf1 & Hm & Hst & Hwr & _ & Hb).
  rewrite Hadd in Hadd'. injection Hadd' as <- <- <-.
  destruct Hb as (fd & Hpos & _ & _ & _ & Hsub).
  assert (serving this1) as Hserv1 by (unfold serving in *; by rewrite Hst, Hwr).
  pose proof (in_session_start id p path fd start (subs this) (messages this1) w1 Hstart) as Hses.
  rewrite <- Hsub in Hses.
  destruct (run_ops_facts ops this1 w1 Hwf1 Hops ltac:(by rewrite Hm))
    as (this2 & w2 & Hrun & Hwf2 & Hl2 & _ & Halive & Hkeep).
  assert (serving this2) as [Hs2 Hr2].
  { apply Halive; [|done]. eapply Forall_impl; [exact Hspare|]. by intros [] ?. }
  specialize (Hkeep id p fd start _ Hspare Hpos Hses).
  destruct (run_step_facts this2 w2 Hwf2 ltac:(rewrite Hl2, Hm; done))
    as (this3 & w3 & Hstep & _ & Hm3 & _ & _ & _ & Hdone & Hses3).
  destruct (Hses3 id p fd start _ Hpos Hkeep) as (s & Hs & Hp & Hst3 & Hn & _ & Hc).
  exists fd, this3, w3, s. rewrite Hsub, lookup_insert_eq, run_ops_app, Hrun. simpl.
  split_and!; [done|by rewrite Hstep|done|]. rewrite <- expected_all by lia.
  rewrite Hm3 in *. pose proof (Hdone Hr2 Hs2 id s Hs).
  replace (Z.max start (zlen (messages this2))) with (next_offset s) by lia.
  destruct Hc as [(? & _ & ? & ?)|(? & _ & ?)]; [by left|by right].
Qed.

(** C7: Delivery. Once a subscriber is added, and whatever the producers, the other
    subscribers and the worker do until the worker's next turn, what has been written
    to its FIFO since is exactly the messages from its start offset on whose key
    starts with its prefix, in order, each once; or a write has failed, the FIFO has
    been closed, and what was written is a prefix of that. *)
Theorem subscription_delivers_in_order (this this1 : t) (w w1 : world) (id p path : str)
    (start : Z) (ops : list op)
    (Hwf : wf this w) (Hserving : serving this) (Hstart : u32 start)
    (Hadd : add_subscriber id p path start this w = Done (true, this1, w1))
    (Hops : Forall op_valid ops) (Hspare : Forall (spares id) ops)
    (Hlen : zlen (messages this) + appended ops < 2 ^ 32) :
  ∃ fd this2 w2 s,
    fifo_fd <$> subs this1 !! id = Some fd ∧
    run_ops (ops ++ [Op_run]) this1 w1 = Done (this2, w2) ∧ subs this2 !! id = Some s ∧
    let sent := session_writes fd (drop (length (trace w1)) (trace w2)) in
    let due := frame <$> filter (wanted p) (drop (Z.to_nat start) (messages this2)) in
    (fifo_fd s = fd ∧ sent.*1 = due ∧ Forall (λ ret, 0 < ret) sent.*2) ∨
    (fifo_fd s = -1 ∧ sent.*1 `prefix_of` due).
Proof. by eapply subscription_delivers. Qed.

(** The operations of a topic write to and close only descriptors of its own
    subscribers, and take over none that is open elsewhere. *)
Theorem topic_touches_own_descriptors (ops : list op) (this this' : t) (w w' : world)
    (Hwf : wf this w) (Hops : Forall op_valid ops)
    (Hlen : zlen (messages this) + appended ops < 2 ^ 32)
    (Hrun : run_ops ops this w = Done (this', w')) :
  ∃ tr, trace w' = trace w ++ tr ∧
    ∀ x, is_open w x → ¬ owns (subs this) x →
         is_open w' x ∧ Forall (λ e, ¬ about x e) tr ∧ ¬ owns (subs this') x.
Proof.
  destruct (run_ops_facts ops this w Hwf Hops Hlen)
    as (this2 & w2 & Hrun' & _ & _ & [(tr & Htr & Ht) Ho] & _).
  rewrite Hrun in Hrun'. injection Hrun' as <- <-. exists tr. split; [done|].
  intros x Hx Hn. destruct (Ht x Hn Hx). auto.
Qed.

(** The index of a topic without subscribers has no matches. *)
Lemma no_subscribers_no_matches this w key :
  wf this w → subs this = ∅ → index_match key (prefix_tree this) = Done [].
Proof.
  intros [_ _ (regs & Hi & _ & Hr) _] He. rewrite (index_match_represents key _ _ Hi).
  assert (regs = []) as ->.
  { destruct regs as [|[p id] regs]; [done|]. exfalso.
    destruct (proj1 (Hr p id) (list_elem_of_here _ _)) as (s & Hs & _). by rewrite He in Hs. }
  f_equal. unfold PrefixTree.spec_match. by induction (seq 0 _).
Qed.

(** C34: [shutdown] writes the sentinel once to the FIFO of every active subscriber and
    closes it, empties the table of the subscribers and the prefix index, which matches no
    key any more, keeps the messages and sees the worker out of its loop; what it leaves is
    well-formed, and a second call does nothing. *)
Theorem shutdown_signs_off_everyone (this : t) (w : world)
    (Hwf : wf this w) (Hstop : stop_flag this = false) :
  ∃ this' w' tr,
    shutdown this w = Done (this', w') ∧ trace w' = trace w ++ tr ∧ wf this' w' ∧
    (∀ id s, subs this !! id = Some s → fifo_fd s ≠ -1 →
       ∃ ret, session_writes (fifo_fd s) tr = [(Protocol.serialize_shutdown, ret)] ∧
              EvClose (fifo_fd s) ∈ tr) ∧
    (∀ id, HashMap.find id (subscribers this') = None) ∧
    (∀ key, index_match key (prefix_tree this') = Done []) ∧
    messages this' = messages this ∧ stop_flag this' = true ∧ worker_running this' = false ∧
    shutdown this' w' = Done (this', w').
Proof.
  destruct (shutdown_facts this w Hwf Hstop)
    as (this' & w' & tr & Hrun & Hwf' & Hm & Hst & Hwr & He & _ & Htr & Hoff).
  exists this', w', tr. split_and!; [done|done|done| | | |done|done|done|].
  - intros id s Hs Hfd. destruct (Hoff (fifo_fd s)) as (ret & Hw & Hc); [by exists id, s|].
    exists ret. split; [done|]. apply closes_elem. done.
  - intros id. rewrite find_subs by apply Hwf'. by rewrite He.
  - intros key. by apply (no_subscribers_no_matches this' w').
  - unfold shutdown. by rewrite Hst.
Qed.

(** C39: A topic with 2^32 messages or more is one too many for the offset of a subscriber,
    which wraps before it reaches their number: the worker's loop over that
    subscriber never ends. *)
Theorem worker_diverges_at_2_32_messages (msgs : list Message) (tree : index)
    (sub : ActiveSubscriber) (w : world) (fuel : nat)
    (Hlen : 2 ^ 32 ≤ zlen msgs) (Hnext : u32 (next_offset sub))
    (Htree : answers_for tree sub) :
  deliver fuel msgs tree sub w = NoFuel.
Proof.
  revert sub w Hnext Htree. induction fuel as [|fuel IH]; intros sub w Hn Ht; simpl; [done|].
  rewrite (proj2 (Z.ltb_lt _ _)) by (unfold u32 in Hn; lia). simpl.
  destruct (lookup_lt_is_Some_2 msgs (Z.to_nat (next_offset sub))) as [m ->].
  { unfold zlen, u32 in *. lia. }
  simpl. rewrite deliver_one_ref by done. destruct (deliver_ref_same m sub w) as (Hid & Hp & _).
  destruct (deliver_ref m sub w) as [sub1 w1]; simpl in *. apply IH; simpl.
  - apply wrap32_range.
  - intros k. simpl. rewrite Hid, Hp. apply Ht.
Qed.

(** While fewer than 2^32 messages are in the topic, the worker's loop over one
    subscriber terminates and is a recursion over its pending messages, each tested
    directly for the subscriber's prefix. *)
Theorem delivery_loop_is_recursion (this : t) (w : world) (id : str) (sub : ActiveSubscriber)
    (Hwf : wf this w) (Hlen : zlen (messages this) < 2 ^ 32)
    (Hsub : HashMap.find id (subscribers this) = Some sub) :
  deliver (S (length (messages this))) (messages this) (prefix_tree this) sub w =
  Done (deliver_list (drop (Z.to_nat (next_offset sub)) (messages this)) sub w).
Proof.
  rewrite find_subs in Hsub by apply Hwf. destruct Hwf as [_ Hs (regs & Hi & Hr) _].
  apply deliver_is_deliver_list; [by eapply registered_answers| |done|lia].
  by eapply subs_next.
Qed.

(** A new subscription replaces the old one of the same client: its registration is
    removed and its FIFO closed before the new FIFO is opened, so that when the open
    fails the client is subscribed no more. *)
Theorem add_subscriber_replaces (this : t) (w : world) (id p path : str) (start : Z)
    (Hwf : wf this w) (Hstart : u32 start) :
  ∃ b this' w', add_subscriber id p path start this w = Done (b, this', w') ∧
    (∀ id', id' ≠ id →
       HashMap.find id' (subscribers this') = HashMap.find id' (subscribers this)) ∧
    (if b then
       ∃ fd, fd ≠ -1 ∧ is_open w' fd ∧
         HashMap.find id (subscribers this') = Some (mkSubscriber id p path fd start) ∧
         answers_for (prefix_tree this') (mkSubscriber id p path fd start)
     else HashMap.find id (subscribers this') = None ∧
          ∀ k, ∃ l, index_match k (prefix_tree this') = Done l ∧ id ∉ l).
Proof.
  destruct (add_subscriber_facts this w id p path start Hwf Hstart)
    as (b & this' & w' & Hadd & Hwf' & _ & _ & _ & _ & Hb).
  exists b, this', w'. split; [done|]. rewrite !find_subs by (apply Hwf || apply Hwf').
  split.
  { intros id' Hne. rewrite !find_subs by (apply Hwf || apply Hwf'). destruct b.
    - destruct Hb as (fd & _ & _ & _ & _ & ->). by rewrite lookup_insert_ne.
    - rewrite Hb. by rewrite lookup_delete_ne. }
  destruct Hwf' as [_ Hs' (regs & Hi & Hr) _]. destruct b.
  - destruct Hb as (fd & Hpos & Ho & _ & _ & Heq). exists fd.
    assert (subs this' !! id = Some (mkSubscriber id p path fd start)) as Hs
      by (rewrite Heq; apply lookup_insert_eq).
    split_and!; [lia|done|done|]. by eapply registered_answers.
  - rewrite Hb in *. split; [apply lookup_delete_eq|]. intros k.
    exists (PrefixTree.spec_match k regs). split; [by apply index_match_represents|].
    rewrite PrefixTree.elem_of_spec_match. intros (q & _ & Hq). apply Hr in Hq as (s & Hs & _).
    by rewrite lookup_delete_eq in Hs.
Qed.

(** [get_messages_from] returns the messages from an offset on, with consecutive
    offsets. *)
Theorem get_messages_from_offsets (this : t) (w : world) (start : Z)
    (Hwf : wf this w) (Hstart : u32 start) (Hlen : zlen (messages this) < 2 ^ 32) :
  get_messages_from start this = drop (Z.to_nat start) (messages this) ∧
  ∀ i m, get_messages_from start this !! i = Some m → offset m = start + Z.of_nat i.
Proof.
  assert (get_messages_from start this = drop (Z.to_nat start) (messages this)) as ->.
  { unfold get_messages_from. destruct (Z.ltb_spec start (zlen (messages this))); [done|].
    by rewrite drop_ge by (unfold zlen in *; lia). }
  split; [done|]. intros i m. rewrite lookup_drop. intros Hm.
  rewrite (wf_messages _ _ Hwf _ _ Hm). apply lookup_lt_Some in Hm.
  unfold u32, zlen in *. rewrite wrap32_small by (unfold u32; lia). lia.
Qed.

End Theory.

(** ** Witnesses: the prefix tree as index, a system that accepts everything *)

Module Witness.

Import World.Simple PrefixTree.Witness.

#[export] Instance str_hash : Hash str := foldr (λ b h, (31 * h + Byte.to_N b)%N) 7%N.

Definition id : str := $"alice".
Definition sub_ops : list op := [Op_add id $"eu." $"/tmp/a" 0].

Definition added : option (t * world) :=
  match add_subscriber id $"eu." $"/tmp/a" 0 (make $"news") start with
  | Done (true, this, w) => Some (this, w)
  | _ => None
  end.

Definition topic1 : t := default (make $"news") (fst <$> added).
Definition world1 : world := default start (snd <$> added).

Definition publish : list op :=
  [Op_append $"eu.de" $"1"; Op_add $"bob" $"" $"/tmp/b" 0; Op_run; Op_append $"us" $"2";
   Op_append $"eu.fr" $"3"].

Lemma added_eq :
  add_subscriber id $"eu." $"/tmp/a" 0 (make $"news") start = Done (true, topic1, world1).
Proof.
  assert (match add_subscriber id $"eu." $"/tmp/a" 0 (make $"news") start with
          | Done (b, _, _) => b
          | _ => false
          end = true) as Hb by (vm_compute; reflexivity).
  unfold topic1, world1, added.
  destruct (add_subscriber id $"eu." $"/tmp/a" 0 (make $"news") start) as [[[[] this] w]| |];
    done.
Qed.

Lemma topic1_wf : wf topic1 world1.
Proof.
  destruct (add_subscriber_facts (make $"news") start id $"eu." $"/tmp/a" 0
    (make_wf _ _) ltac:(by vm_compute)) as (b & this' & w' & Hadd & Hwf & _).
  rewrite added_eq in Hadd. by injection Hadd as <- <- <-.
Qed.

Lemma topic_invariant_witness :
  ∃ this' w', run_ops (sub_ops ++ publish) (make $"news") start = Done (this', w') ∧
              wf this' w' ∧ zlen (messages this') = 3.
Proof.
  apply (topic_invariant $"news" start (sub_ops ++ publish)); [|reflexivity].
  repeat constructor; by vm_compute.
Defined.

Lemma delivery_witness :
  ∃ fd this2 w2 s,
    fifo_fd <$> subs topic1 !! id = Some fd ∧
    run_ops (publish ++ [Op_run]) topic1 world1 = Done (this2, w2) ∧ subs this2 !! id = Some s ∧
    let sent := session_writes fd (drop (length (trace world1)) (trace w2)) in
    let due := frame <$> filter (wanted $"eu.") (drop 0 (messages this2)) in
    (fifo_fd s = fd ∧ sent.*1 = due ∧ Forall (λ ret, 0 < ret) sent.*2) ∨
    (fifo_fd s = -1 ∧ sent.*1 `prefix_of` due).
Proof.
  apply (subscription_delivers_in_order (make $"news") topic1 start world1 id $"eu." $"/tmp/a" 0
           publish).
  - apply make_wf.
  - split; reflexivity.
  - by vm_compute.
  - exact added_eq.
  - repeat constructor; by vm_compute.
  - repeat constructor; discriminate.
  - by vm_compute.
Defined.

Lemma own_descriptors_witness :
  ∃ this' w', run_ops publish topic1 world1 = Done (this', w') ∧
    ∃ tr, trace w' = trace world1 ++ tr.
Proof.
  destruct (run_ops_facts publish topic1 world1 topic1_wf
    ltac:(repeat constructor; by vm_compute) eq_refl) as (this' & w' & Hrun & _).
  exists this', w'. split; [exact Hrun|].
  destruct (topic_touches_own_descriptors publish topic1 this' world1 w' topic1_wf
    ltac:(repeat constructor; by vm_compute) eq_refl Hrun) as (tr & Htr & _).
  by exists tr.
Defined.

Lemma shutdown_witness :
  ∃ this' w' tr ret, shutdown topic1 world1 = Done (this', w') ∧ trace w' = trace world1 ++ tr ∧
    session_writes 3 tr = [(Protocol.serialize_shutdown, ret)] ∧
    HashMap.find id (subscribers this') = None ∧
    index_match $"eu.de" (prefix_tree this') = Done [] ∧ worker_running this' = false.
Proof.
  destruct (shutdown_signs_off_everyone topic1 world1 topic1_wf eq_refl)
    as (this' & w' & tr & Hrun & Htr & _ & Hoff & Hsubs & Hindex & _ & _ & Hwr & _).
  assert (fifo_fd <$> subs topic1 !! id = Some 3) as Hfd by (vm_compute; reflexivity).
  destruct (subs topic1 !! id) as [s|] eqn:Hs; [|discriminate Hfd].
  assert (fifo_fd s = 3) as H3 by (cbn [fmap option_fmap option_map] in Hfd; congruence).
  destruct (Hoff id s Hs ltac:(rewrite H3; discriminate)) as (ret & Hw & _). rewrite H3 in Hw.
  exists this', w', tr, ret.
  exact (conj Hrun (conj Htr (conj Hw (conj (Hsubs id) (conj (Hindex $"eu.de") Hwr))))).
Defined.

Lemma topic1_sub :
  ∃ s, HashMap.find id (subscribers topic1) = Some s ∧ subs topic1 !! id = Some s ∧
       answers_for (prefix_tree topic1) s ∧ u32 (next_offset s).
Proof.
  assert (is_Some (HashMap.find id (subscribers topic1))) as [s Hs]
    by (eexists; vm_compute; reflexivity).
  exists s. pose proof topic1_wf as [Ht Hsubs (regs & Hi & Hr) _].
  assert (subs topic1 !! id = Some s) as Hs' by (by rewrite <- find_subs).
  split_and!; [done|done| |by eapply subs_next]. by eapply registered_answers.
Qed.

Lemma diverges_witness :
  ∃ s, ∀ fuel, deliver fuel (replicate (Z.to_nat (2 ^ 32)) (mkMessage 0 [] [])) (prefix_tree topic1) s
         world1 = NoFuel.
Proof.
  destruct topic1_sub as (s & _ & _ & Ht & Hn). exists s. intros fuel.
  apply worker_diverges_at_2_32_messages; [|exact Hn|exact Ht].
  unfold zlen. rewrite length_replicate, Z2Nat.id by done. done.
Defined.

Lemma loop_witness :
  ∃ s, deliver (S (length (messages topic1))) (messages topic1) (prefix_tree topic1) s world1 =
       Done (deliver_list (drop (Z.to_nat (next_offset s)) (messages topic1)) s world1).
Proof.
  destruct topic1_sub as (s & Hs & _). exists s.
  exact (delivery_loop_is_recursion topic1 world1 id s topic1_wf eq_refl Hs).
Defined.

Lemma add_replaces_witness :
  ∃ b this' w', add_subscriber id $"us" $"/tmp/c" 5 topic1 world1 = Done (b, this', w').
Proof.
  destruct (add_subscriber_replaces topic1 world1 id $"us" $"/tmp/c" 5 topic1_wf
    ltac:(by vm_compute)) as (b & this' & w' & Hadd & _).
  by exists b, this', w'.
Defined.

Lemma get_messages_witness :
  get_messages_from 0 topic1 = drop 0 (messages topic1) ∧
  ∀ i m, get_messages_from 0 topic1 !! i = Some m → offset m = 0 + Z.of_nat i.
Proof.
  apply (get_messages_from_offsets topic1 world1 0 topic1_wf); by vm_compute.
Defined.

(** Two of the three messages are for the subscriber; the worker sends both. *)
Example two_deliveries :
  (λ r, session_writes 3 (drop 1 (trace r.2)))
    <$> (if run_ops (publish ++ [Op_run]) topic1 world1 is Done r then Some r else None) =
  Some [(Protocol.serialize_delivery 0 $"eu.de" $"1", 18);
        (Protocol.serialize_delivery 2 $"eu.fr" $"3", 18)].
Proof. vm_compute. reflexivity. Qed.

End Witness.

End Topic.
