(* ===== verification/Server.v ===== *)
(** * Server: the broker of src/server/{inc/Server.hpp,src/Server.cpp}

    The server keeps the topics, an index of client metadata and the topics of the
    producers. [frames] is the loop over the request frames received so far, and
    [handle_request] the dispatch to the handlers; the handlers run one at a time, in
    the main thread, between turns of the topics' workers (Threads.v has them access by
    access, with their locks). A [unique_ptr] is an
    option, and the [Topic*] that [get_topic] returns is the name of its topic: no
    topic is ever erased or replaced, so that the pointer stays good. *)

From S2P Require Import Prelude HashMap PrefixTree Protocol World Text Ipc Topic.

Set Warnings "-clear-no-such-hyp".

Module Server.

Import World.
Open Scope Z_scope.

(** ** State *)

Record ClientMetadata : Type := mkMetadata {
  client_id : str;
  topic : str;
  offset : Z;
  prefix : str;
  ipc_path : str;
  is_active : bool
}.

Section Operations.
Context `{Kernel} `{SubscriptionIndex} `{Hash str} `{Hash Z}.

(** [fifo_fd] is [None] while it has not been assigned. *)
Record t : Type := mkServer {
  correct_start : bool;
  fifo_fd : option Z;
  server_path : str;
  topics : HashMap.t str (option Topic.t);
  client_index : HashMap.t str ClientMetadata;
  producer_topics : HashMap.t Z str;
  running : bool
}.

Definition with_topics (ts : HashMap.t str (option Topic.t)) (this : t) : t :=
  mkServer (correct_start this) (fifo_fd this) (server_path this) ts
    (client_index this) (producer_topics this) (running this).

Definition with_clients (cs : HashMap.t str ClientMetadata) (this : t) : t :=
  mkServer (correct_start this) (fifo_fd this) (server_path this) (topics this)
    cs (producer_topics this) (running this).

Definition with_producers (ps : HashMap.t Z str) (this : t) : t :=
  mkServer (correct_start this) (fifo_fd this) (server_path this) (topics this)
    (client_index this) ps (running this).

Definition with_running (b : bool) (this : t) : t :=
  mkServer (correct_start this) (fifo_fd this) (server_path this) (topics this)
    (client_index this) (producer_topics this) b.

(** ** Construction *)

Definition make (path : str) (w : world) : t * world :=
  let w := unlink_ path w in
  let '(ret, w) := mkfifo_ path w in
  let server correct fd :=
    mkServer correct fd path HashMap.make_default HashMap.make_default HashMap.make_default true in
  if ret =? -1 then (server false None, w)
  else
    let '(fd, w) := open_ path O_RDWR w in
    (server (if fd =? -1 then false else true) (Some fd), w).

Definition is_correct_start (this : t) : bool := correct_start this.

(** ** Responses *)

(** ["/tmp/treenity.client." + std::to_string(client_pid)] *)
Definition response_fifo (client_pid : Z) : str :=
  $"/tmp/treenity.client." ++ Text.to_string client_pid.

Definition send_response (client_pid : Z) (status : Protocol.StatusCode) (payload : str)
    (w : world) : world :=
  let '(fd, w) := open_ (response_fifo client_pid) O_WRONLY w in
  if negb (fd =? -1) then
    let res := Protocol.serialize_response status payload in
    let '(_, w) := write_ fd res w in
    close_ fd w
  else w.

(** ** Topics *)

Definition create_topic (topic_name : str) (this : t) : bool * t :=
  if HashMap.contains topic_name (topics this) then (false, this)
  else
    let ts := HashMap.subscript None topic_name (topics this) in
    (true, with_topics (HashMap.write topic_name (λ _, Some (Topic.make topic_name)) ts) this).

(** A null pointer, or the topic it points to. *)
Definition get_topic (topic_name : str) (this : t) : option Topic.t :=
  match HashMap.find topic_name (topics this) with
  | Some found => found
  | None => None
  end.

(** The topic of that name was changed through a pointer to it. *)
Definition set_topic (topic_name : str) (topic : Topic.t) (this : t) : t :=
  with_topics (HashMap.write topic_name (λ _, Some topic) (topics this)) this.

(** ** Handlers *)

Definition handle_create (payload : str) (len : Z) (this : t) (w : world)
    : outcome (t * world) :=
  r ← Protocol.parse_create payload len;
  match r with
  | None => mret (this, w)
  | Some (client_pid, topic_name) =>
      if negb (Text.is_valid_identifier topic_name) then
        mret (this, send_response client_pid Protocol.GENERAL_ERROR [] w)
      else
        let '(created, this) := create_topic topic_name this in
        if negb created then
          mret (this, send_response client_pid Protocol.TOPIC_CLIENT_ERR [] w)
        else mret (this, send_response client_pid Protocol.SUCCESS [] w)
  end.

(** The loop that joins the names of the topics with commas. *)
Definition join_names (names : list str) : str :=
  (foldl (λ '(result, first) name,
            ((if negb first then result ++ $"," else result) ++ name, false))
         ([], true) names).1.

Definition handle_list (payload : str) (len : Z) (this : t) (w : world)
    : outcome (t * world) :=
  r ← Protocol.parse_list payload len;
  match r with
  | None => mret (this, w)
  | Some client_pid =>
      let result := join_names (HashMap.entries (topics this)).*1 in
      mret (this, send_response client_pid Protocol.SUCCESS result w)
  end.

(** A double quote. *)
Definition dquote : str := [Byte.x22].

Definition client_json (meta : ClientMetadata) : str :=
  $"{" ++ dquote ++ $"client" ++ dquote ++ $":" ++ dquote ++ client_id meta ++
  dquote ++ $"," ++ dquote ++ $"topic" ++ dquote ++ $":" ++ dquote ++ topic meta ++
  dquote ++ $"," ++ dquote ++ $"offset" ++ dquote ++ $":" ++ Text.to_string (offset meta) ++
  $"," ++ dquote ++ $"prefix" ++ dquote ++ $":" ++ dquote ++ prefix meta ++
  dquote ++ $"," ++ dquote ++ $"ipc" ++ dquote ++ $":" ++ dquote ++ ipc_path meta ++
  dquote ++ $"}".

Definition handle_info (payload : str) (len : Z) (this : t) (w : world)
    : outcome (t * world) :=
  r ← Protocol.parse_info payload len;
  match r with
  | None => mret (this, w)
  | Some (client_pid, id) =>
      match HashMap.find id (client_index this) with
      | None => mret (this, send_response client_pid Protocol.TOPIC_CLIENT_ERR [] w)
      | Some meta => mret (this, send_response client_pid Protocol.SUCCESS (client_json meta) w)
      end
  end.

Definition handle_producer_connect (payload : str) (len : Z) (this : t) (w : world)
    : outcome (t * world) :=
  r ← Protocol.parse_connect payload len;
  match r with
  | None => mret (this, w)
  | Some (client_pid, topic_name) =>
      match get_topic topic_name this with
      | None => mret (this, send_response client_pid Protocol.TOPIC_CLIENT_ERR [] w)
      | Some _ =>
          let this :=
            with_producers (HashMap.insert_or_assign client_pid topic_name
                              (producer_topics this)).2 this in
          mret (this, send_response client_pid Protocol.SUCCESS [] w)
      end
  end.

Definition handle_publish (payload : str) (len : Z) (this : t) (w : world)
    : outcome (t * world) :=
  r ← Protocol.parse_produce payload len;
  match r with
  | None => mret (this, w)
  | Some (topic_name, key, value) =>
      let found := if negb (bool_decide (topic_name = [])) then get_topic topic_name this
                   else None in
      match found with
      | None => mret (this, w)
      | Some topic => mret (set_topic topic_name (Topic.append_message key value topic) this, w)
      end
  end.

(** [meta != nullptr && meta->is_active && ipc::is_reader_active(meta->ipc_path)] *)
Definition is_duplicate (meta : option ClientMetadata) (w : world) : bool * world :=
  match meta with
  | None => (false, w)
  | Some meta => if is_active meta then Ipc.is_reader_active (ipc_path meta) w else (false, w)
  end.

Definition handle_subscriber_connect (payload : str) (len : Z) (this : t) (w : world)
    : outcome (t * world) :=
  r ← Protocol.parse_subscribe payload len;
  match r with
  | None => mret (this, w)
  | Some (client_pid, id, topic_name, prefix, req_offset) =>
      if negb (Text.is_valid_identifier id) || negb (Text.is_valid_identifier topic_name) then
        mret (this, send_response client_pid Protocol.GENERAL_ERROR [] w)
      else
        match HashMap.find topic_name (topics this) with
        | None => mret (this, send_response client_pid Protocol.TOPIC_CLIENT_ERR [] w)
        | Some found_topic =>
            let meta := HashMap.find id (client_index this) in
            let '(duplicate, w) := is_duplicate meta w in
            if duplicate then
              mret (this, send_response client_pid Protocol.TOPIC_CLIENT_ERR [] w)
            else
              let start_offset :=
                if negb (req_offset =? Protocol.OFFSET_UNSET) then req_offset
                else match meta with Some meta => offset meta | None => 0 end in
              let consumer_ipc := response_fifo client_pid in
              let new_meta := mkMetadata id topic_name start_offset prefix consumer_ipc true in
              let this :=
                with_clients (HashMap.insert_or_assign id new_meta (client_index this)).2 this in
              let w := send_response client_pid Protocol.SUCCESS [] w in
              topic ← deref found_topic;
              '(_, topic, w) ← Topic.add_subscriber id prefix consumer_ipc start_offset topic w;
              mret (set_topic topic_name topic this, w)
        end
  end.

Definition with_offset (o : Z) (meta : ClientMetadata) : ClientMetadata :=
  mkMetadata (client_id meta) (topic meta) o (prefix meta) (ipc_path meta) (is_active meta).

Definition with_active (b : bool) (meta : ClientMetadata) : ClientMetadata :=
  mkMetadata (client_id meta) (topic meta) (offset meta) (prefix meta) (ipc_path meta) b.

Definition handle_commit (payload : str) (len : Z) (this : t) (w : world)
    : outcome (t * world) :=
  r ← Protocol.parse_ack payload len;
  match r with
  | None => mret (this, w)
  | Some (id, next_offset) =>
      match HashMap.find id (client_index this) with
      | None => mret (this, w)
      | Some _ =>
          mret (with_clients (HashMap.write id (with_offset next_offset) (client_index this)) this,
                w)
      end
  end.

Definition handle_disconnect (payload : str) (len : Z) (this : t) (w : world)
    : outcome (t * world) :=
  r ← Protocol.parse_disconnect payload len;
  match r with
  | None => mret (this, w)
  | Some id =>
      match HashMap.find id (client_index this) with
      | None => mret (this, w)
      | Some meta =>
          let this :=
            with_clients (HashMap.write id (with_active false) (client_index this)) this in
          match HashMap.find (topic meta) (topics this) with
          | None => mret (this, w)
          | Some found_topic =>
              tp ← deref found_topic;
              '(_, tp, w) ← Topic.remove_subscriber id tp w;
              mret (set_topic (topic meta) tp this, w)
          end
      end
  end.

Definition handle_request (action : byte) (payload : str) (payload_len : Z) (this : t) (w : world)
    : outcome (t * world) :=
  match action with
  | Byte.x01 => handle_create payload payload_len this w
  | Byte.x02 => handle_list payload payload_len this w
  | Byte.x03 => handle_info payload payload_len this w
  | Byte.x04 => handle_producer_connect payload payload_len this w
  | Byte.x05 => handle_publish payload payload_len this w
  | Byte.x06 => handle_subscriber_connect payload payload_len this w
  | Byte.x07 => handle_commit payload payload_len this w
  | Byte.x08 => handle_disconnect payload payload_len this w
  | _ => mret (this, w)
  end.

(** ** The main loop *)

(** [while (recv_buf.size() >= 5)]; [5 + payload_len] is 32 bits wide where it is compared,
    and not where the iterator is moved. *)
Fixpoint frames (fuel : nat) (recv_buf : str) (this : t) (w : world)
    : outcome (str * t * world) :=
  match fuel with
  | O => NoFuel
  | S fuel =>
      if negb (5 <=? zlen recv_buf) then mret (recv_buf, this, w)
      else
        action ← Protocol.load recv_buf 0;
        payload_len ← Protocol.read_uint32_le recv_buf 1;
        if zlen recv_buf <? wrap32 (5 + payload_len) then mret (recv_buf, this, w)
        else
          '(this, w) ← handle_request action (drop 5 recv_buf) payload_len this w;
          if zlen recv_buf <? 5 + payload_len then Undefined
          else frames fuel (drop (Z.to_nat (5 + payload_len)) recv_buf) this w
  end.

(** What [run] does with the bytes a [read] stored in [buffer]. *)
Definition receive (bytes recv_buf : str) (this : t) (w : world) : outcome (str * t * world) :=
  let recv_buf := recv_buf ++ bytes in
  frames (S (length recv_buf)) recv_buf this w.

(** One turn of [while (running)]; the flag tells whether the loop was left. *)
Definition run_turn (recv_buf : str) (this : t) (w : world)
    : outcome (bool * str * t * world) :=
  fd ← deref (fifo_fd this);
  let '(bytes_read, bytes, w) := read_ fd 1024 w in
  if 0 <? bytes_read then
    '(recv_buf, this, w) ← receive bytes recv_buf this w;
    mret (false, recv_buf, this, w)
  else mret (negb (running this), recv_buf, this, w).

(** [run], for at most [fuel] turns. *)
Fixpoint run_loop (fuel : nat) (recv_buf : str) (this : t) (w : world) : outcome (t * world) :=
  match fuel with
  | O => NoFuel
  | S fuel =>
      if negb (running this) then
        fd ← deref (fifo_fd this); mret (this, close_ fd w)
      else
        '(stopped, recv_buf, this, w) ← run_turn recv_buf this w;
        if stopped : bool then fd ← deref (fifo_fd this); mret (this, close_ fd w)
        else run_loop fuel recv_buf this w
  end.

(** ** The end *)

(** The body of the loop over the topics in [stop]. *)
Definition stop_topic (found : option Topic.t) (w : world) : outcome (option Topic.t * world) :=
  match found with
  | None => mret (None, w)
  | Some tp => '(tp, w) ← Topic.shutdown tp w; mret (Some tp, w)
  end.

Definition stop (this : t) (w : world) : outcome (t * world) :=
  if negb (running this) then mret (this, w)
  else
    let this := with_running false this in
    let w := unlink_ (server_path this) w in
    let '(dummy_fd, w) := open_ (server_path this) O_WRONLY_NONBLOCK w in
    let w := if negb (dummy_fd =? -1) then
               close_ dummy_fd (write_ dummy_fd [Byte.x00] w).2
             else w in
    '(ts, w) ← HashMap.for_each (λ _ found w, stop_topic found w) (topics this) w;
    fd ← deref (fifo_fd this);
    mret (with_topics ts this, close_ fd w).

(** ** Steps

    The threads of the program: the main thread receives bytes, the worker of a topic
    takes a turn, the signal handler stops the server. *)
Definition work (topic_name : str) (this : t) (w : world) : outcome (t * world) :=
  match get_topic topic_name this with
  | None => mret (this, w)
  | Some tp => '(tp, w) ← Topic.run_step tp w; mret (set_topic topic_name tp this, w)
  end.

Inductive step : str * t * world → str * t * world → Prop :=
| step_receive bytes recv_buf this w recv_buf' this' w' :
    running this = true → 0 < zlen bytes ≤ 1024 →
    receive bytes recv_buf this w = Done (recv_buf', this', w') →
    step (recv_buf, this, w) (recv_buf', this', w')
| step_work name recv_buf this w this' w' :
    work name this w = Done (this', w') →
    step (recv_buf, this, w) (recv_buf, this', w')
| step_stop recv_buf this w this' w' :
    stop this w = Done (this', w') →
    step (recv_buf, this, w) (recv_buf, this', w').

End Operations.

(** ** Invariant *)

Section Specification.
Context `{KernelLaws} `{SubscriptionIndex} `{Hash str} `{Hash Z}.

(** A descriptor of a subscriber of some topic. *)
Definition owned (this : t) (x : Z) : Prop :=
  ∃ n tp, get_topic n this = Some tp ∧ Topic.owns (Topic.subs tp) x.

(** Tables are well-formed, no topic pointer is null, topics are well-formed and share no
    descriptor, the server's own FIFO is open and no subscriber's, metadata is under its
    own name with a 32-bit offset, and every subscriber of a topic has metadata. *)
Record wf (this : t) (w : world) : Prop := {
  wf_topics : HashMap.wf (topics this);
  wf_clients : HashMap.wf (client_index this);
  wf_producers : HashMap.wf (producer_topics this);
  wf_not_null n : HashMap.find n (topics this) ≠ Some None;
  wf_topic n tp : get_topic n this = Some tp → Topic.wf tp w;
  wf_disjoint n1 n2 t1 t2 x :
    get_topic n1 this = Some t1 → get_topic n2 this = Some t2 →
    Topic.owns (Topic.subs t1) x → Topic.owns (Topic.subs t2) x → n1 = n2;
  wf_fifo fd :
    running this = true → fifo_fd this = Some fd → fd ≠ -1 → is_open w fd ∧ ¬ owned this fd;
  wf_client id meta :
    HashMap.find id (client_index this) = Some meta → client_id meta = id ∧ u32 (offset meta);
  wf_known n tp id :
    get_topic n this = Some tp → is_Some (Topic.subs tp !! id) →
    is_Some (HashMap.find id (client_index this))
}.

(** Fewer than 2^32 messages in every topic. *)
Definition small (this : t) : Prop :=
  ∀ n tp, get_topic n this = Some tp → zlen (Topic.messages tp) < 2 ^ 32.

(** The states the threads can reach, while topics are small. *)
Definition reachable : str * t * world → str * t * world → Prop :=
  rtc (λ s s', small s.1.2 ∧ zlen s.1.1 < 2 ^ 61 ∧ step s s').

(** The handling of a request, as a frame of its own. *)
Definition handle (r : Protocol.request) (this : t) (w : world) : outcome (t * world) :=
  handle_request (Protocol.CommandType_code (Protocol.request_action r)) (Protocol.payload r)
    (zlen (Protocol.payload r)) this w.

Fixpoint handle_all (rs : list Protocol.request) (this : t) (w : world) : outcome (t * world) :=
  match rs with
  | [] => mret (this, w)
  | r :: rs => '(this, w) ← handle r this w; handle_all rs this w
  end.

(** Chunks received one after the other. *)
Fixpoint receive_all (chunks : list str) (recv_buf : str) (this : t) (w : world)
    : outcome (str * t * world) :=
  match chunks with
  | [] => mret (recv_buf, this, w)
  | bytes :: chunks =>
      '(recv_buf, this, w) ← receive bytes recv_buf this w;
      receive_all chunks recv_buf this w
  end.

End Specification.

(** ** Calls that concern no subscriber *)

Section Theory.
Context `{KernelLaws} `{SubscriptionIndex} `{Hash str} `{Hash Z}.
Implicit Types (this : t) (w : world).

Lemma send_response_quiet pid status payload w :
  touches (λ _, False) w (send_response pid status payload w).
Proof.
  unfold send_response. destruct (open_ _ O_WRONLY w) as [fd w1] eqn:Ho.
  eapply open_bracket; [exact Ho| |by intros ->].
  intros Hne. rewrite (proj2 (Z.eqb_neq _ _) Hne). simpl. pose proof (touches_write fd (Protocol.serialize_response status payload) w1) as Ht.
  destruct (write_ fd _ w1) as [ret w2]; simpl in *.
  apply (touches_trans _ _ w2); [done|apply touches_close].
Qed.

Lemma is_duplicate_quiet meta w : touches (λ _, False) w (is_duplicate meta w).2.
Proof.
  unfold is_duplicate, Ipc.is_reader_active. destruct meta as [meta|]; [|apply touches_refl].
  destruct (is_active meta); [|apply touches_refl].
  destruct (open_ _ O_WRONLY_NONBLOCK w) as [fd w1] eqn:Ho. simpl.
  eapply open_bracket; [exact Ho| |by intros ->].
  intros _. destruct (0 <=? fd); [apply touches_close|apply touches_refl].
Qed.

(** ** The invariant under changes *)

Lemma get_topic_Some n this tp :
  get_topic n this = Some tp ↔ HashMap.find n (topics this) = Some (Some tp).
Proof. unfold get_topic. destruct (HashMap.find n (topics this)) as [[?|]|]; naive_solver. Qed.

Lemma owned_open this w x : wf this w → owned this x → is_open w x.
Proof.
  intros Hwf (n & tp & Htp & id & s & Hs & <- & Hx).
  destruct (Topic.wf_subs _ _ (wf_topic _ _ Hwf n tp Htp)) as [_ _ Hfd _].
  destruct (Hfd id s Hs) as [|[_ ?]]; done.
Qed.

Lemma wf_quiet T this w w' :
  wf this w → touches T w w' → (∀ x, T x → ¬ owned this x) →
  (∀ fd, running this = true → fifo_fd this = Some fd → fd ≠ -1 → ¬ T fd) → wf this w'.
Proof.
  intros Hwf Ht HT HF. pose proof Hwf as [? ? ? ? Htp ? Hfifo ? ?]. split; try done.
  - intros n tp Hn. eapply Topic.wf_touches; [by eapply Htp|exact Ht|].
    intros x Hx Ho. apply (HT x Hx). by exists n, tp.
  - intros fd Hrun Hfd Hne. destruct (Hfifo fd Hrun Hfd Hne) as [Ho Hn]. split; [|done].
    destruct Ht as (tr & _ & Ht). apply Ht; [|done]. by apply HF.
Qed.

Lemma wf_respond pid status payload this w :
  wf this w → wf this (send_response pid status payload w).
Proof. intros Hwf. eapply wf_quiet; [done|apply send_response_quiet|tauto|tauto]. Qed.

Lemma find_set_topic n tp this n' :
  HashMap.wf (topics this) → is_Some (get_topic n this) →
  HashMap.find n' (topics (set_topic n tp this)) =
  if decide (n = n') then Some (Some tp) else HashMap.find n' (topics this).
Proof.
  intros Ht [tp0 Hn%get_topic_Some]. unfold set_topic. simpl. rewrite HashMap.find_write by done.
  case_decide; [by rewrite Hn|done].
Qed.

Lemma get_set_topic n tp this n' :
  HashMap.wf (topics this) → is_Some (get_topic n this) →
  get_topic n' (set_topic n tp this) = if decide (n = n') then Some tp else get_topic n' this.
Proof. intros Ht Hn. unfold get_topic at 1. rewrite find_set_topic by done. by case_decide. Qed.

Lemma contains_get_topic n this w :
  wf this w → HashMap.contains n (topics this) = bool_decide (is_Some (get_topic n this)).
Proof.
  intros Hwf. rewrite HashMap.contains_find. apply bool_decide_ext. unfold get_topic.
  destruct (HashMap.find n (topics this)) as [[tp|]|] eqn:Hn; [by split; eexists| |done].
  by destruct (wf_not_null _ _ Hwf n).
Qed.

Lemma get_create_topic n this other :
  HashMap.wf (topics this) → HashMap.contains n (topics this) = false →
  get_topic other (create_topic n this).2 =
  if decide (n = other) then Some (Topic.make n) else get_topic other this.
Proof.
  intros Ht Hc. unfold create_topic. rewrite Hc. unfold get_topic. simpl.
  rewrite HashMap.find_write by auto with treenity.
  rewrite !HashMap.find_subscript by done. by repeat case_decide.
Qed.

Lemma wf_set_topic n tp tp' this w w' :
  wf this w → get_topic n this = Some tp → Topic.wf tp' w' →
  Topic.isolated (Topic.subs tp) w (Topic.subs tp') w' →
  (∀ id, is_Some (Topic.subs tp' !! id) → is_Some (HashMap.find id (client_index this))) →
  wf (set_topic n tp' this) w'.
Proof.
  intros Hwf Hn Htp' [Ht Hiso] Hknown.
  pose proof Hwf as [Htab Hc Hp Hnull Htop Hdis Hfifo Hcl Hk].
  assert (∀ n', get_topic n' (set_topic n tp' this) =
                if decide (n = n') then Some tp' else get_topic n' this) as Hget.
  { intros n'. apply get_set_topic; eauto. }
  assert (∀ n2 t2 x, n ≠ n2 → get_topic n2 this = Some t2 → Topic.owns (Topic.subs t2) x →
            ¬ Topic.owns (Topic.subs tp') x) as Hother.
  { intros n2 t2 x Hne Hn2 Hx. apply Hiso.
    - apply (owned_open this); [done|]. by exists n2, t2.
    - intros Hx'. apply Hne. by eapply Hdis. }
  split; try done.
  - by apply HashMap.wf_write.
  - intros n'. rewrite find_set_topic by eauto. case_decide; [done|apply Hnull].
  - intros n' tp2. rewrite Hget. case_decide; [by intros [= <-]|]. intros Hn2.
    eapply Topic.wf_touches; [by eapply Htop|exact Ht|]. intros x Hx Hx2.
    destruct (Hdis n n' tp tp2 x); done.
  - intros n1 n2 t1 t2 x. rewrite !Hget. repeat case_decide; subst; try done.
    + intros [= <-] Hn2 Ho1 Ho2. destruct (Hother n2 t2 x); done.
    + intros Hn1 [= <-] Ho1 Ho2. destruct (Hother n1 t1 x); done.
    + by apply Hdis.
  - intros fd Hrun Hfd Hne. destruct (Hfifo fd Hrun Hfd Hne) as [Ho Hno].
    assert (¬ Topic.owns (Topic.subs tp) fd) as Hn1 by (intros ?; apply Hno; by exists n, tp).
    split.
    { destruct Ht as (tr & _ & Ht). by apply Ht. }
    intros (n2 & t2 & Hn2 & Hx). rewrite Hget in Hn2. case_decide.
    + injection Hn2 as <-. by apply (Hiso fd Ho Hn1).
    + apply Hno. by exists n2, t2.
  - intros n2 t2 id. rewrite Hget. case_decide; [intros [= <-]; apply Hknown|apply Hk].
Qed.

Lemma wf_with_clients cs this w :
  wf this w → HashMap.wf cs →
  (∀ id meta, HashMap.find id cs = Some meta → client_id meta = id ∧ u32 (offset meta)) →
  (∀ id, is_Some (HashMap.find id (client_index this)) → is_Some (HashMap.find id cs)) →
  wf (with_clients cs this) w.
Proof. intros [] ? ? Hk. split; try done. intros. apply Hk. eauto. Qed.

(** The metadata of a client changes, or there is new metadata of one. *)
Lemma wf_write_client id f this w :
  wf this w →
  (∀ meta, client_id meta = id → u32 (offset meta) →
     client_id (f meta) = id ∧ u32 (offset (f meta))) →
  let this' := with_clients (HashMap.write id f (client_index this)) this in
  wf this' w ∧
  ∀ id', is_Some (HashMap.find id' (client_index this)) →
         is_Some (HashMap.find id' (client_index this')).
Proof.
  intros Hwf Hf. pose proof (wf_clients _ _ Hwf) as Hc. simpl.
  assert (∀ id', is_Some (HashMap.find id' (client_index this)) →
                 is_Some (HashMap.find id' (HashMap.write id f (client_index this)))) as Hknown.
  { intros id' Hs. rewrite HashMap.find_write by done. case_decide; [|done]. subst. by apply fmap_is_Some. }
  split; [|done]. apply wf_with_clients; [done|by apply HashMap.wf_write| |done].
  intros id' meta. rewrite HashMap.find_write by done. case_decide; [|apply (wf_client _ _ Hwf)].
  subst. destruct (HashMap.find id' (client_index this)) as [old|] eqn:Hid; simpl; [|done].
  intros [= <-]. apply Hf; apply (wf_client _ _ Hwf id' old Hid).
Qed.

Lemma wf_new_client id meta this w :
  wf this w → client_id meta = id → u32 (offset meta) →
  let this' := with_clients (HashMap.insert_or_assign id meta (client_index this)).2 this in
  wf this' w ∧
  (∀ id', is_Some (HashMap.find id' (client_index this)) →
          is_Some (HashMap.find id' (client_index this'))) ∧
  is_Some (HashMap.find id (client_index this')).
Proof.
  intros Hwf Hid Ho. pose proof (wf_clients _ _ Hwf) as Hc.
  assert (∀ id', HashMap.find id' (HashMap.insert_or_assign id meta (client_index this)).2 =
    if decide (id = id') then Some meta else HashMap.find id' (client_index this)) as Hfind
    by (intros id'; by rewrite HashMap.find_insert_or_assign).
  assert (∀ id', is_Some (HashMap.find id' (client_index this)) →
    is_Some (HashMap.find id' (HashMap.insert_or_assign id meta (client_index this)).2)) as Hknown.
  { intros id' Hs. rewrite Hfind. by case_decide. }
  split_and!; [|done|simpl; rewrite Hfind; by rewrite decide_True].
  apply wf_with_clients; [done|by apply HashMap.wf_insert_or_assign| |done].
  intros id' m. rewrite Hfind. case_decide; [|apply (wf_client _ _ Hwf)]. subst. by intros [= <-].
Qed.

Lemma wf_create_topic n this w : wf this w → wf (create_topic n this).2 w.
Proof.
  intros Hwf. unfold create_topic. destruct (HashMap.contains n (topics this)) eqn:Hc; [done|]. simpl.
  rewrite HashMap.contains_find in Hc. apply bool_decide_eq_false in Hc.
  apply eq_None_not_Some in Hc.
  pose proof Hwf as [Htab ? ? Hnull Htop Hdis Hfifo ? Hk].
  set (ts := HashMap.write n _ _). assert (∀ n', HashMap.find n' ts =
    if decide (n = n') then Some (Some (Topic.make n)) else HashMap.find n' (topics this)) as Hf.
  { intros n'. unfold ts. rewrite HashMap.find_write by auto with treenity.
    rewrite !HashMap.find_subscript by done. by repeat case_decide. }
  assert (∀ n', get_topic n' (with_topics ts this) =
    if decide (n = n') then Some (Topic.make n) else get_topic n' this) as Hg.
  { intros n'. unfold get_topic. simpl. rewrite Hf. by case_decide. }
  assert (∀ x, ¬ Topic.owns (Topic.subs (Topic.make n)) x) as Hno.
  { intros x (id & s & Hs & _). unfold Topic.subs in Hs. simpl in Hs.
    by rewrite HashMap.to_map_make_default in Hs. }
  split; try done.
  - unfold ts. simpl. auto with treenity.
  - intros n'. simpl. rewrite Hf. by case_decide.
  - intros n' tp. rewrite Hg. case_decide; [|apply Htop]. intros [= <-]. apply Topic.make_wf.
  - intros n1 n2 t1 t2 x. rewrite !Hg. repeat case_decide; subst; try done.
    + intros [= <-] _ Hx. by destruct (Hno x).
    + intros _ [= <-] _ Hx. by destruct (Hno x).
    + apply Hdis.
  - intros fd Hrun Hfd Hne. destruct (Hfifo fd Hrun Hfd Hne) as [? Hn]. split; [done|].
    intros (n' & tp & Htp & Hx). rewrite Hg in Htp. case_decide.
    + injection Htp as <-. by apply (Hno fd).
    + apply Hn. by exists n', tp.
  - intros n' tp id. rewrite Hg. case_decide; [|apply Hk]. intros [= <-] [s Hs].
    unfold Topic.subs in Hs. simpl in Hs. by rewrite HashMap.to_map_make_default in Hs.
Qed.

(** ** Handlers *)

(** The result is defined and keeps the invariant and what handlers do not change. *)
Definition ok (r : outcome (t * world)) (this : t) : Prop :=
  ∃ this' w', r = Done (this', w') ∧ wf this' w' ∧ running this' = running this ∧
              fifo_fd this' = fifo_fd this.

Lemma ok_ret this w this0 :
  wf this w → running this = running this0 → fifo_fd this = fifo_fd this0 →
  ok (mret (this, w)) this0.
Proof. intros. by exists this, w. Qed.

#[local] Hint Resolve wf_respond : core.

Lemma handle_create_ok payload len this w :
  wf this w → Protocol.readable payload len → ok (handle_create payload len this w) this.
Proof.
  intros Hwf Hr. unfold handle_create. rewrite Protocol.create_refines by done. simpl.
  destruct (Protocol.take_u32 _) as [[pid name]|]; [|by apply ok_ret].
  destruct (Text.is_valid_identifier name); simpl; [|apply ok_ret; auto].
  pose proof (wf_create_topic name this w Hwf) as Hc. unfold create_topic in *.
  destruct (HashMap.contains name (topics this)); simpl in *; apply ok_ret; auto.
Qed.

Lemma handle_list_ok payload len this w :
  wf this w → Protocol.readable payload len → ok (handle_list payload len this w) this.
Proof.
  intros Hwf Hr. unfold handle_list. rewrite Protocol.list_refines by done. simpl.
  destruct (option_map _ _) as [pid|]; apply ok_ret; auto.
Qed.

Lemma handle_info_ok payload len this w :
  wf this w → Protocol.readable payload len → ok (handle_info payload len this w) this.
Proof.
  intros Hwf Hr. unfold handle_info.
  change (Protocol.parse_info payload len) with (Protocol.parse_create payload len).
  rewrite Protocol.create_refines by done. simpl.
  destruct (Protocol.take_u32 _) as [[pid id]|]; [|by apply ok_ret].
  destruct (HashMap.find id (client_index this)); apply ok_ret; auto.
Qed.

Lemma handle_producer_connect_ok payload len this w :
  wf this w → Protocol.readable payload len →
  ok (handle_producer_connect payload len this w) this.
Proof.
  intros Hwf Hr. unfold handle_producer_connect.
  change (Protocol.parse_connect payload len) with (Protocol.parse_create payload len).
  rewrite Protocol.create_refines by done. simpl.
  destruct (Protocol.take_u32 _) as [[pid name]|]; [|by apply ok_ret].
  destruct (get_topic name this); apply ok_ret; auto. apply wf_respond.
  destruct Hwf. split; try done. by apply HashMap.wf_insert_or_assign.
Qed.

Lemma handle_publish_ok payload len this w :
  wf this w → Protocol.readable payload len → ok (handle_publish payload len this w) this.
Proof.
  intros Hwf Hr. unfold handle_publish. rewrite Protocol.produce_refines by done. simpl.
  destruct (option_map _ _) as [[[name key] value]|]; [|by apply ok_ret].
  destruct (negb _); [|by apply ok_ret].
  destruct (get_topic name this) as [tp|] eqn:Htp; [|by apply ok_ret].
  apply ok_ret; [|done|done]. eapply wf_set_topic; [done|done| | |].
  - by apply Topic.append_wf, (wf_topic _ _ Hwf name).
  - apply Topic.isolated_shrink; [apply touches_refl|done].
  - intros id Hid. by eapply (wf_known _ _ Hwf name tp).
Qed.

Lemma handle_commit_ok payload len this w :
  wf this w → Protocol.readable payload len → ok (handle_commit payload len this w) this.
Proof.
  intros Hwf Hr. unfold handle_commit. pose proof (Protocol.ack_range payload len) as Hrange.
  rewrite Protocol.ack_refines in * by done. simpl.
  destruct (option_map _ _) as [[id o]|]; [|by apply ok_ret]. specialize (Hrange id o Hr eq_refl).
  destruct (HashMap.find id (client_index this)) as [meta|] eqn:Hid; [|by apply ok_ret].
  apply ok_ret; [|done|done]. by apply wf_write_client.
Qed.

Lemma handle_subscriber_connect_ok payload len this w :
  wf this w → Protocol.readable payload len →
  ok (handle_subscriber_connect payload len this w) this.
Proof.
  intros Hwf Hr. unfold handle_subscriber_connect.
  pose proof (Protocol.subscribe_range payload len) as Hrange.
  rewrite Protocol.subscribe_refines in * by done. simpl.
  destruct (option_map _ _) as [[[[[pid id] name] p] o]|]; [|by apply ok_ret].
  destruct (Hrange pid id name p o Hr eq_refl) as [_ Ho].
  destruct (negb _ || _); [apply ok_ret; auto|].
  destruct (HashMap.find name (topics this)) as [found|] eqn:Hname; [|apply ok_ret; auto].
  set (meta := HashMap.find id (client_index this)).
  pose proof (is_duplicate_quiet meta w) as Hq.
  destruct (is_duplicate meta w) as [dup w1]; simpl in *.
  assert (wf this w1) as Hwf1 by (eapply wf_quiet; [done|exact Hq|tauto|tauto]).
  destruct dup; [apply ok_ret; auto|].
  destruct found as [tp|]; [|by destruct (wf_not_null _ _ Hwf name)]. simpl.
  set (start := if negb (o =? Protocol.OFFSET_UNSET) then o
                else match meta with Some m => offset m | None => 0 end).
  assert (u32 start) as Hstart.
  { unfold start. destruct (negb _); [done|]. destruct meta as [m|] eqn:Hm; [|done].
    apply (wf_client _ _ Hwf id m Hm). }
  set (new_meta := mkMetadata id name start p (response_fifo pid) true).
  set (this1 := with_clients _ this). set (w2 := send_response pid Protocol.SUCCESS [] w1).
  destruct (wf_new_client id new_meta this w1 Hwf1) as (Hwf2%(wf_respond pid Protocol.SUCCESS []) & Hknown & Hid);
    [done|done|]. fold this1 in Hwf2, Hknown, Hid. fold w2 in Hwf2.
  assert (get_topic name this1 = Some tp) as Htp by by apply get_topic_Some.
  destruct (Topic.add_subscriber_isolated tp w2 id p (response_fifo pid) start
    (wf_topic _ _ Hwf2 name tp Htp) Hstart) as (b & tp' & w3 & -> & Htp' & _ & Hiso & Hids).
  simpl. apply ok_ret; [|done|done]. eapply wf_set_topic; [exact Hwf2|done|done|done|].
  intros id' Hid'. destruct (Hids id' Hid') as [->|Hold]; [done|].
  by eapply (wf_known _ _ Hwf2 name tp).
Qed.

Lemma handle_disconnect_ok payload len this w :
  wf this w → Protocol.readable payload len → ok (handle_disconnect payload len this w) this.
Proof.
  intros Hwf Hr. unfold handle_disconnect. rewrite Protocol.disconnect_refines by done. simpl.
  destruct (option_map _ _) as [id|]; [|by apply ok_ret].
  destruct (HashMap.find id (client_index this)) as [meta|] eqn:Hid; [|by apply ok_ret].
  destruct (wf_write_client id (with_active false) this w Hwf) as [Hwf1 Hknown]; [done|].
  set (this1 := with_clients _ this) in *.
  destruct (HashMap.find (topic meta) (topics this)) as [found|] eqn:Hname.
  2: { by apply ok_ret. }
  destruct found as [tp|]; [|by destruct (wf_not_null _ _ Hwf (topic meta))]. simpl.
  assert (get_topic (topic meta) this1 = Some tp) as Htp by by apply get_topic_Some.
  destruct (Topic.remove_subscriber_isolated tp w id (wf_topic _ _ Hwf1 _ tp Htp))
    as (b & tp' & w' & -> & Htp' & _ & Hiso & Hids).
  simpl. apply ok_ret; [|done|done]. eapply wf_set_topic; [exact Hwf1|done|done|done|].
  intros id' Hid'. apply Hknown. by eapply (wf_known _ _ Hwf (topic meta) tp); auto.
Qed.

Lemma handle_request_ok action payload len this w :
  wf this w → Protocol.readable payload len → ok (handle_request action payload len this w) this.
Proof.
  intros Hwf Hr. destruct action; try (by apply ok_ret); simpl.
  - by apply handle_create_ok.
  - by apply handle_list_ok.
  - by apply handle_info_ok.
  - by apply handle_producer_connect_ok.
  - by apply handle_publish_ok.
  - by apply handle_subscriber_connect_ok.
  - by apply handle_commit_ok.
  - by apply handle_disconnect_ok.
Qed.

(** ** Framing *)

(** A handler sees no more than the payload it is told of. *)
Lemma handle_request_local action payload len this w :
  Protocol.readable payload len →
  handle_request action payload len this w =
  handle_request action (take (Z.to_nat len) payload) len this w.
Proof.
  intros Hr. set (bytes := take (Z.to_nat len) payload).
  assert (Protocol.readable bytes len) as Hb.
  { destruct Hr as [Hl Hm]. assert (zlen bytes = len) as Hz
      by (unfold bytes, zlen in *; rewrite length_take; lia).
    split; lia. }
  assert (take (Z.to_nat len) bytes = bytes) as Ht
    by (unfold bytes; by rewrite take_take, Nat.min_id).
  destruct action; try done; simpl;
    unfold handle_create, handle_list, handle_info, handle_producer_connect, handle_publish,
      handle_subscriber_connect, handle_commit, handle_disconnect;
    repeat change (Protocol.parse_info ?b ?n) with (Protocol.parse_create b n);
    repeat change (Protocol.parse_connect ?b ?n) with (Protocol.parse_create b n);
    rewrite ?Protocol.create_refines, ?Protocol.list_refines, ?Protocol.produce_refines,
      ?Protocol.subscribe_refines, ?Protocol.ack_refines, ?Protocol.disconnect_refines by done;
    by rewrite Ht.
Qed.

(** The header at the front of a buffer, when it is complete. *)
Definition header (buf : str) : option (byte * Z) :=
  match buf with
  | [] => None
  | a :: l => match Protocol.take_u32 l with Some (n, _) => Some (a, n) | None => None end
  end.

Lemma header_facts buf :
  zlen buf < 2 ^ 62 →
  match header buf with
  | None => zlen buf < 5
  | Some (a, n) =>
      5 ≤ zlen buf ∧ u32 n ∧ Protocol.load buf 0 = Done a ∧
      Protocol.read_uint32_le buf 1 = Done n
  end.
Proof.
  intros Hl. destruct buf as [|a l]; simpl; [by rewrite zlen_nil|].
  destruct (Protocol.take_u32 l) as [[n rest]|] eqn:Ht.
  - destruct (Protocol.read_after_byte a l (zlen (a :: l)) n rest) as [-> ->]; [|done|done|].
    { apply Protocol.readable_all. lia. }
    apply Protocol.take_u32_Some in Ht as [Hn ->]. autorewrite with treenity_len.
    rewrite Protocol.zlen_u32_bytes. zlen_facts. split_and!; [lia|done|done|done].
  - apply Z.nle_gt. intros Hge. rewrite zlen_cons in Hge.
    destruct (Protocol.take_u32_drop l) as (n & _ & Hn); [lia|]. by rewrite Hn in Ht.
Qed.

Lemma header_app buf more a n : header buf = Some (a, n) → header (buf ++ more) = Some (a, n).
Proof.
  destruct buf as [|b l]; [done|]. simpl.
  destruct (Protocol.take_u32 l) as [[z rest]|] eqn:Ht; [|done].
  apply Protocol.take_u32_Some in Ht as [Hz ->]. rewrite <- (assoc_L (++)).
  by rewrite Protocol.take_u32_bytes.
Qed.

Lemma frames_step fuel buf this w :
  zlen buf < 2 ^ 62 →
  frames (S fuel) buf this w =
  match header buf with
  | None => Done (buf, this, w)
  | Some (a, n) =>
      if zlen buf <? wrap32 (5 + n) then Done (buf, this, w)
      else
        '(this, w) ← handle_request a (drop 5 buf) n this w;
        if zlen buf <? 5 + n then Undefined
        else frames fuel (drop (Z.to_nat (5 + n)) buf) this w
  end.
Proof.
  intros Hl. pose proof (header_facts buf Hl) as Hh. cbn [frames].
  destruct (header buf) as [[a n]|].
  - destruct Hh as (H5 & _ & -> & ->). by rewrite (proj2 (Z.leb_le _ _)).
  - by rewrite (proj2 (Z.leb_gt _ _)).
Qed.

Lemma zlen_drop {A} (l : list A) n : 0 ≤ n ≤ zlen l → zlen (drop (Z.to_nat n) l) = zlen l - n.
Proof. unfold zlen. rewrite length_drop. lia. Qed.

Lemma frames_fuel f1 f2 buf this w :
  zlen buf < 2 ^ 62 → (length buf < f1)%nat → (length buf < f2)%nat →
  frames f1 buf this w = frames f2 buf this w.
Proof.
  revert f2 buf this w. induction f1 as [|f1 IH]; intros f2 buf this w Hl Hf1 Hf2; [lia|].
  destruct f2 as [|f2]; [lia|]. rewrite !frames_step by done.
  pose proof (header_facts buf Hl) as Hh. destruct (header buf) as [[a n]|]; [|done].
  destruct Hh as (H5 & Hn & _). unfold u32 in Hn. case_match; [done|].
  destruct (handle_request a (drop 5 buf) n this w) as [[this1 w1]| |]; simpl; [|done..].
  destruct (Z.ltb_spec (zlen buf) (5 + n)) as [|Hge]; [done|].
  apply IH; [rewrite zlen_drop by lia; lia|rewrite length_drop; unfold zlen in *; lia..].
Qed.

(** A prefix of the stream is processed the same whether or not more has come. *)
Lemma frames_app f1 f buf more rest this w this1 w1 :
  zlen (buf ++ more) < 2 ^ 62 → (length (buf ++ more) < f)%nat →
  frames f1 buf this w = Done (rest, this1, w1) →
  frames f (buf ++ more) this w = frames f (rest ++ more) this1 w1 ∧
  (length rest ≤ length buf)%nat.
Proof.
  revert f buf this w. induction f1 as [|f1 IH]; intros f buf this w Hl Hf; [done|].
  destruct f as [|f]; [lia|]. assert (zlen buf < 2 ^ 62) as Hlb.
  { rewrite zlen_app in Hl. zlen_facts. lia. }
  rewrite (frames_step f1) by done. pose proof (header_facts buf Hlb) as Hh.
  destruct (header buf) as [[a n]|] eqn:Hhead; [|by intros [= <- <- <-]].
  destruct Hh as (H5 & Hn & _). unfold u32 in Hn.
  destruct (Z.ltb_spec (zlen buf) (wrap32 (5 + n))) as [|Hw]; [by intros [= <- <- <-]|].
  rewrite bind_Done. intros ([this2 w2] & Hhandle & Hrest).
  destruct (Z.ltb_spec (zlen buf) (5 + n)) as [|Hge]; [done|].
  rewrite (frames_step f) by done. rewrite (header_app _ more _ _ Hhead).
  rewrite (proj2 (Z.ltb_ge _ _)) by (rewrite zlen_app; zlen_facts; lia).
  assert (length buf = Z.to_nat (zlen buf)) as Hlen by (unfold zlen; lia).
  rewrite (drop_app_le _ _ 5) by lia.
  assert (5 + zlen (drop 5 buf) = zlen buf) as Hd5 by (unfold zlen in *; rewrite length_drop; lia).
  rewrite handle_request_local in Hhandle by (split; zlen_facts; lia).
  rewrite zlen_app in Hl. zlen_facts.
  rewrite (handle_request_local a (drop 5 buf ++ more)) by (split; rewrite zlen_app; lia).
  rewrite take_app_le by (unfold zlen in *; lia). rewrite Hhandle. simpl.
  rewrite (proj2 (Z.ltb_ge _ _)) by (rewrite zlen_app; zlen_facts; lia).
  rewrite drop_app_le by lia.
  assert (zlen (drop (Z.to_nat (5 + n)) buf ++ more) < 2 ^ 62) as Hl2.
  { rewrite zlen_app, zlen_drop by lia. lia. }
  destruct (IH f (drop (Z.to_nat (5 + n)) buf) this2 w2 Hl2) as [-> Hr]; [|done|].
  { rewrite !length_app, length_drop in *. lia. }
  rewrite length_drop in Hr. split; [|lia].
  apply (frames_fuel f (S f)); unfold zlen in *; rewrite ?length_app in *; lia.
Qed.

(** The frame of a request is handled and dropped. *)
Lemma frames_request r rest fuel this w :
  zlen (Protocol.payload r) < 2 ^ 32 - 5 →
  let buf := Protocol.serialize_request r ++ rest in
  zlen buf < 2 ^ 62 →
  frames (S fuel) buf this w = '(this, w) ← handle r this w; frames fuel rest this w.
Proof.
  cbv zeta. intros Hp Hl. rewrite frames_step by done. revert Hl. unfold handle.
  rewrite Protocol.serialize_request_eq by lia. set (n := zlen (Protocol.payload r)) in *.
  assert (u32 n) as Hn by (unfold u32, n in *; zlen_facts; lia).
  set (a := Protocol.CommandType_code (Protocol.request_action r)).
  rewrite <- app_comm_cons, <- (assoc_L (++)). autorewrite with treenity_len.
  rewrite Protocol.zlen_u32_bytes. fold n. unfold header. rewrite Protocol.take_u32_bytes by done.
  intros Hl. zlen_facts. unfold u32 in Hn. rewrite wrap32_small by (unfold u32; lia).
  rewrite !(proj2 (Z.ltb_ge _ _)) by lia.
  change (drop 5 (a :: ?l)) with (drop 4 l). rewrite (drop_app_length' _ _ 4) by
    (pose proof (Protocol.zlen_u32_bytes n); unfold zlen in *; lia).
  rewrite (handle_request_local a (Protocol.payload r ++ rest)) by
    (split; autorewrite with treenity_len; fold n; lia).
  assert (Z.to_nat n = length (Protocol.payload r)) as Hnl by (unfold n, zlen; lia).
  rewrite (take_app_length' _ _ (Z.to_nat n)) by done.
  replace (Z.to_nat (5 + n)) with (S (4 + length (Protocol.payload r))) by lia.
  rewrite skipn_cons, <- drop_drop, (drop_app_length' _ _ 4) by
    (pose proof (Protocol.zlen_u32_bytes n); unfold zlen in *; lia).
  by rewrite drop_app_length.
Qed.

Definition sendable (r : Protocol.request) : Prop :=
  Protocol.valid_request r ∧ zlen (Protocol.payload r) < 2 ^ 32 - 5.

Lemma frames_requests rs rest fuel this w :
  Forall sendable rs →
  let buf := concat (Protocol.serialize_request <$> rs) ++ rest in
  zlen buf < 2 ^ 62 → (length buf < fuel)%nat →
  frames fuel buf this w = '(this, w) ← handle_all rs this w; frames fuel rest this w.
Proof.
  cbv zeta. revert fuel this w. induction rs as [|r rs IH]; intros fuel this w Hrs Hl Hf; [done|].
  apply Forall_cons in Hrs as [[Hv Hp] Hrs]. destruct fuel as [|fuel]; [lia|].
  revert Hl Hf. cbn [fmap list_fmap concat]. rewrite <- (assoc_L (++)). intros Hl Hf.
  rewrite frames_request by done. cbn [handle_all].
  destruct (handle r this w) as [[this1 w1]| |]; simpl; [|done..].
  assert (0 < length (Protocol.serialize_request r))%nat as Hpos.
  { rewrite Protocol.serialize_request_eq by lia. simpl. lia. }
  rewrite !zlen_app in Hl. rewrite !length_app in Hf. zlen_facts.
  rewrite IH; [|done|rewrite zlen_app; lia|rewrite length_app; lia].
  destruct (handle_all rs this1 w1) as [[this2 w2]| |]; simpl; [|done..].
  apply (frames_fuel fuel (S fuel)); [lia..].
Qed.

Lemma serialize_length r :
  zlen (Protocol.payload r) < 2 ^ 32 →
  zlen (Protocol.serialize_request r) = 5 + zlen (Protocol.payload r).
Proof.
  intros Hp. rewrite Protocol.serialize_request_eq by done. autorewrite with treenity_len.
  rewrite Protocol.zlen_u32_bytes. lia.
Qed.

(** A part of a frame is kept until the rest has come. *)
Lemma frames_incomplete r part more fuel this w :
  sendable r → part ++ more = Protocol.serialize_request r → more ≠ [] →
  frames (S fuel) part this w = Done (part, this, w).
Proof.
  intros [Hv Hp] Heq Hmore. assert (zlen part < 5 + zlen (Protocol.payload r)) as Hlt.
  { rewrite <- serialize_length by lia. rewrite <- Heq, zlen_app.
    destruct more; [done|]. rewrite zlen_cons. zlen_facts. lia. }
  rewrite frames_step by lia. destruct (header part) as [[a n]|] eqn:Hh; [|done].
  apply (header_app _ more) in Hh. rewrite Heq, Protocol.serialize_request_eq in Hh by lia.
  unfold header in Hh. zlen_facts. rewrite Protocol.take_u32_bytes in Hh by (unfold u32; lia).
  injection Hh as _ <-. rewrite wrap32_small by (unfold u32; lia).
  by rewrite (proj2 (Z.ltb_lt _ _)).
Qed.

(** A prefix of a stream of requests is some of them and a part of the next. *)
Lemma stream_prefix rs pre more :
  pre ++ more = concat (Protocol.serialize_request <$> rs) →
  ∃ rs1 rs2 part, rs = rs1 ++ rs2 ∧
    pre = concat (Protocol.serialize_request <$> rs1) ++ part ∧
    part ++ more = concat (Protocol.serialize_request <$> rs2) ∧
    match rs2 with
    | [] => part = []
    | r :: _ => ∃ more', part ++ more' = Protocol.serialize_request r ∧ more' ≠ []
    end.
Proof.
  revert pre. induction rs as [|r rs IH]; intros pre; cbn [fmap list_fmap concat].
  - intros [-> ->]%app_eq_nil. by exists [], [], [].
  - intros Heq. destruct (decide (length pre < length (Protocol.serialize_request r))%nat) as [Hlt|Hge].
    + exists [], (r :: rs), pre. split_and!; [done|done|done|].
      apply app_eq_inv in Heq as [(l & Hr & _)|(l & Hr & _)].
      * rewrite Hr, length_app in Hlt. lia.
      * exists l. split; [done|]. intros ->. rewrite app_nil_r in Hr. rewrite Hr in Hlt. lia.
    + apply app_eq_inv in Heq as [(l & Hr & Htl)|(l & Hr & Htl)].
      * destruct (IH l (eq_sym Htl)) as (rs1 & rs2 & part & -> & -> & Hq & Hm).
        exists (r :: rs1), rs2, part. split_and!; [done| |done|done].
        cbn [fmap list_fmap concat]. by rewrite <- (assoc_L (++)).
      * assert (l = []) as -> by (apply nil_length_inv; rewrite Hr, length_app in Hge; lia).
        rewrite app_nil_r in Hr. destruct (IH [] Htl) as (rs1 & rs2 & part & -> & Hp & Hq & Hm).
        exists (r :: rs1), rs2, part. split_and!; [done| |done|done].
        cbn [fmap list_fmap concat]. rewrite <- (assoc_L (++)), <- Hp, app_nil_r. done.
Qed.

Lemma handle_ok r this w :
  wf this w → sendable r → ok (handle r this w) this.
Proof.
  intros Hwf [_ Hp]. apply handle_request_ok; [done|]. apply Protocol.readable_all. lia.
Qed.

Lemma handle_all_ok rs this w :
  wf this w → Forall sendable rs → ok (handle_all rs this w) this.
Proof.
  revert this w. induction rs as [|r rs IH]; intros this w Hwf Hrs; [by apply ok_ret|].
  apply Forall_cons in Hrs as [Hr Hrs].
  destruct (handle_ok r this w Hwf Hr) as (this1 & w1 & Hh & Hwf1 & Hr1 & Hf1).
  destruct (IH this1 w1 Hwf1 Hrs) as (this2 & w2 & Ha & Hwf2 & Hr2 & Hf2).
  exists this2, w2. cbn [handle_all]. rewrite Hh. simpl. split_and!; [done|done|congruence..].
Qed.

Lemma handle_all_app rs rs' this w :
  handle_all (rs ++ rs') this w = '(this, w) ← handle_all rs this w; handle_all rs' this w.
Proof.
  revert this w. induction rs as [|r rs IH]; intros this w; simpl; [done|].
  destruct (handle r this w) as [[this1 w1]| |]; simpl; [apply IH|done..].
Qed.

(** Received in chunks, a prefix of a stream of requests is handled up to the last request
    that is complete, and the part of the next is kept. *)
Lemma receive_stream chunks rs buf more this w :
  wf this w → Forall sendable rs →
  buf ++ concat chunks ++ more = concat (Protocol.serialize_request <$> rs) →
  zlen (buf ++ concat chunks) < 2 ^ 62 →
  (∀ r rs', rs = r :: rs' → ∃ more, buf ++ more = Protocol.serialize_request r ∧ more ≠ []) →
  ∃ rs1 rs2 part, rs = rs1 ++ rs2 ∧ part ++ more = concat (Protocol.serialize_request <$> rs2) ∧
    buf ++ concat chunks = concat (Protocol.serialize_request <$> rs1) ++ part ∧
    (∀ r rs', rs2 = r :: rs' → ∃ more, part ++ more = Protocol.serialize_request r ∧ more ≠ []) ∧
    (more = [] → rs2 = []) ∧
    receive_all chunks buf this w = '(this, w) ← handle_all rs1 this w; mret (part, this, w).
Proof.
  revert rs buf this w. induction chunks as [|c chunks IH]; intros rs buf this w Hwf Hrs Heq Hl Hbuf.
  - exists [], rs, buf. split_and!; [done|done|by rewrite app_nil_r|done| |done]. intros ->.
    cbn [concat app] in Heq. rewrite app_nil_r in Heq. destruct rs as [|r rs]; [done|].
    destruct (Hbuf r rs eq_refl) as (more & Hmore & Hne). exfalso.
    apply (f_equal length) in Heq, Hmore. cbn [fmap list_fmap concat] in Heq.
    rewrite length_app in *. destruct more; [done|]. simpl in *. lia.
  - cbn [receive_all]. unfold receive. cbn [concat] in *.
    rewrite <- (assoc_L (++) c), (assoc_L (++) buf) in Heq. rewrite (assoc_L (++)) in Hl.
    destruct (stream_prefix _ _ _ Heq) as (rs1 & rs2 & part & -> & Hpre & Hrest & Hpart).
    apply Forall_app in Hrs as [Hrs1 Hrs2].
    destruct (handle_all_ok rs1 this w Hwf Hrs1) as (this1 & w1 & Hh & Hwf1 & _).
    assert (frames (S (length (buf ++ c))) (buf ++ c) this w = Done (part, this1, w1)) as ->.
    { rewrite Hpre at 2. rewrite zlen_app in Hl. zlen_facts.
      rewrite frames_requests; [|done|rewrite <- Hpre; lia|rewrite <- Hpre; lia].
      rewrite Hh. simpl. destruct rs2 as [|r rs2].
      - by rewrite Hpart.
      - destruct Hpart as (more' & Hm & Hne). apply Forall_cons in Hrs2 as [Hr _].
        by apply (frames_incomplete r part more'). }
    destruct (IH rs2 part this1 w1 Hwf1 Hrs2 Hrest) as (rs3 & rs4 & part' & -> & Hq & Hb & Hp & Hm & Hrun).
    + rewrite Hpre, <- (assoc_L (++)), zlen_app in Hl. zlen_facts. lia.
    + intros r rs' ->. done.
    + exists (rs1 ++ rs3), rs4, part'. split_and!; [by rewrite (assoc_L (++))|done| |done|done|].
      * by rewrite (assoc_L (++)), Hpre, fmap_app, concat_app, <- !(assoc_L (++)), Hb.
      * by rewrite handle_all_app, Hh.
Qed.

(** A stream of requests, from an empty buffer. *)
Lemma receive_requests chunks rs more this w :
  wf this w → Forall sendable rs →
  concat chunks ++ more = concat (Protocol.serialize_request <$> rs) →
  zlen (concat chunks) < 2 ^ 62 →
  ∃ rs1 rs2 part, rs = rs1 ++ rs2 ∧ part ++ more = concat (Protocol.serialize_request <$> rs2) ∧
    concat chunks = concat (Protocol.serialize_request <$> rs1) ++ part ∧
    (∀ r rs', rs2 = r :: rs' → ∃ more, part ++ more = Protocol.serialize_request r ∧ more ≠ []) ∧
    (more = [] → rs2 = [] ∧ part = []) ∧
    receive_all chunks [] this w = '(this, w) ← handle_all rs1 this w; mret (part, this, w).
Proof.
  intros Hwf Hrs Heq Hl.
  destruct (receive_stream chunks rs [] more this w Hwf Hrs Heq Hl)
    as (rs1 & rs2 & part & Hsplit & Hq & Hb & Hp & Hm & Hrun).
  - intros r rs' ->. exists (Protocol.serialize_request r). split; [done|].
    apply Forall_cons in Hrs as [[_ Hp] _]. rewrite Protocol.serialize_request_eq by lia. done.
  - exists rs1, rs2, part. split_and!; [done|done|done|done| |done]. intros Hnone.
    pose proof (Hm Hnone) as ->. split; [done|]. subst more. by apply app_eq_nil in Hq as [-> _].
Qed.

(** ** Stopping *)

Definition topic_map (this : t) : gmap str (option Topic.t) := HashMap.to_map (topics this).

(** The conditions of the invariant on a map of topics. *)
Definition topics_wf (M : gmap str (option Topic.t)) (w : world) : Prop :=
  (∀ n p, M !! n = Some p → ∃ tp, p = Some tp ∧ Topic.wf tp w) ∧
  (∀ n1 n2 t1 t2 x, M !! n1 = Some (Some t1) → M !! n2 = Some (Some t2) →
     Topic.owns (Topic.subs t1) x → Topic.owns (Topic.subs t2) x → n1 = n2).

Definition map_owned (M : gmap str (option Topic.t)) (x : Z) : Prop :=
  ∃ n tp, M !! n = Some (Some tp) ∧ Topic.owns (Topic.subs tp) x.

Lemma get_topic_map this n tp :
  HashMap.wf (topics this) → get_topic n this = Some tp ↔ topic_map this !! n = Some (Some tp).
Proof. intros Ht. rewrite get_topic_Some. unfold topic_map. by rewrite HashMap.find_to_map. Qed.

Lemma wf_topics_wf this w : wf this w → topics_wf (topic_map this) w.
Proof.
  intros [Ht _ _ Hnull Htop Hdis _ _ _]. split.
  - intros n p Hp. unfold topic_map in Hp. rewrite <- HashMap.find_to_map in Hp by done.
    destruct p as [tp|]; [|by destruct (Hnull n)]. exists tp. split; [done|].
    apply (Htop n). by apply get_topic_Some.
  - intros n1 n2 t1 t2 x. rewrite <- !get_topic_map by done. apply Hdis.
Qed.

Lemma topics_wf_insert M n tp tp' w w' :
  topics_wf M w → M !! n = Some (Some tp) → Topic.wf tp' w' →
  Topic.isolated (Topic.subs tp) w (Topic.subs tp') w' →
  topics_wf (<[n := Some tp']> M) w'.
Proof.
  intros [Hwf Hdis] Hn Htp' [Ht Hiso].
  assert (∀ n2 t2 x, n ≠ n2 → M !! n2 = Some (Some t2) → Topic.owns (Topic.subs t2) x →
            ¬ Topic.owns (Topic.subs tp') x) as Hother.
  { intros n2 t2 x Hne Hn2 Hx. apply Hiso.
    - destruct (Hwf n2 _ Hn2) as (t2' & [= <-] & Ht2).
      destruct Hx as (id & s & Hs & <- & Hx).
      destruct (Topic.subs_fd _ _ (Topic.wf_subs _ _ Ht2) id s Hs) as [|[_ ?]]; done.
    - intros Hx'. apply Hne. by eapply Hdis. }
  split.
  - intros n2 p [[<- <-]|[Hne Hn2]]%lookup_insert_Some; [by exists tp'|].
    destruct (Hwf n2 p Hn2) as (t2 & -> & Ht2). exists t2. split; [done|].
    eapply Topic.wf_touches; [done|exact Ht|]. intros x Hx Hx2. apply Hne. by eapply Hdis.
  - intros n1 n2 t1 t2 x [[<- E1]|[Hne1 E1]]%lookup_insert_Some
      [[<- E2]|[Hne2 E2]]%lookup_insert_Some Ho1 Ho2; [done| | |by eapply Hdis].
    + injection E1 as <-. by destruct (Hother n2 t2 x Hne2 E2).
    + injection E2 as <-. by destruct (Hother n1 t1 x Hne1 E1).
Qed.

(** The topic [tp0] is shut down on the way from [w] to [w'], all else being beside it. *)
Definition shut_beside (tp0 : Topic.t) (w : world) (found : option (option Topic.t)) (w' : world)
    : Prop :=
  ∃ tp' wa wb, found = Some (Some tp') ∧ Topic.spared (Topic.subs tp0) w wa ∧
    Topic.shutdown tp0 wa = Done (tp', wb) ∧ Topic.spared (Topic.subs tp') wb w'.

(** The topics of [M0] are being shut down, those of [X] already are. *)
Definition shutting_down (M0 : gmap str (option Topic.t)) (w : world) (X : gset str)
    (M : gmap str (option Topic.t)) (w' : world) : Prop :=
  topics_wf M w' ∧ touches (map_owned M0) w w' ∧ (∀ x, map_owned M x → map_owned M0 x) ∧
  (∀ n, n ∉ X → M !! n = M0 !! n) ∧
  (∀ n tp, n ∈ X → M !! n = Some (Some tp) → Topic.stop_flag tp = true) ∧
  (∀ n tp id, M !! n = Some (Some tp) → is_Some (Topic.subs tp !! id) →
     ∃ tp0, M0 !! n = Some (Some tp0) ∧ is_Some (Topic.subs tp0 !! id)) ∧
  ∀ n tp0, M0 !! n = Some (Some tp0) →
    if decide (n ∈ X) then shut_beside tp0 w (M !! n) w' else Topic.spared (Topic.subs tp0) w w'.

Lemma shutdown_any tp w :
  Topic.wf tp w →
  ∃ tp' w', Topic.shutdown tp w = Done (tp', w') ∧ Topic.wf tp' w' ∧
    Topic.stop_flag tp' = true ∧ Topic.isolated (Topic.subs tp) w (Topic.subs tp') w' ∧
    (∀ x, Topic.owns (Topic.subs tp') x → Topic.owns (Topic.subs tp) x) ∧
    (∀ id, is_Some (Topic.subs tp' !! id) → is_Some (Topic.subs tp !! id)).
Proof.
  intros Hwf. destruct (Topic.stop_flag tp) eqn:Hstop.
  - exists tp, w. unfold Topic.shutdown. rewrite Hstop. split_and!; try done.
    apply Topic.isolated_shrink; [apply touches_refl|done].
  - destruct (Topic.shutdown_facts tp w Hwf Hstop)
      as (tp' & w' & tr & Hs & Hwf' & _ & Hst & _ & He & Hiso & _).
    exists tp', w'. rewrite He in *. split_and!; try done.
    + intros x (id & s & Hs' & _). by rewrite lookup_empty in Hs'.
    + intros id [s Hs']. by rewrite lookup_empty in Hs'.
Qed.

Lemma shutting_down_step M0 w X M w1 n p :
  shutting_down M0 w X M w1 → M !! n = Some p → n ∉ X →
  ∃ p' w2, stop_topic p w1 = Done (p', w2) ∧
    shutting_down M0 w ({[n]} ∪ X) (<[n := p']> M) w2.
Proof.
  intros (Hwf & Ht & Hown & Hout & Hin & Hsub & Hbeside) Hp Hn.
  destruct (proj1 Hwf n p Hp) as (tp & -> & Htp).
  destruct (shutdown_any tp w1 Htp) as (tp' & w2 & Hs & Htp' & Hst & Hiso & Hshr & Hids).
  exists (Some tp'), w2. split; [unfold stop_topic; by rewrite Hs|]. split_and!.
  - by eapply topics_wf_insert.
  - apply (touches_trans _ _ w1); [done|]. eapply touches_weaken; [|apply Hiso].
    intros x Hx. apply Hown. by exists n, tp.
  - intros x (n2 & t2 & [[<- [= <-]]|[Hne Hn2]]%lookup_insert_Some & Hx); apply Hown.
    + exists n, tp. auto.
    + by exists n2, t2.
  - intros n2 Hn2. rewrite lookup_insert_ne by set_solver. apply Hout. set_solver.
  - intros n2 t2 Hn2 [[<- [= <-]]|[Hne Ht2]]%lookup_insert_Some; [done|].
    apply (Hin n2); [set_solver|done].
  - intros n2 t2 id [[<- [= <-]]|[Hne Ht2]]%lookup_insert_Some Hid; [|by eapply Hsub].
    apply (Hsub n tp id Hp). auto.
  - assert (∀ n2 t2, n ≠ n2 → M !! n2 = Some (Some t2) →
              Topic.spared (Topic.subs t2) w1 w2) as Hspared.
    { intros n2 t2 Hne Hn2. eapply touches_weaken; [|apply Hiso]. intros x Hx Hx2.
      apply Hne. by eapply (proj2 Hwf). }
    intros n2 t0 Hn2. specialize (Hbeside n2 t0 Hn2). destruct (decide (n = n2)) as [<-|Hne].
    + rewrite decide_True by set_solver. rewrite decide_False in Hbeside by done.
      rewrite <- Hout, Hp in Hn2 by done. injection Hn2 as <-.
      exists tp', w1, w2. rewrite lookup_insert_eq. split_and!; try done. apply touches_refl.
    + destruct (decide (n2 ∈ X)).
      * rewrite decide_True by set_solver.
        destruct Hbeside as (t2 & wa & wb & Ht2 & Ha & Hsh & Hb). exists t2, wa, wb.
        rewrite lookup_insert_ne by done. split_and!; try done.
        apply (touches_trans _ _ w1); [done|]. by apply (Hspared n2).
      * rewrite decide_False by set_solver. apply (touches_trans _ _ w1); [done|].
        apply (Hspared n2); [done|]. by rewrite Hout.
Qed.

(** All topics of the table have been shut down; [ts] is what has become of it. *)
Definition all_shut (this : t) (w : world) (ts : HashMap.t str (option Topic.t)) (w' : world) : Prop :=
  HashMap.wf ts ∧ dom (HashMap.to_map ts) = dom (topic_map this) ∧
  shutting_down (topic_map this) w (dom (HashMap.to_map ts)) (HashMap.to_map ts) w'.

Definition stopped_with (ts : HashMap.t str (option Topic.t)) (this : t) : t :=
  with_topics ts (with_running false this).

(** The byte that is to wake the main thread. *)
Lemma dummy_quiet path w dummy w' :
  open_ path O_WRONLY_NONBLOCK w = (dummy, w') →
  touches (λ _, False) w
    (if negb (dummy =? -1) then close_ dummy (write_ dummy [Byte.x00] w').2 else w').
Proof.
  intros Hopen. eapply open_bracket; [exact Hopen| |by intros ->].
  intros Hne. rewrite (proj2 (Z.eqb_neq _ _) Hne). simpl.
  pose proof (touches_write dummy [Byte.x00] w').
  destruct (write_ dummy [Byte.x00] w') as [ret w1]; simpl in *.
  apply (touches_trans _ _ w1); [done|apply touches_close].
Qed.

Lemma stop_shuts this w fd :
  wf this w → running this = true → fifo_fd this = Some fd →
  ∃ w3 ts w4, touches (λ _, False) w w3 ∧ wf this w3 ∧ all_shut this w3 ts w4 ∧
    stop this w = Done (stopped_with ts this, close_ fd w4).
Proof.
  intros Hwf Hrun Hfd. unfold stop. rewrite Hrun. simpl.
  set (w1 := unlink_ (server_path this) w).
  destruct (open_ (server_path this) O_WRONLY_NONBLOCK w1) as [dummy w2] eqn:Hopen.
  set (w3 := if negb (dummy =? -1) then _ else w2).
  assert (touches (λ _, False) w w3) as Hq.
  { apply (touches_trans _ _ w1); [apply touches_unlink|]. by eapply dummy_quiet. }
  assert (wf this w3) as Hwf3 by (apply (wf_quiet (λ _, False) _ w); tauto).
  destruct (HashMap.for_each_rule (λ (_ : str) found w, stop_topic found w)
    (shutting_down (topic_map this) w3) (topics this) w3 (wf_topics _ _ Hwf3))
    as (ts & w4 & Hloop & Htab & Hdom & HP).
  - split_and!; try done; [by apply wf_topics_wf|apply touches_refl|eauto|].
    intros n tp _. rewrite decide_False by set_solver. apply touches_refl.
  - intros X M w4 n p HP Hp Hn. by apply shutting_down_step.
  - exists w3, ts, w4. rewrite Hloop. simpl. by rewrite Hfd.
Qed.

Lemma own_fifo_apart this w fd :
  wf this w → running this = true → fifo_fd this = Some fd → ¬ map_owned (topic_map this) fd.
Proof.
  intros Hwf Hrun Hfd (n & tp & Hn & Hx). destruct (decide (fd = -1)) as [->|Hne].
  - by destruct Hx as (? & ? & _ & _ & ?).
  - destruct (wf_fifo _ _ Hwf fd Hrun Hfd Hne) as [_ Hno]. apply Hno. exists n, tp.
    by rewrite get_topic_map by apply Hwf.
Qed.

Lemma get_topic_stopped ts this n tp :
  HashMap.wf ts →
  get_topic n (stopped_with ts this) = Some tp ↔ HashMap.to_map ts !! n = Some (Some tp).
Proof. intros Hts. by rewrite get_topic_map. Qed.

(** Every topic has been reached by the loop. *)
Lemma all_shut_reached this w ts w' n tp :
  wf this w → all_shut this w ts w' → get_topic n this = Some tp →
  topic_map this !! n = Some (Some tp) ∧ n ∈ dom (HashMap.to_map ts).
Proof.
  intros Hwf (_ & Hdom & _) Htp. rewrite get_topic_map in Htp by apply Hwf.
  split; [done|]. rewrite Hdom. apply elem_of_dom. eauto.
Qed.

Lemma all_shut_wf this w ts w' fd :
  wf this w → all_shut this w ts w' → ¬ map_owned (topic_map this) fd →
  wf (stopped_with ts this) (close_ fd w').
Proof.
  intros [Hts ? ? _ _ _ _ ? Hk] (Htab & _ & Htw & _ & Hown & _ & _ & Hsub & _) Hno.
  pose proof (λ n tp, get_topic_stopped ts this n tp Htab) as Hget. split; try done.
  - intros n Hn. simpl in Hn. rewrite HashMap.find_to_map in Hn by done.
    by destruct (proj1 Htw n None Hn) as (? & ? & _).
  - intros n tp Htp%Hget. destruct (proj1 Htw n _ Htp) as (tp' & [= <-] & Hw).
    eapply Topic.wf_touches; [done|apply touches_close|]. simpl. intros x -> Hx.
    apply Hno, Hown. by exists n, tp.
  - intros n1 n2 t1 t2 x. rewrite !Hget. apply Htw.
  - intros n tp id Htp%Hget Hid. destruct (Hsub n tp id Htp Hid) as (tp0 & Hn0 & Hid0).
    rewrite <- get_topic_map in Hn0 by exact Hts. by eapply Hk.
Qed.

Lemma all_shut_stops this w ts w' n tp :
  wf this w → all_shut this w ts w' → get_topic n this = Some tp →
  ∃ tp', get_topic n (stopped_with ts this) = Some tp' ∧ Topic.stop_flag tp' = true.
Proof.
  intros Hwf Hall Htp. destruct (all_shut_reached _ _ _ _ _ _ Hwf Hall Htp) as [_ Hn].
  destruct Hall as (Htab & _ & Htw & _ & _ & _ & Hin & _). pose proof Hn as [p Hp]%elem_of_dom.
  destruct (proj1 Htw n p Hp) as (tp' & -> & _). exists tp'. rewrite get_topic_stopped by done.
  split; [done|]. by eapply Hin.
Qed.

Lemma all_shut_none this w ts w' n :
  wf this w → all_shut this w ts w' → get_topic n this = None →
  get_topic n (stopped_with ts this) = None.
Proof.
  intros Hwf (Htab & Hdom & _) Hn. apply eq_None_not_Some. intros [tp Htp].
  rewrite get_topic_stopped in Htp by done.
  assert (n ∈ dom (topic_map this)) as [p Hp]%elem_of_dom by (rewrite <- Hdom; apply elem_of_dom; eauto).
  destruct (proj1 (wf_topics_wf _ _ Hwf) n p Hp) as (tp0 & -> & _).
  apply (get_topic_map this n tp0 (wf_topics _ _ Hwf)) in Hp. congruence.
Qed.

(** What surrounds the loop in [stop] leaves the topics alone. *)
Lemma all_shut_beside this w0 w ts w' fd n tp :
  wf this w → all_shut this w ts w' → ¬ map_owned (topic_map this) fd →
  touches (λ _, False) w0 w → get_topic n this = Some tp →
  shut_beside tp w0 (Some (get_topic n (stopped_with ts this))) (close_ fd w').
Proof.
  intros Hwf Hall Hno Hq Htp. destruct (all_shut_reached _ _ _ _ _ _ Hwf Hall Htp) as [Hn Hnd].
  destruct Hall as (Htab & _ & _ & _ & Hown & _ & _ & _ & Hbeside). specialize (Hbeside n tp Hn).
  rewrite decide_True in Hbeside by done.
  destruct Hbeside as (tp' & wa & wb & Htp' & Ha & Hsh & Hb). exists tp', wa, wb.
  rewrite (proj2 (get_topic_stopped ts this n tp' Htab) Htp'). split_and!; [done| |done|].
  - apply (touches_trans _ _ w); [|done]. by eapply touches_weaken; [|exact Hq].
  - apply (touches_trans _ _ w'); [done|]. eapply touches_weaken; [|apply touches_close].
    simpl. intros x -> Hx. apply Hno, Hown. by exists n, tp'.
Qed.

Lemma stop_facts this w fd :
  wf this w → running this = true → fifo_fd this = Some fd →
  ∃ this' w', stop this w = Done (this', w') ∧ wf this' w' ∧ running this' = false ∧
    fifo_fd this' = Some fd ∧
    (∀ n, is_Some (get_topic n this) → ∃ tp, get_topic n this' = Some tp ∧ Topic.stop_flag tp = true) ∧
    (∀ n, match get_topic n this with
          | Some tp => shut_beside tp w (Some (get_topic n this')) w'
          | None => get_topic n this' = None ∧ touches (λ _, True) w w'
          end) ∧
    ∃ w1, w' = close_ fd w1.
Proof.
  intros Hwf Hrun Hfd.
  destruct (stop_shuts this w fd Hwf Hrun Hfd) as (w3 & ts & w4 & Hq & Hwf3 & Hall & ->).
  pose proof (own_fifo_apart this w3 fd Hwf3 Hrun Hfd) as Hno. eexists _, _. split; [done|].
  split_and!; [by eapply all_shut_wf|done|done| | |by eexists].
  - intros n [tp Htp]. by eapply all_shut_stops.
  - intros n. destruct (get_topic n this) as [tp|] eqn:Hn; [by eapply all_shut_beside|].
    split; [by eapply all_shut_none|]. destruct Hall as (_ & _ & _ & Ht & _).
    apply (touches_trans _ _ w3); [|apply (touches_trans _ _ w4)].
    + by eapply touches_weaken; [|exact Hq].
    + by eapply touches_weaken; [|exact Ht].
    + by eapply touches_weaken; [|apply touches_close].
Qed.

(** ** Steps *)

Lemma frames_wf fuel buf this w rest this' w' :
  wf this w → zlen buf < 2 ^ 62 → frames fuel buf this w = Done (rest, this', w') →
  wf this' w' ∧ running this' = running this ∧ fifo_fd this' = fifo_fd this ∧
  zlen rest ≤ zlen buf.
Proof.
  revert buf this w. induction fuel as [|fuel IH]; intros buf this w Hwf Hl; [done|].
  rewrite frames_step by done. pose proof (header_facts buf Hl) as Hh.
  destruct (header buf) as [[a n]|]; [|intros [= <- <- <-]; split_and!; done || lia].
  destruct Hh as (H5 & Hn & _). unfold u32 in Hn.
  case_match; [intros [= <- <- <-]; split_and!; done || lia|].
  rewrite bind_Done. intros ([this1 w1] & Hh & Hrest).
  destruct (Z.ltb_spec (zlen buf) (5 + n)) as [|Hge]; [done|].
  assert (zlen (drop (Z.to_nat 5) buf) = zlen buf - 5) as Hd by (apply zlen_drop; lia).
  change (Z.to_nat 5) with 5%nat in Hd.
  destruct (handle_request_ok a (drop 5 buf) n this w Hwf) as (this2 & w2 & Hh2 & Hwf2 & Hr2 & Hf2).
  { split; lia. }
  rewrite Hh in Hh2. injection Hh2 as <- <-.
  assert (zlen (drop (Z.to_nat (5 + n)) buf) = zlen buf - (5 + n)) as Hdn by (apply zlen_drop; lia).
  destruct (IH (drop (Z.to_nat (5 + n)) buf) this1 w1 Hwf2 ltac:(lia) Hrest) as (? & ? & ? & ?). split_and!; [done|congruence|congruence|lia].
Qed.

Lemma work_wf name this w this' w' :
  wf this w → small this → work name this w = Done (this', w') →
  wf this' w' ∧ fifo_fd this' = fifo_fd this.
Proof.
  intros Hwf Hsmall. unfold work. destruct (get_topic name this) as [tp|] eqn:Htp; [|by intros [= <- <-]].
  pose proof (wf_topic _ _ Hwf name tp Htp) as Hw. pose proof (Hsmall name tp Htp) as Hl.
  destruct (Topic.run_step_facts tp w Hw Hl) as (tp' & w2 & Hrun & Hwf' & _ & _ & _ & Hiso & _).
  rewrite Hrun. intros [= <- <-]. split; [|done]. eapply wf_set_topic; [done|done|done|done|].
  intros id Hid. eapply (wf_known _ _ Hwf name tp id Htp). by eapply Topic.run_step_ids.
Qed.

(** *** The calls that are made *)

Lemma work_respects R `{!Respects R} name this w this' w' :
  work name this w = Done (this', w') → R w w'.
Proof.
  unfold work. destruct (get_topic name this) as [tp|]; [|by intros [= _ <-]].
  intros ([tp' w1] & Hrun & [= _ <-])%bind_Done. by eapply (Topic.run_step_respects R).
Qed.

Lemma send_response_respects R `{!RespectsOpen R} pid status payload w :
  R w (send_response pid status payload w).
Proof.
  unfold send_response. pose proof (respects_open (R := R) (response_fifo pid) O_WRONLY w) as Ho.
  destruct (open_ _ O_WRONLY w) as [fd w1]; simpl in Ho. destruct (negb _); [|done].
  transitivity w1; [done|].
  pose proof (respects_write (R := R) fd (Protocol.serialize_response status payload) w1) as Hwr.
  destruct (write_ fd _ w1) as [ret w2]; simpl in Hwr.
  transitivity w2; [done|apply respects_close].
Qed.

Lemma is_duplicate_respects R `{!RespectsOpen R} meta w : R w (is_duplicate meta w).2.
Proof.
  unfold is_duplicate, Ipc.is_reader_active. destruct meta as [meta|]; [|done].
  destruct (is_active meta); [|done].
  pose proof (respects_open (R := R) (ipc_path meta) O_WRONLY_NONBLOCK w) as Ho.
  destruct (open_ _ O_WRONLY_NONBLOCK w) as [fd w1]; simpl in *.
  destruct (0 <=? fd); [|done]. transitivity w1; [done|apply respects_close].
Qed.

Lemma handle_request_respects R `{!RespectsOpen R} a payload len this w this' w' :
  handle_request a payload len this w = Done (this', w') → R w w'.
Proof.
  pose proof (send_response_respects R) as Hresp. destruct a; try (by intros [= _ <-]); simpl;
    unfold handle_create, handle_list, handle_info, handle_producer_connect, handle_publish,
      handle_subscriber_connect, handle_commit, handle_disconnect;
    intros (r & _ & Hr)%bind_Done; revert Hr; (destruct r as [r|]; [|by intros [= _ <-]]).
  - destruct r as [pid name]. destruct (negb _); [by intros [= _ <-]|].
    destruct (create_topic name this) as [created this1].
    destruct (negb created); by intros [= _ <-].
  - by intros [= _ <-].
  - destruct r as [pid id]. destruct (HashMap.find id _); by intros [= _ <-].
  - destruct r as [pid name]. destruct (get_topic name this); by intros [= _ <-].
  - destruct r as [[name k] v]. destruct (if negb _ then _ else _); by intros [= _ <-].
  - destruct r as [[[[pid id] name] p] o]. destruct (_ || _); [by intros [= _ <-]|].
    destruct (HashMap.find name (topics this)) as [found|]; [|by intros [= _ <-]].
    pose proof (is_duplicate_respects R (HashMap.find id (client_index this)) w) as Hdup.
    destruct (is_duplicate _ w) as [dup w1]; simpl in Hdup. destruct dup.
    { intros [= _ <-]. by transitivity w1. }
    intros (tp & _ & ([[b tp'] w2] & Hadd & [= _ <-])%bind_Done)%bind_Done.
    transitivity w1; [done|]. etransitivity; [apply Hresp|].
    by eapply (Topic.add_subscriber_respects R).
  - destruct r as [id o]. destruct (HashMap.find id _); by intros [= _ <-].
  - destruct (HashMap.find r (client_index this)) as [meta|]; [|by intros [= _ <-]].
    destruct (HashMap.find (topic meta) _) as [found|]; [|by intros [= _ <-]].
    intros (tp & _ & ([[b tp'] w2] & Hrm & [= _ <-])%bind_Done)%bind_Done.
    by eapply (Topic.remove_subscriber_respects R).
Qed.

Lemma frames_respects R `{!RespectsOpen R} fuel buf this w rest this' w' :
  frames fuel buf this w = Done (rest, this', w') → R w w'.
Proof.
  revert buf this w. induction fuel as [|fuel IH]; intros buf this w; simpl; [done|].
  destruct (negb _); [by intros [= _ _ <-]|]. intros (a & _ & (n & _ & Hr)%bind_Done)%bind_Done.
  destruct (zlen buf <? _); [by injection Hr as _ _ <-|].
  apply bind_Done in Hr as ([this1 w1] & Hh & Hr). destruct (zlen buf <? _); [done|].
  transitivity w1; [by eapply (handle_request_respects R)|by eapply IH].
Qed.

Lemma stop_respects R `{!RespectsOpen R} this w this' w' :
  stop this w = Done (this', w') → R w w'.
Proof.
  unfold stop. destruct (negb (running this)); [by intros [= _ <-]|].
  pose proof (respects_open (R := R) (server_path this) O_WRONLY_NONBLOCK
    (unlink_ (server_path this) w)) as Ho. simpl.
  destruct (open_ _ O_WRONLY_NONBLOCK _) as [dummy w1]; simpl in Ho.
  intros ([ts w2] & Hloop & (fd & _ & [= _ <-])%bind_Done)%bind_Done.
  transitivity w2; [|apply respects_close].
  transitivity w1; [etransitivity; [apply respects_unlink|exact Ho]|].
  set (w3 := if negb (dummy =? -1) then _ else w1) in Hloop. transitivity w3.
  - unfold w3. destruct (negb _); [|done].
    etransitivity; [apply (respects_write dummy [Byte.x00])|apply respects_close].
  - revert Hloop. apply HashMap.for_each_preorder; [apply _|].
    intros n found w4 found' w5. unfold stop_topic. destruct found as [tp|]; [|by intros [= _ <-]].
    intros ([tp' w6] & Hs & [= _ <-])%bind_Done. by eapply (Topic.shutdown_respects R).
Qed.

Lemma make_facts path w :
  correct_start (make path w).1 = true →
  wf (make path w).1 (make path w).2 ∧ is_Some (fifo_fd (make path w).1) ∧
  running (make path w).1 = true.
Proof.
  unfold make. destruct (mkfifo_ path (unlink_ path w)) as [ret w1]. destruct (ret =? -1); [done|].
  pose proof (open_result path O_RDWR w1) as Hopen.
  destruct (open_ path O_RDWR w1) as [fd w2]. simpl in *.
  destruct (Z.eqb_spec fd (-1)) as [->|Hfd]; [done|]. intros _.
  assert (∀ n, HashMap.find n (HashMap.make_default : HashMap.t str (option Topic.t)) = None) as Hnone
    by (intros; apply HashMap.find_make_default).
  split_and!; [|by eexists|done]. split; simpl; auto with treenity; unfold get_topic; simpl.
  - intros n. by rewrite Hnone.
  - intros n tp. by rewrite Hnone.
  - intros n1 n2 t1 t2 x. by rewrite Hnone.
  - intros fd' _ [= <-] _. destruct Hopen as [[? _]|(_ & _ & Ho)]; [done|].
    split; [apply Ho; auto|]. intros (n & tp & Htp & _). unfold get_topic in Htp. simpl in Htp.
    by rewrite Hnone in Htp.
  - intros id meta. by rewrite HashMap.find_make_default.
  - intros n tp id. by rewrite Hnone.
Qed.

(** ** Requests by their contents *)

Lemma parse_own r :
  sendable r →
  Protocol.parse_request (Protocol.request_action r) (Protocol.payload r)
    (zlen (Protocol.payload r)) = Done (Some r).
Proof.
  intros [Hv Hp]. rewrite Protocol.parse_request_refines by (apply Protocol.readable_all; lia).
  rewrite Protocol.take_window, Protocol.window_all. f_equal. apply Protocol.request_exact; [lia|].
  done.
Qed.

(** The request that the payload of a frame holds, if any. *)
Definition request_in (a : byte) (payload : str) : option Protocol.request :=
  c ← Protocol.CommandType_of a;
  match Protocol.parse_request c payload (zlen payload) with
  | Done r => r
  | _ => None
  end.

(** The handler sees to that request, or does nothing. *)
Lemma handle_request_cases a payload len this w :
  Protocol.readable payload len → len < 2 ^ 32 - 5 →
  match request_in a (take (Z.to_nat len) payload) with
  | Some r => sendable r ∧ handle_request a payload len this w = handle r this w
  | None => handle_request a payload len this w = Done (this, w)
  end.
Proof.
  intros Hr Hlen. rewrite handle_request_local by done.
  set (bytes := take (Z.to_nat len) payload).
  assert (zlen bytes = len) as Htake.
  { destruct Hr as [Hl Hm]. unfold bytes, zlen in *. rewrite length_take. lia. }
  assert (Protocol.readable bytes len) as Hb by (destruct Hr; split; lia). unfold request_in.
  destruct (Protocol.CommandType_of a) as [c|] eqn:Ha; cbn [mbind option_bind]; [|by destruct a].
  rewrite Htake. pose proof (Protocol.parse_request_refines c bytes len Hb) as Hp.
  assert (take (Z.to_nat len) bytes = bytes) as Hall by (apply take_ge; unfold zlen in Htake; lia).
  rewrite Hall in Hp. rewrite Hp. destruct (option_map fst _) as [r|] eqn:Hparse.
  - apply Protocol.request_exact in Hparse as (Hc & Hv & Hpay); [|lia].
    split; [split; [done|by rewrite <- Hpay, Htake; lia]|].
    unfold handle. rewrite <- Hpay, Htake. f_equal.
    rewrite Hc. destruct a; simpl in Ha; simplify_eq; by rewrite <- Ha.
  - clear Hparse. destruct a; simpl in Ha; simplify_eq; simpl in Hp |- *;
      unfold handle_create, handle_list, handle_info, handle_producer_connect, handle_publish,
        handle_subscriber_connect, handle_commit, handle_disconnect;
      match goal with |- (mbind _ ?p) = _ => destruct p as [[?|]| |]; try done end;
      by repeat match goal with H : (?a * ?b)%type |- _ => destruct H end.
Qed.

(** A buffer without a complete frame; and the requests that a buffer begins with, up to
    such a rest. *)
Definition resting (buf : str) : Prop :=
  match header buf with Some (_, n) => zlen buf < 5 + n | None => True end.

Inductive says : str → list Protocol.request → str → Prop :=
| says_rest buf : resting buf → says buf [] buf
| says_frame buf a n rs rest :
    header buf = Some (a, n) → 5 + n ≤ zlen buf → 0 ≤ n →
    says (drop (Z.to_nat (5 + n)) buf) rs rest →
    says buf (option_list (request_in a (take (Z.to_nat n) (drop 5 buf))) ++ rs) rest.

Lemma says_resting buf rs rest : says buf rs rest → resting rest.
Proof. by induction 1. Qed.

(** What comes later continues with what was left. *)
Lemma says_app buf rs rest more rs' rest' :
  says buf rs rest → says (rest ++ more) rs' rest' → says (buf ++ more) (rs ++ rs') rest'.
Proof.
  induction 1 as [buf Hrest|buf a n rs rest Hh Hn Hpos _ IH]; intros Hmore; [done|].
  rewrite <- (assoc_L (++)).
  assert (length buf = Z.to_nat (zlen buf)) as Hlen by (unfold zlen; lia).
  replace (take (Z.to_nat n) (drop 5 buf)) with (take (Z.to_nat n) (drop 5 (buf ++ more))).
  - apply says_frame; [by apply header_app|rewrite zlen_app; zlen_facts; lia|done|].
    rewrite drop_app_le by lia. by apply IH.
  - rewrite drop_app_le by lia. rewrite take_app_le; [done|]. rewrite length_drop. lia.
Qed.

(** Somewhere at the front of a frame, once those before are gone, a header announces a
    payload so long that the length of the frame wraps. *)
Inductive overrun : str → Prop :=
| overrun_here buf a n : header buf = Some (a, n) → 2 ^ 32 - 5 ≤ n → overrun buf
| overrun_later buf a n :
    header buf = Some (a, n) → 5 + n ≤ zlen buf → overrun (drop (Z.to_nat (5 + n)) buf) →
    overrun buf.

(** Whatever comes next is defined: the main thread receives any bytes, unless there is a frame
    among them whose length wraps, any worker takes its turn, and the handler stops the
    server. *)
Record goes_on (recv_buf : str) (this : t) (w : world) : Prop := {
  goes_receives bytes :
    running this = true → zlen bytes ≤ 1024 →
    (∃ recv_buf' this' w', receive bytes recv_buf this w = Done (recv_buf', this', w')) ∨
    overrun (recv_buf ++ bytes);
  goes_works name : small this → ∃ this' w', work name this w = Done (this', w');
  goes_stops : ∃ this' w', stop this w = Done (this', w') ∧ running this' = false;
  goes_closes : is_Some (fifo_fd this)
}.

(** Enough iterations are allowed for, and no frame is undefined but one whose length wraps. *)
Lemma frames_done_or_overrun fuel buf this w :
  wf this w → zlen buf < 2 ^ 62 → (length buf < fuel)%nat →
  (∃ rest this' w', frames fuel buf this w = Done (rest, this', w')) ∨ overrun buf.
Proof.
  revert buf this w. induction fuel as [|fuel IH]; intros buf this w Hwf Hl Hfuel; [lia|].
  rewrite frames_step by done. pose proof (header_facts buf Hl) as Hh.
  destruct (header buf) as [[a n]|] eqn:Hhd; [|left; by do 3 eexists].
  destruct Hh as (H5 & Hn & _). unfold u32 in Hn.
  destruct (Z.lt_ge_cases n (2 ^ 32 - 5)) as [Hsmall|]; [|right; by eapply overrun_here].
  unfold wrap32. rewrite Z.mod_small by lia.
  destruct (Z.ltb_spec (zlen buf) (5 + n)) as [|Hge]; [left; by do 3 eexists|].
  assert (zlen (drop (Z.to_nat 5) buf) = zlen buf - 5) as Hd by (apply zlen_drop; lia).
  change (Z.to_nat 5) with 5%nat in Hd.
  destruct (handle_request_ok a (drop 5 buf) n this w Hwf) as (this1 & w1 & -> & Hwf1 & _);
    [split; lia|]. cbn [mbind outcome_bind].
  assert (zlen (drop (Z.to_nat (5 + n)) buf) = zlen buf - (5 + n)) as Hdn by (apply zlen_drop; lia).
  destruct (IH (drop (Z.to_nat (5 + n)) buf) this1 w1 Hwf1 ltac:(lia)) as [Hdone|Hov];
    [unfold zlen in *; lia|by left|right; by eapply overrun_later].
Qed.

Lemma wf_goes_on recv_buf this w :
  wf this w → is_Some (fifo_fd this) → zlen recv_buf < 2 ^ 62 - 1024 → goes_on recv_buf this w.
Proof.
  intros Hwf [fd Hfd] Hl. split; [..|by eexists].
  - intros bytes _ Hb. apply frames_done_or_overrun; [done|rewrite zlen_app; lia|lia].
  - intros name Hsmall. unfold work. destruct (get_topic name this) as [tp|] eqn:Htp; [|by do 2 eexists].
    destruct (Topic.run_step_facts tp w (wf_topic _ _ Hwf name tp Htp) (Hsmall name tp Htp))
      as (tp' & w' & -> & _). by do 2 eexists.
  - destruct (running this) eqn:Hr; [|unfold stop; rewrite Hr; by do 2 eexists].
    destruct (stop_facts this w fd Hwf Hr Hfd) as (this' & w' & Hs & _ & Hr' & _).
    by exists this', w'.
Qed.

(** Requests with valid names fit into frames. *)
Ltac sendable_tac :=
  split; [done|]; simpl; unfold Protocol.sized;
  autorewrite with treenity_len; rewrite ?Protocol.zlen_u32_bytes;
  repeat match goal with
  | Hid : Text.is_valid_identifier _ = true |- _ => apply Text.valid_identifier_length in Hid
  end; unfold Protocol.MAX_PAYLOAD_SIZE in *; zlen_facts; lia.

Lemma sendable_ack id o : Text.is_valid_identifier id = true → u32 o → sendable (Protocol.Req_ack id o).
Proof. intros. sendable_tac. Qed.

Lemma sendable_disconnect id :
  Text.is_valid_identifier id = true → sendable (Protocol.Req_disconnect id).
Proof. intros. sendable_tac. Qed.

Lemma sendable_produce name k v :
  Text.is_valid_identifier name = true → zlen k + zlen v ≤ Protocol.MAX_PAYLOAD_SIZE →
  sendable (Protocol.Req_produce name k v).
Proof. intros. sendable_tac. Qed.

Lemma sendable_subscribe pid id name p o :
  u32 pid → u32 o → Text.is_valid_identifier id = true → Text.is_valid_identifier name = true →
  zlen p < 2 ^ 30 → sendable (Protocol.Req_subscribe pid id name p o).
Proof. intros. sendable_tac. Qed.

Lemma handle_create_eq pid name this w :
  sendable (Protocol.Req_create pid name) →
  handle (Protocol.Req_create pid name) this w =
  Done (if negb (Text.is_valid_identifier name) then
          (this, send_response pid Protocol.GENERAL_ERROR [] w)
        else if HashMap.contains name (topics this) then
          (this, send_response pid Protocol.TOPIC_CLIENT_ERR [] w)
        else ((create_topic name this).2, send_response pid Protocol.SUCCESS [] w)).
Proof.
  intros Hs. pose proof (parse_own _ Hs) as Hp. unfold handle. simpl in *. unfold handle_create.
  destruct (Protocol.parse_create _ _) as [[[pid' name']|]| |]; try done.
  injection Hp as -> ->. simpl. destruct (Text.is_valid_identifier name); simpl; [|done].
  unfold create_topic. by destruct (HashMap.contains name (topics this)).
Qed.

Lemma handle_produce_eq name k v this w :
  sendable (Protocol.Req_produce name k v) →
  handle (Protocol.Req_produce name k v) this w =
  Done (match (if negb (bool_decide (name = [])) then get_topic name this else None) with
        | None => (this, w)
        | Some tp => (set_topic name (Topic.append_message k v tp) this, w)
        end).
Proof.
  intros Hs. pose proof (parse_own _ Hs) as Hp. unfold handle. simpl in *. unfold handle_publish.
  destruct (Protocol.parse_produce _ _) as [[[[name' k'] v']|]| |]; try done.
  injection Hp as -> -> ->. simpl. by destruct (if negb _ then get_topic name this else None).
Qed.

Lemma publish_effect name k v this w :
  wf this w → sendable (Protocol.Req_produce name k v) →
  ∃ this', handle (Protocol.Req_produce name k v) this w = Done (this', w) ∧
    ∀ other,
      Topic.messages <$> get_topic other this' =
      (λ tp, if decide (name ≠ [] ∧ name = other)
             then Topic.messages tp ++
                  [Topic.mkMessage (wrap32 (zlen (Topic.messages tp))) k v]
             else Topic.messages tp) <$> get_topic other this.
Proof.
  intros Hwf Hs.
  rewrite handle_produce_eq by done.
  destruct (decide (name = [])) as [->|Hne].
  - exists this. split; [done|]. intros other. apply option_fmap_ext. intros tp.
    destruct (decide ([] ≠ [] ∧ [] = other)) as [[? _]|]; done.
  - rewrite bool_decide_false by done. cbn [negb].
    destruct (get_topic name this) as [tp|] eqn:Htp.
    + eexists. split; [done|]. intros other.
      rewrite get_set_topic by (apply Hwf || by eexists). destruct (decide (name = other)) as [<-|Hd].
      * rewrite Htp. simpl. by rewrite decide_True.
      * apply option_fmap_ext. intros tp'.
        destruct (decide (name ≠ [] ∧ name = other)) as [[_ ?]|]; done.
    + exists this. split; [done|]. intros other.
      destruct (decide (name = other)) as [<-|Hd]; [by rewrite Htp|].
      apply option_fmap_ext. intros tp'.
        destruct (decide (name ≠ [] ∧ name = other)) as [[_ ?]|]; done.
Qed.

Lemma handle_list_eq pid this w :
  sendable (Protocol.Req_list pid) →
  handle (Protocol.Req_list pid) this w =
  Done (this, send_response pid Protocol.SUCCESS
                (join_names (HashMap.entries (topics this)).*1) w).
Proof.
  intros Hs. pose proof (parse_own _ Hs) as Hp. unfold handle.
  cbn [Protocol.request_action Protocol.CommandType_code handle_request] in *.
  unfold Protocol.parse_request in Hp. unfold handle_list.
  destruct (Protocol.parse_list _ _) as [[pid'|]| |]; try done. by injection Hp as ->.
Qed.

Lemma handle_ack_eq id o this w :
  sendable (Protocol.Req_ack id o) →
  handle (Protocol.Req_ack id o) this w =
  Done (match HashMap.find id (client_index this) with
        | None => this
        | Some _ => with_clients (HashMap.write id (with_offset o) (client_index this)) this
        end, w).
Proof.
  intros Hs. pose proof (parse_own _ Hs) as Hp. unfold handle. simpl in *. unfold handle_commit.
  destruct (Protocol.parse_ack _ _) as [[[id' o']|]| |]; try done. injection Hp as -> ->. simpl.
  by destruct (HashMap.find id (client_index this)).
Qed.

Lemma handle_disconnect_known id meta this w :
  wf this w → sendable (Protocol.Req_disconnect id) →
  HashMap.find id (client_index this) = Some meta →
  ∃ this' w', handle (Protocol.Req_disconnect id) this w = Done (this', w') ∧ wf this' w' ∧
    HashMap.find id (client_index this') = Some (with_active false meta) ∧
    ∀ n, is_Some (get_topic n this) → is_Some (get_topic n this').
Proof.
  intros Hwf Hs Hid. destruct (handle_ok _ this w Hwf Hs) as (this' & w' & Hh & Hwf' & _).
  exists this', w'. split; [done|]. split; [done|]. revert Hh.
  pose proof (parse_own _ Hs) as Hp. unfold handle. simpl in *. unfold handle_disconnect.
  destruct (Protocol.parse_disconnect _ _) as [[id'|]| |]; try done. injection Hp as ->. simpl.
  rewrite Hid. set (this1 := with_clients _ this).
  assert (HashMap.find id (client_index this1) = Some (with_active false meta)) as Hc.
  { unfold this1. simpl. rewrite HashMap.find_write by apply Hwf. by rewrite decide_True, Hid. }
  destruct (HashMap.find (topic meta) (topics this)) as [found|] eqn:Hname; [|by intros [= <- <-]].
  destruct found as [tp|]; [|done]. simpl.
  destruct (Topic.remove_subscriber id tp w) as [[[b tp'] w1]| |]; simpl; [|done..].
  intros [= <- <-]. split; [done|]. intros n Hn. rewrite get_set_topic; [|apply Hwf|].
  - case_decide; [by eexists|done].
  - exists tp. by apply get_topic_Some.
Qed.

(** The offset from which a subscription is served. *)
Definition first_offset (id : str) (o : Z) (this : t) : Z :=
  if negb (o =? Protocol.OFFSET_UNSET) then o
  else match HashMap.find id (client_index this) with Some meta => offset meta | None => 0 end.

Lemma first_offset_u32 id o this w : wf this w → u32 o → u32 (first_offset id o this).
Proof.
  intros Hwf Ho. unfold first_offset. destruct (negb _); [done|].
  destruct (HashMap.find id (client_index this)) as [m|] eqn:Hm; [|done].
  by apply (wf_client _ _ Hwf id m Hm).
Qed.

(** A request to subscribe that is not refused. *)
Definition accepts (id name : str) (this : t) (w : world) : bool :=
  Text.is_valid_identifier id && Text.is_valid_identifier name &&
  bool_decide (is_Some (get_topic name this)) &&
  negb (is_duplicate (HashMap.find id (client_index this)) w).1.

(** Nothing happens to topics, nor to descriptors that are open. *)
Definition aside (this : t) (w : world) (this' : t) (w' : world) : Prop :=
  (∀ n, get_topic n this' = get_topic n this) ∧ touches (λ _, False) w w'.

Lemma aside_same this this' w w' :
  topics this' = topics this → touches (λ _, False) w w' → aside this w this' w'.
Proof. intros Ht Hq. split; [|done]. intros n. unfold get_topic. by rewrite Ht. Qed.

#[local] Hint Resolve send_response_quiet touches_refl : core.

Lemma handle_info_aside pid id this w :
  sendable (Protocol.Req_info pid id) →
  ∃ this' w', handle (Protocol.Req_info pid id) this w = Done (this', w') ∧ aside this w this' w'.
Proof.
  intros Hs. pose proof (parse_own _ Hs) as Hp. unfold handle. simpl in *. unfold handle_info.
  destruct (Protocol.parse_info _ _) as [[[pid' id']|]| |]; try done. simpl.
  destruct (HashMap.find id' (client_index this)); eexists _, _; (split; [done|]);
    by apply aside_same.
Qed.

Lemma handle_connect_aside pid name this w :
  sendable (Protocol.Req_connect pid name) →
  ∃ this' w', handle (Protocol.Req_connect pid name) this w = Done (this', w') ∧
              aside this w this' w'.
Proof.
  intros Hs. pose proof (parse_own _ Hs) as Hp. unfold handle. simpl in *.
  unfold handle_producer_connect.
  destruct (Protocol.parse_connect _ _) as [[[pid' name']|]| |]; try done. simpl.
  destruct (get_topic name' this); eexists _, _; (split; [done|]); by apply aside_same.
Qed.

Lemma disconnect_effect id this w :
  wf this w → sendable (Protocol.Req_disconnect id) →
  ∃ this' w', handle (Protocol.Req_disconnect id) this w = Done (this', w') ∧
    (aside this w this' w' ∨
     ∃ n tp b tp', get_topic n this = Some tp ∧
       Topic.remove_subscriber id tp w = Done (b, tp', w') ∧
       ∀ m, get_topic m this' = if decide (n = m) then Some tp' else get_topic m this).
Proof.
  intros Hwf Hs. destruct (handle_ok _ this w Hwf Hs) as (this' & w' & Hh & _).
  exists this', w'. split; [done|]. revert Hh. pose proof (parse_own _ Hs) as Hp.
  unfold handle. simpl in *. unfold handle_disconnect.
  destruct (Protocol.parse_disconnect _ _) as [[id'|]| |]; try done. injection Hp as ->. simpl.
  destruct (HashMap.find id (client_index this)) as [meta|].
  2: { intros [= <- <-]. left. by apply aside_same. }
  set (this1 := with_clients _ this).
  destruct (HashMap.find (topic meta) (topics this)) as [found|] eqn:Hname.
  2: { intros [= <- <-]. left. by apply aside_same. }
  destruct found as [tp|]; [|done]. simpl.
  destruct (Topic.remove_subscriber id tp w) as [[[b tp'] w1]| |] eqn:Hrm; simpl; [|done..].
  intros [= <- <-]. right. apply get_topic_Some in Hname. exists (topic meta), tp, b, tp'.
  split_and!; [done|done|]. intros m. rewrite get_set_topic; [done|apply Hwf|by exists tp].
Qed.

Lemma subscribe_effect pid id name p o this w :
  wf this w → sendable (Protocol.Req_subscribe pid id name p o) →
  ∃ this' w', handle (Protocol.Req_subscribe pid id name p o) this w = Done (this', w') ∧
    if accepts id name this w then
      HashMap.find id (client_index this') =
        Some (mkMetadata id name (first_offset id o this) p (response_fifo pid) true) ∧
      ∃ tp b tp' w1, get_topic name this = Some tp ∧ touches (λ _, False) w w1 ∧
        Topic.add_subscriber id p (response_fifo pid) (first_offset id o this) tp w1 =
          Done (b, tp', w') ∧
        ∀ n, get_topic n this' = if decide (name = n) then Some tp' else get_topic n this
    else aside this w this' w'.
Proof.
  intros Hwf Hs. destruct (handle_ok _ this w Hwf Hs) as (this' & w' & Hh & _).
  exists this', w'. split; [done|]. revert Hh. pose proof (parse_own _ Hs) as Hp.
  unfold handle. simpl in *. unfold handle_subscriber_connect.
  destruct (Protocol.parse_subscribe _ _) as [[[[[[pid' id'] name'] p'] o']|]| |]; try done.
  injection Hp as -> -> -> -> ->. cbn [mbind outcome_bind]. unfold accepts.
  destruct (Text.is_valid_identifier id), (Text.is_valid_identifier name); cbn [negb orb andb];
    try (intros [= <- <-]; by apply aside_same).
  destruct (HashMap.find name (topics this)) as [found|] eqn:Hname.
  2: { intros [= <- <-]. rewrite bool_decide_false; [by apply aside_same|].
       intros [tp Htp%get_topic_Some]. congruence. }
  destruct found as [tp|]; [|by destruct (wf_not_null _ _ Hwf name)].
  apply get_topic_Some in Hname. rewrite bool_decide_true by (by exists tp).
  set (meta := HashMap.find id (client_index this)).
  pose proof (is_duplicate_quiet meta w) as Hq.
  destruct (is_duplicate meta w) as [dup w1]; simpl in *.
  destruct dup; simpl.
  { intros [= <- <-]. apply aside_same; [done|]. by eapply touches_trans. }
  unfold first_offset. fold meta.
  destruct (Topic.add_subscriber id p _ _ tp _) as [[[b tp'] w2]| |] eqn:Hadd; simpl; [|done..].
  intros [= <- <-]. split.
  { simpl. rewrite HashMap.find_insert_or_assign by apply Hwf. by rewrite decide_True. }
  exists tp, b, tp', (send_response pid Protocol.SUCCESS [] w1). split_and!; [done| |done|].
  - by eapply touches_trans.
  - intros n. rewrite get_set_topic; [done|apply Hwf|by exists tp].
Qed.

(** A subscription without an offset, by a client that is not active. *)
Lemma handle_resubscribe pid id name p meta this w :
  wf this w → sendable (Protocol.Req_subscribe pid id name p Protocol.OFFSET_UNSET) →
  Text.is_valid_identifier id = true → Text.is_valid_identifier name = true →
  HashMap.find id (client_index this) = Some meta → is_active meta = false →
  is_Some (get_topic name this) →
  ∃ this' w' tp,
    handle (Protocol.Req_subscribe pid id name p Protocol.OFFSET_UNSET) this w =
      Done (this', w') ∧
    HashMap.find id (client_index this') =
      Some (mkMetadata id name (offset meta) p (response_fifo pid) true) ∧
    get_topic name this' = Some tp ∧
    ∀ s, HashMap.find id (Topic.subscribers tp) = Some s →
         Topic.next_offset s = offset meta ∧ Topic.sub_prefix s = p.
Proof.
  intros Hwf Hs Hvi Hvn Hid Hact Htopic.
  destruct (subscribe_effect pid id name p _ this w Hwf Hs) as (this' & w' & Hh & He).
  assert (accepts id name this w = true) as Hacc.
  { unfold accepts. rewrite Hvi, Hvn, Hid, bool_decide_true by done. simpl. by rewrite Hact. }
  assert (first_offset id Protocol.OFFSET_UNSET this = offset meta) as Ho
    by (unfold first_offset; by rewrite Hid).
  rewrite Hacc, Ho in He. destruct He as (Hc & tp & b & tp' & w1 & Htp & Hq & Hadd & Hget).
  exists this', w', tp'. rewrite Hget, decide_True by done. split_and!; [done|done|done|].
  assert (Topic.wf tp w1) as Htpw.
  { eapply wf_topic; [|exact Htp]. by eapply wf_quiet; [exact Hwf|exact Hq|tauto|tauto]. }
  destruct (wf_client _ _ Hwf id meta Hid) as [_ Hoff].
  destruct (Topic.add_subscriber_facts tp w1 id p (response_fifo pid) (offset meta) Htpw Hoff)
    as (b' & tp2 & w2 & Hadd2 & Htp' & _ & _ & _ & _ & Hb).
  rewrite Hadd in Hadd2. injection Hadd2 as <- <- <-.
  intros s. rewrite Topic.find_subs by apply Htp'. destruct b.
  - destruct Hb as (fd & _ & _ & _ & _ & ->). rewrite lookup_insert_eq. by intros [= <-].
  - rewrite Hb. by rewrite lookup_delete_eq.
Qed.

Lemma join_names_eq n names :
  join_names (n :: names) = n ++ concat ((λ m, $"," ++ m) <$> names).
Proof.
  unfold join_names. cbn [foldl negb]. rewrite app_nil_l. generalize n. clear n.
  induction names as [|m names IH]; intros n; cbn [foldl fmap list_fmap concat negb].
  - by rewrite app_nil_r.
  - rewrite IH. by rewrite <- !(assoc_L (++)).
Qed.

(** ** Properties *)

(** C22: Framing. However the stream of requests is cut into the chunks that reads return,
    the server handles exactly the requests that were sent, each once and in order,
    and is left with no bytes over. *)
Theorem requests_in_any_chunks (rs : list Protocol.request) (chunks : list str)
    (this : t) (w : world)
    (Hwf : wf this w) (Hrs : Forall sendable rs)
    (Hchunks : concat chunks = concat (Protocol.serialize_request <$> rs))
    (Hlen : zlen (concat chunks) < 2 ^ 62) :
  ∃ this' w', receive_all chunks [] this w = Done ([], this', w') ∧
              handle_all rs this w = Done (this', w') ∧ wf this' w'.
Proof.
  destruct (handle_all_ok rs this w Hwf Hrs) as (this' & w' & Hh & Hwf' & _).
  exists this', w'. split_and!; [|done|done].
  destruct (receive_requests chunks rs [] this w Hwf Hrs) as (rs1 & rs2 & part & -> & _ & _ & _ & Hm & ->);
    [by rewrite app_nil_r|done|].
  destruct (Hm eq_refl) as [-> ->]. rewrite app_nil_r in Hh. by rewrite Hh.
Qed.

(** No payload can make a handler do anything undefined or break the invariant of the
    server: for any action byte and any bytes, handling is defined and leaves tables
    and topics well-formed, descriptors open and unshared. *)
Theorem any_payload_is_handled (action : byte) (payload : str) (this : t) (w : world)
    (Hwf : wf this w) (Hlen : zlen payload < 2 ^ 63) :
  ∃ this' w', handle_request action payload (zlen payload) this w = Done (this', w') ∧
              wf this' w' ∧ running this' = running this.
Proof.
  destruct (handle_request_ok action payload (zlen payload) this w Hwf)
    as (this' & w' & ? & ? & ? & _); [by apply Protocol.readable_all|].
  by exists this', w'.
Qed.

(** C40: A payload length from 2^32 - 5 on makes [5 + payload_len] wrap: the frame counts as
    complete although its bytes have not come, and either the handler or the erasure
    of the frame runs outside the buffer. *)
Theorem frame_length_wraps (a : byte) (n : Z) (more : str) (fuel : nat) (this : t) (w : world)
    (Hn : 2 ^ 32 - 5 ≤ n < 2 ^ 32) (Hmore : zlen more < 2 ^ 31) :
  let buf := a :: Protocol.u32_bytes n ++ more in
  (∀ r, frames (S fuel) buf this w ≠ Done r) ∧
  (Protocol.CommandType_of a = None → frames (S fuel) buf this w = Undefined).
Proof.
  intros buf. assert (zlen buf = 5 + zlen more) as Hz.
  { unfold buf. autorewrite with treenity_len. rewrite Protocol.zlen_u32_bytes. lia. }
  assert (header buf = Some (a, n)) as Hh.
  { unfold buf, header. by rewrite Protocol.take_u32_bytes by (unfold u32; lia). }
  assert (wrap32 (5 + n) = 5 + n - 2 ^ 32) as Hw.
  { unfold wrap32. rewrite <- (Z.mod_small (5 + n - 2 ^ 32) (2 ^ 32)) by lia.
    symmetry. apply (Z.mod_add (5 + n) (-1)). done. }
  zlen_facts. rewrite frames_step, Hh, Hw by lia.
  rewrite (proj2 (Z.ltb_ge _ _)), (proj2 (Z.ltb_lt _ (5 + n))) by lia. split.
  - intros r. destruct (handle_request _ _ _ _ _) as [[? ?]| |]; done.
  - intros Ha. by destruct a.
Qed.

(** A step keeps the invariant and the descriptor of the server. *)
Lemma step_wf s s' :
  step s s' → small s.1.2 → zlen s.1.1 < 2 ^ 61 → wf s.1.2 s.2 → is_Some (fifo_fd s.1.2) →
  wf s'.1.2 s'.2 ∧ fifo_fd s'.1.2 = fifo_fd s.1.2 ∧ zlen s'.1.1 < 2 ^ 61 + 1024.
Proof.
  intros [bytes buf this w buf' this' w' Hrun Hb Hrec|name buf this w this' w' Hwork
    |buf this w this' w' Hstop] Hsmall Hl Hwf [fd Hfd]; simpl in *.
  - assert (zlen (buf ++ bytes) < 2 ^ 62) as Hl2 by (rewrite zlen_app; lia).
    destruct (frames_wf _ _ this w buf' this' w' Hwf Hl2 Hrec) as (? & _ & ? & Hrest).
    split_and!; [done|done|]. rewrite zlen_app in Hrest. lia.
  - destruct (work_wf name this w this' w' Hwf Hsmall Hwork). split_and!; [done|done|lia].
  - destruct (running this) eqn:Hr.
    + destruct (stop_facts this w fd Hwf Hr Hfd) as (this2 & w2 & Hs & Hwf2 & _ & Hf2 & _).
      rewrite Hstop in Hs. injection Hs as <- <-. split_and!; [done|congruence|lia].
    + unfold stop in Hstop. rewrite Hr in Hstop. injection Hstop as <- <-. split_and!; [done|done|lia].
Qed.

Lemma reachable_step s1 s2 s3 :
  reachable s1 s2 → small s2.1.2 → zlen s2.1.1 < 2 ^ 61 → step s2 s3 → reachable s1 s3.
Proof. intros Hr Hs Hl Hstep. eapply rtc_r; [exact Hr|by split_and!]. Qed.

(** C20: The server is safe. In every state that its threads reach from a correct start, by
    receiving any bytes in any pieces, letting any worker take its turn at any time and
    being stopped, the invariant of the server holds, and whatever may happen next has a
    defined result again: the bytes received next, whatever they are, are handled, each
    worker's turn ends, and the handler of the signal stops the server. Excepted are
    frames whose announced length wraps, and topics of 2^32 messages. *)
Theorem reachable_server_wf (path : str) (w0 : world) (buf : str) (this : t) (w : world)
    (Hstart : is_correct_start (make path w0).1 = true)
    (Hreach : reachable ([], (make path w0).1, (make path w0).2) (buf, this, w)) :
  wf this w ∧ goes_on buf this w.
Proof.
  destruct (make_facts path w0 Hstart) as (Hwf0 & Hfd0 & _).
  assert (∀ s s', reachable s s' → wf s.1.2 s.2 → is_Some (fifo_fd s.1.2) → zlen s.1.1 < 2 ^ 61 + 1024 →
    wf s'.1.2 s'.2 ∧ is_Some (fifo_fd s'.1.2) ∧ zlen s'.1.1 < 2 ^ 61 + 1024) as Hinv.
  { clear. induction 1 as [s|s1 s2 s3 (Hsmall & Hlen & Hstep) _ IH]; [done|].
    intros Hwf Hfd _. destruct (step_wf _ _ Hstep Hsmall Hlen Hwf Hfd) as (? & Heq & ?).
    apply IH; [done|by rewrite Heq|done]. }
  destruct (Hinv _ _ Hreach Hwf0 Hfd0) as (Hwf & Hfd & Hl); [done|].
  split; [done|]. apply wf_goes_on; [done|done|simpl in Hl; lia].
Qed.

(** A create request is answered once: with an error when the name is not an
    identifier or a topic of that name exists, and nothing changes; else a new empty
    topic exists under the name and the other topics are as before. *)
Theorem create_request_outcome (pid : Z) (name : str) (this : t) (w : world)
    (Hwf : wf this w) (Hs : sendable (Protocol.Req_create pid name)) :
  ∃ this' status,
    handle (Protocol.Req_create pid name) this w =
      Done (this', send_response pid status [] w) ∧
    if negb (Text.is_valid_identifier name) then
      status = Protocol.GENERAL_ERROR ∧ this' = this
    else if decide (is_Some (get_topic name this)) then
      status = Protocol.TOPIC_CLIENT_ERR ∧ this' = this
    else
      status = Protocol.SUCCESS ∧
      ∀ other, get_topic other this' =
               if decide (name = other) then Some (Topic.make name) else get_topic other this.
Proof.
  rewrite handle_create_eq by done. pose proof (wf_topics _ _ Hwf) as Ht.
  destruct (negb (Text.is_valid_identifier name)); [by eexists _, _|].
  pose proof (contains_get_topic name this w Hwf) as Hc.
  destruct (decide (is_Some (get_topic name this))) as [Hsome|Hnone].
  { rewrite bool_decide_true in Hc by done. rewrite Hc. by eexists _, _. }
  rewrite bool_decide_false in Hc by done. rewrite Hc. eexists _, _. split; [done|].
  split; [done|]. intros other. by apply get_create_topic.
Qed.

(** Publishing appends the message, at the next offset, to the topic it names and to no
    other, and to none when there is no such topic; nothing is answered. *)
Theorem publish_appends (name k v : str) (this : t) (w : world)
    (Hwf : wf this w) (Hs : sendable (Protocol.Req_produce name k v)) :
  ∃ this', handle (Protocol.Req_produce name k v) this w = Done (this', w) ∧
    ∀ other,
      Topic.messages <$> get_topic other this' =
      (λ tp, if decide (name ≠ [] ∧ name = other)
             then Topic.messages tp ++
                  [Topic.mkMessage (wrap32 (zlen (Topic.messages tp))) k v]
             else Topic.messages tp) <$> get_topic other this.
Proof.
  by apply publish_effect.
Qed.

(** The answer to a list request is the names of the topics, each once, separated by
    commas. *)
Theorem list_names_every_topic (pid : Z) (this : t) (w : world)
    (Hwf : wf this w) (Hs : sendable (Protocol.Req_list pid)) :
  ∃ names, NoDup names ∧ (∀ n, n ∈ names ↔ is_Some (get_topic n this)) ∧
    handle (Protocol.Req_list pid) this w =
      Done (this, send_response pid Protocol.SUCCESS
                    (match names with
                     | [] => []
                     | n :: names => n ++ concat ((λ m, $"," ++ m) <$> names)
                     end) w).
Proof.
  pose proof (wf_topics _ _ Hwf) as Ht. exists (HashMap.entries (topics this)).*1.
  split_and!; [apply Ht| |].
  - intros n. rewrite list_elem_of_fmap. split.
    + intros ([n' p] & -> & Hin). simpl. rewrite HashMap.entries_elem_of in Hin by done.
      destruct p as [tp|]; [|by destruct (wf_not_null _ _ Hwf n')].
      exists tp. by apply get_topic_Some.
    + intros [tp Htp]. exists (n, Some tp). split; [done|].
      apply HashMap.entries_elem_of; [done|]. by apply get_topic_Some.
  - rewrite handle_list_eq by done. destruct (HashMap.entries (topics this)).*1; [done|].
    by rewrite join_names_eq.
Qed.

(** Acknowledged offsets survive a reconnection: a client known to the server that
    acknowledges an offset, disconnects and subscribes again without an offset is
    recorded, and delivered to, from the acknowledged offset on. *)
Theorem acknowledged_offset_resumes (id name p : str) (o pid : Z) (this : t) (w : world)
    (Hwf : wf this w) (Hid : Text.is_valid_identifier id = true)
    (Hname : Text.is_valid_identifier name = true)
    (Hknown : is_Some (HashMap.find id (client_index this)))
    (Htopic : is_Some (get_topic name this))
    (Ho : u32 o) (Hpid : u32 pid) (Hlen : zlen p < 2 ^ 30) :
  ∃ this' w',
    handle_all [Protocol.Req_ack id o; Protocol.Req_disconnect id;
                Protocol.Req_subscribe pid id name p Protocol.OFFSET_UNSET] this w =
      Done (this', w') ∧
    HashMap.find id (client_index this') =
      Some (mkMetadata id name o p (response_fifo pid) true) ∧
    ∃ tp, get_topic name this' = Some tp ∧
      ∀ s, HashMap.find id (Topic.subscribers tp) = Some s →
           Topic.next_offset s = o ∧ Topic.sub_prefix s = p.
Proof.
  destruct Hknown as [meta Hmeta].
  pose proof (sendable_ack id o Hid Ho) as Hs1. pose proof (sendable_disconnect id Hid) as Hs2.
  assert (sendable (Protocol.Req_subscribe pid id name p Protocol.OFFSET_UNSET)) as Hs3
    by (by apply sendable_subscribe).
  destruct (handle_ok _ this w Hwf Hs1) as (this1 & w1 & Hh1 & Hwf1 & _).
  pose proof Hh1 as Heq. rewrite handle_ack_eq, Hmeta in Heq by done. injection Heq as <- <-.
  set (this1 := with_clients _ this) in *.
  assert (HashMap.find id (client_index this1) = Some (with_offset o meta)) as Hc1.
  { unfold this1. simpl. rewrite HashMap.find_write by apply Hwf. by rewrite decide_True, Hmeta. }
  assert (is_Some (get_topic name this1)) as Ht1 by done. clearbody this1.
  destruct (handle_disconnect_known id _ this1 w Hwf1 Hs2 Hc1)
    as (this2 & w2 & Hh2 & Hwf2 & Hc2 & Ht2).
  destruct (handle_resubscribe pid id name p _ this2 w2 Hwf2 Hs3 Hid Hname Hc2 eq_refl)
    as (this3 & w3 & tp & Hh3 & Hc3 & Ht3 & Hsub); [by apply Ht2|].
  exists this3, w3. cbn [handle_all]. rewrite Hh1.
  cbn [mbind outcome_bind]. rewrite Hh2. cbn [mbind outcome_bind]. rewrite Hh3.
  split_and!; [done|done|by exists tp].
Qed.

(** [stop] shuts down every topic and may be called again without effect; it closes the
    server's FIFO, which the main loop, once it sees the flag, closes a second time. *)
Theorem stop_ends_every_topic (this : t) (w : world) (fd : Z) (buf : str) (fuel : nat)
    (Hwf : wf this w) (Hrun : running this = true) (Hfd : fifo_fd this = Some fd) :
  ∃ this' w' tr,
    stop this w = Done (this', w') ∧ wf this' w' ∧
    (∀ n, is_Some (get_topic n this) →
       ∃ tp, get_topic n this' = Some tp ∧ Topic.stop_flag tp = true) ∧
    stop this' w' = Done (this', w') ∧
    trace w' = tr ++ [EvClose fd] ∧
    run_loop (S fuel) buf this' w' = Done (this', close_ fd w').
Proof.
  destruct (stop_facts this w fd Hwf Hrun Hfd)
    as (this' & w' & Hstop & Hwf' & Hr & Hf & Ht & _ & w1 & Hw).
  exists this', w', (trace w1). split_and!; [done|done|done| | |].
  - unfold stop. by rewrite Hr.
  - by rewrite Hw.
  - cbn [run_loop]. rewrite Hr, Hf. done.
Qed.

(** When the FIFO cannot be made, the constructor returns before it sets the
    descriptor, and [stop], which the destructor calls, reads it: that is undefined. *)
Theorem failed_start_reads_unset_descriptor (path : str) (w : world)
    (Hfail : (mkfifo_ path (unlink_ path w)).1 = -1) :
  is_correct_start (make path w).1 = false ∧ fifo_fd (make path w).1 = None ∧
  stop (make path w).1 (make path w).2 = Undefined.
Proof.
  unfold make. destruct (mkfifo_ path (unlink_ path w)) as [ret w1]. simpl in Hfail. rewrite Hfail.
  split_and!; [done|done|]. unfold stop. simpl.
  destruct (open_ path O_WRONLY_NONBLOCK (unlink_ path w1)) as [fd w2]. done.
Qed.

End Theory.

(** ** Witnesses *)

Module Witness.

Import World.Simple PrefixTree.Witness Topic.Witness.

#[export] Instance pid_hash : Hash Z := Z.to_N.

Definition server0 : t := (make $"/tmp/treenity.server.1" start).1.
Definition world0 : world := (make $"/tmp/treenity.server.1" start).2.

Definition requests : list Protocol.request :=
  [Protocol.Req_create 7 $"news"; Protocol.Req_subscribe 8 $"alice" $"news" $"eu." 0;
   Protocol.Req_produce $"news" $"eu.de" $"1"].

Lemma server0_wf : wf server0 world0.
Proof. apply make_facts. vm_compute. reflexivity. Qed.

Lemma requests_sendable : Forall sendable requests.
Proof. repeat constructor; by vm_compute. Qed.

(** The state after the three requests. *)
Definition served : t * world :=
  match handle_all requests server0 world0 with
  | Done s => s
  | _ => (server0, world0)
  end.

Lemma served_wf : wf served.1 served.2.
Proof.
  destruct (handle_all_ok requests server0 world0 server0_wf requests_sendable)
    as (this' & w' & Hh & Hwf & _).
  unfold served. by rewrite Hh.
Qed.

(** The stream cut after three bytes, then in the middle of the second frame. *)
Definition stream : str := concat (Protocol.serialize_request <$> requests).
Definition chunks : list str :=
  [take 3 stream; take 30 (drop 3 stream); drop 33 stream].

Lemma chunks_witness :
  ∃ this' w', receive_all chunks [] server0 world0 = Done ([], this', w') ∧
              handle_all requests server0 world0 = Done (this', w').
Proof.
  destruct (requests_in_any_chunks requests chunks server0 world0 server0_wf requests_sendable
    ltac:(vm_compute; reflexivity) ltac:(vm_compute; reflexivity)) as (this' & w' & Hr & Hh & _).
  exists this', w'. exact (conj Hr Hh).
Defined.

Lemma any_payload_witness :
  ∃ this' w', handle_request Byte.x06 [Byte.xff; Byte.xff] (zlen [Byte.xff; Byte.xff])
                served.1 served.2 = Done (this', w') ∧ wf this' w'.
Proof.
  destruct (any_payload_is_handled Byte.x06 [Byte.xff; Byte.xff] served.1 served.2 served_wf eq_refl)
    as (this' & w' & Hh & Hwf & _).
  exists this', w'. exact (conj Hh Hwf).
Defined.

Lemma wraps_witness :
  frames 1 (Byte.x00 :: Protocol.u32_bytes (2 ^ 32 - 1) ++ []) server0 world0 = Undefined.
Proof.
  apply (frame_length_wraps Byte.x00 (2 ^ 32 - 1) [] 0 server0 world0);
    [by vm_compute|by vm_compute|reflexivity].
Defined.

(** The stream arrives in two pieces, the worker takes a turn, and the server is stopped. *)
Definition received (r : outcome (str * t * world)) : str * t * world :=
  match r with Done s => s | _ => ([], server0, world0) end.
Definition after_first : str * t * world := received (receive (take 30 stream) [] server0 world0).
Definition after_second : str * t * world :=
  received (receive (drop 30 stream) after_first.1.1 after_first.1.2 after_first.2).
Definition kept (buf : str) (r : outcome (t * world)) : str * t * world :=
  received ('(this, w) ← r; mret (buf, this, w)).
Definition after_turn : str * t * world :=
  kept after_second.1.1 (work $"news" after_second.1.2 after_second.2).
Definition after_stop : str * t * world := kept after_turn.1.1 (stop after_turn.1.2 after_turn.2).

Definition few (this : t) : bool :=
  forallb (λ entry, match entry.2 with
                    | Some tp => zlen (Topic.messages tp) <? 2 ^ 32
                    | None => true
                    end) (HashMap.entries (topics this)).

Lemma few_small this : HashMap.wf (topics this) → few this = true → small this.
Proof.
  intros Ht Hall n tp Hn%get_topic_Some. rewrite <- HashMap.entries_elem_of in Hn by done.
  unfold few in Hall. rewrite forallb_forall in Hall.
  by apply Z.ltb_lt, (Hall (n, Some tp)), list_elem_of_In.
Qed.

Lemma received_done r :
  match r with Done _ => true | _ => false end = true → r = Done (received r).
Proof. by destruct r. Qed.

Lemma kept_done buf r :
  match r with Done _ => true | _ => false end = true →
  r = Done ((kept buf r).1.2, (kept buf r).2) ∧ (kept buf r).1.1 = buf.
Proof. by destruct r as [[]| |]. Qed.

(** The steps of the witness. *)
Lemma witness_steps :
  step ([], server0, world0) after_first ∧ step after_first after_second ∧
  step after_second after_turn ∧ step after_turn after_stop.
Proof.
  assert (∀ s : str * t * world, s = (s.1.1, s.1.2, s.2)) as Hsplit by (by intros [[? ?] ?]).
  split_and!.
  - rewrite (Hsplit after_first). apply (step_receive (take 30 stream)).
    + vm_compute. reflexivity.
    + split; vm_compute; [reflexivity|discriminate].
    + rewrite <- Hsplit. apply received_done. vm_compute. reflexivity.
  - rewrite (Hsplit after_first), (Hsplit after_second). apply (step_receive (drop 30 stream)).
    + vm_compute. reflexivity.
    + split; vm_compute; [reflexivity|discriminate].
    + rewrite <- Hsplit. apply received_done. vm_compute. reflexivity.
  - destruct (kept_done after_second.1.1 (work $"news" after_second.1.2 after_second.2))
      as [Hr Hb]; [vm_compute; reflexivity|].
    rewrite (Hsplit after_second), (Hsplit after_turn). unfold after_turn at 1. rewrite Hb.
    by apply (step_work $"news").
  - destruct (kept_done after_turn.1.1 (stop after_turn.1.2 after_turn.2))
      as [Hr Hb]; [vm_compute; reflexivity|].
    rewrite (Hsplit after_turn), (Hsplit after_stop). unfold after_stop at 1. rewrite Hb.
    by apply step_stop.
Qed.

Lemma witness_small :
  (few server0 && few after_first.1.2 && few after_second.1.2 && few after_turn.1.2 &&
   (zlen after_first.1.1 <? 2 ^ 61) && (zlen after_second.1.1 <? 2 ^ 61) &&
   (zlen after_turn.1.1 <? 2 ^ 61)) = true.
Proof. vm_compute. reflexivity. Qed.

Lemma witness_reachable :
  reachable ([], server0, world0) after_turn ∧ reachable ([], server0, world0) after_stop.
Proof.
  destruct witness_steps as (H1 & H2 & H3 & H4).
  pose proof witness_small as [[[[[[F0 F1]%andb_prop F2]%andb_prop F3]%andb_prop L1]%andb_prop
    L2]%andb_prop L3]%andb_prop. apply Z.ltb_lt in L1, L2, L3.
  assert (is_Some (fifo_fd server0)) as Hf by (eexists; vm_compute; reflexivity).
  pose proof (few_small _ (wf_topics _ _ server0_wf) F0) as S0.
  destruct (step_wf _ _ H1 S0 ltac:(done) server0_wf Hf) as (W1 & E1 & _).
  pose proof (few_small _ (wf_topics _ _ W1) F1) as S1.
  assert (is_Some (fifo_fd after_first.1.2)) as Hf1 by (by rewrite E1).
  destruct (step_wf _ _ H2 S1 L1 W1 Hf1) as (W2 & E2 & _).
  pose proof (few_small _ (wf_topics _ _ W2) F2) as S2.
  assert (is_Some (fifo_fd after_second.1.2)) as Hf2 by (by rewrite E2).
  destruct (step_wf _ _ H3 S2 L2 W2 Hf2) as (W3 & _).
  pose proof (few_small _ (wf_topics _ _ W3) F3) as S3.
  pose proof (reachable_step _ _ _ (rtc_refl _ ([], server0, world0)) S0 eq_refl H1) as R1.
  pose proof (reachable_step _ _ _ R1 S1 L1 H2) as R2.
  pose proof (reachable_step _ _ _ R2 S2 L2 H3) as R3.
  exact (conj R3 (reachable_step _ _ _ R3 S3 L3 H4)).
Qed.

Lemma reachable_from_start s :
  reachable ([], server0, world0) s →
  reachable ([], (make $"/tmp/treenity.server.1" start).1, (make $"/tmp/treenity.server.1" start).2)
    (s.1.1, s.1.2, s.2).
Proof. by destruct s as [[? ?] ?]. Qed.

Lemma reachable_witness :
  (wf after_turn.1.2 after_turn.2 ∧ goes_on after_turn.1.1 after_turn.1.2 after_turn.2) ∧
  (wf after_stop.1.2 after_stop.2 ∧ goes_on after_stop.1.1 after_stop.1.2 after_stop.2).
Proof.
  destruct witness_reachable as [Hturn%reachable_from_start Hstop%reachable_from_start]. split;
    (eapply (reachable_server_wf $"/tmp/treenity.server.1" start);
     [vm_compute; reflexivity|first [exact Hturn|exact Hstop]]).
Defined.

Lemma create_witness :
  ∃ this' status, handle (Protocol.Req_create 9 $"news") served.1 served.2 =
    Done (this', send_response 9 status [] served.2).
Proof.
  destruct (create_request_outcome 9 $"news" served.1 served.2 served_wf)
    as (this' & status & Hh & _); [split; by vm_compute|].
  exists this', status. exact Hh.
Defined.

Lemma publish_witness :
  ∃ this', handle (Protocol.Req_produce $"news" $"k" $"v") served.1 served.2 = Done (this', served.2).
Proof.
  destruct (publish_appends $"news" $"k" $"v" served.1 served.2 served_wf)
    as (this' & Hh & _); [split; by vm_compute|].
  exists this'. exact Hh.
Defined.

Lemma list_witness :
  ∃ names, (∀ n, n ∈ names ↔ is_Some (get_topic n served.1)) ∧ NoDup names.
Proof.
  destruct (list_names_every_topic 9 served.1 served.2 served_wf)
    as (names & Hnd & Hn & _); [split; by vm_compute|].
  exists names. exact (conj Hn Hnd).
Defined.

Lemma shown {A} (o : option A) : match o with Some _ => true | None => false end = true → is_Some o.
Proof. destruct o; [by eexists|done]. Qed.

Lemma served_facts :
  is_Some (HashMap.find $"alice" (client_index served.1)) ∧ is_Some (get_topic $"news" served.1) ∧
  running served.1 = true ∧ is_Some (fifo_fd served.1).
Proof.
  refine (conj (shown _ _) (conj (shown _ _) (conj _ (shown _ _)))); vm_compute; reflexivity.
Qed.

Lemma resume_witness :
  ∃ this' w', handle_all [Protocol.Req_ack $"alice" 1; Protocol.Req_disconnect $"alice";
      Protocol.Req_subscribe 9 $"alice" $"news" $"eu." Protocol.OFFSET_UNSET] served.1 served.2 =
      Done (this', w') ∧
    HashMap.find $"alice" (client_index this') =
      Some (mkMetadata $"alice" $"news" 1 $"eu." (response_fifo 9) true).
Proof.
  destruct served_facts as (Hk & Hn & _).
  destruct (acknowledged_offset_resumes $"alice" $"news" $"eu." 1 9 served.1 served.2 served_wf
    eq_refl eq_refl Hk Hn) as (this' & w' & Hh & Hc & _); [by vm_compute..|].
  exists this', w'. exact (conj Hh Hc).
Defined.

Lemma stop_witness :
  ∃ this' w', stop served.1 served.2 = Done (this', w') ∧ stop this' w' = Done (this', w').
Proof.
  destruct served_facts as (_ & _ & Hr & fd & Hf).
  destruct (stop_ends_every_topic served.1 served.2 fd [] 0 served_wf Hr Hf)
    as (this' & w' & tr & Hs & _ & _ & Hs' & _).
  exists this', w'. exact (conj Hs Hs').
Defined.

(** A kernel on which the FIFO cannot be made. *)
Definition no_fifo : world := mkWorld (mkState [] [] [$"/x"] [] 0) [].

Lemma failed_start_witness :
  (mkfifo_ $"/x" (unlink_ $"/x" no_fifo)).1 = -1 ∧
  stop (make $"/x" no_fifo).1 (make $"/x" no_fifo).2 = Undefined.
Proof.
  assert ((mkfifo_ $"/x" (unlink_ $"/x" no_fifo)).1 = -1) as Hf by (vm_compute; reflexivity).
  exact (conj Hf (proj2 (proj2 (failed_start_reads_unset_descriptor $"/x" no_fifo Hf)))).
Defined.

End Witness.

End Server.
