(* ===== verification/Session.v ===== *)
(** * Session: what the running server does to its topics

    The threads of the server handle one thing after another: a request that has come,
    a turn of the worker of some topic, the signal that ends it. Seen from one topic,
    whatever happens is an operation on that topic or passes it by ([topic_step]), so that
    what Topic.v proves of any sequence of operations holds in the running server: a
    subscriber is served from its request to subscribe on as its topic promises, whatever
    the other clients ask for and however the workers of all topics take turns. Threads.v
    shows that threads which interleave within a handler do nothing else to a topic. *)

From S2P Require Import Prelude HashMap PrefixTree Protocol World Text Ipc Topic Server.

Set Warnings "-clear-no-such-hyp".

Module Session.

Import World.
Open Scope Z_scope.

#[local] Existing Instance Topic.wanted_dec.

(** ** What happens

    A request is handled, the main thread reads from the FIFO, a worker takes a turn, the
    server is stopped. *)

Inductive happening : Type :=
| Requests (r : Protocol.request)
| Listens
| Works (topic_name : str)
| Stops.

Section Operations.
Context `{Kernel} `{SubscriptionIndex} `{Hash str} `{Hash Z}.

Definition happen (e : happening) (this : Server.t) (w : world) : outcome (Server.t * world) :=
  match e with
  | Requests r => Server.handle r this w
  | Listens => fd ← deref (Server.fifo_fd this); mret (this, (read_ fd 1024 w).2)
  | Works topic_name => Server.work topic_name this w
  | Stops => Server.stop this w
  end.

Fixpoint run (es : list happening) (this : Server.t) (w : world)
    : outcome (Server.t * world) :=
  match es with
  | [] => mret (this, w)
  | e :: es => '(this, w) ← happen e this w; run es this w
  end.

End Operations.

(** ** Specification *)

Section Specification.
Context `{KernelLaws} `{SubscriptionIndex} `{Hash str} `{Hash Z}.

(** The operation on a topic that something that happens may be. *)
Inductive does : happening → str → Topic.op → Prop :=
| does_append n k v :
    n ≠ [] → does (Requests (Protocol.Req_produce n k v)) n (Topic.Op_append k v)
| does_add pid id n p o start :
    (o ≠ Protocol.OFFSET_UNSET → start = o) → u32 start →
    does (Requests (Protocol.Req_subscribe pid id n p o)) n
         (Topic.Op_add id p (Server.response_fifo pid) start)
| does_remove id n : does (Requests (Protocol.Req_disconnect id)) n (Topic.Op_remove id)
| does_run n : does (Works n) n Topic.Op_run
| does_shutdown n : does Stops n Topic.Op_shutdown.

(** The messages of a topic, when the next offset is [n]. *)
Fixpoint stored (n : Z) (ms : list (str * str)) : list Topic.Message :=
  match ms with
  | [] => []
  | (k, v) :: ms => Topic.mkMessage (wrap32 n) k v :: stored (n + 1) ms
  end.

(** What is published to topic [n]. *)
Fixpoint published_to (n : str) (es : list happening) : list (str * str) :=
  match es with
  | [] => []
  | Requests (Protocol.Req_produce n' k v) :: es =>
      if decide (n' ≠ [] ∧ n' = n) then (k, v) :: published_to n es else published_to n es
  | _ :: es => published_to n es
  end.

(** What may happen without topic [n], if it exists, taking note of it. *)
Definition passes (e : happening) (n : str) : Prop :=
  match e with
  | Requests (Protocol.Req_produce n' _ _) => n' = [] ∨ n' ≠ n
  | Works n' => n' ≠ n
  | _ => True
  end.

(** The subscribers of a topic that may not exist. *)
Definition registry (found : option Topic.t) : gmap str Topic.ActiveSubscriber :=
  from_option Topic.subs ∅ found.

(** Something happens, seen from topic [n]: it passes the topic by, brings it into
    being, or is one of its operations. *)
Inductive topic_step (e : happening) (n : str)
    : option Topic.t * world → option Topic.t * world → Prop :=
| step_aside found w w' :
    found = None ∨ passes e n → Topic.spared (registry found) w w' → topic_step e n (found, w) (found, w')
| step_created pid w w' :
    e = Requests (Protocol.Req_create pid n) →
    Topic.spared ∅ w w' → topic_step e n (None, w) (Some (Topic.make n), w')
| step_does o tp tp' w w1 w2 w' :
    does e n o → Topic.spared (Topic.subs tp) w w1 →
    Topic.run_op o tp w1 = Done (tp', w2) → Topic.spared (Topic.subs tp') w2 w' →
    topic_step e n (Some tp, w) (Some tp', w').

Inductive topic_run (n : str)
    : list happening → option Topic.t * world → option Topic.t * world → Prop :=
| run_nil s : topic_run n [] s s
| run_cons e es s1 s2 s3 :
    topic_step e n s1 s2 → topic_run n es s2 s3 → topic_run n (e :: es) s1 s3.

(** Requests that fit into frames. *)
Definition valid (e : happening) : Prop :=
  match e with Requests r => Server.sendable r | _ => True end.

(** How many messages are published. *)
Fixpoint published (es : list happening) : Z :=
  match es with
  | [] => 0
  | Requests (Protocol.Req_produce _ _ _) :: es => 1 + published es
  | _ :: es => published es
  end.

(** Every topic has room for [k] messages more. *)
Definition room (k : Z) (this : Server.t) : Prop :=
  k < 2 ^ 32 ∧
  ∀ n tp, Server.get_topic n this = Some tp → zlen (Topic.messages tp) + k < 2 ^ 32.

(** The workers of all topics are at work, or have all been seen out, with the subscribers. *)
Definition all_serving (this : Server.t) : Prop :=
  ∀ n tp, Server.get_topic n this = Some tp → Topic.serving tp.

Definition all_ended (this : Server.t) : Prop :=
  ∀ n tp, Server.get_topic n this = Some tp →
    Topic.stop_flag tp = true ∧ Topic.worker_running tp = false ∧ Topic.subs tp = ∅.

(** What happens concerns no subscription of [id]. *)
Definition spares (id : str) (e : happening) : Prop :=
  match e with
  | Requests (Protocol.Req_subscribe _ id' _ _ _) => id' ≠ id
  | Requests (Protocol.Req_disconnect id') => id' ≠ id
  | Stops => False
  | _ => True
  end.

End Specification.

(** ** One thing at a time *)

Section Theory.
Context `{KernelLaws} `{SubscriptionIndex} `{Hash str} `{Hash Z}.
Implicit Types (this : Server.t) (w : world) (tp : Topic.t) (e : happening).

Lemma published_nonneg es : 0 ≤ published es.
Proof. induction es as [|[[]| | |] es IH]; simpl; lia. Qed.

Lemma published_app es es' : published (es ++ es') = published es + published es'.
Proof. induction es as [|[[]| | |] es IH]; simpl; lia. Qed.

Lemma room_weaken k k' this : k' ≤ k → room k this → room k' this.
Proof. intros Hle [Hk Hr]. split; [lia|]. intros n tp Hn. specialize (Hr n tp Hn). lia. Qed.

Lemma does_valid e n o : does e n o → Topic.op_valid o.
Proof. by intros []. Qed.

Lemma does_appended e n o : does e n o → Topic.appended [o] = published [e].
Proof. by intros []. Qed.

Lemma does_adds e n o tp :
  does e n o → Topic.adds tp o = stored (zlen (Topic.messages tp)) (published_to n [e]).
Proof. intros []; simpl; [by rewrite decide_True|done..]. Qed.

Lemma passes_publishes e n : passes e n → published_to n [e] = [].
Proof.
  destruct e as [[]| | |]; simpl; try done. intros Hn. rewrite decide_False; [done|].
  by intros [? ?]; destruct Hn.
Qed.

Lemma does_passes e n m o : does e n o → n ≠ m → passes e m.
Proof. intros [] Hne; simpl; auto. Qed.

Lemma published_to_app n es es' : published_to n (es ++ es') = published_to n es ++ published_to n es'.
Proof. induction es as [|[[]| | |] es IH]; simpl; try case_decide; simpl; congruence. Qed.

Lemma published_to_le n es : zlen (published_to n es) ≤ published es.
Proof.
  induction es as [|[[]| | |] es IH]; simpl; rewrite ?zlen_nil; try case_decide; rewrite ?zlen_cons; lia.
Qed.

Lemma stored_app n l l' : stored n (l ++ l') = stored n l ++ stored (n + zlen l) l'.
Proof.
  revert n. induction l as [|[k v] l IH]; intros n; simpl.
  - by rewrite zlen_nil, Z.add_0_r.
  - rewrite IH, zlen_cons. by rewrite Z.add_assoc.
Qed.

Lemma length_stored n l : zlen (stored n l) = zlen l.
Proof.
  revert n. induction l as [|[k v] l IH]; intros n; simpl; [done|]. by rewrite !zlen_cons, IH.
Qed.

Lemma does_spares id e n o : does e n o → spares id e → Topic.spares id o.
Proof. by intros []. Qed.

Lemma spared_quiet M w w' : touches (λ _, False) w w' → Topic.spared M w w'.
Proof. apply touches_weaken. tauto. Qed.

Lemma spared_wf tp w w' : Topic.wf tp w → Topic.spared (Topic.subs tp) w w' → Topic.wf tp w'.
Proof. intros Hwf Hs. eapply Topic.wf_touches; [done|exact Hs|]. auto. Qed.

Lemma owns_nothing x : ¬ Topic.owns (registry None) x.
Proof. intros (id & s & Hs & _). unfold registry in Hs. simpl in Hs. by rewrite lookup_empty in Hs. Qed.

(** An operation on topic [n] passes the other topics by. *)
Lemma steps_does e n o tp tp' this this' w w1 w' :
  Server.wf this w → Server.get_topic n this = Some tp → zlen (Topic.messages tp) < 2 ^ 32 →
  does e n o → touches (λ _, False) w w1 → Topic.run_op o tp w1 = Done (tp', w') →
  (∀ m, Server.get_topic m this' = if decide (n = m) then Some tp' else Server.get_topic m this) →
  ∀ m, topic_step e m (Server.get_topic m this, w) (Server.get_topic m this', w').
Proof.
  intros Hwf Hn Hlen Hd Hq Hop Hget m. rewrite Hget. case_decide as Hm.
  { subst m. rewrite Hn. eapply step_does; [done|by apply spared_quiet|done|apply touches_refl]. }
  apply step_aside; [right; exact (does_passes e n m o Hd Hm)|].
  apply (touches_trans _ _ w1); [by apply spared_quiet|].
  pose proof (spared_wf _ _ _ (Server.wf_topic _ _ Hwf n tp Hn) (spared_quiet _ _ _ Hq)) as Htp.
  destruct (Topic.run_op_facts o tp w1 Htp (does_valid _ _ _ Hd) Hlen)
    as (tp2 & w2 & Hop2 & _ & _ & [Ht _] & _).
  rewrite Hop in Hop2. injection Hop2 as <- <-. eapply touches_weaken; [|exact Ht].
  intros x Hx Hx2. destruct (Server.get_topic m this) as [tpm|] eqn:Htpm.
  - apply Hm. by eapply (Server.wf_disjoint _ _ Hwf n m tp tpm x).
  - by apply owns_nothing in Hx2.
Qed.

Lemma steps_aside e this this' w w' :
  (∀ m, Server.get_topic m this = None ∨ passes e m) → Server.aside this w this' w' →
  ∀ m, topic_step e m (Server.get_topic m this, w) (Server.get_topic m this', w').
Proof. intros Hp [Ht Hq] m. rewrite Ht. by apply step_aside, spared_quiet. Qed.

Lemma create_steps pid name this w this' w' :
  Server.wf this w → Server.sendable (Protocol.Req_create pid name) →
  Server.handle (Protocol.Req_create pid name) this w = Done (this', w') →
  ∀ m, topic_step (Requests (Protocol.Req_create pid name)) m
         (Server.get_topic m this, w) (Server.get_topic m this', w').
Proof.
  intros Hwf Hs. rewrite Server.handle_create_eq by done.
  pose proof (Server.send_response_quiet pid) as Hq.
  destruct (negb _); [intros [= <- <-]; apply steps_aside; [by right|by apply Server.aside_same]|].
  destruct (HashMap.contains name (Server.topics this)) eqn:Hc;
    intros [= <- <-]; [apply steps_aside; [by right|by apply Server.aside_same]|].
  intros m. rewrite Server.get_create_topic by (done || apply Hwf).
  case_decide as Hm; [subst m|apply step_aside; [by right|by apply spared_quiet]].
  rewrite (Server.contains_get_topic name this w) in Hc by done.
  apply bool_decide_eq_false, eq_None_not_Some in Hc. rewrite Hc.
  by eapply step_created, spared_quiet.
Qed.

Lemma request_steps r this w :
  Server.wf this w → Server.sendable r → room (published [Requests r]) this →
  ∃ this' w', Server.handle r this w = Done (this', w') ∧ Server.wf this' w' ∧
    Server.running this' = Server.running this ∧ Server.fifo_fd this' = Server.fifo_fd this ∧
    ∀ m, topic_step (Requests r) m (Server.get_topic m this, w) (Server.get_topic m this', w').
Proof.
  intros Hwf Hs [_ Hroom].
  destruct (Server.handle_ok r this w Hwf Hs) as (this' & w' & Hh & Hwf' & Hr & Hf).
  assert (∀ n tp, Server.get_topic n this = Some tp → zlen (Topic.messages tp) < 2 ^ 32) as Hlen.
  { intros n tp Hn. specialize (Hroom n tp Hn). pose proof (published_nonneg [Requests r]). lia. }
  exists this', w'. split_and!; [done..|]. destruct r as [pid n|pid|pid id|pid n|n k v
    |pid id n p o|id o|id].
  - by apply create_steps.
  - rewrite Server.handle_list_eq in Hh by done. injection Hh as <- <-.
    apply steps_aside; [by right|]. by apply Server.aside_same, Server.send_response_quiet.
  - destruct (Server.handle_info_aside pid id this w Hs) as (this2 & w2 & Hh2 & Ha).
    rewrite Hh in Hh2. injection Hh2 as <- <-. apply steps_aside; [by right|done].
  - destruct (Server.handle_connect_aside pid n this w Hs) as (this2 & w2 & Hh2 & Ha).
    rewrite Hh in Hh2. injection Hh2 as <- <-. apply steps_aside; [by right|done].
  - rewrite Server.handle_produce_eq in Hh by done.
    assert (Server.aside this w this w) as Hsame by (by apply Server.aside_same, touches_refl).
    destruct (decide (n = [])) as [->|Hne].
    { injection Hh as <- <-. apply steps_aside; [|done]. intros m. right. by left. }
    rewrite bool_decide_false in Hh by done. cbn [negb] in Hh.
    destruct (Server.get_topic n this) as [tp|] eqn:Hn; injection Hh as <- <-.
    2:{ apply steps_aside; [|done]. intros m. destruct (decide (n = m)) as [<-|]; [by left|].
        right. by right. }
    eapply (steps_does _ n (Topic.Op_append k v)); [done|done|eauto|by constructor| |done|].
    + apply touches_refl.
    + intros m. rewrite Server.get_set_topic; [done|apply Hwf|by exists tp].
  - destruct (Server.subscribe_effect pid id n p o this w Hwf Hs) as (this2 & w2 & Hh2 & He).
    rewrite Hh in Hh2. injection Hh2 as <- <-.
    destruct (Server.accepts id n this w); [|apply steps_aside; [by right|done]].
    destruct He as (_ & tp & b & tp' & w1 & Hn & Hq & Hadd & Hget).
    eapply (steps_does _ n (Topic.Op_add id p (Server.response_fifo pid)
      (Server.first_offset id o this))); [done|done|eauto| |exact Hq| |done].
    + constructor.
      * intros Ho. unfold Server.first_offset. by rewrite (proj2 (Z.eqb_neq _ _) Ho).
      * eapply Server.first_offset_u32; [done|]. apply Hs.
    + simpl. by rewrite Hadd.
  - rewrite Server.handle_ack_eq in Hh by done. injection Hh as <- <-. apply steps_aside; [by right|].
    apply Server.aside_same, touches_refl. by destruct (HashMap.find id (Server.client_index this)).
  - destruct (Server.disconnect_effect id this w Hwf Hs) as (this2 & w2 & Hh2 & He).
    rewrite Hh in Hh2. injection Hh2 as <- <-. destruct He as [Ha|He]; [apply steps_aside; [by right|done]|].
    destruct He as (n & tp & b & tp' & Hn & Hrm & Hget).
    eapply (steps_does _ n (Topic.Op_remove id)); [done|done|eauto|constructor|apply touches_refl| |done].
    simpl. by rewrite Hrm.
Qed.

Lemma work_steps name this w :
  Server.wf this w → room 0 this →
  ∃ this' w', Server.work name this w = Done (this', w') ∧ Server.wf this' w' ∧
    Server.running this' = Server.running this ∧ Server.fifo_fd this' = Server.fifo_fd this ∧
    ∀ m, topic_step (Works name) m (Server.get_topic m this, w) (Server.get_topic m this', w').
Proof.
  intros Hwf [_ Hroom].
  assert (Server.small this) as Hsmall.
  { intros n tp Hn. specialize (Hroom n tp Hn). lia. }
  destruct (Server.get_topic name this) as [tp|] eqn:Hn.
  - destruct (Topic.run_step_facts tp w (Server.wf_topic _ _ Hwf name tp Hn) (Hsmall name tp Hn))
      as (tp' & w' & Hrun & _).
    assert (Server.work name this w = Done (Server.set_topic name tp' this, w')) as Hwork
      by (unfold Server.work; by rewrite Hn, Hrun).
    destruct (Server.work_wf name this w _ w' Hwf Hsmall Hwork) as [Hwf' Hf].
    eexists _, _. split_and!; [exact Hwork|done|done|done|].
    eapply (steps_does _ name Topic.Op_run); [done|done|eauto|constructor|apply touches_refl|done|].
    intros m. rewrite Server.get_set_topic; [done|apply Hwf|by exists tp].
  - exists this, w. unfold Server.work. rewrite Hn. split_and!; [done..|].
    apply steps_aside; [|by apply Server.aside_same, touches_refl]. intros m.
    destruct (decide (name = m)) as [<-|]; [by left|by right].
Qed.

Lemma stop_steps this w fd :
  Server.wf this w → Server.fifo_fd this = Some fd →
  ∃ this' w', Server.stop this w = Done (this', w') ∧ Server.wf this' w' ∧
    Server.running this' = false ∧ Server.fifo_fd this' = Some fd ∧
    ∀ m, topic_step Stops m (Server.get_topic m this, w) (Server.get_topic m this', w').
Proof.
  intros Hwf Hfd. destruct (Server.running this) eqn:Hr.
  - destruct (Server.stop_facts this w fd Hwf Hr Hfd)
      as (this' & w' & Hstop & Hwf' & Hr' & Hf' & _ & Hbeside & _).
    exists this', w'. split_and!; [done..|]. intros m. specialize (Hbeside m).
    destruct (Server.get_topic m this) as [tp|].
    + destruct Hbeside as (tp' & wa & wb & [= ->] & Ha & Hsh & Hb).
      eapply (step_does _ _ Topic.Op_shutdown); [constructor|exact Ha|exact Hsh|exact Hb].
    + destruct Hbeside as [-> Hq]. apply step_aside; [by left|]. eapply touches_weaken; [|exact Hq].
      intros x _. apply owns_nothing.
  - exists this, w. unfold Server.stop. rewrite Hr. split_and!; [done..|].
    apply steps_aside; [by right|]. by apply Server.aside_same, touches_refl.
Qed.

(** ** A topic as things happen *)

Lemma spared_session id p fd start n0 tp w w' :
  Topic.wf tp w → 0 ≤ fd → Topic.spared (Topic.subs tp) w w' →
  Topic.in_session id p fd start n0 (Topic.subs tp) (Topic.messages tp) w →
  Topic.in_session id p fd start n0 (Topic.subs tp) (Topic.messages tp) w'.
Proof.
  intros Hwf Hfd Hs Hses. eapply Topic.in_session_quiet; [exact Hses|apply Hwf|done|done|exact Hs|].
  intros s Hid Hsfd Hn. apply Hn. exists id, s. split_and!; [done|done|lia].
Qed.

Lemma topic_step_facts e n tp w found' w' :
  topic_step e n (Some tp, w) (found', w') → Topic.wf tp w → zlen (Topic.messages tp) < 2 ^ 32 →
  ∃ tp', found' = Some tp' ∧ Topic.wf tp' w' ∧
    Topic.messages tp' =
      Topic.messages tp ++ stored (zlen (Topic.messages tp)) (published_to n [e]) ∧
    (e ≠ Stops → Topic.serving tp → Topic.serving tp') ∧
    ∀ id p fd start n0, spares id e → 0 ≤ fd →
      Topic.in_session id p fd start n0 (Topic.subs tp) (Topic.messages tp) w →
      Topic.in_session id p fd start n0 (Topic.subs tp') (Topic.messages tp') w'.
Proof.
  intros Hstep Hwf Hlen. pose proof (published_nonneg [e]).
  inversion Hstep as [found w1 w2 [|Hp] Hs| |o tp1 tp' w1 w2 w3 w4 Hd Ha Hop Hb]; subst.
  - done.
  - exists tp. rewrite (passes_publishes e n) by done.
    split_and!; [done|by eapply spared_wf|by rewrite app_nil_r|done|].
    intros * _ Hfd. by apply spared_session.
  - pose proof (spared_wf _ _ _ Hwf Ha) as Hwf1.
    destruct (Topic.run_op_facts o tp w2 Hwf1 (does_valid _ _ _ Hd) Hlen)
      as (tp2 & w5 & Hop2 & Hwf2 & Hl & _ & Hserv & Hses).
    rewrite Hop in Hop2. injection Hop2 as <- <-. exists tp'. split_and!; [done| | | |].
    + by eapply spared_wf.
    + rewrite <- (does_adds e n o) by done.
      eapply Topic.run_op_messages; [done|by eapply does_valid|done|done].
    + intros Hne. apply Hserv. intros ->. by inversion Hd; subst.
    + intros id p fd start n0 Hsp Hfd Hs. eapply spared_session; [done|done|exact Hb|].
      apply Hses; [exact (does_spares id e n o Hd Hsp)|done|].
      by apply (spared_session id p fd start n0 tp w w2).
Qed.

Lemma topic_step_none e n w found' w' :
  topic_step e n (None, w) (found', w') → found' = None ∨ found' = Some (Topic.make n).
Proof. inversion 1; subst; auto. Qed.

(** What holds of the server whatever happens, with room for [k] messages more. *)
Lemma happen_ok e k this w :
  Server.wf this w → is_Some (Server.fifo_fd this) → valid e → 0 ≤ k →
  room (published [e] + k) this →
  ∃ this' w', happen e this w = Done (this', w') ∧ Server.wf this' w' ∧
    is_Some (Server.fifo_fd this') ∧ room k this' ∧
    (e ≠ Stops → Server.running this' = Server.running this ∧
                 (all_serving this → all_serving this')) ∧
    ∀ m, topic_step e m (Server.get_topic m this, w) (Server.get_topic m this', w').
Proof.
  intros Hwf [fd Hfd] Hv Hk Hroom. pose proof (published_nonneg [e]).
  assert (∃ this' w', happen e this w = Done (this', w') ∧ Server.wf this' w' ∧
    Server.fifo_fd this' = Server.fifo_fd this ∧
    (e ≠ Stops → Server.running this' = Server.running this) ∧
    ∀ m, topic_step e m (Server.get_topic m this, w) (Server.get_topic m this', w'))
    as (this' & w' & Hh & Hwf' & Hf & Hr & Hsteps).
  { destruct e as [r| |name|].
    - destruct (request_steps r this w Hwf Hv) as (this' & w' & ? & ? & ? & ? & ?);
        [eapply room_weaken; [|done]; lia|]. by exists this', w'.
    - exists this, (read_ fd 1024 w).2. simpl. rewrite Hfd. split_and!; [done| |done|done|].
      + eapply Server.wf_quiet; [done|by apply (touches_read (λ _, False))|tauto|tauto].
      + apply steps_aside; [by right|]. by apply Server.aside_same, touches_read.
    - destruct (work_steps name this w Hwf) as (this' & w' & ? & ? & ? & ? & ?);
        [eapply room_weaken; [|done]; lia|]. by exists this', w'.
    - destruct (stop_steps this w fd Hwf Hfd) as (this' & w' & ? & ? & ? & Hf & ?).
      exists this', w'. rewrite Hf. by split_and!. }
  destruct Hroom as [Hlt Hroom].
  assert (∀ n tp', Server.get_topic n this' = Some tp' →
    zlen (Topic.messages tp') + k < 2 ^ 32 ∧
    (e ≠ Stops → all_serving this → Topic.serving tp')) as Htopics.
  { intros n tp' Hn. specialize (Hsteps n). rewrite Hn in Hsteps.
    destruct (Server.get_topic n this) as [tp|] eqn:Htp.
    - specialize (Hroom n tp Htp).
      destruct (topic_step_facts e n tp w _ w' Hsteps) as (tp2 & [= <-] & _ & -> & Hserv & _);
        [by eapply Server.wf_topic|lia|]. pose proof (published_to_le n [e]).
      rewrite zlen_app, length_stored. split; [lia|]. intros He Hall. by apply Hserv, (Hall n).
    - apply topic_step_none in Hsteps as [|[= ->]]; [done|]. cbn [Topic.messages Topic.make].
      rewrite zlen_nil. split; [lia|]. by split. }
  exists this', w'. split_and!; [done|done|rewrite Hf; by eexists| | |done].
  - split; [lia|]. intros n tp' Hn. by apply (Htopics n).
  - intros He. split; [by apply Hr|]. intros Hall n tp' Hn. by apply (Htopics n).
Qed.

Lemma run_ok es k this w :
  Server.wf this w → is_Some (Server.fifo_fd this) → Forall valid es → 0 ≤ k →
  room (published es + k) this →
  ∃ this' w', run es this w = Done (this', w') ∧ Server.wf this' w' ∧
    is_Some (Server.fifo_fd this') ∧ room k this' ∧
    (Stops ∉ es → Server.running this' = Server.running this ∧
                  (all_serving this → all_serving this')) ∧
    ∀ m, topic_run m es (Server.get_topic m this, w) (Server.get_topic m this', w').
Proof.
  revert this w. induction es as [|e es IH]; intros this w Hwf Hfd Hv Hk Hroom.
  { exists this, w. split_and!; [done..|]. constructor. }
  apply Forall_cons in Hv as [Hv1 Hv]. pose proof (published_nonneg es).
  change (e :: es) with ([e] ++ es) in Hroom. rewrite published_app, <- Z.add_assoc in Hroom.
  destruct (happen_ok e (published es + k) this w Hwf Hfd Hv1 ltac:(lia) Hroom)
    as (this1 & w1 & Hh & Hwf1 & Hfd1 & Hroom1 & Hr1 & Hs1).
  destruct (IH this1 w1 Hwf1 Hfd1 Hv Hk Hroom1) as (this2 & w2 & Hrun & Hwf2 & Hfd2 & Hroom2 & Hr2 & Hs2).
  exists this2, w2. split_and!; [cbn [run]; by rewrite Hh|done|done|done| |].
  - intros [He Hes]%not_elem_of_cons. destruct (Hr2 Hes) as [-> ?].
    destruct (Hr1 ltac:(by intros ->)) as [-> ?]. auto.
  - intros m. by eapply run_cons.
Qed.

Lemma room_for n es this tp :
  room (published es) this → Server.get_topic n this = Some tp →
  zlen (Topic.messages tp) + zlen (published_to n es) < 2 ^ 32.
Proof. intros [_ Hroom] Hn. specialize (Hroom n tp Hn). pose proof (published_to_le n es). lia. Qed.

Lemma topic_run_facts n es tp w found' w' :
  topic_run n es (Some tp, w) (found', w') → Topic.wf tp w →
  zlen (Topic.messages tp) + zlen (published_to n es) < 2 ^ 32 →
  ∃ tp', found' = Some tp' ∧ Topic.wf tp' w' ∧
    Topic.messages tp' =
      Topic.messages tp ++ stored (zlen (Topic.messages tp)) (published_to n es) ∧
    (Stops ∉ es → Topic.serving tp → Topic.serving tp') ∧
    ∀ id p fd start n0, Forall (spares id) es → 0 ≤ fd →
      Topic.in_session id p fd start n0 (Topic.subs tp) (Topic.messages tp) w →
      Topic.in_session id p fd start n0 (Topic.subs tp') (Topic.messages tp') w'.
Proof.
  revert tp w. induction es as [|e es IH]; intros tp w Hrun Hwf Hlen.
  { inversion Hrun; subst. exists tp. split_and!; try done. by rewrite app_nil_r. }
  inversion Hrun as [|? ? ? [found1 w1] ? Hstep Hrest]; subst.
  change (e :: es) with ([e] ++ es) in Hlen. rewrite published_to_app, zlen_app in Hlen. zlen_facts.
  destruct (topic_step_facts e n tp w found1 w1 Hstep Hwf ltac:(lia))
    as (tp1 & -> & Hwf1 & Hm1 & Hserv1 & Hses1).
  assert (zlen (Topic.messages tp1) = zlen (Topic.messages tp) + zlen (published_to n [e])) as Hl1
    by (by rewrite Hm1, zlen_app, length_stored).
  destruct (IH tp1 w1 Hrest Hwf1 ltac:(lia)) as (tp2 & -> & Hwf2 & Hm2 & Hserv2 & Hses2).
  exists tp2. split_and!; [done|done| | |].
  - change (e :: es) with ([e] ++ es).
    by rewrite published_to_app, stored_app, (assoc_L (++)), <- Hm1, <- Hl1.
  - intros [He Hes]%not_elem_of_cons Hs. apply Hserv2; [done|]. apply Hserv1; [by intros ->|done].
  - intros id p fd start n0 [He Hes]%Forall_cons Hfd Hs. by apply Hses2, Hses1.
Qed.

(** ** Subscriptions *)

(** Subscriber [id] of topic [name] has been served, with [fd], since [n0] events ago. *)
Definition served_from (id p : str) (fd start : Z) (n0 : nat) (name : str) this w : Prop :=
  ∃ tp, Server.get_topic name this = Some tp ∧
    Topic.in_session id p fd start n0 (Topic.subs tp) (Topic.messages tp) w.

(** An accepted request to subscribe begins a session, when the client's FIFO opens. *)
Lemma subscription_begins pid id name p o this w this1 w1 tp tp1 :
  Server.wf this w → Server.sendable (Protocol.Req_subscribe pid id name p o) →
  Server.accepts id name this w = true →
  Server.handle (Protocol.Req_subscribe pid id name p o) this w = Done (this1, w1) →
  Server.get_topic name this = Some tp → Server.get_topic name this1 = Some tp1 →
  is_Some (Topic.subs tp1 !! id) →
  Server.wf this1 w1 ∧ Server.fifo_fd this1 = Server.fifo_fd this ∧
  Server.running this1 = Server.running this ∧
  Topic.messages tp1 = Topic.messages tp ∧ (Topic.serving tp → Topic.serving tp1) ∧
  (∀ n tpn, Server.get_topic n this1 = Some tpn → ∃ tpn0, Server.get_topic n this = Some tpn0 ∧
     Topic.messages tpn = Topic.messages tpn0) ∧
  ∃ fd, 0 ≤ fd ∧
    Topic.subs tp1 !! id =
      Some (Topic.mkSubscriber id p (Server.response_fifo pid) fd (Server.first_offset id o this)) ∧
    served_from id p fd (Server.first_offset id o this) (length (trace w1)) name this1 w1.
Proof.
  intros Hwf Hs Hacc Hh Htp Htp1 Hin.
  destruct (Server.handle_ok _ this w Hwf Hs) as (this2 & w2 & Hh2 & Hwf1 & Hr & Hf).
  rewrite Hh in Hh2. injection Hh2 as <- <-.
  destruct (Server.subscribe_effect pid id name p o this w Hwf Hs) as (this2 & w2 & Hh2 & He).
  rewrite Hh in Hh2. injection Hh2 as <- <-. rewrite Hacc in He.
  destruct He as (_ & tp' & b & tp1' & w2 & Htp' & Hq & Hadd & Hget).
  rewrite Htp in Htp'. injection Htp' as <-.
  pose proof Htp1 as Heq. rewrite Hget, decide_True in Heq by done. injection Heq as ->.
  assert (u32 (Server.first_offset id o this)) as Hu.
  { eapply Server.first_offset_u32; [done|]. apply Hs. }
  pose proof (spared_wf _ _ _ (Server.wf_topic _ _ Hwf name tp Htp) (spared_quiet _ _ _ Hq)) as Hwf2.
  destruct (Topic.add_subscriber_facts tp w2 id p (Server.response_fifo pid) _ Hwf2 Hu)
    as (b' & tp2 & w3 & Hadd2 & _ & Hm & Hst & Hwr & _ & Hb).
  rewrite Hadd in Hadd2. injection Hadd2 as <- <- <-. destruct b.
  2:{ rewrite Hb, lookup_delete_eq in Hin. by destruct Hin. }
  destruct Hb as (fd & Hpos & _ & _ & _ & Hsub). split_and!; [done..| | |].
  - unfold Topic.serving. by rewrite Hst, Hwr.
  - intros n tpn. rewrite Hget. case_decide; [|eauto]. subst. intros [= <-]. by exists tp.
  - exists fd. split; [done|]. rewrite Hsub, lookup_insert_eq. split; [done|].
    exists tp1. split; [done|]. rewrite Hsub. by apply Topic.in_session_start.
Qed.

(** A session goes on whatever happens to others. *)
Lemma served_on es id p fd start n0 name this w this' w' :
  Server.wf this w → is_Some (Server.fifo_fd this) → Forall valid es → room (published es) this →
  Forall (spares id) es → 0 ≤ fd → served_from id p fd start n0 name this w →
  run es this w = Done (this', w') → served_from id p fd start n0 name this' w'.
Proof.
  intros Hwf Hf Hv Hroom Hsp Hfd (tp & Htp & Hses) Hrun.
  destruct (run_ok es 0 this w Hwf Hf Hv ltac:(lia) ltac:(by rewrite Z.add_0_r)) as (this2 & w2 & Hrun2 & _ & _ & _ & _ & Htopics).
  rewrite Hrun in Hrun2. injection Hrun2 as <- <-. specialize (Htopics name). rewrite Htp in Htopics.
  destruct (topic_run_facts name es tp w _ w' Htopics) as (tp' & Htp' & _ & _ & _ & Hkeep).
  { by eapply Server.wf_topic. }
  { by eapply room_for. }
  exists tp'. split; [done|]. by apply Hkeep.
Qed.

Lemma run_app es es' this w :
  run (es ++ es') this w = '(this, w) ← run es this w; run es' this w.
Proof.
  revert this w. induction es as [|e es IH]; intros this w; simpl; [done|].
  destruct (happen e this w) as [[this1 w1]| |]; simpl; [apply IH|done..].
Qed.

(** At the worker's turn the subscriber is sent what is left. *)
Lemma work_delivers id p fd start n0 name this w tp :
  Server.wf this w → room 0 this → 0 ≤ fd → served_from id p fd start n0 name this w →
  Server.get_topic name this = Some tp → Topic.serving tp →
  ∃ this' w' tp' s, Server.work name this w = Done (this', w') ∧
    Server.get_topic name this' = Some tp' ∧ Topic.messages tp' = Topic.messages tp ∧
    Topic.serving tp' ∧ Topic.subs tp' !! id = Some s ∧ (n0 ≤ length (trace w'))%nat ∧
    let since := drop n0 (trace w') in
    let sent := session_writes fd since in
    let due := Topic.frame <$> filter (Topic.wanted p) (drop (Z.to_nat start) (Topic.messages tp)) in
    (Topic.fifo_fd s = fd ∧ forallb (negb ∘ closes fd) since = true ∧
     sent.*1 = due ∧ Forall (λ ret, 0 < ret) sent.*2) ∨
    (Topic.fifo_fd s = -1 ∧ forallb (negb ∘ closes fd) since = false ∧ sent.*1 `prefix_of` due).
Proof.
  intros Hwf [_ Hroom] Hfd (tp0 & Htp0 & Hses) Htp [Hstop Hrun]. rewrite Htp in Htp0.
  injection Htp0 as <-. specialize (Hroom name tp Htp).
  destruct (Topic.run_step_facts tp w (Server.wf_topic _ _ Hwf name tp Htp) ltac:(lia))
    as (tp' & w' & Hstep & _ & Hm & Hst & Hwr & _ & Hdone & Hkeep).
  destruct (Hkeep id p fd start n0 Hfd Hses) as (s & Hs & _ & Hstart & Hn & Hlen & Hc).
  exists (Server.set_topic name tp' this), w', tp', s. split_and!; try done.
  - unfold Server.work. by rewrite Htp, Hstep.
  - rewrite Server.get_set_topic; [by rewrite decide_True|apply Hwf|by exists tp].
  - unfold Topic.serving. by rewrite Hst, Hwr, Hstop, Hrun.
  - rewrite <- Topic.expected_all by lia. rewrite Hm in *. pose proof (Hdone Hrun Hstop id s Hs).
    by replace (Z.max start (zlen (Topic.messages tp))) with (Topic.next_offset s) by lia.
Qed.

(** The end of the server sends the notice to a subscriber that is being served. *)
Lemma stop_notifies id name this w tp s :
  Server.wf this w → Server.running this = true → is_Some (Server.fifo_fd this) →
  Server.get_topic name this = Some tp → Topic.stop_flag tp = false →
  Topic.subs tp !! id = Some s →
  ∃ this' w' tr, Server.stop this w = Done (this', w') ∧ trace w' = trace w ++ tr ∧
    (0 ≤ Topic.fifo_fd s → Topic.signed_off (Topic.fifo_fd s) tr).
Proof.
  intros Hwf Hr [sfd Hf] Htp Hstop Hs.
  destruct (Server.stop_facts this w sfd Hwf Hr Hf) as (this' & w' & Hrun & _ & _ & _ & _ & Hb & _).
  specialize (Hb name). rewrite Htp in Hb.
  destruct Hb as (tp' & wa & wb & _ & Ha & Hsh & (tr3 & Htr3 & _)).
  pose proof (Server.wf_topic _ _ Hwf name tp Htp) as Hwtp.
  pose proof (spared_wf _ _ _ Hwtp Ha) as Hwa.
  destruct (Topic.shutdown_facts tp wa Hwa Hstop)
    as (tp2 & wb2 & tr2 & Hsh2 & _ & _ & _ & _ & _ & _ & Htr2 & Hoff).
  rewrite Hsh in Hsh2. injection Hsh2 as <- <-. destruct Ha as (tr1 & Htr1 & Hq).
  exists this', w', (tr1 ++ tr2 ++ tr3). split; [done|].
  split; [by rewrite Htr3, Htr2, Htr1, <- !(assoc_L (++))|]. intros Hpos.
  assert (Topic.owns (Topic.subs tp) (Topic.fifo_fd s)) as Hown
    by (exists id, s; split_and!; [done|done|lia]).
  apply Topic.signed_off_quiet; [|by apply Topic.signed_off_app, Hoff]. apply Hq; [tauto|].
  destruct (Topic.subs_fd _ _ (Topic.wf_subs _ _ Hwtp) id s Hs) as [|[_ ?]]; [lia|done].
Qed.

Lemma room_entries k this :
  HashMap.wf (Server.topics this) → k < 2 ^ 32 →
  forallb (λ entry, match entry.2 with
                    | Some tp => zlen (Topic.messages tp) + k <? 2 ^ 32
                    | None => true
                    end) (HashMap.entries (Server.topics this)) = true →
  room k this.
Proof.
  intros Ht Hk Hall. split; [done|]. intros n tp Hn%Server.get_topic_Some.
  rewrite <- HashMap.entries_elem_of in Hn by done.
  rewrite forallb_forall in Hall. by apply Z.ltb_lt, (Hall (n, Some tp)), list_elem_of_In.
Qed.

Lemma spares_stop id es : Forall (spares id) es → Stops ∉ es.
Proof. rewrite Forall_forall. intros Hs Hin. by apply Hs in Hin. Qed.

(** What a subscription amounts to when the worker has had its turn, and at the end. *)
Lemma session_delivers pid id name p o es this w this1 w1 tp tp1 :
  Server.wf this w → is_Some (Server.fifo_fd this) → Server.running this = true →
  Server.sendable (Protocol.Req_subscribe pid id name p o) →
  Server.accepts id name this w = true →
  Server.handle (Protocol.Req_subscribe pid id name p o) this w = Done (this1, w1) →
  Server.get_topic name this = Some tp → Topic.serving tp →
  Server.get_topic name this1 = Some tp1 → is_Some (Topic.subs tp1 !! id) →
  Forall valid es → Forall (spares id) es → room (published es) this →
  ∃ fd this2 w2 tp2 s this3 w3,
    Topic.fifo_fd <$> Topic.subs tp1 !! id = Some fd ∧ 0 ≤ fd ∧
    run (es ++ [Works name]) this1 w1 = Done (this2, w2) ∧
    Server.get_topic name this2 = Some tp2 ∧ Topic.subs tp2 !! id = Some s ∧
    Server.stop this2 w2 = Done (this3, w3) ∧
    let sent := session_writes fd (drop (length (trace w1)) (trace w2)) in
    let due := Topic.frame <$> filter (Topic.wanted p)
                 (drop (Z.to_nat (Server.first_offset id o this)) (Topic.messages tp2)) in
    let sent' := session_writes fd (drop (length (trace w1)) (trace w3)) in
    (Topic.fifo_fd s = fd ∧ sent.*1 = due ∧ Forall (λ ret, 0 < ret) sent.*2 ∧
     ∃ ret, sent' = sent ++ [(Protocol.serialize_shutdown, ret)]) ∨
    (Topic.fifo_fd s = -1 ∧ sent.*1 `prefix_of` due ∧ sent' = sent).
Proof.
  intros Hwf Hf Hr Hs Hacc Hh Htp Hserv Htp1 Hin Hv Hsp Hroom.
  destruct (subscription_begins pid id name p o this w this1 w1 tp tp1 Hwf Hs Hacc Hh Htp Htp1 Hin)
    as (Hwf1 & Hf1 & Hr1 & _ & Hserv1 & Hmsgs & fd & Hfd & Hsub & Hses).
  specialize (Hserv1 Hserv). rewrite <- Hf1 in Hf. rewrite Hr in Hr1.
  assert (room (published es) this1) as Hroom1.
  { destruct Hroom as [Hk Hroom]. split; [done|]. intros n tpn Hn.
    destruct (Hmsgs n tpn Hn) as (tpn0 & Hn0 & ->). by apply (Hroom n). }
  destruct (run_ok es 0 this1 w1 Hwf1 Hf Hv ltac:(lia) ltac:(by rewrite Z.add_0_r))
    as (this2 & w2 & Hrun & Hwf2 & Hf2 & Hroom2 & Hr2 & Htopics).
  destruct (Hr2 (spares_stop id es Hsp)) as [Hr2' _]. rewrite Hr1 in Hr2'.
  pose proof (served_on es id p fd _ _ name this1 w1 this2 w2 Hwf1 Hf Hv Hroom1 Hsp Hfd Hses Hrun)
    as Hses2.
  specialize (Htopics name). rewrite Htp1 in Htopics.
  destruct (topic_run_facts name es tp1 w1 _ w2 Htopics) as (tp2 & Htp2 & _ & _ & Hserv2 & _).
  { by eapply Server.wf_topic. }
  { by eapply room_for. }
  specialize (Hserv2 (spares_stop id es Hsp) Hserv1).
  destruct (work_delivers id p fd _ _ name this2 w2 tp2 Hwf2 Hroom2 Hfd Hses2 Htp2 Hserv2)
    as (this3 & w3 & tp3 & s & Hwork & Htp3 & Hm3 & [Hst3 _] & Hs3 & Hn0 & Hc).
  destruct (run_ok [Works name] 0 this2 w2 Hwf2 Hf2) as (this3' & w3' & Hrun3 & Hwf3 & Hf3 & _ & Hr3 & _);
    [by apply Forall_singleton|done|done|]. cbn [run happen] in Hrun3. rewrite Hwork in Hrun3.
  injection Hrun3 as <- <-. rewrite Hr2' in Hr3.
  destruct (stop_notifies id name this3 w3 tp3 s Hwf3) as (this4 & w4 & tr & Hstop & Htr & Hoff);
    try done; [apply Hr3; by intros ?%list_elem_of_singleton|].
  exists fd, this3, w3, tp3, s, this4, w4. rewrite Hsub, run_app, Hrun. cbn [mbind outcome_bind run happen].
  rewrite Hwork, Htr, drop_app_le by done. rewrite Hm3. split_and!; try done.
  destruct Hc as [(He & Hcl & Hsent & Hpos)|(He & Hcl & Hsent)]; [left|right].
  - split_and!; [done..|]. rewrite He in Hoff. destruct (Hoff Hfd) as (ret & Hw & _). exists ret.
    by rewrite session_writes_app, Hw.
  - split_and!; [done..|]. by apply session_writes_closed.
Qed.

(** ** The end *)

Lemma stop_ends fd this w :
  Server.wf this w → Server.running this = true → Server.fifo_fd this = Some fd →
  all_serving this →
  ∃ this' w', Server.stop this w = Done (this', w') ∧ Server.wf this' w' ∧
    Server.running this' = false ∧ Server.fifo_fd this' = Some fd ∧ all_ended this' ∧
    ¬ is_open w' fd.
Proof.
  intros Hwf Hr Hf Hall.
  destruct (Server.stop_facts this w fd Hwf Hr Hf)
    as (this' & w' & Hstop & Hwf' & Hr' & Hf' & _ & Hbeside & w1 & Hw).
  exists this', w'. split_and!; [done..| |].
  - intros n tp Hn. specialize (Hbeside n). destruct (Server.get_topic n this) as [tp0|] eqn:Htp0.
    + destruct Hbeside as (tp' & wa & wb & [= Htp] & Ha & Hsh & _). rewrite Hn in Htp.
      injection Htp as ->. pose proof (spared_wf _ _ _ (Server.wf_topic _ _ Hwf n tp0 Htp0) Ha) as Hwa.
      destruct (Topic.shutdown_facts tp0 wa Hwa) as (tp2 & w2 & tr & Hsh2 & _ & _ & Hst & Hwr & He & _);
        [by apply (Hall n)|].
      rewrite Hsh in Hsh2. by injection Hsh2 as <- _.
    + destruct Hbeside as [Hnone _]. by rewrite Hnone in Hn.
  - rewrite Hw. unfold is_open. simpl. rewrite sys_close_law. tauto.
Qed.

(** Workers that have been seen out do nothing. *)
Lemma ended_works name this w :
  Server.wf this w → all_ended this →
  ∃ this', Server.work name this w = Done (this', w) ∧
    (∀ n, Server.get_topic n this' = Server.get_topic n this).
Proof.
  intros Hwf Hall. unfold Server.work.
  destruct (Server.get_topic name this) as [tp|] eqn:Htp; [|by exists this].
  destruct (Hall name tp Htp) as (_ & Hwr & _). unfold Topic.run_step. rewrite Hwr. simpl.
  eexists. split; [done|]. intros n. rewrite Server.get_set_topic by (apply Hwf || by exists tp).
  case_decide; [by subst|done].
Qed.

(** Nor does the destruction of the topics in the table. *)
Lemma ended_topics_destroyed this w :
  Server.wf this w → all_ended this →
  ∃ ts, HashMap.for_each (λ _ found w, Server.stop_topic found w) (Server.topics this) w =
          Done (ts, w) ∧
        ∀ n, Server.get_topic n (Server.with_topics ts this) = Server.get_topic n this.
Proof.
  intros Hwf Hall.
  destruct (HashMap.for_each_rule (λ (_ : str) found w, Server.stop_topic found w)
    (λ (_ : gset str) M w', M = Server.topic_map this ∧ w' = w) (Server.topics this) w
    (Server.wf_topics _ _ Hwf)) as (ts & w' & Hrun & Htab & _ & HM & ->); [done| |].
  - intros X M w1 n found [-> ->] Hn _. exists found, w. split; [|by rewrite insert_id].
    destruct found as [tp|]; [|done]. apply Server.get_topic_map in Hn; [|apply Hwf].
    destruct (Hall n tp Hn) as [Hst _]. unfold Server.stop_topic, Topic.shutdown. by rewrite Hst.
  - exists ts. split; [done|]. intros n. unfold Server.get_topic. simpl.
    rewrite !HashMap.find_to_map by (done || apply Hwf). by rewrite HM.
Qed.

(** ** Bytes as requests *)

Definition requests (es : list happening) : list Protocol.request :=
  omap (λ e, match e with Requests r => Some r | _ => None end) es.

Lemma requests_fmap (rs : list Protocol.request) : requests (Requests <$> rs) = rs.
Proof. induction rs as [|r rs IH]; [done|]. unfold requests in *. csimpl. by rewrite IH. Qed.

Lemma requests_app es es' : requests (es ++ es') = requests es ++ requests es'.
Proof. apply omap_app. Qed.

Lemma requests_only (rs : list Protocol.request) : Stops ∉ Requests <$> rs.
Proof. by intros (r & ? & _)%list_elem_of_fmap. Qed.

Lemma published_one e : published [e] ≤ 1.
Proof. by destruct e as [[]| | |]. Qed.

(** The requests in the buffer are handled, unless a length wraps. *)
Lemma frames_happen fuel buf k this w :
  Server.wf this w → is_Some (Server.fifo_fd this) →
  zlen buf < 2 ^ 62 → (length buf < fuel)%nat → 0 ≤ k → room (zlen buf + k) this →
  (∃ rest this' w' rs, Server.frames fuel buf this w = Done (rest, this', w') ∧
     Server.says buf rs rest ∧ Forall Server.sendable rs ∧
     run (Requests <$> rs) this w = Done (this', w') ∧
     published (Requests <$> rs) + zlen rest ≤ zlen buf) ∨
  Server.overrun buf.
Proof.
  revert buf this w. induction fuel as [|fuel IH]; intros buf this w Hwf Hf Hl Hfuel Hk Hroom; [lia|].
  rewrite Server.frames_step by done. pose proof (Server.header_facts buf Hl) as Hh.
  assert (Server.resting buf → ∃ rest this' w' rs, Done (buf, this, w) = Done (rest, this', w') ∧
     Server.says buf rs rest ∧ Forall Server.sendable rs ∧
     run (Requests <$> rs) this w = Done (this', w') ∧
     published (Requests <$> rs) + zlen rest ≤ zlen buf) as Hkept
    by (intros Hrest; exists buf, this, w, []; by split_and!; [|apply Server.says_rest|..]).
  unfold Server.resting in Hkept.
  destruct (Server.header buf) as [[a n]|] eqn:Hhead; [|left; by apply Hkept].
  destruct Hh as (H5 & Hn & _). unfold u32 in Hn.
  destruct (Z.leb_spec (2 ^ 32 - 5) n) as [Hover|Hsmall].
  { right. by eapply Server.overrun_here. }
  rewrite wrap32_small by (unfold u32; lia).
  destruct (Z.ltb_spec (zlen buf) (5 + n)) as [|Hge]; [left; by apply Hkept|]. clear Hkept.
  assert (zlen (drop 5 buf) = zlen buf - 5) as Hd5 by (apply (Server.zlen_drop buf 5); lia).
  set (buf' := drop (Z.to_nat (5 + n)) buf).
  assert (zlen buf' = zlen buf - (5 + n)) as Hd by (apply Server.zlen_drop; lia).
  set (found := Server.request_in a (take (Z.to_nat n) (drop 5 buf))).
  set (rs1 := option_list found).
  assert (∃ this1 w1, Server.handle_request a (drop 5 buf) n this w = Done (this1, w1) ∧
    Forall Server.sendable rs1 ∧ run (Requests <$> rs1) this w = Done (this1, w1) ∧
    published (Requests <$> rs1) ≤ 1 ∧ Server.wf this1 w1 ∧ is_Some (Server.fifo_fd this1) ∧
    room (zlen buf' + k) this1) as (this1 & w1 & -> & Hs1 & Hrun1 & Hp1 & Hwf1 & Hf1 & Hroom1).
  { pose proof (Server.handle_request_cases a (drop 5 buf) n this w ltac:(split; lia) Hsmall) as Hc.
    fold found in Hc. unfold rs1. zlen_facts. destruct found as [r|].
    - destruct Hc as [Hr ->]. pose proof (published_one (Requests r)).
      destruct (happen_ok (Requests r) (zlen buf' + k) this w Hwf Hf Hr)
        as (this1 & w1 & Hhap & Hwf1 & Hf1 & Hroom1 & _);
        [lia|eapply room_weaken; [|done]; lia|].
      exists this1, w1. cbn [happen] in Hhap.
      change (option_list (Some r)) with [r]. change (Requests <$> [r]) with [Requests r].
      cbn [run happen]. rewrite Hhap. split_and!; try done. by apply Forall_singleton.
    - exists this, w. rewrite Hc. split_and!; try done. eapply room_weaken; [|done]. lia. }
  cbn [mbind outcome_bind].
  destruct (IH buf' this1 w1 Hwf1 Hf1) as [(rest & this2 & w2 & rs2 & Hfr & Hsays & Hs2 & Hrun2 & Hp2)|Hov];
    [lia|unfold buf'; rewrite length_drop; unfold zlen in *; lia|lia|done| |].
  - left. exists rest, this2, w2, (rs1 ++ rs2). rewrite fmap_app, run_app, Hrun1. split_and!.
    + done.
    + apply Server.says_frame; [done|lia|lia|done].
    + by apply Forall_app.
    + done.
    + rewrite published_app. lia.
  - right. by eapply Server.overrun_later.
Qed.

(** ** Properties *)

(** C9: The running server refines its topics: whatever is requested, whichever workers take
    their turns and whenever it is stopped, while topics have room nothing is undefined and
    the invariant holds, and to each topic all of it is a sequence of operations of its
    own, of being created, and of things that leave the descriptors of its subscribers
    alone. *)
Theorem topics_are_operated (es : list happening) (this : Server.t) (w : world)
    (Hwf : Server.wf this w) (Hfifo : is_Some (Server.fifo_fd this))
    (Hes : Forall valid es) (Hroom : room (published es) this) :
  ∃ this' w', run es this w = Done (this', w') ∧ Server.wf this' w' ∧
    ∀ n, topic_run n es (Server.get_topic n this, w) (Server.get_topic n this', w').
Proof.
  destruct (run_ok es 0 this w Hwf Hfifo Hes ltac:(lia) ltac:(by rewrite Z.add_0_r)) as (this' & w' & Hrun & Hwf' & _ & _ & _ & Ht).
  by exists this', w'.
Qed.

(** The log of a topic is append-only and exact: whatever else happens, a topic holds
    afterwards what it held before and then what was published to it, in order, each
    message once and under the offset that follows. *)
Theorem log_is_what_was_published (es : list happening) (this : Server.t) (w : world)
    (n : str) (tp : Topic.t)
    (Hwf : Server.wf this w) (Hfifo : is_Some (Server.fifo_fd this))
    (Hes : Forall valid es) (Hroom : room (published es) this)
    (Htopic : Server.get_topic n this = Some tp) :
  ∃ this' w' tp', run es this w = Done (this', w') ∧ Server.get_topic n this' = Some tp' ∧
    Topic.messages tp' = Topic.messages tp ++ stored (zlen (Topic.messages tp)) (published_to n es).
Proof.
  destruct (run_ok es 0 this w Hwf Hfifo Hes ltac:(lia) ltac:(by rewrite Z.add_0_r)) as (this' & w' & Hrun & _ & _ & _ & _ & Ht).
  specialize (Ht n). rewrite Htopic in Ht.
  destruct (topic_run_facts n es tp w _ w' Ht) as (tp' & Htp' & _ & Hm & _).
  - by eapply Server.wf_topic.
  - by eapply room_for.
  - by exists this', w', tp'.
Qed.

End Theory.

(** ** Witnesses *)

Module Witness.

Import World.Simple PrefixTree.Witness Topic.Witness Server.Witness.

(** The server of [Server.Witness], which has a topic and a subscriber; a second client
    subscribes, publishes, and the server ends. *)
Definition events : list happening :=
  [Requests (Protocol.Req_create 9 $"sport"); Works $"news";
   Requests (Protocol.Req_subscribe 9 $"bob" $"news" [] 0);
   Requests (Protocol.Req_produce $"news" $"us" $"2"); Works $"sport"; Works $"news"; Stops].

Lemma events_valid : Forall valid events.
Proof. repeat (apply Forall_cons; split); try apply Forall_nil; try done; split; by vm_compute. Qed.

Lemma events_room : room (published events) served.1.
Proof. apply room_entries; [apply served_wf|done|]. vm_compute. reflexivity. Qed.

Lemma served_topic : is_Some (Server.get_topic $"news" served.1) ∧ is_Some (Server.fifo_fd served.1).
Proof. split; apply shown; vm_compute; reflexivity. Qed.

Lemma operated_witness :
  ∃ this' w', run events served.1 served.2 = Done (this', w') ∧ Server.wf this' w'.
Proof.
  destruct (topics_are_operated events served.1 served.2 served_wf (proj2 served_topic)
    events_valid events_room) as (this' & w' & Hrun & Hwf & _).
  exists this', w'. exact (conj Hrun Hwf).
Defined.

Lemma log_witness :
  ∃ this' w' tp tp', run events served.1 served.2 = Done (this', w') ∧
    Server.get_topic $"news" this' = Some tp' ∧
    Topic.messages tp' = Topic.messages tp ++ stored (zlen (Topic.messages tp)) [($"us", $"2")].
Proof.
  destruct served_topic as [[tp Htp] Hf].
  destruct (log_is_what_was_published events served.1 served.2 $"news" tp served_wf Hf
    events_valid events_room Htp) as (this' & w' & tp' & Hrun & Htp' & Hm).
  exists this', w', tp, tp'. exact (conj Hrun (conj Htp' Hm)).
Defined.

End Witness.

End Session.
