(* ===== verification/Locking.v ===== *)
(** * Locking: the handlers of the server, with their locks

    In Server.v and Topic.v an operation is a function. Here it is a program ([prog]): the
    accesses to shared data and the system calls, one after the other, between the locking
    and unlocking of [server_mutex] and of the [topic_mutex] of each topic, as the
    [lock_guard]s of src/server/src/Server.cpp and Topic.cpp place them. Data a step may
    reach only under a lock is reached through a constructor of its own, so that Threads.v
    can say who touches what while it holds which lock. Programs that nobody disturbs do
    what the functions do ([alone_is_the_handler]). *)

From S2P Require Import Prelude HashMap PrefixTree Protocol World Text Ipc Topic Server Session.

Set Warnings "-clear-no-such-hyp".

(** ** Locks and programs *)

Module Locking.

Import World.
Open Scope Z_scope.

Inductive mutex : Type := Server_mutex | Topic_mutex (topic_name : str).

#[export] Instance mutex_eq_decision : EqDecision mutex.
Proof. solve_decision. Defined.

#[export] Instance mutex_countable : Countable mutex.
Proof.
  apply (inj_countable' (λ m, match m with Server_mutex => inl () | Topic_mutex n => inr n end)
           (λ x, match x with inl _ => Server_mutex | inr n => Topic_mutex n end)).
  by intros [].
Defined.

Section Operations.
Context `{Kernel} `{SubscriptionIndex} `{Hash str} `{Hash Z}.

(** What a thread has yet to do. [Calls] reaches no shared data, [On_running] the atomic flag,
    [On_server] the tables of the server, [On_topic] the topic of that name, through the
    pointer to it. *)
Inductive prog : Type :=
| Return
| Lock (m : mutex) (next : prog)
| Unlock (m : mutex) (next : prog)
| Calls (f : world → outcome (world * prog))
| On_running (f : bool → bool * prog)
| On_server (f : Server.t → world → outcome (Server.t * world * prog))
| On_topic (topic_name : str) (f : Topic.t → world → outcome (Topic.t * world * prog))
| Notify_all (topic_name : str) (next : prog)
| Join (topic_name : str) (next : prog).

(** ** Topic *)

Definition append_message (n key value : str) (next : prog) : prog :=
  Lock (Topic_mutex n) (On_topic n (λ this w,
    mret (Topic.append_message key value this, w,
          Notify_all n (Unlock (Topic_mutex n) next)))).

Definition add_subscriber (n id prefix path : str) (start_offset : Z) (next : prog) : prog :=
  Lock (Topic_mutex n) (On_topic n (λ this w,
    '(added, this, w) ← Topic.add_subscriber id prefix path start_offset this w;
    mret (this, w, if added : bool then Notify_all n (Unlock (Topic_mutex n) next)
                   else Unlock (Topic_mutex n) next))).

Definition remove_subscriber (n id : str) (next : prog) : prog :=
  Lock (Topic_mutex n) (On_topic n (λ this w,
    '(_, this, w) ← Topic.remove_subscriber id this w;
    mret (this, w, Unlock (Topic_mutex n) next))).

(** The lock is given up before the worker is notified and waited for. *)
Definition shutdown (n : str) (next : prog) : prog :=
  Lock (Topic_mutex n) (On_topic n (λ this w,
    if Topic.stop_flag this then mret (this, w, Unlock (Topic_mutex n) next)
    else
      '(this, w) ← Topic.sign_off this w;
      mret (this, w, Unlock (Topic_mutex n) (Notify_all n (Join n next))))).

(** ** Server *)

Definition send_response (client_pid : Z) (status : Protocol.StatusCode) (payload : str)
    (next : prog) : prog :=
  Calls (λ w, mret (Server.send_response client_pid status payload w, next)).

Definition create_topic (topic_name : str) (next : bool → prog) : prog :=
  Lock Server_mutex (On_server (λ this w,
    let '(created, this) := Server.create_topic topic_name this in
    mret (this, w, Unlock Server_mutex (next created)))).

(** Whether the pointer is null. *)
Definition get_topic (topic_name : str) (next : bool → prog) : prog :=
  Lock Server_mutex (On_server (λ this w,
    mret (this, w, Unlock Server_mutex
                     (next (match Server.get_topic topic_name this with
                            | Some _ => true
                            | None => false
                            end))))).

(** The payload, when it can be parsed. *)
Definition parse {A} (parsed : outcome (option A)) (next : A → prog) : prog :=
  Calls (λ w, r ← parsed; mret (w, match r with Some a => next a | None => Return end)).

Definition handle_create (payload : str) (len : Z) : prog :=
  parse (Protocol.parse_create payload len) (λ '(client_pid, topic_name),
    if negb (Text.is_valid_identifier topic_name) then
      send_response client_pid Protocol.GENERAL_ERROR [] Return
    else
      create_topic topic_name (λ created,
        if negb created then send_response client_pid Protocol.TOPIC_CLIENT_ERR [] Return
        else send_response client_pid Protocol.SUCCESS [] Return)).

Definition handle_list (payload : str) (len : Z) : prog :=
  parse (Protocol.parse_list payload len) (λ client_pid,
    Lock Server_mutex (On_server (λ this w,
      let result := Server.join_names (HashMap.entries (Server.topics this)).*1 in
      mret (this, w, send_response client_pid Protocol.SUCCESS result
                       (Unlock Server_mutex Return))))).

Definition handle_info (payload : str) (len : Z) : prog :=
  parse (Protocol.parse_info payload len) (λ '(client_pid, id),
    Lock Server_mutex (On_server (λ this w,
      mret (this, w,
        match HashMap.find id (Server.client_index this) with
        | None => send_response client_pid Protocol.TOPIC_CLIENT_ERR [] (Unlock Server_mutex Return)
        | Some meta =>
            send_response client_pid Protocol.SUCCESS (Server.client_json meta)
              (Unlock Server_mutex Return)
        end)))).

Definition handle_producer_connect (payload : str) (len : Z) : prog :=
  parse (Protocol.parse_connect payload len) (λ '(client_pid, topic_name),
    get_topic topic_name (λ found,
      if negb found then send_response client_pid Protocol.TOPIC_CLIENT_ERR [] Return
      else
        Lock Server_mutex (On_server (λ this w,
          mret (Server.with_producers
                  (HashMap.insert_or_assign client_pid topic_name (Server.producer_topics this)).2
                  this, w,
                Unlock Server_mutex (send_response client_pid Protocol.SUCCESS [] Return)))))).

Definition handle_publish (payload : str) (len : Z) : prog :=
  parse (Protocol.parse_produce payload len) (λ '(topic_name, key, value),
    if negb (bool_decide (topic_name = [])) then
      get_topic topic_name (λ found,
        if negb found then Return else append_message topic_name key value Return)
    else Return).

(** The part under the lock, which is held up to the end. *)
Definition accept_subscriber (client_pid : Z) (id topic_name prefix : str) (req_offset : Z)
    (this : Server.t) (w : world) : outcome (Server.t * world * prog) :=
  match HashMap.find topic_name (Server.topics this) with
  | None =>
      mret (this, w, send_response client_pid Protocol.TOPIC_CLIENT_ERR []
                       (Unlock Server_mutex Return))
  | Some _ =>
      let meta := HashMap.find id (Server.client_index this) in
      let '(duplicate, w) := Server.is_duplicate meta w in
      if duplicate : bool then
        mret (this, w, send_response client_pid Protocol.TOPIC_CLIENT_ERR []
                         (Unlock Server_mutex Return))
      else
        let start_offset :=
          if negb (req_offset =? Protocol.OFFSET_UNSET) then req_offset
          else match meta with Some meta => Server.offset meta | None => 0 end in
        let consumer_ipc := Server.response_fifo client_pid in
        let new_meta := Server.mkMetadata id topic_name start_offset prefix consumer_ipc true in
        mret (Server.with_clients
                (HashMap.insert_or_assign id new_meta (Server.client_index this)).2 this, w,
              send_response client_pid Protocol.SUCCESS []
                (add_subscriber topic_name id prefix consumer_ipc start_offset
                   (Unlock Server_mutex Return)))
  end.

Definition handle_subscriber_connect (payload : str) (len : Z) : prog :=
  parse (Protocol.parse_subscribe payload len)
    (λ '(client_pid, id, topic_name, prefix, req_offset),
      if negb (Text.is_valid_identifier id) || negb (Text.is_valid_identifier topic_name) then
        send_response client_pid Protocol.GENERAL_ERROR [] Return
      else
        Lock Server_mutex
          (On_server (accept_subscriber client_pid id topic_name prefix req_offset))).

Definition handle_commit (payload : str) (len : Z) : prog :=
  parse (Protocol.parse_ack payload len) (λ '(id, next_offset),
    Lock Server_mutex (On_server (λ this w,
      mret (match HashMap.find id (Server.client_index this) with
            | None => this
            | Some _ =>
                Server.with_clients
                  (HashMap.write id (Server.with_offset next_offset) (Server.client_index this)) this
            end, w, Unlock Server_mutex Return)))).

(** The part of [handle_disconnect] under the lock, which is held up to the end. *)
Definition drop_client (id : str) (this : Server.t) (w : world)
    : outcome (Server.t * world * prog) :=
  match HashMap.find id (Server.client_index this) with
  | None => mret (this, w, Unlock Server_mutex Return)
  | Some meta =>
      let this :=
        Server.with_clients
          (HashMap.write id (Server.with_active false) (Server.client_index this)) this in
      mret (this, w,
        match HashMap.find (Server.topic meta) (Server.topics this) with
        | None => Unlock Server_mutex Return
        | Some _ => remove_subscriber (Server.topic meta) id (Unlock Server_mutex Return)
        end)
  end.

Definition handle_disconnect (payload : str) (len : Z) : prog :=
  parse (Protocol.parse_disconnect payload len) (λ id,
    Lock Server_mutex (On_server (drop_client id))).

Definition handle_request (action : byte) (payload : str) (payload_len : Z) : prog :=
  match action with
  | Byte.x01 => handle_create payload payload_len
  | Byte.x02 => handle_list payload payload_len
  | Byte.x03 => handle_info payload payload_len
  | Byte.x04 => handle_producer_connect payload payload_len
  | Byte.x05 => handle_publish payload payload_len
  | Byte.x06 => handle_subscriber_connect payload payload_len
  | Byte.x07 => handle_commit payload payload_len
  | Byte.x08 => handle_disconnect payload payload_len
  | _ => Return
  end.

(** The handling of a request, as a frame of its own. *)
Definition handle (r : Protocol.request) : prog :=
  handle_request (Protocol.CommandType_code (Protocol.request_action r)) (Protocol.payload r)
    (zlen (Protocol.payload r)).

(** ** The end *)

(** The names under which the table has a topic. *)
Definition named (entries : list (str * option Topic.t)) : list str :=
  omap (λ entry : str * option Topic.t, match entry.2 with Some _ => Some entry.1 | None => None end)
    entries.

Definition topic_names (this : Server.t) : list str := named (HashMap.entries (Server.topics this)).

Definition shutdown_all (names : list str) (next : prog) : prog := foldr shutdown next names.

Definition close_fifo : prog :=
  On_server (λ this w,
    fd ← deref (Server.fifo_fd this);
    mret (this, close_ fd w, Unlock Server_mutex Return)).

(** What is done when the server was found running. *)
Definition take_down (ipc_path : str) : prog :=
  On_running (λ _,
    (false,
     Calls (λ w, mret (unlink_ ipc_path w,
     Calls (λ w,
       let '(dummy_fd, w) := open_ ipc_path O_WRONLY_NONBLOCK w in
       let w := if negb (dummy_fd =? -1) then
                  close_ dummy_fd (write_ dummy_fd [Byte.x00] w).2
                else w in
       mret (w,
     Lock Server_mutex (On_server (λ this w,
       mret (this, w, shutdown_all (topic_names this) close_fifo))))))))).

(** [running] is tested in one access and set in another. *)
Definition stop (ipc_path : str) : prog :=
  On_running (λ running, (running, if negb running then Return else take_down ipc_path)).

(** ** A program that nobody disturbs

    Every lock is free, and a worker that is waited for takes the turn in which it leaves. *)
Fixpoint alone (p : prog) (this : Server.t) (w : world) : outcome (Server.t * world) :=
  match p with
  | Return => mret (this, w)
  | Lock _ next | Unlock _ next | Notify_all _ next => alone next this w
  | Calls f => '(w, p) ← f w; alone p this w
  | On_running f =>
      let '(running, p) := f (Server.running this) in
      alone p (Server.with_running running this) w
  | On_server f => '(this, w, p) ← f this w; alone p this w
  | On_topic n f =>
      tp ← deref (Server.get_topic n this);
      '(tp, w, p) ← f tp w;
      alone p (Server.set_topic n tp this) w
  | Join n next => '(this, w) ← Server.work n this w; alone next this w
  end.

End Operations.

(** ** Theory *)

Section Theory.
Context `{Kernel} `{SubscriptionIndex} `{Hash str} `{Hash Z}.
Implicit Types (this : Server.t) (w : world) (p : prog).

Lemma alone_parse {A} (parsed : outcome (option A)) (next : A → prog) this w :
  alone (parse parsed next) this w =
  r ← parsed; match r with Some a => alone (next a) this w | None => mret (this, w) end.
Proof. unfold parse. simpl. by destruct parsed as [[a|]| |]. Qed.

Lemma find_deref n this :
  deref (Server.get_topic n this) =
  found ← deref (HashMap.find n (Server.topics this)); deref found.
Proof. unfold Server.get_topic. by destruct (HashMap.find n (Server.topics this)) as [[tp|]|]. Qed.

Lemma alone_publish payload len this w :
  alone (handle_publish payload len) this w = Server.handle_publish payload len this w.
Proof.
  unfold handle_publish, Server.handle_publish. rewrite alone_parse.
  destruct (Protocol.parse_produce payload len) as [[[[n k] v]|]| |]; simpl; [|done..].
  destruct (negb _); [|done]. simpl. destruct (Server.get_topic n this) eqn:Hn; [|done].
  simpl. by rewrite Hn.
Qed.

Lemma alone_subscribe payload len this w :
  alone (handle_subscriber_connect payload len) this w =
  Server.handle_subscriber_connect payload len this w.
Proof.
  unfold handle_subscriber_connect, Server.handle_subscriber_connect. rewrite alone_parse.
  destruct (Protocol.parse_subscribe payload len) as [[[[[[pid id] n] p] o]|]| |]; simpl; [|done..].
  destruct (negb _ || negb _); [done|]. simpl. unfold accept_subscriber.
  destruct (HashMap.find n (Server.topics this)) as [found|] eqn:Hn; [|done].
  destruct (Server.is_duplicate _ w) as [[] w1]; [done|]. simpl.
  rewrite find_deref. simpl. rewrite Hn. simpl. destruct found as [tp|]; [|done]. simpl.
  destruct (Topic.add_subscriber _ _ _ _ _ _) as [[[[] tp'] w2]| |]; done.
Qed.

Lemma alone_disconnect payload len this w :
  alone (handle_disconnect payload len) this w = Server.handle_disconnect payload len this w.
Proof.
  unfold handle_disconnect, Server.handle_disconnect. rewrite alone_parse.
  destruct (Protocol.parse_disconnect payload len) as [[id|]| |]; simpl; [|done..].
  unfold drop_client. destruct (HashMap.find id (Server.client_index this)) as [meta|]; [|done].
  simpl. destruct (HashMap.find (Server.topic meta) _) as [found|] eqn:Hn; [|done].
  simpl. rewrite find_deref. simpl. rewrite Hn. simpl. destruct found as [tp|]; [|done]. simpl.
  destruct (Topic.remove_subscriber _ _ _) as [[[b tp'] w2]| |]; done.
Qed.

(** C15: The programs with locks do what the functions do: the handler of any request, of any bytes,
    that nobody disturbs computes what [Server.handle_request] computes, the server, the
    world and what is undefined alike. *)
Theorem alone_is_the_handler (action : byte) (payload : str) (len : Z) this w :
  alone (handle_request action payload len) this w =
  Server.handle_request action payload len this w.
Proof.
  destruct action; try done; cbn [handle_request Server.handle_request].
  - unfold handle_create, Server.handle_create. rewrite alone_parse.
    destruct (Protocol.parse_create payload len) as [[[pid n]|]| |]; simpl; [|done..].
    destruct (negb _); [done|]. simpl.
    by destruct (Server.create_topic n this) as [[] this'].
  - unfold handle_list, Server.handle_list. rewrite alone_parse.
    by destruct (Protocol.parse_list payload len) as [[pid|]| |].
  - unfold handle_info, Server.handle_info. rewrite alone_parse.
    destruct (Protocol.parse_info payload len) as [[[pid id]|]| |]; simpl; [|done..].
    by destruct (HashMap.find id (Server.client_index this)).
  - unfold handle_producer_connect, Server.handle_producer_connect. rewrite alone_parse.
    destruct (Protocol.parse_connect payload len) as [[[pid n]|]| |]; simpl; [|done..].
    by destruct (Server.get_topic n this).
  - apply alone_publish.
  - apply alone_subscribe.
  - unfold handle_commit, Server.handle_commit. rewrite alone_parse.
    destruct (Protocol.parse_ack payload len) as [[[id o]|]| |]; simpl; [|done..].
    by destruct (HashMap.find id (Server.client_index this)).
  - apply alone_disconnect.
Qed.

(** *** The end *)

(** The same server, but for how its table holds topics. *)
Definition agrees this1 this2 : Prop :=
  this2 = Server.with_topics (Server.topics this2) this1 ∧
  ∀ n, Server.get_topic n this1 = Server.get_topic n this2.

(** [this] with other topics. *)
Definition retopic this this' : Prop :=
  HashMap.wf (Server.topics this') ∧ this' = Server.with_topics (Server.topics this') this.

Lemma retopic_trans this1 this2 this3 : retopic this1 this2 → retopic this2 this3 → retopic this1 this3.
Proof. intros [_ ->] [Hw ->]. by split. Qed.

Lemma retopic_set n tp this : HashMap.wf (Server.topics this) → retopic this (Server.set_topic n tp this).
Proof. intros Ht. split; [by apply HashMap.wf_write|done]. Qed.

Lemma alone_shutdown n this w tp tp' w' :
  HashMap.wf (Server.topics this) → Server.get_topic n this = Some tp →
  Topic.shutdown tp w = Done (tp', w') →
  ∃ this', (∀ next, alone (shutdown n next) this w = alone next this' w') ∧ retopic this this' ∧
    ∀ m, HashMap.find m (Server.topics this') =
         if decide (n = m) then Some (Some tp') else HashMap.find m (Server.topics this).
Proof.
  intros Ht Hn Hsh. unfold Topic.shutdown in Hsh.
  assert (∀ tp0 this0, HashMap.wf (Server.topics this0) → is_Some (Server.get_topic n this0) →
    ∀ m, HashMap.find m (Server.topics (Server.set_topic n tp0 this0)) =
         if decide (n = m) then Some (Some tp0) else HashMap.find m (Server.topics this0)) as Hset.
  { intros tp0 this0 Ht0 Hn0 m. by rewrite Server.find_set_topic. }
  destruct (Topic.stop_flag tp) eqn:Hst.
  - injection Hsh as <- <-. exists (Server.set_topic n tp this). split_and!.
    + intros next. simpl. rewrite Hn. simpl. by rewrite Hst.
    + by apply retopic_set.
    + apply Hset; [done|by eexists].
  - apply bind_Done in Hsh as ([tp1 w1] & Hoff & Hstep).
    set (this1 := Server.set_topic n tp1 this). exists (Server.set_topic n tp' this1).
    assert (HashMap.wf (Server.topics this1)) as Ht1 by (by apply retopic_set).
    assert (Server.get_topic n this1 = Some tp1) as Hn1.
    { unfold this1. rewrite Server.get_set_topic by (done || by eexists). by rewrite decide_True. }
    split_and!.
    + intros next. simpl. rewrite Hn. simpl. rewrite Hst, Hoff. simpl. fold this1.
      unfold Server.work. rewrite Hn1, Hstep. done.
    + apply (retopic_trans _ this1); by apply retopic_set.
    + intros m. rewrite Hset by (done || by eexists). unfold this1. rewrite Hset by (done || by eexists).
      by case_decide.
Qed.

(** The loop over the table, entry by entry. *)
Lemma alone_shutdown_all todo : ∀ this w todo' w',
  HashMap.wf (Server.topics this) → NoDup todo.*1 →
  (∀ k v, (k, v) ∈ todo → HashMap.find k (Server.topics this) = Some v) →
  HashMap.for_each_bucket (λ _ found w, Server.stop_topic found w) todo w = Done (todo', w') →
  ∃ this', (∀ next, alone (shutdown_all (named todo) next) this w = alone next this' w') ∧
    retopic this this' ∧
    ∀ m, HashMap.find m (Server.topics this') =
         match list_to_map (M := gmap _ _) todo' !! m with
         | Some v => Some v
         | None => HashMap.find m (Server.topics this)
         end.
Proof.
  induction todo as [|[k found] todo IH]; intros this w todo' w' Ht Hnd Hin Hrun.
  { injection Hrun as <- <-. exists this. split_and!; [done|by destruct this|done]. }
  cbn [HashMap.for_each_bucket] in Hrun. apply bind_Done in Hrun as ([v w1] & Hstop & Hrun).
  apply bind_Done in Hrun as ([rest w2] & Hrest & [= <- <-]).
  rewrite fmap_cons in Hnd. apply NoDup_cons in Hnd as [Hk Hnd]. cbn [fst snd] in *.
  assert (∃ this1, (∀ next, alone (shutdown_all (named ((k, found) :: todo)) next) this w =
                            alone (shutdown_all (named todo) next) this1 w1) ∧ retopic this this1 ∧
    ∀ m, HashMap.find m (Server.topics this1) =
         if decide (k = m) then Some v else HashMap.find m (Server.topics this))
    as (this1 & Halone & Hre & Hfind).
  { specialize (Hin k found (list_elem_of_here _ _)). destruct found as [tp|]; simpl in Hstop.
    - apply bind_Done in Hstop as ([tp' w1'] & Hsh & [= <- <-]).
      destruct (alone_shutdown k this w tp tp' w1') as (this1 & Ha & Hre & Hf);
        [done|by apply Server.get_topic_Some|done|].
      exists this1. split_and!; [|done|done]. intros next. apply Ha.
    - injection Hstop as <- <-. exists this. split_and!; [done|by destruct this|].
      intros m. by case_decide; [subst|]. }
  destruct (IH this1 w1 rest w2) as (this' & Ha & Hre' & Hfind'); [apply Hre|done| |done|].
  { intros k' v' Hin'. rewrite Hfind, decide_False; [apply Hin; by apply list_elem_of_further|].
    intros <-. apply Hk. apply list_elem_of_fmap. by exists (k, v'). }
  exists this'. split_and!; [intros next; by rewrite Halone|by apply (retopic_trans _ this1)|].
  intros m. rewrite Hfind'. simpl. destruct (decide (k = m)) as [<-|Hne].
  - rewrite lookup_insert_eq. apply HashMap.for_each_bucket_keys in Hrest.
    rewrite (not_elem_of_list_to_map_1 rest) by by rewrite Hrest. by rewrite Hfind, decide_True.
  - rewrite lookup_insert_ne by done. by rewrite Hfind, decide_False.
Qed.

(** C16: A signal that nobody disturbs does what [Server.stop] does: the handler, with all its locks
    and with the worker of each topic taking its last turn while it is waited for, leaves the
    server and the world that the function leaves. *)
Theorem alone_stop (this this' : Server.t) (w w' : world)
    (Htable : HashMap.wf (Server.topics this)) (Hstop : Server.stop this w = Done (this', w')) :
  ∃ this2, alone (stop (Server.server_path this)) this w = Done (this2, w') ∧ agrees this' this2.
Proof.
  unfold Server.stop in Hstop. destruct (Server.running this) eqn:Hr; simpl in Hstop.
  2: { injection Hstop as <- <-. exists this. simpl. rewrite Hr. simpl.
       split; [by destruct this; simpl in *; subst|]. by destruct this. }
  destruct (open_ (Server.server_path this) O_WRONLY_NONBLOCK _) as [dummy w1] eqn:Hopen.
  apply bind_Done in Hstop as ([ts w2] & Hfor & Hclose).
  apply bind_Done in Hclose as (fd & Hfd & [= <- <-]).
  destruct (HashMap.for_each_facts _ _ _ _ _ Htable Hfor) as (Hts & Hkeys & Hloop).
  set (this0 := Server.with_running false (Server.with_running true this)).
  destruct (alone_shutdown_all (HashMap.entries (Server.topics this)) this0 _ _ _ Htable
    (HashMap.wf_nodup _ Htable) ltac:(intros k v; by apply HashMap.entries_elem_of) Hloop)
    as (this2 & Ha & [_ Hre] & Hfind).
  exists this2. split.
  - simpl. rewrite Hr. simpl. rewrite Hopen. simpl. change (topic_names _) with
      (named (HashMap.entries (Server.topics this))). rewrite Ha, Hre. simpl.
    by rewrite Hfd.
  - split; [by rewrite Hre|]. intros n. unfold Server.get_topic. simpl. rewrite Hfind.
    rewrite (HashMap.find_to_map ts) by done. fold (HashMap.to_map ts).
    destruct (HashMap.to_map ts !! n) as [v|] eqn:Hn; [done|].
    unfold HashMap.to_map in Hn. apply not_elem_of_list_to_map_2 in Hn. rewrite Hkeys in Hn.
    rewrite HashMap.find_to_map by done. unfold HashMap.to_map.
    by rewrite (not_elem_of_list_to_map_1 (HashMap.entries (Server.topics this))).
Qed.

End Theory.

(** ** Witness *)

Module Witness.

Import World.Simple PrefixTree.Witness Topic.Witness Server.Witness.

Definition stopped : Server.t * world :=
  match Server.stop served.1 served.2 with Done s => s | _ => served end.

Lemma stopped_run : Server.stop served.1 served.2 = Done (stopped.1, stopped.2).
Proof.
  destruct (proj2 Session.Witness.served_topic) as [fd Hfd].
  destruct (Session.stop_steps _ _ _ served_wf Hfd) as (this & w & Hs & _).
  unfold stopped. by rewrite Hs.
Qed.

Lemma alone_stop_witness :
  ∃ this2, alone (stop (Server.server_path served.1)) served.1 served.2 = Done (this2, stopped.2) ∧
           agrees stopped.1 this2.
Proof. exact (alone_stop _ _ _ _ (Server.wf_topics _ _ served_wf) stopped_run). Defined.

End Witness.

End Locking.
