(* ===== verification/Discipline.v ===== *)
(** * Discipline: what programs promise about locks

    [safe e kd held this0 p] says of a program that runs for [e], with the mutexes [held], in a
    server that has gone on from [this0], that it does nothing undefined; reaches the tables
    of the server and a topic only under their locks, and leaves them well-formed; takes
    [server_mutex] before the mutex of a topic and one topic at a time; gives up what it took;
    notifies a worker of the work it made for it; and does not return without having
    published what it is to publish, unless there is no such topic. The programs of Locking.v are safe
    ([handle_safe], [stop_safe]). The predicate is kept by whatever other threads do, since
    these only take the server further ([extends]). *)

From S2P Require Import Prelude HashMap PrefixTree Protocol World Text Ipc Topic Server Session.
From S2P Require Import Locking.

Set Warnings "-clear-no-such-hyp".

Module Discipline.

Import World Locking.
Open Scope Z_scope.

(** What a program is for: a request, which publishes a message or not; or the end of the
    server, from when it has found the server running ([armed]). *)
Inductive kind : Type :=
| Handling (publishes : bool)
| Stopping (armed : bool).

Definition arm (running : bool) (kd : kind) : kind :=
  match kd with
  | Handling b => Handling b
  | Stopping armed => Stopping (armed || running)
  end.

(** One topic at a time, and the server before the topic. *)
Definition ordered (m : mutex) (held : list mutex) : Prop :=
  match m with
  | Server_mutex => held = []
  | Topic_mutex _ => ∀ n, Topic_mutex n ∉ held
  end.

Section Specification.
Context `{KernelLaws} `{SubscriptionIndex} `{Hash str} `{Hash Z}.
Implicit Types (this : Server.t) (tp : Topic.t) (w : world) (p : prog) (e : Session.happening).

(** Clients and topics stay; topics that are stopped, and a server that is, stay so. *)
Record extends (this0 this : Server.t) : Prop := {
  extends_fifo : Server.fifo_fd this = Server.fifo_fd this0;
  extends_path : Server.server_path this = Server.server_path this0;
  extends_running : Server.running this0 = false → Server.running this = false;
  extends_topics n tp0 : Server.get_topic n this0 = Some tp0 →
    ∃ tp, Server.get_topic n this = Some tp ∧ (Topic.stop_flag tp0 = true → Topic.stop_flag tp = true);
  extends_clients id :
    is_Some (HashMap.find id (Server.client_index this0)) →
    is_Some (HashMap.find id (Server.client_index this))
}.

(** The FIFO of the server is no subscriber's. *)
Definition apart this : Prop := ∀ fd, Server.fifo_fd this = Some fd → ¬ Server.owned this fd.

(** The worker of [n] is notified before anything else is done. *)
Inductive notifies (n : str) : prog → Prop :=
| notifies_now next : notifies n (Notify_all n next)
| notifies_soon m next : notifies n next → notifies n (Unlock m next).

(** The tables of the server change, and perhaps a topic is created. *)
Record tables_change e this w this' w' : Prop := {
  tables_wf : Server.wf this' w';
  tables_extend : extends this this';
  tables_running : Server.running this' = Server.running this;
  tables_touch : ∃ T, touches T w w' ∧ ∀ x, T x → ¬ Server.owned this x;
  tables_topics :
    (∀ m, Server.get_topic m this' = Server.get_topic m this) ∨
    (∃ pid n, e = Session.Requests (Protocol.Req_create pid n) ∧ Server.get_topic n this = None ∧
       ∀ m, Server.get_topic m this' =
              if decide (n = m) then Some (Topic.make n) else Server.get_topic m this)
}.

(** A topic changes, by an operation that is due, or by its end. *)
Inductive topic_changes e (kd : kind) n tp w : kind → Topic.t → world → prog → Prop :=
| changes_append k v tp' w' p :
    kd = Handling true → Session.does e n (Topic.Op_append k v) →
    Topic.run_op (Topic.Op_append k v) tp w = Done (tp', w') → notifies n p →
    topic_changes e kd n tp w (Handling false) tp' w' p
| changes_subscribers o tp' w' p :
    kd = Handling false → Session.does e n o →
    match o with Topic.Op_add _ _ _ _ | Topic.Op_remove _ => True | _ => False end →
    Topic.run_op o tp w = Done (tp', w') →
    (Topic.has_work tp' = true → Topic.has_work tp = true ∨ notifies n p) →
    topic_changes e kd n tp w kd tp' w' p
| changes_end armed tp' w' p :
    kd = Stopping armed → e = Session.Stops → Topic.stop_flag tp = false →
    Topic.sign_off tp w = Done (tp', w') → notifies n p →
    topic_changes e kd n tp w kd tp' w' p
| changes_ended armed p :
    kd = Stopping armed → e = Session.Stops → Topic.stop_flag tp = true →
    topic_changes e kd n tp w kd tp w p.

(** A message for a topic that is not there is given up. *)
Definition gives_up e this (kd kd' : kind) : Prop :=
  kd' = kd ∨
  (kd = Handling true ∧ kd' = Handling false ∧
   ∃ n k v, e = Session.Requests (Protocol.Req_produce n k v) ∧ Server.get_topic n this = None).

(** Only known clients subscribe. *)
Definition knows this tp : Prop :=
  ∀ id, is_Some (Topic.subs tp !! id) → is_Some (HashMap.find id (Server.client_index this)).

Inductive safe e : kind → list mutex → Server.t → prog → Prop :=
| safe_end kd this0 : kd ≠ Handling true → safe e kd [] this0 Return
| safe_lock kd held this0 m p :
    ordered m held →
    (∀ n, m = Topic_mutex n → is_Some (Server.get_topic n this0)) →
    safe e kd (m :: held) this0 p → safe e kd held this0 (Lock m p)
| safe_unlock kd held this0 m p : safe e kd held this0 p → safe e kd (m :: held) this0 (Unlock m p)
| safe_calls kd held this0 f :
    (∀ w, ∃ w' p, f w = Done (w', p) ∧ touches (λ _, False) w w') →
    (∀ w w' p, f w = Done (w', p) → safe e kd held this0 p) →
    safe e kd held this0 (Calls f)
| safe_running armed held this0 f :
    (∀ running, (f running).1 = true → running = true) →
    (∀ this, extends this0 this →
       safe e (arm (Server.running this) (Stopping armed)) held
         (Server.with_running (f (Server.running this)).1 this) (f (Server.running this)).2) →
    safe e (Stopping armed) held this0 (On_running f)
| safe_access kd kd' held this0 f :
    Server_mutex ∈ held →
    (∀ this w, extends this0 this → Server.wf this w → is_Some (Server.fifo_fd this) →
       (kd = Stopping true → apart this) →
       ∃ this' w' p, f this w = Done (this', w', p) ∧ tables_change e this w this' w' ∧
         gives_up e this kd (kd' this)) →
    (∀ this w this' w' p, extends this0 this → Server.wf this w →
       f this w = Done (this', w', p) → safe e (kd' this) held this' p) →
    safe e kd held this0 (On_server f)
| safe_topic kd kd' held this0 n f :
    Topic_mutex n ∈ held → is_Some (Server.get_topic n this0) →
    (∀ this tp w, extends this0 this → Server.wf this w → Server.get_topic n this = Some tp →
       ∃ tp' w' p, f tp w = Done (tp', w', p) ∧ topic_changes e kd n tp w kd' tp' w' p ∧ knows this tp') →
    (∀ this tp w tp' w' p, extends this0 this → Server.wf this w →
       Server.get_topic n this = Some tp → f tp w = Done (tp', w', p) →
       safe e kd' held (Server.set_topic n tp' this) p) →
    safe e kd held this0 (On_topic n f)
| safe_notify kd held this0 n p :
    held ≠ [] → safe e kd held this0 p → safe e kd held this0 (Notify_all n p)
| safe_join kd held this0 n p tp :
    Topic_mutex n ∉ held → Server.get_topic n this0 = Some tp → Topic.stop_flag tp = true →
    safe e kd held this0 p → safe e kd held this0 (Join n p).

End Specification.

(** ** Extension *)

Section Theory.
Context `{KernelLaws} `{SubscriptionIndex} `{Hash str} `{Hash Z}.
Implicit Types (this : Server.t) (tp : Topic.t) (w : world) (p : prog) (e : Session.happening).

#[export] Instance extends_preorder : PreOrder extends.
Proof.
  split.
  - intros this. split; eauto.
  - intros this1 this2 this3 [F1 P1 R1 T1 C1] [F2 P2 R2 T2 C2].
    split; [congruence|congruence|auto| |eauto].
    intros n tp0 Hn. destruct (T1 n tp0 Hn) as (tp1 & Hn1 & ?).
    destruct (T2 n tp1 Hn1) as (tp2 & Hn2 & ?). eauto.
Qed.

Lemma extends_some n this0 this :
  extends this0 this → is_Some (Server.get_topic n this0) → is_Some (Server.get_topic n this).
Proof. intros Hx [tp0 Hn]. destruct (extends_topics _ _ Hx n tp0 Hn) as (tp & ? & _). by exists tp. Qed.

Lemma safe_extends e kd held this0 this p :
  extends this0 this → safe e kd held this0 p → safe e kd held this p.
Proof.
  intros Hx Hs. revert this Hx. induction Hs; intros this1 Hx; try (constructor; by auto).
  - constructor; [done| |auto]. intros. eapply extends_some; eauto.
  - apply safe_calls; [done|]. eauto.
  - apply safe_running; [done|]. intros this ?.
    match goal with Hf : ∀ this, _ |- _ => apply Hf end; [by transitivity this1|reflexivity].
  - eapply safe_access; [done| |]; intros this w **;
      match goal with
      | Hf : ∀ this w, _ |- _ => eapply Hf; first [by transitivity this1|done]
      end.
  - eapply safe_topic; [done|by eapply extends_some| |]; intros this tp w **;
      match goal with
      | Hf : ∀ this tp w, _ |- _ => eapply Hf; first [by transitivity this1|done]
      end.
  - destruct (extends_topics _ _ Hx n tp) as (tp' & Htp' & Hstop); [done|].
    eapply safe_join; eauto.
Qed.

(** ** Changes *)

Lemma tables_same e this w this' w' :
  Server.wf this' w' → Server.topics this' = Server.topics this →
  Server.fifo_fd this' = Server.fifo_fd this → Server.server_path this' = Server.server_path this →
  Server.running this' = Server.running this →
  (∀ id, is_Some (HashMap.find id (Server.client_index this)) →
         is_Some (HashMap.find id (Server.client_index this'))) →
  touches (λ _, False) w w' → tables_change e this w this' w'.
Proof.
  intros Hwf Ht Hf Hp Hr Hc Hq.
  assert (∀ m, Server.get_topic m this' = Server.get_topic m this) as Hget
    by (intros m; unfold Server.get_topic; by rewrite Ht).
  split; [done| |done|by exists (λ _, False)|by left].
  split; [done|done|congruence| |done]. intros n tp0. rewrite <- Hget. eauto.
Qed.

Lemma tables_refl e this w w' :
  Server.wf this w → touches (λ _, False) w w' → tables_change e this w this w'.
Proof.
  intros Hwf Hq. apply tables_same; try done.
  eapply Server.wf_quiet; [done|exact Hq|tauto|tauto].
Qed.

Lemma extends_set_topic n tp tp' this :
  HashMap.wf (Server.topics this) → Server.get_topic n this = Some tp →
  (Topic.stop_flag tp = true → Topic.stop_flag tp' = true) →
  extends this (Server.set_topic n tp' this).
Proof.
  intros Ht Hn Hst. split; try done. intros m tp0 Hm. rewrite Server.get_set_topic by eauto.
  case_decide; [|eauto]. subst. rewrite Hn in Hm. injection Hm as <-. eauto.
Qed.

(** ** Safe programs *)

Lemma safe_return e this0 : safe e (Handling false) [] this0 Return.
Proof. by apply safe_end. Qed.

Lemma safe_server e kd held this0 f :
  Server_mutex ∈ held →
  (∀ this w, extends this0 this → Server.wf this w → is_Some (Server.fifo_fd this) →
     (kd = Stopping true → apart this) →
     ∃ this' w' p, f this w = Done (this', w', p) ∧ tables_change e this w this' w') →
  (∀ this w this' w' p, extends this0 this → Server.wf this w →
     f this w = Done (this', w', p) → safe e kd held this' p) →
  safe e kd held this0 (On_server f).
Proof.
  intros Hin Hf Hs. apply (safe_access e kd (λ _, kd)); [done| |done].
  intros this w Hx Hwf Hfd Hap. destruct (Hf this w Hx Hwf Hfd Hap) as (this' & w' & p & ? & ?).
  exists this', w', p. split_and!; [done|done|by left].
Qed.

Lemma safe_respond e kd held this0 pid status payload next :
  safe e kd held this0 next → safe e kd held this0 (send_response pid status payload next).
Proof.
  intros Hs. apply safe_calls.
  - intros w. eexists _, _. split; [done|]. apply Server.send_response_quiet.
  - by intros w w' p [= _ <-].
Qed.

Lemma safe_parse {A} e kd held this0 (parsed : outcome (option A)) a next :
  parsed = Done (Some a) → safe e kd held this0 (next a) → safe e kd held this0 (parse parsed next).
Proof.
  intros -> Hs. apply safe_calls.
  - intros w. eexists _, _. split; [done|apply touches_refl].
  - by intros w w' p [= _ <-].
Qed.

(** A part under [server_mutex] that only looks. *)
Lemma safe_look e kd this0 (f : Server.t → prog) :
  (∀ this w, extends this0 this → Server.wf this w → safe e kd [Server_mutex] this (f this)) →
  safe e kd [] this0 (Lock Server_mutex (On_server (λ this w, Done (this, w, f this)))).
Proof.
  intros Hs. apply safe_lock; [done|done|]. apply safe_server; [set_solver| |].
  - intros this w **. eexists _, _, _. split; [done|]. apply tables_refl; [done|apply touches_refl].
  - intros this w this' w' p Hx Hwf [= <- <- <-]. by eapply Hs.
Qed.

Lemma safe_get_topic e kd kd' this0 n next :
  (∀ this, extends this0 this → is_Some (Server.get_topic n this) → safe e kd [] this (next true)) →
  (∀ this, extends this0 this → Server.get_topic n this = None →
     gives_up e this kd kd' ∧ safe e kd' [] this (next false)) →
  safe e kd [] this0 (get_topic n next).
Proof.
  intros Hyes Hno. apply safe_lock; [done|done|].
  apply (safe_access e kd (λ this, match Server.get_topic n this with Some _ => kd | None => kd' end));
    [set_solver| |].
  - intros this w Hx Hwf _ _. eexists _, _, _. split_and!; [done|by apply tables_refl, touches_refl|].
    destruct (Server.get_topic n this) eqn:Hn; [by left|by apply Hno].
  - intros this w this' w' p Hx Hwf [= <- <- <-]. apply safe_unlock.
    destruct (Server.get_topic n this) eqn:Hn; [by apply Hyes|by apply Hno].
Qed.

(** *** Operations on a topic *)

(** A program that takes the lock of a topic for one access. *)
Lemma safe_locked_topic e kd kd' held this0 n f :
  (∀ m, Topic_mutex m ∉ held) → is_Some (Server.get_topic n this0) →
  (∀ this tp w, extends this0 this → Server.wf this w → Server.get_topic n this = Some tp →
     ∃ tp' w' p, f tp w = Done (tp', w', p) ∧ topic_changes e kd n tp w kd' tp' w' p ∧
       knows this tp' ∧ (Topic.stop_flag tp = true → Topic.stop_flag tp' = true) ∧
       (∀ this', extends this0 this' → Server.get_topic n this' = Some tp' →
          safe e kd' (Topic_mutex n :: held) this' p)) →
  safe e kd held this0 (Lock (Topic_mutex n) (On_topic n f)).
Proof.
  intros Hheld Hn Hf. apply safe_lock; [done|by intros ? [= <-]|].
  apply (safe_topic e kd kd'); [by apply list_elem_of_here|done| |].
  - intros this tp w Hx Hwf Htp. destruct (Hf this tp w Hx Hwf Htp) as (tp' & w' & p & ? & ? & ? & _).
    by exists tp', w', p.
  - intros this tp w tp' w' p Hx Hwf Htp Hrun.
    destruct (Hf this tp w Hx Hwf Htp) as (tp2 & w2 & p2 & Hrun2 & _ & _ & Hst & Hs).
    rewrite Hrun in Hrun2. injection Hrun2 as <- <- <-. apply Hs.
    + transitivity this; [done|]. by eapply extends_set_topic; [apply Hwf|..].
    + rewrite Server.get_set_topic; [by rewrite decide_True|apply Hwf|by eexists].
Qed.

Lemma knows_old this w n tp : Server.wf this w → Server.get_topic n this = Some tp → knows this tp.
Proof. intros Hwf Hn id. by apply (Server.wf_known _ _ Hwf n tp id). Qed.

Lemma safe_append e this0 n k v next :
  Session.does e n (Topic.Op_append k v) → is_Some (Server.get_topic n this0) →
  (∀ this, extends this0 this → safe e (Handling false) [] this next) →
  safe e (Handling true) [] this0 (append_message n k v next).
Proof.
  intros Hd Hn Hs. apply (safe_locked_topic e _ (Handling false)); [set_solver|done|].
  intros this tp w Hx Hwf Htp. eexists _, _, _. split; [done|]. split_and!.
  - eapply changes_append; [done|done|done|by constructor].
  - by apply (knows_old this w n tp).
  - done.
  - intros this' Hx' _. apply safe_notify; [done|]. apply safe_unlock. auto.
Qed.

Lemma safe_add e this0 n id prefix path start next :
  Session.does e n (Topic.Op_add id prefix path start) → is_Some (Server.get_topic n this0) →
  is_Some (HashMap.find id (Server.client_index this0)) →
  (∀ this, extends this0 this → safe e (Handling false) [Server_mutex] this next) →
  safe e (Handling false) [Server_mutex] this0 (add_subscriber n id prefix path start next).
Proof.
  intros Hd Hn Hid Hs. apply (safe_locked_topic e _ (Handling false)); [set_solver|done|].
  intros this tp w Hx Hwf Htp. pose proof (Server.wf_topic _ _ Hwf n tp Htp) as Hwtp.
  assert (u32 start) as Hu by (by apply (Session.does_valid _ _ _ Hd)).
  destruct (Topic.add_subscriber_facts tp w id prefix path start Hwtp Hu)
    as (b & tp' & w' & Hadd & Hwtp' & Hm & Hst & _ & _ & Hb).
  rewrite Hadd. eexists _, _, _. split; [done|]. split_and!.
  - eapply changes_subscribers; [done|done|done|simpl; by rewrite Hadd|]. destruct b.
    + intros _. right. constructor.
    + intros Hw. left. eapply Topic.has_work_fewer; [apply Hwtp|apply Hwtp'|done|done| |done].
      rewrite Hb. apply delete_subseteq.
  - intros id' Hin. destruct (decide (id' = id)) as [->|Hne]; [by eapply extends_clients|].
    apply (knows_old this w n tp); [done|done|]. destruct b.
    + destruct Hb as (fd & _ & _ & _ & _ & Hb). by rewrite Hb, lookup_insert_ne in Hin.
    + by rewrite Hb, lookup_delete_ne in Hin.
  - by rewrite Hst.
  - intros this' Hx' _. destruct b; [apply safe_notify; [done|]|]; apply safe_unlock; auto.
Qed.

Lemma safe_remove e this0 n id next :
  Session.does e n (Topic.Op_remove id) → is_Some (Server.get_topic n this0) →
  (∀ this, extends this0 this → safe e (Handling false) [Server_mutex] this next) →
  safe e (Handling false) [Server_mutex] this0 (remove_subscriber n id next).
Proof.
  intros Hd Hn Hs. apply (safe_locked_topic e _ (Handling false)); [set_solver|done|].
  intros this tp w Hx Hwf Htp. pose proof (Server.wf_topic _ _ Hwf n tp Htp) as Hwtp.
  destruct (Topic.remove_subscriber_facts tp w id Hwtp)
    as (tp' & w' & Hrm & Hwtp' & Hb & Hm & Hst & _ & _).
  rewrite Hrm. eexists _, _, _. split; [done|]. split_and!.
  - eapply changes_subscribers; [done|done|done|simpl; by rewrite Hrm|]. intros Hw. left.
    eapply Topic.has_work_fewer; [apply Hwtp|apply Hwtp'|done|done| |done].
    rewrite Hb. apply delete_subseteq.
  - intros id' Hin. apply (knows_old this w n tp); [done|done|]. rewrite Hb in Hin.
    destruct Hin as [s [_ Hin]%lookup_delete_Some]. by eexists.
  - by rewrite Hst.
  - intros this' Hx' _. apply safe_unlock. auto.
Qed.

Lemma safe_shutdown armed this0 n next :
  is_Some (Server.get_topic n this0) →
  (∀ this, extends this0 this → safe Session.Stops (Stopping armed) [Server_mutex] this next) →
  safe Session.Stops (Stopping armed) [Server_mutex] this0 (shutdown n next).
Proof.
  intros Hn Hs. apply (safe_locked_topic _ _ (Stopping armed)); [set_solver|done|].
  intros this tp w Hx Hwf Htp. pose proof (Server.wf_topic _ _ Hwf n tp Htp) as Hwtp.
  destruct (Topic.stop_flag tp) eqn:Hst.
  - eexists _, _, _. split; [done|]. split_and!; [by eapply changes_ended|by eapply knows_old|done|].
    intros this' Hx' _. apply safe_unlock. auto.
  - destruct (Topic.sign_off_facts tp w Hwtp) as (subs' & w' & tr & Hoff & _ & He & _). rewrite Hoff.
    eexists _, _, _. split; [done|]. split_and!.
    + eapply changes_end; [done|done|done|done|]. constructor. constructor.
    + intros id [s Hin]. unfold Topic.subs in Hin. cbn [Topic.subscribers] in Hin.
      by rewrite He, lookup_empty in Hin.
    + done.
    + intros this' Hx' Hn'. apply safe_unlock, safe_notify; [done|].
      eapply safe_join; [set_solver|done|done|]. auto.
Qed.

(** *** Handlers *)

(** A part under [server_mutex] that changes the tables. *)
Lemma safe_tables e kd this0 f :
  (∀ this w, extends this0 this → Server.wf this w →
     ∃ this' w' p, f this w = Done (this', w', p) ∧ tables_change e this w this' w' ∧
       safe e kd [Server_mutex] this' p) →
  safe e kd [] this0 (Lock Server_mutex (On_server f)).
Proof.
  intros Hf. apply safe_lock; [done|done|]. apply safe_server; [set_solver| |].
  - intros this w Hx Hwf _ _. destruct (Hf this w Hx Hwf) as (this' & w' & p & ? & ? & _).
    by exists this', w', p.
  - intros this w this' w' p Hx Hwf Hrun.
    destruct (Hf this w Hx Hwf) as (this2 & w2 & p2 & Hrun2 & _ & Hs). rewrite Hrun in Hrun2.
    by injection Hrun2 as <- <- <-.
Qed.

Lemma safe_create pid n this0 :
  safe (Session.Requests (Protocol.Req_create pid n)) (Handling false) [] this0
    (create_topic n (λ created,
       if negb created then send_response pid Protocol.TOPIC_CLIENT_ERR [] Return
       else send_response pid Protocol.SUCCESS [] Return)).
Proof.
  apply safe_tables. intros this w Hx Hwf. pose proof (Server.wf_create_topic n this w Hwf) as Hwf'.
  destruct (HashMap.contains n (Server.topics this)) eqn:Hc.
  - unfold Server.create_topic in *. rewrite Hc in *. eexists _, _, _. split; [done|]. split.
    + apply tables_refl; [done|apply touches_refl].
    + apply safe_unlock, safe_respond, safe_return.
  - pose proof (λ m, Server.get_create_topic n this m (Server.wf_topics _ _ Hwf) Hc) as Hget.
    pose proof (Server.contains_get_topic n this w Hwf) as Hn. rewrite Hc in Hn.
    symmetry in Hn. apply bool_decide_eq_false, eq_None_not_Some in Hn.
    unfold Server.create_topic in *. rewrite Hc in *. eexists _, _, _. split; [done|]. split.
    + split; [done| |done|exists (λ _, False); split; [apply touches_refl|done]|right; by exists pid, n].
      split; [done|done|done| |done]. intros m tp0 Hm. rewrite Hget. case_decide; [congruence|eauto].
    + apply safe_unlock, safe_respond, safe_return.
Qed.

Lemma safe_subscribe pid id n q o this0 :
  u32 o →
  safe (Session.Requests (Protocol.Req_subscribe pid id n q o)) (Handling false) [] this0
    (Lock Server_mutex (On_server (accept_subscriber pid id n q o))).
Proof.
  intros Ho. apply safe_tables. intros this w Hx Hwf. unfold accept_subscriber.
  set (meta := HashMap.find id (Server.client_index this)).
  pose proof (Server.is_duplicate_quiet meta w) as Hq.
  assert (∀ w1, touches (λ _, False) w w1 → ∃ this' w' p,
    Done (this, w1, send_response pid Protocol.TOPIC_CLIENT_ERR [] (Unlock Server_mutex Return)) =
      Done (this', w', p) ∧
    tables_change (Session.Requests (Protocol.Req_subscribe pid id n q o)) this w this' w' ∧
    safe (Session.Requests (Protocol.Req_subscribe pid id n q o)) (Handling false) [Server_mutex] this' p)
    as Hrefused.
  { intros w1 Hq1. eexists _, _, _. split; [done|]. split; [by apply tables_refl|].
    apply safe_respond, safe_unlock, safe_return. }
  destruct (HashMap.find n (Server.topics this)) as [found|] eqn:Hn;
    [|by apply Hrefused, touches_refl].
  destruct (Server.is_duplicate meta w) as [dup w1]; simpl in Hq.
  destruct dup; [by apply Hrefused|]. clear Hrefused.
  destruct found as [tp|]; [|by destruct (Server.wf_not_null _ _ Hwf n)].
  apply Server.get_topic_Some in Hn.
  change (if negb (o =? Protocol.OFFSET_UNSET) then o else _) with (Server.first_offset id o this).
  pose proof (Server.first_offset_u32 id o this w Hwf Ho) as Hu.
  destruct (Server.wf_new_client id (Server.mkMetadata id n (Server.first_offset id o this) q
    (Server.response_fifo pid) true) this w1) as (Hwf' & Hknown & Hid); [|done|done|].
  { eapply Server.wf_quiet; [exact Hwf|exact Hq|tauto|tauto]. }
  eexists _, _, _. split; [done|]. split; [by apply tables_same|].
  apply safe_respond, safe_add; [|by exists tp|done|intros; apply safe_unlock, safe_return].
  constructor; [|done]. intros Hne. unfold Server.first_offset. by rewrite (proj2 (Z.eqb_neq _ _) Hne).
Qed.

Lemma safe_disconnect id this0 :
  safe (Session.Requests (Protocol.Req_disconnect id)) (Handling false) [] this0
    (Lock Server_mutex (On_server (drop_client id))).
Proof.
  apply safe_tables. intros this w Hx Hwf. unfold drop_client.
  destruct (HashMap.find id (Server.client_index this)) as [meta|].
  2: { eexists _, _, _. split; [done|]. split; [by apply tables_refl, touches_refl|].
       apply safe_unlock, safe_return. }
  destruct (Server.wf_write_client id (Server.with_active false) this w Hwf) as [Hwf' Hknown]; [done|].
  eexists _, _, _. split; [done|]. split; [by apply tables_same, touches_refl|]. simpl.
  destruct (HashMap.find (Server.topic meta) (Server.topics this)) as [found|] eqn:Hn;
    [|apply safe_unlock, safe_return].
  destruct found as [tp|]; [|by destruct (Server.wf_not_null _ _ Hwf (Server.topic meta))].
  apply Server.get_topic_Some in Hn. apply safe_remove; [constructor|by exists tp|].
  intros. apply safe_unlock, safe_return.
Qed.

(** A request that may publish a message. *)
Definition publishes (r : Protocol.request) : bool :=
  match r with Protocol.Req_produce n _ _ => negb (bool_decide (n = [])) | _ => false end.

Lemma safe_publish n k v this0 :
  let r := Protocol.Req_produce n k v in
  safe (Session.Requests r) (Handling (publishes r)) [] this0
    (if negb (bool_decide (n = [])) then
       get_topic n (λ found, if negb found then Return else append_message n k v Return)
     else Return).
Proof.
  intros r. unfold r, publishes. destruct (decide (n = [])) as [->|Hne]; [apply safe_return|].
  rewrite bool_decide_false by done. simpl. apply (safe_get_topic _ _ (Handling false)).
  - intros this Hx Hn. apply safe_append; [by constructor|done|]. intros. apply safe_return.
  - intros this Hx Hn. split; [|apply safe_return]. right. split_and!; [done|done|].
    by exists n, k, v.
Qed.

Lemma handle_safe r this0 :
  Server.sendable r →
  safe (Session.Requests r) (Handling (publishes r)) [] this0 (handle r).
Proof.
  intros Hs. pose proof (Server.parse_own r Hs) as Hp. destruct Hs as [Hv _]. unfold handle.
  destruct r as [pid n|pid|pid id|pid n|n k v|pid id n q o|id o|id];
    cbn [Protocol.request_action Protocol.CommandType_code handle_request Protocol.parse_request
         publishes] in *;
    lazymatch type of Hp with
    | @mbind _ _ _ _ _ ?parsed = _ => destruct parsed as [[x|]| |] eqn:Hparse; try done
    end; repeat match goal with x : (_ * _)%type |- _ => destruct x end; injection Hp; intros; subst;
    (eapply safe_parse; [exact Hparse|]); clear Hp; cbv beta iota zeta.
  - destruct (negb _); [apply safe_respond, safe_return|apply safe_create].
  - apply safe_look. intros. apply safe_respond, safe_unlock, safe_return.
  - apply safe_look. intros this w **.
    destruct (HashMap.find id (Server.client_index this)); apply safe_respond, safe_unlock, safe_return.
  - apply (safe_get_topic _ _ (Handling false)).
    2: { intros this Hx _. split; [by left|apply safe_respond, safe_return]. }
    intros this Hx _. apply safe_tables. intros this1 w Hx1 Hwf. eexists _, _, _. split; [done|]. split.
    + apply tables_same; try done; [|apply touches_refl]. destruct Hwf. split; try done.
      by apply HashMap.wf_insert_or_assign.
    + apply safe_unlock, safe_respond, safe_return.
  - apply safe_publish.
  - destruct (negb _ || negb _); [apply safe_respond, safe_return|].
    apply safe_subscribe. apply Hv.
  - apply safe_tables. intros this w Hx Hwf. eexists _, _, _. split; [done|].
    split; [|apply safe_unlock, safe_return].
    destruct (HashMap.find id (Server.client_index this)); [|by apply tables_refl, touches_refl].
    destruct (Server.wf_write_client id (Server.with_offset o) this w Hwf) as [? ?]; [done|].
    by apply tables_same, touches_refl.
  - apply safe_disconnect.
Qed.

(** *** The end *)

Lemma topic_names_some this w n :
  Server.wf this w → n ∈ topic_names this ↔ is_Some (Server.get_topic n this).
Proof.
  intros Hwf. unfold topic_names, named. rewrite list_elem_of_omap. split.
  - intros ([n' found] & Hin & Hn). apply HashMap.entries_elem_of in Hin; [|apply Hwf].
    destruct found as [tp|]; simplify_eq/=. exists tp. by apply Server.get_topic_Some.
  - intros [tp Hn%Server.get_topic_Some]. exists (n, Some tp). split; [|done].
    apply HashMap.entries_elem_of; [apply Hwf|done].
Qed.

Lemma safe_shutdown_all armed names this0 next :
  (∀ n, n ∈ names → is_Some (Server.get_topic n this0)) →
  (∀ this, extends this0 this → safe Session.Stops (Stopping armed) [Server_mutex] this next) →
  safe Session.Stops (Stopping armed) [Server_mutex] this0 (shutdown_all names next).
Proof.
  revert this0. induction names as [|n names IH]; intros this0 Hn Hs; simpl; [by apply Hs|].
  apply safe_shutdown; [apply Hn; set_solver|]. intros this Hx. apply IH.
  - intros m Hm. eapply extends_some; [done|]. apply Hn. set_solver.
  - intros this' Hx'. apply Hs. by transitivity this.
Qed.

Lemma safe_close_fifo this0 :
  Server.running this0 = false →
  safe Session.Stops (Stopping true) [Server_mutex] this0 close_fifo.
Proof.
  intros Hr. apply safe_server; [set_solver| |].
  - intros this w Hx Hwf [fd Hfd] Hapart. rewrite Hfd. eexists _, _, _. split; [done|].
    assert (¬ Server.owned this fd) as Hno by (by apply Hapart).
    assert (∀ x, x = fd → ¬ Server.owned this x) as HT by (by intros ? ->).
    pose proof (extends_running _ _ Hx Hr). split.
    + eapply Server.wf_quiet; [done|apply touches_close|done|]. intros. congruence.
    + done.
    + done.
    + exists (λ x, x = fd). split; [apply touches_close|done].
    + by left.
  - intros this w this' w' p _ _. rewrite bind_Done. intros (fd & _ & [= <- <- <-]).
    by apply safe_unlock, safe_end.
Qed.

Lemma stop_safe path this0 : safe Session.Stops (Stopping false) [] this0 (stop path).
Proof.
  apply safe_running; [done|]. intros this1 _. destruct (Server.running this1); simpl;
    [|by apply safe_end].
  apply safe_running; [done|]. intros this2 _. simpl. apply safe_calls.
  { intros w. eexists _, _. split; [done|apply touches_unlink]. }
  intros w w' p [= _ <-]. apply safe_calls.
  { intros w1. destruct (open_ path O_WRONLY_NONBLOCK w1) as [fd w2] eqn:Ho.
    eexists _, _. split; [done|]. by eapply Server.dummy_quiet. }
  intros w1 w2 p. destruct (open_ path O_WRONLY_NONBLOCK w1) as [fd w3]. intros [= _ <-].
  apply safe_lock; [done|done|]. apply safe_server; [set_solver| |].
  - intros this w0 **. eexists _, _, _. split; [done|]. by apply tables_refl, touches_refl.
  - intros this w0 this' w0' p Hx Hwf [= <- <- <-]. apply safe_shutdown_all.
    + intros n. by apply (topic_names_some this w0).
    + intros this' Hx'. apply safe_close_fifo.
      apply (extends_running this); [done|]. by apply (extends_running _ _ Hx).
Qed.

End Theory.

End Discipline.
