(* ===== verification/Threads.v ===== *)
(** * Threads: the main thread, the workers of the topics, their locks, and signals

    A state of the system ([t]) is the data of the server, who owns which mutex, what the main
    thread has yet to do, and where the worker of each topic is in [Topic::run]. Threads move
    one access at a time ([step]), and a signal interrupts the main thread wherever it is: its
    handler runs on top of what was interrupted. A schedule is a list of [choice]s. Session.v,
    where operations follow one another, is what a topic sees of this. *)

From S2P Require Import Prelude HashMap PrefixTree Protocol World Text Ipc Topic Server Session.
From S2P Require Import Locking Discipline.

Set Warnings "-clear-no-such-hyp".

Module Threads.

Import World Locking Discipline.
Open Scope Z_scope.

(** ** The worker of a topic

    Where a worker is in the loop of [Topic::run]: before the lock, where it is also after it
    was woken up; about to test [has_work] in [cv.wait]; asleep there; after [cv.wait]; and
    at the end of a turn, which may have been the last. *)
Inductive worker : Type :=
| Locks
| Tests
| Asleep
| Serves
| Unlocks (last : bool)
| Finished.

Inductive thread : Type := Main_thread | Worker_of (topic_name : str).

#[export] Instance thread_eq_decision : EqDecision thread.
Proof. solve_decision. Defined.

Section Operations.
Context `{Kernel} `{SubscriptionIndex} `{Hash str} `{Hash Z}.

(** The stack of the main thread has a program for the request being handled and one for
    every signal that interrupted it, with what it is there for. *)
Record t : Type := mkSystem {
  server : Server.t;
  world_of : world;
  owner : gmap mutex thread;
  stack : list (Session.happening * prog);
  workers : gmap str worker
}.

Definition with_data (this : Server.t) (w : world) (s : t) : t :=
  mkSystem this w (owner s) (stack s) (workers s).

Definition with_owner (o : gmap mutex thread) (s : t) : t :=
  mkSystem (server s) (world_of s) o (stack s) (workers s).

Definition with_stack (st : list (Session.happening * prog)) (s : t) : t :=
  mkSystem (server s) (world_of s) (owner s) st (workers s).

Definition with_workers (ws : gmap str worker) (s : t) : t :=
  mkSystem (server s) (world_of s) (owner s) (stack s) ws.

(** Between two requests, with every worker at its start. *)
Definition at_rest (this : Server.t) (w : world) : t := mkSystem this w ∅ [] ∅.

(** The constructor of a topic starts its worker. *)
Definition worker_at (n : str) (s : t) : worker := default Locks (workers s !! n).

Definition set_worker (n : str) (p : worker) (s : t) : t :=
  with_workers (<[n := p]> (workers s)) s.

Definition free (m : mutex) (s : t) : bool := bool_decide (owner s !! m = None).

(** ** Moves of the main thread *)

(** [notify_all] wakes the worker if it sleeps. *)
Definition wake (n : str) (s : t) : t :=
  match worker_at n s with
  | Asleep => set_worker n Locks s
  | _ => s
  end.

Definition move (s : t) : outcome t :=
  match stack s with
  | [] => mret s
  | (e, p) :: rest =>
      let continue p s := with_stack ((e, p) :: rest) s in
      match p with
      | Return => mret (with_stack rest s)
      | Lock m next => mret (continue next (with_owner (<[m := Main_thread]> (owner s)) s))
      | Unlock m next => mret (continue next (with_owner (delete m (owner s)) s))
      | Calls f => '(w, p) ← f (world_of s); mret (continue p (with_data (server s) w s))
      | On_running f =>
          let '(running, p) := f (Server.running (server s)) in
          mret (continue p (with_data (Server.with_running running (server s)) (world_of s) s))
      | On_server f =>
          '(this, w, p) ← f (server s) (world_of s); mret (continue p (with_data this w s))
      | On_topic n f =>
          tp ← deref (Server.get_topic n (server s));
          '(tp, w, p) ← f tp (world_of s);
          mret (continue p (with_data (Server.set_topic n tp (server s)) w s))
      | Notify_all n next => mret (continue next (wake n s))
      | Join n next => mret (continue next s)
      end
  end.

(** The main thread can move, unless a mutex is not free (one that it owns itself
    included), or a worker has not finished. *)
Definition main_can_move (s : t) : bool :=
  match stack s with
  | [] => false
  | (_, Lock m _) :: _ => free m s
  | (_, Join n _) :: _ => match worker_at n s with Finished => true | _ => false end
  | _ => true
  end.

(** ** Moves of a worker *)

Definition worker_move (n : str) (s : t) : outcome t :=
  tp ← deref (Server.get_topic n (server s));
  match worker_at n s with
  | Locks =>
      mret (set_worker n Tests (with_owner (<[Topic_mutex n := Worker_of n]> (owner s)) s))
  | Tests =>
      if Topic.has_work tp then mret (set_worker n Serves s)
      else mret (set_worker n Asleep (with_owner (delete (Topic_mutex n) (owner s)) s))
  | Serves =>
      '(tp', w) ← Topic.pass tp (world_of s);
      mret (set_worker n (Unlocks (Topic.stop_flag tp))
              (with_data (Server.set_topic n tp' (server s)) w s))
  | Unlocks last =>
      mret (set_worker n (if last then Finished else Locks)
              (with_owner (delete (Topic_mutex n) (owner s)) s))
  | Asleep | Finished => mret s
  end.

Definition worker_can_move (n : str) (s : t) : bool :=
  match Server.get_topic n (server s) with
  | None => false
  | Some _ => match worker_at n s with
              | Locks => free (Topic_mutex n) s
              | Asleep | Finished => false
              | _ => true
              end
  end.

(** ** Schedules *)

(** The main thread moves, a worker moves, a worker wakes up without having been notified,
    the main thread reads, or handles a request, when it is not busy, a signal comes. A
    request may come after the end: the one that was read before the flag was tested. *)
Inductive choice : Type :=
| Main_moves
| Worker_moves (n : str)
| Wakes (n : str)
| Listens
| Handles (r : Protocol.request)
| Signalled.

Definition idle (s : t) : bool := match stack s with [] => true | _ => false end.

Definition enabled (c : choice) (s : t) : bool :=
  match c with
  | Main_moves => main_can_move s
  | Worker_moves n => worker_can_move n s
  | Wakes n => match worker_at n s with Asleep => true | _ => false end
  | Listens | Handles _ => idle s
  | Signalled => true
  end.

(** A thread that cannot move stays where it is. *)
Definition step (c : choice) (s : t) : outcome t :=
  if negb (enabled c s) then mret s
  else
    match c with
    | Main_moves => move s
    | Worker_moves n => worker_move n s
    | Wakes n => mret (set_worker n Locks s)
    | Listens =>
        fd ← deref (Server.fifo_fd (server s));
        mret (with_data (server s) (read_ fd 1024 (world_of s)).2 s)
    | Handles r => mret (with_stack [(Session.Requests r, handle r)] s)
    | Signalled =>
        mret (with_stack ((Session.Stops, stop (Server.server_path (server s))) :: stack s) s)
    end.

Fixpoint run (cs : list choice) (s : t) : outcome t :=
  match cs with
  | [] => mret s
  | c :: cs => s ← step c s; run cs s
  end.

(** ** What a schedule does to the topics

    The access in which a request, a turn of a worker or the end of a topic takes effect is
    what happens, all else is between. *)
Definition at_tables (e : Session.happening) : Session.happening :=
  match e with
  | Session.Requests (Protocol.Req_create pid n) => e
  | _ => Session.Listens
  end.

Definition takes_effect (e : Session.happening) (p : prog) : Session.happening :=
  match p with
  | On_topic _ _ => e
  | On_server _ => at_tables e
  | _ => Session.Listens
  end.

Definition happens (c : choice) (s : t) : Session.happening :=
  if negb (enabled c s) then Session.Listens
  else
    match c with
    | Main_moves =>
        match stack s with (e, p) :: _ => takes_effect e p | [] => Session.Listens end
    | Worker_moves n =>
        match worker_at n s with Serves => Session.Works n | _ => Session.Listens end
    | _ => Session.Listens
    end.

Fixpoint history (cs : list choice) (s : t) : list Session.happening :=
  match cs with
  | [] => []
  | c :: cs =>
      happens c s :: match step c s with Done s => history cs s | _ => [] end
  end.

(** The requests that the main thread takes up. *)
Definition takes_up (c : choice) (s : t) : list Session.happening :=
  match c with Handles r => if idle s then [Session.Requests r] else [] | _ => [] end.

Fixpoint handled (cs : list choice) (s : t) : list Session.happening :=
  match cs with
  | [] => []
  | c :: cs => takes_up c s ++ match step c s with Done s => handled cs s | _ => [] end
  end.

End Operations.

(** ** Invariant *)

Section Specification.
Context `{KernelLaws} `{SubscriptionIndex} `{Hash str} `{Hash Z}.

(** A topic that is being stopped looks as if its worker had left already: what remains for
    the worker to do cannot be seen. *)
Definition with_worker (b : bool) (tp : Topic.t) : Topic.t :=
  Topic.mkTopic (Topic.name tp) (Topic.messages tp) (Topic.prefix_tree tp) (Topic.subscribers tp)
    (Topic.stop_flag tp) b.

Definition seen (tp : Topic.t) : Topic.t :=
  with_worker (Topic.worker_running tp && negb (Topic.stop_flag tp)) tp.

(** What topic [n] looks like, from outside. *)
Definition view (n : str) (this : Server.t) : option Topic.t := seen <$> Server.get_topic n this.

(** How many messages the programs on the stack may still publish. *)
Fixpoint pending (kds : list kind) : Z :=
  match kds with
  | [] => 0
  | Handling true :: kds => 1 + pending kds
  | _ :: kds => pending kds
  end.

(** Signals come on top of a request. *)
Fixpoint stacked (kds : list kind) : Prop :=
  match kds with
  | [] | [_] => True
  | Stopping _ :: kds => stacked kds
  | Handling _ :: _ => False
  end.

Record data_ok (k : Z) (kds : list kind) (this : Server.t) (w : world) : Prop := {
  data_wf : Server.wf this w;
  data_fifo : is_Some (Server.fifo_fd this);
  data_room : Session.room (pending kds + k) this;
  data_apart : Stopping true ∈ kds → apart this;
  data_stacked : stacked kds
}.

(** The data a program is about to reach, as the mutex of it. *)
Definition reaches (q : prog) : option mutex :=
  match q with On_topic n _ => Some (Topic_mutex n) | On_server _ => Some Server_mutex | _ => None end.

(** A worker that owns its lock. *)
Definition inside (p : worker) : Prop :=
  match p with Tests | Serves | Unlocks _ => True | _ => False end.

(** The main thread owns what the programs on its stack hold, which hold nothing twice. *)
Record locks_ok (this : Server.t) (o : gmap mutex thread) (ws : gmap str worker)
    (held : list mutex) : Prop := {
  locks_nodup : NoDup held;
  locks_main m : o !! m = Some Main_thread ↔ m ∈ held;
  locks_worker n : o !! Topic_mutex n = Some (Worker_of n) ↔ inside (default Locks (ws !! n));
  locks_own n m : o !! m = Some (Worker_of n) → m = Topic_mutex n;
  locks_topic n th : o !! Topic_mutex n = Some th → is_Some (Server.get_topic n this)
}.

(** A worker that has not left its loop, or is not about to. *)
Definition alive (p : worker) : bool :=
  match p with Unlocks true | Finished => false | _ => true end.

(** A worker that sleeps has nothing to do, or is about to be notified. *)
Record worker_ok (n : str) (tp : Topic.t) (p : worker) (st : list (Session.happening * prog))
    : Prop := {
  worker_alive : Topic.worker_running tp = alive p;
  worker_left : alive p = false → Topic.stop_flag tp = true;
  worker_serves : p = Serves → Topic.has_work tp = true;
  worker_sleeps : p = Asleep → Topic.has_work tp = true → ∃ e q, (e, q) ∈ st ∧ notifies n q
}.

Definition frames_ok (this : Server.t) (st : list (Session.happening * prog))
    (an : list (kind * list mutex)) : Prop :=
  Forall2 (λ fr a, safe fr.1 a.1 a.2 this fr.2) st an.

(** [an] says what each program on the stack is for and what it holds. Topics have room for
    [k] messages besides those of the requests on the stack. *)
Record ok (k : Z) (an : list (kind * list mutex)) (s : t) : Prop := {
  ok_data : data_ok k an.*1 (server s) (world_of s);
  ok_frames : frames_ok (server s) (stack s) an;
  ok_locks : locks_ok (server s) (owner s) (workers s) (concat an.*2);
  ok_worker n tp : Server.get_topic n (server s) = Some tp →
    worker_ok n tp (worker_at n s) (stack s);
  ok_absent n : Server.get_topic n (server s) = None → workers s !! n = None
}.

End Specification.

(** ** What a topic sees of one access *)

Section Theory.
Context `{KernelLaws} `{SubscriptionIndex} `{Hash str} `{Hash Z}.
Implicit Types (this : Server.t) (tp : Topic.t) (w : world) (q : prog) (e : Session.happening).

Lemma run_op_worker o b tp w :
  match o with Topic.Op_run | Topic.Op_shutdown => False | _ => True end →
  Topic.run_op o (with_worker b tp) w =
  '(tp', w') ← Topic.run_op o tp w; mret (with_worker b tp', w').
Proof.
  destruct o as [k v|id p path start|id| |]; try done; intros _; simpl.
  - unfold Topic.add_subscriber, Topic.drop_subscriber. simpl.
    destruct (HashMap.find id (Topic.subscribers tp)) as [s|]; simpl.
    + destruct (index_remove _ _ _) as [[b' tree]| |]; simpl; [|done..].
      destruct (open_ path _ _) as [fd w1]. by destruct (fd =? -1).
    + destruct (open_ path _ _) as [fd w1]. by destruct (fd =? -1).
  - unfold Topic.remove_subscriber, Topic.drop_subscriber. simpl.
    destruct (HashMap.find id (Topic.subscribers tp)) as [s|]; simpl; [|done].
    by destruct (index_remove _ _ _) as [[b' tree]| |].
Qed.

Lemma run_op_flags o tp w tp' w' :
  match o with Topic.Op_run | Topic.Op_shutdown => False | _ => True end →
  Topic.run_op o tp w = Done (tp', w') →
  Topic.stop_flag tp' = Topic.stop_flag tp ∧ Topic.worker_running tp' = Topic.worker_running tp.
Proof.
  destruct o as [k v|id p path start|id| |]; try done; intros _; simpl; [by intros [= <- _]| |].
  - unfold Topic.add_subscriber, Topic.drop_subscriber.
    destruct (HashMap.find id (Topic.subscribers tp)) as [s|]; simpl.
    + destruct (index_remove _ _ _) as [[b' tree]| |]; simpl; [|done..].
      destruct (open_ path _ _) as [fd w1]. destruct (fd =? -1); by intros [= <- _].
    + destruct (open_ path _ _) as [fd w1]. destruct (fd =? -1); by intros [= <- _].
  - unfold Topic.remove_subscriber, Topic.drop_subscriber.
    destruct (HashMap.find id (Topic.subscribers tp)) as [s|]; simpl; [|by intros [= <- _]].
    destruct (index_remove _ _ _) as [[b' tree]| |]; simpl; [|done..]. by intros [= <- _].
Qed.

Lemma seen_run_op o tp w tp' w' :
  match o with Topic.Op_run | Topic.Op_shutdown => False | _ => True end →
  Topic.run_op o tp w = Done (tp', w') → Topic.run_op o (seen tp) w = Done (seen tp', w').
Proof.
  intros Ho Hrun. destruct (run_op_flags o tp w tp' w' Ho Hrun) as [Hst Hwr].
  unfold seen. rewrite run_op_worker, Hrun by done. simpl. by rewrite Hst, Hwr.
Qed.

(** The turn of the worker, and the part of [shutdown] under the lock. *)
Lemma seen_pass tp w tp' w' :
  Topic.worker_running tp = true → Topic.has_work tp = true → Topic.pass tp w = Done (tp', w') →
  Topic.run_op Topic.Op_run (seen tp) w = Done (seen tp', w').
Proof.
  intros Hr Hw Hp. cbn [Topic.run_op]. unfold Topic.run_step, seen. rewrite Hr. cbn [Topic.worker_running with_worker].
  destruct (Topic.stop_flag tp) eqn:Hst; simpl.
  - unfold Topic.pass in Hp. rewrite Hst in Hp. injection Hp as <- <-. unfold with_worker. simpl.
    by rewrite Hst.
  - assert (with_worker true tp = tp) as Hsame by (destruct tp; simpl in *; by subst).
    rewrite Hsame, Hw, Hp. simpl. unfold Topic.pass in Hp. rewrite Hst in Hp.
    apply bind_Done in Hp as ([ms w1] & _ & [= <- <-]). unfold with_worker, Topic.with_subscribers.
    simpl. by rewrite Hr, Hst.
Qed.

Lemma seen_sign_off tp w tp' w' :
  Topic.worker_running tp = true → Topic.stop_flag tp = false → Topic.sign_off tp w = Done (tp', w') →
  Topic.run_op Topic.Op_shutdown (seen tp) w = Done (seen tp', w').
Proof.
  intros Hr Hst Ho. assert (seen tp = tp) as ->.
  { unfold seen. rewrite Hr, Hst. destruct tp; simpl in *; by subst. }
  cbn [Topic.run_op]. unfold Topic.shutdown. rewrite Hst, Ho. simpl.
  unfold Topic.sign_off in Ho. apply bind_Done in Ho as ([ms w1] & _ & [= <- <-]).
  unfold Topic.run_step, Topic.pass, Topic.has_work, seen, with_worker. simpl. by rewrite Hr.
Qed.

Lemma owned_view n this x : Topic.owns (Session.registry (view n this)) x → Server.owned this x.
Proof.
  unfold view. destruct (Server.get_topic n this) as [tp|] eqn:Hn; [by exists n, tp|].
  intros Hx. by apply Session.owns_nothing in Hx.
Qed.

Lemma view_aside T e n this w this' w' :
  touches T w w' → (∀ x, T x → ¬ Server.owned this x) →
  Server.get_topic n this' = Server.get_topic n this →
  Server.get_topic n this = None ∨ Session.passes e n →
  Session.topic_step e n (view n this, w) (view n this', w').
Proof.
  intros Ht HT Hn Hp. unfold view at 2. rewrite Hn. apply Session.step_aside.
  - unfold view. destruct Hp as [->|]; auto.
  - eapply touches_weaken; [|exact Ht]. intros x Hx Ho%owned_view. by apply (HT x).
Qed.

Lemma view_tables e this w this' w' n :
  tables_change e this w this' w' →
  Session.topic_step (at_tables e) n (view n this, w) (view n this', w').
Proof.
  intros [Hwf _ _ (T & Ht & HT) Htopics].
  assert (Session.passes (at_tables e) n) as Hp by (by destruct e as [[]| | |]).
  destruct Htopics as [Hsame|(pid & n0 & -> & Hnone & Hget)].
  - eapply view_aside; [exact Ht|done|done|by right].
  - destruct (decide (n0 = n)) as [->|Hne].
    + unfold view. rewrite Hget, decide_True, Hnone by done. simpl.
      apply (Session.step_created _ _ pid); [done|]. eapply touches_weaken; [|exact Ht].
      intros x _. apply Session.owns_nothing.
    + eapply view_aside; [exact Ht|done| |by right]. by rewrite Hget, decide_False.
Qed.

Lemma view_topic e n o tp tp' this w w' m :
  Server.wf this w → Server.get_topic n this = Some tp → Session.does e n o →
  Topic.run_op o (seen tp) w = Done (seen tp', w') →
  touches (Topic.owns (Topic.subs tp)) w w' →
  Session.topic_step e m (view m this, w) (view m (Server.set_topic n tp' this), w').
Proof.
  intros Hwf Hn Hd Hop Ht. destruct (decide (n = m)) as [<-|Hne].
  - unfold view. rewrite Server.get_set_topic by (apply Hwf || eauto). rewrite decide_True, Hn by done.
    eapply Session.step_does; [done|apply touches_refl|exact Hop|apply touches_refl].
  - unfold view at 2. rewrite Server.get_set_topic by (apply Hwf || eauto). rewrite decide_False by done.
    apply Session.step_aside; [right; by eapply Session.does_passes|].
    eapply touches_weaken; [|exact Ht]. intros x Hx Ho. unfold view in Ho.
    destruct (Server.get_topic m this) as [tpm|] eqn:Hm; [|by apply Session.owns_nothing in Ho].
    apply Hne. by eapply (Server.wf_disjoint _ _ Hwf n m tp tpm x).
Qed.

(** ** The parts of the invariant under the moves of a thread *)

Lemma owned_tables e this w this' w' x :
  tables_change e this w this' w' → Server.owned this' x → Server.owned this x.
Proof.
  intros [_ _ _ _ [Hsame|(pid & n & _ & _ & Hget)]] (m & tp & Hm & Hx).
  - exists m, tp. by rewrite <- Hsame.
  - rewrite Hget in Hm. case_decide; [|by exists m, tp]. injection Hm as <-.
    destruct Hx as (id & s & Hs & _). unfold Topic.subs in Hs. cbn [Topic.subscribers Topic.make] in Hs.
    by rewrite HashMap.to_map_make_default in Hs.
Qed.

Lemma data_quiet k kds this w w' :
  data_ok k kds this w → touches (λ _, False) w w' → data_ok k kds this w'.
Proof. intros [] Hq. split; try done. eapply Server.wf_quiet; [done|exact Hq|tauto|tauto]. Qed.

Lemma data_tables k kds e this w this' w' :
  data_ok k kds this w → tables_change e this w this' w' → data_ok k kds this' w'.
Proof.
  intros [Hwf Hf [Hk Hroom] Hap Hst] Hc. split.
  - apply Hc.
  - by rewrite (extends_fifo _ _ (tables_extend _ _ _ _ _ Hc)).
  - split; [done|]. intros n tp Hn.
    destruct (tables_topics _ _ _ _ _ Hc) as [Hsame|(pid & m & _ & _ & Hget)].
    + apply (Hroom n). by rewrite <- Hsame.
    + rewrite Hget in Hn. case_decide; [|by eapply Hroom]. injection Hn as <-.
      cbn [Topic.messages Topic.make]. rewrite zlen_nil. lia.
  - intros Hin fd Hfd Ho. apply (Hap Hin fd); [|by eapply owned_tables].
    by rewrite <- (extends_fifo _ _ (tables_extend _ _ _ _ _ Hc)).
  - done.
Qed.

Lemma data_set_topic k k' kds kds' n tp tp' this w w' :
  data_ok k kds this w → Server.get_topic n this = Some tp → Topic.wf tp' w' →
  Topic.isolated (Topic.subs tp) w (Topic.subs tp') w' → knows this tp' →
  zlen (Topic.messages tp') + (pending kds' + k') ≤ zlen (Topic.messages tp) + (pending kds + k) →
  pending kds' + k' ≤ pending kds + k → stacked kds' →
  (Stopping true ∈ kds' →
     Stopping true ∈ kds ∧ ∀ x, Topic.owns (Topic.subs tp') x → Topic.owns (Topic.subs tp) x) →
  data_ok k' kds' (Server.set_topic n tp' this) w'.
Proof.
  intros [Hwf Hf [Hk Hroom] Hap _] Hn Hwf' Hiso Hknow Hm Hle Hst Hshr.
  assert (∀ m, Server.get_topic m (Server.set_topic n tp' this) =
    if decide (n = m) then Some tp' else Server.get_topic m this) as Hget
    by (intros m; apply Server.get_set_topic; [apply Hwf|by exists tp]).
  split; [by eapply Server.wf_set_topic|done| | |done].
  - split; [lia|]. intros m tpm. rewrite Hget. case_decide.
    + intros [= <-]. specialize (Hroom n tp Hn). lia.
    + intros Hm'. specialize (Hroom m tpm Hm'). lia.
  - intros Hin fd Hfd (m & tpm & Hm' & Hx). destruct (Hshr Hin) as [Hin' Hx'].
    apply (Hap Hin' fd Hfd). rewrite Hget in Hm'. case_decide; [|by exists m, tpm].
    injection Hm' as <-. exists n, tp. auto.
Qed.

Lemma frames_extend this this' st an :
  extends this this' → frames_ok this st an → frames_ok this' st an.
Proof.
  intros Hx Hf. eapply Forall2_impl; [exact Hf|]. intros [e q] [kd held]. by apply safe_extends.
Qed.

Lemma locks_extend this this' o ws held :
  extends this this' → locks_ok this o ws held → locks_ok this' o ws held.
Proof. intros Hx []. split; try done. intros. eapply extends_some; eauto. Qed.

Lemma locks_take this o ws held m :
  locks_ok this o ws held → o !! m = None →
  (∀ n, m = Topic_mutex n → is_Some (Server.get_topic n this)) →
  locks_ok this (<[m := Main_thread]> o) ws (m :: held).
Proof.
  intros [Hnd Hm Hw Ho Ht] Hfree Hex. split.
  - apply NoDup_cons. split; [|done]. rewrite <- Hm. by rewrite Hfree.
  - intros m'. rewrite elem_of_cons, <- Hm, lookup_insert_Some. naive_solver.
  - intros n. rewrite <- Hw. rewrite lookup_insert_Some. split; [naive_solver|]. intros Hn.
    right. split; [|done]. intros ->. congruence.
  - intros n m'. rewrite lookup_insert_Some. intros [[_ ?]|[_ ?]]; [done|by eapply Ho].
  - intros n th. rewrite lookup_insert_Some. intros [[-> _]|[_ ?]]; eauto.
Qed.

Lemma locks_drop this o ws held m :
  locks_ok this o ws (m :: held) → locks_ok this (delete m o) ws held.
Proof.
  intros [Hnd Hm Hw Ho Ht]. apply NoDup_cons in Hnd as [Hnotin Hnd].
  assert (o !! m = Some Main_thread) as Hown by (apply Hm; by apply list_elem_of_here).
  split; [done| | | |].
  - intros m'. rewrite lookup_delete_Some, Hm, elem_of_cons. naive_solver.
  - intros n. rewrite <- Hw, lookup_delete_Some. split; [naive_solver|]. intros Hn.
    split; [|done]. intros ->. congruence.
  - intros n m'. rewrite lookup_delete_Some. intros [_ ?]. by eapply Ho.
  - intros n th. rewrite lookup_delete_Some. intros [_ ?]. eauto.
Qed.

Lemma default_insert (n m : str) (p : worker) (ws : gmap str worker) :
  default Locks (<[n := p]> ws !! m) = if decide (n = m) then p else default Locks (ws !! m).
Proof. destruct (decide (n = m)) as [<-|]; [by rewrite lookup_insert_eq|by rewrite lookup_insert_ne]. Qed.

Lemma locks_worker_takes this o ws held n :
  locks_ok this o ws held → o !! Topic_mutex n = None → is_Some (Server.get_topic n this) →
  locks_ok this (<[Topic_mutex n := Worker_of n]> o) (<[n := Tests]> ws) held.
Proof.
  intros [Hnd Hm Hw Ho Ht] Hfree Hex. split; [done| | | |].
  - intros m'. rewrite <- Hm, lookup_insert_Some. split; [naive_solver|]. intros Hm'. right.
    split; [|done]. intros <-. congruence.
  - intros m. rewrite default_insert. destruct (decide (n = m)) as [<-|Hne].
    + rewrite lookup_insert_eq. by split.
    + rewrite lookup_insert_ne by congruence. apply Hw.
  - intros m m'. rewrite lookup_insert_Some. intros [[<- [= <-]]|[_ ?]]; [done|by eapply Ho].
  - intros m th. rewrite lookup_insert_Some. intros [[[= <-] _]|[_ ?]]; eauto.
Qed.

Lemma locks_worker_stays this o ws held n p :
  locks_ok this o ws held → (inside (default Locks (ws !! n)) ↔ inside p) →
  locks_ok this o (<[n := p]> ws) held.
Proof.
  intros [Hnd Hm Hw Ho Ht] Hp. split; try done. intros m. rewrite default_insert.
  case_decide; [|apply Hw]. subst. rewrite Hw. exact Hp.
Qed.

Lemma locks_worker_drops this o ws held n p :
  locks_ok this o ws held → inside (default Locks (ws !! n)) → ¬ inside p →
  locks_ok this (delete (Topic_mutex n) o) (<[n := p]> ws) held.
Proof.
  intros [Hnd Hm Hw Ho Ht] Hin Hp.
  assert (o !! Topic_mutex n = Some (Worker_of n)) as Hown by (by apply Hw).
  split; [done| | | |].
  - intros m. rewrite lookup_delete_Some, Hm. split; [naive_solver|]. intros Hin'. split; [|done].
    intros <-. apply Hm in Hin'. congruence.
  - intros m. rewrite default_insert, lookup_delete_Some, Hw. case_decide; [subst|].
    + split; [intros [? _]; congruence|]. intros. by destruct Hp.
    + split; [tauto|]. intros. split; [congruence|done].
  - intros m m'. rewrite lookup_delete_Some. intros [_ ?]. by eapply Ho.
  - intros m th. rewrite lookup_delete_Some. intros [_ ?]. eauto.
Qed.

Lemma worker_stack n tp p st st' :
  worker_ok n tp p st →
  (∀ e q, (e, q) ∈ st → notifies n q → ∃ e' q', (e', q') ∈ st' ∧ notifies n q') →
  worker_ok n tp p st'.
Proof.
  intros [Ha Hl Hs Hz] Hst. split; try done. intros Hp Hw.
  destruct (Hz Hp Hw) as (e & q & Hin & Hn). by apply (Hst e q).
Qed.

Lemma worker_new n st : worker_ok n (Topic.make n) Locks st.
Proof. by split. Qed.

Definition workers_ok this (ws : gmap str worker) (st : list (Session.happening * prog)) : Prop :=
  (∀ n tp, Server.get_topic n this = Some tp → worker_ok n tp (default Locks (ws !! n)) st) ∧
  ∀ n, Server.get_topic n this = None → ws !! n = None.

Lemma ok_workers k an s : ok k an s → workers_ok (server s) (workers s) (stack s).
Proof. intros [_ _ _ Hw Ha]. by split. Qed.

Lemma ok_intro k an this w o st ws :
  data_ok k an.*1 this w → frames_ok this st an → locks_ok this o ws (concat an.*2) →
  workers_ok this ws st → ok k an (mkSystem this w o st ws).
Proof. intros Hd Hf Hl [Hw Ha]. by split. Qed.

Lemma workers_stack this ws st st' :
  workers_ok this ws st →
  (∀ n e q, (e, q) ∈ st → notifies n q → ∃ e' q', (e', q') ∈ st' ∧ notifies n q') →
  workers_ok this ws st'.
Proof. intros [Hw Ha] Hst. split; [|done]. intros n tp Hn. eapply worker_stack; eauto. Qed.

Lemma workers_tables e this w this' w' ws st :
  workers_ok this ws st → tables_change e this w this' w' → workers_ok this' ws st.
Proof.
  intros [Hw Ha] Hc. destruct (tables_topics _ _ _ _ _ Hc) as [Hsame|(pid & m & _ & Hnone & Hget)].
  - split; intros n; [intros tp|]; rewrite Hsame; auto.
  - split; intros n; [intros tp|]; rewrite Hget; case_decide; auto; [|done].
    subst. intros [= <-]. rewrite (Ha n Hnone). apply worker_new.
Qed.

(** The topic [n] changes, and perhaps its worker. *)
Lemma workers_set_topic n tp tp' this ws ws' st st' :
  HashMap.wf (Server.topics this) → workers_ok this ws st → Server.get_topic n this = Some tp →
  (∀ m, m ≠ n → ws' !! m = ws !! m) → worker_ok n tp' (default Locks (ws' !! n)) st' →
  (∀ m e q, m ≠ n → (e, q) ∈ st → notifies m q → ∃ e' q', (e', q') ∈ st' ∧ notifies m q') →
  workers_ok (Server.set_topic n tp' this) ws' st'.
Proof.
  intros Ht [Hw Ha] Hn Hws Hp Hst. split; intros m; [intros tpm|];
    rewrite Server.get_set_topic by eauto; case_decide as Hm; try done.
  - subst m. by intros [= <-].
  - intros Htp. rewrite Hws by done. eapply worker_stack; eauto.
  - intros Hnone. rewrite Hws by done. auto.
Qed.

Lemma workers_set n tp p this ws st :
  workers_ok this ws st → Server.get_topic n this = Some tp → worker_ok n tp p st →
  workers_ok this (<[n := p]> ws) st.
Proof.
  intros [Hw Ha] Hn Hp. split; intros m; [intros tpm|]; intros Hm.
  - rewrite default_insert. case_decide; [|auto]. subst. congruence.
  - rewrite lookup_insert_ne; [auto|]. intros <-. congruence.
Qed.

Lemma ok_continue k kd held an e q rest this w o ws :
  data_ok k (kd :: an.*1) this w → safe e kd held this q → frames_ok this rest an →
  locks_ok this o ws (held ++ concat an.*2) → workers_ok this ws ((e, q) :: rest) →
  ok k ((kd, held) :: an) (mkSystem this w o ((e, q) :: rest) ws).
Proof. intros Hd Hs Hf Hl Hw. apply ok_intro; try done. by constructor. Qed.

Lemma ok_top k kd held an e q rest this w o ws :
  ok k ((kd, held) :: an) (mkSystem this w o ((e, q) :: rest) ws) →
  data_ok k (kd :: an.*1) this w ∧ safe e kd held this q ∧ frames_ok this rest an ∧
  locks_ok this o ws (held ++ concat an.*2) ∧ workers_ok this ws ((e, q) :: rest).
Proof.
  intros Hok. pose proof (ok_workers _ _ _ Hok) as Hw. destruct Hok as [Hd Hf Hl _ _].
  by apply Forall2_cons in Hf as [Hs Hf].
Qed.

(** Nothing is lost when the program on top goes on. *)
Lemma top_notifies e q q' rest :
  (∀ n, notifies n q → notifies n q') →
  ∀ (n : str) e0 q0, (e0, q0) ∈ (e, q) :: rest → notifies n q0 →
  ∃ e1 q1, (e1, q1) ∈ (e, q') :: rest ∧ notifies n q1.
Proof.
  intros Hq n e0 q0 [[= -> ->]|Hin]%elem_of_cons Hn.
  - exists e, q'. split; [by apply list_elem_of_here|auto].
  - exists e0, q0. split; [by apply list_elem_of_further|done].
Qed.

(** ** The main thread *)

(** What a program that runs for [e] still owes to topic [n]. *)
Definition owes (n : str) e (kd : kind) : list (str * str) :=
  match kd with Handling true => Session.published_to n [e] | _ => [] end.

(** It pays when it publishes. *)
Definition pays this e (q : prog) (kd kd' : kind) : Prop :=
  ∀ n, is_Some (Server.get_topic n this) →
    Session.published_to n [takes_effect e q] ++ owes n e kd' = owes n e kd.

(** The program on top of the stack has gone on, or has returned. *)
Definition goes_on (k : Z) (kd : kind) (an : list (kind * list mutex)) e q rest (s s' : t) : Prop :=
  extends (server s) (server s') ∧
  (∀ m, Session.topic_step (takes_effect e q) m
          (view m (server s), world_of s) (view m (server s'), world_of s')) ∧
  match q with
  | Return => stack s' = rest ∧ kd ≠ Handling true ∧ ok k an s'
  | _ =>
      ∃ kd' held q', stack s' = (e, q') :: rest ∧ pays (server s) e q kd kd' ∧
        ok k ((kd', held) :: an) s'
  end.

Lemma view_nothing this w m : Session.topic_step Session.Listens m (view m this, w) (view m this, w).
Proof. eapply (view_aside (λ _, False)); [apply touches_refl|done|done|by right]. Qed.

Lemma move_return k kd held an e rest this w o ws :
  let s := mkSystem this w o ((e, Return) :: rest) ws in
  ok k ((kd, held) :: an) s → ∃ s', move s = Done s' ∧ goes_on k kd an e Return rest s s'.
Proof.
  intros s (Hd & Hs & Hf & Hl & Hw & Ha)%ok_top. inversion Hs; subst held.
  eexists. split; [done|]. split; [reflexivity|]. split; [intros m; apply view_nothing|].
  split; [done|]. split; [done|]. split; try done.
  - destruct Hd as [? ? Hroom Hap Hst]. split; try done.
    + apply (Session.room_weaken _ _ _) with (2 := Hroom). destruct kd as [[]|]; cbn [pending]; lia.
    + intros Hin. apply Hap. by apply list_elem_of_further.
    + by destruct kd, an.*1.
  - intros n tp Hn. eapply worker_stack; [by apply Hw|]. intros e0 q0 Hin Hno.
    apply elem_of_cons in Hin as [[= -> ->]|Hin]; [by inversion Hno|eauto].
Qed.

Lemma move_lock k kd held an e m next rest this w o ws :
  let s := mkSystem this w o ((e, Lock m next) :: rest) ws in
  ok k ((kd, held) :: an) s → main_can_move s = true →
  ∃ s', move s = Done s' ∧ goes_on k kd an e (Lock m next) rest s s'.
Proof.
  intros s (Hd & Hs & Hf & Hl & Hw)%ok_top Hcan%bool_decide_eq_true. inversion Hs; subst.
  eexists. split; [done|]. split; [reflexivity|]. split; [intros n; apply view_nothing|].
  exists kd, (m :: held), next. split; [done|]. split; [done|]. apply ok_continue; try done.
  - by apply locks_take.
  - eapply workers_stack; [done|]. apply top_notifies. by inversion 1.
Qed.

Lemma move_unlock k kd held an e m next rest this w o ws :
  let s := mkSystem this w o ((e, Unlock m next) :: rest) ws in
  ok k ((kd, held) :: an) s → ∃ s', move s = Done s' ∧ goes_on k kd an e (Unlock m next) rest s s'.
Proof.
  intros s (Hd & Hs & Hf & Hl & Hw)%ok_top. inversion Hs as [| |? held0| | | | | |]; subst.
  eexists. split; [done|]. split; [reflexivity|]. split; [intros n; apply view_nothing|].
  exists kd, held0, next. split; [done|]. split; [done|]. apply ok_continue; try done.
  - by apply locks_drop.
  - eapply workers_stack; [done|]. apply top_notifies. by inversion 1.
Qed.

Lemma move_calls k kd held an e f rest this w o ws :
  let s := mkSystem this w o ((e, Calls f) :: rest) ws in
  ok k ((kd, held) :: an) s → ∃ s', move s = Done s' ∧ goes_on k kd an e (Calls f) rest s s'.
Proof.
  intros s (Hd & Hs & Hf & Hl & Hw)%ok_top. inversion Hs as [| | |? ? ? ? Hdone Hnext| | | | |]; subst.
  destruct (Hdone w) as (w' & q & Hrun & Hq). specialize (Hnext _ _ _ Hrun).
  unfold move. simpl. rewrite Hrun. eexists. split; [done|]. split; [reflexivity|]. split.
  - intros n. eapply (view_aside (λ _, False)); [exact Hq|done|done|by right].
  - exists kd, held, q. split; [done|]. split; [done|]. apply ok_continue; try done.
    + by eapply data_quiet.
    + eapply workers_stack; [done|]. apply top_notifies. by inversion 1.
Qed.

Lemma running_apart this w : Server.wf this w → Server.running this = true → apart this.
Proof.
  intros Hwf Hr fd Hfd Ho. destruct (decide (fd = -1)) as [->|Hne].
  - by destruct Ho as (n & tp & _ & id & s & _ & _ & ?).
  - by destruct (Server.wf_fifo _ _ Hwf fd Hr Hfd Hne).
Qed.

Lemma extends_with_running b this :
  (b = true → Server.running this = true) → extends this (Server.with_running b this).
Proof. intros Hb. split; try done; [|by eauto]. simpl. intros Hr. destruct b; [|done]. by rewrite Hb in Hr. Qed.

Lemma wf_with_running b this w :
  (b = true → Server.running this = true) → Server.wf this w → Server.wf (Server.with_running b this) w.
Proof. intros Hb []. split; try done. simpl. intros fd Hr. auto. Qed.

Lemma move_running k kd held an e f rest this w o ws :
  let s := mkSystem this w o ((e, On_running f) :: rest) ws in
  ok k ((kd, held) :: an) s → ∃ s', move s = Done s' ∧ goes_on k kd an e (On_running f) rest s s'.
Proof.
  intros s (Hd & Hs & Hf & Hl & Hw)%ok_top. inversion Hs as [| | | |armed ? ? ? Hb Hnext| | | |]; subst.
  specialize (Hb (Server.running this)). specialize (Hnext this ltac:(reflexivity)).
  unfold move. simpl. destruct (f (Server.running this)) as [b q]; simpl in *.
  eexists. split; [done|]. split; [by apply extends_with_running|]. split.
  - intros n. eapply (view_aside (λ _, False)); [apply touches_refl|done|done|by right].
  - exists (arm (Server.running this) (Stopping armed)), held, q. split; [done|]. split; [done|]. apply ok_continue; try done.
    + destruct Hd as [Hwf Hfd Hroom Hap Hst]. split; try done; [by apply wf_with_running|].
      intros Hin. assert (Stopping true ∈ Stopping armed :: an.*1 ∨ Server.running this = true) as [Hin'|Hr].
      { apply elem_of_cons in Hin as [[= Ha]|Hin]; [|left; by apply list_elem_of_further].
        destruct armed; [left; by apply list_elem_of_here|by right]. }
      * exact (Hap Hin').
      * exact (running_apart this w Hwf Hr).
    + eapply frames_extend; [|done]. by apply extends_with_running.
    + eapply locks_extend; [|done]. by apply extends_with_running.
    + eapply (workers_stack _ _ ((e, On_running f) :: rest)); [done|]. apply top_notifies. by inversion 1.
Qed.

Lemma data_gives_up k e this0 kd kd' kds this w :
  gives_up e this0 kd kd' → data_ok k (kd :: kds) this w → data_ok k (kd' :: kds) this w.
Proof.
  intros [->|(-> & -> & _)] [Hwf Hfd Hroom Hap Hst]; [done|]. split; try done.
  - eapply Session.room_weaken; [|exact Hroom]. cbn [pending]. lia.
  - intros [?|?]%elem_of_cons; [done|]. apply Hap. by apply list_elem_of_further.
Qed.

Lemma pays_tables e f kd kd' this : gives_up e this kd kd' → pays this e (On_server f) kd kd'.
Proof.
  intros Hg n [tp Hn]. cbn [takes_effect].
  assert (Session.published_to n [at_tables e] = []) as -> by (by destruct e as [[]| | |]).
  cbn [app]. destruct Hg as [->|(-> & -> & m & k & v & -> & Hm)]; [done|]. simpl.
  rewrite decide_False; [done|]. intros [_ ->]. congruence.
Qed.

Lemma move_server k kd held an e f rest this w o ws :
  let s := mkSystem this w o ((e, On_server f) :: rest) ws in
  ok k ((kd, held) :: an) s → ∃ s', move s = Done s' ∧ goes_on k kd an e (On_server f) rest s s'.
Proof.
  intros s (Hd & Hs & Hf & Hl & Hw)%ok_top. inversion Hs as [| | | | |? kd' ? ? ? Hin Hdone Hnext| | |]; subst.
  pose proof Hd as [Hwf Hfd _ Hap _].
  destruct (Hdone this w ltac:(reflexivity) Hwf Hfd) as (this' & w' & q & Hrun & Hc & Hgive).
  { intros ->. apply Hap. by apply list_elem_of_here. }
  specialize (Hnext this w _ _ _ ltac:(reflexivity) Hwf Hrun). pose proof (tables_extend _ _ _ _ _ Hc).
  unfold move. simpl. rewrite Hrun. eexists. split; [done|]. split; [done|]. split.
  - intros n. by eapply view_tables.
  - exists (kd' this), held, q. split; [done|]. split; [by apply pays_tables|]. apply ok_continue; try done.
    + eapply data_gives_up; [exact Hgive|]. by eapply data_tables.
    + by eapply frames_extend.
    + by eapply locks_extend.
    + eapply workers_stack; [by eapply workers_tables|]. apply top_notifies. by inversion 1.
Qed.

Lemma move_notify k kd held an e n next rest this w o ws :
  let s := mkSystem this w o ((e, Notify_all n next) :: rest) ws in
  ok k ((kd, held) :: an) s → ∃ s', move s = Done s' ∧ goes_on k kd an e (Notify_all n next) rest s s'.
Proof.
  intros s (Hd & Hs & Hf & Hl & Hw)%ok_top. inversion Hs; subst.
  eexists. split; [done|]. unfold wake, worker_at. simpl.
  assert (∀ ws', locks_ok this o ws' (held ++ concat an.*2) → workers_ok this ws' ((e, next) :: rest) →
    goes_on k kd an e (Notify_all n next) rest s (mkSystem this w o ((e, next) :: rest) ws')) as Hgo.
  { intros ws' Hl' Hw'. split; [reflexivity|]. split; [intros m; apply view_nothing|].
    exists kd, held, next. split; [done|]. split; [done|]. by apply ok_continue. }
  assert (∀ m (e0 : Session.happening) q, m ≠ n → (e0, q) ∈ (e, Notify_all n next) :: rest →
    notifies m q → ∃ e1 q1, (e1, q1) ∈ (e, next) :: rest ∧ notifies m q1) as Hothers.
  { intros m e0 q Hm [[= -> ->]|Hin]%elem_of_cons Hno; [inversion Hno; congruence|].
    exists e0, q. split; [by apply list_elem_of_further|done]. }
  destruct Hw as [Hw Ha].
  destruct (default Locks (ws !! n)) eqn:Hpc; try apply Hgo; try done; simpl.
  3: apply locks_worker_stays; [done|by rewrite Hpc].
  all: split; [intros m tp Htp|intros m Hm]; try (by apply Ha).
  all: destruct (decide (m = n)) as [->|Hne]; try (by eapply worker_stack; [by apply Hw|eauto]).
  all: try (specialize (Hw n tp Htp); rewrite Hpc in *; destruct Hw; by split).
  - specialize (Hw n tp Htp). rewrite default_insert, decide_True by done. rewrite Hpc in Hw.
    destruct Hw. by split.
  - rewrite default_insert, decide_False by done. eapply worker_stack; [by apply Hw|eauto].
  - specialize (Ha n Hm). by rewrite Ha in Hpc.
  - rewrite lookup_insert_ne by done. by apply Ha.
Qed.

Lemma move_join k kd held an e n next rest this w o ws :
  let s := mkSystem this w o ((e, Join n next) :: rest) ws in
  ok k ((kd, held) :: an) s → ∃ s', move s = Done s' ∧ goes_on k kd an e (Join n next) rest s s'.
Proof.
  intros s (Hd & Hs & Hf & Hl & Hw)%ok_top. inversion Hs; subst.
  eexists. split; [done|]. split; [reflexivity|]. split; [intros m; apply view_nothing|].
  exists kd, held, next. split; [done|]. split; [done|]. apply ok_continue; try done.
  eapply workers_stack; [done|]. apply top_notifies. by inversion 1.
Qed.

(** *** An access to a topic *)

Lemma outside_worker this o ws held n :
  locks_ok this o ws held → Topic_mutex n ∈ held → ¬ inside (default Locks (ws !! n)).
Proof.
  intros Hl Hin Hp. apply (locks_main _ _ _ _ Hl) in Hin. apply (locks_worker _ _ _ _ Hl) in Hp.
  congruence.
Qed.

Lemma worker_outside n tp tp' p e q q' rest :
  worker_ok n tp p ((e, q) :: rest) → ¬ inside p → ¬ notifies n q →
  Topic.worker_running tp' = Topic.worker_running tp →
  (Topic.stop_flag tp = true → Topic.stop_flag tp' = true) →
  (Topic.has_work tp' = true → Topic.has_work tp = true ∨ notifies n q') →
  worker_ok n tp' p ((e, q') :: rest).
Proof.
  intros [Ha Hl Hs Hz] Hp Hq Hr Hst Hw. split; [congruence|auto| |].
  - intros ->. by destruct Hp.
  - intros Hpc Hw'. destruct (Hw Hw') as [Hold|Hn].
    + destruct (Hz Hpc Hold) as (e0 & q0 & Hin & Hn). apply elem_of_cons in Hin as [[= -> ->]|Hin]; [done|].
      exists e0, q0. split; [by apply list_elem_of_further|done].
    + exists e, q'. split; [by apply list_elem_of_here|done].
Qed.

Lemma data_bound k kds this w n tp :
  0 ≤ k → data_ok k kds this w → Server.get_topic n this = Some tp → zlen (Topic.messages tp) < 2 ^ 32.
Proof.
  intros Hk [_ _ [_ Hroom] _ _] Hn. specialize (Hroom n tp Hn).
  assert (0 ≤ pending kds) by (clear; induction kds as [|[[]|] ? ?]; simpl; lia). lia.
Qed.

(** An operation that is due, for each part of the invariant. *)
Lemma op_changes e n o tp tp' this w w' :
  Server.wf this w → Server.get_topic n this = Some tp → zlen (Topic.messages tp) < 2 ^ 32 →
  Session.does e n o → Topic.run_op o tp w = Done (tp', w') →
  match o with Topic.Op_run | Topic.Op_shutdown => False | _ => True end →
  Topic.wf tp' w' ∧ zlen (Topic.messages tp') = zlen (Topic.messages tp) + Topic.appended [o] ∧
  Topic.isolated (Topic.subs tp) w (Topic.subs tp') w' ∧
  Topic.stop_flag tp' = Topic.stop_flag tp ∧ Topic.worker_running tp' = Topic.worker_running tp ∧
  ∀ m, Session.topic_step e m (view m this, w) (view m (Server.set_topic n tp' this), w').
Proof.
  intros Hwf Hn Hlen Hdo Hrunop Ho.
  destruct (Topic.run_op_facts o tp w (Server.wf_topic _ _ Hwf n tp Hn) (Session.does_valid _ _ _ Hdo) Hlen)
    as (tp2 & w2 & Hrun2 & Hwf2 & Hl2 & Hiso & _).
  rewrite Hrunop in Hrun2. injection Hrun2 as <- <-.
  destruct (run_op_flags o tp w tp' w' Ho Hrunop) as [Hst' Hwr']. split_and!; try done.
  intros m. eapply view_topic; [done|done|done|by apply seen_run_op|apply Hiso].
Qed.

(** What a change of a topic amounts to, for each part of the invariant. *)
Lemma topic_changes_facts k e kd kds n tp w kd' tp' w' q this :
  0 ≤ k → data_ok k (kd :: kds) this w → Server.get_topic n this = Some tp → knows this tp' →
  Topic.worker_running tp = negb (Topic.stop_flag tp) ∨ Topic.stop_flag tp = true →
  topic_changes e kd n tp w kd' tp' w' q →
  data_ok k (kd' :: kds) (Server.set_topic n tp' this) w' ∧
  Topic.worker_running tp' = Topic.worker_running tp ∧
  (Topic.stop_flag tp = true → Topic.stop_flag tp' = true) ∧
  (Topic.has_work tp' = true → Topic.has_work tp = true ∨ notifies n q) ∧
  (∀ m, Session.published_to m [e] ++ owes m e kd' = owes m e kd) ∧
  ∀ m, Session.topic_step e m (view m this, w) (view m (Server.set_topic n tp' this), w').
Proof.
  intros Hk Hd Hn Hknow Hrun Hc. pose proof (data_bound _ _ _ _ _ _ Hk Hd Hn) as Hlen.
  pose proof (data_wf _ _ _ _ Hd) as Hwf. pose proof (Server.wf_topic _ _ Hwf n tp Hn) as Hwtp.
  pose proof (data_stacked _ _ _ _ Hd) as Hst.
  assert (∀ kd2, (∃ b, kd = Handling b ∧ kd2 = Handling false) →
    stacked (kd2 :: kds) ∧ (Stopping true ∈ kd2 :: kds → False)) as Hhandling.
  { intros kd2 (b & -> & ->). destruct kds as [|kd3 kds]; [|done]. split; [done|].
    by intros ?%list_elem_of_singleton. }
  destruct Hc as [key v tp' w' q -> Hdo Hrunop Hno|o tp' w' q -> Hdo Ho Hrunop Hwork
    |armed tp' w' q -> -> Hstop Hoff Hno|armed q -> -> Hstop].
  - destruct (op_changes _ _ _ _ _ _ _ _ Hwf Hn Hlen Hdo Hrunop I) as (Hwf' & Hl & Hiso & Hs' & Hr' & Hv).
    destruct (Hhandling (Handling false)) as [Hst' Hno']; [by eexists|].
    split_and!; [|done|congruence|by right|intros m; by rewrite app_nil_r|done].
    eapply data_set_topic; try done; cbn [pending Topic.appended] in *; [lia|lia].
  - destruct (op_changes _ _ _ _ _ _ _ _ Hwf Hn Hlen Hdo Hrunop)
      as (Hwf' & Hl & Hiso & Hs' & Hr' & Hv); [by destruct o|].
    destruct (Hhandling (Handling false)) as [Hst' Hno']; [by eexists|].
    split_and!; [|done|congruence|done|by inversion Hdo; subst|done].
    assert (Topic.appended [o] = 0) as Happ by (by destruct o). rewrite Happ in Hl.
    eapply data_set_topic; try done; lia.
  - destruct (Topic.sign_off_facts tp w Hwtp) as (subs' & w2 & tr & Hoff2 & Hwf' & He & Hiso & _).
    assert (Topic.worker_running tp = true) as Hr by (by destruct Hrun as [Hr|?]; [rewrite Hr, Hstop|congruence]).
    pose proof (seen_sign_off tp w tp' w' Hr Hstop Hoff) as Hseen.
    rewrite Hoff in Hoff2. injection Hoff2 as -> <-. split_and!; try done; [|by right|].
    + eapply data_set_topic; [exact Hd|done|apply Hwf'| |done|simpl; lia|lia|done|].
      * unfold Topic.subs at 2. cbn [Topic.subscribers]. by rewrite He.
      * intros Hin. split; [done|]. intros x (id & s & Hs & _). unfold Topic.subs in Hs.
        cbn [Topic.subscribers] in Hs. by rewrite He, lookup_empty in Hs.
    + intros m. eapply view_topic; [done|done|constructor|exact Hseen|apply Hiso].
  - split_and!; try done; [|by left|].
    + eapply data_set_topic; [exact Hd|done|done| |done|lia|lia|done|done].
      apply Topic.isolated_shrink; [apply touches_refl|done].
    + intros m. eapply view_topic; [done|done|constructor| |apply touches_refl].
      unfold seen, with_worker. cbn. unfold Topic.shutdown. cbn. by rewrite Hstop.
Qed.

Lemma move_topic k kd held an e n f rest this w o ws :
  0 ≤ k →
  let s := mkSystem this w o ((e, On_topic n f) :: rest) ws in
  ok k ((kd, held) :: an) s → ∃ s', move s = Done s' ∧ goes_on k kd an e (On_topic n f) rest s s'.
Proof.
  intros Hk s (Hd & Hs & Hf & Hl & Hw)%ok_top.
  inversion Hs as [| | | | | |? kd' ? ? ? ? Hin [tp Hn] Hdone Hnext| |]; subst.
  pose proof (data_wf _ _ _ _ Hd) as Hwf.
  destruct (Hdone this tp w ltac:(reflexivity) Hwf Hn) as (tp' & w' & q & Hrun & Hc & Hknow).
  specialize (Hnext this tp w _ _ _ ltac:(reflexivity) Hwf Hn Hrun).
  assert (Topic_mutex n ∈ held ++ concat an.*2) as Hin' by (apply elem_of_app; by left).
  pose proof (outside_worker _ _ _ _ n Hl Hin') as Hout.
  pose proof (proj1 Hw n tp Hn) as Hwn.
  destruct (topic_changes_facts k e kd an.*1 n tp w kd' tp' w' q this Hk Hd Hn Hknow)
    as (Hd' & Hr & Hst & Hwork & Hpays & Hv); [|done|].
  { destruct (Topic.stop_flag tp) eqn:Hst; [by right|left]. rewrite (worker_alive _ _ _ _ Hwn).
    destruct (alive _) eqn:Ha; [done|]. by rewrite (worker_left _ _ _ _ Hwn Ha) in Hst. }
  assert (extends this (Server.set_topic n tp' this)) as Hx by (eapply extends_set_topic; [apply Hwf|done|done]).
  unfold move. simpl. rewrite Hn. simpl. rewrite Hrun. eexists. split; [done|].
  split; [done|]. split; [done|]. exists kd', held, q. split; [done|]. split; [intros m _; apply Hpays|]. apply ok_continue; try done.
  - by eapply frames_extend.
  - by eapply locks_extend.
  - eapply workers_set_topic; [apply Hwf|done|done|done| |].
    + eapply worker_outside; [done|done|by inversion 1|done|done|done].
    + intros m e0 q0 _. apply top_notifies. by inversion 1.
Qed.

(** Whatever the main thread is about to do, it does. *)
Lemma main_moves_ok k kd held an e q rest s :
  0 ≤ k → ok k ((kd, held) :: an) s → stack s = (e, q) :: rest → main_can_move s = true →
  ∃ s', move s = Done s' ∧ goes_on k kd an e q rest s s'.
Proof.
  destruct s as [this w o st ws]. simpl. intros Hk Hok -> Hcan. destruct q.
  - by eapply move_return.
  - by eapply move_lock.
  - by eapply move_unlock.
  - by eapply move_calls.
  - by eapply move_running.
  - by eapply move_server.
  - by eapply move_topic.
  - by eapply move_notify.
  - by eapply move_join.
Qed.

(** ** The workers *)

Lemma serve_facts tp w :
  Topic.wf tp w → zlen (Topic.messages tp) < 2 ^ 32 →
  Topic.worker_running tp = true → Topic.has_work tp = true →
  ∃ tp' w', Topic.pass tp w = Done (tp', w') ∧ Topic.wf tp' w' ∧
    Topic.messages tp' = Topic.messages tp ∧ Topic.stop_flag tp' = Topic.stop_flag tp ∧
    Topic.worker_running tp' = negb (Topic.stop_flag tp) ∧
    Topic.isolated (Topic.subs tp) w (Topic.subs tp') w' ∧
    (∀ id, is_Some (Topic.subs tp' !! id) → is_Some (Topic.subs tp !! id)) ∧
    (∀ x, Topic.owns (Topic.subs tp') x → Topic.owns (Topic.subs tp) x).
Proof.
  intros Hwf Hlen Hr Hw.
  destruct (Topic.run_step_facts tp w Hwf Hlen) as (tp' & w' & Hrun & Hwf' & Hm & Hst & Hr' & Hiso & _).
  pose proof (λ id, Topic.run_step_ids tp w tp' w' id Hwf Hlen Hrun) as Hids.
  unfold Topic.run_step in Hrun. rewrite Hr, Hw in Hrun. simpl in Hrun. rewrite Hr in Hr'.
  exists tp', w'. split_and!; try done. intros x. destruct (Topic.stop_flag tp) eqn:Hstop.
  - unfold Topic.pass in Hrun. rewrite Hstop in Hrun. by injection Hrun as <- _.
  - destruct (Topic.pass_facts tp w Hwf Hlen Hstop) as (subs' & w2 & Hrun2 & _ & Hres).
    rewrite Hrun in Hrun2. injection Hrun2 as -> _. by eapply Topic.pass_result_owns.
Qed.

(** A step of another thread than the main thread. *)
Definition beside (c : choice) (k : Z) (an : list (kind * list mutex)) (s s' : t) : Prop :=
  extends (server s) (server s') ∧ Server.running (server s') = Server.running (server s) ∧
  stack s' = stack s ∧ ok k an s' ∧
  ∀ m, Session.topic_step (happens c s) m
         (view m (server s), world_of s) (view m (server s'), world_of s').

(** A worker that goes on without having touched any data. *)
Lemma beside_worker c k an n tp p o' s :
  ok k an s → Server.get_topic n (server s) = Some tp → happens c s = Session.Listens →
  locks_ok (server s) o' (<[n := p]> (workers s)) (concat an.*2) → worker_ok n tp p (stack s) →
  beside c k an s (set_worker n p (with_owner o' s)).
Proof.
  destruct s as [this w o st ws]. intros Hok Hn Hc Hl Hp.
  split; [reflexivity|]. split; [done|]. split; [done|].
  pose proof (ok_workers _ _ _ Hok) as Hw. destruct Hok as [Hd Hf _ _ _]. split.
  - apply ok_intro; try done. by eapply workers_set.
  - rewrite Hc. intros m. apply view_nothing.
Qed.

Lemma worker_serves_ok k an n tp s :
  0 ≤ k → ok k an s → Server.get_topic n (server s) = Some tp → worker_at n s = Serves →
  ∃ s', worker_move n s = Done s' ∧ beside (Worker_moves n) k an s s'.
Proof.
  destruct s as [this w o st ws]. intros Hk Hok Hn Hpc. unfold worker_at in Hpc. simpl in *.
  pose proof (ok_workers _ _ _ Hok) as Hw. destruct Hok as [Hd Hf Hl Hwn _]. simpl in *.
  specialize (Hwn n tp Hn). unfold worker_at in Hwn. simpl in Hwn. rewrite Hpc in Hwn.
  pose proof (worker_alive _ _ _ _ Hwn) as Hr. pose proof (worker_serves _ _ _ _ Hwn eq_refl) as Hwork.
  pose proof (data_wf _ _ _ _ Hd) as Hwf.
  destruct (serve_facts tp w (Server.wf_topic _ _ Hwf n tp Hn) (data_bound _ _ _ _ _ _ Hk Hd Hn) Hr Hwork)
    as (tp' & w' & Hpass & Hwf' & Hm & Hst & Hr' & Hiso & Hids & Howns).
  assert (extends this (Server.set_topic n tp' this)) as Hx
    by (eapply extends_set_topic; [apply Hwf|done|congruence]).
  unfold worker_move, worker_at. simpl. rewrite Hn. simpl. rewrite Hpc, Hpass. eexists. split; [done|].
  do 3 (split; [done|]). split; [apply ok_intro|].
  - apply (data_set_topic _ _ _ _ _ _ _ _ _ _ Hd Hn Hwf' Hiso); try done.
    + intros id Hin. apply (Server.wf_known _ _ Hwf n tp id Hn). auto.
    + rewrite Hm. lia.
    + apply Hd.
  - by eapply frames_extend.
  - apply locks_worker_stays; [by eapply locks_extend|].
    simpl. rewrite Hpc. by destruct (Topic.stop_flag tp).
  - apply (workers_set_topic n tp tp' this ws _ st st (Server.wf_topics _ _ Hwf) Hw Hn).
    + intros m Hne. by rewrite lookup_insert_ne.
    + rewrite default_insert, decide_True by done. split; simpl; try done.
      * rewrite Hst. by destruct (Topic.stop_flag tp).
    + eauto.
  - intros m. unfold happens, enabled, worker_can_move, worker_at. simpl. rewrite Hn, Hpc. simpl.
    eapply view_topic; [done|done|constructor|by apply seen_pass|apply Hiso].
Qed.

(** Whatever a worker is about to do, it does. *)
Lemma worker_moves_ok k an n s :
  0 ≤ k → ok k an s → worker_can_move n s = true →
  ∃ s', worker_move n s = Done s' ∧ beside (Worker_moves n) k an s s'.
Proof.
  intros Hk Hok Hcan. destruct (worker_at n s) as [| | | |b|] eqn:Hpc; unfold worker_can_move in Hcan;
    destruct (Server.get_topic n (server s)) as [tp|] eqn:Hn; rewrite ?Hpc in Hcan; try done.
  3: by eapply worker_serves_ok.
  all: pose proof (ok_worker _ _ _ Hok n tp Hn) as Hwn; rewrite Hpc in Hwn.
  all: pose proof (ok_locks _ _ _ Hok) as Hl.
  all: assert (happens (Worker_moves n) s = Session.Listens) as Hc
    by (unfold happens; simpl; rewrite Hpc; by destruct (negb _)).
  all: unfold worker_move; rewrite Hn; simpl; rewrite Hpc.
  - eexists. split; [done|]. apply bool_decide_eq_true in Hcan.
    eapply beside_worker; [done|done|done| |destruct Hwn; by split]. by apply locks_worker_takes.
  - destruct (Topic.has_work tp) eqn:Hw; (eexists; split; [done|]).
    + replace (set_worker n Serves s) with (set_worker n Serves (with_owner (owner s) s)) by by destruct s.
      eapply beside_worker; [done|done|done| |destruct Hwn; by split].
      apply locks_worker_stays; [done|]. unfold worker_at in Hpc. by rewrite Hpc.
    + eapply beside_worker; [done|done|done| |destruct Hwn; split; try done; congruence].
      apply locks_worker_drops; [done| |by intros []]. unfold worker_at in Hpc. by rewrite Hpc.
  - eexists. split; [done|].
    eapply beside_worker; [done|done|done| |].
    + apply locks_worker_drops; [done| |by destruct b; intros []]. unfold worker_at in Hpc. by rewrite Hpc.
    + destruct Hwn as [Ha Hle _ _]. by destruct b; split.
Qed.

Lemma worker_wakes_ok k an n s :
  ok k an s → worker_at n s = Asleep → beside (Wakes n) k an s (set_worker n Locks s).
Proof.
  intros Hok Hpc. destruct (Server.get_topic n (server s)) as [tp|] eqn:Hn.
  - pose proof (ok_worker _ _ _ Hok n tp Hn) as Hwn. rewrite Hpc in Hwn.
    replace (set_worker n Locks s) with (set_worker n Locks (with_owner (owner s) s)) by by destruct s.
    eapply beside_worker; [done|done| | |destruct Hwn; by split].
    + unfold happens. by destruct (negb _).
    + apply locks_worker_stays; [apply Hok|]. unfold worker_at in Hpc. by rewrite Hpc.
  - apply (ok_absent _ _ _ Hok) in Hn. unfold worker_at in Hpc. by rewrite Hn in Hpc.
Qed.

(** ** Schedules *)

(** Requests that fit into frames, and how many messages they publish. *)
Definition admitted (c : choice) : Prop :=
  match c with Handles r => Server.sendable r | _ => True end.

Definition cost (c : choice) : Z :=
  match c with Handles r => if publishes r then 1 else 0 | _ => 0 end.

Fixpoint published (cs : list choice) : Z :=
  match cs with [] => 0 | c :: cs => cost c + published cs end.

Lemma cost_nonneg c : 0 ≤ cost c.
Proof. destruct c as [| | | |r|]; simpl; try done. by destruct (publishes r). Qed.

Lemma published_choices_nonneg cs : 0 ≤ published cs.
Proof. induction cs as [|c cs]; simpl; [done|]. pose proof (cost_nonneg c). lia. Qed.

Lemma published_choices_app cs cs' : published (cs ++ cs') = published cs + published cs'.
Proof. induction cs as [|c cs IH]; simpl; [done|]. rewrite IH. lia. Qed.

Lemma ok_less k k' an s : k' ≤ k → ok k an s → ok k' an s.
Proof.
  intros Hle [[Hwf Hf Hr Ha Hs] Hfr Hl Hw Habs]. split; try done. split; try done.
  eapply Session.room_weaken; [|exact Hr]. lia.
Qed.

(** How a step changes the stack: a program goes on or returns, or another is put on top. *)
Inductive continues (c : choice)
    : list (Session.happening * prog) → list (kind * list mutex) →
      list (Session.happening * prog) → list (kind * list mutex) → Prop :=
| continues_same st an : continues c st an st an
| continues_top fr a fr' a' st an : continues c (fr :: st) (a :: an) (fr' :: st) (a' :: an)
| continues_return fr a st an : continues c (fr :: st) (a :: an) st an
| continues_push fr kd st an :
    match c with Handles _ => st = [] | Signalled => True | _ => False end →
    continues c st an (fr :: st) ((kd, []) :: an).

(** What the programs on the stack still owe to topic [n]. *)
Fixpoint owed (n : str) (st : list (Session.happening * prog)) (an : list (kind * list mutex))
    : list (str * str) :=
  match st, an with
  | (e, _) :: st, (kd, _) :: an => owes n e kd ++ owed n st an
  | _, _ => []
  end.

(** What is taken up is published, or owed. *)
Definition accounts (c : choice) (s : t) (an : list (kind * list mutex)) (s' : t)
    (an' : list (kind * list mutex)) : Prop :=
  ∀ n, is_Some (Server.get_topic n (server s)) →
    Session.published_to n [happens c s] ++ owed n (stack s') an' =
    owed n (stack s) an ++ Session.published_to n (takes_up c s).

(** What a step leaves behind. *)
Definition advances (c : choice) (k : Z) (an : list (kind * list mutex)) (s s' : t) : Prop :=
  extends (server s) (server s') ∧
  (∃ an', ok k an' s' ∧ continues c (stack s) an (stack s') an' ∧ accounts c s an s' an') ∧
  ∀ m, Session.topic_step (happens c s) m
         (view m (server s), world_of s) (view m (server s'), world_of s').

Lemma accounts_aside c s an s' :
  stack s' = stack s → (∀ n, Session.published_to n [happens c s] = []) → takes_up c s = [] →
  accounts c s an s' an.
Proof. intros Hst Hh Ht n _. by rewrite Hst, Hh, Ht, app_nil_r. Qed.

Lemma beside_advances c k an s s' :
  match c with Worker_moves _ | Wakes _ => True | _ => False end →
  beside c k an s s' → advances c k an s s'.
Proof.
  intros Hc (? & _ & Hst & ? & ?). split_and!; [done| |done]. exists an. rewrite Hst.
  split_and!; [done|constructor|]. apply accounts_aside; [done| |by destruct c].
  intros n. unfold happens. destruct (negb _); [done|]. by destruct c as [|m| | | |]; [|case_match|..].
Qed.

Lemma advances_nothing c k an s :
  happens c s = Session.Listens → takes_up c s = [] → ok k an s → advances c k an s s.
Proof.
  intros Hc Ht Hok. split_and!; [done|exists an; split_and!; [done|constructor|]|].
  - apply accounts_aside; [done| |done]. intros n. by rewrite Hc.
  - rewrite Hc. intros m. apply view_nothing.
Qed.

(** The annotation of the program on top. *)
Lemma top_annotated k an s fr rest :
  ok k an s → stack s = fr :: rest → ∃ kd held an', an = (kd, held) :: an'.
Proof.
  intros [_ Hf _ _ _] Hst. rewrite Hst in Hf.
  apply Forall2_cons_inv_l in Hf as ([kd held] & an' & _ & _ & ->). eauto.
Qed.

Lemma main_advances k an s :
  0 ≤ k → ok k an s → main_can_move s = true →
  ∃ s', step Main_moves s = Done s' ∧ advances Main_moves k an s s'.
Proof.
  intros Hk Hok Hcan. unfold step, advances, happens. cbn [enabled]. rewrite Hcan. simpl.
  destruct (stack s) as [|[e q] rest] eqn:Hst; [unfold main_can_move in Hcan; by rewrite Hst in Hcan|].
  destruct (top_annotated _ _ _ _ _ Hok Hst) as (kd & held & an' & ->).
  destruct (main_moves_ok k kd held an' e q rest s Hk Hok Hst Hcan) as (s' & Hm & Hx & Hv & Hgo).
  exists s'. split_and!; [done|done| |done]. destruct q.
  1: destruct Hgo as (Hst' & Hkd & Hok'); eexists; rewrite Hst';
    (split_and!; [exact Hok'|constructor|]); intros n Hn; unfold happens; cbn [enabled];
    rewrite Hcan, Hst, Hst', app_nil_r; simpl; by destruct kd as [[]|].
  all: destruct Hgo as (kd' & held' & q' & Hst' & Hpays & Hok'); eexists; rewrite Hst';
    (split_and!; [exact Hok'|constructor|]); intros n Hn; unfold happens; cbn [enabled];
    rewrite Hcan, Hst, Hst', app_nil_r; cbn [negb owed]; by rewrite <- (Hpays n Hn), <- (assoc_L (++)).
Qed.

Lemma listens_advances k an s :
  ok k an s → ∃ s', step Listens s = Done s' ∧ advances Listens k an s s'.
Proof.
  intros Hok. destruct (idle s) eqn:Hi; unfold step; cbn [enabled]; rewrite Hi; simpl.
  2: { eexists. split; [done|]. eapply advances_nothing; [|done..]. unfold happens. simpl. by rewrite Hi. }
  destruct (data_fifo _ _ _ _ (ok_data _ _ _ Hok)) as [fd ->]. eexists. split; [done|].
  pose proof (touches_read (λ _, False) fd 1024 (world_of s)) as Hq. split_and!; [done| |].
  - exists an. split_and!; [|constructor|].
    + destruct Hok as [Hd Hf Hl Hw Ha]. split; try done. by eapply data_quiet.
    + apply accounts_aside; [done| |done]. intros n. unfold happens. simpl. by rewrite Hi.
  - intros m. unfold happens. simpl. rewrite Hi.
    eapply (view_aside (λ _, False)); [exact Hq|done|done|by right].
Qed.

Lemma handles_advances k r an s :
  Server.sendable r → ok (cost (Handles r) + k) an s →
  ∃ s', step (Handles r) s = Done s' ∧ advances (Handles r) k an s s'.
Proof.
  intros Hr Hok. assert (happens (Handles r) s = Session.Listens) as Hc
    by (unfold happens; by destruct (negb _)).
  destruct (idle s) eqn:Hi; unfold step; cbn [enabled]; rewrite Hi; simpl.
  2: { eexists. split; [done|]. eapply advances_nothing; [done|simpl; by rewrite Hi|].
       eapply ok_less; [|done]. pose proof (cost_nonneg (Handles r)). lia. }
  eexists. split; [done|]. unfold idle in Hi. destruct s as [this w o st ws]. simpl in *.
  destruct st as [|]; [|done]. split_and!; [done| |].
  - exists [(Handling (publishes r), [])]. pose proof (ok_workers _ _ _ Hok) as Hw.
    destruct Hok as [[Hwf Hfd Hroom _ _] Hf Hl _ _]. simpl in *.
    apply Forall2_nil_inv_l in Hf as ->. split_and!; [|by apply continues_push|].
    2: { intros n _. rewrite Hc. simpl. destruct r as [| | | |m key v| | |]; try done. simpl.
         destruct (decide (m = [])) as [->|Hm]; [done|]. rewrite bool_decide_false by done. simpl.
         by rewrite app_nil_r. }
    apply ok_intro; try done.
    + split; try done. by intros ?%list_elem_of_singleton.
    + constructor; [by apply handle_safe|constructor].
    + eapply workers_stack; [done|]. by intros ? ? ? ?%elem_of_nil.
  - rewrite Hc. intros m. apply view_nothing.
Qed.

Lemma signal_ok k an s :
  ok k an s →
  ok k ((Stopping false, []) :: an)
    (with_stack ((Session.Stops, stop (Server.server_path (server s))) :: stack s) s).
Proof.
  destruct s as [this w o st ws]. intros Hok. pose proof (ok_workers _ _ _ Hok) as Hw.
  destruct Hok as [[Hwf Hfd Hroom Hap Hst] Hf Hl _ _]. simpl in *. apply ok_intro; try done.
  - split; try done.
    + intros [?|?]%elem_of_cons; [done|auto].
    + cbn [stacked fmap list_fmap fst]. by destruct an.
  - constructor; [apply stop_safe|done].
  - eapply workers_stack; [done|]. intros n e q Hin Hn. exists e, q.
    split; [by apply list_elem_of_further|done].
Qed.

Lemma signalled_advances k an s :
  ok k an s → ∃ s', step Signalled s = Done s' ∧ advances Signalled k an s s'.
Proof.
  intros Hok. eexists. split; [done|]. split_and!; [done| |].
  - exists ((Stopping false, []) :: an). split_and!; [by apply signal_ok|by apply continues_push|].
    intros n _. simpl. by rewrite app_nil_r.
  - intros m. apply view_nothing.
Qed.

(** Every step can be taken, and the system goes on. *)
Lemma step_ok c k an s :
  0 ≤ k → admitted c → ok (cost c + k) an s → ∃ s', step c s = Done s' ∧ advances c k an s s'.
Proof.
  intros Hk Hc Hok. destruct (enabled c s) eqn:He.
  2: { exists s. unfold step. rewrite He. split; [done|]. eapply advances_nothing.
       - unfold happens. by rewrite He.
       - destruct c; try done. simpl in *. by rewrite He.
       - eapply ok_less; [|done]. pose proof (cost_nonneg c). lia. }
  destruct c as [|n|n| |r|]; simpl in Hok, He; try (rewrite Z.add_0_l in Hok).
  - by eapply main_advances.
  - destruct (worker_moves_ok k an n s Hk Hok He) as (s' & Hm & Hb). exists s'.
    split; [|by eapply (beside_advances (Worker_moves n))]. unfold step. simpl. by rewrite He.
  - exists (set_worker n Locks s). split; [unfold step; simpl; by rewrite He|].
    apply (beside_advances (Wakes n)), worker_wakes_ok; [done|done|]. by destruct (worker_at n s).
  - by eapply listens_advances.
  - by eapply handles_advances.
  - by eapply signalled_advances.
Qed.

Lemma schedule_ok cs k an s :
  0 ≤ k → Forall admitted cs → ok (published cs + k) an s →
  ∃ s' an', run cs s = Done s' ∧ ok k an' s' ∧ extends (server s) (server s') ∧
    (∀ n, is_Some (Server.get_topic n (server s)) →
       Session.published_to n (history cs s) ++ owed n (stack s') an' =
       owed n (stack s) an ++ Session.published_to n (handled cs s)) ∧
    ∀ n, Session.topic_run n (history cs s)
           (view n (server s), world_of s) (view n (server s'), world_of s').
Proof.
  intros Hk Hcs. revert an s. induction Hcs as [|c cs Hc _ IH]; intros an s Hok.
  - exists s, an. split_and!; [done|done|done|by intros; rewrite app_nil_r|]. intros n. constructor.
  - cbn [published] in Hok. rewrite <- Z.add_assoc in Hok. pose proof (published_choices_nonneg cs).
    destruct (step_ok c (published cs + k) an s ltac:(lia) Hc Hok)
      as (s1 & Hs & Hx & (an1 & Hok1 & _ & Hacc) & Hv).
    destruct (IH an1 s1 Hok1) as (s' & an' & Hr & Hok' & Hx' & Hacc' & Hv'). exists s', an'.
    cbn [run history handled]. rewrite Hs. cbn [mbind outcome_bind]. split_and!; [done|done|by transitivity (server s1)| |].
    + intros n Hn. change (happens c s :: history cs s1) with ([happens c s] ++ history cs s1).
      rewrite !Session.published_to_app, <- (assoc_L (++)), Hacc' by (by eapply extends_some).
      rewrite (assoc_L (++)), Hacc by done. by rewrite <- (assoc_L (++)).
    + intros n. econstructor; [apply Hv|apply Hv'].
Qed.

(** The system between two requests. *)
Lemma start_ok k this w :
  Server.wf this w → is_Some (Server.fifo_fd this) → Session.all_serving this → Session.room k this →
  ok k [] (at_rest this w).
Proof.
  intros Hwf Hfd Hserv Hroom. apply ok_intro.
  - split; [done|done|done| |done]. by intros ?%elem_of_nil.
  - constructor.
  - split; [constructor| | | |]; intros *; rewrite lookup_empty; try done. by split; [|intros ?%elem_of_nil].
  - split; [|done]. intros n tp Hn. destruct (Hserv n tp Hn) as [_ Hr]. by split.
Qed.

(** What is seen of a topic whose worker is at work is the topic. *)
Lemma view_start this n : Session.all_serving this → view n this = Server.get_topic n this.
Proof.
  intros Hserv. unfold view. destruct (Server.get_topic n this) as [tp|] eqn:Hn; [|done]. simpl.
  destruct (Hserv n tp Hn) as [Hst Hr]. f_equal. unfold seen. rewrite Hr, Hst. destruct tp.
  simpl in *. by subst.
Qed.

(** *** Reachable states *)

(** A server with a FIFO whose workers are at work, and a schedule of requests that fit into
    frames and of messages for which its topics have room. *)
Record starts (cs : list choice) this w : Prop := {
  starts_wf : Server.wf this w;
  starts_fifo : is_Some (Server.fifo_fd this);
  starts_serving : Session.all_serving this;
  starts_admitted : Forall admitted cs;
  starts_room : Session.room (published cs) this
}.

Lemma starts_run cs this w :
  starts cs this w →
  ∃ s an, run cs (at_rest this w) = Done s ∧ ok 0 an s ∧ extends this (server s) ∧
    (∀ n, is_Some (Server.get_topic n this) →
       Session.published_to n (history cs (at_rest this w)) ++ owed n (stack s) an =
       Session.published_to n (handled cs (at_rest this w))) ∧
    ∀ n, Session.topic_run n (history cs (at_rest this w))
           (Server.get_topic n this, w) (view n (server s), world_of s).
Proof.
  intros [Hwf Hf Hserv Hcs Hroom].
  pose proof (start_ok _ _ _ Hwf Hf Hserv Hroom) as Hok. rewrite <- (Z.add_0_r (published cs)) in Hok.
  destruct (schedule_ok cs 0 [] _ ltac:(done) Hcs Hok) as (s & an & Hrun & Hok' & Hx & Hacc & Hv).
  exists s, an. split_and!; try done. intros n. rewrite <- (view_start this n Hserv). apply Hv.
Qed.

Lemma reached_ok cs this w s : starts cs this w → run cs (at_rest this w) = Done s → ∃ an, ok 0 an s.
Proof.
  intros Hst Hrun. destruct (starts_run cs this w Hst) as (s' & an & Hrun' & Hok & _ & _).
  rewrite Hrun in Hrun'. injection Hrun' as ->. by exists an.
Qed.

Lemma idle_annotated k an s : ok k an s → idle s = true → an = [].
Proof.
  intros [_ Hf _ _ _] Hi. unfold idle in Hi. destruct (stack s); [|done].
  by apply Forall2_nil_inv_l in Hf.
Qed.

Lemma handled_le n cs s : zlen (Session.published_to n (handled cs s)) ≤ published cs.
Proof.
  revert s. induction cs as [|c cs IH]; intros s; simpl; [by rewrite zlen_nil|].
  rewrite Session.published_to_app, zlen_app.
  assert (zlen (Session.published_to n (takes_up c s)) ≤ cost c) as Hc.
  { pose proof (cost_nonneg c) as Hpos. destruct c as [| | | |r|]; simpl in *; rewrite ?zlen_nil; try done.
    destruct (idle s); simpl; [|by rewrite zlen_nil]. destruct r as [| | | |m k v| | |]; simpl; try done.
    destruct (decide (m ≠ [] ∧ m = n)) as [[Hm _]|]; [|done]. by rewrite bool_decide_false. }
  destruct (step c s) as [s'| |]; simpl; rewrite ?zlen_nil; [specialize (IH s'); lia|..];
    pose proof (published_choices_nonneg cs); lia.
Qed.

(** What has become of a topic and of who subscribes to it. *)
Lemma reached_topic cs this w s n tp :
  starts cs this w → run cs (at_rest this w) = Done s → Server.get_topic n this = Some tp →
  ∃ an tp', ok 0 an s ∧ Server.get_topic n (server s) = Some tp' ∧
    Session.published_to n (history cs (at_rest this w)) ++ owed n (stack s) an =
      Session.published_to n (handled cs (at_rest this w)) ∧
    Topic.messages tp' = Topic.messages tp ++
      Session.stored (zlen (Topic.messages tp)) (Session.published_to n (history cs (at_rest this w))) ∧
    (Session.Stops ∉ history cs (at_rest this w) → Topic.stop_flag tp' = false) ∧
    ∀ id p fd start n0, Forall (Session.spares id) (history cs (at_rest this w)) → 0 ≤ fd →
      Topic.in_session id p fd start n0 (Topic.subs tp) (Topic.messages tp) w →
      Topic.in_session id p fd start n0 (Topic.subs tp') (Topic.messages tp') (world_of s).
Proof.
  intros Hst Hrun Hn. destruct (starts_run cs this w Hst) as (s' & an & Hrun' & Hok & _ & Hacc & Hv).
  rewrite Hrun in Hrun'. injection Hrun' as <-. specialize (Hacc n ltac:(by eexists)).
  destruct Hst as [Hwf _ Hserv _ [_ Hroom]]. specialize (Hroom n tp Hn). specialize (Hv n). rewrite Hn in Hv.
  pose proof (handled_le n cs (at_rest this w)) as Hle. rewrite <- Hacc, zlen_app in Hle. zlen_facts.
  destruct (Session.topic_run_facts n _ tp w _ _ Hv) as (tp2 & Hview & _ & Hm & Hserv2 & Hses);
    [by eapply Server.wf_topic|lia|].
  unfold view in Hview. destruct (Server.get_topic n (server s)) as [tp'|]; [|done].
  injection Hview as <-. exists an, tp'. split_and!; try done. intros Hno. by apply Hserv2; [|eapply Hserv].
Qed.

(** *** What programs run for *)

Lemma move_frames s s' e q :
  move s = Done s' → (e, q) ∈ stack s' → ∃ q0, (e, q0) ∈ stack s.
Proof.
  unfold move. destruct (stack s) as [|[e0 q0] rest] eqn:Hst.
  - intros [= <-]. rewrite Hst. by intros ?%elem_of_nil.
  - assert (∀ q1, (e, q) ∈ (e0, q1) :: rest → ∃ q2, (e, q2) ∈ (e0, q0) :: rest) as Htop.
    { intros q1 [[= -> ->]|Hin]%elem_of_cons; [exists q0; by apply list_elem_of_here|].
      exists q. by apply list_elem_of_further. }
    destruct q0; simpl.
    + intros [= <-] Hin. exists q. by apply list_elem_of_further.
    + intros [= <-]. apply Htop.
    + intros [= <-]. apply Htop.
    + intros ([w' q1] & _ & [= <-])%bind_Done. apply Htop.
    + destruct (f _) as [b q1]. intros [= <-]. apply Htop.
    + intros ([[this' w'] q1] & _ & [= <-])%bind_Done. apply Htop.
    + intros (tp & _ & ([[tp' w'] q1] & _ & [= <-])%bind_Done)%bind_Done. apply Htop.
    + intros [= <-]. apply Htop.
    + intros [= <-]. apply Htop.
Qed.

Lemma worker_frames n s s' : worker_move n s = Done s' → stack s' = stack s.
Proof.
  unfold worker_move. intros (tp & _ & Hm)%bind_Done. destruct (worker_at n s).
  - by injection Hm as <-.
  - destruct (Topic.has_work tp); by injection Hm as <-.
  - by injection Hm as <-.
  - by apply bind_Done in Hm as ([tp' w'] & _ & [= <-]).
  - by injection Hm as <-.
  - by injection Hm as <-.
Qed.

(** What a choice brings in. *)
Definition brings (c : choice) (e : Session.happening) : Prop :=
  match c with Handles r => e = Session.Requests r | Signalled => e = Session.Stops | _ => False end.

Lemma step_frames c s s' e q :
  step c s = Done s' → (e, q) ∈ stack s' → brings c e ∨ ∃ q0, (e, q0) ∈ stack s.
Proof.
  unfold step. destruct (negb _); [intros [= <-] Hin; right; by exists q|].
  destruct c as [|n|n| |r|]; simpl.
  - intros Hm Hin. right. by eapply move_frames.
  - intros Hm%worker_frames. rewrite Hm. right. by exists q.
  - intros [= <-]. right. by exists q.
  - intros (fd & _ & [= <-])%bind_Done. right. by exists q.
  - intros [= <-] [= -> ->]%list_elem_of_singleton. by left.
  - intros [= <-] [[= -> ->]|Hin]%elem_of_cons; [by left|right; by exists q].
Qed.

Lemma history_all (P : Session.happening → Prop) cs s :
  P Session.Listens → (∀ n, P (Session.Works n)) →
  (∀ c e, c ∈ cs → brings c e → P e) → (∀ e q, (e, q) ∈ stack s → P e) →
  Forall P (history cs s).
Proof.
  intros Hl Hw. revert s. induction cs as [|c cs IH]; intros s Hcs Hst; simpl; [constructor|].
  constructor.
  - unfold happens. destruct (negb _); [done|]. destruct c as [|n|n| |r|]; try done.
    + destruct (stack s) as [|[e q] rest]; [done|].
      assert (P e) as He by (apply (Hst e q); by apply list_elem_of_here).
      destruct q; simpl; try done. by destruct e as [[]| | |].
    + by destruct (worker_at n s).
  - destruct (step c s) as [s'| |] eqn:Hs; [|constructor..]. apply IH.
    + intros c' e Hin. apply Hcs. by apply list_elem_of_further.
    + intros e q Hin. destruct (step_frames c s s' e q Hs Hin) as [Hb|(q0 & Hin0)]; [|by eapply Hst].
      eapply Hcs; [by apply list_elem_of_here|done].
Qed.

(** *** Who is where *)

Lemma reaches_held e kd held this q m : safe e kd held this q → reaches q = Some m → m ∈ held.
Proof. by destruct 1; intros [= <-]. Qed.

Lemma frame_holds this st an i e q m :
  frames_ok this st an → st !! i = Some (e, q) → reaches q = Some m →
  ∃ kd held, an !! i = Some (kd, held) ∧ m ∈ held.
Proof.
  intros Hf Hi Hm. destruct (Forall2_lookup_l _ _ _ _ _ Hf Hi) as ([kd held] & Ha & Hs).
  exists kd, held. split; [done|]. by eapply reaches_held.
Qed.

Lemma held_somewhere (an : list (kind * list mutex)) i kd held m :
  an !! i = Some (kd, held) → m ∈ held → m ∈ concat an.*2.
Proof.
  intros Ha Hin. apply elem_of_concat. exists i, held. by rewrite list_lookup_fmap, Ha.
Qed.

Lemma held_apart (an : list (kind * list mutex)) i j kd kd' held held' m :
  NoDup (concat an.*2) → an !! i = Some (kd, held) → an !! j = Some (kd', held') →
  m ∈ held → m ∈ held' → i = j.
Proof.
  revert i j. induction an as [|[kd0 held0] an IH]; intros i j; [done|]. simpl.
  intros (_ & Hd & Hn)%NoDup_app.
  destruct i as [|i], j as [|j]; simpl; [done| | |].
  - intros [= -> ->] Hj Hin Hin'. destruct (Hd m Hin). by eapply held_somewhere.
  - intros Hi [= -> ->] Hin Hin'. destruct (Hd m Hin'). by eapply held_somewhere.
  - intros Hi Hj Hin Hin'. f_equal. by apply IH.
Qed.

(** ** Properties *)

(** C6: Threads are linearizable: whatever the schedule of the accesses of the main thread and
    of all workers, of spurious wake-ups, of requests and of signals in the middle of
    anything, nothing is undefined, the invariant of the server holds after every access,
    and to each topic all of it is a sequence of whole operations, one after the other,
    each in effect at one access of the thread that runs it. *)
Theorem threads_operate_topics (cs : list choice) this w (Hstart : starts cs this w) :
  ∃ s, run cs (at_rest this w) = Done s ∧ Server.wf (server s) (world_of s) ∧
    ∀ n, Session.topic_run n (history cs (at_rest this w))
           (Server.get_topic n this, w) (view n (server s), world_of s).
Proof.
  destruct (starts_run cs this w Hstart) as (s & an & Hrun & Hok & _ & _ & Hv).
  exists s. split_and!; [done|apply Hok|done].
Qed.

(** C4: A message is appended exactly once: whatever the schedule of threads, wake-ups and signals,
    when the main thread is back in its loop a topic holds what it held at first and then,
    in order and under the offsets that follow, the messages of the requests to publish to
    it that the main thread has taken up; none is lost, repeated or overtaken. *)
Theorem messages_are_appended_once (cs : list choice) this w (s : t) (n : str) tp
    (Hstart : starts cs this w) (Hrun : run cs (at_rest this w) = Done s) (Hidle : idle s = true)
    (Htopic : Server.get_topic n this = Some tp) :
  ∃ tp', Server.get_topic n (server s) = Some tp' ∧
    Topic.messages tp' = Topic.messages tp ++
      Session.stored (zlen (Topic.messages tp))
        (Session.published_to n (handled cs (at_rest this w))).
Proof.
  destruct (reached_topic cs this w s n tp Hstart Hrun Htopic)
    as (an & tp' & Hok & Hn & Hacc & Hm & _).
  rewrite (idle_annotated _ _ _ Hok Hidle) in Hacc. exists tp'. split; [done|].
  rewrite <- Hacc, Hm. unfold idle in Hidle. destruct (stack s); [|done]. simpl. by rewrite app_nil_r.
Qed.

(** C10: There are no data races: whatever the schedule, a program on the stack of the main
    thread that is about to reach the tables of the server or a topic owns the mutex of
    them, no other program on the stack, interrupted by it or interrupting it, is about to
    reach the same, and no worker is in its critical section then; and a worker that is
    there owns the mutex of its topic. *)
Theorem accesses_are_exclusive (cs : list choice) this w (s : t)
    (Hstart : starts cs this w) (Hrun : run cs (at_rest this w) = Done s) :
  (∀ i e q m, stack s !! i = Some (e, q) → reaches q = Some m →
     owner s !! m = Some Main_thread ∧
     (∀ j e' q', stack s !! j = Some (e', q') → reaches q' = Some m → j = i) ∧
     ∀ n, m = Topic_mutex n → ¬ inside (worker_at n s)) ∧
  ∀ n, inside (worker_at n s) → owner s !! Topic_mutex n = Some (Worker_of n).
Proof.
  destruct (reached_ok cs this w s Hstart Hrun) as [an [Hd Hf Hl _ _]].
  split; [|intros n; apply (locks_worker _ _ _ _ Hl)]. intros i e q m Hi Hm.
  destruct (frame_holds _ _ _ _ _ _ _ Hf Hi Hm) as (kd & held & Ha & Hin).
  pose proof (held_somewhere _ _ _ _ _ Ha Hin) as Hin'.
  split_and!; [by apply (locks_main _ _ _ _ Hl)| |].
  - intros j e' q' Hj Hm'. destruct (frame_holds _ _ _ _ _ _ _ Hf Hj Hm') as (kd' & held' & Ha' & Hin2).
    by eapply held_apart; [apply Hl|..].
  - intros n ->. by eapply outside_worker.
Qed.

End Theory.

(** ** Witnesses *)

Module Witness.

Import World.Simple PrefixTree.Witness Topic.Witness Server.Witness.

(** What can be checked of the topics in the table. *)
Definition fresh (this : Server.t) : bool :=
  forallb (λ entry, match entry.2 with
                    | Some tp => negb (Topic.stop_flag tp) && Topic.worker_running tp &&
                                 (zlen (Topic.messages tp) + 1000 <? 2 ^ 32)
                    | None => true
                    end) (HashMap.entries (Server.topics this)).

Lemma fresh_starts cs this w :
  Server.wf this w → is_Some (Server.fifo_fd this) → fresh this = true →
  Forall admitted cs → published cs < 1000 → starts cs this w.
Proof.
  intros Hwf Hf Hall Hcs Hp.
  assert (∀ n tp, Server.get_topic n this = Some tp →
    Topic.serving tp ∧ zlen (Topic.messages tp) + 1000 < 2 ^ 32) as Htopics.
  { intros n tp Hn%Server.get_topic_Some. rewrite <- HashMap.entries_elem_of in Hn by apply Hwf.
    unfold fresh in Hall. rewrite forallb_forall in Hall.
    specialize (Hall (n, Some tp) ltac:(by apply list_elem_of_In)). simpl in Hall.
    apply andb_prop in Hall as [[Hst Hr]%andb_prop Hlt%Z.ltb_lt].
    split; [split; [by apply negb_true_iff|done]|done]. }
  split; [done|done| |done|].
  - intros n tp Hn. by apply (Htopics n).
  - split; [lia|]. intros n tp Hn. destruct (Htopics n tp Hn). lia.
Qed.

(** The server of [Server.Witness]: the worker takes its lock, a message is published while
    it has it, and a signal comes when the main thread has published it. *)
Definition schedule : list choice :=
  [Worker_moves $"news"; Handles (Protocol.Req_produce $"news" $"eu.fr" $"2"); Main_moves;
   Main_moves; Main_moves; Main_moves; Main_moves; Worker_moves $"news"; Worker_moves $"news";
   Worker_moves $"news"; Main_moves; Main_moves; Signalled; Main_moves; Main_moves; Main_moves].

Lemma served_starts cs :
  Forall admitted cs → published cs < 1000 → starts cs served.1 served.2.
Proof.
  apply fresh_starts; [apply served_wf|apply Session.Witness.served_topic|]. vm_compute. reflexivity.
Qed.

Lemma schedule_starts : starts schedule served.1 served.2.
Proof.
  apply served_starts; [|done]. repeat (apply Forall_cons; split); try apply Forall_nil; try done.
Qed.

Lemma threads_witness :
  ∃ s, run schedule (at_rest served.1 served.2) = Done s ∧ Server.wf (server s) (world_of s).
Proof.
  destruct (threads_operate_topics schedule served.1 served.2 schedule_starts) as (s & Hrun & Hwf & _).
  exists s. exact (conj Hrun Hwf).
Defined.

(** The main thread is about to append the message. *)
Definition reached (cs : list choice) : t :=
  match run cs (at_rest served.1 served.2) with Done s => s | _ => at_rest served.1 served.2 end.

Lemma reached_run cs :
  starts cs served.1 served.2 → run cs (at_rest served.1 served.2) = Done (reached cs).
Proof. intros (s & an & Hrun & _)%starts_run. unfold reached. by rewrite Hrun. Qed.

Lemma middle_starts : starts (take 11 schedule) served.1 served.2.
Proof.
  apply served_starts; [|done]. apply Forall_take, schedule_starts.
Qed.

Lemma middle_top :
  ∃ e q, stack (reached (take 11 schedule)) !! 0%nat = Some (e, q) ∧
         reaches q = Some (Topic_mutex $"news").
Proof.
  assert ((λ fr, reaches fr.2) <$> stack (reached (take 11 schedule)) !! 0%nat =
          Some (Some (Topic_mutex $"news"))) as Hm by (vm_compute; reflexivity).
  destruct (stack _ !! 0%nat) as [[e q]|]; [|done]. injection Hm as Hm. by exists e, q.
Qed.

Lemma exclusive_witness :
  ∃ s, run (take 11 schedule) (at_rest served.1 served.2) = Done s ∧
       owner s !! Topic_mutex $"news" = Some Main_thread ∧ ¬ inside (worker_at $"news" s).
Proof.
  pose proof (reached_run _ middle_starts) as Hrun. destruct middle_top as (e & q & Hq & Hm).
  destruct (accesses_are_exclusive _ _ _ _ middle_starts Hrun) as [Hmain _].
  destruct (Hmain _ _ _ _ Hq Hm) as (Ho & _ & Hw).
  exists (reached (take 11 schedule)). exact (conj Hrun (conj Ho (Hw _ eq_refl))).
Defined.

(** A request to publish, from its beginning to its end. *)
Definition publishing : list choice :=
  [Worker_moves $"news"; Handles (Protocol.Req_produce $"news" $"eu.fr" $"2"); Main_moves;
   Main_moves; Main_moves; Main_moves; Worker_moves $"news"; Worker_moves $"news";
   Worker_moves $"news"; Main_moves; Main_moves; Main_moves; Worker_moves $"news"; Main_moves;
   Main_moves].

Lemma publishing_starts : starts publishing served.1 served.2.
Proof.
  apply served_starts; [|done]. repeat (apply Forall_cons; split); by try apply Forall_nil.
Qed.

Lemma publishing_ends : idle (reached publishing) = true.
Proof. vm_compute. reflexivity. Qed.

Lemma publishing_handles :
  Session.published_to $"news" (handled publishing (at_rest served.1 served.2)) = [($"eu.fr", $"2")].
Proof. vm_compute. reflexivity. Qed.

Lemma once_witness :
  ∃ s tp tp', run publishing (at_rest served.1 served.2) = Done s ∧
    Server.get_topic $"news" (server s) = Some tp' ∧
    Topic.messages tp' =
      Topic.messages tp ++ Session.stored (zlen (Topic.messages tp)) [($"eu.fr", $"2")].
Proof.
  pose proof (reached_run _ publishing_starts) as Hrun.
  destruct (proj1 Session.Witness.served_topic) as [tp Htp].
  destruct (messages_are_appended_once _ _ _ _ _ _ publishing_starts Hrun publishing_ends Htp)
    as (tp' & Htp' & Hm). rewrite publishing_handles in Hm.
  exists (reached publishing), tp, tp'. exact (conj Hrun (conj Htp' Hm)).
Defined.

End Witness.

End Threads.
