(* ===== verification/Progress.v ===== *)
(** * Progress: threads get on with their work

    Whatever has happened before, as long as signals only came while the main thread owned no
    mutex, the main thread gets back to its loop if the threads are given their turns, and
    a worker whose topic has work does it: no deadlock ([no_deadlock]), no lost wake-up
    ([worker_catches_up]). The argument follows the programs of Locking.v as trees
    ([follows] is well-founded) and the invariant of Threads.v: who waits for a mutex waits
    for a worker that gives it up, and who waits for a worker has notified it. Signals.v has
    what happens when a signal comes at the wrong time. *)

From S2P Require Import Prelude HashMap PrefixTree Protocol World Text Ipc Topic Server Session.
From S2P Require Import Locking Discipline Threads.

Set Warnings "-clear-no-such-hyp".

Module Progress.

Import World Locking Discipline Threads.
Open Scope Z_scope.

#[local] Existing Instance Topic.wanted_dec.

Section Specification.
Context `{KernelLaws} `{SubscriptionIndex} `{Hash str} `{Hash Z}.

(** The main thread owns no mutex. *)
Definition unlocked (s : t) : bool := bool_decide (map_Forall (λ _ th, th ≠ Main_thread) (owner s)).

(** Signals only come then. *)
Fixpoint calm (cs : list choice) (s : t) : bool :=
  match cs with
  | [] => true
  | c :: cs =>
      match c with Signalled => unlocked s | _ => true end &&
      match step c s with Done s => calm cs s | _ => false end
  end.

(** Only the main thread and the workers move. *)
Definition moves (c : choice) : Prop :=
  match c with Main_moves | Worker_moves _ => True | _ => False end.

Definition works (c : choice) : Prop := match c with Worker_moves _ => True | _ => False end.

(** The moves of a worker from wherever it is through the end of [Topic::run]'s loop. *)
Definition turn (n : str) : list choice := replicate 4 (Worker_moves n).

(** Nobody ends the server, or asks for the subscription of [id] to change. *)
Definition undisturbed (id : str) (c : choice) : Prop :=
  match c with
  | Handles r => Session.spares id (Session.Requests r)
  | Signalled => False
  | _ => True
  end.

(** What a program may go on as, after its first access. *)
Definition follows (this : Server.t) (w : world) (q q' : prog) : Prop :=
  match q with
  | Return => False
  | Lock _ next | Unlock _ next | Notify_all _ next | Join _ next => q' = next
  | Calls f => ∃ w', f w = Done (w', q')
  | On_running f => q' = (f (Server.running this)).2
  | On_server f => ∃ this' w', f this w = Done (this', w', q')
  | On_topic n f =>
      ∃ tp tp' w', Server.get_topic n this = Some tp ∧ f tp w = Done (tp', w', q')
  end.

(** Where a worker goes from a place, in its topic. *)
Definition next_place (tp : Topic.t) (p : worker) : worker :=
  match p with
  | Locks => Tests
  | Tests => if Topic.has_work tp then Serves else Asleep
  | Serves => Unlocks (Topic.stop_flag tp)
  | Unlocks last => if last then Finished else Locks
  | Asleep | Finished => p
  end.

End Specification.

Section Theory.
Context `{KernelLaws} `{SubscriptionIndex} `{Hash str} `{Hash Z}.
Implicit Types (this : Server.t) (tp : Topic.t) (w : world) (q : prog) (e : Session.happening).

(** ** Programs end *)

Definition ends : prog → Prop := Acc (λ q' q, ∃ this w, follows this w q q').

Lemma all_end q : ends q.
Proof.
  revert q. fix IH 1. intros q. constructor. intros q' (this & w & Hf).
  destruct q as [|m q|m q|f|f|f|n f|n q|n q]; simpl in Hf.
  - done.
  - rewrite Hf. apply IH.
  - rewrite Hf. apply IH.
  - destruct Hf as [w' Hq]. destruct (f w) as [[w1 q1]| |]; [|done..].
    assert (q' = q1) as -> by congruence. apply IH.
  - rewrite Hf. destruct (f (Server.running this)) as [b q1]. apply IH.
  - destruct Hf as (this' & w' & Hq). destruct (f this w) as [[[this1 w1] q1]| |]; [|done..].
    assert (q' = q1) as -> by congruence. apply IH.
  - destruct Hf as (tp & tp' & w' & _ & Hq). destruct (f tp w) as [[[tp1 w1] q1]| |]; [|done..].
    assert (q' = q1) as -> by congruence. apply IH.
  - rewrite Hf. apply IH.
  - rewrite Hf. apply IH.
Qed.

Lemma move_follows e q rest s s' :
  stack s = (e, q) :: rest → move s = Done s' → q ≠ Return →
  ∃ q', follows (server s) (world_of s) q q' ∧ stack s' = (e, q') :: rest.
Proof.
  destruct s as [this w o st ws]. simpl. intros -> Hm Hq. unfold move in Hm. destruct q; simpl in Hm; try done.
  - injection Hm as <-. by eexists.
  - injection Hm as <-. by eexists.
  - apply bind_Done in Hm as ([w' q'] & Hf & [= <-]). exists q'. split; [by exists w'|done].
  - destruct (f (Server.running this)) as [b q'] eqn:Hf. injection Hm as <-. exists q'.
    split; [simpl; by rewrite Hf|done].
  - apply bind_Done in Hm as ([[this' w'] q'] & Hf & [= <-]). exists q'. split; [by exists this', w'|done].
  - apply bind_Done in Hm as (tp & Htp & ([[tp' w'] q'] & Hf & [= <-])%bind_Done).
    destruct (Server.get_topic _ this) as [tp0|] eqn:Hn; [|done]. simpl in Htp.
    assert (tp0 = tp) as -> by congruence. exists q'. split; [by exists tp, tp', w'|done].
  - injection Hm as <-. exists q. by split.
  - injection Hm as <-. by eexists.
Qed.

(** ** Workers get on *)

(** What a worker leaves alone, or only takes further, in a step. *)
Definition works_on (k : Z) (an : list (kind * list mutex)) (n : str) tp (s s' : t) tp' : Prop :=
  ok k an s' ∧ stack s' = stack s ∧ Server.get_topic n (server s') = Some tp' ∧
  Topic.stop_flag tp' = Topic.stop_flag tp ∧ Topic.messages tp' = Topic.messages tp ∧
  (Topic.has_work tp = false → tp' = tp).

Lemma worker_steps k an n tp s :
  0 ≤ k → ok k an s → Server.get_topic n (server s) = Some tp → worker_can_move n s = true →
  ∃ s' tp', step (Worker_moves n) s = Done s' ∧ works_on k an n tp s s' tp' ∧
    worker_at n s' = next_place tp (worker_at n s) ∧
    (worker_at n s = Serves → Topic.stop_flag tp = false → Topic.has_work tp' = false).
Proof.
  intros Hk Hok Hn Hcan. destruct (worker_moves_ok k an n s Hk Hok Hcan) as (s' & Hm & _ & _ & Hst & Hok' & _).
  assert (step (Worker_moves n) s = Done s') as Hstep by (unfold step; simpl; by rewrite Hcan).
  pose proof (ok_worker _ _ _ Hok n tp Hn) as Hwn.
  assert (∀ p o', set_worker n p (with_owner o' s) = s' →
    worker_at n s ≠ Serves → p = next_place tp (worker_at n s) →
    ∃ s' tp', step (Worker_moves n) s = Done s' ∧ works_on k an n tp s s' tp' ∧
      worker_at n s' = next_place tp (worker_at n s) ∧
      (worker_at n s = Serves → Topic.stop_flag tp = false → Topic.has_work tp' = false)) as Hquiet.
  { intros p o' <- Hne ->. eexists _, tp. split; [exact Hstep|]. split; [by split_and!|]. split; [|done].
    unfold worker_at at 1. simpl. by rewrite lookup_insert_eq. }
  revert Hm. unfold worker_move. rewrite Hn. simpl. destruct (worker_at n s) eqn:Hpc; intros Hm.
  - injection Hm as Hm. eapply Hquiet; [exact Hm|done|done].
  - simpl in *. destruct (Topic.has_work tp) eqn:Hw; injection Hm as Hm.
    + eapply (Hquiet _ (owner s)); [|done|done]. rewrite <- Hm. by destruct s.
    + eapply Hquiet; [exact Hm|done|done].
  - unfold worker_can_move in Hcan. by rewrite Hn, Hpc in Hcan.
  - apply bind_Done in Hm as ([tp' w'] & Hp & [= <-]).
    pose proof (data_bound _ _ _ _ _ _ Hk (ok_data _ _ _ Hok) Hn) as Hlen.
    pose proof (data_wf _ _ _ _ (ok_data _ _ _ Hok)) as Hwf.
    destruct (Topic.run_step_facts tp (world_of s) (Server.wf_topic _ _ Hwf n tp Hn) Hlen)
      as (tp2 & w2 & Hrun & Hwtp & Hmsg & Hstop & Hr & _ & Hdone & _).
    unfold Topic.run_step in Hrun. pose proof (worker_serves _ _ _ _ Hwn eq_refl) as Hwork.
    pose proof (worker_alive _ _ _ _ Hwn) as Hal. simpl in Hal. rewrite Hal, Hwork in Hrun.
    simpl in Hrun. rewrite Hp in Hrun. injection Hrun as <- <-. rewrite Hal in Hdone.
    eexists _, tp'. split; [exact Hstep|]. split_and!.
    + split_and!; try done; [|by rewrite Hwork]. simpl.
      rewrite Server.get_set_topic by (apply Hwf || eauto). by rewrite decide_True.
    + unfold worker_at. simpl. by rewrite lookup_insert_eq.
    + intros _ Hns. apply not_true_iff_false. rewrite Topic.has_work_iff by apply Hwtp.
      rewrite Hstop, Hns, Hmsg. intros [?|(id & sub & Hs & Hlt)]; [done|].
      specialize (Hdone eq_refl Hns id sub Hs). lia.
  - injection Hm as Hm. eapply Hquiet; [exact Hm|done|done].
  - unfold worker_can_move in Hcan. by rewrite Hn, Hpc in Hcan.
Qed.

Lemma threads_run_app cs cs' s : run (cs ++ cs') s = s' ← run cs s; run cs' s'.
Proof.
  revert s. induction cs as [|c cs IH]; intros s; [done|]. simpl. destruct (step c s); [apply IH|done..].
Qed.

Lemma works_move cs : Forall works cs → Forall moves cs.
Proof. intros Hcs. eapply Forall_impl; [exact Hcs|]. by intros []. Qed.

(** Some moves of the workers that change nothing for the main thread, and end in [P]. *)
Definition waits_for (k : Z) (an : list (kind * list mutex)) (s : t) (P : t → Prop) : Prop :=
  ∃ cs s', Forall works cs ∧ run cs s = Done s' ∧ ok k an s' ∧ stack s' = stack s ∧ P s'.

Lemma waits_done k an s (P : t → Prop) : ok k an s → P s → waits_for k an s P.
Proof. intros Hok HP. exists [], s. by split_and!. Qed.

Lemma waits_step c k an s s1 P :
  works c → step c s = Done s1 → stack s1 = stack s → waits_for k an s1 P → waits_for k an s P.
Proof.
  intros Hc Hs Hst (cs & s' & Hcs & Hr & Hok & Hst' & HP). exists (c :: cs), s'.
  split_and!; [by constructor|by simpl; rewrite Hs|done|congruence|done].
Qed.

Lemma waits_weaken k an s (P Q : t → Prop) :
  (∀ s', ok k an s' → stack s' = stack s → P s' → Q s') → waits_for k an s P → waits_for k an s Q.
Proof. intros HPQ (cs & s' & ? & ? & ? & ? & ?). exists cs, s'. split_and!; auto. Qed.

(** A worker that is not there yet can move, and comes nearer. *)
Lemma worker_gets k an n stopped st (there : worker → Prop) `{∀ p, Decision (there p)}
    (left : worker → nat) :
  0 ≤ k →
  (∀ tp s, ok k an s → stack s = st → Server.get_topic n (server s) = Some tp →
     Topic.stop_flag tp = stopped → ¬ there (worker_at n s) →
     worker_can_move n s = true ∧ (left (next_place tp (worker_at n s)) < left (worker_at n s))%nat) →
  ∀ tp s, ok k an s → stack s = st → Server.get_topic n (server s) = Some tp →
    Topic.stop_flag tp = stopped → waits_for k an s (λ s', there (worker_at n s')).
Proof.
  intros Hk Hnext tp s. remember (left (worker_at n s)) as j eqn:Hj. revert tp s Hj.
  induction (lt_wf j) as [j _ IH]. intros tp s -> Hok Hst Hn Hstop.
  destruct (decide (there (worker_at n s))) as [Hthere|Hnot]; [by apply waits_done|].
  destruct (Hnext tp s Hok Hst Hn Hstop Hnot) as [Hcan Hless].
  destruct (worker_steps k an n tp s Hk Hok Hn Hcan)
    as (s1 & tp1 & Hs & (Hok1 & Hst1 & Hn1 & Hstop1 & _) & Hpc & _).
  eapply (waits_step (Worker_moves n)); [done|exact Hs|done|].
  eapply (IH _ _ tp1 s1 eq_refl); try done; congruence.
  Unshelve. by rewrite Hpc.
Qed.

#[export] Instance inside_dec p : Decision (inside p).
Proof. destruct p; apply _. Defined.

#[export] Instance finished_dec p : Decision (p = Finished).
Proof. destruct p; first [by left|by right]. Defined.

(** A worker gives its lock up. *)
Lemma worker_leaves k an n tp s :
  0 ≤ k → ok k an s → Server.get_topic n (server s) = Some tp →
  waits_for k an s (λ s', ¬ inside (worker_at n s')).
Proof.
  intros Hk Hok Hn.
  refine (worker_gets k an n (Topic.stop_flag tp) (stack s) (λ p, ¬ inside p)
    (λ p, match p with Tests => 3 | Serves => 2 | Unlocks _ => 1 | _ => 0 end)%nat Hk _ tp s Hok _ Hn _);
    [|done..].
  intros tp1 s1 _ _ Hn1 _ Hin. unfold worker_can_move. rewrite Hn1.
  destruct (worker_at n s1) as [| | | |b|]; simpl in *; try tauto; (split; [done|]).
  - destruct (Topic.has_work tp1); lia.
  - lia.
  - destruct b; lia.
Qed.

(** A worker whose topic is stopped leaves its loop, unless the main thread is in its way. *)
Lemma worker_finishes k an n tp s :
  0 ≤ k → ok k an s → Server.get_topic n (server s) = Some tp → Topic.stop_flag tp = true →
  Topic_mutex n ∉ concat an.*2 → (∀ e q, (e, q) ∈ stack s → ¬ notifies n q) →
  waits_for k an s (λ s', worker_at n s' = Finished).
Proof.
  intros Hk Hok Hn Hstop Hheld Hno.
  refine (worker_gets k an n true (stack s) (λ p, p = Finished)
    (λ p, match p with Unlocks false => 5 | Locks => 4 | Tests => 3 | Serves => 2 | Unlocks true => 1
          | Asleep => 6 | Finished => 0 end)%nat Hk _ tp s Hok _ Hn Hstop); [|done].
  intros tp1 s1 Hok1 Hst1 Hn1 Hstop1 Hin. unfold worker_can_move. rewrite Hn1.
  assert (Topic.has_work tp1 = true) as Hw by (unfold Topic.has_work; by rewrite Hstop1).
  pose proof (ok_locks _ _ _ Hok1) as Hl. pose proof (ok_worker _ _ _ Hok1 n tp1 Hn1) as Hwn.
  destruct (worker_at n s1) as [| | | |b|] eqn:Hpc; simpl; rewrite ?Hw, ?Hstop1; try done.
  - split; [|lia]. apply bool_decide_eq_true. destruct (owner s1 !! Topic_mutex n) as [[|m]|] eqn:Ho; [| |done].
    + by apply (locks_main _ _ _ _ Hl) in Ho.
    + pose proof (locks_own _ _ _ _ Hl _ _ Ho) as [= <-]. apply (locks_worker _ _ _ _ Hl) in Ho.
      unfold worker_at in Hpc. by rewrite Hpc in Ho.
  - split; [done|lia].
  - destruct (worker_sleeps _ _ _ _ Hwn eq_refl Hw) as (e & q & Hin' & Hn'). rewrite Hst1 in Hin'.
    by destruct (Hno e q).
  - split; [done|lia].
  - split; [done|]. destruct b; lia.
Qed.

(** ** The main thread gets on *)

(** Nothing below the top of the stack holds a mutex. *)
Definition top_holds (an : list (kind * list mutex)) : Prop := Forall (λ a, a.2 = []) (tail an).

Lemma nothing_held (an : list (kind * list mutex)) m : Forall (λ a, a.2 = []) an → m ∉ concat an.*2.
Proof. induction 1 as [|[kd held] an Hh _ IH]; simpl in *; [by intros ?%elem_of_nil|by subst]. Qed.

(** A program that holds nothing notifies nobody now. *)
Lemma idle_notifies e kd this n q held : safe e kd held this q → notifies n q → held ≠ [].
Proof. intros Hs Hn. destruct Hn; by inversion Hs. Qed.

Lemma main_goes k kd held an e q rest s :
  0 ≤ k → ok k ((kd, held) :: an) s → Forall (λ a, a.2 = []) an → stack s = (e, q) :: rest →
  waits_for k ((kd, held) :: an) s (λ s', main_can_move s' = true).
Proof.
  intros Hk Hok Han Hst. pose proof (ok_locks _ _ _ Hok) as Hl. pose proof (ok_frames _ _ _ Hok) as Hf.
  rewrite Hst in Hf. apply Forall2_cons in Hf as [Hs Hf]. simpl in Hs, Hl.
  destruct (main_can_move s) eqn:Hcan; [by apply waits_done|]. unfold main_can_move in Hcan.
  rewrite Hst in Hcan. destruct q as [|m q| | | | | | |n q]; try done.
  - apply bool_decide_eq_false in Hcan.
    assert (∀ th, owner s !! m = Some th → th ≠ Main_thread) as Hnot.
    { intros th Hth ->. apply (locks_main _ _ _ _ Hl) in Hth. apply elem_of_app in Hth as [Hin|Hin].
      - inversion Hs as [|? ? ? ? ? Ho| | | | | | |]; subst. destruct m as [|n]; simpl in Ho.
        + subst. by apply elem_of_nil in Hin.
        + by destruct (Ho n).
      - by destruct (nothing_held an m Han). }
    destruct (owner s !! m) as [[|n]|] eqn:Ho; [by destruct (Hnot _ eq_refl)| |done].
    pose proof (locks_own _ _ _ _ Hl _ _ Ho) as ->. destruct (locks_topic _ _ _ _ Hl _ _ Ho) as [tp Hn].
    eapply waits_weaken; [|by eapply worker_leaves]. intros s' Hok' Hst' Hout. unfold main_can_move.
    rewrite Hst', Hst. apply bool_decide_eq_true. pose proof (ok_locks _ _ _ Hok') as Hl'.
    destruct (owner s' !! Topic_mutex n) as [[|n']|] eqn:Ho'; [| |done].
    + apply (locks_main _ _ _ _ Hl') in Ho'. apply (locks_main _ _ _ _ Hl) in Ho'. congruence.
    + pose proof (locks_own _ _ _ _ Hl' _ _ Ho') as [= <-]. by apply (locks_worker _ _ _ _ Hl') in Ho'.
  - inversion Hs as [| | | | | | | |? ? ? ? ? tp Hheld Hn Hstop Hnext]; subst.
    eapply waits_weaken; [|eapply worker_finishes; try done].
    + intros s' _ Hst' Hfin. unfold main_can_move. by rewrite Hst', Hst, Hfin.
    + simpl. rewrite elem_of_app. intros [?|?]; [done|by destruct (nothing_held an (Topic_mutex n) Han)].
    + intros e' q'. rewrite Hst. intros [[= -> ->]|Hin]%elem_of_cons Hno; [by inversion Hno|].
      apply list_elem_of_lookup in Hin as [i Hi].
      destruct (Forall2_lookup_l _ _ _ _ _ Hf Hi) as ([kd' held'] & Ha & Hs').
      apply (idle_notifies _ _ _ _ _ _ Hs' Hno). by apply (Forall_lookup_1 _ _ _ _ Han Ha).
Qed.

(** The program on top of the stack returns. *)
Lemma top_returns q : ∀ k kd held an e rest s,
  0 ≤ k → ok k ((kd, held) :: an) s → Forall (λ a, a.2 = []) an → stack s = (e, q) :: rest →
  ∃ cs s', Forall moves cs ∧ run cs s = Done s' ∧ ok k an s' ∧ stack s' = rest.
Proof.
  induction (all_end q) as [q _ IH]. intros k kd held an e rest s Hk Hok Han Hst.
  destruct (main_goes k kd held an e q rest s Hk Hok Han Hst)
    as (cs1 & s1 & Hcs1 & Hr1 & Hok1 & Hst1 & Hcan). rewrite Hst in Hst1.
  destruct (main_moves_ok k kd held an e q rest s1 Hk Hok1 Hst1 Hcan) as (s2 & Hm & _ & _ & Hgo).
  assert (run (cs1 ++ [Main_moves]) s = Done s2) as Hr2.
  { rewrite threads_run_app, Hr1. simpl. unfold step. simpl. rewrite Hcan. simpl. by rewrite Hm. }
  assert (Forall moves (cs1 ++ [Main_moves])) as Hcs2 by (by apply Forall_app; split; [apply works_move|constructor]).
  assert (q = Return ∨ q ≠ Return) as [->|Hne] by (destruct q; auto).
  { destruct Hgo as (Hst2 & _ & Hok2). by exists (cs1 ++ [Main_moves]), s2. }
  destruct (move_follows e q rest s1 s2 Hst1 Hm Hne) as (q2 & Hf & Hst2).
  assert (∃ kd2 held2, ok k ((kd2, held2) :: an) s2) as (kd2 & held2 & Hok2).
  { destruct q; [done|..]; destruct Hgo as (kd2 & held2 & ? & _ & _ & ?); by exists kd2, held2. }
  destruct (IH q2 ltac:(by eexists _, _) k kd2 held2 an e rest s2 Hk Hok2 Han Hst2)
    as (cs3 & s3 & Hcs3 & Hr3 & Hok3 & Hst3).
  exists ((cs1 ++ [Main_moves]) ++ cs3), s3. split_and!; [by apply Forall_app| |done|done].
  by rewrite threads_run_app, Hr2.
Qed.

Lemma stack_empties k an s :
  0 ≤ k → ok k an s → top_holds an →
  ∃ cs s', Forall moves cs ∧ run cs s = Done s' ∧ ok k [] s' ∧ idle s' = true.
Proof.
  intros Hk. revert s. induction an as [|[kd held] an IH]; intros s Hok Htop.
  - exists [], s. split_and!; try done. pose proof (ok_frames _ _ _ Hok) as Hf.
    apply Forall2_nil_inv_r in Hf. unfold idle. by rewrite Hf.
  - assert (∃ e q rest, stack s = (e, q) :: rest) as (e & q & rest & Hst).
    { pose proof (ok_frames _ _ _ Hok) as Hf. apply Forall2_cons_inv_r in Hf as ([e q] & rest & _ & _ & ?). eauto. }
    destruct (top_returns q k kd held an e rest s Hk Hok Htop Hst) as (cs & s1 & Hcs & Hr & Hok1 & Hst1).
    destruct (IH s1 Hok1) as (cs' & s' & Hcs' & Hr' & Hok' & Hi').
    { unfold top_holds in *. destruct an as [|a an]; [constructor|]. by apply Forall_cons in Htop as [_ ?]. }
    exists (cs ++ cs'), s'. split_and!; [by apply Forall_app| |done|done].
    by rewrite threads_run_app, Hr.
Qed.

Lemma unlocked_holds k an s : ok k an s → unlocked s = true → Forall (λ a, a.2 = []) an.
Proof.
  intros Hok Hu%bool_decide_eq_true. apply Forall_lookup. intros i [kd [|m held]] Hi; [done|].
  assert (owner s !! m = Some Main_thread) as Ho.
  { apply (locks_main _ _ _ _ (ok_locks _ _ _ Hok)). eapply held_somewhere; [exact Hi|].
    by apply list_elem_of_here. }
  by destruct (map_Forall_lookup_1 _ _ _ _ Hu Ho).
Qed.

Lemma calm_run cs k an s :
  0 ≤ k → Forall admitted cs → ok (published cs + k) an s → top_holds an → calm cs s = true →
  ∃ s' an', run cs s = Done s' ∧ ok k an' s' ∧ top_holds an'.
Proof.
  intros Hk Hcs. revert an s. induction Hcs as [|c cs Hc _ IH]; intros an s Hok Htop Hcalm.
  - by exists s, an.
  - cbn [published] in Hok. rewrite <- Z.add_assoc in Hok. pose proof (published_choices_nonneg cs).
    destruct (step_ok c (published cs + k) an s ltac:(lia) Hc Hok)
      as (s1 & Hs & _ & (an1 & Hok1 & Hcont & _) & _).
    simpl in Hcalm. rewrite Hs in Hcalm. apply andb_prop in Hcalm as [Hsig Hcalm].
    simpl. rewrite Hs. apply (IH an1 s1 Hok1); [|done].
    inversion Hcont as [st an0|fr a fr' a' st an0|fr a st an0|fr kd st an0 Hpush]; subst; try done.
    + unfold top_holds in *. simpl in Htop. by destruct Htop.
    + unfold top_holds. simpl. destruct c; try done.
      * pose proof (ok_frames _ _ _ Hok) as Hf. rewrite Hpush in Hf.
        by apply Forall2_nil_inv_l in Hf as ->.
      * by eapply unlocked_holds.
Qed.

(** How far a worker is from having looked at all messages. *)
Definition due (p : worker) : nat :=
  match p with Serves => 1 | Tests => 2 | Locks => 3 | Unlocks _ => 4 | _ => 0 end.

(** With the main thread out of the way a worker that is not asleep can move. *)
Lemma idle_worker k n tp s :
  ok k [] s → Server.get_topic n (server s) = Some tp → Topic.stop_flag tp = false →
  worker_at n s = Asleep ∧ Topic.has_work tp = false ∨ worker_can_move n s = true.
Proof.
  intros Hok Hn Hstop. unfold worker_can_move. rewrite Hn.
  pose proof (ok_worker _ _ _ Hok n tp Hn) as Hwn. pose proof (ok_locks _ _ _ Hok) as Hl.
  pose proof (ok_frames _ _ _ Hok) as Hf. apply Forall2_nil_inv_r in Hf.
  destruct (worker_at n s) eqn:Hpc; auto.
  - right. apply bool_decide_eq_true.
    destruct (owner s !! Topic_mutex n) as [[|m]|] eqn:Ho; [| |done].
    + apply (locks_main _ _ _ _ Hl) in Ho. by apply elem_of_nil in Ho.
    + pose proof (locks_own _ _ _ _ Hl _ _ Ho) as [= <-]. apply (locks_worker _ _ _ _ Hl) in Ho.
      unfold worker_at in Hpc. by rewrite Hpc in Ho.
  - left. split; [done|]. apply not_true_iff_false. intros Hw.
    destruct (worker_sleeps _ _ _ _ Hwn eq_refl Hw) as (e & q & Hin & _). rewrite Hf in Hin.
    by apply elem_of_nil in Hin.
  - pose proof (worker_left _ _ _ _ Hwn eq_refl). congruence.
Qed.

Lemma catches_up k n j : ∀ tp s,
  0 ≤ k → ok k [] s → Server.get_topic n (server s) = Some tp → Topic.stop_flag tp = false →
  Topic.has_work tp = false ∨ (due (worker_at n s) ≤ j)%nat →
  ∃ s' tp', run (replicate j (Worker_moves n)) s = Done s' ∧
    Server.get_topic n (server s') = Some tp' ∧ Topic.messages tp' = Topic.messages tp ∧
    Topic.has_work tp' = false.
Proof.
  induction j as [|j IH]; intros tp s Hk Hok Hn Hstop Hdue;
    destruct (idle_worker k n tp s Hok Hn Hstop) as [[Hpc Hw]|Hcan]; simpl.
  - by exists s, tp.
  - exists s, tp. split_and!; try done. destruct Hdue as [|Hdue]; [done|].
    unfold worker_can_move in Hcan. rewrite Hn in Hcan.
    by destruct (worker_at n s); simpl in *; try lia.
  - unfold step. simpl. unfold worker_can_move. rewrite Hn, Hpc. simpl. by apply IH; [..|left].
  - destruct (worker_steps k [] n tp s Hk Hok Hn Hcan)
      as (s1 & tp1 & Hs & (Hok1 & _ & Hn1 & Hstop1 & Hm1 & Hsame) & Hpc & Hserved).
    rewrite Hs. simpl. rewrite <- Hm1. rewrite Hstop in *. apply IH; try done.
    destruct (Topic.has_work tp) eqn:Hw; [|left; by rewrite Hsame].
    destruct Hdue as [|Hdue]; [done|]. rewrite Hpc. unfold worker_can_move in Hcan. rewrite Hn in Hcan.
    destruct (worker_at n s) as [| | | |b|]; simpl in *; rewrite ?Hw; simpl; auto.
    all: try (right; lia). destruct b; right; simpl; lia.
Qed.

Lemma undisturbed_history id cs this w :
  Forall (undisturbed id) cs → Forall (Session.spares id) (history cs (at_rest this w)).
Proof.
  intros Hcs. apply history_all; [done|done| |by intros ? ? ?%elem_of_nil].
  intros c e Hin Hb. rewrite Forall_forall in Hcs. specialize (Hcs c Hin). destruct c; simpl in *; by subst.
Qed.

Lemma starts_turn cs n this w : starts cs this w → starts (cs ++ turn n) this w.
Proof.
  intros [Hwf Hf Hs Hcs Hroom]. split; try done.
  - apply Forall_app. split; [done|]. by repeat constructor.
  - eapply Session.room_weaken; [|exact Hroom]. rewrite published_choices_app. simpl. lia.
Qed.

(** A subscription in which everything has been looked at. *)
Lemma session_caught_up id p fd start n0 tp w :
  HashMap.wf (Topic.subscribers tp) → Topic.has_work tp = false →
  Topic.in_session id p fd start n0 (Topic.subs tp) (Topic.messages tp) w →
  ∃ sub, Topic.subs tp !! id = Some sub ∧
    let since := drop n0 (trace w) in
    let sent := session_writes fd since in
    let due := Topic.frame <$> filter (Topic.wanted p) (drop (Z.to_nat start) (Topic.messages tp)) in
    (Topic.fifo_fd sub = fd ∧ sent.*1 = due ∧ Forall (λ ret, 0 < ret) sent.*2) ∨
    (Topic.fifo_fd sub = -1 ∧ sent.*1 `prefix_of` due).
Proof.
  intros Ht Hw (sub & Hs & _ & Hstart & Hn & _ & Hc). exists sub. split; [done|].
  assert (zlen (Topic.messages tp) ≤ Topic.next_offset sub) as Hle by (by eapply Topic.has_work_false).
  rewrite <- Topic.expected_all by lia.
  replace (Z.max start (zlen (Topic.messages tp))) with (Topic.next_offset sub) by lia.
  destruct Hc as [(? & _ & ? & ?)|(? & _ & ?)]; [by left|by right].
Qed.

(** ** Properties *)

(** C5: Subscribers are served under any schedule: a subscriber who was being served at the
    start, with a schedule of any requests but those that change its subscription, and of
    any interleaving of the threads, has been sent, once the main thread is in its loop and
    the worker of the topic has had four moves, exactly the messages it wants, each in one
    frame, in order and from its offset on, all of them written; or its FIFO broke in the
    middle and it was sent nothing after that. *)
Theorem subscribers_are_served (cs : list choice) this w (s : t) (n id p : str)
    (fd start : Z) (n0 : nat)
    (Hstart : starts cs this w) (Hrun : run cs (at_rest this w) = Done s) (Hidle : idle s = true)
    (Hcs : Forall (undisturbed id) cs) (Hfd : 0 ≤ fd)
    (Hserved : Session.served_from id p fd start n0 n this w) :
  ∃ s' tp sub, run (turn n) s = Done s' ∧ Server.get_topic n (server s') = Some tp ∧
    Topic.subs tp !! id = Some sub ∧
    let since := drop n0 (trace (world_of s')) in
    let sent := session_writes fd since in
    let due := Topic.frame <$> filter (Topic.wanted p) (drop (Z.to_nat start) (Topic.messages tp)) in
    (Topic.fifo_fd sub = fd ∧ sent.*1 = due ∧ Forall (λ ret, 0 < ret) sent.*2) ∨
    (Topic.fifo_fd sub = -1 ∧ sent.*1 `prefix_of` due).
Proof.
  destruct Hserved as (tp0 & Hn0 & Hses).
  destruct (reached_topic cs this w s n tp0 Hstart Hrun Hn0) as (an & tp & Hok & Hn & _ & _ & Hstop & _).
  pose proof (undisturbed_history id cs this w Hcs) as Hsp.
  specialize (Hstop (Session.spares_stop id _ Hsp)). rewrite (idle_annotated _ _ _ Hok Hidle) in Hok.
  destruct (catches_up 0 n 4 tp s ltac:(done) Hok Hn Hstop) as (s' & tp' & Hturn & Hn' & _ & Hw);
    [right; destruct (worker_at n s); simpl; lia|].
  assert (run (cs ++ turn n) (at_rest this w) = Done s') as Hrun' by (by rewrite threads_run_app, Hrun).
  destruct (reached_topic _ this w s' n tp0 (starts_turn cs n this w Hstart) Hrun' Hn0)
    as (an' & tp2 & Hok' & Hn2 & _ & _ & _ & Hkeep).
  rewrite Hn' in Hn2. injection Hn2 as <-.
  assert (Forall (undisturbed id) (cs ++ turn n)) as Hcs'
    by (apply Forall_app; split; [done|by repeat constructor]).
  pose proof (Hkeep id p fd start n0 (undisturbed_history id _ this w Hcs') Hfd Hses) as Hses'.
  pose proof (Server.wf_topic _ _ (data_wf _ _ _ _ (ok_data _ _ _ Hok')) n tp' Hn') as Hwf.
  destruct (session_caught_up id p fd start n0 tp' (world_of s')) as (sub & Hs & Hc);
    [apply Hwf|done|done|]. by exists s', tp', sub.
Qed.

(** C11: There is no deadlock: whatever has been requested, whichever accesses of the threads came
    in whatever order and whenever workers woke up, if signals only came while the main
    thread owned no mutex, then the main thread can get back to its loop, by moves of
    itself and the workers alone. *)
Theorem no_deadlock (cs : list choice) this w (s : t)
    (Hstart : starts cs this w) (Hcalm : calm cs (at_rest this w) = true)
    (Hrun : run cs (at_rest this w) = Done s) :
  ∃ cs' s', Forall moves cs' ∧ run cs' s = Done s' ∧ idle s' = true.
Proof.
  destruct Hstart as [Hwf Hf Hserv Hcs Hroom]. pose proof (start_ok _ _ _ Hwf Hf Hserv Hroom) as Hok.
  rewrite <- (Z.add_0_r (published cs)) in Hok.
  destruct (calm_run cs 0 [] _ ltac:(done) Hcs Hok ltac:(constructor) Hcalm) as (s1 & an & Hrun1 & Hok1 & Htop).
  rewrite Hrun in Hrun1. injection Hrun1 as <-.
  destruct (stack_empties 0 an s ltac:(done) Hok1 Htop) as (cs' & s' & Hcs' & Hr & _ & Hi).
  by exists cs', s'.
Qed.

(** C12: No wake-up is lost: whatever the schedule that led here, when the main thread is back
    in its loop, a worker whose topic is not stopped has no message left to look at once
    it has had four moves, wherever it was, asleep included. *)
Theorem worker_catches_up (cs : list choice) this w (s : t) (n : str) tp
    (Hstart : starts cs this w) (Hrun : run cs (at_rest this w) = Done s) (Hidle : idle s = true)
    (Htopic : Server.get_topic n (server s) = Some tp) (Hstop : Topic.stop_flag tp = false) :
  ∃ s' tp', run (turn n) s = Done s' ∧ Server.get_topic n (server s') = Some tp' ∧
    Topic.messages tp' = Topic.messages tp ∧ Topic.has_work tp' = false.
Proof.
  destruct (reached_ok cs this w s Hstart Hrun) as [an Hok].
  rewrite (idle_annotated _ _ _ Hok Hidle) in Hok.
  apply (catches_up 0 n 4 tp s); try done. right. destruct (worker_at n s); simpl; lia.
Qed.

End Theory.

(** ** Witnesses *)

Module Witness.

Import World.Simple PrefixTree.Witness Topic.Witness Server.Witness Threads.Witness.

(** The main thread waits for the lock that the worker has. *)
Lemma no_deadlock_witness :
  ∃ s cs' s', run (take 6 schedule) (at_rest served.1 served.2) = Done s ∧
    Forall moves cs' ∧ run cs' s = Done s' ∧ idle s' = true.
Proof.
  assert (starts (take 6 schedule) served.1 served.2) as Hst
    by (apply served_starts; [apply Forall_take, schedule_starts|done]).
  pose proof (reached_run _ Hst) as Hrun.
  destruct (no_deadlock _ _ _ _ Hst ltac:(vm_compute; reflexivity) Hrun) as (cs' & s' & H1 & H2 & H3).
  exists (reached (take 6 schedule)), cs', s'. exact (conj Hrun (conj H1 (conj H2 H3))).
Defined.

(** The worker has fallen asleep before the message is published. *)
Definition sleepy : list choice :=
  replicate 6 (Worker_moves $"news") ++
  Handles (Protocol.Req_produce $"news" $"eu.fr" $"2") :: replicate 9 Main_moves.

Lemma sleepy_starts : starts sleepy served.1 served.2.
Proof.
  apply served_starts; [|done]. repeat (apply Forall_cons; split); try apply Forall_nil; try done.
Qed.

Lemma sleepy_facts :
  idle (reached sleepy) = true ∧
  ∃ tp, Server.get_topic $"news" (server (reached sleepy)) = Some tp ∧
        Topic.stop_flag tp = false ∧ Topic.has_work tp = true.
Proof.
  split; [vm_compute; reflexivity|].
  assert ((λ tp, (Topic.stop_flag tp, Topic.has_work tp)) <$>
    Server.get_topic $"news" (server (reached sleepy)) = Some (false, true)) as Hd
    by (vm_compute; reflexivity).
  destruct (Server.get_topic _ _) as [tp|]; [|done]. injection Hd as H1 H2. by exists tp.
Qed.

Lemma catches_up_witness :
  ∃ s s' tp', run sleepy (at_rest served.1 served.2) = Done s ∧ run (turn $"news") s = Done s' ∧
    Server.get_topic $"news" (server s') = Some tp' ∧ Topic.has_work tp' = false.
Proof.
  pose proof (reached_run _ sleepy_starts) as Hrun.
  destruct sleepy_facts as (Hidle & tp & Hn & Hstop & _).
  destruct (worker_catches_up sleepy _ _ _ $"news" tp sleepy_starts Hrun Hidle Hn Hstop)
    as (s' & tp' & Hr & Hn' & _ & Hw).
  exists (reached sleepy), s', tp'. exact (conj Hrun (conj Hr (conj Hn' Hw))).
Defined.

(** The server when a client has subscribed, and the schedule of a message for it. *)
Definition created : Server.t * world :=
  match Server.handle (Protocol.Req_create 7 $"news") server0 world0 with
  | Done s => s | _ => (server0, world0)
  end.

Abbreviation subscribe := (Protocol.Req_subscribe 8 $"alice" $"news" $"eu." 0).

Definition subscribed : Server.t * world :=
  match Server.handle subscribe created.1 created.2 with Done s => s | _ => created end.

Definition watched : list choice :=
  Handles (Protocol.Req_produce $"news" $"eu.fr" $"2") :: Worker_moves $"news" ::
  replicate 6 Main_moves ++ replicate 2 (Worker_moves $"news") ++ replicate 5 Main_moves.

Lemma created_server_wf : Server.wf created.1 created.2.
Proof.
  destruct (Server.handle_ok (Protocol.Req_create 7 $"news") server0 world0 server0_wf)
    as (this & w & Hh & Hwf & _); [split; by vm_compute|]. unfold created. by rewrite Hh.
Qed.

Lemma subscribe_sendable : Server.sendable subscribe.
Proof. split; by vm_compute. Qed.

Lemma subscribed_run :
  Server.handle subscribe created.1 created.2 = Done (subscribed.1, subscribed.2).
Proof.
  destruct (Server.handle_ok subscribe created.1 created.2 created_server_wf subscribe_sendable)
    as (this & w & Hh & _). unfold subscribed. by rewrite Hh.
Qed.

Lemma subscribe_accepted : Server.accepts $"alice" $"news" created.1 created.2 = true.
Proof. vm_compute. reflexivity. Qed.

Lemma created_topic : is_Some (Server.get_topic $"news" created.1).
Proof. apply shown. vm_compute. reflexivity. Qed.

Lemma subscribed_fifo : is_Some (Server.fifo_fd subscribed.1).
Proof. apply shown. vm_compute. reflexivity. Qed.

Lemma subscriber_shown n id this :
  match Server.get_topic n this with
  | Some tp => match Topic.subs tp !! id with Some _ => true | None => false end
  | None => false
  end = true →
  ∃ tp, Server.get_topic n this = Some tp ∧ is_Some (Topic.subs tp !! id).
Proof. destruct (Server.get_topic n this) as [tp|]; [|done]. intros Hs. exists tp. split; [done|by apply shown]. Qed.

Lemma subscriber_there :
  ∃ tp, Server.get_topic $"news" subscribed.1 = Some tp ∧ is_Some (Topic.subs tp !! $"alice").
Proof. apply subscriber_shown. vm_compute. reflexivity. Qed.

Lemma subscribed_facts :
  Server.wf subscribed.1 subscribed.2 ∧
  ∃ fd, 0 ≤ fd ∧
    Session.served_from $"alice" $"eu." fd (Server.first_offset $"alice" 0 created.1)
      (length (trace subscribed.2)) $"news" subscribed.1 subscribed.2.
Proof.
  destruct created_topic as [tp Htp]. destruct subscriber_there as (tp1 & Htp1 & Hsub).
  destruct (Session.subscription_begins 8 $"alice" $"news" $"eu." 0 created.1 created.2
    subscribed.1 subscribed.2 tp tp1 created_server_wf subscribe_sendable subscribe_accepted
    subscribed_run Htp Htp1 Hsub) as (Hwf & _ & _ & _ & _ & _ & fd & Hfd & _ & Hses).
  exact (conj Hwf (ex_intro _ fd (conj Hfd Hses))).
Qed.

Lemma watched_starts : starts watched subscribed.1 subscribed.2.
Proof.
  apply fresh_starts; [apply subscribed_facts|apply subscribed_fifo|vm_compute; reflexivity| |done].
  repeat (apply Forall_cons; split); by try apply Forall_nil.
Qed.

Definition published_state : t :=
  match run watched (at_rest subscribed.1 subscribed.2) with
  | Done s => s | _ => at_rest subscribed.1 subscribed.2
  end.

Lemma published_run : run watched (at_rest subscribed.1 subscribed.2) = Done published_state.
Proof.
  destruct (starts_run _ _ _ watched_starts) as (s & an & Hrun & _). unfold published_state.
  by rewrite Hrun.
Qed.

Lemma published_idle : idle published_state = true.
Proof. vm_compute. reflexivity. Qed.

Lemma watched_undisturbed : Forall (undisturbed $"alice") watched.
Proof. repeat (apply Forall_cons; split); by try apply Forall_nil. Qed.

Lemma served_witness :
  ∃ s' tp sub, run (turn $"news") published_state = Done s' ∧
    Server.get_topic $"news" (server s') = Some tp ∧ Topic.subs tp !! $"alice" = Some sub.
Proof.
  destruct subscribed_facts as (_ & fd & Hfd & Hses).
  destruct (subscribers_are_served _ _ _ _ _ _ _ _ _ _ watched_starts published_run
    published_idle watched_undisturbed Hfd Hses) as (s' & tp & sub & Hr & Hn & Hs & _).
  exists s', tp, sub. exact (conj Hr (conj Hn Hs)).
Defined.

End Witness.

End Progress.
