(* ===== verification/Signals.v ===== *)
(** * Signals: a signal while the main thread owns a mutex

    The handler of a signal runs on the main thread, on top of what it interrupts, and takes
    [server_mutex] and the mutexes of all topics ([Locking.take_down]). These are not
    recursive: when the interrupted program owns one of them, the main thread waits for
    itself, whatever the other threads do and whichever signals follow
    ([signal_deadlocks]). The handler has cleared [running] by then, so that no later signal
    has an effect either. *)

From S2P Require Import Prelude HashMap PrefixTree Protocol World Text Ipc Topic Server Session.
From S2P Require Import Locking Discipline Threads Progress.

Set Warnings "-clear-no-such-hyp".

Module Signals.

Import World Locking Discipline Threads Progress.
Open Scope Z_scope.

Section Specification.
Context `{KernelLaws} `{SubscriptionIndex} `{Hash str} `{Hash Z}.

(** Whatever a server that was once [this0] has become, the program does not return without
    having taken [m]. *)
Inductive must_lock (m : mutex) (this0 : Server.t) : prog → Prop :=
| must_now next : must_lock m this0 (Lock m next)
| must_later q :
    q ≠ Return →
    (∀ this w q', extends this0 this → Server.wf this w → follows this w q q' → must_lock m this0 q') →
    must_lock m this0 q.

(** The programs [lower] on the stack have been interrupted, and still are. *)
Definition interrupted (lower : list (Session.happening * prog)) (s : t) : Prop :=
  ∃ upper, upper ≠ [] ∧ stack s = upper ++ lower.

(** One of the programs on top of them must lock [m], or is a handler that is yet to find the
    server running. *)
Definition blocked (m : mutex) (this0 : Server.t) (upper : list (Session.happening * prog)) (s : t)
    : Prop :=
  (∃ i e q, upper !! i = Some (e, q) ∧ must_lock m this0 q) ∨
  (upper ≠ [] ∧ Server.running (server s) = true ∧ ∀ e q, (e, q) ∈ upper → ∃ path, q = stop path).

Record trapped (m : mutex) (this0 : Server.t) (lower : list (Session.happening * prog))
    (held : list (kind * list mutex)) (k : Z) (s : t) : Prop := {
  trapped_since : extends this0 (server s);
  trapped_frames : ∃ upper an, stack s = upper ++ lower ∧ length an = length upper ∧
    ok k (an ++ held) s ∧ blocked m this0 upper s
}.

End Specification.

Section Theory.
Context `{KernelLaws} `{SubscriptionIndex} `{Hash str} `{Hash Z}.
Implicit Types (this : Server.t) (tp : Topic.t) (w : world) (q : prog) (e : Session.happening).

(** ** What the handler must lock *)

Lemma must_next m this0 q next :
  (∀ this w q', follows this w q q' → q' = next) → q ≠ Return →
  must_lock m this0 next → must_lock m this0 q.
Proof. intros Hf Hq Hn. apply must_later; [done|]. by intros this w q' _ _ ->%Hf. Qed.

Lemma shutdown_all_locks n this0 names next :
  n ∈ names → must_lock (Topic_mutex n) this0 (shutdown_all names next).
Proof.
  induction names as [|n' names IH]; intros Hin; [by apply elem_of_nil in Hin|].
  simpl. unfold shutdown. destruct (decide (n' = n)) as [->|Hne]; [apply must_now|].
  assert (n ∈ names) as Hrest by (apply elem_of_cons in Hin as [?|?]; [congruence|done]).
  specialize (IH Hrest). eapply must_next; [by intros ? ? ? ->|done|].
  apply must_later; [done|]. intros this w q' _ _ (tp & tp' & w' & _ & Hf).
  destruct (Topic.stop_flag tp).
  - injection Hf as _ _ <-. by eapply must_next; [intros ? ? ? ->|..].
  - apply bind_Done in Hf as ([tp1 w1] & _ & [= _ _ <-]).
    repeat (eapply must_next; [by intros ? ? ? ->|done|]). done.
Qed.

Lemma take_down_locks m this0 path :
  (∀ n, m = Topic_mutex n → is_Some (Server.get_topic n this0)) →
  must_lock m this0 (take_down path).
Proof.
  intros Hm. unfold take_down. eapply must_next; [by intros ? ? ? ->|done|]. simpl.
  apply must_later; [done|]. intros this w q' _ _ (w' & [= _ <-]).
  apply must_later; [done|]. intros this1 w1 q' _ _ (w1' & Hf).
  destruct (open_ path _ _) as [fd w2]. injection Hf as _ <-.
  destruct m as [|n]; [apply must_now|]. eapply must_next; [by intros ? ? ? ->|done|].
  apply must_later; [done|]. intros this2 w3 q' Hx Hwf (this3 & w4 & [= _ _ <-]).
  apply shutdown_all_locks. apply (topic_names_some this2 w3); [done|].
  eapply extends_some; [done|]. by apply Hm.
Qed.

(** ** Trapped programs stay where they are *)

Lemma blocked_nonempty m this0 upper s : blocked m this0 upper s → upper ≠ [].
Proof. intros [(i & e & q & Hi & _)|[? _]]; [|done]. by intros ->. Qed.

(** The mutex stays with the interrupted programs. *)
Lemma trapped_owns m k an held s : m ∈ concat held.*2 → ok k (an ++ held) s → owner s !! m = Some Main_thread.
Proof.
  intros Hm Hok. apply (locks_main _ _ _ _ (ok_locks _ _ _ Hok)). rewrite fmap_app, concat_app.
  apply elem_of_app. by right.
Qed.

(** A program on top comes, goes on or returns. *)
Lemma blocked_push m this0 upper fr s :
  (∃ path, fr.2 = stop path) → blocked m this0 upper s → blocked m this0 (fr :: upper) s.
Proof.
  intros [path Hp] [(i & e & q & Hi & Hq)|(Hne & Hr & Hall)]; [left; by exists (S i), e, q|right].
  split_and!; [done|done|]. intros e q [<-|Hin]%elem_of_cons; [by exists path|eauto].
Qed.

Lemma blocked_here m this0 upper e q s : must_lock m this0 q → blocked m this0 ((e, q) :: upper) s.
Proof. intros Hq. left. by exists 0%nat, e, q. Qed.

Lemma blocked_below m this0 upper fr upper' s s' :
  blocked m this0 (fr :: upper) s →
  (∀ i e q, upper !! i = Some (e, q) → must_lock m this0 q → blocked m this0 upper' s') →
  (must_lock m this0 fr.2 → blocked m this0 upper' s') →
  (Server.running (server s) = true → (∃ path, fr.2 = stop path) → blocked m this0 upper' s') →
  blocked m this0 upper' s'.
Proof.
  intros [([|i] & e & q & Hi & Hq)|(_ & Hr & Hall)] Hlater Hnow Hstop.
  - injection Hi as ->. by apply Hnow.
  - by eapply Hlater.
  - apply Hstop; [done|]. destruct fr as [e q]. apply (Hall e). by apply list_elem_of_here.
Qed.

Lemma stop_moves e path rest s s' :
  stack s = (e, stop path) :: rest → Server.running (server s) = true → move s = Done s' →
  stack s' = (e, take_down path) :: rest.
Proof.
  destruct s as [this w o st ws]. simpl. intros -> Hr Hm. unfold move in Hm. simpl in Hm.
  rewrite Hr in Hm. simpl in Hm. by injection Hm as <-.
Qed.

(** The mutex exists, as far as it is one of a topic. *)
Definition known (m : mutex) this : Prop :=
  ∀ n, m = Topic_mutex n → is_Some (Server.get_topic n this).

Lemma trapped_main m this0 lower held k s :
  0 ≤ k → known m this0 → m ∈ concat held.*2 → trapped m this0 lower held k s →
  main_can_move s = true →
  ∃ s', move s = Done s' ∧ trapped m this0 lower held k s'.
Proof.
  intros Hk Hknown Hm [Hx (upper & an & Hst & Hlen & Hok & Hb)] Hcan.
  destruct upper as [|[e q] upper]; [by apply blocked_nonempty in Hb|].
  destruct an as [|[kd h] an]; [done|]. simpl in Hst, Hlen, Hok.
  destruct (main_moves_ok k kd h (an ++ held) e q (upper ++ lower) s Hk Hok Hst Hcan)
    as (s' & Hmove & Hx' & _ & Hgo).
  assert (must_lock m this0 q → ∃ q', stack s' = (e, q') :: upper ++ lower ∧ must_lock m this0 q') as Hmust.
  { intros Hq. assert (q ≠ Return) as Hne by (by destruct Hq).
    destruct (move_follows e q _ s s' Hst Hmove Hne) as (q' & Hf & Hst'). exists q'. split; [done|].
    destruct Hq as [next|q _ Hq].
    - unfold main_can_move in Hcan. rewrite Hst in Hcan. apply bool_decide_eq_true in Hcan.
      by rewrite (trapped_owns m k ((kd, h) :: an) held s Hm Hok) in Hcan.
    - eapply Hq; [exact Hx|apply (ok_data _ _ _ Hok)|exact Hf]. }
  exists s'. split; [done|]. split; [by transitivity (server s)|].
  assert (q = Return ∨ q ≠ Return) as [->|Hne] by (destruct q; auto).
  - destruct Hgo as (Hst' & _ & Hok'). exists upper, an. split_and!; [done|lia|done|].
    eapply blocked_below; [exact Hb| | |].
    + intros i e' q' Hi Hq'. left. by exists i, e', q'.
    + intros Hq. by inversion Hq.
    + by intros _ [path ?].
  - assert (∃ kd' h' q', stack s' = (e, q') :: upper ++ lower ∧ ok k ((kd', h') :: an ++ held) s')
      as (kd' & h' & q' & Hst' & Hok') by (destruct q; [done|..]; destruct Hgo as (kd' & h' & q' & ? & _ & ?); by exists kd', h', q').
    exists ((e, q') :: upper), ((kd', h') :: an). split_and!; [done|simpl; lia|done|].
    eapply blocked_below; [exact Hb| | |].
    + intros i e' q2 Hi Hq2. left. by exists (S i), e', q2.
    + intros (q2 & Hst2 & Hq2)%Hmust. rewrite Hst' in Hst2. injection Hst2 as ->. by apply blocked_here.
    + intros Hr [path Hp]. simpl in Hp. subst q. pose proof (stop_moves e path _ s s' Hst Hr Hmove) as Hst2.
      rewrite Hst' in Hst2. injection Hst2 as ->. by apply blocked_here, take_down_locks.
Qed.

Lemma trapped_weaken m this0 lower held k k' s :
  k' ≤ k → trapped m this0 lower held k s → trapped m this0 lower held k' s.
Proof.
  intros Hk [Hx (upper & an & Hst & Hlen & Hok & Hb)]. split; [done|]. exists upper, an.
  split_and!; [done|done|by eapply ok_less|done].
Qed.

Lemma trapped_beside c m this0 lower held k s s' :
  (∀ an, ok k an s → beside c k an s s') →
  trapped m this0 lower held k s → trapped m this0 lower held k s'.
Proof.
  intros Hs [Hx (upper & an & Hst & Hlen & Hok & Hb)].
  destruct (Hs _ Hok) as (Hx' & Hr & Hst' & Hok' & _). split; [by transitivity (server s)|].
  exists upper, an. rewrite Hst'. split_and!; try done.
  destruct Hb as [Hb|(? & ? & ?)]; [by left|right]. by rewrite Hr.
Qed.

Lemma trapped_signalled m this0 lower held k s :
  trapped m this0 lower held k s →
  ∃ s', step Signalled s = Done s' ∧ trapped m this0 lower held k s'.
Proof.
  intros [Hx (upper & an & Hst & Hlen & Hok & Hb)]. eexists. split; [done|]. split; [done|].
  eexists (_ :: upper), ((Stopping false, []) :: an). split_and!.
  - simpl. by rewrite Hst.
  - simpl. lia.
  - by apply signal_ok.
  - apply blocked_push; [by eexists|]. destruct Hb as [Hb|Hb]; [by left|by right].
Qed.

Lemma trapped_busy m this0 lower held k s : trapped m this0 lower held k s → idle s = false.
Proof.
  intros [_ (upper & an & Hst & _ & _ & Hb)]. unfold idle. rewrite Hst.
  apply blocked_nonempty in Hb. by destruct upper.
Qed.

Lemma trapped_step c m this0 lower held k s :
  0 ≤ k → admitted c → known m this0 → m ∈ concat held.*2 → trapped m this0 lower held (cost c + k) s →
  ∃ s', step c s = Done s' ∧ trapped m this0 lower held k s'.
Proof.
  intros Hk Hc Hknown Hm Ht. pose proof (cost_nonneg c).
  apply (trapped_weaken _ _ _ _ _ k) in Ht; [|lia]. unfold step.
  destruct (enabled c s) eqn:He; simpl; [|by exists s]. destruct c as [|n|n| |r|]; simpl in He.
  - by apply trapped_main.
  - assert (∃ s', worker_move n s = Done s' ∧ ∀ an, ok k an s → beside (Worker_moves n) k an s s')
      as (s' & Hmove & Hb).
    { destruct Ht as [_ (upper & an & _ & _ & Hok & _)].
      destruct (worker_moves_ok k _ n s Hk Hok He) as (s' & Hmove & _). exists s'. split; [done|].
      intros an' Hok'. destruct (worker_moves_ok k an' n s Hk Hok' He) as (s2 & Hmove2 & Hb).
      rewrite Hmove in Hmove2. by injection Hmove2 as <-. }
    exists s'. split; [done|]. by eapply trapped_beside.
  - eexists. split; [done|]. eapply trapped_beside; [|done]. intros an Hok.
    apply worker_wakes_ok; [done|]. by destruct (worker_at n s).
  - by rewrite (trapped_busy _ _ _ _ _ _ Ht) in He.
  - by rewrite (trapped_busy _ _ _ _ _ _ Ht) in He.
  - by apply trapped_signalled in Ht.
Qed.

Lemma trapped_run cs m this0 lower held k s :
  0 ≤ k → Forall admitted cs → known m this0 → m ∈ concat held.*2 →
  trapped m this0 lower held (published cs + k) s →
  ∃ s', run cs s = Done s' ∧ trapped m this0 lower held k s'.
Proof.
  intros Hk Hcs Hknown Hm. revert s. induction Hcs as [|c cs Hc _ IH]; intros s Ht; [by exists s|].
  cbn [published] in Ht. rewrite <- Z.add_assoc in Ht. pose proof (published_choices_nonneg cs).
  destruct (trapped_step c m this0 lower held (published cs + k) s ltac:(lia) Hc Hknown Hm Ht)
    as (s1 & Hs & Ht1).
  destruct (IH s1 Ht1) as (s' & Hr & Ht'). exists s'. split; [|done]. simpl. by rewrite Hs.
Qed.

(** The signal that does it. *)
Lemma signal_traps m an k s :
  ok k an s → Server.running (server s) = true →
  ∃ s', step Signalled s = Done s' ∧ trapped m (server s) (stack s) an k s'.
Proof.
  intros Hok Hr. eexists. split; [done|]. split; [done|].
  eexists [_], [(Stopping false, [])]. split_and!; [done|done|by apply signal_ok|].
  right. split_and!; [done|done|]. intros e q [= _ ->]%list_elem_of_singleton. by eexists.
Qed.

(** ** Property *)

(** C13: A signal can hang the server for good: if it comes while the server runs and the main
    thread owns a mutex, of the server or of a topic, then the program that was interrupted
    never goes on, whatever the workers do, whichever signals follow and however the main
    thread moves: the handler waits for a mutex of its own thread. *)
Theorem signal_deadlocks (cs cs' : list choice) this w (s : t) (m : mutex)
    (Hstart : starts (cs ++ Signalled :: cs') this w) (Hrun : run cs (at_rest this w) = Done s)
    (Howner : owner s !! m = Some Main_thread) (Hrunning : Server.running (server s) = true) :
  ∃ s', run (Signalled :: cs') s = Done s' ∧ interrupted (stack s) s' ∧ idle s' = false.
Proof.
  destruct Hstart as [Hwf Hf Hserv Hcs Hroom]. apply Forall_app in Hcs as [Hcs [_ Hcs']%Forall_cons].
  pose proof (start_ok _ _ _ Hwf Hf Hserv Hroom) as Hok. rewrite published_choices_app in Hok. simpl in Hok.
  pose proof (published_choices_nonneg cs') as Hk.
  destruct (schedule_ok cs (published cs') [] _ Hk Hcs Hok) as (s1 & an & Hrun1 & Hok1 & _).
  rewrite Hrun in Hrun1. injection Hrun1 as <-. pose proof (ok_locks _ _ _ Hok1) as Hl.
  destruct (signal_traps m an (published cs') s Hok1 Hrunning) as (s2 & Hs2 & Ht).
  rewrite <- (Z.add_0_r (published cs')) in Ht.
  destruct (trapped_run cs' m (server s) (stack s) an 0 s2 ltac:(done) Hcs') as (s' & Hr' & Ht'); [| |exact Ht|].
  - intros n ->. by apply (locks_topic _ _ _ _ Hl) in Howner.
  - by apply (locks_main _ _ _ _ Hl).
  - exists s'. split; [cbn [run]; by rewrite Hs2|]. split; [|by eapply trapped_busy].
    destruct Ht' as [_ (upper & an' & Hst & _ & _ & Hb)]. exists upper.
    split; [by eapply blocked_nonempty|done].
Qed.

End Theory.

(** ** Witnesses *)

Module Witness.

Import World.Simple PrefixTree.Witness Topic.Witness Server.Witness Threads.Witness.

(** The main thread is about to append a message, under the lock of the topic. The worker
    moves, another signal comes, everybody moves again. *)
Definition afterwards : list choice :=
  replicate 9 Main_moves ++ Worker_moves $"news" :: Signalled :: replicate 9 Main_moves.

Lemma afterwards_starts :
  starts (take 11 schedule ++ Signalled :: afterwards) served.1 served.2.
Proof.
  apply served_starts; [|done]. apply Forall_app. split; [apply Forall_take, schedule_starts|].
  repeat (apply Forall_cons; split); by try apply Forall_nil.
Qed.

Lemma middle_facts :
  owner (reached (take 11 schedule)) !! Topic_mutex $"news" = Some Main_thread ∧
  Server.running (server (reached (take 11 schedule))) = true.
Proof. split; vm_compute; reflexivity. Qed.

Lemma signal_witness :
  ∃ s s', run (take 11 schedule) (at_rest served.1 served.2) = Done s ∧
    run (Signalled :: afterwards) s = Done s' ∧ interrupted (stack s) s' ∧ idle s' = false.
Proof.
  pose proof (reached_run _ middle_starts) as Hrun. destruct middle_facts as [Ho Hr].
  destruct (signal_deadlocks _ _ _ _ _ _ afterwards_starts Hrun Ho Hr) as (s' & H1 & H2 & H3).
  exists (reached (take 11 schedule)), s'. exact (conj Hrun (conj H1 (conj H2 H3))).
Defined.

End Witness.

End Signals.
