(* ===== verification/Ending.v ===== *)
(** * Ending: a signal at the right time

    When a signal finds the main thread in its loop, its handler runs to its end, whatever the
    workers are doing, and leaves nothing behind: every topic is stopped, with no subscriber
    left and its worker out of the loop ([signal_ends_workers]). It does so wherever the main
    thread is interrupted if that owns no mutex there, and only then ([signal_returns_iff]):
    Signals.v shows what happens otherwise. The proof goes through
    [Locking.stop] access by access ([leads]), with assertions on the server and on where the
    workers are that no move of a worker can make false ([kept]). *)

From S2P Require Import Prelude HashMap PrefixTree Protocol World Text Ipc Topic Server Session.
From S2P Require Import Locking Discipline Threads Progress Signals.

Set Warnings "-clear-no-such-hyp".

Module Ending.

Import World Locking Discipline Threads Progress Signals.
Open Scope Z_scope.

Section Specification.
Context `{KernelLaws} `{SubscriptionIndex} `{Hash str} `{Hash Z}.
Implicit Types (this : Server.t) (ws : gmap str worker).

(** A topic that has come to its end: stopped, without subscribers, its worker gone. *)
Definition over (n : str) this ws : Prop :=
  ∃ tp, Server.get_topic n this = Some tp ∧ Topic.stop_flag tp = true ∧ Topic.subs tp = ∅ ∧
        ws !! n = Some Finished.

(** A topic that is signed off, but whose worker may be there. *)
Definition signed (n : str) this : Prop :=
  ∃ tp, Server.get_topic n this = Some tp ∧ Topic.stop_flag tp = true ∧ Topic.subs tp = ∅.

Definition unstopped (n : str) this : Prop :=
  ∃ tp, Server.get_topic n this = Some tp ∧ Topic.stop_flag tp = false.

(** The topics in [todo] are as they were, [now] is being stopped, the others are over. *)
Definition ending (todo : str → Prop) (now : option str) this ws : Prop :=
  Server.running this = false ∧
  ∀ n, is_Some (Server.get_topic n this) →
    over n this ws ∨ (todo n ∧ unstopped n this) ∨ (now = Some n ∧ signed n this).

(** No topic has been stopped. *)
Definition before (running : bool) this (ws : gmap str worker) : Prop :=
  Server.running this = running ∧ ∀ n, is_Some (Server.get_topic n this) → unstopped n this.

(** An assertion that the workers keep. *)
Definition kept (P : Server.t → gmap str worker → Prop) : Prop :=
  ∀ k an n s s', 0 ≤ k → ok k an s → worker_can_move n s = true → worker_move n s = Done s' →
    P (server s) (workers s) → P (server s') (workers s').

(** With [P] and the program on top of the stack, it can return, with [Q]. *)
Definition leads (k : Z) (an : list (kind * list mutex)) (rest : list (Session.happening * prog))
    (q : prog) (P Q : Server.t → gmap str worker → Prop) : Prop :=
  ∀ kd held e s, ok k ((kd, held) :: an) s → stack s = (e, q) :: rest → P (server s) (workers s) →
    ∃ cs s', Forall moves cs ∧ run cs s = Done s' ∧ ok k an s' ∧ stack s' = rest ∧
      Q (server s') (workers s').

End Specification.

Section Theory.
Context `{KernelLaws} `{SubscriptionIndex} `{Hash str} `{Hash Z}.
Implicit Types (this : Server.t) (tp : Topic.t) (w : world) (q : prog) (e : Session.happening)
  (ws : gmap str worker) (P Q : Server.t → gmap str worker → Prop).

(** ** What the workers keep *)

Lemma pass_keeps tp w tp' w' :
  Topic.pass tp w = Done (tp', w') →
  Topic.stop_flag tp' = Topic.stop_flag tp ∧ (Topic.stop_flag tp = true → Topic.subs tp' = Topic.subs tp).
Proof.
  unfold Topic.pass. destruct (Topic.stop_flag tp) eqn:Hst.
  - by intros [= <- _].
  - by intros ([subs w1] & _ & [= <- _])%bind_Done.
Qed.

(** What a worker changes, in the topics and in the places of the workers. *)
Lemma worker_changes k an n s s' :
  0 ≤ k → ok k an s → worker_can_move n s = true → worker_move n s = Done s' →
  Server.running (server s') = Server.running (server s) ∧
  (∀ m, m ≠ n → workers s' !! m = workers s !! m) ∧
  (workers s !! n ≠ Some Finished) ∧
  ∀ m tp', Server.get_topic m (server s') = Some tp' →
    ∃ tp, Server.get_topic m (server s) = Some tp ∧ Topic.stop_flag tp' = Topic.stop_flag tp ∧
          (Topic.stop_flag tp = true → Topic.subs tp' = Topic.subs tp).
Proof.
  destruct s as [this w o st ws]. intros Hk Hok Hcan Hm. simpl.
  unfold worker_can_move, worker_move, worker_at in *. simpl in *.
  destruct (Server.get_topic n this) as [tp|] eqn:Hn; [|done]. simpl in Hm.
  assert (ws !! n ≠ Some Finished) as Hfin by (intros Hf; by rewrite Hf in Hcan).
  assert (∀ p o', mkSystem this w o' st (<[n := p]> ws) = s' →
    Server.running (server s') = Server.running this ∧
    (∀ m, m ≠ n → workers s' !! m = ws !! m) ∧ ws !! n ≠ Some Finished ∧
    ∀ m tp', Server.get_topic m (server s') = Some tp' →
      ∃ tp, Server.get_topic m this = Some tp ∧ Topic.stop_flag tp' = Topic.stop_flag tp ∧
            (Topic.stop_flag tp = true → Topic.subs tp' = Topic.subs tp)) as Hquiet.
  { intros p o' <-. split_and!; [done| |done|by eauto]. intros m Hne. simpl. by rewrite lookup_insert_ne. }
  destruct (default Locks (ws !! n)); try done.
  - injection Hm as Hm. by eapply Hquiet.
  - destruct (Topic.has_work tp); injection Hm as Hm; by eapply Hquiet.
  - apply bind_Done in Hm as ([tp1 w1] & Hp & [= <-]). simpl. split_and!; [done| |done|].
    + intros m Hne. by rewrite lookup_insert_ne.
    + intros m tp'. rewrite Server.get_set_topic by (apply (data_wf _ _ _ _ (ok_data _ _ _ Hok)) || eauto).
      case_decide as Hmn; [subst m|by eauto]. intros [= <-]. exists tp. split; [done|].
      by eapply pass_keeps.
  - injection Hm as Hm. by eapply Hquiet.
Qed.

Lemma signed_kept k an n s s' m :
  0 ≤ k → ok k an s → worker_can_move n s = true → worker_move n s = Done s' →
  signed m (server s) → signed m (server s').
Proof.
  intros Hk Hok Hcan Hm (tp & Hn & Hst & Hs).
  destruct (worker_changes k an n s s' Hk Hok Hcan Hm) as (_ & _ & _ & Htopics).
  destruct (worker_moves_ok k an n s Hk Hok Hcan) as (s2 & Hm2 & Hx & _).
  rewrite Hm in Hm2. injection Hm2 as <-.
  destruct (extends_topics _ _ Hx m tp Hn) as (tp' & Hn' & _).
  destruct (Htopics m tp' Hn') as (tp0 & Hn0 & Hst' & Hs'). rewrite Hn in Hn0. injection Hn0 as <-.
  exists tp'. split_and!; [done|congruence|]. rewrite Hs' by done. done.
Qed.

Lemma ending_kept todo now : kept (ending todo now).
Proof.
  intros k an n s s' Hk Hok Hcan Hm [Hr Hall].
  destruct (worker_changes k an n s s' Hk Hok Hcan Hm) as (Hr' & Hws & Hfin & Htopics).
  split; [congruence|]. intros m [tp' Hn']. destruct (Htopics m tp' Hn') as (tp & Hn & Hst & Hs).
  destruct (Hall m ltac:(by eexists)) as [(tp0 & Hn0 & Hst0 & Hs0 & Hw)|[[Ht (tp0 & Hn0 & Hst0)]|[Hnow Hsig]]].
  - left. rewrite Hn in Hn0. injection Hn0 as <-. exists tp'. split_and!; [done|congruence| |].
    + by rewrite Hs.
    + rewrite Hws; [done|]. by intros ->.
  - right; left. rewrite Hn in Hn0. injection Hn0 as <-. split; [done|]. exists tp'. split; [done|congruence].
  - right; right. split; [done|]. by eapply signed_kept.
Qed.

Lemma kept_run P cs k an s s' :
  kept P → 0 ≤ k → Forall works cs → ok k an s → run cs s = Done s' →
  P (server s) (workers s) → P (server s') (workers s').
Proof.
  intros HP Hk Hcs. revert s. induction Hcs as [|c cs Hc _ IH]; intros s Hok Hrun HPs.
  { by injection Hrun as <-. }
  destruct c as [|n| | | |]; try done. cbn [run] in Hrun. unfold step in Hrun. cbn [enabled] in Hrun.
  destruct (worker_can_move n s) eqn:Hcan; simpl in Hrun; [|by apply (IH s)].
  destruct (worker_moves_ok k an n s Hk Hok Hcan) as (s1 & Hm & _ & _ & _ & Hok1 & _).
  rewrite Hm in Hrun. eapply (IH s1); [done|exact Hrun|]. exact (HP k an n s s1 Hk Hok Hcan Hm HPs).
Qed.

Lemma before_kept b : kept (before b).
Proof.
  intros k an n s s' Hk Hok Hcan Hm [Hr Hall].
  destruct (worker_changes k an n s s' Hk Hok Hcan Hm) as (Hr' & _ & _ & Htopics).
  split; [congruence|]. intros m [tp' Hn']. destruct (Htopics m tp' Hn') as (tp & Hn & Hst & _).
  destruct (Hall m ltac:(by eexists)) as (tp0 & Hn0 & Hst0). rewrite Hn in Hn0. injection Hn0 as <-.
  exists tp'. split; [done|congruence].
Qed.

(** *** The end of a topic *)

(** Topics that an access to topic [n] passes by. *)
Lemma ending_set_topic n tp' (names : list str) now this w ws :
  Server.wf this w → is_Some (Server.get_topic n this) →
  ending (λ m, m ∈ n :: names) None this ws →
  (over n (Server.set_topic n tp' this) ws ∨
   now = Some n ∧ signed n (Server.set_topic n tp' this)) →
  ending (λ m, m ∈ names) now (Server.set_topic n tp' this) ws.
Proof.
  intros Hwf Hn [Hr Hall] Hthis. split; [done|]. intros m. destruct (decide (n = m)) as [<-|Hne].
  { intros _. destruct Hthis; auto. }
  assert (Server.get_topic m (Server.set_topic n tp' this) = Server.get_topic m this) as Hget
    by (rewrite Server.get_set_topic by (apply Hwf || done); by rewrite decide_False).
  rewrite Hget. intros Hm. unfold over, unstopped, signed. rewrite Hget.
  destruct (Hall m Hm) as [Ho|[[Hin Hu]|[? _]]]; [by left| |done]. right; left. split; [|done].
  apply elem_of_cons in Hin as [?|?]; [congruence|done].
Qed.

Lemma ending_stopped n tp (names : list str) this w ws :
  Server.wf this w → Server.get_topic n this = Some tp → Topic.stop_flag tp = true →
  ending (λ m, m ∈ n :: names) None this ws →
  ending (λ m, m ∈ names) None (Server.set_topic n tp this) ws.
Proof.
  intros Hwf Hn Hst He. eapply ending_set_topic; [done|by eexists|done|]. left.
  destruct (proj2 He n ltac:(by eexists)) as [(tp0 & Hn0 & Ho)|[[_ (tp0 & Hn0 & Hu)]|[? _]]]; [|congruence|done].
  rewrite Hn in Hn0. injection Hn0 as <-. exists tp.
  rewrite Server.get_set_topic by (apply Hwf || by eexists). by rewrite decide_True.
Qed.

Lemma ending_signed_off n tp (names : list str) this w tp' w' ws :
  Server.wf this w → Server.get_topic n this = Some tp → Topic.sign_off tp w = Done (tp', w') →
  ending (λ m, m ∈ n :: names) None this ws →
  ending (λ m, m ∈ names) (Some n) (Server.set_topic n tp' this) ws.
Proof.
  intros Hwf Hn Hoff He. eapply ending_set_topic; [done|by eexists|done|]. right. split; [done|].
  destruct (Topic.sign_off_facts tp w (Server.wf_topic _ _ Hwf n tp Hn)) as (subs & w2 & tr & Hoff2 & _ & Hs & _).
  rewrite Hoff in Hoff2. injection Hoff2 as -> _. eexists.
  rewrite Server.get_set_topic by (apply Hwf || by eexists). by rewrite decide_True.
Qed.

Lemma ending_woken n (names : list str) this ws :
  ws !! n = Some Asleep → ending (λ m, m ∈ names) (Some n) this ws →
  ending (λ m, m ∈ names) (Some n) this (<[n := Locks]> ws).
Proof.
  intros Hw [Hr Hall]. split; [done|]. intros m Hm.
  destruct (Hall m Hm) as [(tp & ? & ? & ? & Ho)|?]; [left|by right].
  exists tp. rewrite lookup_insert_ne by congruence. done.
Qed.

Lemma ending_joined n (names : list str) this ws :
  ws !! n = Some Finished → ending (λ m, m ∈ names) (Some n) this ws →
  ending (λ m, m ∈ names) None this ws.
Proof.
  intros Hw [Hr Hall]. split; [done|]. intros m Hm.
  destruct (Hall m Hm) as [?|[?|[[= <-] (tp & ? & ? & ?)]]]; auto. left. by exists tp.
Qed.

Lemma ending_begins this w ws :
  Server.wf this w → before false this ws → ending (λ m, m ∈ topic_names this) None this ws.
Proof.
  intros Hwf [Hr Hall]. split; [done|]. intros n Hn. right; left. split; [|by apply Hall].
  by apply (topic_names_some this w).
Qed.

(** ** Going through a program *)

Section Going.
Variable k : Z.
Hypothesis Hk : 0 ≤ k.
Variable an : list (kind * list mutex).
Hypothesis Han : Forall (λ a, a.2 = []) an.
Variable rest : list (Session.happening * prog).
#[local] Notation leads := (leads k an rest).

Lemma leads_step q P Q :
  kept P → q ≠ Return →
  (∀ kd held e this w o ws s2,
     ok k ((kd, held) :: an) (mkSystem this w o ((e, q) :: rest) ws) → P this ws →
     main_can_move (mkSystem this w o ((e, q) :: rest) ws) = true →
     move (mkSystem this w o ((e, q) :: rest) ws) = Done s2 →
     ∃ q' P', stack s2 = (e, q') :: rest ∧ P' (server s2) (workers s2) ∧ leads q' P' Q) →
  leads q P Q.
Proof.
  intros HP Hne Hstep kd held e s Hok Hst HPs.
  destruct (main_goes k kd held an e q rest s Hk Hok Han Hst)
    as (cs1 & s1 & Hcs1 & Hr1 & Hok1 & Hst1 & Hcan). rewrite Hst in Hst1.
  pose proof (kept_run P cs1 k _ s s1 HP Hk Hcs1 Hok Hr1 HPs) as HP1.
  destruct (main_moves_ok k kd held an e q rest s1 Hk Hok1 Hst1 Hcan) as (s2 & Hm & _ & _ & Hgo).
  assert (∃ kd2 held2 q2, stack s2 = (e, q2) :: rest ∧ ok k ((kd2, held2) :: an) s2)
    as (kd2 & held2 & q2 & Hst2 & Hok2).
  { destruct q; [done|..]; destruct Hgo as (kd2 & held2 & q2 & ? & _ & ?); by exists kd2, held2, q2. }
  destruct (Hstep kd held e (server s1) (world_of s1) (owner s1) (workers s1) s2) as (q' & P' & Hst' & HP' & Hl);
    try (rewrite <- Hst1; by destruct s1); [done|].
  destruct (Hl kd2 held2 e s2 Hok2 Hst' HP') as (cs3 & s3 & Hcs3 & Hr3 & Hok3 & Hst3 & HQ).
  exists ((cs1 ++ [Main_moves]) ++ cs3), s3. split_and!; try done.
  - repeat (apply Forall_app; split); [by apply works_move|by constructor|done].
  - rewrite !threads_run_app, Hr1. cbn [mbind outcome_bind run]. unfold step. cbn [enabled].
    rewrite Hcan. cbn [negb mbind outcome_bind]. by rewrite Hm.
Qed.

Lemma leads_return P : leads Return P P.
Proof.
  intros kd held e s Hok Hst HPs. assert (main_can_move s = true) as Hcan
    by (unfold main_can_move; by rewrite Hst).
  destruct (main_moves_ok k kd held an e Return rest s Hk Hok Hst Hcan) as (s2 & Hm & _ & _ & Hst2 & _ & Hok2).
  exists [Main_moves], s2. split_and!; [by constructor| |done|done|].
  - simpl. unfold step. simpl. by rewrite Hcan, Hm.
  - unfold move in Hm. rewrite Hst in Hm. by injection Hm as <-.
Qed.

Lemma leads_weaken q P P' Q : (∀ this ws, P this ws → P' this ws) → leads q P' Q → leads q P Q.
Proof. intros HP Hl kd held e s Hok Hst HPs. by eapply Hl; [| |apply HP]. Qed.

Lemma leads_lock m q P Q : kept P → leads q P Q → leads (Lock m q) P Q.
Proof. intros HP Hl. apply leads_step; [done..|]. intros * _ HPs _ [= <-]. by exists q, P. Qed.

Lemma leads_unlock m q P Q : kept P → leads q P Q → leads (Unlock m q) P Q.
Proof. intros HP Hl. apply leads_step; [done..|]. intros * _ HPs _ [= <-]. by exists q, P. Qed.

Lemma leads_calls f P Q :
  kept P → (∀ w w' q, f w = Done (w', q) → leads q P Q) → leads (Calls f) P Q.
Proof.
  intros HP Hl. apply leads_step; [done..|]. intros * _ HPs _ Hm. unfold move in Hm. simpl in Hm.
  apply bind_Done in Hm as ([w' q] & Hf & [= <-]). exists q, P. split_and!; [done|done|by eapply Hl].
Qed.

Lemma leads_running f P P' Q :
  kept P →
  (∀ this ws, P this ws → P' (Server.with_running (f (Server.running this)).1 this) ws) →
  (∀ this ws, P this ws → leads (f (Server.running this)).2 P' Q) → leads (On_running f) P Q.
Proof.
  intros HP HP' Hl. apply leads_step; [done..|]. intros * _ HPs _ Hm. unfold move in Hm. simpl in Hm.
  specialize (HP' this ws HPs). specialize (Hl this ws HPs).
  destruct (f (Server.running this)) as [b q]. injection Hm as <-. by exists q, P'.
Qed.

(** The assertion may depend on what is found. *)
Lemma leads_server f P Q :
  kept P →
  (∀ this w this' w' q ws, Server.wf this w → f this w = Done (this', w', q) → P this ws →
     ∃ P', P' this' ws ∧ leads q P' Q) → leads (On_server f) P Q.
Proof.
  intros HP Hl. apply leads_step; [done..|]. intros * Hok HPs _ Hm. unfold move in Hm. simpl in Hm.
  apply bind_Done in Hm as ([[this' w'] q] & Hf & [= <-]).
  destruct (Hl this w this' w' q ws (data_wf _ _ _ _ (ok_data _ _ _ Hok)) Hf HPs) as (P' & HP' & Hq).
  by exists q, P'.
Qed.

Lemma leads_topic n f P Q :
  kept P →
  (∀ this tp w tp' w' q ws, Server.wf this w → Server.get_topic n this = Some tp →
     f tp w = Done (tp', w', q) → P this ws →
     ∃ P', P' (Server.set_topic n tp' this) ws ∧ leads q P' Q) → leads (On_topic n f) P Q.
Proof.
  intros HP Hl. apply leads_step; [done..|]. intros * Hok HPs _ Hm. unfold move in Hm. simpl in Hm.
  apply bind_Done in Hm as (tp & Htp & ([[tp' w'] q] & Hf & [= <-])%bind_Done).
  destruct (Server.get_topic n this) as [tp0|] eqn:Hn; [|done]. injection Htp as ->.
  destruct (Hl this tp w tp' w' q ws (data_wf _ _ _ _ (ok_data _ _ _ Hok)) Hn Hf HPs) as (P' & HP' & Hq).
  by exists q, P'.
Qed.

(** A worker that is woken up has not left. *)
Lemma leads_notify n q P Q :
  kept P → (∀ this ws, ws !! n = Some Asleep → P this ws → P this (<[n := Locks]> ws)) →
  leads q P Q → leads (Notify_all n q) P Q.
Proof.
  intros HP Hwake Hl. apply leads_step; [done..|]. intros * _ HPs _ [= <-]. exists q, P.
  split_and!; [done| |done]. unfold wake, worker_at. simpl.
  destruct (ws !! n) as [[]|] eqn:Hn; simpl; try done. by apply Hwake.
Qed.

Lemma leads_join n q P P' Q :
  kept P → (∀ this ws, ws !! n = Some Finished → P this ws → P' this ws) →
  leads q P' Q → leads (Join n q) P Q.
Proof.
  intros HP Hfin Hl. apply leads_step; [done..|]. intros * _ HPs Hcan [= <-]. exists q, P'.
  split_and!; [done| |done]. simpl. apply Hfin; [|done].
  unfold main_can_move, worker_at in Hcan. simpl in Hcan. by destruct (ws !! n) as [[]|].
Qed.

(** *** The handler *)

Lemma leads_shutdown n names next Q :
  leads next (ending (λ m, m ∈ names) None) Q →
  leads (shutdown n next) (ending (λ m, m ∈ n :: names) None) Q.
Proof.
  intros Hnext. apply leads_lock; [apply ending_kept|]. apply leads_topic; [apply ending_kept|].
  intros this tp w tp' w' q ws Hwf Hn Hf He. destruct (Topic.stop_flag tp) eqn:Hst.
  - injection Hf as <- <- <-. eexists. split; [by eapply ending_stopped|].
    apply leads_unlock; [apply ending_kept|done].
  - apply bind_Done in Hf as ([tp1 w1] & Hoff & [= <- <- <-]).
    eexists. split; [by eapply ending_signed_off|].
    apply leads_unlock; [apply ending_kept|].
    apply leads_notify; [apply ending_kept|intros *; apply ending_woken|].
    eapply leads_join; [apply ending_kept|intros *; apply ending_joined|done].
Qed.

Lemma leads_shutdown_all names next Q :
  leads next (ending (λ m, m ∈ []) None) Q →
  leads (shutdown_all names next) (ending (λ m, m ∈ names) None) Q.
Proof. intros Hnext. induction names as [|n names IH]; [done|]. by apply leads_shutdown. Qed.

Lemma leads_stop path : leads (stop path) (before true) (ending (λ m, m ∈ []) None).
Proof.
  apply (leads_running _ _ (before true)); [apply before_kept|by intros this ws [-> ?]|].
  intros this ws [-> _]. simpl.
  apply (leads_running _ _ (before false)); [apply before_kept|by intros ? ? [_ ?]|]. intros _ _ _.
  apply leads_calls; [apply before_kept|]. intros w w' q [= _ <-].
  apply leads_calls; [apply before_kept|]. intros w1 w1' q.
  destruct (open_ path _ _) as [fd w2]. intros [= _ <-].
  apply leads_lock; [apply before_kept|]. apply leads_server; [apply before_kept|].
  intros this1 w3 this2 w4 q1 ws1 Hwf [= <- <- <-] Hb. eexists. split; [by eapply ending_begins|].
  apply leads_shutdown_all. apply leads_server; [apply ending_kept|].
  intros this3 w5 this4 w6 q2 ws2 _ (fd' & _ & [= <- <- <-])%bind_Done He. eexists. split; [exact He|].
  apply leads_unlock; [apply ending_kept|]. apply leads_return.
Qed.

End Going.

(** ** When the main thread owns a mutex, and when it does not *)

Lemma owns_no_mutex k an s :
  ok k an s → (∀ m, owner s !! m ≠ Some Main_thread) → Forall (λ a, a.2 = []) an.
Proof.
  intros Hok Hfree. apply Forall_forall. intros [kd held] Hin. simpl.
  destruct held as [|m held]; [done|]. destruct (Hfree m).
  apply (locks_main _ _ _ _ (ok_locks _ _ _ Hok)). apply elem_of_concat.
  apply list_elem_of_lookup in Hin as [i Hi]. exists i, (m :: held).
  split; [by rewrite list_lookup_fmap, Hi|by left].
Qed.

Lemma moves_publish_nothing cs : Forall moves cs → published cs = 0 ∧ Forall admitted cs.
Proof.
  induction 1 as [|c cs Hc _ [IH Hadm]]; [done|].
  destruct c; try done; (split; [simpl; rewrite IH; done|by constructor]).
Qed.

Lemma owner_blocks an s m cs s' :
  ok 0 an s → owner s !! m = Some Main_thread → Server.running (server s) = true →
  Forall moves cs → run (Signalled :: cs) s = Done s' → stack s' ≠ stack s.
Proof.
  intros Hok Hm Hr Hcs Hrun Hst. pose proof (ok_locks _ _ _ Hok) as Hl.
  destruct (moves_publish_nothing cs Hcs) as [Hpub Hadm].
  destruct (signal_traps m an 0 s Hok Hr) as (s1 & Hs1 & Ht).
  cbn [run] in Hrun. rewrite Hs1 in Hrun. cbn [mbind outcome_bind] in Hrun.
  destruct (trapped_run cs m (server s) (stack s) an 0 s1) as (s2 & Hs2 & Ht2); [done|done| | |by rewrite Hpub|].
  - intros n ->. by apply (locks_topic _ _ _ _ Hl) in Hm.
  - by apply (locks_main _ _ _ _ Hl).
  - rewrite Hrun in Hs2. injection Hs2 as <-.
    destruct Ht2 as [_ (upper & an' & Hst2 & _ & _ & Hb%blocked_nonempty)]. rewrite Hst in Hst2.
    destruct upper; [done|]. apply (f_equal length) in Hst2. simpl in Hst2. rewrite length_app in Hst2. lia.
Qed.

(** ** Property *)

(** C17: Which signals end the server. Wherever a signal interrupts the main thread, in its loop,
    in the middle of a handler, or in the handler of another request that it works on, while
    the server runs and no topic has been stopped: the handler of the signal can run to its
    end and give the main thread back to what it interrupted, with every topic stopped, no
    subscriber left and every worker out of its loop, if and only if the main thread owns no
    mutex at that point. If it owns one, no moves of the threads lead there. *)
Theorem signal_returns_iff (cs : list choice) this w (s : t)
    (Hstart : starts cs this w) (Hrun : run cs (at_rest this w) = Done s)
    (Hrunning : Server.running (server s) = true)
    (Hnone : ∀ n, is_Some (Server.get_topic n (server s)) → unstopped n (server s)) :
  (∃ cs' s', Forall moves cs' ∧ run (Signalled :: cs') s = Done s' ∧ stack s' = stack s ∧
     Server.running (server s') = false ∧
     ∀ n, is_Some (Server.get_topic n (server s')) → over n (server s') (workers s')) ↔
  ∀ m, owner s !! m ≠ Some Main_thread.
Proof.
  destruct (reached_ok cs this w s Hstart Hrun) as [an Hok]. split.
  - intros (cs' & s' & Hcs' & Hrun' & Hst & _) m Hm. by eapply owner_blocks.
  - intros Hfree. pose proof (signal_ok _ _ _ Hok) as Hok1.
    destruct (leads_stop 0 ltac:(done) an (owns_no_mutex _ _ _ Hok Hfree) (stack s)
      (Server.server_path (server s)) (Stopping false) [] Session.Stops _ Hok1)
      as (cs' & s' & Hcs' & Hr & _ & Hst' & [Hr' Hall]); [done|done|].
    exists cs', s'. split_and!; [done| |done|done|].
    + cbn [run]. unfold step. cbn [enabled negb]. exact Hr.
    + intros n Hn. destruct (Hall n Hn) as [?|[[Hin _]|[? _]]]; [done| |done]. by apply elem_of_nil in Hin.
Qed.

(** C14: A signal that finds the main thread in its loop ends the server cleanly: wherever the
    workers are then, the handler can run to its end, by moves of the main thread and the
    workers alone, with every topic stopped, no subscriber left and every worker out of its
    loop. *)
Theorem signal_ends_workers (cs : list choice) this w (s : t)
    (Hstart : starts cs this w) (Hrun : run cs (at_rest this w) = Done s) (Hidle : idle s = true)
    (Hrunning : Server.running (server s) = true)
    (Hnone : ∀ n, is_Some (Server.get_topic n (server s)) → unstopped n (server s)) :
  ∃ cs' s', Forall moves cs' ∧ run (Signalled :: cs') s = Done s' ∧ idle s' = true ∧
    Server.running (server s') = false ∧
    ∀ n, is_Some (Server.get_topic n (server s')) → over n (server s') (workers s').
Proof.
  destruct (reached_ok cs this w s Hstart Hrun) as [an Hok].
  rewrite (idle_annotated _ _ _ Hok Hidle) in Hok. pose proof (signal_ok _ _ _ Hok) as Hok1.
  destruct (leads_stop 0 ltac:(done) [] ltac:(constructor) [] (Server.server_path (server s))
    (Stopping false) [] Session.Stops _ Hok1) as (cs' & s' & Hcs' & Hr & _ & Hst' & [Hr' Hall]).
  - simpl. unfold idle in Hidle. by destruct (stack s).
  - done.
  - exists cs', s'. split_and!; [done| |unfold idle; by rewrite Hst'|done|].
    + cbn [run]. unfold step. cbn [enabled negb]. exact Hr.
    + intros n Hn. destruct (Hall n Hn) as [?|[[Hin _]|[? _]]]; [done| |done]. by apply elem_of_nil in Hin.
Qed.

End Theory.

(** ** Witness *)

Module Witness.

Import World.Simple PrefixTree.Witness Topic.Witness Server.Witness Threads.Witness.

Lemma unstopped_entries this :
  HashMap.wf (Server.topics this) → fresh this = true →
  ∀ n, is_Some (Server.get_topic n this) → unstopped n this.
Proof.
  intros Ht Hall n [tp Hn]. exists tp. split; [done|]. apply Server.get_topic_Some in Hn.
  rewrite <- HashMap.entries_elem_of in Hn by done. unfold fresh in Hall. rewrite forallb_forall in Hall.
  specialize (Hall (n, Some tp) ltac:(by apply list_elem_of_In)). simpl in Hall.
  apply andb_prop in Hall as [[Hst _]%andb_prop _]. by apply negb_true_iff.
Qed.

(** A message has been published, and the worker is in the middle of its turn. *)
Lemma published_facts :
  Server.running (server (reached publishing)) = true ∧
  ∀ n, is_Some (Server.get_topic n (server (reached publishing))) →
       unstopped n (server (reached publishing)).
Proof.
  split; [vm_compute; reflexivity|]. apply unstopped_entries; [|vm_compute; reflexivity].
  destruct (reached_ok _ _ _ _ publishing_starts (reached_run _ publishing_starts)) as [an Hok].
  apply (data_wf _ _ _ _ (ok_data _ _ _ Hok)).
Qed.

Lemma ending_witness :
  ∃ s cs' s', run publishing (at_rest served.1 served.2) = Done s ∧ Forall moves cs' ∧
    run (Signalled :: cs') s = Done s' ∧ idle s' = true ∧ Server.running (server s') = false.
Proof.
  pose proof (reached_run _ publishing_starts) as Hrun. destruct published_facts as [Hr Hn].
  destruct (signal_ends_workers _ _ _ _ publishing_starts Hrun publishing_ends Hr Hn)
    as (cs' & s' & H1 & H2 & H3 & H4 & _).
  exists (reached publishing), cs', s'. exact (conj Hrun (conj H1 (conj H2 (conj H3 H4)))).
Defined.

(** The main thread has read a request to publish, but has not looked for its topic yet; the
    worker is in its turn. Then, as against this, it is about to append the message. *)
Lemma early_starts : starts (take 3 schedule) served.1 served.2.
Proof. apply served_starts; [|done]. apply Forall_take, schedule_starts. Qed.

Lemma unstopped_when_fresh cs :
  starts cs served.1 served.2 → fresh (server (reached cs)) = true →
  ∀ n, is_Some (Server.get_topic n (server (reached cs))) → unstopped n (server (reached cs)).
Proof.
  intros Hst Hf. apply unstopped_entries; [|done].
  destruct (reached_ok _ _ _ _ Hst (reached_run _ Hst)) as [an Hok].
  apply (data_wf _ _ _ _ (ok_data _ _ _ Hok)).
Qed.

Lemma early_facts :
  Server.running (server (reached (take 3 schedule))) = true ∧
  fresh (server (reached (take 3 schedule))) = true ∧
  idle (reached (take 3 schedule)) = false ∧
  map_Forall (λ _ th, th ≠ Main_thread) (owner (reached (take 3 schedule))).
Proof.
  split_and!; [vm_compute; reflexivity..|].
  apply (bool_decide_eq_true_1 _). vm_compute. reflexivity.
Qed.

Lemma late_facts :
  Server.running (server (reached (take 11 schedule))) = true ∧
  fresh (server (reached (take 11 schedule))) = true ∧
  owner (reached (take 11 schedule)) !! Topic_mutex $"news" = Some Main_thread.
Proof. split_and!; vm_compute; reflexivity. Qed.

Lemma returns_witness :
  (∃ cs' s', Forall moves cs' ∧ run (Signalled :: cs') (reached (take 3 schedule)) = Done s' ∧
     stack s' = stack (reached (take 3 schedule)) ∧ idle (reached (take 3 schedule)) = false ∧
     Server.running (server s') = false) ∧
  ∀ cs' s', Forall moves cs' → run (Signalled :: cs') (reached (take 11 schedule)) = Done s' →
    Server.running (server s') = false →
    (∀ n, is_Some (Server.get_topic n (server s')) → over n (server s') (workers s')) →
    stack s' ≠ stack (reached (take 11 schedule)).
Proof.
  destruct early_facts as (Hr & Hf & Hidle & Hfree). destruct late_facts as (Hr' & Hf' & Ho). split.
  - destruct (proj2 (signal_returns_iff _ _ _ _ early_starts (reached_run _ early_starts) Hr
      (unstopped_when_fresh _ early_starts Hf)) (λ m Hm, Hfree m _ Hm eq_refl))
      as (cs' & s' & H1 & H2 & H3 & H4 & _).
    exists cs', s'. exact (conj H1 (conj H2 (conj H3 (conj Hidle H4)))).
  - intros cs' s' H1 H2 H3 H4 H5.
    exact (proj1 (signal_returns_iff _ _ _ _ middle_starts (reached_run _ middle_starts) Hr'
      (unstopped_when_fresh _ middle_starts Hf'))
      (ex_intro _ cs' (ex_intro _ s' (conj H1 (conj H2 (conj H5 (conj H3 H4)))))) _ Ho).
Defined.

End Witness.

End Ending.
