(* ===== verification/Console.v ===== *)
(** * Console: the standard streams of the client

    [std::cin] as the characters still to come, how they end, and the state bits;
    [std::cout] and [std::cerr] as what was written and whether the stream is good. The
    functions are those of the C++ standard that src/client/src uses: [read] with
    [gcount], [getline], [eof], [write] (also [put] and [operator<<] of a string) and
    [good]. What an output stream holds back before a flush is not modelled: a write
    fails when it is made. *)

From S2P Require Import Prelude.

Module Console.

Open Scope Z_scope.

(** ** Input *)

(** [broken]: the input ends with an error of the device and not with an end of file. *)
Record istream : Type := mkIn {
  rest : str;
  broken : bool;
  eofbit : bool;
  failbit : bool;
  badbit : bool
}.

Definition input (bytes : str) : istream := mkIn bytes false false false false.

Definition in_good (s : istream) : bool := negb (eofbit s || failbit s || badbit s).

(** [setstate(failbit)], as an input function does on a stream that is not good. *)
Definition set_fail (s : istream) : istream :=
  mkIn (rest s) (broken s) (eofbit s) true (badbit s).

(** The input is used up: [fail] tells whether [failbit] is set too. *)
Definition at_end (fail : bool) (s : istream) : istream :=
  if broken s then mkIn [] true (eofbit s) (failbit s) true
  else mkIn [] false true (failbit s || fail) (badbit s).

Definition with_rest (bytes : str) (s : istream) : istream :=
  mkIn bytes (broken s) (eofbit s) (failbit s) (badbit s).

(** [read(buffer, n)]: what it stores, of which [gcount()] is the length. *)
Definition read (n : Z) (s : istream) : str * istream :=
  if negb (in_good s) then ([], set_fail s)
  else if n <=? zlen (rest s) then
    (take (Z.to_nat n) (rest s), with_rest (drop (Z.to_nat n) (rest s)) s)
  else (if broken s then [] else rest s, at_end true s).

(** The characters before the first newline, and those after it. *)
Fixpoint split_line (bytes : str) : option (str * str) :=
  match bytes with
  | [] => None
  | c :: bytes =>
      if decide (c = Byte.x0a) then Some ([], bytes)
      else '(line, bytes) ← split_line bytes; Some (c :: line, bytes)
  end.

(** [getline(in, line)], whether the stream then tests as true, and the line. *)
Definition getline (s : istream) : bool * str * istream :=
  if negb (in_good s) then (false, [], set_fail s)
  else
    match split_line (rest s) with
    | Some (line, bytes) => (true, line, with_rest bytes s)
    | None =>
        if broken s then (false, [], at_end false s)
        else
          let nothing := bool_decide (rest s = []) in
          (negb nothing, rest s, at_end nothing s)
    end.

(** ** Output *)

(** [room]: after how many more characters the device fails, if it ever does. *)
Record ostream : Type := mkOut { out : str; room : option Z; good : bool }.

Definition write (bytes : str) (s : ostream) : ostream :=
  if negb (good s) then s
  else
    match room s with
    | None => mkOut (out s ++ bytes) None true
    | Some n =>
        if zlen bytes <=? n then mkOut (out s ++ bytes) (Some (n - zlen bytes)) true
        else mkOut (out s ++ take (Z.to_nat n) bytes) (Some 0) false
    end.

(** ** The three streams *)

Record t : Type := mkConsole { cin : istream; cout : ostream; cerr : ostream }.

Definition print (bytes : str) (io : t) : t := mkConsole (cin io) (write bytes (cout io)) (cerr io).

Definition complain (bytes : str) (io : t) : t := mkConsole (cin io) (cout io) (write bytes (cerr io)).

Definition with_cin (s : istream) (io : t) : t := mkConsole s (cout io) (cerr io).

Definition with_cout (s : ostream) (io : t) : t := mkConsole (cin io) s (cerr io).

(** A console on which the input is [bytes] and nothing fails. *)
Definition console (bytes : str) : t :=
  mkConsole (input bytes) (mkOut [] None true) (mkOut [] None true).

Definition newline : str := [Byte.x0a].

(** ** Lemmas *)

Lemma split_line_spec bytes line more :
  split_line bytes = Some (line, more) ↔ bytes = line ++ newline ++ more ∧ Byte.x0a ∉ line.
Proof.
  revert line. induction bytes as [|c bytes IH]; intros line; simpl.
  { split; [done|]. by intros [?%app_cons_not_nil _]. }
  case_decide as Hc.
  { subst c. split.
    - intros [= <- <-]. split; [done|]. apply not_elem_of_nil.
    - intros [Hb Hl]. destruct line as [|c line]; simpl in Hb.
      + by injection Hb as <-.
      + injection Hb as <- ->. exfalso. apply Hl. left. }
  destruct (split_line bytes) as [[line' more']|] eqn:Hs; simpl; split.
  - intros [= <- <-]. destruct (proj1 (IH line')) as [-> Hn]; [done|].
    split; [done|]. apply not_elem_of_cons. split; congruence.
  - intros [Hb Hl]. destruct line as [|d line]; simpl in Hb; [by injection Hb as -> _|].
    injection Hb as <- ->. apply not_elem_of_cons in Hl as [_ Hl].
    by injection (proj2 (IH line) (conj eq_refl Hl)) as -> ->.
  - done.
  - intros [Hb Hl]. destruct line as [|d line]; simpl in Hb; [by injection Hb as -> _|].
    injection Hb as <- ->. apply not_elem_of_cons in Hl as [_ Hl].
    by specialize (proj2 (IH line) (conj eq_refl Hl)).
Qed.

Lemma split_line_none bytes : split_line bytes = None ↔ Byte.x0a ∉ bytes.
Proof.
  induction bytes as [|c bytes IH]; simpl; [split; [intros; apply not_elem_of_nil|done]|].
  rewrite not_elem_of_cons. case_decide; [naive_solver|].
  destruct (split_line bytes) as [[]|]; simpl; naive_solver.
Qed.

Lemma split_line_length bytes line more :
  split_line bytes = Some (line, more) → (length more < length bytes)%nat.
Proof. intros [-> _]%split_line_spec. rewrite !length_app. simpl. lia. Qed.

Lemma in_good_bits s :
  in_good s = true → eofbit s = false ∧ failbit s = false ∧ badbit s = false.
Proof. unfold in_good. by destruct (eofbit s), (failbit s), (badbit s). Qed.

(** A line that the input ends without a newline, and the end itself. *)
Lemma getline_last s :
  in_good s = true → Byte.x0a ∉ rest s →
  ∃ s', getline s = (negb (broken s) && negb (bool_decide (rest s = [])),
                     if broken s then [] else rest s, s') ∧
        in_good s' = false ∧ eofbit s' = negb (broken s).
Proof.
  intros Hg Hn. unfold getline. rewrite Hg, (proj2 (split_line_none _) Hn). cbn [negb].
  destruct (in_good_bits s Hg) as (He & Hf & Hb). unfold at_end, in_good.
  destruct (broken s); (eexists; split; [done|]); simpl; by rewrite ?orb_true_r.
Qed.

Lemma getline_spent s : in_good s = false → getline s = (false, [], set_fail s).
Proof. unfold getline. by intros ->. Qed.

Lemma with_rest_same s : with_rest (rest s) s = s.
Proof. by destruct s. Qed.

(** A read that finds enough, and one that meets the end. *)
Lemma read_enough n s :
  in_good s = true → n ≤ zlen (rest s) →
  read n s = (take (Z.to_nat n) (rest s), with_rest (drop (Z.to_nat n) (rest s)) s).
Proof. intros Hg Hn. unfold read. rewrite Hg. simpl. by rewrite (proj2 (Z.leb_le _ _) Hn). Qed.

Lemma read_short n s :
  in_good s = true → zlen (rest s) < n →
  ∃ s', read n s = (if broken s then [] else rest s, s') ∧ in_good s' = false ∧
        eofbit s' = negb (broken s).
Proof.
  intros Hg Hn. unfold read. rewrite Hg. simpl. rewrite (proj2 (Z.leb_gt _ _) Hn).
  eexists. split; [done|]. unfold at_end, in_good in *.
  destruct (broken s), (eofbit s), (failbit s), (badbit s); try done.
Qed.

Lemma read_spent n s : in_good s = false → read n s = ([], set_fail s).
Proof. intros Hg. unfold read. by rewrite Hg. Qed.

Lemma write_endless bytes s :
  good s = true → room s = None → write bytes s = mkOut (out s ++ bytes) None true.
Proof. unfold write. by intros -> ->. Qed.

End Console.
