(* ===== verification/ServerMain.v ===== *)
(** * ServerMain: the process of src/main.cpp

    [main] makes the server, installs the handler of the signals that end it and runs the
    main loop. What is not the main thread comes in between its steps: the workers of the
    topics take turns, and a signal runs the handler, which stops the server. A [tick] is
    one step of one of them, and [run_ticks] any interleaving; the main thread on its own
    is [Server.run_loop]. The handlers of all requests of one [read] are one step here:
    signals and workers between the accesses of a handler are in Threads.v, Signals.v and
    Ending.v. *)

From S2P Require Import Prelude HashMap PrefixTree Protocol World Text Ipc Topic Server Session.
From S2P Require Import Console.

Set Warnings "-clear-no-such-hyp".

Module ServerMain.

Import World.
Open Scope Z_scope.

Section Operations.
Context `{Kernel} `{SubscriptionIndex} `{Hash str} `{Hash Z}.

(** ** The signal handler *)

(** [g_server] points to the server from before the handler is installed. *)
Definition signal_handler (g_server : option Server.t) (io : Console.t) (w : world)
    : outcome (option Server.t * Console.t * world) :=
  '(g_server, w) ← match g_server with
                   | Some this => '(this, w) ← Server.stop this w; mret (Some this, w)
                   | None => mret (None, w)
                   end;
  mret (g_server, Console.print ([Byte.x0d] ++ $"Ctrl + C pressed" ++ Console.newline) io, w).

(** ** The main thread in [Server::run] *)

(** Before the test of [running], in [read], or out of the loop. *)
Inductive place : Type := Testing | Reading | Returned.

Record process : Type := mkProcess {
  at_ : place;
  recv_buf : str;
  server : Server.t;
  server_io : Console.t
}.

(** [close(fifo_fd)], after the loop. *)
Definition leave_loop (p : process) (w : world) : outcome (process * world) :=
  fd ← deref (Server.fifo_fd (server p));
  mret (mkProcess Returned (recv_buf p) (server p) (server_io p), close_ fd w).

Definition move (p : process) (w : world) : outcome (process * world) :=
  match at_ p with
  | Testing =>
      if negb (Server.running (server p)) then leave_loop p w
      else mret (mkProcess Reading (recv_buf p) (server p) (server_io p), w)
  | Reading =>
      '(stopped, recv_buf, this, w) ← Server.run_turn (recv_buf p) (server p) w;
      let p := mkProcess Testing recv_buf this (server_io p) in
      if stopped : bool then leave_loop p w else mret (p, w)
  | Returned => mret (p, w)
  end.

Inductive tick : Type :=
| Moves
| Turn_of (topic_name : str)
| Interrupts.

Definition do_tick (e : tick) (p : process) (w : world) : outcome (process * world) :=
  match e with
  | Moves => move p w
  | Turn_of topic_name =>
      '(this, w) ← Server.work topic_name (server p) w;
      mret (mkProcess (at_ p) (recv_buf p) this (server_io p), w)
  | Interrupts =>
      '(g_server, console, w) ← signal_handler (Some (server p)) (server_io p) w;
      this ← deref g_server;
      mret (mkProcess (at_ p) (recv_buf p) this console, w)
  end.

Fixpoint run_ticks (ticks : list tick) (p : process) (w : world) : outcome (process * world) :=
  match ticks with
  | [] => mret (p, w)
  | e :: ticks => '(p, w) ← do_tick e p w; run_ticks ticks p w
  end.

(** ** The end of the server's life *)

(** [~Server] stops the server, and the topics in the table are destroyed; [~Topic] shuts
    its topic down. *)
Definition destroy (this : Server.t) (w : world) : outcome (Server.t * world) :=
  '(this, w) ← Server.stop this w;
  '(ts, w) ← HashMap.for_each (λ _ found w, Server.stop_topic found w) (Server.topics this) w;
  mret (Server.with_topics ts this, w).

(** ** main *)

(** The exit code is [None] as long as the main thread is in the loop. *)
Definition main (ticks : list tick) (io : Console.t) (w : world)
    : outcome (option Z * process * world) :=
  let ipc_path := $"/tmp/treenity.server." ++ Text.to_string (getpid_ w) in
  let '(this, w) := Server.make ipc_path w in
  if negb (Server.is_correct_start this) then
    let io := Console.print ($"Server fifo creation failed" ++ Console.newline) io in
    '(this, w) ← destroy this w;
    mret (Some 1, mkProcess Returned [] this io, w)
  else
    let io := Console.print (ipc_path ++ Console.newline) io in
    '(p, w) ← run_ticks ticks (mkProcess Testing [] this io) w;
    match at_ p with
    | Returned =>
        '(this, w) ← destroy (server p) w;
        mret (Some 0, mkProcess Returned (recv_buf p) this (server_io p), w)
    | _ => mret (None, p, w)
    end.

End Operations.

(** ** Specification *)

Section Specification.
Context `{KernelLaws} `{SubscriptionIndex} `{Hash str} `{Hash Z}.

(** The process with [fd] as its FIFO: while the server runs, so do the workers of all its
    topics; once it is stopped they are all seen out, and [fd] is closed until the main thread
    has closed it again. Topics have room for [k] messages beyond those in the buffer. *)
Record ok (fd k : Z) (p : process) (w : world) : Prop := {
  ok_wf : Server.wf (server p) w;
  ok_fifo : Server.fifo_fd (server p) = Some fd;
  ok_rest : Server.resting (recv_buf p);
  ok_room : Session.room (zlen (recv_buf p) + k) (server p);
  ok_running :
    if Server.running (server p) then at_ p ≠ Returned ∧ Session.all_serving (server p)
    else (at_ p ≠ Returned → ¬ is_open w fd) ∧ Session.all_ended (server p)
}.

(** What is about to be read has a frame whose length wraps. *)
Definition about_to_overrun (p : process) (w : world) : Prop :=
  at_ p = Reading ∧ ∃ fd, Server.fifo_fd (server p) = Some fd ∧
    Server.overrun (recv_buf p ++ (read_ fd 1024 w).1.2).

(** Some way into the ticks that is so. *)
Definition overruns (ticks : list tick) (p : process) (w : world) : Prop :=
  ∃ ticks' p' w', ticks' `prefix_of` ticks ∧ run_ticks ticks' p w = Done (p', w') ∧
    about_to_overrun p' w'.

(** What has happened to the server: the requests were those of the bytes that were read. *)
Definition happened (fd : Z) (p : process) (w : world) (p' : process) (w' : world) : Prop :=
  ∃ es tr, Forall Session.valid es ∧ Session.run es (server p) w = Done (server p', w') ∧
    trace w' = trace w ++ tr ∧
    Server.says (recv_buf p ++ consumed fd tr) (Session.requests es) (recv_buf p').

End Specification.

Section Theory.
Context `{KernelLaws} `{SubscriptionIndex} `{Hash str} `{Hash Z}.
Context `{!TransferLaws} `{!ClosedReads}.
Implicit Types (p : process) (w : world).

Lemma happened_nothing fd p w p' :
  Server.resting (recv_buf p) → server p' = server p → recv_buf p' = recv_buf p →
  happened fd p w p' w.
Proof.
  intros Hrest Hs Hb. exists [], []. rewrite Hs, Hb, !app_nil_r.
  split_and!; [done|done|done|by apply Server.says_rest].
Qed.

Lemma happened_trans fd p1 w1 p2 w2 p3 w3 :
  happened fd p1 w1 p2 w2 → happened fd p2 w2 p3 w3 → happened fd p1 w1 p3 w3.
Proof.
  intros (es & tr & Hv & Hr & Ht & Hs) (es' & tr' & Hv' & Hr' & Ht' & Hs').
  exists (es ++ es'), (tr ++ tr'). rewrite Session.run_app, Hr, Session.requests_app, consumed_app.
  split_and!; [by apply Forall_app|done|by rewrite Ht', Ht, (assoc_L (++))|].
  rewrite (assoc_L (++)). by eapply Server.says_app.
Qed.

(** Something happens without anything being read. *)
Lemma happened_quietly fd e p w p' w' :
  Session.valid e → Session.requests [e] = [] → Session.happen e (server p) w = Done (server p', w') →
  reads_nothing w w' → Server.resting (recv_buf p) → recv_buf p' = recv_buf p →
  happened fd p w p' w'.
Proof.
  intros Hv He Hh (tr & Htr & Hq) Hrest Hb. exists [e], tr. rewrite He, Hb.
  rewrite reads_nothing_consumed, app_nil_r by done. split_and!; [by apply Forall_singleton| |done|].
  - cbn [Session.run]. by rewrite Hh.
  - by apply Server.says_rest.
Qed.

(** The second [close] of the FIFO hits nothing, while no other descriptor took its number. *)
Lemma leave_loop_ok fd k p w :
  ok fd k p w → Server.running (server p) = false → ¬ is_open w fd →
  ∃ p' w', leave_loop p w = Done (p', w') ∧ ok fd k p' w' ∧ at_ p' = Returned.
Proof.
  intros [Hwf Hf Hrest Hroom Hrun] Hr Hfd. unfold leave_loop. rewrite Hf. rewrite Hr in Hrun.
  eexists _, _. split; [done|]. split; [|done]. split; simpl; try done.
  - eapply Server.wf_quiet; [done|apply touches_close| |by rewrite Hr].
    simpl. intros x -> Hx. apply Hfd. by eapply Server.owned_open.
  - rewrite Hr. split; [done|]. apply Hrun.
Qed.

Lemma read_facts fd w :
  (let '(ret, bytes, w') := read_ fd 1024 w in
   trace w' = trace w ++ [EvRead fd bytes] ∧ zlen bytes ≤ 1024 ∧ (ret ≤ 0 → bytes = []) ∧ touches (λ _, False) w w' ∧ same_fds w w' ∧
   (¬ is_open w fd → ret ≤ 0)).
Proof.
  pose proof (touches_read (λ _, False) fd 1024 w) as Ht. pose proof (same_fds_read fd 1024 w) as Hs.
  unfold read_ in *. pose proof (sys_read_bound fd 1024 (kernel w)) as Hb.
  pose proof (sys_read_closed fd 1024 (kernel w)) as Hc.
  destruct (sys_read fd 1024 (kernel w)) as [[ret bytes] k']; simpl in *.
  split_and!; try done; [lia|]. intros Hret. apply nil_length_inv. unfold zlen in Hb. lia.
Qed.

Lemma ok_weaken fd k k' p w : k' ≤ k → ok fd k p w → ok fd k' p w.
Proof. intros Hle []. split; try done. eapply Session.room_weaken; [|done]. lia. Qed.

(** A read that brings bytes, while the server runs. *)
Lemma received_ok fd k p w bytes w' :
  0 ≤ k → ok fd (1024 + k) p w → Server.running (server p) = true →
  zlen bytes ≤ 1024 → Server.wf (server p) w' →
  (∃ rest this w2 rs, Server.receive bytes (recv_buf p) (server p) w' = Done (rest, this, w2) ∧
     Server.says (recv_buf p ++ bytes) rs rest ∧ Forall Server.sendable rs ∧
     Session.run (Session.Requests <$> rs) (server p) w' = Done (this, w2) ∧
     ok fd k (mkProcess Testing rest this (server_io p)) w2) ∨
  Server.overrun (recv_buf p ++ bytes).
Proof.
  intros Hk [_ Hf _ Hroom Hrun] Hr Hb Hwf. rewrite Hr in Hrun. destruct Hrun as [_ Hall].
  assert (zlen (recv_buf p ++ bytes) ≤ zlen (recv_buf p) + 1024) as Hl by (rewrite zlen_app; lia).
  assert (Session.room (zlen (recv_buf p ++ bytes) + k) (server p)) as Hroom1
    by (eapply Session.room_weaken; [|done]; lia).
  assert (zlen (recv_buf p ++ bytes) < 2 ^ 62) as Hl62 by (destruct Hroom1; lia).
  unfold Server.receive.
  destruct (Session.frames_happen (S (length (recv_buf p ++ bytes))) (recv_buf p ++ bytes) k
    (server p) w' Hwf) as [(rest & this & w2 & rs & Hfr & Hsays & Hv & Hes & Hp)|]; try done;
    [lia| |by right]. left.
  destruct (Server.frames_wf _ _ _ _ _ _ _ Hwf Hl62 Hfr) as (Hwf2 & Hr2 & Hf2 & _).
  exists rest, this, w2, rs. split_and!; [done..|].
  pose proof (Session.published_nonneg (Session.Requests <$> rs)). pose proof (zlen_nonneg rest).
  destruct (Session.run_ok (Session.Requests <$> rs) (zlen rest + k) (server p) w' Hwf
    ltac:(by eexists) ltac:(by apply Forall_fmap) ltac:(lia))
    as (this' & w2' & Hes' & _ & _ & Hroom2 & Hserv & _).
  { eapply Session.room_weaken; [|exact Hroom1]. lia. }
  rewrite Hes in Hes'. injection Hes' as <- <-.
  destruct (Hserv (Session.requests_only rs)) as [_ Hall2].
  split; simpl; [done|congruence|by eapply Server.says_resting|done|].
  rewrite Hr2, Hr. split; [done|by apply Hall2].
Qed.

(** The step of the main thread that reads, while the server runs... *)
Lemma read_ok fd k p w :
  0 ≤ k → ok fd (1024 + k) p w → at_ p = Reading → Server.running (server p) = true →
  (∃ p' w', move p w = Done (p', w') ∧ ok fd k p' w' ∧ happened fd p w p' w') ∨
  about_to_overrun p w.
Proof.
  intros Hk Hok Hat Hr. pose proof (ok_weaken fd (1024 + k) k p w ltac:(lia) Hok) as Hok'.
  pose proof Hok' as [Hwf Hf Hrest Hroom Hrun]. rewrite Hr in Hrun.
  unfold move, about_to_overrun, Server.run_turn. rewrite Hat, Hf.
  pose proof (read_facts fd w) as Hread. cbn [deref mbind outcome_bind].
  destruct (read_ fd 1024 w) as [[ret bytes] w1] eqn:Hrd.
  destruct Hread as (Htr & Hb & Hnone & Ht & _).
  assert (Server.wf (server p) w1) as Hwf1
    by (eapply Server.wf_quiet; [exact Hwf|exact Ht| |]; intros; tauto).
  assert (Session.run [Session.Listens] (server p) w = Done (server p, w1)) as Hlisten.
  { cbn [Session.run Session.happen]. rewrite Hf. cbn [deref mbind outcome_bind]. by rewrite Hrd. }
  destruct (Z.ltb_spec 0 ret).
  - destruct (received_ok fd k p w bytes w1 Hk Hok Hr Hb Hwf1)
      as [(rest & this & w2 & rs & Hrec & Hsays & Hv & Hes & Hok2)|Hov].
    2:{ right. split; [done|]. exists fd. by rewrite Hrd. }
    left. rewrite Hrec. cbn [mbind outcome_bind]. eexists _, w2. split; [done|]. split; [done|].
    destruct (Server.frames_respects reads_nothing _ _ _ _ _ _ _ Hrec) as (tr & Htr2 & Hq).
    exists (Session.Listens :: (Session.Requests <$> rs)), ([EvRead fd bytes] ++ tr).
    change (Session.Listens :: ?l) with ([Session.Listens] ++ l).
    rewrite Session.run_app, Hlisten, Htr2, Htr, (assoc_L (++)), Session.requests_app,
      Session.requests_fmap, consumed_app, (reads_nothing_consumed _ tr) by done.
    simpl. rewrite decide_True, !app_nil_r by done.
    split_and!; [|done|done|done]. apply Forall_cons. split; [done|]. by apply Forall_fmap.
  - left. cbn [mbind outcome_bind]. rewrite Hr. cbn [negb]. eexists _, w1. split; [done|]. split.
    + split; simpl; try done. rewrite Hr. naive_solver.
    + exists [Session.Listens], [EvRead fd bytes]. rewrite Hlisten. simpl.
      rewrite decide_True by done. rewrite Hnone in Htr |- * by lia. rewrite !app_nil_r.
      split_and!; [by apply Forall_singleton|done|done|by apply Server.says_rest].
Qed.

(** ... and once it is stopped. *)
Lemma read_stopped_ok fd k p w :
  ok fd k p w → at_ p = Reading → Server.running (server p) = false →
  ∃ p' w', move p w = Done (p', w') ∧ ok fd k p' w' ∧ at_ p' = Returned.
Proof.
  intros [Hwf Hf Hrest Hroom Hrun] Hat Hr. rewrite Hr in Hrun.
  unfold move, Server.run_turn. rewrite Hat, Hf.
  pose proof (read_facts fd w) as Hread. cbn [deref mbind outcome_bind].
  destruct (read_ fd 1024 w) as [[ret bytes] w1].
  destruct Hread as (_ & _ & _ & Ht & Hs & Hclosed), Hrun as [Hfd Hall].
  specialize (Hfd ltac:(by rewrite Hat)). rewrite (proj2 (Z.ltb_ge _ _)) by auto.
  cbn [mbind outcome_bind]. rewrite Hr. cbn [negb].
  apply (leave_loop_ok fd k (mkProcess Testing (recv_buf p) (server p) (server_io p)) w1);
    [|done|by intros Ho; apply Hfd, Hs].
  split; simpl; try done.
  - eapply Server.wf_quiet; [exact Hwf|exact Ht| |]; intros; tauto.
  - rewrite Hr. split; [|done]. intros _ Ho. by apply Hfd, Hs.
Qed.

Lemma move_ok fd k p w :
  0 ≤ k → ok fd (1024 + k) p w →
  (∃ p' w', move p w = Done (p', w') ∧ ok fd k p' w' ∧
     (at_ p' ≠ Returned → happened fd p w p' w') ∧
     (Server.running (server p) = false → at_ p' = Returned)) ∨
  about_to_overrun p w.
Proof.
  intros Hk Hok. pose proof (ok_weaken fd (1024 + k) k p w ltac:(lia) Hok) as Hok'.
  destruct (at_ p) eqn:Hat, (Server.running (server p)) eqn:Hr.
  - pose proof Hok' as [Hwf Hf Hrest Hroom Hrun]. left. unfold move. rewrite Hat, Hr. cbn [negb].
    eexists _, w. split; [done|]. split_and!; [|by intros _; apply happened_nothing|done].
    split; simpl; try done. rewrite Hr in *. naive_solver.
  - pose proof (ok_running _ _ _ _ Hok') as Hrun. rewrite Hr in Hrun.
    left. unfold move. rewrite Hat, Hr. cbn [negb].
    destruct (leave_loop_ok fd k p w Hok' Hr) as (p' & w' & Hl & Hok2 & Hat2);
      [by apply Hrun; rewrite Hat|]. exists p', w'. by rewrite Hat2.
  - destruct (read_ok fd k p w Hk Hok Hat Hr) as [(p' & w' & Hm & Hok2 & Hh)|]; [left|by right].
    by exists p', w'.
  - destruct (read_stopped_ok fd k p w Hok' Hat Hr) as (p' & w' & Hm & Hok2 & Hat2).
    left. exists p', w'. by rewrite Hat2.
  - pose proof (ok_running _ _ _ _ Hok') as Hrun. rewrite Hr in Hrun. by destruct Hrun as [[] _].
  - left. exists p, w. unfold move. by rewrite Hat.
Qed.

Lemma interrupts_ok fd k p w :
  0 ≤ k → ok fd k p w →
  ∃ p' w', do_tick Interrupts p w = Done (p', w') ∧ ok fd k p' w' ∧
    at_ p' = at_ p ∧ Server.running (server p') = false ∧ happened fd p w p' w'.
Proof.
  intros Hk Hok. pose proof Hok as [Hwf Hf Hrest Hroom Hrun]. unfold do_tick, signal_handler.
  destruct (Server.running (server p)) eqn:Hr.
  - destruct Hrun as [Hat Hall].
    destruct (Session.stop_ends fd (server p) w Hwf Hr Hf Hall)
      as (this & w' & Hstop & Hwf' & Hr' & Hf' & Hend & Hclosed).
    rewrite Hstop. cbn [mbind outcome_bind deref]. eexists _, w'. split; [done|].
    split_and!; [|done|done|].
    + split; simpl; [done|done|done| |by rewrite Hr'].
      destruct (Session.happen_ok Session.Stops (zlen (recv_buf p) + k) (server p) w Hwf)
        as (this2 & w2 & Hh & _ & _ & Hroom2 & _); [by eexists|done| |done|].
      * zlen_facts. lia.
      * cbn [Session.happen] in Hh. rewrite Hstop in Hh. by injection Hh as <- _.
    + eapply (happened_quietly fd Session.Stops); try done. by apply (Server.stop_respects _ _ _ _ _ Hstop).
  - unfold Server.stop. rewrite Hr. cbn [negb mbind outcome_bind mret outcome_ret deref].
    eexists _, w. split; [done|]. split_and!; [|done|done|by apply happened_nothing].
    split; simpl; try done. by rewrite Hr.
Qed.

Lemma works_ok name fd k p w :
  0 ≤ k → ok fd k p w →
  ∃ p' w', do_tick (Turn_of name) p w = Done (p', w') ∧ ok fd k p' w' ∧
    at_ p' = at_ p ∧ happened fd p w p' w'.
Proof.
  intros Hk [Hwf Hf Hrest Hroom Hrun]. zlen_facts.
  destruct (Session.happen_ok (Session.Works name) (zlen (recv_buf p) + k) (server p) w Hwf)
    as (this & w' & Hh & Hwf' & _ & Hroom' & Hserv & _); [by eexists|done|lia|done|].
  cbn [Session.happen] in Hh. destruct (Hserv ltac:(done)) as [Hr' Hall'].
  assert (Server.fifo_fd this = Server.fifo_fd (server p)) as Hf'.
  { destruct (Session.work_steps name (server p) w Hwf) as (this2 & w2 & Hh2 & _ & _ & Hf2 & _).
    - eapply Session.room_weaken; [|done]. lia.
    - rewrite Hh in Hh2. by injection Hh2 as <- _. }
  exists (mkProcess (at_ p) (recv_buf p) this (server_io p)), w'. cbn [do_tick]. rewrite Hh.
  split_and!; [done| |done|].
  - split; simpl; [done|congruence|done|done|]. rewrite Hr'.
    destruct (Server.running (server p)); [by destruct Hrun; split; [|apply Hall']|]. destruct Hrun as [Hfd Hend].
    split; [intros Hat Ho; apply Hfd; [done|]; by eapply (Server.work_respects opens_nothing)|].
    destruct (Session.ended_works name (server p) w Hwf Hend) as (this2 & Hh2 & Ht).
    rewrite Hh in Hh2. injection Hh2 as <- _. intros n tp. rewrite Ht. apply Hend.
  - apply (happened_quietly fd (Session.Works name)); try done.
    by eapply (Server.work_respects reads_nothing).
Qed.

(** Each tick is fine, unless a length wraps. *)
Lemma tick_ok e fd k p w :
  0 ≤ k → ok fd (1024 + k) p w →
  (∃ p' w', do_tick e p w = Done (p', w') ∧ ok fd k p' w' ∧
     (at_ p = Returned → at_ p' = Returned) ∧ (at_ p' ≠ Returned → happened fd p w p' w')) ∨
  about_to_overrun p w.
Proof.
  intros Hk Hok. pose proof (ok_weaken fd (1024 + k) k p w ltac:(lia) Hok) as Hok'. destruct e as [|name|].
  - destruct (move_ok fd k p w Hk Hok) as [(p' & w' & Hm & Hok2 & Hhap & _)|]; [left|by right].
    exists p', w'. split_and!; [done..| |done]. intros Hat. unfold do_tick, move in Hm.
    rewrite Hat in Hm. by injection Hm as <- _.
  - left. destruct (works_ok name fd k p w Hk Hok') as (p' & w' & Hd & Hok2 & Hat & Hhap).
    exists p', w'. by rewrite Hat.
  - left. destruct (interrupts_ok fd k p w Hk Hok') as (p' & w' & Hd & Hok2 & Hat & _ & Hhap).
    exists p', w'. by rewrite Hat.
Qed.

Lemma run_ticks_ok ticks fd k p w :
  0 ≤ k → ok fd (1024 * zlen ticks + k) p w →
  (∃ p' w', run_ticks ticks p w = Done (p', w') ∧ ok fd k p' w' ∧
     (at_ p = Returned → at_ p' = Returned) ∧ (at_ p' ≠ Returned → happened fd p w p' w')) ∨
  overruns ticks p w.
Proof.
  intros Hk. revert p w. induction ticks as [|e ticks IH]; intros p w Hok.
  { left. exists p, w. split_and!; [done|done|done|]. intros _. by apply happened_nothing; [apply Hok|..]. }
  rewrite zlen_cons in Hok. zlen_facts.
  destruct (tick_ok e fd (1024 * zlen ticks + k) p w) as [(p1 & w1 & Hd & Hok1 & Hat1 & Hhap1)|Hov];
    [lia|by replace (1024 + (1024 * zlen ticks + k)) with (1024 * (1 + zlen ticks) + k) by lia| |].
  2:{ right. exists [], p, w. split; [apply prefix_nil|done]. }
  destruct (IH p1 w1 Hok1) as [(p2 & w2 & Hrun & Hok2 & Hat2 & Hhap2)|(ticks' & p2 & w2 & Hpre & Hrun & Hov)].
  - left. exists p2, w2. cbn [run_ticks]. rewrite Hd. split_and!; [done|done|auto|].
    intros Hne. apply (happened_trans _ _ _ p1 w1); auto.
  - right. exists (e :: ticks'), p2, w2. split; [by apply prefix_cons|]. cbn [run_ticks].
    by rewrite Hd.
Qed.

Lemma run_ticks_app ticks ticks' p w :
  run_ticks (ticks ++ ticks') p w = '(p, w) ← run_ticks ticks p w; run_ticks ticks' p w.
Proof.
  revert p w. induction ticks as [|e ticks IH]; intros p w; simpl; [done|].
  destruct (do_tick e p w) as [[p1 w1]| |]; simpl; [apply IH|done..].
Qed.

Lemma overruns_app ticks ticks' p w : overruns ticks p w → overruns (ticks ++ ticks') p w.
Proof.
  intros (ticks1 & p' & w' & Hp & Hrun). exists ticks1, p', w'. split; [by apply prefix_app_r|done].
Qed.

(** The process once the server has been made. *)
Lemma made_ok path io w k :
  Server.is_correct_start (Server.make path w).1 = true → k < 2 ^ 32 →
  ∃ fd, ok fd k (mkProcess Testing [] (Server.make path w).1 io) (Server.make path w).2.
Proof.
  intros Hstart Hk. destruct (Server.make_facts path w Hstart) as (Hwf & [fd Hf] & Hr).
  assert (∀ n, Server.get_topic n (Server.make path w).1 = None) as Hnone.
  { intros n. unfold Server.make. destruct (mkfifo_ path (unlink_ path w)) as [ret w1].
    destruct (ret =? -1); [|destruct (open_ path O_RDWR w1) as [fd' w2]]; unfold Server.get_topic; simpl;
      by rewrite HashMap.find_make_default. }
  exists fd. split; simpl; [done|done|done| |].
  - split; [by rewrite zlen_nil|]. intros n tp. by rewrite Hnone.
  - rewrite Hr. split; [done|]. intros n tp. by rewrite Hnone.
Qed.

(** ** The main thread alone *)

Lemma returned_stays n p w :
  at_ p = Returned → run_ticks (replicate n Moves) p w = Done (p, w).
Proof.
  intros Hat. induction n as [|n IH]; [done|]. cbn [replicate run_ticks do_tick]. unfold move.
  rewrite Hat. exact IH.
Qed.

Lemma moves_run_loop fuel recv_buf this io w :
  let r := run_ticks (replicate (2 * fuel) Moves) (mkProcess Testing recv_buf this io) w in
  match Server.run_loop fuel recv_buf this w with
  | Done (this', w') => ∃ recv_buf', r = Done (mkProcess Returned recv_buf' this' io, w')
  | Undefined => r = Undefined
  | NoFuel => ∀ p w', r = Done (p, w') → at_ p ≠ Returned
  end.
Proof.
  cbv zeta. revert recv_buf this w. induction fuel as [|fuel IH]; intros recv_buf this w.
  { by intros p w' [= <- <-]. }
  replace (2 * S fuel)%nat with (S (S (2 * fuel))) by lia.
  cbn [Server.run_loop replicate run_ticks do_tick].
  destruct (Server.running this) eqn:Hr; cbn [negb].
  - unfold move. cbn [at_ ServerMain.recv_buf server server_io]. rewrite Hr.
    cbn [negb mret outcome_ret mbind outcome_bind at_ ServerMain.recv_buf server server_io].
    destruct (Server.run_turn recv_buf this w) as [[[[stopped buf1] this1] w1]| |] eqn:Ht;
      cbn [mbind outcome_bind]; [|done|done].
    destruct stopped; [|by apply IH]. unfold leave_loop. cbn [server].
    destruct (Server.fifo_fd this1) as [fd|]; cbn [deref mbind outcome_bind]; [|done].
    exists buf1. by apply returned_stays.
  - unfold move, leave_loop. cbn [at_ ServerMain.recv_buf server server_io]. rewrite Hr. cbn [negb].
    destruct (Server.fifo_fd this) as [fd|]; [|done].
    exists recv_buf. cbn [deref mret outcome_ret mbind outcome_bind at_]. by apply returned_stays.
Qed.

(** ** Properties *)

(** The server process is ended by a signal that comes between two steps of the main thread: it
    waits in [read], is about to test [running] or has left the loop, and owns no mutex.
    Whatever bytes have come before and however workers took turns, one step after the
    handler [main] returns zero; the workers of all topics have been seen out, their
    subscribers are gone, and nothing undefined has happened. The exception is a client that
    announced a payload of 2^32 - 5 bytes or more. (A signal inside a handler of a request
    may hang the process: [Ending.signal_returns_iff], [Signals.signal_deadlocks].) *)
Theorem signal_between_turns_ends_the_server (ticks : list tick) (console : Console.t) (w : world)
    (Hstart : let path := $"/tmp/treenity.server." ++ Text.to_string (getpid_ w) in
              Server.is_correct_start (Server.make path w).1 = true)
    (Hlen : 1024 * (zlen ticks + 2) < 2 ^ 32) :
  let path := $"/tmp/treenity.server." ++ Text.to_string (getpid_ w) in
  let p0 := mkProcess Testing [] (Server.make path w).1
              (Console.print (path ++ Console.newline) console) in
  (∃ p' w', main (ticks ++ [Interrupts; Moves]) console w = Done (Some 0, p', w') ∧
     Server.running (server p') = false ∧ Session.all_ended (server p')) ∨
  overruns (ticks ++ [Interrupts; Moves]) p0 (Server.make path w).2.
Proof.
  cbv zeta in *. set (path := $"/tmp/treenity.server." ++ _) in *.
  set (io := Console.print (path ++ Console.newline) console). unfold main. fold path io.
  destruct (made_ok path io w (1024 * zlen ticks + 2048) Hstart ltac:(lia)) as [fd Hok].
  destruct (Server.make path w) as [this w1]; simpl in Hok, Hstart |- *.
  unfold Server.is_correct_start in *. rewrite Hstart. cbn [negb].
  destruct (run_ticks_ok ticks fd 2048 _ w1 ltac:(lia) Hok) as [(p2 & w2 & Hrun & Hok2 & _)|Hov];
    [|right; by apply overruns_app].
  apply (ok_weaken fd 2048 (1024 + 0)) in Hok2; [|lia].
  destruct (interrupts_ok fd (1024 + 0) p2 w2 ltac:(lia) Hok2) as (p3 & w3 & Hsig & Hok3 & _ & Hr3 & _).
  destruct (move_ok fd 0 p3 w3 ltac:(lia) Hok3) as [(p4 & w4 & Hm & Hok4 & _ & Hat4)|Hov].
  - left. rewrite run_ticks_app, Hrun. cbn [mbind outcome_bind run_ticks]. rewrite Hsig.
    cbn [mbind outcome_bind]. change (do_tick Moves p3 w3) with (move p3 w3). rewrite Hm.
    cbn [mbind outcome_bind mret outcome_ret]. rewrite (Hat4 Hr3). pose proof Hok4 as [Hwf4 _ _ _ Hend].
    assert (Server.running (server p4) = false) as Hr4.
    { destruct (Server.running (server p4)); [|done]. by rewrite (Hat4 Hr3) in Hend; destruct Hend. }
    rewrite Hr4 in Hend. destruct Hend as [_ Hend].
    destruct (Session.ended_topics_destroyed (server p4) w4 Hwf4 Hend) as (ts & Hts & Htopics).
    unfold destroy, Server.stop. rewrite Hr4. cbn [negb mret outcome_ret mbind outcome_bind].
    rewrite Hts. cbn [mbind outcome_bind]. eexists _, w4. split; [done|]. split; [done|].
    intros n tp. cbn [server]. rewrite Htopics. apply Hend.
  - right. exists (ticks ++ [Interrupts]), p3, w3. split_and!; [|..|done].
    + exists [Moves]. by rewrite <- (assoc_L (++)).
    + rewrite run_ticks_app, Hrun. cbn [mbind outcome_bind run_ticks]. by rewrite Hsig.
Qed.

(** C18: The server process is the server of its sessions. While the main thread has not
    returned, whatever bytes came in whatever pieces, and whenever the others had their
    turns, what the process has done to its server and to the world is that the requests
    contained in the bytes read from the FIFO, exactly these and in their order, were handled,
    workers took turns and the server was stopped, one after the other; so that all that is
    shown of such sequences holds of the process. *)
Theorem process_refines_session (ticks : list tick) (console : Console.t) (path : str) (w : world)
    (Hstart : Server.is_correct_start (Server.make path w).1 = true)
    (Hlen : 1024 * zlen ticks < 2 ^ 32) :
  let '(this, w1) := Server.make path w in
  let p0 := mkProcess Testing [] this console in
  ∃ fd, Server.fifo_fd this = Some fd ∧
    ((∃ p' w', run_ticks ticks p0 w1 = Done (p', w') ∧
        (at_ p' ≠ Returned →
         ∃ es tr, Forall Session.valid es ∧ Session.run es this w1 = Done (server p', w') ∧
           trace w' = trace w1 ++ tr ∧
           Server.says (consumed fd tr) (Session.requests es) (recv_buf p'))) ∨
     overruns ticks p0 w1).
Proof.
  destruct (made_ok path console w (1024 * zlen ticks + 0) Hstart ltac:(lia)) as [fd Hok].
  destruct (Server.make path w) as [this w1]; simpl in Hok. exists fd. split; [apply Hok|].
  destruct (run_ticks_ok ticks fd 0 _ w1 ltac:(lia) Hok) as [(p' & w' & Hrun & _ & _ & Hhap)|Hov];
    [left|by right]. by exists p', w'.
Qed.

(** Left alone, the main thread does what [Server::run] does as one loop. *)
Theorem main_thread_is_run_loop (fuel : nat) (recv_buf : str) (this : Server.t)
    (console : Console.t) (w : world) :
  let r := run_ticks (replicate (2 * fuel) Moves) (mkProcess Testing recv_buf this console) w in
  match Server.run_loop fuel recv_buf this w with
  | Done (this', w') => ∃ recv_buf', r = Done (mkProcess Returned recv_buf' this' console, w')
  | Undefined => r = Undefined
  | NoFuel => ∀ p w', r = Done (p, w') → at_ p ≠ Returned
  end.
Proof. apply moves_run_loop. Qed.

(** When the FIFO cannot be made, the destructor closes a descriptor that was never
    set, which is undefined; when it cannot be opened, [main] returns one. *)
Theorem failed_start_outcome (ticks : list tick) (console : Console.t) (w : world) :
  let path := $"/tmp/treenity.server." ++ Text.to_string (getpid_ w) in
  let '(ret, w1) := mkfifo_ path (unlink_ path w) in
  let '(fd, _) := open_ path O_RDWR w1 in
  (ret = -1 → main ticks console w = Undefined) ∧
  (ret ≠ -1 → fd = -1 → ∃ p w', main ticks console w = Done (Some 1, p, w')).
Proof.
  cbv zeta. unfold main, Server.make. set (path := $"/tmp/treenity.server." ++ _).
  destruct (mkfifo_ path (unlink_ path w)) as [ret w1].
  destruct (open_ path O_RDWR w1) as [fd w2] eqn:Ho. split.
  - intros ->. cbn [Z.eqb]. unfold destroy, Server.stop. simpl.
    destruct (open_ path O_WRONLY_NONBLOCK (unlink_ path w1)) as [fd' w3]. done.
  - intros Hne ->. rewrite (proj2 (Z.eqb_neq _ _) Hne). simpl. unfold destroy, Server.stop. simpl.
    destruct (open_ path O_WRONLY_NONBLOCK (unlink_ path w2)) as [fd' w3]. by eexists _, _.
Qed.

End Theory.

(** ** Witnesses *)

Module Witness.

Import World.Simple PrefixTree.Witness Topic.Witness Server.Witness.

(** What three clients have sent, to be read in two pieces. *)
Definition waiting : world :=
  mkWorld (mkState [] [] [] [take 30 stream; drop 30 stream] 0) [].

(** The main thread reads twice, the worker takes a turn, and the signal comes while the main
    thread waits in [read]. *)
Definition schedule : list tick :=
  [Moves; Moves; Moves; Moves; Turn_of $"news"; Moves].

Abbreviation run_process := (main (schedule ++ [Interrupts; Moves]) (Console.console []) waiting).

Example process_delivers :
  match run_process with
  | Done (code, p, w) =>
      code = Some 0 ∧ recv_buf p = [] ∧
      session_writes 4 (drop 9 (trace w)) =
        [(Protocol.serialize_delivery 0 $"eu.de" $"1", 18); (Protocol.serialize_shutdown, 12)] ∧
      Console.out (Console.cout (server_io p)) =
        $"/tmp/treenity.server.42" ++ Console.newline ++
        [Byte.x0d] ++ $"Ctrl + C pressed" ++ Console.newline
  | _ => False
  end.
Proof. vm_compute. by split_and!. Qed.

Lemma ends_witness :
  let path := $"/tmp/treenity.server." ++ Text.to_string (getpid_ waiting) in
  (∃ p' w', run_process = Done (Some 0, p', w') ∧ Session.all_ended (server p')) ∨
  overruns (schedule ++ [Interrupts; Moves])
    (mkProcess Testing [] (Server.make path waiting).1
       (Console.print (path ++ Console.newline) (Console.console []))) (Server.make path waiting).2.
Proof.
  destruct (signal_between_turns_ends_the_server schedule (Console.console []) waiting)
    as [(p' & w' & Hm & _ & Hend)|Hov]; [vm_compute; reflexivity|reflexivity| |].
  - left. exists p', w'. exact (conj Hm Hend).
  - right. exact Hov.
Defined.

Lemma refines_witness :
  let '(this, w1) := Server.make $"/s" waiting in
  let p0 := mkProcess Testing [] this (Console.console []) in
  ∃ fd, Server.fifo_fd this = Some fd ∧
    ((∃ p' w', run_ticks schedule p0 w1 = Done (p', w') ∧
        (at_ p' ≠ Returned → ∃ es, Session.run es this w1 = Done (server p', w'))) ∨
     overruns schedule p0 w1).
Proof.
  pose proof (process_refines_session schedule (Console.console []) $"/s" waiting
    ltac:(vm_compute; reflexivity) ltac:(reflexivity)) as Hp.
  destruct (Server.make $"/s" waiting) as [this w1].
  destruct Hp as (fd & Hf & [(p' & w' & Hr & Hes)|Hov]); exists fd; (split; [exact Hf|]).
  - left. exists p', w'. split; [exact Hr|]. intros Hat.
    destruct (Hes Hat) as (es & tr & _ & Hes' & _). exists es. exact Hes'.
  - right. exact Hov.
Defined.

End Witness.

End ServerMain.
