(* ===== verification/Command.v ===== *)
(** * Command: the command line of the client, src/client/{inc/command.hpp,src/command.cpp}

    [argv] is the list of the arguments, the name of the program first; [argc] is its
    length. The loop over the options of [subscribe] is the recursion [parse_options] over
    the arguments that are left. *)

From S2P Require Import Prelude Protocol Text.

Set Warnings "-clear-no-such-hyp".

Module Command.

Open Scope Z_scope.

(** ** Data *)

Record Command : Type := mkCommand {
  type : Protocol.CommandType;
  ipc_identifier : str;
  topic : str;
  subscriber : str;
  prefix : str;
  offset : Z;
  has_offset : bool;
  raw : bool
}.

Record ParseResult : Type := mkResult { ok : bool; command : Command; error : str }.

Definition make_empty_command : Command := mkCommand Protocol.CREATE [] [] [] [] 0 false false.

Definition make_failure (error : str) : ParseResult := mkResult false make_empty_command error.

Definition make_success (command : Command) : ParseResult := mkResult true command [].

(** Assignments to the members. *)
Definition with_type (x : Protocol.CommandType) (c : Command) : Command :=
  mkCommand x (ipc_identifier c) (topic c) (subscriber c) (prefix c) (offset c) (has_offset c) (raw c).
Definition with_ipc (x : str) (c : Command) : Command :=
  mkCommand (type c) x (topic c) (subscriber c) (prefix c) (offset c) (has_offset c) (raw c).
Definition with_topic (x : str) (c : Command) : Command :=
  mkCommand (type c) (ipc_identifier c) x (subscriber c) (prefix c) (offset c) (has_offset c) (raw c).
Definition with_subscriber (x : str) (c : Command) : Command :=
  mkCommand (type c) (ipc_identifier c) (topic c) x (prefix c) (offset c) (has_offset c) (raw c).
Definition with_prefix (x : str) (c : Command) : Command :=
  mkCommand (type c) (ipc_identifier c) (topic c) (subscriber c) x (offset c) (has_offset c) (raw c).
Definition with_offset (x : Z) (c : Command) : Command :=
  mkCommand (type c) (ipc_identifier c) (topic c) (subscriber c) (prefix c) x true (raw c).
Definition with_raw (c : Command) : Command :=
  mkCommand (type c) (ipc_identifier c) (topic c) (subscriber c) (prefix c) (offset c) (has_offset c) true.

(** ** Values *)

Definition is_valid_name (value : str) : bool :=
  if bool_decide (value = []) || (32 <? zlen value) then false
  else forallb (λ c, Text.isalnum c || Text.is_name_punctuation c) value.

(** The loop of [parse_offset]; [number] is a [uint64_t]. *)
Fixpoint parse_digits (value : str) (number : Z) : option Z :=
  match value with
  | [] => Some number
  | c :: value =>
      if negb (Text.isdigit c) then None
      else
        let number := Protocol.wrap64 (number * 10 + (Z_of_byte c - 48)) in
        if 2 ^ 32 - 1 <? number then None else parse_digits value number
  end.

Definition parse_offset (value : str) : option Z :=
  match value with
  | [] => None
  | _ => number ← parse_digits value 0; Some (wrap32 number)
  end.

(** ** The command line *)

(** The loop over the options; [option] starts with the arguments not looked at yet. *)
Fixpoint parse_options (options : list str) (prefix_seen offset_seen : bool) (command : Command)
    : ParseResult :=
  match options with
  | [] => make_success command
  | option :: options =>
      if decide (option = $"--raw") then
        if raw command then make_failure $"duplicate --raw option"
        else parse_options options prefix_seen offset_seen (with_raw command)
      else if decide (option = $"--prefix") then
        match prefix_seen, options with
        | false, value :: options =>
            parse_options options true offset_seen (with_prefix value command)
        | _, _ => make_failure $"--prefix requires one value and may only be used once"
        end
      else if decide (option = $"--offset") then
        match offset_seen, options with
        | false, value :: options =>
            match parse_offset value with
            | Some number => parse_options options prefix_seen true (with_offset number command)
            | None =>
                make_failure $"--offset requires one unsigned 32-bit integer and may only be used once"
            end
        | _, _ =>
            make_failure $"--offset requires one unsigned 32-bit integer and may only be used once"
        end
      else make_failure ($"unknown subscribe option: " ++ option)
  end.

Definition parse_subscribe (argv : list str) (command : Command) : ParseResult :=
  match argv with
  | _ :: _ :: _ :: topic :: subscriber :: options =>
      let command := with_subscriber subscriber (with_topic topic command) in
      if negb (is_valid_name topic) then make_failure $"invalid topic name"
      else if negb (is_valid_name subscriber) then make_failure $"invalid subscriber name"
      else parse_options options false false command
  | _ => make_failure $"usage: client <ipc_identifier> subscribe <topic_name> <subscriber_name> [--prefix <prefix>] [--offset <offset>] [--raw]"
  end.

Definition parse_command (argv : list str) : ParseResult :=
  match argv with
  | _ :: ipc_identifier :: operation :: args =>
      let command := with_ipc ipc_identifier make_empty_command in
      if bool_decide (ipc_identifier = []) then make_failure $"invalid IPC identifier"
      else if decide (operation = $"create") then
        match args with
        | [topic] =>
            if negb (is_valid_name topic) then make_failure $"invalid topic name"
            else make_success (with_topic topic (with_type Protocol.CREATE command))
        | _ => make_failure $"usage: client <ipc_identifier> create <topic_name>"
        end
      else if decide (operation = $"list") then
        match args with
        | [] => make_success (with_type Protocol.LIST command)
        | _ => make_failure $"usage: client <ipc_identifier> list"
        end
      else if decide (operation = $"produce") then
        match args with
        | [topic] =>
            if negb (is_valid_name topic) then make_failure $"invalid topic name"
            else make_success (with_topic topic (with_type Protocol.CONNECT command))
        | [topic; option] =>
            if negb (is_valid_name topic) then make_failure $"invalid topic name"
            else if negb (bool_decide (option = $"--raw")) then
              make_failure ($"unknown produce option: " ++ option)
            else make_success (with_raw (with_topic topic (with_type Protocol.CONNECT command)))
        | _ => make_failure $"usage: client <ipc_identifier> produce <topic_name> [--raw]"
        end
      else if decide (operation = $"subscribe") then
        parse_subscribe argv (with_type Protocol.SUBSCRIBE command)
      else if decide (operation = $"info") then
        match args with
        | [subscriber] =>
            if negb (is_valid_name subscriber) then make_failure $"invalid subscriber name"
            else make_success (with_subscriber subscriber (with_type Protocol.INFO command))
        | _ => make_failure $"usage: client <ipc_identifier> info <subscriber_name>"
        end
      else make_failure ($"unknown command: " ++ operation)
  | _ => make_failure $"usage: client <ipc_identifier> <create|list|produce|subscribe|info> ..."
  end.

(** ** Specification *)

#[export] Instance CommandType_eq_decision : EqDecision Protocol.CommandType.
Proof. solve_decision. Defined.

(** The operations the client has, and what they take. *)
Definition is_operation (ty : Protocol.CommandType) : bool :=
  match ty with
  | Protocol.PRODUCE | Protocol.ACK | Protocol.DISCONNECT => false
  | _ => true
  end.

Definition takes_topic (ty : Protocol.CommandType) : bool :=
  match ty with Protocol.CREATE | Protocol.CONNECT | Protocol.SUBSCRIBE => true | _ => false end.

Definition takes_subscriber (ty : Protocol.CommandType) : bool :=
  match ty with Protocol.SUBSCRIBE | Protocol.INFO => true | _ => false end.

Definition takes_raw (ty : Protocol.CommandType) : bool :=
  match ty with Protocol.CONNECT | Protocol.SUBSCRIBE => true | _ => false end.

(** What a command that was parsed fulfils. *)
Record wf (c : Command) : Prop := {
  wf_type : is_operation (type c) = true;
  wf_ipc : ipc_identifier c ≠ [];
  wf_topic : if takes_topic (type c) then Text.is_valid_identifier (topic c) = true
             else topic c = [];
  wf_subscriber : if takes_subscriber (type c) then Text.is_valid_identifier (subscriber c) = true
                  else subscriber c = [];
  wf_raw : raw c = true → takes_raw (type c) = true;
  wf_prefix : prefix c ≠ [] → type c = Protocol.SUBSCRIBE;
  wf_has_offset : has_offset c = true → type c = Protocol.SUBSCRIBE;
  wf_offset : u32 (offset c);
  wf_no_offset : has_offset c = false → offset c = 0
}.

(** A command line for a command. *)
Definition options_of (c : Command) : list str :=
  (if raw c then [$"--raw"] else []) ++
  (if bool_decide (prefix c = []) then [] else [$"--prefix"; prefix c]) ++
  (if has_offset c then [$"--offset"; Text.to_string (offset c)] else []).

Definition argv_of (program : str) (c : Command) : list str :=
  program :: ipc_identifier c ::
  match type c with
  | Protocol.CREATE => [$"create"; topic c]
  | Protocol.LIST => [$"list"]
  | Protocol.INFO => [$"info"; subscriber c]
  | Protocol.CONNECT => $"produce" :: topic c :: options_of c
  | _ => $"subscribe" :: topic c :: subscriber c :: options_of c
  end.

(** ** Lemmas *)

Lemma is_valid_name_eq value : is_valid_name value = Text.is_valid_identifier value.
Proof. done. Qed.

Lemma digit_value c : Text.isdigit c = true → 0 ≤ Z_of_byte c - 48 ≤ 9.
Proof. unfold Text.isdigit. intros [? ?]%andb_true_iff. lia. Qed.

Definition decimal_from (number : Z) (value : str) : Z :=
  foldl (λ acc c, acc * 10 + (Z_of_byte c - 48)) number value.

Lemma decimal_from_ge value number :
  forallb Text.isdigit value = true → 0 ≤ number → number ≤ decimal_from number value.
Proof.
  revert number. induction value as [|c value IH]; intros number; cbn [decimal_from foldl forallb];
    [lia|].
  intros [Hc Hv]%andb_true_iff Hn. apply digit_value in Hc.
  specialize (IH (number * 10 + (Z_of_byte c - 48)) Hv ltac:(lia)). unfold decimal_from in IH. lia.
Qed.

Lemma parse_digits_spec value number n :
  u32 number →
  parse_digits value number = Some n ↔
  forallb Text.isdigit value = true ∧ decimal_from number value = n ∧ u32 n.
Proof.
  revert number. induction value as [|c value IH]; intros number Hn; cbn [parse_digits forallb].
  { unfold decimal_from. simpl. naive_solver. }
  destruct (Text.isdigit c) eqn:Hc; simpl; [|naive_solver]. apply digit_value in Hc.
  unfold u32 in Hn. unfold Protocol.wrap64. rewrite Z.mod_small by lia.
  destruct (Z.ltb_spec (2 ^ 32 - 1) (number * 10 + (Z_of_byte c - 48))) as [Hbig|Hsmall].
  - split; [done|]. intros (Hv & Hd & Hu). unfold decimal_from in Hd. simpl in Hd.
    pose proof (decimal_from_ge value (number * 10 + (Z_of_byte c - 48)) Hv ltac:(lia)) as Hge.
    unfold decimal_from in Hge. unfold u32 in Hu. lia.
  - rewrite IH by (unfold u32; lia). done.
Qed.

Lemma parse_offset_spec value n :
  parse_offset value = Some n ↔
  value ≠ [] ∧ forallb Text.isdigit value = true ∧ Text.decimal_value value = n ∧ u32 n.
Proof.
  unfold parse_offset. destruct value as [|c value]; [naive_solver|].
  pose proof (parse_digits_spec (c :: value) 0) as Hs.
  unfold decimal_from in Hs. fold (Text.decimal_value (c :: value)) in Hs.
  destruct (parse_digits (c :: value) 0) as [m|]; cbn [mbind option_bind].
  - destruct (proj1 (Hs m ltac:(done)) eq_refl) as (Hd & Hv & Hu).
    rewrite wrap32_small by done. naive_solver.
  - split; [done|]. intros (_ & Hd & Hv & Hu). by destruct (proj2 (Hs n ltac:(done))).
Qed.

(** The result of a parse: a well-formed command, or a failure with a message. *)
Definition result_wf (r : ParseResult) : Prop :=
  (wf (command r) ∧ r = make_success (command r)) ∨ (error r ≠ [] ∧ r = make_failure (error r)).

Lemma failure_wf e : e ≠ [] → result_wf (make_failure e).
Proof. by right. Qed.

Lemma success_wf c : wf c → result_wf (make_success c).
Proof. by left. Qed.

#[local] Hint Resolve failure_wf success_wf : treenity.

Lemma wf_with_raw c : wf c → takes_raw (type c) = true → wf (with_raw c).
Proof. intros [] Ht. by split. Qed.

Lemma wf_with_prefix p c : wf c → type c = Protocol.SUBSCRIBE → wf (with_prefix p c).
Proof. intros [] Ht. by split. Qed.

Lemma wf_with_offset n c : wf c → type c = Protocol.SUBSCRIBE → u32 n → wf (with_offset n c).
Proof. intros [] Ht Hn. by split. Qed.

Lemma parse_options_wf options p_seen o_seen c :
  wf c → type c = Protocol.SUBSCRIBE → result_wf (parse_options options p_seen o_seen c).
Proof.
  remember (length options) as m eqn:Hm.
  revert options Hm p_seen o_seen c. induction m as [m IH] using lt_wf_ind.
  intros options -> p_seen o_seen c Hc Ht. destruct options as [|o options]; cbn [parse_options];
    [by apply success_wf|].
  assert (∀ os p_seen o_seen c, (length os < length (o :: options))%nat → wf c →
    type c = Protocol.SUBSCRIBE → result_wf (parse_options os p_seen o_seen c)) as Hrec.
  { intros os ps os' c' Hl. eapply IH; [exact Hl|done]. }
  case_decide; [destruct (raw c); [by apply failure_wf|]|].
  { apply Hrec; [simpl; lia| |done]. apply wf_with_raw; [done|by rewrite Ht]. }
  case_decide; [destruct p_seen, options as [|v options]; try by apply failure_wf|].
  { apply Hrec; [simpl; lia|by apply wf_with_prefix|done]. }
  case_decide; [|by apply failure_wf].
  destruct o_seen, options as [|v options]; try by apply failure_wf.
  destruct (parse_offset v) as [n|] eqn:Hn; [|by apply failure_wf].
  apply parse_offset_spec in Hn as (_ & _ & _ & Hn).
  apply Hrec; [simpl; lia|by apply wf_with_offset|done].
Qed.

Lemma parse_command_result argv : result_wf (parse_command argv).
Proof.
  destruct argv as [|program [|ipc [|operation args]]]; try by apply failure_wf.
  unfold parse_command, parse_subscribe. case_bool_decide; [by apply failure_wf|].
  assert (∀ c, u32 (offset (with_ipc ipc c)) = u32 (offset c)) as Hu by done.
  repeat case_decide; try by apply failure_wf.
  - destruct args as [|tp [|]]; try by apply failure_wf. rewrite is_valid_name_eq.
    destruct (Text.is_valid_identifier tp) eqn:Htp; [|by apply failure_wf].
    apply success_wf. by split.
  - destruct args; [|by apply failure_wf]. apply success_wf. by split.
  - destruct args as [|tp [|o [|]]]; try (by apply failure_wf); rewrite is_valid_name_eq.
    + destruct (Text.is_valid_identifier tp) eqn:Htp; [|by apply failure_wf].
      apply success_wf. by split.
    + destruct (Text.is_valid_identifier tp) eqn:Htp; [|by apply failure_wf].
      case_bool_decide; simpl; [|by apply failure_wf].
      apply success_wf. by split.
  - destruct args as [|tp [|sub options]]; try by apply failure_wf. rewrite (is_valid_name_eq tp), (is_valid_name_eq sub).
    destruct (Text.is_valid_identifier tp) eqn:Htp; [|by apply failure_wf].
    destruct (Text.is_valid_identifier sub) eqn:Hsub; [|by apply failure_wf].
    apply parse_options_wf; [by split|done].
  - destruct args as [|sub [|]]; try by apply failure_wf. rewrite is_valid_name_eq.
    destruct (Text.is_valid_identifier sub) eqn:Hsub; [|by apply failure_wf].
    apply success_wf. by split.
Qed.

Lemma parse_offset_to_string n : u32 n → parse_offset (Text.to_string n) = Some n.
Proof.
  intros Hn. apply parse_offset_spec. pose proof (Text.to_string_facts n Hn) as (? & ? & ?). done.
Qed.

Lemma parse_options_of c base :
  wf c → type c = Protocol.SUBSCRIBE →
  base = mkCommand (type c) (ipc_identifier c) (topic c) (subscriber c) [] 0 false false →
  parse_options (options_of c) false false base = make_success c.
Proof.
  destruct c as [ty ipc tp sub p o has raw]. intros [_ _ _ _ _ _ _ Ho Hno] Ht ->. simpl in *. subst ty.
  unfold options_of. simpl.
  assert (∀ c p', parse_options (if has then [$"--offset"; Text.to_string o] else []) p' false c =
    make_success (if has then with_offset o c else c)) as Hoff.
  { intros c p'. destruct has; [|done]. cbn [parse_options].
    rewrite !decide_False, decide_True by done. by rewrite parse_offset_to_string. }
  assert (∀ c, prefix c = [] →
    parse_options ((if bool_decide (p = []) then [] else [$"--prefix"; p]) ++
                   (if has then [$"--offset"; Text.to_string o] else [])) false false c =
    make_success (if has then with_offset o (with_prefix p c) else with_prefix p c)) as Hpre.
  { intros c Hc. case_bool_decide as Hp; cbn [parse_options app].
    - rewrite Hoff. subst p. destruct c; simpl in *; subst. by destruct has.
    - by rewrite decide_False, decide_True, Hoff by done. }
  assert (has = false → o = 0) as Hzero by done.
  destruct raw; cbn [app parse_options].
  - rewrite decide_True by done. simpl raw. rewrite Hpre by done.
    destruct has; [done|]. by rewrite Hzero.
  - rewrite Hpre by done. destruct has; [done|]. by rewrite Hzero.
Qed.

(** Apart from [subscribe], a command is its type, server, topic, subscriber and format. *)
Lemma plain_command c :
  wf c → type c ≠ Protocol.SUBSCRIBE →
  c = mkCommand (type c) (ipc_identifier c) (topic c) (subscriber c) [] 0 false (raw c).
Proof.
  intros [_ _ _ _ _ Hpre Hhas _ Hno] Ht. destruct c as [ty ipc tp sub p o has b]; simpl in *.
  destruct p; [|destruct Ht; by apply Hpre]. destruct has; [destruct Ht; by apply Hhas|].
  by rewrite Hno.
Qed.

(** ** Properties *)

(** An offset option is the decimal text of a 32-bit number, leading zeros allowed, and
    nothing else: [parse_offset] reads its value, and refuses any number that does not fit
    although the number is computed in a wider type. *)
Theorem parse_offset_exact (value : str) (n : Z) :
  (parse_offset value = Some n ↔
   value ≠ [] ∧ forallb Text.isdigit value = true ∧ Text.decimal_value value = n ∧ u32 n) ∧
  (u32 n → parse_offset (Text.to_string n) = Some n).
Proof. split; [apply parse_offset_spec|apply parse_offset_to_string]. Qed.

(** C36: A command line is either refused with a message and an empty command, or accepted
    with a well-formed command: names valid where the server asks for them, options only
    where they belong, the offset a 32-bit number. *)
Theorem parse_command_wf (argv : list str) :
  let r := parse_command argv in
  if ok r then wf (command r) ∧ error r = []
  else command r = make_empty_command ∧ error r ≠ [].
Proof. destruct (parse_command_result argv) as [[Hc Hr]|[He Hr]]; simpl; by rewrite Hr. Qed.

(** C35: Every well-formed command has a command line that is parsed to it. *)
Theorem parse_command_complete (program : str) (c : Command) (Hwf : wf c) :
  parse_command (argv_of program c) = make_success c.
Proof.
  destruct (decide (type c = Protocol.SUBSCRIBE)) as [Ht|Ht].
  - pose proof Hwf as [_ Hipc Htp Hsub _ _ _ _ _]. unfold argv_of, parse_command, parse_subscribe.
    rewrite Ht in *. simpl in Htp, Hsub. rewrite bool_decide_false by done.
    rewrite !decide_False, decide_True by done.
    rewrite (is_valid_name_eq (topic c)), (is_valid_name_eq (subscriber c)), Htp, Hsub.
    apply (parse_options_of c _ Hwf Ht). by rewrite Ht.
  - pose proof (plain_command c Hwf Ht) as Hc. pose proof (f_equal prefix Hc) as Hp.
    pose proof (f_equal has_offset Hc) as Hh. simpl in Hp, Hh.
    destruct Hwf as [Hty Hipc Htp Hsub Hraw _ _ _ _].
    unfold argv_of, parse_command, options_of. rewrite Hp, Hh, (bool_decide_false (ipc_identifier c = [])) by done.
    destruct (type c) eqn:Ht'; try done; simpl in Htp, Hsub, Hraw;
      repeat (case_decide; try discriminate; try congruence);
      rewrite ?is_valid_name_eq, ?Htp, ?Hsub; 
      destruct (raw c) eqn:Hr; try discriminate (Hraw eq_refl); simpl; rewrite ?is_valid_name_eq, ?Htp; simpl;
      rewrite Hc, ?Htp, ?Hsub; done.
Qed.

(** ** Witnesses *)

Module Witness.

Lemma parse_offset_witness :
  parse_offset $"0042" = Some 42 ∧ parse_offset (Text.to_string 42) = Some 42.
Proof.
  exact (conj (proj2 (proj1 (parse_offset_exact $"0042" 42))
                 ltac:(split; [done|]; split; [reflexivity|]; split; [reflexivity|done]))
              (proj2 (parse_offset_exact $"0042" 42) ltac:(done))).
Defined.

Definition subscription : Command :=
  mkCommand Protocol.SUBSCRIBE $"/tmp/treenity.server.1" $"news" $"alice" $"eu." 7 true true.

Lemma parse_complete_witness :
  argv_of $"client" subscription =
    [$"client"; $"/tmp/treenity.server.1"; $"subscribe"; $"news"; $"alice"; $"--raw";
     $"--prefix"; $"eu."; $"--offset"; $"7"] ∧
  parse_command (argv_of $"client" subscription) = make_success subscription.
Proof. split; [reflexivity|]. apply parse_command_complete. by split. Defined.

End Witness.

End Command.
