(* ===== verification/Client.v ===== *)
(** * Client: what the commands of the client share

    The exit codes of src/client/src/exit_status.cpp, the output of
    src/client/src/message_output.cpp, the request and its answer of
    src/client/src/ipc_exchange.cpp, and the three commands of
    src/client/src/management_command.cpp that are no more than that. A local object is
    closed where its destructor runs: the readers and writers at each return, in the
    reverse order of their construction. *)

From S2P Require Import Prelude Protocol World Text Ipc Console Command.

Set Warnings "-clear-no-such-hyp".

Module Client.

Import World.
Open Scope Z_scope.

(** ** Exit codes *)

Inductive ClientError : Type := Error_None | Error_Topic | Error_Ipc | Error_General.

#[export] Instance ClientError_eq_decision : EqDecision ClientError.
Proof. solve_decision. Defined.

Definition priority_for (error : ClientError) : Z :=
  if decide (error = Error_General) then 3
  else if decide (error = Error_Ipc) then 2
  else if decide (error = Error_Topic) then 1
  else 0.

Definition code_for (error : ClientError) : Z :=
  if decide (error = Error_General) then 1
  else if decide (error = Error_Ipc) then 3
  else if decide (error = Error_Topic) then 2
  else 0.

Definition exit_code_for (first second : ClientError) : Z :=
  if priority_for first <? priority_for second then code_for second else code_for first.

Definition exit_code_from_response_code (response_code : byte) : Z :=
  if Z_of_byte response_code =? 0 then 0
  else if Z_of_byte response_code =? 1 then 1
  else if Z_of_byte response_code =? 2 then 2
  else if Z_of_byte response_code =? 3 then 3
  else 3.

(** ** Output of messages *)

Record Message : Type := mkMessage { key : str; value : str }.

Definition write_little_endian_int32 (output : Console.ostream) (number : Z)
    : bool * Console.ostream :=
  let bytes := [byte_of_Z (Z.land number 255); byte_of_Z (Z.land (Z.shiftr number 8) 255);
                byte_of_Z (Z.land (Z.shiftr number 16) 255);
                byte_of_Z (Z.land (Z.shiftr number 24) 255)] in
  let output := Console.write bytes output in
  (Console.good output, output).

Definition can_encode_size (size : Z) : bool := size <=? 2 ^ 31 - 1.

Definition format_text_message (message : Message) : str :=
  key message ++ $":" ++ value message ++ Console.newline.

Definition write_raw_message (output : Console.ostream) (offset : Z) (message : Message)
    : bool * Console.ostream :=
  if negb (can_encode_size (zlen (key message))) || negb (can_encode_size (zlen (value message)))
  then (false, output)
  else
    let '(ok, output) := write_little_endian_int32 output offset in
    if negb ok then (false, output) else
    let '(ok, output) := write_little_endian_int32 output (wrap32 (zlen (key message))) in
    if negb ok then (false, output) else
    let output := Console.write (key message) output in
    if negb (Console.good output) then (false, output) else
    let '(ok, output) := write_little_endian_int32 output (wrap32 (zlen (value message))) in
    if negb ok then (false, output) else
    let output := Console.write (value message) output in
    (Console.good output, output).

Definition write_output (payload : str) (io : Console.t) : Console.t :=
  let io := if negb (bool_decide (payload = [])) then Console.print payload io else io in
  Console.print Console.newline io.

Definition write_error (payload : str) (io : Console.t) : Console.t :=
  if bool_decide (payload = []) then
    Console.complain Console.newline (Console.complain $"server returned an error" io)
  else Console.complain Console.newline (Console.complain payload io).

(** [std::cerr << text << '\n'] *)
Definition report (text : str) (io : Console.t) : Console.t :=
  Console.complain Console.newline (Console.complain text io).

(** ** A request and its answer *)

Record ResponseFrame : Type := mkFrame { code : Protocol.StatusCode; payload : str }.

Inductive IpcExchangeStatus : Type :=
| Complete | ServerUnavailable | CommunicationError | InvalidResponse.

Record IpcExchangeResult : Type := mkExchange {
  status : IpcExchangeStatus;
  response : ResponseFrame
}.

Section Operations.
Context `{Kernel}.

Definition client_fifo_path (client_pid : Z) : str :=
  $"/tmp/treenity.client." ++ Text.to_string client_pid.

(** [IpcExchangeResult{status}], the response being that of the member's initializer. *)
Definition exchange_failed (status : IpcExchangeStatus) : IpcExchangeResult :=
  mkExchange status (mkFrame Protocol.SUCCESS []).

(** The part of [exchange_request] that follows the request: the header, and the payload it
    announces. *)
Definition read_response (fuel : nat) (reader : Ipc.FifoReader) (w : world)
    : outcome (IpcExchangeResult * world) :=
  '(ok, header_buf, w) ← Ipc.read_exact fuel 5 2000 reader w;
  if negb ok then mret (exchange_failed CommunicationError, w)
  else
    header ← Protocol.parse_response_header header_buf;
    match header with
    | None => mret (exchange_failed InvalidResponse, w)
    | Some header =>
        let payload_len := Protocol.response_payload_len header in
        if 0 <? payload_len then
          '(ok, bytes, w) ← Ipc.read_exact fuel payload_len 2000 reader w;
          if negb ok then mret (exchange_failed CommunicationError, w)
          else mret (mkExchange Complete (mkFrame (Protocol.status_code header) bytes), w)
        else mret (mkExchange Complete (mkFrame (Protocol.status_code header) []), w)
    end.

Definition exchange_request (fuel : nat) (server_fifo : str) (client_pid : Z) (request : str)
    (w : world) : outcome (IpcExchangeResult * world) :=
  let '(reader, w) := Ipc.reader_create (client_fifo_path client_pid) true w in
  if negb (Ipc.reader_is_open reader) then
    mret (exchange_failed CommunicationError, (Ipc.reader_close reader w).2)
  else
    '(writer, w) ← Ipc.writer_open fuel server_fifo 2000 w;
    if negb (Ipc.writer_is_open writer) then
      let '(_, w) := Ipc.writer_close writer w in
      mret (exchange_failed ServerUnavailable, (Ipc.reader_close reader w).2)
    else
      '(written, w) ← Ipc.write_exact fuel request writer w;
      if negb written : bool then
        let '(_, w) := Ipc.writer_close writer w in
        mret (exchange_failed CommunicationError, (Ipc.reader_close reader w).2)
      else
        let '(writer, w) := Ipc.writer_close writer w in
        '(result, w) ← read_response fuel reader w;
        let '(_, w) := Ipc.writer_close writer w in
        mret (result, (Ipc.reader_close reader w).2).

(** ** Management commands *)

(** The part the three commands have in common: a request is exchanged and its failures are
    reported; [finish] handles the answer. *)
Definition exchange_or_report (fuel : nat) (server_fifo : str) (client_pid : Z) (request : str)
    (io : Console.t) (w : world) (finish : ResponseFrame → Console.t → Z * Console.t)
    : outcome (Z * Console.t * world) :=
  '(exchange, w) ← exchange_request fuel server_fifo client_pid request w;
  match status exchange with
  | ServerUnavailable => mret (1, report $"failed to connect to server FIFO" io, w)
  | CommunicationError => mret (3, report $"IPC communication error" io, w)
  | InvalidResponse => mret (3, report $"invalid response from server" io, w)
  | Complete =>
      let '(exit_code, io) := finish (response exchange) io in mret (exit_code, io, w)
  end.

(** [static_cast<int>(exchange.response.code)], an error message when it is not zero, and
    [success] when it is. *)
Definition finish_with (success : ResponseFrame → Console.t → Console.t) (r : ResponseFrame)
    (io : Console.t) : Z * Console.t :=
  let exit_code := Z_of_byte (Protocol.StatusCode_code (code r)) in
  if negb (exit_code =? 0) then (exit_code, write_error (payload r) io)
  else (0, success r io).

Definition execute_create_command (fuel : nat) (command : Command.Command) (io : Console.t)
    (w : world) : outcome (Z * Console.t * world) :=
  let client_pid := getpid_ w in
  exchange_or_report fuel (Command.ipc_identifier command) client_pid
    (Protocol.serialize_create client_pid (Command.topic command)) io w
    (finish_with (λ _ io, Console.print Console.newline (Console.print $"topic created" io))).

Definition execute_list_command (fuel : nat) (command : Command.Command) (io : Console.t)
    (w : world) : outcome (Z * Console.t * world) :=
  let client_pid := getpid_ w in
  exchange_or_report fuel (Command.ipc_identifier command) client_pid
    (Protocol.serialize_list client_pid) io w
    (finish_with (λ r, write_output (payload r))).

Definition execute_info_command (fuel : nat) (command : Command.Command) (io : Console.t)
    (w : world) : outcome (Z * Console.t * world) :=
  let client_pid := getpid_ w in
  exchange_or_report fuel (Command.ipc_identifier command) client_pid
    (Protocol.serialize_info client_pid (Command.subscriber command)) io w
    (finish_with (λ r, write_output (payload r))).

End Operations.

(** ** Lemmas *)

Lemma response_header h :
  zlen h = 5 →
  ∃ b z, h = b :: Protocol.u32_bytes z ∧ u32 z ∧
    Protocol.parse_response_header h =
    Done (if Z_of_byte b <=? 3 then Some (Protocol.mkResponseHeader (Protocol.StatusCode_of b) z)
          else None).
Proof.
  destruct h as [|b l]; [done|]. rewrite zlen_cons. intros Hl.
  destruct (Protocol.parse_response_header_eq b l ltac:(lia)) as (z & Hz & Ht & Hp).
  apply Protocol.take_u32_Some in Ht as [_ Ht]. exists b, z. split_and!; [|done|done].
  rewrite drop_ge, app_nil_r in Ht by (unfold zlen in Hl; lia). by rewrite <- Ht.
Qed.

(** The bytes a complete answer was read from. *)
Definition answered (r : ResponseFrame) (got : str) : Prop :=
  got = Protocol.serialize_response (code r) (payload r) ∧
  Z_of_byte (Protocol.StatusCode_code (code r)) ≤ 3 ∧ zlen (payload r) < 2 ^ 32.

Section Theory.
Context `{KernelLaws} `{!TransferLaws}.
Implicit Types (w : world).

Lemma read_response_spec fuel reader w result w' :
  read_response fuel reader w = Done (result, w') →
  same_fds w w' ∧ ∃ got, Ipc.received (Ipc.reader_fd reader) got w w' ∧
  (status result = Complete → answered (response result) got).
Proof.
  unfold read_response. intros ([[ok h] w1] & Hr1 & Hrun)%bind_Done.
  pose proof (Ipc.read_exact_same_fds _ _ _ _ _ _ _ _ Hr1) as Hs1.
  apply Ipc.read_exact_receives in Hr1 as [Hrec1 Hh]; [|lia].
  destruct ok; simpl in Hrun; [|injection Hrun as <- <-; split; [done|by eexists]].
  destruct (response_header h Hh) as (b & z & -> & Hz & Hp). rewrite Hp in Hrun. cbn [mbind outcome_bind] in Hrun.
  destruct (Z.leb_spec (Z_of_byte b) 3) as [Hb|Hb]; [|injection Hrun as <- <-; split; [done|by eexists]].
  assert (Protocol.StatusCode_code (Protocol.StatusCode_of b) = b) as Hcode by (by destruct b).
  simpl in Hrun. destruct (Z.ltb_spec 0 z) as [Hpos|Hzero].
  - apply bind_Done in Hrun as ([[ok bytes] w2] & Hr2 & Hrun).
    pose proof (Ipc.read_exact_same_fds _ _ _ _ _ _ _ _ Hr2) as Hs2.
    apply Ipc.read_exact_receives in Hr2 as [Hrec2 Hl]; [|lia].
    pose proof (Ipc.received_trans _ _ _ _ _ _ Hrec1 Hrec2) as Hrec.
    assert (same_fds w w2) as Hs by (by etransitivity).
    destruct ok; simpl in Hrun; injection Hrun as <- <-; (split; [done|]); [|by eexists].
    eexists. split; [exact Hrec|]. intros _. unfold u32 in Hz. unfold answered. simpl.
    split_and!; [|by rewrite Hcode|lia].
    by rewrite Protocol.serialize_response_eq, Hcode, Hl by lia.
  - injection Hrun as <- <-. split; [done|]. eexists. split; [exact Hrec1|]. intros _.
    unfold u32 in Hz. replace z with 0 by lia. unfold answered. simpl.
    split_and!; [by rewrite Protocol.serialize_response_eq, Hcode|by rewrite Hcode|done].
Qed.

Lemma writer_close_again r w w' :
  Ipc.writer_close (Ipc.writer_close r w).1 w' = ((Ipc.writer_close r w).1, w').
Proof.
  unfold Ipc.writer_close. destruct (0 <=? Ipc.writer_fd r) eqn:Hfd; simpl; [done|by rewrite Hfd].
Qed.

(** Whatever becomes of a request, the descriptors end as they were, the server's FIFO took a
    part of it at most and nothing else was written; when it is complete, it was taken as a
    whole and the client's FIFO gave the answer. *)
Definition exchange_post (request : str) w (r : IpcExchangeResult * world) : Prop :=
  same_fds w r.2 ∧
  ∃ rd wr got put, rd ≠ wr ∧ Ipc.only_talked rd wr got put w r.2 ∧ put `prefix_of` request ∧
    (status r.1 = Complete → put = request ∧ answered (response r.1) got).

Lemma exchange_silent request w st w' :
  st ≠ Complete → same_fds w w' → Ipc.silent w w' → exchange_post request w (exchange_failed st, w').
Proof.
  intros Hst Hs Hq. split; [done|]. exists 0, 1, [], [].
  split_and!; [done|by apply Ipc.silent_only_talked|apply prefix_nil|done].
Qed.

Lemma exchange_request_spec fuel server_fifo client_pid request w r :
  exchange_request fuel server_fifo client_pid request w = Done r →
  exchange_post request w r.
Proof.
  unfold exchange_request.
  destruct (Ipc.reader_create _ true w) as [reader w1] eqn:Hcreate.
  destruct (Ipc.reader_session _ _ _ _ _ Hcreate) as [Hq1 Hclose].
  destruct (Ipc.reader_is_open reader) eqn:Hopen; cbn [negb].
  2:{ intros [= <-]. apply exchange_silent; [done|by apply Hclose|].
      etransitivity; [exact Hq1|apply Ipc.reader_close_silent]. }
  intros ([writer w2] & Hw & Hrun)%bind_Done.
  destruct (Ipc.writer_session _ _ _ _ _ _ _ _ _ _ Hcreate Hopen Hw) as (Hq2 & Hclose2 & Hne).
  pose proof (transitivity Hq1 Hq2) as Hq.
  destruct (Ipc.writer_is_open writer) eqn:Hopen2; cbn [negb] in Hrun.
  2:{ specialize (Hclose2 w2 ltac:(done)). pose proof (Ipc.writer_close_silent writer w2) as Hq3.
      destruct (Ipc.writer_close writer w2) as [wr w3]. injection Hrun as <-.
      apply exchange_silent; [done|by apply Hclose|].
      etransitivity; [exact (transitivity Hq Hq3)|apply Ipc.reader_close_silent]. }
  apply bind_Done in Hrun as ([written w3] & Hwr & Hrun).
  specialize (Hclose2 w3 (Ipc.write_exact_same_fds _ _ _ _ _ _ Hwr)). specialize (Hne eq_refl).
  pose proof (Ipc.writer_close_silent writer w3) as Hq3.
  pose proof (writer_close_again writer w3) as Hagain.
  destruct (Ipc.writer_close writer w3) as [wr w4]. simpl in *.
  apply Ipc.write_exact_sends in Hwr. unfold exchange_post. destruct written; simpl in Hrun.
  2:{ injection Hrun as <-. split; [by apply Hclose|].
      destruct Hwr as (n & _ & _ & Hs%(Ipc.sent_only (Ipc.reader_fd reader))).
      do 4 eexists. split_and!; [exact Hne| |apply prefix_take|done].
      eapply Ipc.only_talked_silent; [|apply Ipc.reader_close_silent].
      eapply Ipc.only_talked_silent; [|exact Hq3]. by eapply Ipc.silent_only. }
  apply bind_Done in Hrun as ([result w5] & Hres & Hrun).
  apply read_response_spec in Hres as (Hs5 & got & Hgot & Hans).
  rewrite Hagain in Hrun. injection Hrun as <-. simpl.
  split; [apply Hclose; by etransitivity|].
  exists (Ipc.reader_fd reader), (Ipc.writer_fd writer), got, request.
  split_and!; [done| |done|by split; [|apply Hans]].
  eapply Ipc.only_talked_silent; [|apply Ipc.reader_close_silent].
  apply (Ipc.sent_only (Ipc.reader_fd reader)) in Hwr.
  apply (Ipc.received_only _ (Ipc.writer_fd writer)) in Hgot.
  pose proof (Ipc.only_talked_trans _ _ _ _ _ _ _ _ _
    (Ipc.only_talked_silent _ _ _ _ _ _ _ Hwr Hq3) Hgot) as Ht.
  rewrite app_nil_r in Ht. by eapply Ipc.silent_only.
Qed.

(** ** Commands end *)

Context `{!FiniteStalls} `{!ClockLaws}.

Lemma read_exact_converges count timeout_ms r w :
  converges (λ fuel, Ipc.read_exact fuel count timeout_ms r w).
Proof. destruct (Ipc.read_exact_ends count timeout_ms r w) as [res Hres]. by exists res; eexists. Qed.

Lemma write_exact_converges src r w : converges (λ fuel, Ipc.write_exact fuel src r w).
Proof. destruct (Ipc.write_exact_ends src r w) as [res Hres]. by exists res; eexists. Qed.

Lemma writer_open_converges path timeout w :
  converges (λ fuel, Ipc.writer_open fuel path timeout w).
Proof. destruct (Ipc.writer_open_ends path timeout w) as [res Hres]. by exists res; eexists. Qed.

Lemma read_response_converges reader w : converges (λ fuel, read_response fuel reader w).
Proof.
  apply converges_bind; [apply read_exact_converges|]. intros [[ok h] w1] n Hr.
  destruct ok; simpl; [|apply converges_const].
  apply Ipc.read_exact_receives in Hr as [_ Hh]; [|lia].
  destruct (response_header h Hh) as (b & z & -> & Hz & ->). cbn [mbind outcome_bind].
  destruct (Z_of_byte b <=? 3); [|apply converges_const]. simpl.
  destruct (0 <? z); [|apply converges_const].
  apply converges_bind; [apply read_exact_converges|].
  intros [[ok bytes] w2] _ _. destruct ok; apply converges_const.
Qed.

Lemma exchange_request_converges server_fifo client_pid request w :
  converges (λ fuel, exchange_request fuel server_fifo client_pid request w).
Proof.
  unfold exchange_request. destruct (Ipc.reader_create _ true w) as [reader w1].
  destruct (negb _); [apply converges_const|].
  apply converges_bind; [apply writer_open_converges|]. intros [writer w2] _ _.
  destruct (negb _); [destruct (Ipc.writer_close writer w2); apply converges_const|].
  apply converges_bind; [apply write_exact_converges|]. intros [written w3] _ _.
  destruct (negb written), (Ipc.writer_close writer w3) as [wr w4]; [apply converges_const|].
  apply converges_bind; [apply read_response_converges|]. intros [result w5] _ _.
  destruct (Ipc.writer_close wr w5). apply converges_const.
Qed.

Lemma exchange_or_report_converges server_fifo client_pid request io w finish :
  converges (λ fuel, exchange_or_report fuel server_fifo client_pid request io w finish).
Proof.
  apply converges_bind; [apply exchange_request_converges|]. intros [[st r] w1] _ _. simpl.
  destruct st; try apply converges_const. destruct (finish r io). apply converges_const.
Qed.

(** What a management command does, given what it prints on success. *)
Definition management_post (request : str) (success : ResponseFrame → Console.t → Console.t)
    (io : Console.t) w (res : Z * Console.t * world) : Prop :=
  let '(exit_code, io', w') := res in
  same_fds w w' ∧ ∃ rd wr got put, rd ≠ wr ∧ Ipc.only_talked rd wr got put w w' ∧
  ((∃ r, put = request ∧ answered r got ∧
      exit_code = Z_of_byte (Protocol.StatusCode_code (code r)) ∧
      io' = if exit_code =? 0 then success r io else write_error (payload r) io) ∨
   (put `prefix_of` request ∧
    ((exit_code = 1 ∧ io' = report $"failed to connect to server FIFO" io) ∨
     (exit_code = 3 ∧ (io' = report $"IPC communication error" io ∨
                       io' = report $"invalid response from server" io))))).

Lemma management_ends server_fifo client_pid request success io w :
  ∃ res, yields (λ fuel, exchange_or_report fuel server_fifo client_pid request io w
                           (finish_with success)) res ∧
         management_post request success io w res.
Proof.
  destruct (converges_at _ (exchange_or_report_converges server_fifo client_pid request io w
    (finish_with success))) as (res & n & Hrun & Hy).
  exists res. split; [done|]. clear Hy.
  apply bind_Done in Hrun as ([[st r] w'] & Hex & Hrun).
  apply exchange_request_spec in Hex as (Hs & rd & wr & got & put & Hne & Ht & Hp & Hc).
  unfold finish_with, management_post in *. simpl in *.
  destruct st.
  2,3,4: injection Hrun as <-; split; [exact Hs|]; exists rd, wr, got, put; tauto.
  destruct (Hc eq_refl) as [Hput Ha].
  destruct (Z_of_byte (Protocol.StatusCode_code (code r)) =? 0) eqn:Hz; simpl in Hrun;
    injection Hrun as <-; (split; [done|]); exists rd, wr, got, put; (split_and!; [done..|]);
    left; exists r; split_and!; try done.
  - by apply Z.eqb_eq in Hz.
  - by rewrite Hz.
Qed.

End Theory.

(** ** Properties *)

Section Properties.
Context `{KernelLaws} `{!TransferLaws} `{!FiniteStalls} `{!ClockLaws}.

(** C31: A request ends, with every descriptor it opened closed again whatever went wrong, and
    nothing but a part of the request was written; when it is reported as complete, the
    server's FIFO took exactly the bytes of the request, and the bytes read from the
    client's FIFO are exactly the response that is returned. *)
Theorem exchange_request_reliable (server_fifo : str) (client_pid : Z) (request : str) (w : world) :
  ∃ result w', yields (λ fuel, exchange_request fuel server_fifo client_pid request w) (result, w') ∧
    same_fds w w' ∧
    ∃ rd wr got put, rd ≠ wr ∧ Ipc.only_talked rd wr got put w w' ∧ put `prefix_of` request ∧
      (status result = Complete →
       put = request ∧
       got = Protocol.serialize_response (code (response result)) (payload (response result))).
Proof.
  destruct (converges_at _ (exchange_request_converges server_fifo client_pid request w))
    as ([result w'] & n & Hrun & Hy).
  apply exchange_request_spec in Hrun as (Hs & rd & wr & got & put & Hne & Ht & Hp & Hc).
  exists result, w'. split_and!; [done|done|]. exists rd, wr, got, put. split_and!; [done..|].
  intros Hst. by destruct (Hc Hst) as (? & ? & _).
Qed.

(** C30: [create], [list] and [info] end, leak no descriptor, send the request of the command
    line, or a part of it when that fails, and nothing else, exit with the status of the server's answer, print the answer when
    it is a success and complain on [cerr] otherwise. *)
Theorem management_commands_end (command : Command.Command) (io : Console.t) (w : world) :
  let pid := getpid_ w in
  (∃ res, yields (λ fuel, execute_create_command fuel command io w) res ∧
     management_post (Protocol.serialize_request (Protocol.Req_create pid (Command.topic command)))
       (λ _ io, Console.print Console.newline (Console.print $"topic created" io)) io w res) ∧
  (∃ res, yields (λ fuel, execute_list_command fuel command io w) res ∧
     management_post (Protocol.serialize_request (Protocol.Req_list pid))
       (λ r, write_output (payload r)) io w res) ∧
  (∃ res, yields (λ fuel, execute_info_command fuel command io w) res ∧
     management_post (Protocol.serialize_request (Protocol.Req_info pid (Command.subscriber command)))
       (λ r, write_output (payload r)) io w res).
Proof. split_and!; apply management_ends. Qed.

End Properties.

(** ** Witnesses *)

Module Witness.

Import World.Simple.

(** The server's answer arrives in two pieces, and the request is taken in three. *)
Definition answering (s : Protocol.StatusCode) (p : str) : world :=
  mkWorld (mkState [] [4; 0; 2] []
    [take 3 (Protocol.serialize_response s p); drop 3 (Protocol.serialize_response s p)] 0) [].

Example list_prints_the_topics :
  match execute_list_command 300 (Command.mkCommand Protocol.LIST $"/s" [] [] [] 0 false false)
          (Console.console []) (answering Protocol.SUCCESS $"a,b") with
  | Done (exit_code, io, _) => exit_code = 0 ∧ Console.out (Console.cout io) = $"a,b" ++ Console.newline
  | _ => False
  end.
Proof. vm_compute. by split. Qed.

Example refused_topic_is_reported :
  match execute_create_command 300 (Command.mkCommand Protocol.CREATE $"/s" $"a" [] [] 0 false false)
          (Console.console []) (answering Protocol.TOPIC_CLIENT_ERR []) with
  | Done (exit_code, io, _) => exit_code = 2 ∧ Console.out (Console.cout io) = []
  | _ => False
  end.
Proof. vm_compute. by split. Qed.

Lemma exchange_witness :
  ∃ result w', yields (λ fuel, exchange_request fuel $"/s" 7 (Protocol.serialize_list 7)
                                 (answering Protocol.SUCCESS $"a,b")) (result, w') ∧
    same_fds (answering Protocol.SUCCESS $"a,b") w'.
Proof.
  destruct (exchange_request_reliable $"/s" 7 (Protocol.serialize_list 7)
    (answering Protocol.SUCCESS $"a,b")) as (result & w' & Hy & Hs & _).
  exists result, w'. exact (conj Hy Hs).
Defined.

Lemma management_witness :
  ∃ res, yields (λ fuel, execute_list_command fuel
           (Command.mkCommand Protocol.LIST $"/s" [] [] [] 0 false false)
           (Console.console []) (answering Protocol.SUCCESS $"a,b")) res.
Proof.
  destruct (management_commands_end (Command.mkCommand Protocol.LIST $"/s" [] [] [] 0 false false)
    (Console.console []) (answering Protocol.SUCCESS $"a,b")) as (_ & (res & Hy & _) & _).
  exists res. exact Hy.
Defined.

End Witness.

End Client.
