(* ===== verification/Producer.v ===== *)
(** * Producer: src/client/src/producer_command.cpp

    The producer connects, opens the FIFO of the server and publishes what it reads from the
    standard input: lines [key:value], or raw records of two sizes and two strings. *)

From S2P Require Import Prelude Protocol World Text Ipc Console Command Client.

Set Warnings "-clear-no-such-hyp".

Module Producer.

Import World.
Open Scope Z_scope.

(** ** Reading the standard input *)

Inductive IntegerReadStatus : Type := Integer_Ok | Integer_EndOfFile | Integer_Partial.

(** [bytes[i]], of an array that is zero where nothing was read. *)
Definition byte_at (bytes : str) (i : nat) : Z := Z_of_byte (default Byte.x00 (bytes !! i)).

(** The body of the loop of [read_little_endian_int32]; [bytes] is what was read so far. *)
Definition int32_once (s : str * Console.istream)
    : outcome (str * Console.istream + IntegerReadStatus * str * Console.istream) :=
  let '(bytes, cin) := s in
  if negb (zlen bytes <? 4) then mret (inr (Integer_Ok, bytes, cin))
  else
    let '(chunk, cin) := Console.read (4 - zlen bytes) cin in
    if zlen chunk <=? 0 then
      mret (inr (if (zlen bytes =? 0) && Console.eofbit cin then Integer_EndOfFile
                 else Integer_Partial, bytes, cin))
    else mret (inl (bytes ++ chunk, cin)).

(** Five turns are enough: each but the last reads a byte or more. *)
Definition read_little_endian_int32 (cin : Console.istream)
    : outcome (IntegerReadStatus * Z * Console.istream) :=
  '(status, bytes, cin) ← iterate int32_once 5 ([], cin);
  match status with
  | Integer_Ok =>
      mret (Integer_Ok, Z.lor (Z.lor (Z.lor (byte_at bytes 0) (Z.shiftl (byte_at bytes 1) 8))
                                     (Z.shiftl (byte_at bytes 2) 16))
                              (Z.shiftl (byte_at bytes 3) 24), cin)
  | status => mret (status, 0, cin)
  end.

(** The body of the loop of [read_exact]; [value] is the part of it that was read. *)
Definition exact_once (size : Z) (s : str * Console.istream)
    : outcome (str * Console.istream + bool * str * Console.istream) :=
  let '(value, cin) := s in
  if negb (zlen value <? size) then mret (inr (true, value, cin))
  else
    let '(chunk, cin) := Console.read (size - zlen value) cin in
    if zlen chunk <=? 0 then mret (inr (false, value, cin))
    else mret (inl (value ++ chunk, cin)).

Definition read_exact (size : Z) (cin : Console.istream) : outcome (bool * str * Console.istream) :=
  if size =? 0 then mret (true, [], cin)
  else iterate (exact_once size) (S (Z.to_nat size)) ([], cin).

(** [line.find(c)] *)
Fixpoint find (c : byte) (line : str) : option nat :=
  match line with
  | [] => None
  | d :: line => if decide (d = c) then Some 0%nat else S <$> find c line
  end.

(** ** Publishing *)

Section Operations.
Context `{Kernel}.

Abbreviation result := ((Z * Console.t * world)%type).

(** The frame and its way to the server: the end of the body of both loops. *)
Definition publish (fuel : nat) (command : Command.Command) (writer : Ipc.FifoWriter)
    (key value : str) (io : Console.t) (w : world) : outcome (Console.t * world + result) :=
  let frame := Protocol.serialize_produce (Command.topic command) key value in
  '(ok, w) ← Ipc.write_exact fuel frame writer w;
  if negb ok : bool then mret (inr (3, Client.report $"IPC communication error" io, w))
  else mret (inl (io, w)).

(** One turn of [while (std::getline(std::cin, line))], or what follows the loop. *)
Definition text_once (fuel : nat) (command : Command.Command) (writer : Ipc.FifoWriter)
    (s : Console.t * world) : outcome (Console.t * world + result) :=
  let '(io, w) := s in
  let '(more, line, cin) := Console.getline (Console.cin io) in
  let io := Console.with_cin cin io in
  if negb more then
    if negb (Console.eofbit cin) then
      mret (inr (1, Client.report $"failed to read text input" io, w))
    else mret (inr (0, io, w))
  else
    match find Byte.x3a line with
    | None =>
        mret (inr (1, Client.report $"text message must contain ':' between key and body" io, w))
    | Some separator =>
        let key := take separator line in
        let value := drop (separator + 1) line in
        if (Protocol.MAX_PAYLOAD_SIZE <? zlen key) ||
           (Protocol.MAX_PAYLOAD_SIZE - zlen key <? zlen value) then
          mret (inr (1, Client.report $"message key and body exceed 1024 bytes" io, w))
        else publish fuel command writer key value io w
    end.

Definition execute_publish_text (fuel : nat) (command : Command.Command)
    (writer : Ipc.FifoWriter) (io : Console.t) (w : world) : outcome result :=
  iterate (text_once fuel command writer) fuel (io, w).

Definition partial_record (io : Console.t) (w : world) : result :=
  (1, Client.report $"partial raw record at EOF" io, w).

Definition record_too_long (io : Console.t) (w : world) : result :=
  (1, Client.report $"message key and body exceed 1024 bytes" io, w).

(** The second half of a turn of the loop of [execute_publish_raw], from the size of the value
    on. *)
Definition raw_value (fuel : nat) (command : Command.Command) (writer : Ipc.FifoWriter)
    (key_size : Z) (key : str) (io : Console.t) (w : world) : outcome (Console.t * world + result) :=
  '(status, val_size, cin) ← read_little_endian_int32 (Console.cin io);
  let io := Console.with_cin cin io in
  match status with
  | Integer_Ok =>
      if Protocol.MAX_PAYLOAD_SIZE - key_size <? val_size then mret (inr (record_too_long io w))
      else
        '(ok, value, cin) ← read_exact val_size (Console.cin io);
        let io := Console.with_cin cin io in
        if negb ok : bool then mret (inr (partial_record io w))
        else publish fuel command writer key value io w
  | _ => mret (inr (partial_record io w))
  end.

(** One turn of the loop of [execute_publish_raw]. *)
Definition raw_once (fuel : nat) (command : Command.Command) (writer : Ipc.FifoWriter)
    (s : Console.t * world) : outcome (Console.t * world + result) :=
  let '(io, w) := s in
  '(status, key_size, cin) ← read_little_endian_int32 (Console.cin io);
  let io := Console.with_cin cin io in
  match status with
  | Integer_EndOfFile => mret (inr (0, io, w))
  | Integer_Partial => mret (inr (partial_record io w))
  | Integer_Ok =>
      if Protocol.MAX_PAYLOAD_SIZE <? key_size then mret (inr (record_too_long io w))
      else
        '(ok, key, cin) ← read_exact key_size (Console.cin io);
        let io := Console.with_cin cin io in
        if negb ok : bool then mret (inr (partial_record io w))
        else raw_value fuel command writer key_size key io w
  end.

Definition execute_publish_raw (fuel : nat) (command : Command.Command)
    (writer : Ipc.FifoWriter) (io : Console.t) (w : world) : outcome result :=
  iterate (raw_once fuel command writer) fuel (io, w).

(** ** The command *)

Definition execute_connect_command (fuel : nat) (command : Command.Command) (io : Console.t)
    (w : world) : outcome result :=
  let client_pid := getpid_ w in
  Client.exchange_or_report fuel (Command.ipc_identifier command) client_pid
    (Protocol.serialize_connect client_pid (Command.topic command)) io w
    (λ response io,
       let exit_code :=
         Client.exit_code_from_response_code (Protocol.StatusCode_code (Client.code response)) in
       if negb (exit_code =? 0) then (exit_code, Client.write_error (Client.payload response) io)
       else (0, io)).

Definition execute_producer_command (fuel : nat) (command : Command.Command) (io : Console.t)
    (w : world) : outcome result :=
  '(connect_code, io, w) ← execute_connect_command fuel command io w;
  if negb (connect_code =? 0) then mret (connect_code, io, w)
  else
    '(writer, w) ← Ipc.writer_open fuel (Command.ipc_identifier command) 2000 w;
    if negb (Ipc.writer_is_open writer) then
      mret (1, Client.report $"failed to connect to server FIFO" io, (Ipc.writer_close writer w).2)
    else
      '(exit_code, io, w) ←
        (if Command.raw command then execute_publish_raw fuel command writer io w
         else execute_publish_text fuel command writer io w);
      mret (exit_code, io, (Ipc.writer_close writer w).2).

End Operations.

(** ** What the input says *)

(** A line that is a message. *)
Definition is_message (line key value : str) : Prop :=
  line = key ++ [Byte.x3a] ++ value ∧ Byte.x3a ∉ key ∧
  zlen key + zlen value ≤ Protocol.MAX_PAYLOAD_SIZE.

(** The messages of a text input up to the first line that is none, and the exit code: an
    input that is cut by an error is refused, and a last line need not end in a newline. *)
Inductive text_input (broken : bool) : str → list (str * str) → Z → Prop :=
| text_end : text_input broken [] [] (if broken then 1 else 0)
| text_line line key value more ms code :
    Byte.x0a ∉ line → is_message line key value → text_input broken more ms code →
    text_input broken (line ++ Console.newline ++ more) ((key, value) :: ms) code
| text_last line key value :
    broken = false → Byte.x0a ∉ line → is_message line key value →
    text_input broken line [(key, value)] 0
| text_cut line :
    broken = true → line ≠ [] → Byte.x0a ∉ line → text_input broken line [] 1
| text_malformed line more :
    Byte.x0a ∉ line → (∀ key value, ¬ is_message line key value) →
    (broken = false ∧ line ≠ [] ∧ more = [] ∨ ∃ more', more = Console.newline ++ more') →
    text_input broken (line ++ more) [] 1.

Definition raw_record (key value : str) : str :=
  Protocol.u32_bytes (zlen key) ++ key ++ Protocol.u32_bytes (zlen value) ++ value.

(** The records of a raw input up to the first that is partial or too long. *)
Inductive raw_input (broken : bool) : str → list (str * str) → Z → Prop :=
| raw_end : raw_input broken [] [] (if broken then 1 else 0)
| raw_next key value more ms code :
    zlen key + zlen value ≤ Protocol.MAX_PAYLOAD_SIZE → raw_input broken more ms code →
    raw_input broken (raw_record key value ++ more) ((key, value) :: ms) code
| raw_malformed bytes :
    bytes ≠ [] →
    (∀ key value more, zlen key + zlen value ≤ Protocol.MAX_PAYLOAD_SIZE →
                       bytes ≠ raw_record key value ++ more) →
    raw_input broken bytes [] 1.

(** The frames of messages. *)
Definition frames (topic : str) (ms : list (str * str)) : str :=
  concat ((λ m, Protocol.serialize_produce topic m.1 m.2) <$> ms).

(** ** Lemmas on the input *)

Lemma find_spec c line :
  match find c line with
  | Some n => c ∉ take n line ∧ line = take n line ++ [c] ++ drop (n + 1) line
  | None => c ∉ line
  end.
Proof.
  induction line as [|d line IH]; simpl; [apply not_elem_of_nil|].
  case_decide as Hd; [subst d; simpl; split; [apply not_elem_of_nil|done]|].
  destruct (find c line) as [n|]; simpl.
  - destruct IH as [Hn Heq]. split; [apply not_elem_of_cons; split; congruence|]. by f_equal.
  - apply not_elem_of_cons. split; congruence.
Qed.

(** [find] cuts a line where a message says. *)
Lemma message_cut line n key value :
  find Byte.x3a line = Some n → line = key ++ [Byte.x3a] ++ value → Byte.x3a ∉ key →
  take n line = key ∧ drop (n + 1) line = value.
Proof.
  intros Hf. revert n Hf key. induction line as [|c line IH]; intros n Hf key; simpl in *; [done|].
  case_decide as Hc.
  - injection Hf as <-. intros Hl Hk. destruct key as [|d key]; simpl in Hl.
    + by injection Hl as _ ->.
    + injection Hl as <- _. apply not_elem_of_cons in Hk as [Hk _]. congruence.
  - destruct (find Byte.x3a line) as [m|]; [|done]. injection Hf as <-.
    intros Hl Hk. destruct key as [|d key]; simpl in Hl; [by injection Hl as -> _|].
    injection Hl as <- Hl. apply not_elem_of_cons in Hk as [_ Hk].
    destruct (IH m eq_refl key Hl Hk) as [<- <-]. done.
Qed.

Lemma exact_once_done size value cin :
  size ≤ zlen value → exact_once size (value, cin) = Done (inr (true, value, cin)).
Proof. intros Hl. unfold exact_once. by rewrite (proj2 (Z.ltb_ge _ _) Hl). Qed.

Lemma exact_once_enough size value cin :
  Console.in_good cin = true → 0 < size - zlen value ≤ zlen (Console.rest cin) →
  exact_once size (value, cin) =
  Done (inl (value ++ take (Z.to_nat (size - zlen value)) (Console.rest cin),
             Console.with_rest (drop (Z.to_nat (size - zlen value)) (Console.rest cin)) cin)).
Proof.
  intros Hg Hl. unfold exact_once. rewrite (proj2 (Z.ltb_lt _ _)) by lia. cbn [negb].
  rewrite Console.read_enough by (try done; lia).
  assert (zlen (take (Z.to_nat (size - zlen value)) (Console.rest cin)) = size - zlen value) as Hz
    by (unfold zlen in *; rewrite length_take; lia).
  rewrite (proj2 (Z.leb_gt _ _)) by lia. done.
Qed.

Lemma exact_once_short size value cin :
  Console.in_good cin = true → zlen (Console.rest cin) < size - zlen value →
  ∃ s', Console.in_good s' = false ∧ Console.eofbit s' = negb (Console.broken cin) ∧
  exact_once size (value, cin) =
  Done (if decide (Console.broken cin = true ∨ Console.rest cin = [])
        then inr (false, value, s') else inl (value ++ Console.rest cin, s')).
Proof.
  intros Hg Hl. destruct (Console.read_short _ cin Hg Hl) as (s' & Hr & Hg' & He).
  exists s'. split_and!; [done|done|]. unfold exact_once. zlen_facts.
  rewrite (proj2 (Z.ltb_lt _ _)) by lia. cbn [negb]. rewrite Hr.
  destruct (Console.broken cin); [done|].
  destruct (Console.rest cin) as [|c bytes]; [done|].
  rewrite (proj2 (Z.leb_gt _ _)) by (rewrite zlen_cons; zlen_facts; lia).
  by rewrite decide_False by (intros [|]; done).
Qed.

Lemma exact_once_spent size value cin :
  Console.in_good cin = false → zlen value < size →
  exact_once size (value, cin) = Done (inr (false, value, Console.set_fail cin)).
Proof.
  intros Hg Hl. unfold exact_once. rewrite (proj2 (Z.ltb_lt _ _)) by lia. cbn [negb].
  by rewrite Console.read_spent.
Qed.

Lemma read_exact_spec size cin :
  Console.in_good cin = true → 0 ≤ size →
  ∃ ok value cin', read_exact size cin = Done (ok, value, cin') ∧
  if ok : bool then size ≤ zlen (Console.rest cin) ∧ value = take (Z.to_nat size) (Console.rest cin) ∧
                    cin' = Console.with_rest (drop (Z.to_nat size) (Console.rest cin)) cin
  else zlen (Console.rest cin) < size.
Proof.
  intros Hg Hs. unfold read_exact. destruct (Z.eqb_spec size 0) as [->|Hne].
  { eexists true, _, _. split; [done|]. change (Z.to_nat 0) with 0%nat.
    rewrite drop_0, Console.with_rest_same. split; [apply zlen_nonneg|done]. }
  assert (∃ n, Z.to_nat size = S n) as [n Hn] by (exists (Z.to_nat size - 1)%nat; lia).
  replace (S (Z.to_nat size)) with (S (S n)) by lia.
  destruct (Z.le_gt_cases size (zlen (Console.rest cin))) as [Hl|Hl].
  - assert (size - zlen (@nil byte) = size) as Hz by (rewrite zlen_nil; lia).
    pose proof (exact_once_enough size [] cin Hg) as Ho. rewrite Hz in Ho.
    erewrite iterate_continue by (apply Ho; lia).
    erewrite iterate_leave; [|apply exact_once_done; simpl; unfold zlen in *; rewrite length_take; lia].
    by eexists true, _, _.
  - destruct (exact_once_short size [] cin Hg) as (s' & Hg' & _ & Ho); [rewrite zlen_nil; lia|].
    destruct (decide _) as [Hd|Hd].
    + erewrite iterate_leave by exact Ho. by eexists false, _, _.
    + erewrite iterate_continue by exact Ho.
      erewrite iterate_leave by (by apply exact_once_spent). by eexists false, _, _.
Qed.

(** [read_little_endian_int32] is [read_exact] of four bytes, except for what it reports. *)
Lemma int32_once_exact bytes cin :
  int32_once (bytes, cin) =
  match exact_once 4 (bytes, cin) with
  | Done (inr (ok, bytes, cin)) =>
      Done (inr (if ok : bool then Integer_Ok
                 else if (zlen bytes =? 0) && Console.eofbit cin then Integer_EndOfFile
                 else Integer_Partial, bytes, cin))
  | Done (inl s) => Done (inl s)
  | _ => NoFuel
  end.
Proof.
  unfold int32_once, exact_once. destruct (negb _); [done|].
  destruct (Console.read _ cin) as [chunk s]. by destruct (_ <=? 0).
Qed.

Lemma read_int32_spec cin :
  Console.in_good cin = true →
  ∃ status z cin', read_little_endian_int32 cin = Done (status, z, cin') ∧
  match status with
  | Integer_Ok => u32 z ∧ ∃ more, Console.rest cin = Protocol.u32_bytes z ++ more ∧
                                  cin' = Console.with_rest more cin
  | Integer_EndOfFile => Console.rest cin = [] ∧ Console.broken cin = false
  | Integer_Partial => zlen (Console.rest cin) < 4 ∧
                       (Console.rest cin = [] → Console.broken cin = true)
  end.
Proof.
  intros Hg. unfold read_little_endian_int32.
  destruct (Z.le_gt_cases 4 (zlen (Console.rest cin))) as [Hl|Hl].
  - destruct (Protocol.take_u32_drop _ Hl) as (z & Hz & Ht).
    erewrite iterate_continue
      by (rewrite int32_once_exact, exact_once_enough by (try done; rewrite zlen_nil; lia); done).
    destruct (Console.rest cin) as [|b0 [|b1 [|b2 [|b3 more]]]];
      [unfold zlen in Hl; simpl in Hl; lia..|].
    erewrite iterate_leave by (rewrite int32_once_exact, exact_once_done by done; done).
    cbn [mbind outcome_bind]. change (byte_at _ 0) with (Z_of_byte b0).
    change (byte_at _ 1) with (Z_of_byte b1). change (byte_at _ 2) with (Z_of_byte b2).
    change (byte_at _ 3) with (Z_of_byte b3). rewrite Protocol.lor_bytes.
    pose proof Ht as Heq. cbn [Protocol.take_u32] in Heq. injection Heq as Heq. rewrite Heq.
    apply Protocol.take_u32_Some in Ht as [_ Ht].
    eexists Integer_Ok, z, _. split; [done|]. split; [done|]. by exists more.
  - destruct (exact_once_short 4 [] cin Hg) as (s' & Hg' & He & Ho); [rewrite zlen_nil; lia|].
    destruct (decide _) as [Hd|Hd].
    + erewrite iterate_leave by (rewrite int32_once_exact, Ho; done). simpl. rewrite He.
      destruct (Console.broken cin); simpl; [by eexists Integer_Partial, _, _|].
      eexists Integer_EndOfFile, _, _. split; [done|]. naive_solver.
    + erewrite iterate_continue by (rewrite int32_once_exact, Ho; done).
      erewrite iterate_leave by (rewrite int32_once_exact, exact_once_spent by done; done).
      simpl. rewrite (proj2 (Z.eqb_neq _ _)).
      { eexists Integer_Partial, _, _. split; [done|]. naive_solver. }
      destruct (Console.rest cin); [naive_solver|]. rewrite zlen_cons. zlen_facts. lia.
Qed.

(** ** An input has one reading *)

Lemma message_unique line k1 v1 k2 v2 :
  is_message line k1 v1 → is_message line k2 v2 → k1 = k2 ∧ v1 = v2.
Proof.
  intros (H1 & N1 & _) (H2 & N2 & _). pose proof (find_spec Byte.x3a line) as Hf.
  destruct (find Byte.x3a line) as [n|] eqn:Hfind.
  - destruct (message_cut _ _ _ _ Hfind H1 N1) as [<- <-].
    by destruct (message_cut _ _ _ _ Hfind H2 N2) as [<- <-].
  - destruct Hf. rewrite H1. apply elem_of_app. right. left.
Qed.

Lemma text_input_inv broken bytes ms code :
  text_input broken bytes ms code →
  match Console.split_line bytes with
  | Some (line, more) =>
      (∃ k v ms', is_message line k v ∧ ms = (k, v) :: ms' ∧ text_input broken more ms' code) ∨
      ((∀ k v, ¬ is_message line k v) ∧ ms = [] ∧ code = 1)
  | None =>
      (broken = true ∧ ms = [] ∧ code = 1) ∨
      (broken = false ∧
       ((bytes = [] ∧ ms = [] ∧ code = 0) ∨
        (∃ k v, is_message bytes k v ∧ ms = [(k, v)] ∧ code = 0) ∨
        ((∀ k v, ¬ is_message bytes k v) ∧ bytes ≠ [] ∧ ms = [] ∧ code = 1)))
  end.
Proof.
  assert (∀ line more, Byte.x0a ∉ line →
    Console.split_line (line ++ Console.newline ++ more) = Some (line, more)) as Hsplit.
  { intros line more Hl. by apply Console.split_line_spec. }
  intros [|line k v more ms' code' Hl Hm Hin|line k v -> Hl Hm|line -> Hne Hl|
          line more Hl Hno [(-> & Hne & ->)|[more' ->]]].
  - destruct broken; [by left|by right; split; [|left]].
  - rewrite Hsplit by done. left. by exists k, v, ms'.
  - rewrite (proj2 (Console.split_line_none _) Hl). right. split; [done|]. right; left. by exists k, v.
  - rewrite (proj2 (Console.split_line_none _) Hl). auto.
  - rewrite app_nil_r, (proj2 (Console.split_line_none _) Hl). right. split; [done|]. right; right. done.
  - rewrite Hsplit by done. auto.
Qed.

Lemma text_input_unique broken bytes ms1 code1 ms2 code2 :
  text_input broken bytes ms1 code1 → text_input broken bytes ms2 code2 →
  ms1 = ms2 ∧ code1 = code2.
Proof.
  revert ms1 code1 ms2 code2. remember (length bytes) as m eqn:Hm. revert bytes Hm.
  induction m as [m IH] using lt_wf_ind; intros bytes -> ms1 code1 ms2 code2 I1 I2.
  apply text_input_inv in I1, I2.
  destruct (Console.split_line bytes) as [[line more]|] eqn:Hs.
  - apply Console.split_line_length in Hs.
    destruct I1 as [(k1 & v1 & ms1' & M1 & -> & I1)|(N1 & -> & ->)],
             I2 as [(k2 & v2 & ms2' & M2 & -> & I2)|(N2 & -> & ->)]; [| |by destruct (N1 k2 v2)|done].
    + destruct (message_unique _ _ _ _ _ M1 M2) as [-> ->].
      by destruct (IH _ Hs more eq_refl _ _ _ _ I1 I2) as [-> ->].
    + by destruct (N2 k1 v1).
  - destruct I1 as [(-> & -> & ->)|(-> & I1)], I2 as [(? & -> & ->)|(? & I2)]; try done.
    assert (∀ k v, ¬ is_message [] k v) as Hno by (intros k v (?%app_cons_not_nil & _); done).
    destruct I1 as [(-> & -> & ->)|[(k1 & v1 & M1 & -> & ->)|(N1 & E1 & -> & ->)]],
             I2 as [(E2 & -> & ->)|[(k2 & v2 & M2 & -> & ->)|(N2 & E2 & -> & ->)]]; try done.
    + by destruct (Hno k2 v2).
    + subst. by destruct (Hno k1 v1).
    + by destruct (message_unique _ _ _ _ _ M1 M2) as [-> ->].
    + by destruct (N2 k1 v1).
    + by destruct (N1 k2 v2).
Qed.

Lemma u32_bytes_inj z1 z2 l1 l2 :
  u32 z1 → u32 z2 → Protocol.u32_bytes z1 ++ l1 = Protocol.u32_bytes z2 ++ l2 → z1 = z2 ∧ l1 = l2.
Proof.
  intros Hz1 Hz2 Heq. pose proof (Protocol.take_u32_bytes z1 l1 Hz1) as Ht.
  rewrite Heq, Protocol.take_u32_bytes in Ht by done. by injection Ht as -> ->.
Qed.

(** A record at the front of the input, one field after the other. *)
Lemma raw_record_fields bytes key value more :
  zlen key + zlen value ≤ Protocol.MAX_PAYLOAD_SIZE → bytes = raw_record key value ++ more →
  4 ≤ zlen bytes ∧ ∀ z rest, u32 z → bytes = Protocol.u32_bytes z ++ rest →
  z = zlen key ∧ z ≤ zlen rest ∧ take (Z.to_nat z) rest = key ∧
  drop (Z.to_nat z) rest = Protocol.u32_bytes (zlen value) ++ value ++ more.
Proof.
  intros Hs ->. unfold raw_record. rewrite <- !app_assoc. zlen_facts.
  change Protocol.MAX_PAYLOAD_SIZE with 1024 in Hs. split.
  { rewrite zlen_app, Protocol.zlen_u32_bytes. zlen_facts. lia. }
  intros z rest Hz Heq. apply u32_bytes_inj in Heq as [<- <-]; [|unfold u32; lia|done].
  replace (Z.to_nat (zlen key)) with (length key) by (unfold zlen; lia).
  rewrite take_app_length, drop_app_length. split_and!; [done| |done|done].
  rewrite zlen_app. zlen_facts. lia.
Qed.

Lemma raw_input_unique broken bytes ms1 code1 ms2 code2 :
  raw_input broken bytes ms1 code1 → raw_input broken bytes ms2 code2 → ms1 = ms2 ∧ code1 = code2.
Proof.
  intros I1. revert ms2 code2.
  assert (∀ k v more, raw_record k v ++ more ≠ []) as Hne.
  { intros k v more Hn%(f_equal zlen). unfold raw_record in Hn. rewrite !zlen_app in Hn.
    rewrite !Protocol.zlen_u32_bytes, zlen_nil in Hn. zlen_facts. lia. }
  induction I1 as [|k v more ms code Hs I1 IH|bytes Hnil Hno]; intros ms2 code2 I2.
  - remember [] as b eqn:Hb in I2. destruct I2 as [|k v more ms code Hs I2|b Hnil Hno]; [done| |done].
    by destruct (Hne k v more).
  - remember (raw_record k v ++ more) as b eqn:Heq in I2.
    destruct I2 as [|k2 v2 more2 ms2 code2 Hs2 I2|b Hnil2 Hno2]; [by destruct (Hne k v more)| |].
    2:{ by destruct (Hno2 k v more Hs). }
    destruct (raw_record_fields _ k v more Hs eq_refl) as [_ F1].
    destruct (raw_record_fields _ k2 v2 more2 Hs2 eq_refl) as [_ F2].
    assert (Protocol.MAX_PAYLOAD_SIZE = 1024) as Hmax by done. zlen_facts.
    rewrite Heq in F2. unfold raw_record in F1, F2. rewrite <- !app_assoc in F1, F2.
    destruct (F1 (zlen k) _ ltac:(unfold u32; lia) eq_refl) as (_ & _ & E1 & D1).
    destruct (F2 (zlen k) _ ltac:(unfold u32; lia) eq_refl) as (_ & _ & E2 & D2).
    rewrite E1 in E2. subst k2. rewrite D1 in D2.
    apply u32_bytes_inj in D2 as [Hv Hm]; [|unfold u32; lia..].
    apply app_inj_1 in Hm as [-> ->]; [|unfold zlen in Hv; lia].
    by destruct (IH _ _ I2) as [-> ->].
  - destruct I2 as [|k v more ms code Hs I2|]; [done|by destruct (Hno k v more Hs)|done].
Qed.

(** ** Publishing *)

Section Theory.
Context `{Kernel} `{!TransferLaws} `{!FiniteStalls}.
Variable (command : Command.Command) (writer : Ipc.FifoWriter).
Implicit Types (w : world) (io : Console.t).

Abbreviation result := ((Z * Console.t * world)%type).
Abbreviation topic := (Command.topic command).
Abbreviation fd := (Ipc.writer_fd writer).

(** What a run with these messages and this exit code does: the frames of the messages are
    sent, or the server's FIFO fails and a part of them is. *)
Definition published (ms : list (str * str)) (code : Z) io w (res : result) : Prop :=
  let '(exit_code, io', w') := res in
  Console.cout io' = Console.cout io ∧
  ((exit_code = code ∧ Ipc.sent fd (frames topic ms) w w' ∧
    (code = 0 → Console.cerr io' = Console.cerr io)) ∨
   (exit_code = 3 ∧ ∃ n, (n < length (frames topic ms))%nat ∧
                         Ipc.sent fd (take n (frames topic ms)) w w')).

Lemma publish_ends key value io w :
  ∃ b w', yields (λ fuel, publish fuel command writer key value io w)
            (if b : bool then inl (io, w') else inr (3, Client.report $"IPC communication error" io, w')) ∧
  if b then Ipc.sent fd (Protocol.serialize_produce topic key value) w w'
  else ∃ n, (n < length (Protocol.serialize_produce topic key value))%nat ∧
            Ipc.sent fd (take n (Protocol.serialize_produce topic key value)) w w'.
Proof.
  set (frame := Protocol.serialize_produce topic key value).
  destruct (Ipc.write_exact_ends frame writer w) as [[b w'] Hrun]. exists b, w'. split.
  - exists (S (length frame + stalls (kernel w))). intros fuel Hf. unfold publish. fold frame.
    rewrite Hrun by lia. by destruct b.
  - specialize (Hrun _ (Nat.lt_succ_diag_r _)). apply Ipc.write_exact_sends in Hrun.
    destruct b; [done|]. destruct Hrun as (n & Hn & Hlt & Hs). exists (Z.to_nat n).
    specialize (Hlt ltac:(done)). split; [unfold zlen in Hlt; lia|done].
Qed.

Lemma published_leave ms code io io' w :
  code = 1 ∨ io' = io → Console.cout io' = Console.cout io → ms = [] →
  published ms code io w (code, io', w).
Proof.
  intros Hcode Ho ->. split; [done|]. left. split_and!; [done|apply Ipc.sent_nothing|].
  intros ->. by destruct Hcode as [?| ->].
Qed.

Lemma published_next ms code io io1 w w1 key value res :
  Ipc.sent fd (Protocol.serialize_produce topic key value) w w1 →
  Console.cout io1 = Console.cout io → Console.cerr io1 = Console.cerr io →
  published ms code io1 w1 res → published ((key, value) :: ms) code io w res.
Proof.
  destruct res as [[exit_code io'] w']. intros Hs Ho He [Ho' Hres]. split; [congruence|].
  unfold frames. cbn [fmap list_fmap concat fst snd].
  destruct Hres as [(Hc & Hf & He')|(Hc & n & Hn & Hf)]; [left|right].
  - split_and!; [done|by eapply Ipc.sent_trans|]. intros Hz. by rewrite He'.
  - split; [done|]. exists (length (Protocol.serialize_produce topic key value) + n)%nat.
    rewrite take_app_add, length_app. split; [unfold frames in Hn; lia|by eapply Ipc.sent_trans].
Qed.

Lemma published_failed ms code io io' w w' key value n :
  (n < length (Protocol.serialize_produce topic key value))%nat →
  Ipc.sent fd (take n (Protocol.serialize_produce topic key value)) w w' →
  Console.cout io' = Console.cout io →
  published ((key, value) :: ms) code io w (3, io', w').
Proof.
  intros Hn Hs Ho. split; [done|]. right. split; [done|]. exists n.
  unfold frames. cbn [fmap list_fmap concat fst snd].
  rewrite take_app_le, length_app by lia. split; [lia|done].
Qed.

(** A message is published, and the loop that read it goes on or leaves. *)
Lemma publish_turn body key value io0 io1 w ms code :
  (∀ fuel, body fuel (io0, w) = publish fuel command writer key value io1 w) →
  Console.cout io1 = Console.cout io0 → Console.cerr io1 = Console.cerr io0 →
  (∀ w1, ∃ res, loops body (io1, w1) res ∧ published ms code io1 w1 res) →
  ∃ res, loops body (io0, w) res ∧ published ((key, value) :: ms) code io0 w res.
Proof.
  intros Hbody Ho He Hrest.
  destruct (publish_ends key value io1 w) as (b & w1 & [n Hy] & Hs). destruct b.
  - destruct (Hrest w1) as (res & Hl & Hp). exists res. split.
    + eapply loops_continue; [|exact Hl]. exists n. intros fuel Hf. rewrite Hbody. by apply Hy.
    + by eapply published_next.
  - destruct Hs as (m & Hm & Hs). eexists. split.
    + apply loops_leave. exists n. intros fuel Hf. rewrite Hbody. by apply Hy.
    + by eapply published_failed.
Qed.

(** ** Text *)

Lemma text_message_turn io line cin :
  Console.getline (Console.cin io) = (true, line, cin) →
  (∃ key value, is_message line key value ∧ ∀ fuel w,
     text_once fuel command writer (io, w) =
     publish fuel command writer key value (Console.with_cin cin io) w) ∨
  ((∀ key value, ¬ is_message line key value) ∧ ∃ text, ∀ fuel w,
     text_once fuel command writer (io, w) =
     Done (inr (1, Client.report text (Console.with_cin cin io), w))).
Proof.
  intros Hg. unfold text_once. pose proof (find_spec Byte.x3a line) as Hf.
  destruct (find Byte.x3a line) as [n|] eqn:Hfind.
  - destruct Hf as [Hk Hl].
    destruct ((Protocol.MAX_PAYLOAD_SIZE <? zlen (take n line)) ||
      (Protocol.MAX_PAYLOAD_SIZE - zlen (take n line) <? zlen (drop (n + 1) line))) eqn:Ht.
    + right. split; [|by eexists; intros fuel w; rewrite Hg, Hfind, Ht].
      intros key value (Hl' & Hk' & Hsize).
      destruct (message_cut line n key value Hfind Hl' Hk') as [<- <-]. zlen_facts. lia.
    + left. exists (take n line), (drop (n + 1) line).
      split; [split_and!; [done|done|lia]|]. intros fuel w. by rewrite Hg, Hfind, Ht.
  - right. split; [|by eexists; intros fuel w; rewrite Hg, Hfind].
    intros key value (-> & _). apply Hf. apply elem_of_app. right. left.
Qed.

(** The end of the input, and a line that is not followed by a newline. *)
Lemma text_loop_last io :
  Console.in_good (Console.cin io) = true → Byte.x0a ∉ Console.rest (Console.cin io) →
  ∃ ms code, text_input (Console.broken (Console.cin io)) (Console.rest (Console.cin io)) ms code ∧
  ∀ w, ∃ res, loops (λ fuel, text_once fuel command writer) (io, w) res ∧
              published ms code io w res.
Proof.
  intros Hg Hline.
  destruct (Console.getline_last _ Hg Hline) as (cin1 & Hgl & Hg1 & He1).
  destruct (Console.broken (Console.cin io)) eqn:Hbr; cbn [negb andb] in Hgl, He1.
  { exists [], 1. split.
    - destruct (Console.rest (Console.cin io)) eqn:Hrest; [apply (text_end true)|].
      by apply text_cut.
    - intros w. eexists. split.
      + apply loops_leave. exists 0%nat. intros fuel _. unfold text_once. by rewrite Hgl, He1.
      + apply published_leave; auto. }
  case_bool_decide as Hrest; cbn [negb] in Hgl.
  { exists [], 0. rewrite Hrest. split; [apply (text_end false)|]. intros w. eexists. split.
    - apply loops_leave. exists 0%nat. intros fuel _. unfold text_once. by rewrite Hgl, He1.
    - split; [done|]. left. split_and!; [done|apply Ipc.sent_nothing|done]. }
  destruct (text_message_turn io _ cin1 Hgl) as [(key & value & Hmsg & Ht)|(Hno & text & Ht)].
  - exists [(key, value)], 0. split; [by apply text_last|]. intros w.
    eapply publish_turn; [intros fuel; apply Ht|done|done|]. intros w1. eexists. split.
    + apply loops_leave. exists 0%nat. intros fuel _. unfold text_once. simpl Console.cin.
      rewrite Console.getline_spent by done. simpl. by rewrite He1.
    + split; [done|]. left. split_and!; [done|apply Ipc.sent_nothing|done].
  - exists [], 1. rewrite <- (app_nil_r (Console.rest _)). split; [apply text_malformed; eauto|].
    intros w. eexists. split; [apply loops_leave; exists 0%nat; intros fuel _; apply Ht|].
    apply published_leave; auto.
Qed.

Lemma text_loop io :
  Console.in_good (Console.cin io) = true →
  ∃ ms code, text_input (Console.broken (Console.cin io)) (Console.rest (Console.cin io)) ms code ∧
  ∀ w, ∃ res, loops (λ fuel, text_once fuel command writer) (io, w) res ∧
              published ms code io w res.
Proof.
  remember (length (Console.rest (Console.cin io))) as m eqn:Hm. revert io Hm.
  induction m as [m IH] using lt_wf_ind; intros io -> Hg.
  destruct (Console.split_line (Console.rest (Console.cin io))) as [[line more]|] eqn:Hsplit.
  - pose proof (Console.split_line_length _ _ _ Hsplit) as Hlen.
    pose proof Hsplit as [Hrest Hline]%Console.split_line_spec.
    set (cin1 := Console.with_rest more (Console.cin io)).
    assert (Console.getline (Console.cin io) = (true, line, cin1)) as Hgl
      by (unfold Console.getline; rewrite Hg, Hsplit; done).
    destruct (IH (length more) Hlen (Console.with_cin cin1 io) eq_refl Hg) as (ms & code & Hin & Hl).
    destruct (text_message_turn io line cin1 Hgl) as [(key & value & Hmsg & Ht)|(Hno & text & Ht)].
    + exists ((key, value) :: ms), code. rewrite Hrest. split; [by apply text_line|]. intros w.
      by eapply publish_turn; [intros fuel; apply Ht|done|done|].
    + exists [], 1. rewrite Hrest. split; [apply text_malformed; eauto|]. intros w.
      eexists. split; [apply loops_leave; exists 0%nat; intros fuel _; apply Ht|].
      apply published_leave; auto.
  - apply Console.split_line_none in Hsplit. apply text_loop_last; done.
Qed.

(** ** Raw records *)

Definition raw_bad (bytes : str) : Prop :=
  bytes ≠ [] ∧ ∀ key value more, zlen key + zlen value ≤ Protocol.MAX_PAYLOAD_SIZE →
                                 bytes ≠ raw_record key value ++ more.

(** No record has these first two fields, or too few bytes follow. *)
Lemma raw_bad_fields bytes z more :
  u32 z → bytes = Protocol.u32_bytes z ++ more →
  (∀ key value rest : str, zlen key + zlen value ≤ Protocol.MAX_PAYLOAD_SIZE → z = zlen key →
     z ≤ zlen more → drop (Z.to_nat z) more = Protocol.u32_bytes (zlen value) ++ value ++ rest → False) →
  raw_bad bytes.
Proof.
  intros Hz Hrest Hno. split.
  - rewrite Hrest. intros Hn%(f_equal zlen).
    rewrite zlen_app, Protocol.zlen_u32_bytes, zlen_nil in Hn. zlen_facts. lia.
  - intros key value rest Hs Heq. destruct (raw_record_fields _ _ _ _ Hs Heq) as [_ Hf].
    destruct (Hf z more Hz Hrest) as (? & ? & _ & ?). by eapply (Hno key value rest).
Qed.

Lemma raw_bad_short bytes : bytes ≠ [] → zlen bytes < 4 → raw_bad bytes.
Proof.
  intros Hne Hl. split; [done|]. intros key value rest Hs Heq.
  destruct (raw_record_fields _ _ _ _ Hs Heq) as [Hf _]. lia.
Qed.

(** What the value of a record is, its key of size [z] being read. *)
Lemma raw_value_turn io z (key : str) :
  Console.in_good (Console.cin io) = true → z = zlen key → 0 ≤ z ≤ Protocol.MAX_PAYLOAD_SIZE →
  (∃ (value more : str) cin, zlen key + zlen value ≤ Protocol.MAX_PAYLOAD_SIZE ∧
     Console.rest (Console.cin io) = Protocol.u32_bytes (zlen value) ++ value ++ more ∧
     cin = Console.with_rest more (Console.cin io) ∧
     ∀ fuel w, raw_value fuel command writer z key io w =
                  publish fuel command writer key value (Console.with_cin cin io) w) ∨
  (∃ text cin, (∀ fuel w, raw_value fuel command writer z key io w =
                 Done (inr (1, Client.report text (Console.with_cin cin io), w))) ∧
     ∀ value more : str, zlen key + zlen value ≤ Protocol.MAX_PAYLOAD_SIZE →
       Console.rest (Console.cin io) = Protocol.u32_bytes (zlen value) ++ value ++ more → False).
Proof.
  intros Hg -> Hz. assert (Protocol.MAX_PAYLOAD_SIZE = 1024) as Hmax by done.
  destruct (read_int32_spec _ Hg) as (st & n & cin1 & Hr1 & Hst).
  assert (∀ value more : str,
    Console.rest (Console.cin io) = Protocol.u32_bytes (zlen value) ++ value ++ more →
    4 ≤ zlen (Console.rest (Console.cin io))) as Hlong.
  { intros value more ->. rewrite zlen_app, Protocol.zlen_u32_bytes. zlen_facts. lia. }
  destruct st.
  2:{ right. exists $"partial raw record at EOF", cin1. split.
      - intros fuel w. unfold raw_value. by rewrite Hr1.
      - intros value more _ Heq. specialize (Hlong _ _ Heq).
        destruct Hst as [Hst _]. rewrite Hst, zlen_nil in Hlong. lia. }
  2:{ right. exists $"partial raw record at EOF", cin1. split.
      - intros fuel w. unfold raw_value. by rewrite Hr1.
      - intros value more _ Heq. specialize (Hlong _ _ Heq). lia. }
  destruct Hst as (Hn & more & Hrest & ->).
  assert (∀ value rest : str, zlen key + zlen value ≤ Protocol.MAX_PAYLOAD_SIZE →
    Console.rest (Console.cin io) = Protocol.u32_bytes (zlen value) ++ value ++ rest →
    n = zlen value ∧ more = value ++ rest) as Hinj.
  { intros value rest Hs Heq. rewrite Hrest in Heq. zlen_facts.
    apply u32_bytes_inj in Heq; [done|done|unfold u32; lia]. }
  destruct (Protocol.MAX_PAYLOAD_SIZE - zlen key <? n) eqn:Hbig.
  { right. eexists $"message key and body exceed 1024 bytes", _. split.
    - intros fuel w. unfold raw_value. rewrite Hr1. cbn [mbind outcome_bind]. by rewrite Hbig.
    - intros value rest Hs Heq. destruct (Hinj _ _ Hs Heq) as [-> _]. lia. }
  set (cin2 := Console.with_rest more (Console.cin io)) in *.
  destruct (read_exact_spec n cin2 Hg) as (ok & value & cin3 & Hr2 & Hok); [unfold u32 in Hn; lia|].
  simpl in Hok. destruct ok.
  - left. destruct Hok as (Hlen & -> & ->). unfold u32 in Hn.
    assert (zlen (take (Z.to_nat n) more) = n) as Hl by (unfold zlen in *; rewrite length_take; lia).
    exists (take (Z.to_nat n) more), (drop (Z.to_nat n) more),
      (Console.with_rest (drop (Z.to_nat n) more) (Console.cin io)).
    rewrite Hl, take_drop. split_and!; [lia|done|done|]. intros fuel w. unfold raw_value.
    rewrite Hr1. cbn [mbind outcome_bind]. rewrite Hbig. simpl Console.cin. by rewrite Hr2.
  - right. exists $"partial raw record at EOF", cin3. split.
    + intros fuel w. unfold raw_value.
      rewrite Hr1. cbn [mbind outcome_bind]. rewrite Hbig. simpl Console.cin. by rewrite Hr2.
    + intros v rest Hs Heq. destruct (Hinj _ _ Hs Heq) as [-> ->].
      rewrite zlen_app in Hok. zlen_facts. lia.
Qed.

(** A turn reads the end, a record, or what is none. *)
Lemma raw_turn io :
  Console.in_good (Console.cin io) = true →
  let bytes := Console.rest (Console.cin io) in
  (bytes = [] ∧ Console.broken (Console.cin io) = false ∧ ∃ cin, ∀ fuel w,
     raw_once fuel command writer (io, w) = Done (inr (0, Console.with_cin cin io, w))) ∨
  (∃ key value more, zlen key + zlen value ≤ Protocol.MAX_PAYLOAD_SIZE ∧
     bytes = raw_record key value ++ more ∧ ∀ fuel w,
     raw_once fuel command writer (io, w) =
     publish fuel command writer key value
       (Console.with_cin (Console.with_rest more (Console.cin io)) io) w) ∨
  ((bytes = [] ∧ Console.broken (Console.cin io) = true ∨ raw_bad bytes) ∧ ∃ text cin, ∀ fuel w,
     raw_once fuel command writer (io, w) =
     Done (inr (1, Client.report text (Console.with_cin cin io), w))).
Proof.
  intros Hg bytes. destruct (read_int32_spec _ Hg) as (st & z & cin1 & Hr1 & Hst).
  assert (Protocol.MAX_PAYLOAD_SIZE = 1024) as Hmax by done. destruct st.
  2:{ left. destruct Hst as [Hrest Hbr]. split_and!; [done|done|]. exists cin1.
      intros fuel w. unfold raw_once. by rewrite Hr1. }
  2:{ right; right. destruct Hst as [Hlen Hbr]. split.
      - destruct (decide (bytes = [])); [auto|right; by apply raw_bad_short].
      - exists $"partial raw record at EOF", cin1. intros fuel w. unfold raw_once. by rewrite Hr1. }
  destruct Hst as (Hz & more & Hrest & ->). fold bytes in Hrest. right.
  set (cin2 := Console.with_rest more (Console.cin io)) in *.
  destruct (Protocol.MAX_PAYLOAD_SIZE <? z) eqn:Hbig.
  { right. split.
    - right. apply (raw_bad_fields _ z more Hz Hrest). intros key value rest Hs -> _ _. zlen_facts. lia.
    - eexists $"message key and body exceed 1024 bytes", _. intros fuel w. unfold raw_once.
      rewrite Hr1. cbn [mbind outcome_bind]. by rewrite Hbig. }
  destruct (read_exact_spec z cin2 Hg) as (ok & key & cin3 & Hr2 & Hok); [unfold u32 in Hz; lia|].
  simpl in Hok. destruct ok.
  2:{ right. split.
      - right. apply (raw_bad_fields _ z more Hz Hrest). intros; lia.
      - exists $"partial raw record at EOF", cin3. intros fuel w. unfold raw_once.
        rewrite Hr1. cbn [mbind outcome_bind]. rewrite Hbig. simpl Console.cin. by rewrite Hr2. }
  destruct Hok as (Hlen & -> & ->). unfold u32 in Hz.
  set (key := take (Z.to_nat z) more). set (rest := drop (Z.to_nat z) more) in *.
  assert (z = zlen key) as Hl by (unfold key, zlen in *; rewrite length_take; lia).
  set (io3 := Console.with_cin (Console.with_rest rest cin2) io).
  assert (∀ fuel w, raw_once fuel command writer (io, w) = raw_value fuel command writer z key io3 w)
    as Hturn.
  { intros fuel w. unfold raw_once. rewrite Hr1. cbn [mbind outcome_bind]. rewrite Hbig.
    simpl Console.cin. by rewrite Hr2. }
  destruct (raw_value_turn io3 z key Hg Hl ltac:(lia)) as
    [(value & more2 & cin4 & Hs & Hrest2 & -> & Hv)|(text & cin4 & Hv & Hno)]; [left|right].
  - exists key, value, more2. split_and!; [done| |intros fuel w; by rewrite Hturn, Hv].
    rewrite Hrest. unfold raw_record. rewrite <- !app_assoc. rewrite <- Hl.
    rewrite <- (take_drop (Z.to_nat z) more). fold key rest. do 2 f_equal. exact Hrest2.
  - split; [|exists text, cin4; intros fuel w; by rewrite Hturn, Hv].
    right. apply (raw_bad_fields _ z more Hz Hrest). intros k v r Hs Hk _ Hd.
    apply (Hno v r); [lia|exact Hd].
Qed.

Lemma raw_loop io :
  Console.in_good (Console.cin io) = true →
  ∃ ms code, raw_input (Console.broken (Console.cin io)) (Console.rest (Console.cin io)) ms code ∧
  ∀ w, ∃ res, loops (λ fuel, raw_once fuel command writer) (io, w) res ∧
              published ms code io w res.
Proof.
  remember (length (Console.rest (Console.cin io))) as m eqn:Hm. revert io Hm.
  induction m as [m IH] using lt_wf_ind; intros io -> Hg.
  destruct (raw_turn io Hg) as [(Hnil & Hbr & cin & Ht)|[(key & value & more & Hs & Hrest & Ht)|
    (Hbad & text & cin & Ht)]].
  - exists [], 0. rewrite Hnil, Hbr. split; [apply (raw_end false)|]. intros w. eexists. split.
    + apply loops_leave. exists 0%nat. intros fuel _. apply Ht.
    + split; [done|]. left. split_and!; [done|apply Ipc.sent_nothing|done].
  - destruct (IH (length more)) with (io := Console.with_cin (Console.with_rest more (Console.cin io)) io)
      as (ms & code & Hin & Hl); [|done|done|].
    { rewrite Hrest. unfold raw_record. rewrite !length_app.
      pose proof (Protocol.zlen_u32_bytes (zlen key)) as Hz. unfold zlen in Hz at 1. lia. }
    exists ((key, value) :: ms), code. rewrite Hrest. split; [by apply raw_next|]. intros w.
    by eapply publish_turn; [intros fuel; apply Ht|done|done|].
  - exists [], 1. split.
    + destruct Hbad as [[-> ->]|[Hne Hno]]; [apply (raw_end true)|by apply raw_malformed].
    + intros w. eexists. split; [apply loops_leave; exists 0%nat; intros fuel _; apply Ht|].
      apply published_leave; auto.
Qed.

End Theory.

(** ** Properties *)

Section Properties.
Context `{KernelLaws} `{!TransferLaws} `{!FiniteStalls} `{!ClockLaws}.
Implicit Types (w : world) (io : Console.t).

Lemma publish_same_fds fuel command writer key value io w r :
  publish fuel command writer key value io w = Done r →
  same_fds w (match r with inl s => s.2 | inr res => res.2 end).
Proof.
  intros ([b w1] & Hw & Hr)%bind_Done. apply Ipc.write_exact_same_fds in Hw.
  destruct b; injection Hr as <-; done.
Qed.

Lemma publish_loop_same_fds fuel command writer (body : Console.t * world → _) s res :
  (∀ io w, (∃ r, body (io, w) = Done (inr r) ∧ r.2 = w) ∨
           (∃ key value io', body (io, w) = publish fuel command writer key value io' w) ∨
           body (io, w) = NoFuel ∨ body (io, w) = Undefined) →
  ∀ n, iterate body n s = Done res → same_fds s.2 res.2.
Proof.
  intros Hbody n Hrun.
  refine (iterate_rule body (λ s', same_fds s.2 s'.2) (λ r, same_fds s.2 r.2) _ n s res _ Hrun); [|done].
  intros [io w] Hs. destruct (Hbody io w) as [([[c io'] w'] & -> & Hw)|[(k & v & io' & Hb)|[-> | ->]]];
    [simpl in *; by subst| |done..].
  rewrite Hb. destruct (publish _ _ _ _ _ _ _) as [r| |] eqn:Hp; [|done..].
  apply publish_same_fds in Hp. destruct r; simpl in *; by etransitivity.
Qed.

Lemma text_same_fds fuel command writer io w res :
  execute_publish_text fuel command writer io w = Done res → same_fds w res.2.
Proof.
  apply (publish_loop_same_fds fuel command writer _ (io, w)). clear. intros io w. unfold text_once.
  destruct (Console.getline _) as [[more line] cin].
  destruct (negb more); [left; destruct (negb _); by eexists|].
  destruct (find _ line); [|left; by eexists].
  destruct (_ || _); [left; by eexists|right; left; by do 3 eexists].
Qed.

Lemma raw_same_fds fuel command writer io w res :
  execute_publish_raw fuel command writer io w = Done res → same_fds w res.2.
Proof.
  apply (publish_loop_same_fds fuel command writer _ (io, w)). clear. intros io w.
  unfold raw_once, raw_value.
  destruct (read_little_endian_int32 _) as [[[st z] cin]| |]; cbn [mbind outcome_bind]; [|auto..].
  destruct st; [|left; by eexists..]. destruct (_ <? z); [left; by eexists|].
  destruct (read_exact z _) as [[[ok key] cin2]| |]; cbn [mbind outcome_bind]; [|auto..].
  destruct (negb ok); [left; by eexists|].
  destruct (read_little_endian_int32 _) as [[[st n] cin3]| |]; cbn [mbind outcome_bind]; [|auto..].
  destruct st; [|left; by eexists..]. destruct (_ <? n); [left; by eexists|].
  destruct (read_exact n _) as [[[ok2 value] cin4]| |]; cbn [mbind outcome_bind]; [|auto..].
  destruct (negb ok2); [left; by eexists|right; left; by do 3 eexists].
Qed.

(** What the standard input says in the format of the command. *)
Definition input_says (command : Command.Command) (io : Console.t) (ms : list (str * str))
    (code : Z) : Prop :=
  (if Command.raw command then raw_input else text_input)
    (Console.broken (Console.cin io)) (Console.rest (Console.cin io)) ms code.

Lemma publish_input command writer io :
  Console.in_good (Console.cin io) = true →
  ∃ ms code, input_says command io ms code ∧ ∀ w, ∃ res,
    yields (λ fuel, if Command.raw command then execute_publish_raw fuel command writer io w
                    else execute_publish_text fuel command writer io w) res ∧
    published command writer ms code io w res ∧ same_fds w res.2.
Proof.
  intros Hg. unfold input_says. destruct (Command.raw command).
  - destruct (raw_loop command writer io Hg) as (ms & code & Hin & Hl). exists ms, code.
    split; [done|]. intros w. destruct (Hl w) as (res & Hy%loops_yields & Hp). exists res.
    split_and!; [done|done|]. destruct Hy as [n Hn]. by eapply raw_same_fds, Hn.
  - destruct (text_loop command writer io Hg) as (ms & code & Hin & Hl). exists ms, code.
    split; [done|]. intros w. destruct (Hl w) as (res & Hy%loops_yields & Hp). exists res.
    split_and!; [done|done|]. destruct Hy as [n Hn]. by eapply text_same_fds, Hn.
Qed.

(** What [execute_connect_command] says to the server: the request of the connection, which
    the server has answered with a success when the result is zero, or a part of it, and
    nothing else. *)
Definition connection (command : Command.Command) (connect_code : Z) w w' : Prop :=
  ∃ rd wr got put, rd ≠ wr ∧ Ipc.only_talked rd wr got put w w' ∧
    let request :=
      Protocol.serialize_request (Protocol.Req_connect (getpid_ w) (Command.topic command)) in
    put `prefix_of` request ∧
    (connect_code = 0 →
     put = request ∧ ∃ p, got = Protocol.serialize_response Protocol.SUCCESS p).

Lemma connect_ends command io w :
  ∃ res, yields (λ fuel, execute_connect_command fuel command io w) res ∧
  let '(exit_code, io', w') := res in
  same_fds w w' ∧ Console.cin io' = Console.cin io ∧ Console.cout io' = Console.cout io ∧
  0 ≤ exit_code ≤ 3 ∧ (exit_code = 0 → io' = io) ∧ connection command exit_code w w'.
Proof.
  set (request := Protocol.serialize_connect (getpid_ w) (Command.topic command)).
  destruct (converges_at _ (Client.exchange_request_converges (Command.ipc_identifier command)
    (getpid_ w) request w)) as ([[st r] w'] & n & Hrun & [m Hm]).
  apply Client.exchange_request_spec in Hrun as (Hs & rd & wr & got & put & Hne & Ht & Hp & Hc).
  simpl in Hs, Ht, Hc.
  set (code := Client.exit_code_from_response_code (Protocol.StatusCode_code (Client.code r))).
  exists (match st with
          | Client.Complete => if code =? 0 then (0, io, w')
                               else (code, Client.write_error (Client.payload r) io, w')
          | Client.ServerUnavailable => (1, Client.report $"failed to connect to server FIFO" io, w')
          | Client.CommunicationError => (3, Client.report $"IPC communication error" io, w')
          | Client.InvalidResponse => (3, Client.report $"invalid response from server" io, w')
          end).
  split.
  { exists m. intros fuel Hf. unfold execute_connect_command, Client.exchange_or_report.
    fold request. rewrite Hm by done. cbn [mbind outcome_bind Client.status Client.response].
    destruct st; try done. fold code. by destruct (code =? 0). }
  assert (∀ c, (c = 0 → put = request ∧ ∃ p, got = Protocol.serialize_response Protocol.SUCCESS p) →
    connection command c w w') as Hconn.
  { intros c Hzero. exists rd, wr, got, put. by split_and!. }
  destruct st; [|split_and!; first [done|lia|by apply Hconn]..].
  destruct (Hc eq_refl) as (Hput & Hgot & Hcode & _).
  assert (Protocol.StatusCode_code (Client.code r) = Byte.x00 ∨ 1 ≤ code ≤ 3) as Hcases.
  { subst code. unfold Client.exit_code_from_response_code.
    destruct (Z.eqb_spec (Z_of_byte (Protocol.StatusCode_code (Client.code r))) 0) as [Hz|];
      [left; by apply Z_of_byte_inj|right]. repeat case_match; lia. }
  destruct Hcases as [Hz|Hnz].
  - unfold code. rewrite Hz. simpl. split_and!; [done..|lia|lia|done|]. apply Hconn. intros _.
    split; [done|]. exists (Client.payload r). rewrite Hgot.
    unfold Protocol.serialize_response. by rewrite Hz.
  - rewrite (proj2 (Z.eqb_neq _ _)) by lia. split_and!; [done| | |lia|lia|lia|by apply Hconn; lia];
      unfold Client.write_error; by case_bool_decide.
Qed.

(** What [execute_producer_command] does after the connection, which has ended in [w1] with
    [connect_code], when the input holds the messages [ms] up to its end or its first
    malformed line or record, for which the exit code is [code]: it publishes [put] and
    exits with [exit_code] in [w']. *)
Inductive produces (command : Command.Command) (ms : list (str * str)) (code : Z) w1 :
    Z → Z → str → world → Prop :=
| produces_refused connect_code :
    connect_code ≠ 0 → produces command ms code w1 connect_code connect_code [] w1
| produces_unopened writer w2 w' :
    yields (λ fuel, Ipc.writer_open fuel (Command.ipc_identifier command) 2000 w1) (writer, w2) →
    Ipc.writer_is_open writer = false → Ipc.silent w1 w' →
    produces command ms code w1 0 1 [] w'
| produces_all writer w2 w' :
    yields (λ fuel, Ipc.writer_open fuel (Command.ipc_identifier command) 2000 w1) (writer, w2) →
    Ipc.writer_is_open writer = true →
    (∀ rd, Ipc.only_talked rd (Ipc.writer_fd writer) [] (frames (Command.topic command) ms) w1 w') →
    produces command ms code w1 0 code (frames (Command.topic command) ms) w'
| produces_cut writer w2 w' n :
    yields (λ fuel, Ipc.writer_open fuel (Command.ipc_identifier command) 2000 w1) (writer, w2) →
    Ipc.writer_is_open writer = true → (n < length (frames (Command.topic command) ms))%nat →
    (∀ rd, Ipc.only_talked rd (Ipc.writer_fd writer) []
             (take n (frames (Command.topic command) ms)) w1 w') →
    produces command ms code w1 0 3 (take n (frames (Command.topic command) ms)) w'.

Lemma input_code command io ms code : input_says command io ms code → 0 ≤ code ≤ 1.
Proof.
  unfold input_says. destruct (Command.raw command); induction 1; try case_match; lia.
Qed.

Lemma produces_code command ms code w1 c exit_code put w' :
  produces command ms code w1 c exit_code put w' → 0 ≤ code ≤ 1 → 0 ≤ c ≤ 3 → 0 ≤ exit_code ≤ 3.
Proof. destruct 1; lia. Qed.

(** What reaches the server is a part of the frames of the messages. *)
Lemma produces_put command ms code w1 c exit_code put w' :
  produces command ms code w1 c exit_code put w' →
  put `prefix_of` frames (Command.topic command) ms.
Proof. destruct 1; [apply prefix_nil..|done|apply prefix_take]. Qed.

Lemma produces_zero command ms code w1 c put w' :
  produces command ms code w1 c 0 put w' → code = 0 ∧ put = frames (Command.topic command) ms.
Proof. intros Hp. by inversion Hp. Qed.

(** When the server's FIFO opens and no write fails, the messages are published. *)
Lemma produces_opened command ms code w1 exit_code put w' writer w2 :
  produces command ms code w1 0 exit_code put w' →
  yields (λ fuel, Ipc.writer_open fuel (Command.ipc_identifier command) 2000 w1) (writer, w2) →
  Ipc.writer_is_open writer = true → exit_code ≠ 3 →
  exit_code = code ∧ put = frames (Command.topic command) ms ∧
  ∀ rd, Ipc.only_talked rd (Ipc.writer_fd writer) [] (frames (Command.topic command) ms) w1 w'.
Proof.
  intros Hp Hy Ho Hne. remember 0 as c eqn:Hc. revert Hne.
  destruct Hp as [c Hnz|writer' w2' w' Hy' Ho' _|writer' w2' w' Hy' _ Ht|]; [done| | |done]; intros _;
    pose proof (yields_unique _ _ _ Hy Hy') as Heq; injection Heq as <- <-; [congruence|done].
Qed.

(** Without the connection nothing is read from the input. *)
Lemma input_exists command io :
  Console.in_good (Console.cin io) = true → ∃ ms code, input_says command io ms code.
Proof.
  intros Hgood. destruct (publish_input command (Ipc.mkWriter (-1) []) io Hgood)
    as (ms & code & Hin & _). by exists ms, code.
Qed.

Lemma produce_ends (command : Command.Command) (io : Console.t) (w : world)
    (Hgood : Console.in_good (Console.cin io) = true) :
  ∃ ms code connect_code io1 w1 exit_code io' w' put,
    input_says command io ms code ∧
    yields (λ fuel, execute_producer_command fuel command io w) (exit_code, io', w') ∧
    same_fds w w' ∧ 0 ≤ exit_code ≤ 3 ∧ Console.cout io' = Console.cout io ∧
    yields (λ fuel, execute_connect_command fuel command io w) (connect_code, io1, w1) ∧
    connection command connect_code w w1 ∧
    produces command ms code w1 connect_code exit_code put w'.
Proof.
  destruct (connect_ends command io w) as ([[c io1] w1] & Hy1 & Hs1 & _ & Ho1 & Hr1 & Hio & Hconn).
  destruct (decide (c = 0)) as [->|Hne].
  2:{ destruct (input_exists command io Hgood) as (ms & code & Hin).
      exists ms, code, c, io1, w1, c, io1, w1, [].
      split_and!; [done| |done|apply Hr1..|done|done|done|by constructor].
      eapply yields_bind; [exact Hy1|]. cbn [negb]. rewrite (proj2 (Z.eqb_neq _ _) Hne).
      apply yields_const. }
  rewrite (Hio eq_refl) in *. clear Hio.
  destruct (converges_at _ (Client.writer_open_converges (Command.ipc_identifier command) 2000 w1))
    as ([writer w2] & n2 & Hopen & Hy2).
  pose proof (Ipc.writer_open_silent _ _ _ _ _ _ Hopen) as Hq2.
  apply (Ipc.writer_open_opens _ _ _ ∅ w1) in Hopen as [Hopens _]; [|apply holds_refl].
  assert (∀ w3, same_fds w2 w3 → same_fds w (Ipc.writer_close writer w3).2) as Hclose.
  { intros w3 Hs3. rewrite Hs1. apply holds_nothing, Ipc.writer_close_holds. by eapply Ipc.opens_same. }
  destruct (publish_input command writer io Hgood) as (ms & code & Hin & Hp).
  destruct (Ipc.writer_is_open writer) eqn:Hwo.
  2:{ exists ms, code, 0, io, w1, 1, (Client.report $"failed to connect to server FIFO" io),
        (Ipc.writer_close writer w2).2, [].
      split_and!; [done| |by apply Hclose|lia..|done|done|done|].
      - eapply yields_bind; [exact Hy1|]. cbn [negb Z.eqb]. eapply yields_bind; [exact Hy2|].
        cbn beta iota. rewrite Hwo. apply yields_const.
      - eapply produces_unopened; [exact Hy2|done|].
        etransitivity; [exact Hq2|apply Ipc.writer_close_silent]. }
  destruct (Hp w2) as ([[exit_code io3] w3] & Hy3 & [Ho3 Hpub] & Hs3).
  assert (yields (λ fuel, execute_producer_command fuel command io w)
            (exit_code, io3, (Ipc.writer_close writer w3).2)) as Hy.
  { eapply yields_bind; [exact Hy1|]. cbn [negb Z.eqb]. eapply yields_bind; [exact Hy2|].
    cbn beta iota. rewrite Hwo. eapply yields_bind; [exact Hy3|]. apply yields_const. }
  assert (∀ put rd, Ipc.sent (Ipc.writer_fd writer) put w2 w3 →
    Ipc.only_talked rd (Ipc.writer_fd writer) [] put w1 (Ipc.writer_close writer w3).2) as Htalk.
  { intros put rd Hs. eapply Ipc.only_talked_silent; [|apply Ipc.writer_close_silent].
    eapply Ipc.silent_only; [exact Hq2|by apply Ipc.sent_only]. }
  assert (∃ put, produces command ms code w1 0 exit_code put (Ipc.writer_close writer w3).2)
    as [put Hput].
  { destruct Hpub as [(-> & Hs & _)|(-> & n & Hn & Hs)]; eexists;
      [eapply produces_all|eapply produces_cut]; eauto. }
  exists ms, code, 0, io, w1, exit_code, io3, (Ipc.writer_close writer w3).2, put.
  split; [done|]. split; [done|]. split; [by apply Hclose|]. split; [|done].
  eapply produces_code; [exact Hput|by eapply input_code|done].
Qed.

(** C26: [produce] ends and leaks no descriptor. From its start on it says to the server the
    request of the connection or a part of it; when the connection fails it exits with its
    code and has said nothing else. Otherwise it publishes, from where the connection ended
    on, the frames of the messages that the standard input holds up to its end or its first
    malformed line, all of them, in order, each once and nothing else, and exits with zero
    or, if there was a malformed one, with one; or a write fails, and it exits with three,
    having published a proper part of the same bytes; or the FIFO of the server cannot be
    opened, and it exits with one, having published nothing. *)
Theorem produce_publishes_input (command : Command.Command) (io : Console.t) (w : world)
    (Hgood : Console.in_good (Console.cin io) = true) :
  ∃ ms code connect_code io1 w1 exit_code io' w' put,
    input_says command io ms code ∧
    yields (λ fuel, execute_producer_command fuel command io w) (exit_code, io', w') ∧
    same_fds w w' ∧ Console.cout io' = Console.cout io ∧
    yields (λ fuel, execute_connect_command fuel command io w) (connect_code, io1, w1) ∧
    connection command connect_code w w1 ∧
    produces command ms code w1 connect_code exit_code put w'.
Proof.
  destruct (produce_ends command io w Hgood)
    as (ms & code & c & io1 & w1 & exit_code & io' & w' & put & Hin & Hy & Hs & _ & Hrest).
  exists ms, code, c, io1, w1, exit_code, io', w', put. exact (conj Hin (conj Hy (conj Hs Hrest))).
Qed.

(** What the standard input says is determined: an input has one list of messages and one
    exit code, as text and as raw records. *)
Theorem input_has_one_reading (command : Command.Command) (io : Console.t)
    (ms1 ms2 : list (str * str)) (code1 code2 : Z)
    (Hin1 : input_says command io ms1 code1) (Hin2 : input_says command io ms2 code2) :
  ms1 = ms2 ∧ code1 = code2.
Proof.
  unfold input_says in *. destruct (Command.raw command);
    [by eapply raw_input_unique|by eapply text_input_unique].
Qed.

End Properties.

(** What a subscriber prints as text, a producer reads back: messages without a colon in
    the key or a newline, printed one after the other, are read as those messages, and the
    input is well-formed. *)
Theorem printed_messages_are_read_back (ms : list (str * str))
    (Hms : Forall (λ m, Byte.x3a ∉ m.1 ∧ Byte.x0a ∉ m.1 ∧ Byte.x0a ∉ m.2 ∧
                        zlen m.1 + zlen m.2 ≤ Protocol.MAX_PAYLOAD_SIZE) ms) :
  text_input false
    (concat ((λ m, Client.format_text_message (Client.mkMessage m.1 m.2)) <$> ms)) ms 0.
Proof.
  induction Hms as [|[k v] ms (Hk & Hkn & Hvn & Hs) _ IH]; simpl; [apply (text_end false)|].
  unfold Client.format_text_message. simpl.
  replace ((k ++ Byte.x3a :: v ++ Console.newline) ++ _)
    with ((k ++ [Byte.x3a] ++ v) ++ Console.newline ++
          concat ((λ m, Client.format_text_message (Client.mkMessage m.1 m.2)) <$> ms))
    by (rewrite <- !app_assoc; simpl; by rewrite <- !app_assoc).
  apply text_line; [|done|done]. rewrite !not_elem_of_app. split_and!; [done| |done].
  by apply (bool_decide_eq_true_1 _).
Qed.

(** ** Witnesses *)

Module Witness.

Import World.Simple.

Definition produce : Command.Command :=
  Command.mkCommand Protocol.CONNECT $"/s" $"news" [] [] 0 false false.

(** Two messages, the last line without a newline. *)
Definition typed : Console.t := Console.console ($"eu.de:1" ++ Console.newline ++ $"eu:2").

Definition listening : world := Client.Witness.answering Protocol.SUCCESS [].

Example publishes_both_lines :
  match execute_producer_command 300 produce typed listening with
  | Done (exit_code, _, w) =>
      exit_code = 0 ∧
      accepted 4 (trace w) = Protocol.serialize_connect 42 $"news" ∧
      accepted 3 (trace w) = frames $"news" [($"eu.de", $"1"); ($"eu", $"2")]
  | _ => False
  end.
Proof. vm_compute. by split_and!. Qed.

Example raw_records_are_read :
  match read_little_endian_int32 (Console.input (raw_record $"k" $"value")) with
  | Done (Integer_Ok, z, _) => z = 1
  | _ => False
  end.
Proof. reflexivity. Qed.

Lemma typed_reads : input_says produce typed [($"eu.de", $"1"); ($"eu", $"2")] 0.
Proof.
  apply (text_line false $"eu.de:1" $"eu.de" $"1" $"eu:2" [($"eu", $"2")] 0);
    [by apply (bool_decide_eq_true_1 _)|split_and!; [done|by apply (bool_decide_eq_true_1 _)|done]|].
  apply (text_last false $"eu:2" $"eu" $"2");
    [done|by apply (bool_decide_eq_true_1 _)|split_and!; [done|by apply (bool_decide_eq_true_1 _)|done]].
Defined.

Lemma one_reading_witness :
  input_says produce typed [($"eu.de", $"1"); ($"eu", $"2")] 0 ∧
  [($"eu.de", $"1"); ($"eu", $"2")] = [($"eu.de", $"1"); ($"eu", $"2")].
Proof.
  exact (conj typed_reads (proj1 (input_has_one_reading produce typed
    [($"eu.de", $"1"); ($"eu", $"2")] [($"eu.de", $"1"); ($"eu", $"2")] 0 0 typed_reads typed_reads))).
Defined.

Lemma read_back_witness :
  text_input false ($"eu.de:1" ++ Console.newline ++ $"eu:2" ++ Console.newline)
    [($"eu.de", $"1"); ($"eu", $"2")] 0.
Proof.
  apply (printed_messages_are_read_back [($"eu.de", $"1"); ($"eu", $"2")]).
  repeat constructor; (by apply (bool_decide_eq_true_1 _)) || done.
Defined.

(** The second of three lines is no message. *)
Definition malformed : Console.t :=
  Console.console ($"eu.de:1" ++ Console.newline ++ $"eu" ++ Console.newline ++ $"eu:2").

Lemma malformed_reads : input_says produce malformed [($"eu.de", $"1")] 1.
Proof.
  apply (text_line false $"eu.de:1" $"eu.de" $"1" ($"eu" ++ Console.newline ++ $"eu:2") [] 1);
    [by apply (bool_decide_eq_true_1 _)|split_and!; [done|by apply (bool_decide_eq_true_1 _)|done]|].
  apply (text_malformed false $"eu" (Console.newline ++ $"eu:2"));
    [by apply (bool_decide_eq_true_1 _)| |right; by eexists].
  intros key value (Heq & _). assert (Byte.x3a ∉ $"eu") as Hno by (by apply (bool_decide_eq_true_1 _)).
  apply Hno. rewrite Heq. apply elem_of_app. right. left.
Qed.

(** The connection to the server, then the opening of its FIFO. *)
Definition greeted : world :=
  match execute_connect_command 300 produce malformed listening with
  | Done (_, _, w) => w
  | _ => listening
  end.

Lemma malformed_connects m :
  execute_connect_command (300 + m) produce malformed listening = Done (0, malformed, greeted).
Proof. vm_compute. reflexivity. Qed.

Lemma greeted_opens :
  ∃ w2, yields (λ fuel, Ipc.writer_open fuel $"/s" 2000 greeted) (Ipc.mkWriter 3 $"/s", w2).
Proof.
  assert (∀ m, match Ipc.writer_open (300 + m) $"/s" 2000 greeted with
               | Done r => Some r.1 | _ => None end = Some (Ipc.mkWriter 3 $"/s")) as Hr
    by (intros m; vm_compute; reflexivity).
  destruct (converges_at _ (Client.writer_open_converges $"/s" 2000 greeted))
    as ([writer w2] & n & _ & Hy).
  pose proof (yields_at_1 fst _ _ _ 300 Hy Hr) as Hw. simpl in Hw. subst writer. by exists w2.
Qed.

Lemma malformed_exits m :
  match execute_producer_command (300 + m) produce malformed listening with
  | Done r => Some r.1.1 | _ => None end = Some 1.
Proof. vm_compute. reflexivity. Qed.

(** The first line is published, then the producer exits with one: nothing of the second and
    of the third line is sent. *)
Lemma produce_witness :
  ∃ io' w', yields (λ fuel, execute_producer_command fuel produce malformed listening) (1, io', w') ∧
    yields (λ fuel, execute_connect_command fuel produce malformed listening) (0, malformed, greeted) ∧
    ∀ rd, Ipc.only_talked rd 3 [] (Protocol.serialize_produce $"news" $"eu.de" $"1") greeted w'.
Proof.
  destruct (produce_publishes_input produce malformed listening eq_refl)
    as (ms & code & c & io1 & w1 & exit_code & io' & w' & put & Hin & Hy & _ & _ & Hyc & _ & Hp).
  destruct (text_input_unique _ _ _ _ _ _ Hin malformed_reads) as [-> ->].
  pose proof (yields_at_1 (λ r, r.1.1) _ _ _ 300 Hy malformed_exits) as Hexit. simpl in Hexit.
  pose proof (yields_at _ _ _ 300 Hyc malformed_connects) as Hconn.
  rewrite Hexit in *. clear Hexit exit_code.
  destruct (triple_eq _ _ _ _ _ _ Hconn) as (-> & -> & ->).
  destruct greeted_opens as [w2 Hopen].
  destruct (produces_opened _ _ _ _ _ _ _ _ _ Hp Hopen eq_refl ltac:(done)) as (_ & _ & Ht).
  exists io', w'. split; [exact Hy|]. split; [exact Hyc|].
  intros rd. specialize (Ht rd). unfold frames in Ht. cbn [fmap list_fmap concat fst snd] in Ht.
  rewrite app_nil_r in Ht. exact Ht.
Defined.

End Witness.

End Producer.
