(* ===== verification/Subscriber.v ===== *)
(** * Subscriber: src/client/src/subscriber_command.cpp, and src/client/src/main.cpp

    The subscriber asks for its subscription, then polls its FIFO: it prints each delivery,
    acknowledges it, and leaves on a signal, on the notice that the server shuts down, or on
    an error. The flag that the signal handler of src/client/src/shutdown_signal.cpp sets is
    a parameter of the system ([World.shutdown_requested_]). *)

From S2P Require Import Prelude Protocol World Text Ipc Console Command Client Producer.

Set Warnings "-clear-no-such-hyp".

Module Subscriber.

Import World.
Open Scope Z_scope.

Definition POLLIN : Z := 1.
Definition POLLERR : Z := 8.
Definition POLLHUP : Z := 16.
Definition POLLNVAL : Z := 32.

Section Operations.
Context `{Kernel}.

Abbreviation result := ((Z * Console.t * world)%type).

(** ** One turn of the loop *)

(** [message.key.resize(len)], and the read that fills it when there is anything to read. *)
Definition read_field (fuel : nat) (len : Z) (reader : Ipc.FifoReader) (w : world)
    : outcome (bool * str * world) :=
  if 0 <? len then Ipc.read_exact fuel len 1000 reader w else mret (true, [], w).

(** [key_len + val_len > MAX_PAYLOAD_SIZE], the sum being 32 bits wide. *)
Definition too_large (key_len val_len : Z) : bool :=
  Protocol.MAX_PAYLOAD_SIZE <? wrap32 (key_len + val_len).

(** The message is printed and acknowledged. *)
Definition print_and_ack (fuel : nat) (command : Command.Command) (writer : Ipc.FifoWriter)
    (offset : Z) (message : Client.Message) (io : Console.t) (w : world)
    : outcome (Console.t * world + result) :=
  let '(ok, io) :=
    if Command.raw command then
      let '(ok, cout) := Client.write_raw_message (Console.cout io) offset message in
      (ok, Console.with_cout cout io)
    else (true, Console.print (Client.format_text_message message) io) in
  if negb ok then mret (inr (1, Client.report $"failed to write subscriber output" io, w))
  else
    let ack_frame := Protocol.serialize_ack (Command.subscriber command) (wrap32 (offset + 1)) in
    '(ok, w) ← Ipc.write_exact fuel ack_frame writer w;
    if negb ok : bool then mret (inr (3, Client.report $"IPC communication error" io, w))
    else mret (inl (io, w)).

(** A delivery is read, from its header on. *)
Definition receive_delivery (fuel : nat) (command : Command.Command) (reader : Ipc.FifoReader)
    (writer : Ipc.FifoWriter) (io : Console.t) (w : world) : outcome (Console.t * world + result) :=
  let invalid w := inr (3, Client.report $"invalid subscription message" io, w) in
  '(ok, delivery_hdr, w) ← Ipc.read_exact fuel 12 1000 reader w;
  if negb ok : bool then mret (invalid w)
  else
    offset ← Protocol.read_uint32_le delivery_hdr 0;
    key_len ← Protocol.read_uint32_le delivery_hdr 4;
    val_len ← Protocol.read_uint32_le delivery_hdr 8;
    if Protocol.is_shutdown offset then mret (inr (0, io, w))
    else if too_large key_len val_len then mret (invalid w)
    else
      '(ok, key, w) ← read_field fuel key_len reader w;
      if negb ok : bool then mret (invalid w)
      else
        '(ok, value, w) ← read_field fuel val_len reader w;
        if negb ok : bool then mret (invalid w)
        else print_and_ack fuel command writer offset (Client.mkMessage key value) io w.

Definition subscriber_once (fuel : nat) (command : Command.Command) (reader : Ipc.FifoReader)
    (writer : Ipc.FifoWriter) (s : Console.t * world) : outcome (Console.t * world + result) :=
  let '(io, w) := s in
  let '(stop, w) := shutdown_requested_ w in
  if stop then
    let disc_frame := Protocol.serialize_disconnect (Command.subscriber command) in
    '(_, w) ← Ipc.write_exact fuel disc_frame writer w;
    mret (inr (0, io, w))
  else
    let '(poll_res, revents, w) := poll_ (Ipc.reader_fd reader) 100 w in
    if poll_res <? 0 then
      if decide (errno_ w = EINTR) then mret (inl (io, w)) else mret (inr (3, io, w))
    else if poll_res =? 0 then mret (inl (io, w))
    else if negb (Z.land revents (Z.lor POLLERR POLLNVAL) =? 0) then mret (inr (3, io, w))
    else if Z.land revents (Z.lor POLLIN POLLHUP) =? 0 then mret (inl (io, w))
    else receive_delivery fuel command reader writer io w.

(** ** The command *)

(** The answer to the subscription: an exit code, or nothing when it is a success. A payload
    that is not read to its end leaves zeros. *)
Definition handshake (fuel : nat) (reader : Ipc.FifoReader) (io : Console.t) (w : world)
    : outcome (option Z * Console.t * world) :=
  let invalid := Client.report $"invalid response from server" io in
  '(ok, handshake_hdr, w) ← Ipc.read_exact fuel 5 2000 reader w;
  if negb ok : bool then mret (Some 3, invalid, w)
  else
    response_hdr ← Protocol.parse_response_header handshake_hdr;
    match response_hdr with
    | None => mret (Some 3, invalid, w)
    | Some response_hdr =>
        let payload_len := Protocol.response_payload_len response_hdr in
        let code := Protocol.StatusCode_code (Protocol.status_code response_hdr) in
        let success := bool_decide (code = Byte.x00) in
        if 0 <? payload_len then
          '(_, bytes, w) ← Ipc.read_exact fuel payload_len 2000 reader w;
          let err_payload := bytes ++ replicate (Z.to_nat payload_len - length bytes) Byte.x00 in
          if negb success then
            mret (Some (Client.exit_code_from_response_code code), Client.write_error err_payload io, w)
          else mret (None, io, w)
        else if negb success then mret (Some (Client.exit_code_from_response_code code), io, w)
        else mret (None, io, w)
    end.

(** The destructors of [writer] and [reader]. *)
Definition leave (writer : Ipc.FifoWriter) (reader : Ipc.FifoReader) (w : world) : world :=
  (Ipc.reader_close reader (Ipc.writer_close writer w).2).2.

Definition execute_subscriber_command (fuel : nat) (command : Command.Command) (io : Console.t)
    (w : world) : outcome result :=
  let client_pid := getpid_ w in
  let '(reader, w) := Ipc.reader_create (Client.client_fifo_path client_pid) true w in
  if negb (Ipc.reader_is_open reader) then
    mret (3, Client.report $"IPC communication error" io, (Ipc.reader_close reader w).2)
  else
    let requested_offset :=
      if Command.has_offset command then Command.offset command else Protocol.OFFSET_UNSET in
    let request :=
      Protocol.serialize_subscribe client_pid (Command.subscriber command)
        (Command.topic command) (Command.prefix command) requested_offset in
    '(writer, w) ← Ipc.writer_open fuel (Command.ipc_identifier command) 2000 w;
    if negb (Ipc.writer_is_open writer) then
      mret (1, Client.report $"failed to connect to server FIFO" io, leave writer reader w)
    else
      '(ok, w) ← Ipc.write_exact fuel request writer w;
      if negb ok : bool then
        mret (3, Client.report $"IPC communication error" io, leave writer reader w)
      else
        '(refused, io, w) ← handshake fuel reader io w;
        match refused with
        | Some exit_code => mret (exit_code, io, leave writer reader w)
        | None =>
            '(exit_code, io, w) ← iterate (subscriber_once fuel command reader writer) fuel (io, w);
            mret (exit_code, io, leave writer reader w)
        end.

(** ** The client *)

(** [main], once the signal handlers are installed. *)
Definition client_main (fuel : nat) (argv : list str) (io : Console.t) (w : world)
    : outcome result :=
  let r := Command.parse_command argv in
  if negb (Command.ok r) then mret (1, Client.report (Command.error r) io, w)
  else
    let command := Command.command r in
    match Command.type command with
    | Protocol.CREATE => Client.execute_create_command fuel command io w
    | Protocol.LIST => Client.execute_list_command fuel command io w
    | Protocol.INFO => Client.execute_info_command fuel command io w
    | Protocol.CONNECT => Producer.execute_producer_command fuel command io w
    | _ => execute_subscriber_command fuel command io w
    end.

End Operations.

(** ** What a subscriber reads, prints and acknowledges *)

Definition delivery : Type := Z * str * str.

(** A delivery the loop takes: not the shutdown notice, and its sizes pass the check. *)
Definition accepted_delivery (d : delivery) : Prop :=
  let '(o, k, v) := d in
  u32 o ∧ o ≠ Protocol.SHUTDOWN_OFFSET ∧ u32 (zlen k) ∧ u32 (zlen v) ∧
  too_large (zlen k) (zlen v) = false.

Definition frame (d : delivery) : str := let '(o, k, v) := d in Protocol.serialize_delivery o k v.

Definition ack (command : Command.Command) (d : delivery) : str :=
  let '(o, _, _) := d in Protocol.serialize_ack (Command.subscriber command) (wrap32 (o + 1)).

(** What printing a delivery does to the output. *)
Definition show (command : Command.Command) (s : Console.ostream) (d : delivery) : Console.ostream :=
  let '(o, k, v) := d in
  if Command.raw command then (Client.write_raw_message s o (Client.mkMessage k v)).2
  else Console.write (Client.format_text_message (Client.mkMessage k v)) s.

Definition is_notice (got : str) : Prop :=
  ∃ rest, got = Protocol.u32_bytes Protocol.SHUTDOWN_OFFSET ++ rest ∧ zlen got = 12.

(** ** Lemmas on headers *)

Lemma delivery_header h :
  zlen h = 12 →
  ∃ o kl vl, u32 o ∧ u32 kl ∧ u32 vl ∧
    h = Protocol.u32_bytes o ++ Protocol.u32_bytes kl ++ Protocol.u32_bytes vl ∧
    Protocol.read_uint32_le h 0 = Done o ∧ Protocol.read_uint32_le h 4 = Done kl ∧
    Protocol.read_uint32_le h 8 = Done vl.
Proof.
  intros Hl. assert (Protocol.readable h (zlen h)) as Hr by (apply Protocol.readable_all; lia).
  destruct (Protocol.take_u32_drop h) as (o & Ho & To); [lia|].
  destruct (Protocol.take_u32_drop (drop 4 h)) as (kl & Hk & Tk);
    [unfold zlen in *; rewrite length_drop; lia|].
  destruct (Protocol.take_u32_drop (drop 8 h)) as (vl & Hv & Tv);
    [unfold zlen in *; rewrite length_drop; lia|].
  exists o, kl, vl. split_and!; [done..| | | |].
  - apply Protocol.take_u32_Some in To as [_ To]. rewrite To at 1. f_equal.
    rewrite drop_drop in Tk. apply Protocol.take_u32_Some in Tk as [_ Tk]. rewrite Tk at 1. f_equal.
    rewrite drop_drop in Tv. apply Protocol.take_u32_Some in Tv as [_ Tv].
    change (4 + 4)%nat with 8%nat. rewrite Tv at 1.
    rewrite drop_ge by (unfold zlen in Hl; lia). apply app_nil_r.
  - eapply Protocol.read_uint32_le_window; [exact Hr|lia|].
    unfold Protocol.window, zlen. rewrite Nat2Z.id, firstn_all. exact To.
  - eapply Protocol.read_uint32_le_window; [exact Hr|lia|].
    unfold Protocol.window, zlen. rewrite Nat2Z.id, firstn_all. exact Tk.
  - eapply Protocol.read_uint32_le_window; [exact Hr|lia|].
    unfold Protocol.window, zlen. rewrite Nat2Z.id, firstn_all. exact Tv.
Qed.

Section Theory.
Context `{Kernel} `{!TransferLaws}.
Variable (command : Command.Command) (reader : Ipc.FifoReader) (writer : Ipc.FifoWriter).
Implicit Types (w : world) (io : Console.t).

Abbreviation rd := (Ipc.reader_fd reader).
Abbreviation wr := (Ipc.writer_fd writer).

(** Deliveries that were read, printed and acknowledged, and nothing else happened. *)
Definition handled io w (ds : list delivery) io' w' : Prop :=
  Forall accepted_delivery ds ∧
  Ipc.talked rd wr (concat (frame <$> ds)) (concat (ack command <$> ds)) w w' ∧
  Console.cout io' = foldl (show command) (Console.cout io) ds.

(** The end: [ds] were read and printed, and of their acknowledgements and the farewell at
    least a part is taken, all acknowledgements if the exit code is zero; then nothing more
    was read, or the notice of the shutdown. *)
Definition finished io w (ds : list delivery) (code : Z) io' w' : Prop :=
  Forall accepted_delivery ds ∧
  Console.cout io' = foldl (show command) (Console.cout io) ds ∧
  (code = 0 ∨ code = 1 ∨ code = 3) ∧
  ∃ tail n,
    Ipc.talked rd wr (concat (frame <$> ds) ++ tail)
      (take n (concat (ack command <$> ds) ++
               Protocol.serialize_disconnect (Command.subscriber command))) w w' ∧
    (code = 0 → (length (concat (ack command <$> ds)) ≤ n)%nat ∧ (tail = [] ∨ is_notice tail)).

Lemma handled_nothing io w io' w' :
  Ipc.silent w w' → Console.cout io' = Console.cout io → handled io w [] io' w'.
Proof. intros Hq Ho. split_and!; [constructor|apply Hq|done]. Qed.

Lemma handled_trans io0 w0 ds1 io1 w1 ds2 io2 w2 :
  handled io0 w0 ds1 io1 w1 → handled io1 w1 ds2 io2 w2 → handled io0 w0 (ds1 ++ ds2) io2 w2.
Proof.
  intros (F1 & T1 & O1) (F2 & T2 & O2). split_and!.
  - by apply Forall_app.
  - rewrite !fmap_app, !concat_app. by eapply Ipc.talked_trans.
  - by rewrite foldl_app, <- O1.
Qed.

Lemma finished_trans io0 w0 ds1 io1 w1 ds2 code io2 w2 :
  handled io0 w0 ds1 io1 w1 → finished io1 w1 ds2 code io2 w2 →
  finished io0 w0 (ds1 ++ ds2) code io2 w2.
Proof.
  intros (F1 & T1 & O1) (F2 & O2 & Hc & tail & n & T2 & Hcode). split_and!.
  - by apply Forall_app.
  - by rewrite foldl_app, <- O1.
  - done.
  - exists tail, (length (concat (ack command <$> ds1)) + n)%nat.
    rewrite !fmap_app, !concat_app, <- !app_assoc, take_app_add. split; [by eapply Ipc.talked_trans|].
    intros Hz. destruct (Hcode Hz) as [Hn Htail]. split; [rewrite !length_app; lia|done].
Qed.

(** The loop leaves before anything is acknowledged. *)
Lemma finished_early io w code io' w' tail :
  Ipc.talked rd wr tail [] w w' → Console.cout io' = Console.cout io → code = 0 ∨ code = 3 →
  (code = 0 → tail = [] ∨ is_notice tail) → finished io w [] code io' w'.
Proof.
  intros Ht Ho Hcode Hc. split_and!; [constructor|done|tauto|]. exists tail, 0%nat. rewrite take_0.
  split; [done|]. intros Hz. split; [simpl; lia|auto].
Qed.

(** ** One turn *)

Definition turn_post io w (r : Console.t * world + Z * Console.t * world) : Prop :=
  match r with
  | inl (io', w') => ∃ ds, handled io w ds io' w'
  | inr (code, io', w') => ∃ ds, finished io w ds code io' w'
  end.

Lemma print_and_ack_spec fuel o k v io w r :
  print_and_ack fuel command writer o (Client.mkMessage k v) io w = Done r →
  match r with
  | inl (io', w') => Ipc.sent wr (ack command (o, k, v)) w w' ∧
                     Console.cout io' = show command (Console.cout io) (o, k, v)
  | inr (code, io', w') => (code = 1 ∨ code = 3) ∧ (∃ n, (n ≤ length (ack command (o, k, v)))%nat ∧
                             Ipc.sent wr (take n (ack command (o, k, v))) w w') ∧
                           Console.cout io' = show command (Console.cout io) (o, k, v)
  end.
Proof.
  unfold print_and_ack, show.
  set (pr := if Command.raw command then _ else _ : bool * Console.t).
  assert (Console.cout pr.2 = show command (Console.cout io) (o, k, v)) as Hcout.
  { unfold pr, show. destruct (Command.raw command); [|done].
    by destruct (Client.write_raw_message _ _ _). }
  destruct pr as [ok io1]. simpl in Hcout. unfold show in Hcout. destruct ok; simpl.
  - intros ([b w1] & Hw & Hr)%bind_Done. apply Ipc.write_exact_sends in Hw.
    destruct b; injection Hr as <-; [done|]. split_and!; [by right| |done].
    destruct Hw as (n & Hn & _ & Hs). exists (Z.to_nat n).
    split; [|done]. apply Nat2Z.inj_le. rewrite Z2Nat.id by lia. apply Hn.
  - intros [= <-]. split_and!; [by left| |done]. exists 0%nat. split; [lia|].
    rewrite take_0. apply Ipc.sent_nothing.
Qed.

Lemma read_field_spec fuel len w ok got w' :
  0 ≤ len → read_field fuel len reader w = Done (ok, got, w') →
  Ipc.talked rd wr got [] w w' ∧ (ok = true → zlen got = len).
Proof.
  intros Hl. unfold read_field. destruct (Z.ltb_spec 0 len).
  - intros [Hr Hb]%Ipc.read_exact_receives; [|lia].
    split; [by apply Ipc.received_talked|by destruct ok].
  - intros [= <- <- <-]. split; [by apply Ipc.silent_trace|]. rewrite zlen_nil. lia.
Qed.

Lemma receive_delivery_spec fuel io w r :
  receive_delivery fuel command reader writer io w = Done r → turn_post io w r.
Proof.
  unfold receive_delivery. intros ([[ok h] w1] & Hh & Hrun)%bind_Done.
  apply Ipc.read_exact_receives in Hh as [Hrec Hlen]; [|lia].
  apply (Ipc.received_talked _ wr) in Hrec.
  assert (∀ tail text w', Ipc.talked rd wr tail [] w w' →
    turn_post io w (inr (3, Client.report text io, w'))) as Hinvalid.
  { intros tail text w' Ht. exists []. by eapply finished_early; [..|by right|]. }
  destruct ok; simpl in Hrun; [|injection Hrun as <-; by eapply Hinvalid].
  destruct (delivery_header h Hlen) as (o & kl & vl & Ho & Hk & Hv & Heq & Ro & Rk & Rv).
  rewrite Ro, Rk, Rv in Hrun. cbn [mbind outcome_bind] in Hrun. unfold Protocol.is_shutdown in Hrun.
  destruct (Z.eqb_spec o Protocol.SHUTDOWN_OFFSET) as [Hsd|Hsd].
  { injection Hrun as <-. exists []. eapply finished_early; [exact Hrec|done|by left|]. intros _. right.
    exists (Protocol.u32_bytes kl ++ Protocol.u32_bytes vl). by subst o. }
  destruct (too_large kl vl) eqn:Hsize; [injection Hrun as <-; by eapply Hinvalid|].
  apply bind_Done in Hrun as ([[ok k] w2] & Hkey & Hrun).
  apply read_field_spec in Hkey as [Tk Lk]; [|apply Hk]. apply (Ipc.talked_trans _ _ _ _ _ _ _ _ _ Hrec) in Tk.
  destruct ok; simpl in Hrun; [|injection Hrun as <-; by eapply Hinvalid].
  apply bind_Done in Hrun as ([[ok v] w3] & Hval & Hrun).
  apply read_field_spec in Hval as [Tv Lv]; [|apply Hv]. apply (Ipc.talked_trans _ _ _ _ _ _ _ _ _ Tk) in Tv.
  destruct ok; simpl in Hrun; [|injection Hrun as <-; by eapply Hinvalid].
  specialize (Lk eq_refl). specialize (Lv eq_refl). subst kl vl.
  assert (accepted_delivery (o, k, v)) as Hacc by (split_and!; try done; apply Ho || apply Hk || apply Hv).
  assert ((h ++ k) ++ v = concat (frame <$> [(o, k, v)])) as Hframe.
  { cbn [fmap list_fmap concat frame].
    rewrite app_nil_r, Protocol.serialize_delivery_eq by (apply Hk || apply Hv).
    by rewrite Heq, <- !app_assoc. }
  rewrite Hframe in Tv. apply print_and_ack_spec in Hrun.
  destruct r as [[io' w']|[[code io'] w']].
  - destruct Hrun as [Hs Hc]. exists [(o, k, v)]. split_and!; [by apply Forall_singleton| |done].
    apply (Ipc.sent_talked rd) in Hs. pose proof (Ipc.talked_trans _ _ _ _ _ _ _ _ _ Tv Hs) as Ht.
    cbn [fmap list_fmap concat] in Ht |- *. rewrite !app_nil_r in Ht. rewrite !app_nil_r. exact Ht.
  - destruct Hrun as (Hne & (n & Hn & Hs) & Hc). exists [(o, k, v)].
    split_and!; [by apply Forall_singleton|done|by right|]. exists [], n.
    apply (Ipc.sent_talked rd) in Hs. pose proof (Ipc.talked_trans _ _ _ _ _ _ _ _ _ Tv Hs) as Ht.
    split; [|lia]. cbn [fmap list_fmap concat].
    cbn [fmap list_fmap concat] in Ht. rewrite !app_nil_r in Ht |- *.
    rewrite take_app_le by done. exact Ht.
Qed.

Lemma subscriber_once_spec fuel io w r :
  subscriber_once fuel command reader writer (io, w) = Done r → turn_post io w r.
Proof.
  unfold subscriber_once. pose proof (Ipc.silent_signalled w) as Hq1.
  destruct (shutdown_requested_ w) as [stop w1]. simpl in Hq1. destruct stop.
  { intros ([b w2] & Hw & Hr)%bind_Done. injection Hr as <-.
    apply Ipc.write_exact_sends in Hw. exists [].
    assert (∃ n, Ipc.sent wr (take n (Protocol.serialize_disconnect (Command.subscriber command))) w1 w2)
      as (n & Hs).
    { destruct b; [|destruct Hw as (n & _ & _ & Hs); by eexists].
      exists (length (Protocol.serialize_disconnect (Command.subscriber command))).
      by rewrite firstn_all. }
    split_and!; [constructor|done|by left|]. exists [], n. split; [|intros _; split; [simpl; lia|by left]].
    apply (Ipc.sent_talked rd) in Hs. apply (Ipc.talked_trans _ _ _ _ _ _ _ _ _ (Hq1 _ _) Hs). }
  pose proof (Ipc.silent_poll rd 100 w1) as Hq2.
  destruct (poll_ rd 100 w1) as [[poll_res revents] w2]. simpl in Hq2.
  pose proof (transitivity Hq1 Hq2) as Hq. clear Hq1 Hq2.
  assert (turn_post io w (inl (io, w2))) as Hagain by (exists []; by apply handled_nothing).
  assert (turn_post io w (inr (3, io, w2))) as Herror.
  { exists []. eapply finished_early; [apply Hq|done|by right|done]. }
  destruct (poll_res <? 0); [case_decide; by intros [= <-]|].
  destruct (poll_res =? 0); [by intros [= <-]|].
  destruct (negb _); [by intros [= <-]|]. destruct (_ =? 0); [by intros [= <-]|].
  intros Hrun%receive_delivery_spec. destruct r as [[io' w']|[[code io'] w']]; destruct Hrun as [ds Hd];
    exists ds; [rewrite <- (app_nil_l ds)|rewrite <- (app_nil_l ds)].
  - eapply handled_trans; [by apply handled_nothing|exact Hd].
  - eapply finished_trans; [by apply handled_nothing|exact Hd].
Qed.

Lemma subscriber_loop_spec inner outer io w code io' w' :
  iterate (subscriber_once inner command reader writer) outer (io, w) = Done (code, io', w') →
  ∃ ds, finished io w ds code io' w'.
Proof.
  intros Hrun.
  refine (iterate_rule _ (λ s, ∃ ds, handled io w ds s.1 s.2)
    (λ r, ∃ ds, finished io w ds r.1.1 r.1.2 r.2) _ outer (io, w) (code, io', w') _ Hrun).
  - intros [io1 w1] [ds1 Hds1]. destruct (subscriber_once _ _ _ _ _) as [r| |] eqn:Ht; [|done..].
    apply subscriber_once_spec in Ht. destruct r as [[io2 w2]|[[c io2] w2]]; destruct Ht as [ds2 Hds2];
      exists (ds1 ++ ds2); [by eapply handled_trans|by eapply finished_trans].
  - exists []. by apply handled_nothing.
Qed.

End Theory.

(** ** What the turns do to the world

    A relation that every call of the loop respects holds between the worlds before and
    after a turn. *)

Section Steps.
Context `{Kernel} (R : relation world) `{!PreOrder R}.
Variable (Hwrite : ∀ fd bytes w, R w (write_ fd bytes w).2)
  (Hread : ∀ fd count w, R w (read_ fd count w).2)
  (Hpoll : ∀ fd timeout w, R w (poll_ fd timeout w).2)
  (Hsignalled : ∀ w, R w (shutdown_requested_ w).2).
Implicit Types (w : world) (io : Console.t).

Lemma read_field_step fuel len reader w b got w' :
  read_field fuel len reader w = Done (b, got, w') → R w w'.
Proof.
  unfold read_field. destruct (0 <? len); [apply (Ipc.read_exact_step R Hread Hpoll)|by intros [= <- <- <-]].
Qed.

Definition world_of (r : Console.t * world + Z * Console.t * world) : world :=
  match r with inl (_, w) => w | inr (_, _, w) => w end.

Lemma receive_delivery_step fuel command reader writer io w r :
  receive_delivery fuel command reader writer io w = Done r → R w (world_of r).
Proof.
  unfold receive_delivery. intros ([[ok h] w1] & Hh%(Ipc.read_exact_step R Hread Hpoll) & Hrun)%bind_Done.
  destruct ok; simpl in Hrun; [|by injection Hrun as <-].
  apply bind_Done in Hrun as (o & _ & Hrun). apply bind_Done in Hrun as (kl & _ & Hrun).
  apply bind_Done in Hrun as (vl & _ & Hrun).
  destruct (Protocol.is_shutdown o); [by injection Hrun as <-|].
  destruct (too_large kl vl); [by injection Hrun as <-|].
  apply bind_Done in Hrun as ([[ok k] w2] & Hk%read_field_step & Hrun). rewrite <- Hh in Hk.
  destruct ok; simpl in Hrun; [|by injection Hrun as <-].
  apply bind_Done in Hrun as ([[ok v] w3] & Hv%read_field_step & Hrun). rewrite <- Hk in Hv.
  destruct ok; simpl in Hrun; [|by injection Hrun as <-].
  unfold print_and_ack in Hrun. destruct (if Command.raw command then _ else _) as [shown io1].
  destruct shown; simpl in Hrun; [|by injection Hrun as <-].
  apply bind_Done in Hrun as ([ok w4] & Hw%(Ipc.write_exact_step R Hwrite) & Hrun). rewrite <- Hv in Hw.
  by destruct ok; injection Hrun as <-.
Qed.

Lemma subscriber_once_step fuel command reader writer io w r :
  subscriber_once fuel command reader writer (io, w) = Done r →
  R (shutdown_requested_ w).2 (world_of r) ∧
  ((shutdown_requested_ w).1 = true → ∃ w', r = inr (0, io, w')).
Proof.
  unfold subscriber_once. destruct (shutdown_requested_ w) as [stop w1].
  intros Hrun. split; [|destruct stop; [intros _|done]].
  2:{ apply bind_Done in Hrun as ([b w2] & _ & [= <-]). by eexists. }
  simpl. revert Hrun. destruct stop; [by intros ([b w2] & Hw%(Ipc.write_exact_step R Hwrite) & [= <-])%bind_Done|].
  pose proof (Hpoll (Ipc.reader_fd reader) 100 w1) as Hp.
  destruct (poll_ _ 100 w1) as [[poll_res revents] w2]. simpl in Hp.
  destruct (poll_res <? 0); [case_decide; by intros [= <-]|].
  destruct (poll_res =? 0); [by intros [= <-]|].
  destruct (negb _); [by intros [= <-]|]. destruct (_ =? 0); [by intros [= <-]|].
  intros Hr%receive_delivery_step. by rewrite <- Hp in Hr.
Qed.

End Steps.

(** ** The subscription *)

(** A success, and at most the payload that its header announces. *)
Definition accepted_answer (got : str) : Prop :=
  ∃ z bytes, u32 z ∧ got = Byte.x00 :: Protocol.u32_bytes z ++ bytes ∧ zlen bytes ≤ z.

Section Session.
Context `{KernelLaws} `{!TransferLaws}.
Implicit Types (w : world) (io : Console.t).

Lemma refused_code b :
  Z_of_byte b <=? 3 = true → b ≠ Byte.x00 → 1 ≤ Client.exit_code_from_response_code b ≤ 3.
Proof. destruct b; intros; try done; vm_compute; split; done. Qed.

Lemma handshake_spec fuel reader io w refused io' w' :
  handshake fuel reader io w = Done (refused, io', w') →
  same_fds w w' ∧ Console.cout io' = Console.cout io ∧
  ∃ got, (∀ wr, Ipc.talked (Ipc.reader_fd reader) wr got [] w w') ∧
    match refused with
    | None => accepted_answer got ∧ io' = io
    | Some exit_code => 1 ≤ exit_code ≤ 3
    end.
Proof.
  unfold handshake. intros ([[ok h] w1] & Hr1 & Hrun)%bind_Done.
  pose proof (Ipc.read_exact_same_fds _ _ _ _ _ _ _ _ Hr1) as Hs1.
  apply Ipc.read_exact_receives in Hr1 as [Hrec1 Hh]; [|lia].
  pose proof (λ wr, Ipc.received_talked _ wr _ _ _ Hrec1) as Ht1.
  destruct ok; simpl in Hrun; [|injection Hrun as <- <- <-; split_and!; [done|done|by eexists]].
  destruct (Client.response_header h Hh) as (b & z & -> & Hz & Hp). rewrite Hp in Hrun.
  cbn [mbind outcome_bind] in Hrun. clear Hp.
  destruct (Z_of_byte b <=? 3) eqn:Hb;
    [|injection Hrun as <- <- <-; split_and!; [done|done|by eexists]].
  assert (Protocol.StatusCode_code (Protocol.StatusCode_of b) = b) as Hcode by (by destruct b).
  cbn [Protocol.response_payload_len Protocol.status_code] in Hrun. rewrite Hcode in Hrun.
  pose proof (refused_code b Hb) as Hrefused.
  destruct (Z.ltb_spec 0 z) as [Hpos|Hzero].
  - apply bind_Done in Hrun as ([[ok bytes] w2] & Hr2 & Hrun).
    pose proof (transitivity Hs1 (Ipc.read_exact_same_fds _ _ _ _ _ _ _ _ Hr2)) as Hs2.
    apply Ipc.read_exact_receives in Hr2 as [Hrec2 Hl]; [|lia].
    pose proof (λ wr, Ipc.talked_trans _ _ _ _ _ _ _ _ _ (Ht1 wr)
      (Ipc.received_talked _ wr _ _ _ Hrec2)) as Ht.
    case_bool_decide as Hb0; cbn [negb] in Hrun; injection Hrun as <- <- <-.
    + split_and!; [done|done|]. eexists. split; [exact Ht|]. split; [|done].
      exists z, bytes. subst b. split_and!; [apply Hz..|done|]. destruct ok; lia.
    + split_and!; [done| |eexists; split; [exact Ht|by apply Hrefused]].
      unfold Client.write_error. by case_bool_decide.
  - case_bool_decide as Hb0; cbn [negb] in Hrun; injection Hrun as <- <- <-;
      (split_and!; [done|done|]); eexists; (split; [exact Ht1|]); [|by apply Hrefused].
    split; [|done]. exists z, []. subst b. rewrite app_nil_r, zlen_nil. split_and!; [apply Hz..|done|apply Hz].
Qed.

(** What becomes of a subscription once the request is out. *)
Definition session_post command reader writer io w (r : Z * Console.t * world) : Prop :=
  let '(exit_code, io', w') := r in
  same_fds w w' ∧
  ((1 ≤ exit_code ≤ 3 ∧ Console.cout io' = Console.cout io ∧
    ∃ got, Ipc.talked (Ipc.reader_fd reader) (Ipc.writer_fd writer) got [] w w') ∨
   ∃ answer w1 ds, accepted_answer answer ∧
     Ipc.talked (Ipc.reader_fd reader) (Ipc.writer_fd writer) answer [] w w1 ∧
     finished command reader writer io w1 ds exit_code io' w').

Lemma loop_same_fds inner outer command reader writer io w r :
  iterate (subscriber_once inner command reader writer) outer (io, w) = Done r → same_fds w r.2.
Proof.
  apply (iterate_rule _ (λ s, same_fds w s.2) (λ r, same_fds w r.2)); [|done].
  intros [io1 w1] Hs. simpl in Hs. destruct (subscriber_once _ _ _ _ _) as [r1| |] eqn:Ht; [|done..].
  apply (subscriber_once_step same_fds) in Ht as [Ht _]; [|auto with treenity..].
  apply (transitivity (same_fds_signalled w1)), (transitivity Hs) in Ht. by destruct r1 as [[? ?]|[[? ?] ?]].
Qed.

Lemma session_spec fuel command reader writer io w r :
  ('(refused, io, w) ← handshake fuel reader io w;
   match refused with
   | Some exit_code => mret (exit_code, io, leave writer reader w)
   | None =>
       '(exit_code, io, w) ← iterate (subscriber_once fuel command reader writer) fuel (io, w);
       mret (exit_code, io, leave writer reader w)
   end) = Done r →
  ∃ w', r.2 = leave writer reader w' ∧ session_post command reader writer io w (r.1, w').
Proof.
  intros ([[refused io1] w1] & Hh & Hrun)%bind_Done.
  apply handshake_spec in Hh as (Hs & Ho & got & Ht & Hgot). destruct refused as [c|].
  - injection Hrun as <-. exists w1. split; [done|]. split; [done|]. left.
    split_and!; [apply Hgot..|done|by eexists].
  - destruct Hgot as [Hans ->]. apply bind_Done in Hrun as ([[c io2] w2] & Hl & Hrun).
    injection Hrun as <-. exists w2. split; [done|].
    pose proof (loop_same_fds _ _ _ _ _ _ _ _ Hl) as Hs2.
    apply subscriber_loop_spec in Hl as [ds Hds]. split; [by etransitivity|]. right.
    by exists got, w1, ds.
Qed.

(** The request of the command line. *)
Definition subscription (command : Command.Command) (pid : Z) : str :=
  Protocol.serialize_request (Protocol.Req_subscribe pid (Command.subscriber command)
    (Command.topic command) (Command.prefix command)
    (if Command.has_offset command then Command.offset command else Protocol.OFFSET_UNSET)).

(** Nothing was printed, and of the request a part was sent. *)
Definition not_subscribed (command : Command.Command) io w (r : Z * Console.t * world) : Prop :=
  let '(exit_code, io', w') := r in
  1 ≤ exit_code ≤ 3 ∧ Console.cout io' = Console.cout io ∧
  ∃ rd wr got n, Ipc.talked rd wr got (take n (subscription command (getpid_ w))) w w'.

(** The request was sent and answered; [ds] were read, printed in order and acknowledged. *)
Definition subscribed (command : Command.Command) io w (r : Z * Console.t * world) : Prop :=
  let '(exit_code, io', w') := r in
  (exit_code = 0 ∨ exit_code = 1 ∨ exit_code = 3) ∧
  ∃ rd wr answer ds tail n, rd ≠ wr ∧ accepted_answer answer ∧ Forall accepted_delivery ds ∧
    Console.cout io' = foldl (show command) (Console.cout io) ds ∧
    Ipc.talked rd wr (answer ++ concat (frame <$> ds) ++ tail)
      (subscription command (getpid_ w) ++
       take n (concat (ack command <$> ds) ++
               Protocol.serialize_disconnect (Command.subscriber command))) w w' ∧
    (exit_code = 0 → (length (concat (ack command <$> ds)) ≤ n)%nat ∧
                     (tail = [] ∨ is_notice tail)).

Lemma leave_silent writer reader w : Ipc.silent w (leave writer reader w).
Proof.
  unfold leave. etransitivity; [apply Ipc.writer_close_silent|apply Ipc.reader_close_silent].
Qed.

Lemma session_outcome command reader writer io w0 w exit_code io' w' :
  Ipc.reader_fd reader ≠ Ipc.writer_fd writer →
  Ipc.talked (Ipc.reader_fd reader) (Ipc.writer_fd writer) [] (subscription command (getpid_ w0)) w0 w →
  session_post command reader writer io w (exit_code, io', w') →
  let r := (exit_code, io', leave writer reader w') in
  not_subscribed command io w0 r ∨ subscribed command io w0 r.
Proof.
  intros Hne Hreq (_ & [(Hc & Ho & got & Ht)|(answer & w1 & ds & Hans & Ht & Hfin)]).
  - left. split_and!; [apply Hc..|done|].
    exists (Ipc.reader_fd reader), (Ipc.writer_fd writer), got,
      (length (subscription command (getpid_ w0))).
    rewrite firstn_all. eapply Ipc.talked_silent; [|apply leave_silent].
    pose proof (Ipc.talked_trans _ _ _ _ _ _ _ _ _ Hreq Ht) as Hall.
    by rewrite app_nil_r in Hall.
  - right. split; [apply Hfin|]. destruct Hfin as (Hacc & Hout & Hcode & tail & n & Htail & Hzero).
    exists (Ipc.reader_fd reader), (Ipc.writer_fd writer), answer, ds, tail, n.
    split_and!; [done..| |done]. eapply Ipc.talked_silent; [|apply leave_silent].
    apply (Ipc.talked_trans _ _ _ _ _ _ _ _ _ Hreq (Ipc.talked_trans _ _ _ _ _ _ _ _ _ Ht Htail)).
Qed.

Lemma subscriber_spec fuel command io w r :
  execute_subscriber_command fuel command io w = Done r →
  same_fds w r.2 ∧ (not_subscribed command io w r ∨ subscribed command io w r).
Proof.
  unfold execute_subscriber_command.
  assert (∀ exit_code io' w', 1 ≤ exit_code ≤ 3 → Console.cout io' = Console.cout io →
    Ipc.silent w w' → not_subscribed command io w (exit_code, io', w')) as Hearly.
  { intros exit_code io' w' ? ? Hq. split_and!; [lia..|done|]. exists 0, 0, [], 0%nat. apply Hq. }
  destruct (Ipc.reader_create _ true w) as [reader w1] eqn:Hcreate.
  destruct (Ipc.reader_session _ _ _ _ _ Hcreate) as [Hq1 Hclose].
  destruct (Ipc.reader_is_open reader) eqn:Hopen; simpl negb; cbn iota.
  2:{ intros [= <-]. split; [by apply Hclose|left]. apply Hearly; [lia|done|].
      etransitivity; [exact Hq1|apply Ipc.reader_close_silent]. }
  intros ([writer w2] & Hw & Hrun)%bind_Done.
  destruct (Ipc.writer_session _ _ _ _ _ _ _ _ _ _ Hcreate Hopen Hw) as (Hq2 & Hclose2 & Hne).
  pose proof (transitivity Hq1 Hq2) as Hq. clear Hq1 Hq2.
  assert (∀ w3, same_fds w2 w3 → same_fds w (leave writer reader w3)) as Hleave
    by (intros w3 Hs; by apply Hclose, Hclose2).
  destruct (Ipc.writer_is_open writer) eqn:Hopen2; cbn [negb] in Hrun.
  2:{ injection Hrun as <-. split; [by apply Hleave|left]. apply Hearly; [lia|done|].
      etransitivity; [exact Hq|apply leave_silent]. }
  apply bind_Done in Hrun as ([ok w3] & Hwr & Hrun).
  pose proof (Ipc.write_exact_same_fds _ _ _ _ _ _ Hwr) as Hs3.
  apply Ipc.write_exact_sends in Hwr. destruct ok; cbn [negb] in Hrun.
  - apply (Ipc.sent_talked (Ipc.reader_fd reader)) in Hwr.
    apply session_spec in Hrun as (w' & Hw' & Hpost). destruct r as [[exit_code io'] w4].
    simpl in Hw', Hpost. subst w4. split.
    + apply Hleave. rewrite Hs3. apply Hpost.
    + eapply session_outcome; [by apply Hne| |done].
      apply (Ipc.talked_trans _ _ _ _ _ _ _ _ _ (Hq _ _) Hwr).
  - destruct Hwr as (n & Hn & _ & Hs). injection Hrun as <-. split; [by apply Hleave|left].
    split_and!; [lia..|done|]. apply (Ipc.sent_talked (Ipc.reader_fd reader)) in Hs.
    do 4 eexists. eapply Ipc.talked_silent; [|apply leave_silent].
    exact (Ipc.talked_trans _ _ _ _ _ _ _ _ _ (Hq _ _) Hs).
Qed.

End Session.

(** ** The subscriber ends *)

Section Ends.
Context `{KernelLaws} `{!TransferLaws} `{!FiniteStalls} `{!ClockLaws}.
Implicit Types (w : world) (io : Console.t).

Lemma read_field_converges len reader w : converges (λ fuel, read_field fuel len reader w).
Proof.
  unfold read_field. destruct (0 <? len); [apply Client.read_exact_converges|apply converges_const].
Qed.

Lemma print_and_ack_converges command writer offset message io w :
  converges (λ fuel, print_and_ack fuel command writer offset message io w).
Proof.
  unfold print_and_ack. destruct (if Command.raw command then _ else _) as [shown io1].
  destruct (negb shown); [apply converges_const|].
  apply converges_bind; [apply Client.write_exact_converges|]. intros [ok w1] _ _.
  destruct ok; apply converges_const.
Qed.

Lemma receive_delivery_converges command reader writer io w :
  converges (λ fuel, receive_delivery fuel command reader writer io w).
Proof.
  apply converges_bind; [apply Client.read_exact_converges|]. intros [[ok h] w1] n Hh.
  destruct ok; cbn [negb]; [|apply converges_const].
  apply Ipc.read_exact_receives in Hh as [_ Hlen]; [|lia].
  destruct (delivery_header h Hlen) as (o & kl & vl & _ & _ & _ & _ & -> & -> & ->).
  cbn [mbind outcome_bind].
  destruct (Protocol.is_shutdown o); [apply converges_const|].
  destruct (too_large kl vl); [apply converges_const|].
  apply converges_bind; [apply read_field_converges|]. intros [[ok k] w2] _ _.
  destruct ok; [|apply converges_const].
  apply converges_bind; [apply read_field_converges|]. intros [[ok v] w3] _ _.
  destruct ok; [apply print_and_ack_converges|apply converges_const].
Qed.

Lemma subscriber_once_converges command reader writer s :
  converges (λ fuel, subscriber_once fuel command reader writer s).
Proof.
  destruct s as [io w]. unfold subscriber_once. destruct (shutdown_requested_ w) as [stop w1].
  destruct stop.
  { apply converges_bind; [apply Client.write_exact_converges|]. intros [b w2] _ _.
    apply converges_const. }
  destruct (poll_ _ 100 w1) as [[poll_res revents] w2].
  destruct (poll_res <? 0); [destruct (decide _); apply converges_const|].
  destruct (poll_res =? 0); [apply converges_const|].
  destruct (negb _); [apply converges_const|]. destruct (_ =? 0); [apply converges_const|].
  apply receive_delivery_converges.
Qed.

Lemma handshake_converges reader io w : converges (λ fuel, handshake fuel reader io w).
Proof.
  apply converges_bind; [apply Client.read_exact_converges|]. intros [[ok h] w1] n Hh.
  destruct ok; cbn [negb]; [|apply converges_const].
  apply Ipc.read_exact_receives in Hh as [_ Hlen]; [|lia].
  destruct (Client.response_header h Hlen) as (b & z & -> & _ & ->). cbn [mbind outcome_bind].
  destruct (Z_of_byte b <=? 3); [|apply converges_const]. destruct (0 <? _).
  - apply converges_bind; [apply Client.read_exact_converges|]. intros [[ok bytes] w2] _ _.
    destruct (negb _); apply converges_const.
  - destruct (negb _); apply converges_const.
Qed.

Context `{!SignalArrives}.

(** No call but looking at the flag spends patience, and that does. *)
Definition no_more_patient w w' : Prop := (patience (kernel w') ≤ patience (kernel w))%nat.

#[local] Instance no_more_patient_preorder : PreOrder no_more_patient.
Proof. split; unfold no_more_patient; [intros w|intros w0 w1 w2]; lia. Qed.

Lemma turn_spends_patience fuel command reader writer io w io' w' :
  subscriber_once fuel command reader writer (io, w) = Done (inl (io', w')) →
  (patience (kernel w') < patience (kernel w))%nat.
Proof.
  intros Ht. apply (subscriber_once_step no_more_patient) in Ht as [Hle Hstop].
  - pose proof (sys_signalled_patience (kernel w)) as Hs. unfold no_more_patient in Hle.
    unfold shutdown_requested_ in *. destruct (sys_signalled (kernel w)) as [stop k]. simpl in *.
    destruct Hs as [->|Hlt]; [|lia]. by destruct (Hstop eq_refl).
  - intros fd bytes v. unfold no_more_patient, write_.
    pose proof (sys_write_patience fd bytes (kernel v)). by destruct (sys_write _ _ _).
  - intros fd count v. unfold no_more_patient, read_.
    pose proof (sys_read_patience fd count (kernel v)). by destruct (sys_read _ _ _) as [[? ?] ?].
  - intros fd timeout v. unfold no_more_patient, poll_.
    pose proof (sys_poll_patience fd timeout (kernel v)). by destruct (sys_poll _ _ _) as [[? ?] ?].
Qed.

Lemma subscriber_loop_converges command reader writer s :
  converges (λ fuel, iterate (subscriber_once fuel command reader writer) fuel s).
Proof.
  assert (∃ r, loops (λ fuel, subscriber_once fuel command reader writer) s r) as (r & Hr%loops_yields);
    [|by exists r].
  destruct s as [io w]. remember (patience (kernel w)) as m eqn:Hm. revert io w Hm.
  induction m as [m IH] using lt_wf_ind; intros io w ->.
  destruct (converges_at _ (subscriber_once_converges command reader writer (io, w)))
    as ([[io' w']|r] & n & Ht & Hy); [|exists r; by apply loops_leave].
  apply turn_spends_patience in Ht. destruct (IH _ Ht io' w' eq_refl) as [r Hr].
  exists r. by eapply loops_continue.
Qed.

Lemma subscriber_converges command io w :
  converges (λ fuel, execute_subscriber_command fuel command io w).
Proof.
  unfold execute_subscriber_command. destruct (Ipc.reader_create _ true w) as [reader w1].
  destruct (negb _); [apply converges_const|].
  apply converges_bind; [apply Client.writer_open_converges|]. intros [writer w2] _ _.
  destruct (negb _); [apply converges_const|].
  apply converges_bind; [apply Client.write_exact_converges|]. intros [ok w3] _ _.
  destruct (negb ok); [apply converges_const|].
  apply converges_bind; [apply handshake_converges|]. intros [[refused io1] w4] _ _.
  destruct refused; [apply converges_const|].
  apply converges_bind; [apply subscriber_loop_converges|]. intros [[c io2] w5] _ _.
  apply converges_const.
Qed.

End Ends.

(** ** Properties *)

Section Properties.
Context `{KernelLaws} `{!TransferLaws}.
Implicit Types (w : world) (io : Console.t).

(** C24: Whenever the subscriber ends, its descriptors are closed. Either it never was
    subscribed and printed nothing, or the server took its request, and what it read after
    the answer are deliveries that it printed in their order and acknowledged each with the
    offset that follows; with exit code zero every delivery was acknowledged and nothing
    more was read, unless it was the notice that the server shuts down. *)
Theorem subscribe_prints_and_acknowledges (fuel : nat) (command : Command.Command) (io : Console.t)
    (w : world) (r : Z * Console.t * world)
    (Hrun : execute_subscriber_command fuel command io w = Done r) :
  same_fds w r.2 ∧ (not_subscribed command io w r ∨ subscribed command io w r).
Proof. by eapply subscriber_spec. Qed.

Context `{!FiniteStalls} `{!ClockLaws}.

(** C25: A subscriber never hangs: every turn of its loop ends, a turn that finds a signal
    leaves with exit code zero, and when a signal is bound to arrive the command ends. *)
Theorem subscriber_stops (command : Command.Command) (io : Console.t) (w : world) :
  (∀ reader writer, ∃ turn, yields (λ fuel, subscriber_once fuel command reader writer (io, w)) turn ∧
     ((shutdown_requested_ w).1 = true → ∃ w', turn = inr (0, io, w'))) ∧
  ∀ arrives : SignalArrives, ∃ r, yields (λ fuel, execute_subscriber_command fuel command io w) r.
Proof.
  split; [|intros arrives; apply subscriber_converges]. intros reader writer.
  destruct (converges_at _ (subscriber_once_converges command reader writer (io, w)))
    as (turn & n & Ht & Hy).
  exists turn. split; [done|]. apply (subscriber_once_step same_fds) in Ht as [_ Hstop]; auto with treenity.
Qed.

Lemma management_exits server_fifo client_pid request success io w :
  ∃ r, yields (λ fuel, Client.exchange_or_report fuel server_fifo client_pid request io w
                         (Client.finish_with success)) r ∧ same_fds w r.2 ∧ 0 ≤ r.1.1 ≤ 3.
Proof.
  destruct (Client.management_ends server_fifo client_pid request success io w)
    as ([[exit_code io'] w'] & Hy & Hs & Hcases). exists (exit_code, io', w').
  split_and!; [done|done|..]; simpl;
    destruct Hcases as (rd & wr & got & put & _ & _ & [(a & _ & (_ & Hcode & _) & -> & _)|(_ & [[-> _]|[-> _]])]);
    try lia.
  apply Z_of_byte_range.
Qed.

(** C32: The client ends: a command line it cannot parse is refused with 1 and a complaint on
    [cerr], before any system call; [create], [list] and [info] end whatever the server does
    and whenever signals come, so does [produce], if the standard input is intact when it
    starts, and [subscribe] ends if a signal arrives some time. The exit code is between 0
    and 3 and no descriptor is leaked. *)
Theorem client_ends (argv : list str) (io : Console.t) (w : world) :
  let r := Command.parse_command argv in
  ∀ (Hgood : Command.type (Command.command r) = Protocol.CONNECT →
             Console.in_good (Console.cin io) = true)
    (Harrives : Command.type (Command.command r) = Protocol.SUBSCRIBE → SignalArrives),
  ∃ exit_code io' w', yields (λ fuel, client_main fuel argv io w) (exit_code, io', w') ∧
    0 ≤ exit_code ≤ 3 ∧ same_fds w w' ∧
    (Command.ok r = false →
     exit_code = 1 ∧ w' = w ∧ io' = Client.report (Command.error r) io).
Proof.
  cbv zeta. unfold client_main. intros Hgood Harrives.
  pose proof (Command.parse_command_result argv) as Hwf.
  destruct (Command.parse_command argv) as [parsed command error].
  cbn [Command.ok Command.command Command.error] in *. destruct parsed; cbn [negb].
  2:{ do 3 eexists. split; [apply yields_const|]. by split_and!. }
  assert (Command.wf command) as [Htype _ _ _ _ _ _ _ _] by (by destruct Hwf as [[Hc _]|[_ Hr]]).
  enough (∃ r, yields (λ fuel, match Command.type command with
    | Protocol.CREATE => Client.execute_create_command fuel command io w
    | Protocol.LIST => Client.execute_list_command fuel command io w
    | Protocol.INFO => Client.execute_info_command fuel command io w
    | Protocol.CONNECT => Producer.execute_producer_command fuel command io w
    | _ => execute_subscriber_command fuel command io w
    end) r ∧ same_fds w r.2 ∧ 0 ≤ r.1.1 ≤ 3) as ([[exit_code io'] w'] & Hy & Hs & Hc)
    by (by exists exit_code, io', w').
  destruct (Command.type command); try done; [apply management_exits..| |].
  - destruct (Producer.produce_ends command io w (Hgood eq_refl))
      as (ms & code & c & io1 & w1 & exit_code & io' & w' & put & _ & Hy & Hs & Hc & _).
    exists (exit_code, io', w'). split; [done|]. split; [done|exact Hc].
  - specialize (Harrives eq_refl).
    destruct (converges_at _ (subscriber_converges command io w)) as ([[c io'] w'] & n & Hr & Hy).
    exists (c, io', w'). split; [done|]. apply subscriber_spec in Hr as [Hs [[Hc _]|[Hc _]]];
      (split; [done|simpl; lia]).
Qed.

End Properties.

(** The check of the size of a delivery adds two 32-bit lengths in 32 bits: it passes when
    they amount to at most 1024 bytes, and also when they exceed [2^32] by no more than that. *)
Theorem size_check_wraps (key_len val_len : Z) (Hkey : u32 key_len) (Hval : u32 val_len) :
  too_large key_len val_len = false ↔
  key_len + val_len ≤ Protocol.MAX_PAYLOAD_SIZE ∨
  2 ^ 32 ≤ key_len + val_len ≤ 2 ^ 32 + Protocol.MAX_PAYLOAD_SIZE.
Proof.
  unfold too_large, u32, wrap32, Protocol.MAX_PAYLOAD_SIZE in *. rewrite Z.ltb_ge.
  destruct (Z.lt_ge_cases (key_len + val_len) (2 ^ 32)).
  - rewrite Z.mod_small by lia. lia.
  - replace ((key_len + val_len) mod 2 ^ 32) with (key_len + val_len - 2 ^ 32); [lia|].
    symmetry. rewrite <- (Z.mod_small (key_len + val_len - 2 ^ 32) (2 ^ 32)) by lia.
    rewrite Zminus_mod, Z_mod_same_full, Z.sub_0_r. symmetry. apply Z.mod_mod. lia.
Qed.

(** ** Witnesses *)

Module Witness.

Import World.Simple.

Definition subscribe : Command.Command :=
  Command.mkCommand Protocol.SUBSCRIBE $"/s" $"news" $"me" $"eu" 7 true false.

(** The server answers and sends two deliveries, in pieces; then a signal arrives. *)
Definition serving : world :=
  mkWorld (mkState [] [] []
    [Protocol.serialize_response Protocol.SUCCESS [];
     Protocol.serialize_delivery 7 $"eu.de" $"1" ++ take 5 (Protocol.serialize_delivery 9 $"eu" $"22");
     drop 5 (Protocol.serialize_delivery 9 $"eu" $"22")] 0) [].

(** The program, the command line, and what it prints and acknowledges. *)
Example prints_and_acknowledges :
  match client_main 300 [$"client"; $"/s"; $"subscribe"; $"news"; $"me"; $"--prefix"; $"eu"; $"--offset"; $"7"]
          (Console.console []) serving with
  | Done (exit_code, io, w) =>
      exit_code = 0 ∧
      Console.out (Console.cout io) = $"eu.de:1" ++ Console.newline ++ $"eu:22" ++ Console.newline ∧
      accepted 4 (trace w) =
        Protocol.serialize_subscribe 42 $"me" $"news" $"eu" 7 ++
        Protocol.serialize_ack $"me" 8 ++ Protocol.serialize_ack $"me" 10 ++
        Protocol.serialize_disconnect $"me"
  | _ => False
  end.
Proof. vm_compute. by split_and!. Qed.

(** A delivery that is announced with a key of four gigabytes passes the check. *)
Example huge_key_passes : too_large (2 ^ 32 - 1) 1 = false.
Proof. reflexivity. Qed.

Lemma size_check_witness : u32 (2 ^ 32 - 1) ∧ u32 1 ∧ too_large (2 ^ 32 - 1) 1 = false.
Proof.
  assert (u32 (2 ^ 32 - 1)) as Hk by (unfold u32; lia). assert (u32 1) as Hv by (unfold u32; lia).
  split; [exact Hk|]. split; [exact Hv|]. apply (size_check_wraps (2 ^ 32 - 1) 1 Hk Hv). right.
  unfold Protocol.MAX_PAYLOAD_SIZE. lia.
Defined.

Lemma stops_witness :
  ∃ r, yields (λ fuel, execute_subscriber_command fuel subscribe (Console.console []) serving) r.
Proof. apply (subscriber_stops subscribe (Console.console []) serving), _. Defined.

Lemma acknowledges_witness :
  ∃ r, execute_subscriber_command 300 subscribe (Console.console []) serving = Done r ∧
    same_fds serving r.2.
Proof.
  assert (∃ r, execute_subscriber_command 300 subscribe (Console.console []) serving = Done r)
    as [r Hr] by (vm_compute; eexists; reflexivity).
  exists r. split; [exact Hr|].
  exact (proj1 (subscribe_prints_and_acknowledges 300 subscribe (Console.console []) serving r Hr)).
Defined.

Definition subscribing : list str :=
  [$"client"; $"/s"; $"subscribe"; $"news"; $"me"; $"--prefix"; $"eu"; $"--offset"; $"7"].
Definition producing : list str := [$"client"; $"/s"; $"produce"; $"news"].
Definition unknown : list str := [$"client"; $"/s"; $"unknown"].

Lemma command_lines :
  Command.type (Command.command (Command.parse_command subscribing)) = Protocol.SUBSCRIBE ∧
  Command.type (Command.command (Command.parse_command producing)) = Protocol.CONNECT ∧
  Command.ok (Command.parse_command unknown) = false.
Proof. vm_compute. by split_and!. Qed.

Lemma lines_exit m :
  match client_main (300 + m) subscribing (Console.console []) serving with
  | Done r => Some r.1.1 | _ => None end = Some 0 ∧
  match client_main (300 + m) producing Producer.Witness.malformed Producer.Witness.listening with
  | Done r => Some r.1.1 | _ => None end = Some 1.
Proof. split; vm_compute; reflexivity. Qed.

(** A subscriber that ends on a signal, a producer with a malformed line, and a command line
    that is refused. *)
Lemma client_witness :
  (∃ io' w', yields (λ fuel, client_main fuel subscribing (Console.console []) serving) (0, io', w') ∧
     same_fds serving w') ∧
  (∃ io' w', yields (λ fuel, client_main fuel producing Producer.Witness.malformed
                               Producer.Witness.listening) (1, io', w') ∧
     same_fds Producer.Witness.listening w') ∧
  (∃ io', yields (λ fuel, client_main fuel unknown (Console.console []) serving) (1, io', serving)).
Proof.
  destruct command_lines as (Hsub & Hpro & Hbad). split; [|split].
  - destruct (client_ends subscribing (Console.console []) serving (λ _, eq_refl) (λ _, _))
      as (exit_code & io' & w' & Hy & _ & Hs & _).
    pose proof (yields_at_1 (λ r, r.1.1) _ _ _ 300 Hy (λ m, proj1 (lines_exit m))) as Hexit.
    cbn [fst snd] in Hexit. rewrite Hexit in Hy. exists io', w'. exact (conj Hy Hs).
  - destruct (client_ends producing Producer.Witness.malformed Producer.Witness.listening
      (λ _, eq_refl) (λ _, _)) as (exit_code & io' & w' & Hy & _ & Hs & _).
    pose proof (yields_at_1 (λ r, r.1.1) _ _ _ 300 Hy (λ m, proj2 (lines_exit m))) as Hexit.
    cbn [fst snd] in Hexit. rewrite Hexit in Hy. exists io', w'. exact (conj Hy Hs).
  - destruct (client_ends unknown (Console.console []) serving (λ _, eq_refl) (λ _, _))
      as (exit_code & io' & w' & Hy & _ & _ & Hrefused).
    destruct (Hrefused Hbad) as (Hc & Hw & _). rewrite Hc, Hw in Hy. exists io'. exact Hy.
Defined.

End Witness.

End Subscriber.
