(* ===== verification/ShutdownSignal.v ===== *)
(** * ShutdownSignal: the signals of the client (src/client/src/shutdown_signal.cpp)

    The flag that the handler of SIGINT and SIGTERM sets, and the installation of the
    handlers, with which the [main] of src/client/src/main.cpp begins. What a signal does to
    the process depends on its disposition. The subscriber's loop looks at the flag through
    [World.shutdown_requested_], which leaves open when signals come. *)

From S2P Require Import Prelude World Console Command Client Subscriber.

Module ShutdownSignal.

Import World.
Open Scope Z_scope.

(** ** Signals and what they do *)

Inductive signal : Type := SIGINT | SIGTERM | SIGPIPE.

#[export] Instance signal_eq_decision : EqDecision signal.
Proof. solve_decision. Defined.

(** The default of all three is to end the process. *)
Inductive disposition : Type := SIG_DFL | SIG_IGN | Calls_request_shutdown.

Record t : Type := mkSignals {
  g_shutdown_requested : Z;
  action_of : signal → disposition
}.

(** At the start of the process. *)
Definition initial : t := mkSignals 0 (λ _, SIG_DFL).

Definition set_action (signum : signal) (action : disposition) (s : t) : t :=
  mkSignals (g_shutdown_requested s)
    (λ sig, if decide (sig = signum) then action else action_of s sig).

Definition request_shutdown (signal_number : signal) (s : t) : t := mkSignals 1 (action_of s).

Definition shutdown_requested (s : t) : bool := negb (g_shutdown_requested s =? 0).

Definition reset_shutdown_request_for_tests (s : t) : t := mkSignals 0 (action_of s).

(** A signal arrives: [None] when it ends the process. *)
Definition raise_ (signum : signal) (s : t) : option t :=
  match action_of s signum with
  | SIG_DFL => None
  | SIG_IGN => Some s
  | Calls_request_shutdown => Some (request_shutdown signum s)
  end.

Fixpoint raise_all (sigs : list signal) (s : t) : option t :=
  match sigs with
  | [] => Some s
  | sig :: sigs => s ← raise_ sig s; raise_all sigs s
  end.

(** ** Installation *)

(** [sigaction], and [signal], which may fail: 0 or -1. *)
Class SignalSystem := {
  os : Type;
  sys_sigaction : signal → disposition → os → Z * os
}.

Section Operations.
Context `{SignalSystem} `{Kernel}.

Definition sigaction (signum : signal) (action : disposition) (s : t) (o : os) : Z * t * os :=
  let '(ret, o) := sys_sigaction signum action o in
  (ret, if ret =? -1 then s else set_action signum action s, o).

Definition install_shutdown_handlers (s : t) (o : os) : bool * t * os :=
  let '(ret, s, o) := sigaction SIGINT Calls_request_shutdown s o in
  if ret =? -1 then (false, s, o)
  else
    let '(ret, s, o) := sigaction SIGTERM Calls_request_shutdown s o in
    if ret =? -1 then (false, s, o)
    else (true, s, o).

(** [main] of the client. *)
Definition main (fuel : nat) (argv : list str) (o : os) (io : Console.t) (w : world)
    : outcome (Z * Console.t * world * t * os) :=
  let '(installed, s, o) := install_shutdown_handlers initial o in
  if negb installed then
    mret (1, Console.complain ($"failed to install shutdown signal handlers" ++ Console.newline) io,
          w, s, o)
  else
    let '(_, s, o) := sigaction SIGPIPE SIG_IGN s o in
    '(exit_code, io, w) ← Subscriber.client_main fuel argv io w;
    mret (exit_code, io, w, s, o).

End Operations.

(** ** Theory *)

Section Theory.
Context `{SignalSystem}.

(** The signals that ask the client to end. *)
Definition asks_to_end (sig : signal) : Prop := sig = SIGINT ∨ sig = SIGTERM.

Definition installed (s : t) : Prop := ∀ sig, asks_to_end sig → action_of s sig = Calls_request_shutdown.

Lemma install_facts s o :
  let '(ok, s', _) := install_shutdown_handlers s o in
  g_shutdown_requested s' = g_shutdown_requested s ∧ (ok = true → installed s').
Proof.
  unfold install_shutdown_handlers, sigaction. destruct (sys_sigaction SIGINT _ o) as [r1 o1].
  destruct (r1 =? -1); [done|]. destruct (sys_sigaction SIGTERM _ o1) as [r2 o2].
  destruct (r2 =? -1); [done|]. split; [done|]. by intros _ sig [-> | ->].
Qed.

Lemma raise_all_installed sigs s :
  installed s → Forall asks_to_end sigs →
  raise_all sigs s = Some (match sigs with
                           | [] => s
                           | _ => mkSignals 1 (action_of s)
                           end).
Proof.
  intros Hs Hsigs. revert s Hs. induction Hsigs as [|sig sigs Hsig Hsigs IH]; intros s Hs; [done|].
  cbn [raise_all]. unfold raise_. rewrite Hs by done. cbn [mbind option_bind request_shutdown].
  rewrite IH by exact Hs. by destruct sigs.
Qed.

(** Once the handlers are installed, no SIGINT or SIGTERM ends the client at once: each
    sets the flag, which stays set, and the flag is set just when one has arrived. *)
Theorem flag_tells_of_signals (sigs : list signal) (o o' : os) (s : t)
    (Hinstall : install_shutdown_handlers initial o = (true, s, o'))
    (Hsigs : Forall asks_to_end sigs) :
  shutdown_requested s = false ∧
  ∃ s', raise_all sigs s = Some s' ∧
    shutdown_requested s' = negb (bool_decide (sigs = [])) ∧
    shutdown_requested (reset_shutdown_request_for_tests s') = false.
Proof.
  pose proof (install_facts initial o) as Hf. rewrite Hinstall in Hf. destruct Hf as [Hflag Hi].
  unfold shutdown_requested. rewrite Hflag. split; [done|].
  eexists. rewrite raise_all_installed by auto. split; [done|].
  destruct sigs; simpl; [by rewrite Hflag|done].
Qed.

End Theory.

(** ** Witness *)

Module Witness.

(** A system on which every call succeeds. *)
#[export] Instance obliging : SignalSystem := {| os := unit; sys_sigaction _ _ o := (0, o) |}.

Definition nothing : @os obliging := tt.

Lemma flag_witness :
  ∃ s s', install_shutdown_handlers initial nothing = (true, s, nothing) ∧
    raise_all [SIGTERM; SIGINT] s = Some s' ∧ shutdown_requested s' = true.
Proof.
  destruct (flag_tells_of_signals [SIGTERM; SIGINT] nothing nothing _ eq_refl) as (_ & s' & Hr & Hs & _).
  - apply Forall_cons. split; [by right|]. apply Forall_singleton. by left.
  - eexists _, s'. exact (conj eq_refl (conj Hr Hs)).
Defined.

End Witness.

End ShutdownSignal.
