(* ===== verification/System.v ===== *)
(** * System: the programs together

    A producer, the server and a subscriber are processes of their own; what one writes the
    other reads from a FIFO, in order, in pieces of any size and perhaps not to the end.
    The theorems compose those of the programs along the FIFOs: from the input of a producer
    to the messages of a topic, from these to the output of a subscriber, and from its
    acknowledgements to where it goes on after it has come back. *)

From S2P Require Import Prelude HashMap PrefixTree Protocol World Text Ipc Topic Server Session.
From S2P Require Import Console Command Client Producer Subscriber.

Set Warnings "-clear-no-such-hyp".

Module System.

Import World.
Open Scope Z_scope.

(** ** From a producer to a topic *)

Definition requests_of (topic : str) (ms : list (str * str)) : list Protocol.request :=
  (λ m, Protocol.Req_produce topic m.1 m.2) <$> ms.

Lemma frames_of_requests topic ms :
  Producer.frames topic ms = concat (Protocol.serialize_request <$> requests_of topic ms).
Proof. unfold Producer.frames, requests_of. by rewrite <- list_fmap_compose. Qed.

Section Publishing.
Context `{KernelLaws} `{SubscriptionIndex} `{Hash str} `{Hash Z}.

Lemma publish_all topic ms this w :
  Server.wf this w → topic ≠ [] → Forall Server.sendable (requests_of topic ms) →
  ∃ this', Server.handle_all (requests_of topic ms) this w = Done (this', w) ∧ Server.wf this' w ∧
    ∀ other, Topic.messages <$> Server.get_topic other this' =
      (λ tp, if decide (topic = other)
             then Topic.messages tp ++ Session.stored (zlen (Topic.messages tp)) ms
             else Topic.messages tp) <$> Server.get_topic other this.
Proof.
  intros Hwf Hne. revert this Hwf. induction ms as [|[k v] ms IH]; intros this Hwf Hs.
  - exists this. split_and!; [done|done|]. intros other. apply option_fmap_ext. intros tp.
    case_decide; [by rewrite app_nil_r|done].
  - apply Forall_cons in Hs as [Hk Hs]. simpl in Hk.
    destruct (Server.handle_ok _ this w Hwf Hk) as (this1 & w1 & Hh1 & Hwf1 & _).
    destruct (Server.publish_effect topic k v this w Hwf Hk) as (this1' & Hh & Heff).
    rewrite Hh1 in Hh. injection Hh as <- ->.
    destruct (IH this1 Hwf1 Hs) as (this2 & Hh2 & Hwf2 & Heff2).
    exists this2. cbn [requests_of fmap list_fmap fst snd Server.handle_all]. rewrite Hh1.
    split_and!; [exact Hh2|done|]. intros other. rewrite Heff2. specialize (Heff other).
    destruct (Server.get_topic other this1) as [tp1|], (Server.get_topic other this) as [tp|];
      try done; simpl in *. injection Heff as Hm. f_equal. rewrite Hm.
    destruct (decide (topic = other)) as [->|Hd].
    + rewrite decide_True by done. rewrite <- (assoc_L (++)), zlen_app. simpl.
      by replace (zlen [_]) with 1 by done.
    + rewrite decide_False; [done|]. by intros [_ ?].
Qed.

Lemma messages_fit command io ms code :
  Producer.input_says command io ms code →
  Forall (λ m, zlen m.1 + zlen m.2 ≤ Protocol.MAX_PAYLOAD_SIZE) ms.
Proof.
  unfold Producer.input_says. destruct (Command.raw command).
  - by induction 1; repeat constructor.
  - induction 1 as [| line key value more ms code _ [_ [_ Hs]] _ IH| line key value _ _ [_ [_ Hs]]| |];
      repeat constructor; done.
Qed.

Lemma publishing_sendable topic ms :
  Text.is_valid_identifier topic = true →
  Forall (λ m, zlen m.1 + zlen m.2 ≤ Protocol.MAX_PAYLOAD_SIZE) ms →
  Forall Server.sendable (requests_of topic ms).
Proof.
  intros Ht Hms. unfold requests_of. apply Forall_fmap. eapply Forall_impl; [exact Hms|].
  intros m Hm. by apply Server.sendable_produce.
Qed.

Lemma valid_not_empty s : Text.is_valid_identifier s = true → s ≠ [].
Proof. by intros Hs ->. Qed.

(** [put] is the frames of the first [k] messages, and of the next the proper part [rest]. *)
Definition cut_after (topic : str) (ms : list (str * str)) (put : str) (k : nat) (rest : str) : Prop :=
  put = Producer.frames topic (take k ms) ++ rest ∧ (k ≤ length ms)%nat ∧
  match ms !! k with
  | Some m => ∃ more, rest ++ more = Protocol.serialize_produce topic m.1 m.2 ∧ more ≠ []
  | None => rest = []
  end.

(** What of a producer's frames reaches the server is stored, up to a frame that is cut. *)
Lemma frames_are_stored topic ms put chunks this w :
  Text.is_valid_identifier topic = true →
  Forall (λ m, zlen m.1 + zlen m.2 ≤ Protocol.MAX_PAYLOAD_SIZE) ms →
  Server.wf this w → concat chunks = put → put `prefix_of` Producer.frames topic ms →
  zlen put < 2 ^ 62 →
  ∃ k rest this', cut_after topic ms put k rest ∧
    Server.receive_all chunks [] this w = Done (rest, this', w) ∧ Server.wf this' w ∧
    (∀ other, Topic.messages <$> Server.get_topic other this' =
       (λ tp, if decide (topic = other)
              then Topic.messages tp ++ Session.stored (zlen (Topic.messages tp)) (take k ms)
              else Topic.messages tp) <$> Server.get_topic other this) ∧
    (put = Producer.frames topic ms → k = length ms ∧ rest = []).
Proof.
  intros Ht Hms Hwf <- [lost Hlost] Hl. pose proof (publishing_sendable topic ms Ht Hms) as Hsend.
  destruct (Server.receive_requests chunks (requests_of topic ms) lost this w Hwf Hsend)
    as (rs1 & rs2 & part & Hsplit & Hq & Hput & Hpart & Hall & ->); [|done|].
  { by rewrite <- Hlost, frames_of_requests. }
  assert (length rs1 ≤ length ms)%nat as Hk.
  { apply (f_equal length) in Hsplit. unfold requests_of in Hsplit.
    rewrite length_app, length_fmap in Hsplit. lia. }
  assert (rs1 = requests_of topic (take (length rs1) ms)) as Hrs1.
  { unfold requests_of in *. by rewrite fmap_take, Hsplit, take_app_length. }
  assert (rs2 = requests_of topic (drop (length rs1) ms)) as Hrs2.
  { unfold requests_of in *. by rewrite fmap_drop, Hsplit, drop_app_length. }
  destruct (publish_all topic (take (length rs1) ms) this w Hwf) as (this' & Hh & Hwf' & Heff).
  - by apply valid_not_empty.
  - by apply publishing_sendable, Forall_take.
  - exists (length rs1), part, this'. rewrite Hrs1 at 2. rewrite Hh. split_and!; [|done|done|done|].
    + split; [by rewrite frames_of_requests, <- Hrs1|]. split; [done|].
      destruct (ms !! length rs1) as [m|] eqn:Hm.
      * apply drop_S in Hm. rewrite Hm in Hrs2. by apply (Hpart _ _ Hrs2).
      * apply lookup_ge_None, drop_ge in Hm. rewrite Hm in Hrs2. rewrite Hrs2 in Hq.
        by apply app_eq_nil in Hq as [-> _].
    + intros Heq. rewrite Heq in Hlost. destruct Hall as [Hnil ->].
      { apply (f_equal length) in Hlost. rewrite length_app in Hlost. apply nil_length_inv. lia. }
      split; [|done]. rewrite Hnil in Hrs2. apply (f_equal length) in Hrs2. unfold requests_of in Hrs2.
      rewrite length_fmap, length_drop in Hrs2. simpl in Hrs2. lia.
Qed.

Context `{!TransferLaws} `{!FiniteStalls} `{!ClockLaws}.

(** C1: From the standard input of a producer to the topic. [produce] ends. What it publishes,
    from where its connection to the server has ended on, are the frames of the messages that
    the input holds up to its end or its first malformed line, or a part of them when a write
    fails, or nothing when there is no connection. However these bytes are cut into reads,
    the server appends to the topic, and to no other, exactly the messages whose frames they
    contain as a whole, in their order, each once, with the offsets that follow, and keeps
    the part of a frame that is left over. All messages are stored, also if a malformed line
    follows, when all frames were taken; which they were when the producer exits with zero. *)
Theorem produced_messages_are_stored (command : Command.Command) (io : Console.t) (w : world)
    (Hgood : Console.in_good (Console.cin io) = true)
    (Htopic : Text.is_valid_identifier (Command.topic command) = true) :
  ∃ ms code connect_code io1 w1 exit_code io' w' put,
    Producer.input_says command io ms code ∧
    yields (λ fuel, Producer.execute_producer_command fuel command io w) (exit_code, io', w') ∧
    yields (λ fuel, Producer.execute_connect_command fuel command io w) (connect_code, io1, w1) ∧
    Producer.connection command connect_code w w1 ∧
    Producer.produces command ms code w1 connect_code exit_code put w' ∧
    (exit_code = 0 → code = 0 ∧ put = Producer.frames (Command.topic command) ms) ∧
    ∀ this ws chunks, Server.wf this ws → concat chunks = put → zlen put < 2 ^ 62 →
      ∃ k rest this', cut_after (Command.topic command) ms put k rest ∧
        Server.receive_all chunks [] this ws = Done (rest, this', ws) ∧
        Server.wf this' ws ∧
        (∀ other, Topic.messages <$> Server.get_topic other this' =
           (λ tp, if decide (Command.topic command = other)
                  then Topic.messages tp ++ Session.stored (zlen (Topic.messages tp)) (take k ms)
                  else Topic.messages tp) <$> Server.get_topic other this) ∧
        (put = Producer.frames (Command.topic command) ms → k = length ms ∧ rest = []).
Proof.
  destruct (Producer.produce_ends command io w Hgood)
    as (ms & code & c & io1 & w1 & exit_code & io' & w' & put & Hin & Hy & _ & _ & _ & Hyc & Hc & Hp).
  exists ms, code, c, io1, w1, exit_code, io', w', put.
  split_and!; [done|done|done|done|done|by intros ->; apply Producer.produces_zero in Hp|].
  intros this ws chunks Hwf Hput Hl. pose proof (Producer.produces_put _ _ _ _ _ _ _ _ Hp).
  apply frames_are_stored; try done. by eapply messages_fit.
Qed.

End Publishing.

(** ** From a topic to a subscriber *)

#[local] Existing Instance Topic.wanted_dec.

Definition delivery_of (m : Topic.Message) : Subscriber.delivery :=
  (Topic.offset m, Topic.key m, Topic.value m).

(** The fields of a delivery fit into its frame. *)
Definition fits (d : Subscriber.delivery) : Prop :=
  let '(o, k, v) := d in u32 o ∧ u32 (zlen k) ∧ u32 (zlen v).

Lemma accepted_fits d : Subscriber.accepted_delivery d → fits d.
Proof. destruct d as [[o k] v]. by intros (? & _ & ? & ? & _). Qed.

Lemma frame_inj d1 d2 l1 l2 :
  fits d1 → fits d2 → Subscriber.frame d1 ++ l1 = Subscriber.frame d2 ++ l2 → d1 = d2 ∧ l1 = l2.
Proof.
  destruct d1 as [[o1 k1] v1], d2 as [[o2 k2] v2]. intros (Ho1 & Hk1 & Hv1) (Ho2 & Hk2 & Hv2).
  unfold Subscriber.frame. rewrite !Protocol.serialize_delivery_eq by (unfold u32 in *; lia).
  rewrite <- !(assoc_L (++)). intros [-> Heq]%Producer.u32_bytes_inj; [|done..].
  apply Producer.u32_bytes_inj in Heq as [Hk Heq]; [|done..].
  apply Producer.u32_bytes_inj in Heq as [Hv Heq]; [|done..].
  apply app_inj_1 in Heq as [-> Heq]; [|unfold zlen in Hk; lia].
  by apply app_inj_1 in Heq as [-> ->]; [|unfold zlen in Hv; lia].
Qed.

(** A subscriber that reads a part of a stream of deliveries takes the first of them. *)
Lemma deliveries_prefix ds all tail lost fin :
  Forall Subscriber.accepted_delivery ds → Forall fits all →
  fin = [] ∨ fin = Protocol.serialize_shutdown →
  (concat (Subscriber.frame <$> ds) ++ tail) ++ lost = concat (Subscriber.frame <$> all) ++ fin →
  ds `prefix_of` all.
Proof.
  intros Hds Hall Hfin. revert all Hall. induction Hds as [|d ds Hd Hds IH]; intros all Hall Heq.
  { by eexists. }
  pose proof (accepted_fits d Hd) as Hf. cbn [fmap list_fmap concat] in Heq.
  rewrite <- !(assoc_L (++)) in Heq. destruct Hall as [|d' all Hd' Hall].
  - exfalso. cbn [fmap list_fmap concat app] in Heq. destruct Hfin as [-> | ->].
    + apply app_eq_nil in Heq as [Heq _]. destruct d as [[o k] v]. destruct Hf as (_ & Hk & Hv).
      unfold Subscriber.frame in Heq.
      rewrite Protocol.serialize_delivery_eq in Heq by (unfold u32 in *; lia).
      by apply (f_equal length) in Heq.
    + change Protocol.serialize_shutdown
        with (Subscriber.frame (Protocol.SHUTDOWN_OFFSET, [], [])) in Heq.
      rewrite <- (app_nil_r (Subscriber.frame (_, [], []))) in Heq.
      apply frame_inj in Heq as [-> _]; [by destruct Hd as (_ & Hne & _)|done|].
      by vm_compute.
  - cbn [fmap list_fmap concat] in Heq. rewrite <- (assoc_L (++)) in Heq.
    apply frame_inj in Heq as [-> Heq]; [|done..]. rewrite (assoc_L (++)) in Heq.
    apply prefix_cons. by apply IH.
Qed.

Lemma accepted_answer_success answer l more :
  Subscriber.accepted_answer answer →
  answer ++ l = Protocol.serialize_response Protocol.SUCCESS [] ++ more → l = more.
Proof.
  intros (z & bytes & Hz & -> & Hb) Heq. rewrite Protocol.serialize_response_eq in Heq by done.
  cbn [app Protocol.StatusCode_code] in Heq. apply (app_inv_head [Byte.x00]) in Heq.
  rewrite <- !(assoc_L (++)) in Heq.
  apply Producer.u32_bytes_inj in Heq as [-> Heq]; [|done|by unfold u32].
  assert (bytes = []) as -> by (apply nil_length_inv; unfold zlen in Hb; simpl in Hb; lia).
  exact Heq.
Qed.

(** Nothing follows the notice. *)
Lemma notice_is_last ds all tail :
  Forall Subscriber.accepted_delivery ds → Forall fits all → tail = [] ∨ Subscriber.is_notice tail →
  concat (Subscriber.frame <$> ds) ++ tail =
    concat (Subscriber.frame <$> all) ++ Protocol.serialize_shutdown →
  ds = all.
Proof.
  intros Hds Hall Htail Heq.
  destruct (deliveries_prefix ds all tail [] Protocol.serialize_shutdown Hds Hall) as [rest ->];
    [by right|by rewrite app_nil_r|].
  rewrite fmap_app, concat_app, <- (assoc_L (++)) in Heq. apply app_inv_head in Heq.
  assert (zlen tail ≤ 12) as Hlen by (destruct Htail as [->|(_ & _ & ->)]; done).
  rewrite Heq, zlen_app in Hlen. change (zlen Protocol.serialize_shutdown) with 12 in Hlen.
  destruct rest as [|[[o k] v] rest]; [by rewrite app_nil_r|]. exfalso.
  apply Forall_app in Hall as [_ [(Ho & Hk & Hv) _]%Forall_cons].
  cbn [fmap list_fmap concat] in Hlen. rewrite zlen_app in Hlen. unfold Subscriber.frame in Hlen at 1.
  rewrite Protocol.serialize_delivery_eq in Hlen by (unfold u32 in *; lia).
  rewrite !zlen_app, !Protocol.zlen_u32_bytes in Hlen. zlen_facts. lia.
Qed.

Section Delivering.
Context `{KernelLaws} `{!TransferLaws}.

(** What a client reads when the server's FIFO to it holds the answer, deliveries, and
    perhaps the notice of the shutdown. *)
Lemma subscriber_reads fuel command io w exit_code io' w' all fin :
  Subscriber.execute_subscriber_command fuel command io w = Done (exit_code, io', w') →
  Forall fits all → fin = [] ∨ fin = Protocol.serialize_shutdown →
  (∀ rd, consumed rd (drop (length (trace w)) (trace w')) `prefix_of`
         Protocol.serialize_response Protocol.SUCCESS [] ++ concat (Subscriber.frame <$> all) ++ fin) →
  ∃ ds, ds `prefix_of` all ∧
        Console.cout io' = foldl (Subscriber.show command) (Console.cout io) ds.
Proof.
  intros Hrun Hall Hfin Hfifo.
  apply Subscriber.subscriber_spec in Hrun as [_ [(_ & Ho & _)|(_ & Hsub)]];
    [exists []; by split; [apply prefix_nil|]|].
  destruct Hsub as (rd & wr & answer & ds & tail & n & _ & Hans & Hds & Ho & (tr & Htr & Hgot & _) & _).
  exists ds. split; [|done]. specialize (Hfifo rd). rewrite Htr, drop_app_length, Hgot in Hfifo.
  destruct Hfifo as [lost Heq]. rewrite <- (assoc_L (++)) in Heq. symmetry in Heq.
  apply accepted_answer_success in Heq; [|done].
  by apply (deliveries_prefix ds all tail lost fin).
Qed.

(** A client that has read all of it, the notice too, and exits with zero has printed all. *)
Lemma subscriber_reads_all fuel command io w io' w' all :
  Subscriber.execute_subscriber_command fuel command io w = Done (0, io', w') →
  Forall fits all →
  (∀ rd, consumed rd (drop (length (trace w)) (trace w')) ≠ [] →
     consumed rd (drop (length (trace w)) (trace w')) =
       Protocol.serialize_response Protocol.SUCCESS [] ++ concat (Subscriber.frame <$> all) ++
       Protocol.serialize_shutdown) →
  Console.cout io' = foldl (Subscriber.show command) (Console.cout io) all.
Proof.
  intros Hrun Hall Hfifo. apply Subscriber.subscriber_spec in Hrun as [_ [(Hcode & _)|(_ & Hsub)]]; [lia|].
  destruct Hsub as (rd & wr & answer & ds & tail & n & _ & Hans & Hds & Ho & (tr & Htr & Hgot & _) & Hz).
  rewrite Ho. f_equal. destruct (Hz eq_refl) as [_ Htail].
  specialize (Hfifo rd). rewrite Htr, drop_app_length, Hgot in Hfifo.
  assert (answer ++ concat (Subscriber.frame <$> ds) ++ tail ≠ []) as Hne
    by (by destruct Hans as (z & bytes & _ & -> & _)).
  specialize (Hfifo Hne). apply accepted_answer_success in Hfifo; [|done].
  by apply (notice_is_last ds all tail).
Qed.

(** What the system took of the writes of a session. *)
Definition taken (sent : list (str * Z)) : str :=
  concat ((λ wr, take (Z.to_nat wr.2) wr.1) <$> sent).

Definition full (wr : str * Z) : Prop := wr.2 = zlen wr.1.

Lemma taken_full sent : Forall full sent → taken sent = concat sent.*1.
Proof.
  induction 1 as [|[bytes ret] sent Hw _ IH]; [done|]. unfold taken in *.
  cbn [fmap list_fmap concat fst snd]. unfold full in Hw. simpl in Hw. rewrite IH, Hw.
  unfold zlen. by rewrite Nat2Z.id, firstn_all.
Qed.

(** The writes up to the first that failed or was short, it included. The server goes on
    after a short write with the next frame (Topic.cpp:170), so that what follows in the FIFO
    is no sequence of frames any more. *)
Fixpoint undamaged (sent : list (str * Z)) : list (str * Z) :=
  match sent with
  | [] => []
  | wr :: sent => wr :: (if bool_decide (full wr) then undamaged sent else [])
  end.

Lemma undamaged_full sent : Forall full sent → undamaged sent = sent.
Proof. induction 1 as [|wr sent Hw _ IH]; [done|]. simpl. by rewrite bool_decide_true, IH. Qed.

Lemma taken_prefix sent : taken (undamaged sent) `prefix_of` concat sent.*1.
Proof.
  induction sent as [|[bytes ret] sent IH]; [done|]. unfold taken in *. cbn [undamaged fmap list_fmap concat fst snd].
  case_bool_decide as Hf.
  - unfold full in Hf. simpl in Hf. rewrite Hf. unfold zlen. rewrite Nat2Z.id, firstn_all.
    by apply prefix_app.
  - cbn [fmap list_fmap concat]. rewrite app_nil_r. apply prefix_app_r, prefix_take.
Qed.

Lemma concat_prefix {A} (l k : list (list A)) : l `prefix_of` k → concat l `prefix_of` concat k.
Proof. intros [m ->]. rewrite concat_app. by eexists. Qed.

Context `{SubscriptionIndex} `{Hash str}.

(** From the topic to the screen of a subscriber: up to the first write to its FIFO that
    fails or is short, and whatever the producers, the other subscribers and the worker do,
    what the client prints is the first of the topic's messages from the start offset on
    whose key starts with the prefix, in order, each once, however the deliveries are cut
    into reads and whenever the client leaves. *)
Theorem subscriber_prints_the_topic (this this1 : Topic.t) (ws ws1 : world) (id p path : str)
    (start : Z) (ops : list Topic.op)
    (Hwf : Topic.wf this ws) (Hserving : Topic.serving this) (Hstart : u32 start)
    (Hadd : Topic.add_subscriber id p path start this ws = Done (true, this1, ws1))
    (Hops : Forall Topic.op_valid ops) (Hspare : Forall (Topic.spares id) ops)
    (Hlen : zlen (Topic.messages this) + Topic.appended ops < 2 ^ 32) :
  ∃ fd this2 ws2 s,
    Topic.fifo_fd <$> Topic.subs this1 !! id = Some fd ∧
    Topic.run_ops (ops ++ [Topic.Op_run]) this1 ws1 = Done (this2, ws2) ∧
    Topic.subs this2 !! id = Some s ∧
    let sent := session_writes fd (drop (length (trace ws1)) (trace ws2)) in
    let due := filter (Topic.wanted p) (drop (Z.to_nat start) (Topic.messages this2)) in
    ∀ fuel command io w exit_code io' w' fin,
      Topic.fifo_fd s = fd ∧ Forall full sent ∧ (fin = [] ∨ fin = Protocol.serialize_shutdown) ∨
      fin = [] →
      Forall fits (delivery_of <$> due) →
      Subscriber.execute_subscriber_command fuel command io w = Done (exit_code, io', w') →
      (∀ rd, consumed rd (drop (length (trace w)) (trace w')) `prefix_of`
             Protocol.serialize_response Protocol.SUCCESS [] ++ taken (undamaged sent) ++ fin) →
      ∃ ds, ds `prefix_of` delivery_of <$> due ∧
            Console.cout io' = foldl (Subscriber.show command) (Console.cout io) ds.
Proof.
  destruct (Topic.subscription_delivers this this1 ws ws1 id p path start ops
    Hwf Hserving Hstart Hadd Hops Hspare Hlen) as (fd & this2 & ws2 & s & Hfd & Hrun & Hs & Hsent).
  exists fd, this2, ws2, s. split; [done|]. split; [done|]. split; [done|]. cbv zeta in *.
  intros fuel command io w exit_code io' w' fin Hlast Hfits Hc Hfifo.
  eapply (subscriber_reads _ _ _ _ _ _ _ _ fin); [exact Hc|exact Hfits|tauto|].
  intros rd. etransitivity; [apply Hfifo|]. apply prefix_app.
  assert ((session_writes fd (drop (length (trace ws1)) (trace ws2))).*1 `prefix_of`
    Topic.frame <$> filter (Topic.wanted p) (drop (Z.to_nat start) (Topic.messages this2))) as Hpre
    by (destruct Hsent as [(_ & -> & _)|[_ ?]]; done).
  rewrite <- list_fmap_compose. change (Subscriber.frame ∘ delivery_of) with Topic.frame.
  destruct Hlast as [(Hopen & Hfull & _)| ->].
  - rewrite undamaged_full, taken_full by done. destruct Hsent as [(_ & -> & _)|[Hclosed _]]; [done|].
    exfalso. pose proof (Topic.add_subscriber_facts this ws id p path start Hwf Hstart)
      as (b & this1' & ws1' & Hadd' & _ & _ & _ & _ & _ & Hb).
    rewrite Hadd in Hadd'. injection Hadd' as <- <- <-. destruct Hb as (fd' & Hpos & _ & _ & _ & Hsub).
    rewrite Hsub, lookup_insert_eq in Hfd. injection Hfd as Hfd. simpl in Hfd. lia.
  - rewrite !app_nil_r. etransitivity; [by apply taken_prefix|by apply concat_prefix].
Qed.

(** What a client prints of the writes of a session, which may end with the notice. *)
Lemma sent_is_printed p (msgs : list Topic.Message) sent fuel command io w exit_code io' w' :
  let due := filter (Topic.wanted p) msgs in
  sent.*1 `prefix_of` (Topic.frame <$> due) ++ [Protocol.serialize_shutdown] →
  Forall fits (delivery_of <$> due) →
  Subscriber.execute_subscriber_command fuel command io w = Done (exit_code, io', w') →
  (∀ rd, consumed rd (drop (length (trace w)) (trace w')) `prefix_of`
         Protocol.serialize_response Protocol.SUCCESS [] ++ taken (undamaged sent)) →
  ∃ ds, ds `prefix_of` delivery_of <$> due ∧
        Console.cout io' = foldl (Subscriber.show command) (Console.cout io) ds.
Proof.
  intros due Hsent Hfits Hc Hfifo.
  eapply (subscriber_reads _ _ _ _ _ _ _ _ Protocol.serialize_shutdown);
    [exact Hc|exact Hfits|by right|].
  intros rd. etransitivity; [apply Hfifo|]. apply prefix_app.
  rewrite <- list_fmap_compose. change (Subscriber.frame ∘ delivery_of) with Topic.frame.
  etransitivity; [apply taken_prefix|]. apply concat_prefix in Hsent.
  rewrite concat_app in Hsent. cbn [concat] in Hsent. by rewrite app_nil_r in Hsent.
Qed.

(** The request that a command line to subscribe makes. *)
Definition request_of (command : Command.Command) (pid : Z) : Protocol.request :=
  Protocol.Req_subscribe pid (Command.subscriber command) (Command.topic command)
    (Command.prefix command)
    (if Command.has_offset command then Command.offset command else Protocol.OFFSET_UNSET).

Context `{Hash Z}.

(** C2: From the request of a subscriber to its screen. Once the server has accepted the
    request and opened the client's FIFO, and whatever requests of other clients, turns of
    workers and ends of writes come between, until the topic's worker has its turn and the
    server is stopped: as long as the client reads nothing that was written after a failed or
    short write to its FIFO, what it prints is the first of the messages of the topic, from
    the offset that it asked for or had acknowledged on, whose key starts with its prefix, in
    order, each once, wherever it stops reading. It is all of them if no write failed or was
    short and the client ended well, having read all that it was sent. (After a short write
    the server goes on with the next frame, and the stream means nothing from there on:
    [short_write_garbles].) *)
Theorem subscription_reaches_the_screen (command : Command.Command) (pid : Z)
    (es : list Session.happening) (this this1 : Server.t) (ws ws1 : world) (tp tp1 : Topic.t)
    (Hwf : Server.wf this ws) (Hfifo : is_Some (Server.fifo_fd this))
    (Hrunning : Server.running this = true)
    (Hsend : Server.sendable (request_of command pid))
    (Haccept : Server.accepts (Command.subscriber command) (Command.topic command) this ws = true)
    (Hhandle : Server.handle (request_of command pid) this ws = Done (this1, ws1))
    (Htopic : Server.get_topic (Command.topic command) this = Some tp)
    (Hserving : Topic.serving tp)
    (Htopic1 : Server.get_topic (Command.topic command) this1 = Some tp1)
    (Hopened : is_Some (Topic.subs tp1 !! Command.subscriber command))
    (Hes : Forall Session.valid es)
    (Hspare : Forall (Session.spares (Command.subscriber command)) es)
    (Hroom : Session.room (Session.published es) this) :
  ∃ fd this2 ws2 tp2 s this3 ws3,
    Topic.fifo_fd <$> Topic.subs tp1 !! Command.subscriber command = Some fd ∧
    Session.run (es ++ [Session.Works (Command.topic command)]) this1 ws1 = Done (this2, ws2) ∧
    Server.get_topic (Command.topic command) this2 = Some tp2 ∧
    Topic.subs tp2 !! Command.subscriber command = Some s ∧
    Server.stop this2 ws2 = Done (this3, ws3) ∧
    let sent := session_writes fd (drop (length (trace ws1)) (trace ws3)) in
    let start := Server.first_offset (Command.subscriber command)
      (if Command.has_offset command then Command.offset command else Protocol.OFFSET_UNSET) this in
    let due := delivery_of <$> filter (Topic.wanted (Command.prefix command))
                 (drop (Z.to_nat start) (Topic.messages tp2)) in
    ∀ fuel io w exit_code io' w',
      Forall fits due →
      Subscriber.execute_subscriber_command fuel command io w = Done (exit_code, io', w') →
      (∀ rd, consumed rd (drop (length (trace w)) (trace w')) `prefix_of`
             Protocol.serialize_response Protocol.SUCCESS [] ++ taken (undamaged sent)) →
      (∃ ds, ds `prefix_of` due ∧
             Console.cout io' = foldl (Subscriber.show command) (Console.cout io) ds) ∧
      (Topic.fifo_fd s = fd → Forall full sent → exit_code = 0 →
       (∀ rd, consumed rd (drop (length (trace w)) (trace w')) ≠ [] →
          consumed rd (drop (length (trace w)) (trace w')) =
            Protocol.serialize_response Protocol.SUCCESS [] ++ taken sent) →
       Console.cout io' = foldl (Subscriber.show command) (Console.cout io) due).
Proof.
  destruct (Session.session_delivers pid _ _ _ _ es this ws this1 ws1 tp tp1 Hwf Hfifo Hrunning Hsend
    Haccept Hhandle Htopic Hserving Htopic1 Hopened Hes Hspare Hroom)
    as (fd & this2 & ws2 & tp2 & s & this3 & ws3 & Hfd & Hpos & Hrun & Htp2 & Hs & Hstop & Hsent).
  exists fd, this2, ws2, tp2, s, this3, ws3. do 5 (split; [done|]). cbv zeta in *.
  intros fuel io w exit_code io' w' Hfits Hc Hread. split.
  - eapply sent_is_printed; [|exact Hfits|exact Hc|exact Hread].
    destruct Hsent as [(_ & Hdue & _ & ret & ->)|(_ & Hdue & ->)].
    + by rewrite fmap_app, Hdue.
    + by apply prefix_app_r.
  - intros Hopen Hfull -> Hall. eapply subscriber_reads_all; [exact Hc|exact Hfits|].
    intros rd Hne. rewrite (Hall rd Hne), taken_full by done. f_equal.
    rewrite <- list_fmap_compose. change (Subscriber.frame ∘ delivery_of) with Topic.frame.
    destruct Hsent as [(_ & Hdue & _ & ret & ->)|(Hclosed & _)]; [|lia].
    rewrite fmap_app, concat_app, Hdue. cbn [fmap list_fmap concat fst]. by rewrite app_nil_r.
Qed.

End Delivering.

(** ** From a subscriber back to the server *)

Section Acknowledging.
Context `{KernelLaws} `{SubscriptionIndex} `{Hash str} `{Hash Z}.

Lemma ack_all id os this w meta :
  Server.wf this w → Text.is_valid_identifier id = true → Forall u32 os →
  HashMap.find id (Server.client_index this) = Some meta →
  ∃ this', Server.handle_all (Protocol.Req_ack id <$> os) this w = Done (this', w) ∧
    Server.wf this' w ∧ (∀ n, Server.get_topic n this' = Server.get_topic n this) ∧
    HashMap.find id (Server.client_index this') =
      Some (foldl (λ meta o, Server.with_offset o meta) meta os).
Proof.
  intros Hwf Hid Hos. revert this meta Hwf. induction Hos as [|o os Ho Hos IH]; intros this meta Hwf Hf.
  { by exists this. }
  pose proof (Server.sendable_ack id o Hid Ho) as Hs.
  destruct (Server.handle_ok _ this w Hwf Hs) as (this1 & w1 & Hh & Hwf1 & _).
  pose proof Hh as Heq. rewrite Server.handle_ack_eq, Hf in Heq by done. injection Heq as Heq <-.
  assert (HashMap.find id (Server.client_index this1) = Some (Server.with_offset o meta)) as Hf1.
  { rewrite <- Heq. simpl. rewrite HashMap.find_write by apply Hwf. by rewrite decide_True, Hf. }
  destruct (IH this1 _ Hwf1 Hf1) as (this2 & Hh2 & Hwf2 & Ht2 & Hf2).
  exists this2. cbn [fmap list_fmap Server.handle_all]. rewrite Hh. split_and!; [done|done| |done].
  intros n. by rewrite Ht2, <- Heq.
Qed.

(** The offset that a delivery is acknowledged with. *)
Definition next_after (d : Subscriber.delivery) : Z := wrap32 (d.1.1 + 1).

Definition next_offsets (ds : list Subscriber.delivery) : list Z := next_after <$> ds.

Lemma acks_are_requests command ds :
  concat (Subscriber.ack command <$> ds) =
  concat (Protocol.serialize_request <$>
          (Protocol.Req_ack (Command.subscriber command) <$> next_offsets ds)).
Proof.
  unfold next_offsets. rewrite <- !list_fmap_compose. f_equal.
  apply list_fmap_ext. by intros i [[o k] v] _.
Qed.

Lemma last_offset meta ds d :
  foldl (λ meta o, Server.with_offset o meta) meta (next_offsets (ds ++ [d])) =
  Server.with_offset (next_after d) meta.
Proof.
  unfold next_offsets. rewrite fmap_app, foldl_app. cbn [fmap list_fmap foldl].
  revert meta. induction ds as [|d' ds IH]; intros meta; [done|]. cbn [fmap list_fmap foldl].
  rewrite IH. by destruct meta.
Qed.

(** C3: Nothing is lost and nothing repeated when a subscriber comes back: after the server
    has received, in whatever pieces, the acknowledgements of the deliveries that were
    printed, the farewell and a new subscription without an offset, it serves the
    subscriber from the offset that follows the last delivery printed. *)
Theorem subscriber_resumes_after_last_printed (command : Command.Command)
    (ds : list Subscriber.delivery) (d : Subscriber.delivery) (pid : Z) (chunks : list str)
    (this : Server.t) (w : world)
    (Hwf : Server.wf this w)
    (Hid : Text.is_valid_identifier (Command.subscriber command) = true)
    (Hname : Text.is_valid_identifier (Command.topic command) = true)
    (Hprefix : zlen (Command.prefix command) < 2 ^ 30) (Hoffset : Command.has_offset command = false)
    (Hpid : u32 pid)
    (Hknown : is_Some (HashMap.find (Command.subscriber command) (Server.client_index this)))
    (Htopic : is_Some (Server.get_topic (Command.topic command) this))
    (Hchunks : concat chunks =
       concat (Subscriber.ack command <$> ds ++ [d]) ++
       Protocol.serialize_disconnect (Command.subscriber command) ++
       Subscriber.subscription command pid)
    (Hlen : zlen (concat chunks) < 2 ^ 62) :
  ∃ this' w' tp, Server.receive_all chunks [] this w = Done ([], this', w') ∧ Server.wf this' w' ∧
    HashMap.find (Command.subscriber command) (Server.client_index this') =
      Some (Server.mkMetadata (Command.subscriber command) (Command.topic command)
              (next_after d) (Command.prefix command) (Server.response_fifo pid) true) ∧
    Server.get_topic (Command.topic command) this' = Some tp ∧
    ∀ s, HashMap.find (Command.subscriber command) (Topic.subscribers tp) = Some s →
         Topic.next_offset s = next_after d ∧ Topic.sub_prefix s = Command.prefix command.
Proof.
  set (id := Command.subscriber command) in *. destruct Hknown as [meta Hmeta].
  set (acks := Protocol.Req_ack id <$> next_offsets (ds ++ [d])).
  set (hello := Protocol.Req_subscribe pid id (Command.topic command) (Command.prefix command)
                  Protocol.OFFSET_UNSET).
  assert (Forall u32 (next_offsets (ds ++ [d]))) as Hos.
  { unfold next_offsets. apply Forall_fmap, Forall_true. intros d'. apply wrap32_range. }
  pose proof (Server.sendable_disconnect id Hid) as Hbye.
  assert (Server.sendable hello) as Hhello by (by apply Server.sendable_subscribe).
  destruct (ack_all id _ this w meta Hwf Hid Hos Hmeta) as (this1 & Hh1 & Hwf1 & Ht1 & Hf1).
  rewrite last_offset in Hf1.
  destruct (Server.handle_disconnect_known id _ this1 w Hwf1 Hbye Hf1)
    as (this2 & w2 & Hh2 & Hwf2 & Hf2 & Ht2).
  destruct (Server.handle_resubscribe pid id (Command.topic command) (Command.prefix command) _
    this2 w2 Hwf2 Hhello Hid Hname Hf2 eq_refl) as (this3 & w3 & tp & Hh3 & Hf3 & Ht3 & Hsub).
  { apply Ht2. by rewrite Ht1. }
  destruct (Server.handle_ok _ this2 w2 Hwf2 Hhello) as (this3' & w3' & Hh3' & Hwf3 & _).
  fold hello in Hh3. rewrite Hh3 in Hh3'. injection Hh3' as <- <-.
  destruct (Server.receive_requests chunks (acks ++ [Protocol.Req_disconnect id; hello]) [] this w Hwf)
    as (rs1 & rs2 & part & Hsplit & _ & _ & _ & Hall & Hrun); [| |done|].
  - apply Forall_app. split; [|by apply Forall_cons; split; [|apply Forall_singleton]].
    apply Forall_fmap.
    eapply Forall_impl; [exact Hos|]. intros o Ho. by apply Server.sendable_ack.
  - rewrite app_nil_r, Hchunks, acks_are_requests, fmap_app, concat_app. f_equal.
    cbn [fmap list_fmap concat]. rewrite app_nil_r. unfold Subscriber.subscription. by rewrite Hoffset.
  - destruct (Hall eq_refl) as [-> ->]. rewrite app_nil_r in Hsplit. subst rs1.
    exists this3, w3, tp. rewrite Hrun, Server.handle_all_app. unfold acks. rewrite Hh1.
    cbn [mbind outcome_bind Server.handle_all]. rewrite Hh2. cbn [mbind outcome_bind]. rewrite Hh3.
    split_and!; [done|exact Hwf3|exact Hf3|exact Ht3|exact Hsub].
Qed.

End Acknowledging.

(** ** Witnesses *)

Module Witness.

Import World.Simple PrefixTree.Witness Topic.Witness Server.Witness.

(** The producer publishes the message before the malformed line, and exits with one; the
    server of [Server.Witness] receives its frame in two pieces. *)
Lemma stored_witness :
  ∃ io' w' put,
    yields (λ fuel, Producer.execute_producer_command fuel Producer.Witness.produce
              Producer.Witness.malformed Producer.Witness.listening) (1, io', w') ∧
    (∀ rd, Ipc.only_talked rd 3 [] put Producer.Witness.greeted w') ∧
    ∃ this', Server.receive_all [take 20 put; drop 20 put] [] served.1 served.2 =
               Done ([], this', served.2) ∧
      Topic.messages <$> Server.get_topic $"news" this' =
        (λ tp, Topic.messages tp ++
               Session.stored (zlen (Topic.messages tp)) [($"eu.de", $"1")]) <$>
          Server.get_topic $"news" served.1.
Proof.
  destruct (produced_messages_are_stored Producer.Witness.produce Producer.Witness.malformed
    Producer.Witness.listening eq_refl eq_refl)
    as (ms & code & c & io1 & w1 & exit_code & io' & w' & put & Hin & Hy & Hyc & _ & Hp & _ & Hserver).
  destruct (Producer.text_input_unique _ _ _ _ _ _ Hin Producer.Witness.malformed_reads) as [-> ->].
  pose proof (yields_at_1 (λ r, r.1.1) _ _ _ 300 Hy Producer.Witness.malformed_exits) as Hexit.
  cbn [fst snd] in Hexit. rewrite Hexit in *. clear Hexit exit_code.
  destruct (triple_eq _ _ _ _ _ _ (yields_at _ _ _ 300 Hyc Producer.Witness.malformed_connects))
    as (-> & -> & ->).
  destruct Producer.Witness.greeted_opens as [w2 Hopen].
  destruct (Producer.produces_opened _ _ _ _ _ _ _ _ _ Hp Hopen eq_refl ltac:(done)) as (_ & Hput & Ht).
  rewrite <- Hput in Ht. exists io', w', put. split; [exact Hy|]. split; [exact Ht|].
  destruct (Hserver served.1 served.2 [take 20 put; drop 20 put] served_wf
    ltac:(cbn [concat]; rewrite app_nil_r; apply take_drop)
    ltac:(rewrite Hput; vm_compute; reflexivity))
    as (k & rest & this' & _ & Hrun & _ & Heff & Hall).
  destruct (Hall Hput) as [-> ->]. exists this'. split; [exact Hrun|]. exact (Heff $"news").
Defined.

(** The topic of [Topic.Witness], after its worker has run. *)
Definition final : Topic.t * world :=
  match Topic.run_ops (publish ++ [Topic.Op_run]) topic1 world1 with
  | Done s => s
  | _ => (topic1, world1)
  end.

Abbreviation sent_to_alice :=
  (session_writes 3 (drop (length (trace world1)) (trace final.2))).

(** What was written to the subscriber, read in pieces of seven bytes. *)
Definition reading : world :=
  mkWorld (mkState [] [] []
    [Protocol.serialize_response Protocol.SUCCESS [];
     take 7 (concat sent_to_alice.*1); drop 7 (concat sent_to_alice.*1)] 0) [].

Definition alice : Command.Command :=
  Command.mkCommand Protocol.SUBSCRIBE $"/s" $"news" $"alice" $"eu." 0 false false.

Abbreviation read_by_alice :=
  (Subscriber.execute_subscriber_command 300 alice (Console.console []) reading).

Example alice_reads_the_topic :
  match read_by_alice with
  | Done (exit_code, io, _) =>
      exit_code = 0 ∧
      Console.out (Console.cout io) = $"eu.de:1" ++ Console.newline ++ $"eu.fr:3" ++ Console.newline
  | _ => False
  end.
Proof. vm_compute. by split. Qed.

(** The system takes the header of the first delivery only; the second delivery follows, and
    the client prints what no message says. *)
Example short_write_garbles :
  match Topic.run_ops [Topic.Op_append $"eu.de" $"1"; Topic.Op_append $"eu.fr" $"3"; Topic.Op_run]
          topic1 (mkWorld (mkState (fds (kernel world1)) [12] [] [] 0) (trace world1)) with
  | Done (_, ws) =>
      let sent := session_writes 3 (drop (length (trace world1)) (trace ws)) in
      sent.*2 = [12; 18] ∧ undamaged sent = take 1 sent ∧
      match Subscriber.execute_subscriber_command 300 alice (Console.console [])
              (mkWorld (mkState [] [] []
                 [Protocol.serialize_response Protocol.SUCCESS []; taken sent] 0) []) with
      | Done (exit_code, io, _) =>
          exit_code = 3 ∧
          Console.out (Console.cout io) =
            [Byte.x01; Byte.x00; Byte.x00; Byte.x00; Byte.x05] ++ $":" ++ [Byte.x00] ++ Console.newline
      | _ => False
      end
  | _ => False
  end.
Proof. vm_compute. by split_and!. Qed.

Lemma run_final : Topic.run_ops (publish ++ [Topic.Op_run]) topic1 world1 = Done final.
Proof.
  unfold final.
  assert (match Topic.run_ops (publish ++ [Topic.Op_run]) topic1 world1 with
          | Done _ => true | _ => false end = true) as Hr by (vm_compute; reflexivity).
  by destruct (Topic.run_ops (publish ++ [Topic.Op_run]) topic1 world1) as [[? ?]| |].
Qed.

(** Reads come from descriptor 3 only. *)
Definition reads_3 (e : event) : bool :=
  match e with EvRead fd bytes => (fd =? 3) || bool_decide (bytes = []) | _ => true end.

Lemma consumed_3 rd tr : rd ≠ 3 → forallb reads_3 tr = true → consumed rd tr = [].
Proof.
  intros Hne. induction tr as [|e tr IH]; [done|]. cbn [forallb]. intros [He Htr]%andb_true_iff.
  destruct e as [| | |fd bytes]; simpl; auto. simpl in He. case_decide as Hd; [|auto].
  subst fd. apply orb_true_iff in He as [He|He]; [by apply Z.eqb_eq in He|].
  apply bool_decide_eq_true in He. by rewrite He, IH.
Qed.

Lemma alice_facts :
  ∃ exit_code io' w', read_by_alice = Done (exit_code, io', w') ∧
    ∀ rd, consumed rd (drop (length (trace reading)) (trace w')) `prefix_of`
          Protocol.serialize_response Protocol.SUCCESS [] ++
          taken (undamaged sent_to_alice) ++ [].
Proof.
  assert (match read_by_alice with
          | Done (_, _, w') =>
              forallb reads_3 (trace w') &&
              bool_decide (consumed 3 (trace w') =
                Protocol.serialize_response Protocol.SUCCESS [] ++
                taken (undamaged sent_to_alice) ++ [])
          | _ => false
          end = true) as Hr by (vm_compute; reflexivity).
  destruct read_by_alice as [[[exit_code io'] w']| |]; [|done..].
  apply andb_true_iff in Hr as [Hreads Hread]. apply bool_decide_eq_true in Hread.
  exists exit_code, io', w'. split; [done|]. intros rd. change (drop _ (trace w')) with (trace w').
  destruct (decide (rd = 3)) as [->|Hne]; [by rewrite Hread|].
  rewrite consumed_3 by done. apply prefix_nil.
Qed.

Lemma final_facts s :
  Topic.subs final.1 !! id = Some s → Topic.fifo_fd s = 3.
Proof.
  intros Hs. assert (Topic.fifo_fd <$> Topic.subs final.1 !! id = Some 3) as Hf
    by (vm_compute; reflexivity). rewrite Hs in Hf. by injection Hf.
Qed.

Lemma alice_is_sent_everything :
  Forall full sent_to_alice ∧
  Forall fits (delivery_of <$> filter (Topic.wanted $"eu.") (drop (Z.to_nat 0) (Topic.messages final.1))).
Proof. split; apply (bool_decide_eq_true_1 _); vm_compute; reflexivity. Qed.

Lemma prints_witness :
  ∃ exit_code io' w' ds, read_by_alice = Done (exit_code, io', w') ∧
    ds `prefix_of` delivery_of <$> filter (Topic.wanted $"eu.") (drop (Z.to_nat 0) (Topic.messages final.1)) ∧
    Console.cout io' = foldl (Subscriber.show alice) (Console.cout (Console.console [])) ds.
Proof.
  destruct (subscriber_prints_the_topic (Topic.make $"news") topic1 start world1 id $"eu." $"/tmp/a"
    0 publish) as (fd & this2 & ws2 & s & Hfd & Hrun & Hs & Hreads).
  - apply Topic.make_wf.
  - split; reflexivity.
  - by vm_compute.
  - exact added_eq.
  - repeat constructor; by vm_compute.
  - repeat constructor; discriminate.
  - by vm_compute.
  - rewrite run_final in Hrun. assert (final = (this2, ws2)) as Hfinal by congruence.
    assert (Topic.fifo_fd <$> Topic.subs topic1 !! id = Some 3) as Hfd' by (vm_compute; reflexivity).
    assert (fd = 3) as -> by congruence.
    assert (this2 = final.1) as -> by (by rewrite Hfinal).
    assert (ws2 = final.2) as -> by (by rewrite Hfinal). clear Hfinal Hrun Hfd.
    destruct alice_facts as (exit_code & io' & w' & Hc & Hfifo).
    pose proof alice_is_sent_everything as [Hfull Hfits]. cbv zeta in Hreads.
    destruct (Hreads 300%nat alice (Console.console []) reading exit_code io' w' [])
      as (ds & Hp & Ho).
    + left. exact (conj (final_facts s Hs) (conj Hfull (or_introl eq_refl))).
    + exact Hfits.
    + exact Hc.
    + exact Hfifo.
    + exists exit_code, io', w', ds. exact (conj Hc (conj Hp Ho)).
Defined.

(** The server of [Server.Witness] with the topic news, to which alice subscribes; others
    publish and subscribe, the worker takes two turns and the server stops. *)
Definition outcome_of (r : outcome (Server.t * world)) : Server.t * world :=
  match r with Done s => s | _ => (server0, world0) end.

Definition created : Server.t * world :=
  outcome_of (Server.handle_all [Protocol.Req_create 7 $"news"] server0 world0).
Definition greeted : Server.t * world :=
  outcome_of (Server.handle (request_of alice 42) created.1 created.2).
Definition happenings : list Session.happening :=
  [Session.Requests (Protocol.Req_produce $"news" $"eu.de" $"1");
   Session.Requests (Protocol.Req_subscribe 9 $"bob" $"news" [] 0); Session.Works $"news";
   Session.Requests (Protocol.Req_produce $"news" $"us" $"2");
   Session.Requests (Protocol.Req_produce $"news" $"eu.fr" $"3")].
Definition ran : Server.t * world :=
  outcome_of (Session.run (happenings ++ [Session.Works $"news"]) greeted.1 greeted.2).
Definition stopped : Server.t * world := outcome_of (Server.stop ran.1 ran.2).

Definition topic_of (s : Server.t * world) : Topic.t :=
  default (Topic.make $"news") (Server.get_topic $"news" s.1).

Abbreviation sent_in_session :=
  (session_writes 4 (drop (length (trace greeted.2)) (trace stopped.2))).

(** What was written to alice, the notice included, read in two pieces. *)
Definition reading_session : world :=
  mkWorld (mkState [] [] []
    [Protocol.serialize_response Protocol.SUCCESS [];
     take 7 (concat sent_in_session.*1); drop 7 (concat sent_in_session.*1)] 0) [].

Abbreviation session_of_alice :=
  (Subscriber.execute_subscriber_command 300 alice (Console.console []) reading_session).

Lemma is_done (r : outcome (Server.t * world)) :
  match r with Done _ => true | _ => false end = true → r = Done (outcome_of r).
Proof. by destruct r. Qed.

Lemma session_runs :
  Server.handle (request_of alice 42) created.1 created.2 = Done (greeted.1, greeted.2) ∧
  Session.run (happenings ++ [Session.Works (Command.topic alice)]) greeted.1 greeted.2 = Done ran ∧
  Server.stop ran.1 ran.2 = Done stopped.
Proof.
  split_and!; [rewrite <- surjective_pairing|..]; apply is_done; vm_compute; reflexivity.
Qed.

Lemma hello_sendable : Server.sendable (request_of alice 42).
Proof. split; by vm_compute. Qed.

Lemma created_wf : Server.wf created.1 created.2.
Proof.
  destruct (Server.handle_all_ok [Protocol.Req_create 7 $"news"] server0 world0 server0_wf)
    as (this' & w' & Hh & Hwf & _); [apply Forall_singleton; split; by vm_compute|].
  unfold created. by rewrite Hh.
Qed.

Lemma session_starts :
  Server.get_topic (Command.topic alice) created.1 = Some (topic_of created) ∧
  Topic.serving (topic_of created) ∧
  Server.get_topic (Command.topic alice) greeted.1 = Some (topic_of greeted) ∧
  is_Some (Topic.subs (topic_of greeted) !! Command.subscriber alice) ∧
  Server.get_topic (Command.topic alice) ran.1 = Some (topic_of ran) ∧
  Topic.fifo_fd <$> Topic.subs (topic_of greeted) !! Command.subscriber alice = Some 4 ∧
  Topic.fifo_fd <$> Topic.subs (topic_of ran) !! Command.subscriber alice = Some 4.
Proof.
  assert (∀ (s : Server.t * world), is_Some (Server.get_topic $"news" s.1) →
    Server.get_topic $"news" s.1 = Some (topic_of s)) as Htopic
    by (unfold topic_of; by intros s [tp ->]).
  split_and!; try (apply Htopic, shown; vm_compute; reflexivity).
  - split; vm_compute; reflexivity.
  - apply shown. vm_compute. reflexivity.
  - vm_compute. reflexivity.
  - vm_compute. reflexivity.
Qed.

Lemma session_is_read :
  ∃ io' w', session_of_alice = Done (0, io', w') ∧
    ∀ rd, consumed rd (drop (length (trace reading_session)) (trace w')) ≠ [] →
          consumed rd (drop (length (trace reading_session)) (trace w')) =
          Protocol.serialize_response Protocol.SUCCESS [] ++ taken sent_in_session.
Proof.
  assert (match session_of_alice with
          | Done (exit_code, _, w') =>
              (exit_code =? 0) && forallb reads_3 (trace w') &&
              bool_decide (consumed 3 (trace w') =
                Protocol.serialize_response Protocol.SUCCESS [] ++ taken sent_in_session)
          | _ => false
          end = true) as Hr by (vm_compute; reflexivity).
  destruct session_of_alice as [[[exit_code io'] w']| |]; [|done..].
  apply andb_true_iff in Hr as [Hr Hread]. apply andb_true_iff in Hr as [Hcode Hreads].
  apply Z.eqb_eq in Hcode as ->. apply bool_decide_eq_true in Hread.
  exists io', w'. split; [done|]. intros rd. change (drop _ (trace w')) with (trace w').
  destruct (decide (rd = 3)) as [->|Hne]; [done|]. by rewrite consumed_3.
Qed.

Abbreviation due_to_alice :=
  (delivery_of <$> filter (Topic.wanted (Command.prefix alice)) (drop (Z.to_nat 0) (Topic.messages (topic_of ran)))).

Lemma session_facts :
  Forall full sent_in_session ∧
  Forall fits due_to_alice ∧
  Server.first_offset (Command.subscriber alice)
    (if Command.has_offset alice then Command.offset alice else Protocol.OFFSET_UNSET) created.1 = 0 ∧
  Server.accepts (Command.subscriber alice) (Command.topic alice) created.1 created.2 = true ∧
  is_Some (Server.fifo_fd created.1) ∧ Server.running created.1 = true.
Proof.
  split_and!; apply (bool_decide_eq_true_1 _); vm_compute; reflexivity.
Qed.

Lemma session_room : Session.room (Session.published happenings) created.1.
Proof.
  apply Session.room_entries; [apply created_wf|done|]. vm_compute. reflexivity.
Qed.

Lemma happenings_valid : Forall Session.valid happenings ∧ Forall (Session.spares (Command.subscriber alice)) happenings.
Proof.
  split; repeat (apply Forall_cons; split); try apply Forall_nil; try done; split; by vm_compute.
Qed.

Lemma reaches_witness :
  ∃ io' w', session_of_alice = Done (0, io', w') ∧
    Console.cout io' = foldl (Subscriber.show alice) (Console.cout (Console.console [])) due_to_alice.
Proof.
  destruct session_runs as (Hgreet & Hrun & Hstop).
  destruct session_starts as (Ht & Hserv & Ht1 & Hin & Hran & Hfd1 & Hfd2).
  destruct session_facts as (Hfull & Hfits & Hstart & Hacc & Hf & Hr).
  destruct happenings_valid as [Hv Hsp].
  destruct (subscription_reaches_the_screen alice 42 happenings created.1 greeted.1 created.2
    greeted.2 (topic_of created) (topic_of greeted) created_wf Hf Hr hello_sendable
    Hacc Hgreet Ht Hserv Ht1 Hin Hv Hsp session_room)
    as (fd & this2 & ws2 & tp2 & s & this3 & ws3 & Hfd & Hrun' & Htp2 & Hs & Hstop' & Hreads).
  rewrite Hrun in Hrun'. assert (ran = (this2, ws2)) as Eran by congruence.
  assert (this2 = ran.1) as -> by (by rewrite Eran). assert (ws2 = ran.2) as -> by (by rewrite Eran).
  clear Eran Hrun'. rewrite Hstop in Hstop'. assert (stopped = (this3, ws3)) as Est by congruence.
  assert (ws3 = stopped.2) as -> by (by rewrite Est). clear Est Hstop'.
  rewrite Hran in Htp2. assert (tp2 = topic_of ran) as -> by congruence. clear Htp2.
  assert (fd = 4) as -> by congruence. rewrite Hs in Hfd2.
  assert (Topic.fifo_fd s = 4) as Hopen by (cbn [fmap option_fmap option_map] in Hfd2; congruence).
  destruct session_is_read as (io' & w' & Hc & Hread). cbv zeta in Hreads. rewrite Hstart in Hreads.
  exists io', w'. split; [exact Hc|].
  destruct (Hreads 300%nat (Console.console []) reading_session 0 io' w' Hfits Hc)
    as [_ Hall].
  - intros rd. destruct (decide (consumed rd (drop (length (trace reading_session)) (trace w')) = []))
      as [->|Hne]; [apply prefix_nil|]. by rewrite (Hread rd Hne), undamaged_full.
  - exact (Hall Hopen Hfull eq_refl Hread).
Defined.

Lemma resume_last_witness :
  ∃ this' w', Server.receive_all
      [concat (Subscriber.ack alice <$> [(0, $"eu.de", $"1"); (2, $"eu.fr", $"3")]);
       Protocol.serialize_disconnect $"alice" ++ Subscriber.subscription alice 42] []
      served.1 served.2 = Done ([], this', w') ∧
    HashMap.find $"alice" (Server.client_index this') =
      Some (Server.mkMetadata $"alice" $"news" 3 $"eu." (Server.response_fifo 42) true).
Proof.
  destruct served_facts as (Hk & Hn & _).
  destruct (subscriber_resumes_after_last_printed alice [(0, $"eu.de", $"1")] (2, $"eu.fr", $"3") 42
    [concat (Subscriber.ack alice <$> [(0, $"eu.de", $"1"); (2, $"eu.fr", $"3")]);
     Protocol.serialize_disconnect $"alice" ++ Subscriber.subscription alice 42]
    served.1 served.2 served_wf eq_refl eq_refl)
    as (this' & w' & tp & Hr & _ & Hf & _);
    [by vm_compute|reflexivity|by vm_compute|exact Hk|exact Hn|by vm_compute|by vm_compute|].
  exists this', w'. exact (conj Hr Hf).
Defined.

End Witness.

End System.
